(* ===== verification/_CoqProject ===== *)
-Q . S2P
Prelude.v
Sharding.v
Clock.v
LogTypes.v
BTreeMap.v
Locality.v
Replication.v
LogChain.v
LogsBuilder.v
NodesConfig.v
NodeSetChecker.v
Quorums.v
LogServer.v
LogServerProps.v
LogServerSafety.v
LogServerReads.v
ReplicatedLoglet.v
LogletCluster.v
LogletEvidence.v
LogletInv.v
LogletClients.v
LogletSequencer.v
LogletSteps.v
LogletSafety.v
UnresolvedFuture.v
Retries.v
InvokerError.v
InvocationStateMachine.v
Invoker.v
InvokerSystem.v
Invocation.v
InvocationStatus.v
VQueueMeta.v
JournalV1.v
PartitionStore.v
VQueueCache.v
VQueue.v
IdText.v
LogStoreFormat.v
StateMachineBase.v
InvocationLifecycle.v
JournalEntries.v
JournalV1Handlers.v
StateMachine.v
Replicas.v
Demo.v
Determinism.v
Writes.v
Sequences.v
LockService.v
ObjectLocks.v
ObjectTurns.v
JournalProps.v
WakeUps.v
TrimQueue.v
Processor.v
Recovery.v
Dedup.v
