(* ===== verification/Prelude.v ===== *)
(** * Verification of the core of Restate: logs, invoker, partition processor

    Restate is a durable-execution server.  Its state is a set of partitioned
    logs: a key is hashed to a partition, every partition has a log, a log is a
    chain of segments ("loglets"), and a replicated loglet stores each record
    on several nodes of a node set.  A partition processor on each replica
    applies the records of its log to its store: it starts, queues, suspends,
    resumes and ends invocations, keeps their journals, and puts messages for
    other partitions in an outbox.  On the leader the invoker runs the attempts
    of invocations against service endpoints and proposes what they do as new
    records.  This library models these parts as executable definitions
    translated from the Rust sources and proves what makes them correct.

    ** Files, and the sources they model (paths under src/crates)

    - [Prelude] (this file): outcomes of fallible calls ([res], [sm]), machine
      integers, lemmas and tactics shared by the components.
    - [Sharding]: sharding/src/key_range.rs, subsharding.rs, partitioner.rs,
      partition_id.rs.  [ShardPlan] cuts a key range in shards; [split] cuts
      the range in two and maps old shards to new ones; the equal-size
      partitioner cuts the whole key space.
    - [Clock]: clock/src/unique_timestamp.rs, hlc.rs, storage.rs.  Packed
      timestamps, and the hybrid logical clock as a step relation of threads
      that load and compare-exchange one shared cell ([hlc_step]).
    - [LogTypes]: types/src/logs/mod.rs, loglet.rs, tail.rs.  Sequence numbers
      (an instance of the class [SequenceNumber] per type), record keys and
      key filters, loglet ids, tail states.
    - [BTreeMap]: the operations of [std::collections::BTreeMap] that the
      components below use, on sorted association lists.
    - [Locality]: types/src/locality.  Location scopes, node locations, their
      parser and printer.
    - [Replication]: types/src/replication/replication_property.rs.
    - [LogChain]: types/src/logs/metadata.rs.  Segment chains, segment lookup,
      the loglet lookup index, loading of stored metadata.
    - [LogsBuilder]: types/src/logs/builder.rs.  The editing operations, in
      the state-and-error monad [sm] over what a [ChainBuilder] borrows.
    - [NodesConfig]: types/src/nodes_config.rs.  Nodes, roles, storage states
      and tombstones.
    - [NodeSetChecker]: types/src/replication/checker.rs.  Write-quorum and
      f-majority checks over incrementally kept counters.
    - [LogServer]: log-server and the messages of types/src/net/log_server.rs,
      for one loglet.  The worker, its queues of waiters, the writer that
      commits batches, the store with its recovery, reads and digests; a server
      is the step function [server_step] over the turns of worker and writer,
      failed writes and crashes.  [LogServerProps]: the invariant of a server;
      [LogServerSafety], [LogServerReads]: the theorems.  [LogStoreFormat]: the
      encoding of records and keys in the store.
    - [Quorums]: types/src/replicated_loglet/log_nodeset.rs, and what the checks
      of [NodeSetChecker] mean for any type of attributes.
    - [ReplicatedLoglet]: bifrost/src/providers/replicated_loglet.  The sequencer
      and its appenders, the spread selector, the tasks that seal, find the tail,
      repair it, trim and check the seal, and the read stream: one function for
      each thing that can happen to a task.  [LogletCluster]: any number of
      clients, the sequencer and one [LogServer] per node, as the step function
      [cluster_step]; requests are delivered in any order, late, twice or never,
      servers crash, and any answer may be read by any task.
      [LogletEvidence]: what answers prove and when a tail may be taken as
      committed; [LogletInv], [LogletClients], [LogletSequencer], [LogletSteps]:
      the invariant, part by part; [LogletSafety]: the theorems.
    - [UnresolvedFuture]: types/src/journal_v2/unresolved_future.rs,
      notification.rs, raw.rs.  Resolution of the combinator trees an
      invocation waits for.
    - [Retries]: types/src/retries.rs and [add_jitter] of
      util/time/src/duration.rs.  Retry policies, their iterators over exact
      binary32 arithmetic, retry loops.
    - [InvokerError]: invoker-impl/src/error.rs.  The errors of an attempt,
      what they do to retries and what is reported of them.
    - [InvocationStateMachine]: invoker-impl/src/invocation_state_machine.rs.
      The attempts of one invocation and its journal tracker.
    - [Invoker]: invoker-impl/src/lib.rs, state_machine_manager.rs,
      status_store.rs, input_command.rs and worker-api/src/invoker/effects.rs.
      The service: one function per event handler, and [step].
    - [InvokerSystem]: the service composed with the tasks it starts, as the
      step relation [sys_step]; the invariants of the composition; an
      executable driver [run] for concrete traces.

    The partition processor (worker/src/partition, with the types and tables it
    works on):

    - [Invocation]: types/src/identifiers.rs, invocation/mod.rs, errors.rs and
      journal_v2.  Ids, targets, requests, the commands and notifications of a
      journal.
    - [InvocationStatus]: storage-api/src/invocation_status_table.
    - [VQueueMeta]: storage-api/src/vqueue_table.  Metadata and entries of
      virtual queues, with their statistics.
    - [JournalV1]: types/src/journal.  The first journal format.
    - [PartitionStore]: the tables of partition-store as the record [Tables] of
      finite maps, one operation per table access.
    - [VQueueCache]: vqueues/src/cache.rs.  The cache of queue metadata: a slot
      map with an intrusive list of idle queues.
    - [VQueue]: vqueues/src/lib.rs, util.rs.  The operations on a queue.
    - [IdText]: types/src/id_util.rs, base62_util.rs.  Ids as text.
    - [StateMachineBase], [InvocationLifecycle], [JournalEntries],
      [JournalV1Handlers], [StateMachine]: worker/src/partition/state_machine.
      What handlers share; starting, queueing, ending and killing invocations;
      entries of the second format, suspension and pause; entries of the first
      format, cancellation; and [on_apply], which dispatches a record.
    - [TrimQueue]: worker/src/partition/leadership/trim_queue.rs.
    - [Processor]: worker/src/partition/processor and mod.rs.  Deduplication,
      outbox, partition-scoped commands, recovery, entries and batches.

    Proofs about the processor:

    - [Replicas], [Determinism]: a relation between the states of two replicas,
      and that [on_apply] respects it.
    - [Writes], [Sequences]: which tables a handler can change ([writes_only]),
      and what follows for the numbered tables.
    - [LockService]: the abstract lock service of virtual objects; [ObjectLocks]:
      a small program logic (frames [view_kept], triples) that connects handlers
      with it; [ObjectTurns]: the theorems.
    - [Recovery], [Dedup]: batches and restarts against a reference execution.
    - [JournalProps], [WakeUps]: the loop that appends to a journal; suspended
      invocations are woken up by what they await, and not before.
    - [Demo]: a small partition for witnesses.

    The components call each other the way the code does: [LogsBuilder] edits
    the [Logs] of [LogChain] with [BTreeMap], [LogTypes] and [LogletId];
    [NodeSetChecker] reads the storage states and locations of [NodesConfig],
    the scopes of [Locality] and the factors of [Replication]; [Invoker] drives
    one [InvocationStateMachine] per invocation, which consumes a [RetryIter]
    of [Retries] and the classification of [InvokerError].  The timers of the
    invoker are the class [DelayQueue] with its laws [DelayQueueLaws], the text
    of errors is the class [ErrorText].  [on_apply] runs in the state-and-error
    monad over [VState]: the tables, the queue cache, the collected actions and the
    outbox and inbox numbers in memory ([Numbers], next to the stored ones);
    the context of a record ([Ctx]: time and position of the record, role,
    features, schema, sampling, the order of hash sets) is a class argument.
    [Processor] runs [on_apply] inside the state [Proc] of a processor: memory,
    the open transaction and the committed store.  Parameters that stand for
    packages: [SlotKeys] (the slotmap package), [Base62] and [Base64] (digits),
    [Digests] (hashes), [StateKeysCodec]; their laws are hypotheses only where
    they are used, with instances in the witnesses.

    ** What the theorems show

    - Crash recovery: batches of any size, compactions and restarts at any point
      give the store of a reference execution entry by entry, and the memory,
      cached sequence numbers included, agrees with it.  Conditions: truncations
      of the outbox stay below its tail, the 64-bit outbox numbers do not wrap
      around, and the replicas iterate the sinks of other partitions in one order.
    - Determinism: replicas apply a record alike, whatever their roles, caches
      and random write samples, under that condition on the order.
    - Exactly once: a command whose number a producer has already used is
      skipped, also after restarts.
    - Virtual objects: exclusive handlers never overlap; records refine an
      abstract lock service; waiting is bounded by the queue ahead, as long as the
      64-bit inbox number is not used up.
    - Sequences: what a record writes to the outbox, and the numbers in memory and
      in the store after it, wrap-around included.
    - Wake-ups: no suspended invocation of the second journal format has what it
      awaits in its journal, and deliveries resume it exactly when they resolve its
      future.
    - Queue cache, trim queue, id text: refinement of an abstract cache (debug
      assertions included), of a backlog of reports, and a round trip.
    - Quorums: the checker's counters are exact after any sequence of attribute
      changes; the two early-exit checks decide their declarative
      specifications; an f-majority intersects every write quorum.
    - Log server: in every run, with crashes and failed writes at any point,
      what was acknowledged is kept, a seal fences later stores below the tail
      it reports, and no report of a tail is taken back; digests and reads
      return exactly what is stored; the encodings round-trip and keep the
      order of offsets.
    - Replicated loglet: in every run, an acknowledged batch is on a write quorum,
      and so is everything below a tail that anybody takes as committed, also
      after a repair; the sealed tail that find-tail returns covers every
      acknowledged batch, unless another task found a larger one; readers see the
      committed prefix without holes.  A run shows that the exception is needed:
      a server that crashed forgets a tail on which it acknowledged a store.
    - Log metadata: every sequence of builder calls, failing ones included, runs
      without a panic and keeps chains sorted, with growing indices and at most
      one final seal marker, and until a call fails on unreadable parameters the
      lookup index is equal to the replicated segments; lookups by sequence number
      and by index find exactly the right segment; a permanent seal is final;
      trimming keeps the suffix.
    - Futures: the eviction loops compute the meaning of the combinators where
      results are determined, also when notifications arrive in steps, and depend
      only on the notifications that [flatten] lists; what the SDK has to decide
      resumes the invocation.
    - Invoker: in every reachable state of the service and its tasks, whatever
      the order of events, no assertion or expectation fails but one: adding
      jitter to a retry delay overflows; an effect carries the fencing
      token of the attempt that caused it and nothing follows a terminal effect
      of an attempt; a task is only restarted when everything the attempt
      emitted is stored; and timers are neither lost nor orphaned, provided the
      timer queue never reuses a key.  Two theorems show behaviour that is not
      meant: with reused keys a timer can be lost, and pausing leaves a status
      entry behind.
    - Retries: fast-forwarding equals retrying, and retry loops end, by a panic
      exactly when the jitter of a delay overflows.
    - Clock: timestamps handed out by concurrent threads are strictly
      increasing; drift is bounded; the encoding round-trips.
    - Sharding: shards partition the range evenly, the constant-time key
      mapping agrees with the ranges, the remap of a split is exact, and the
      partitioner covers the key space.
    - Locality, replication, nodes: print/parse round trip, monotone
      replication factors, consistent name lookup, tombstones.

    ** Conventions

    Machine integers are [Z] with the wrap-around or the bounds of their width
    written out; the outbox and inbox numbers wrap around, as in release builds.
    A failed assertion, [expect] or [unwrap] is [Panic] or [None], never a
    default value; the debug assertions of the queue cache and of the invoker are
    checked, those of the record handlers are not modelled.  State changed before
    an early error return is kept.  Hash maps are [gmap], ordered maps are sorted association lists.
    The text of loglet parameters is read and written by the serde_json
    package: it is the class [JsonCodec], whose law [JsonCodecLaws] (reading
    what was written) is a hypothesis only where it is used; [demo_codec] is an
    instance that has it.

    Fuel appears where the recursion of the code is not structural: draining
    the partitioner ([esp_collect], enough when it is at least the number of
    partitions), the cut of a shard by new shards ([cut_loop], given the
    number of new shards) and the eviction loops of a future ([while_loop],
    given the number of children: every iteration removes or passes one), and
    the retry loops (enough when it exceeds the number of retries), the inbox
    loop ([consume_loop], given one more than the entries of the inbox), the
    eviction of idle queues ([evict_loop], given the number of slots) and
    the completions of a journal entry ([append_entries], see there).  The
    theorems state that the results exist, so exhausted fuel cannot make them
    hold.

    ** Not modelled

    Text and wire encodings (serde, bilrost, protobuf): a stored payload decodes
    to its value or does not decode.  Metrics, tracing and logging.  I/O and
    storage engines (RocksDB, object stores, HTTP and gRPC services) and the
    order of keys in them beyond what the code reads; the store of a log server
    is a finite map whose batches are atomic, and the options of its
    write-ahead log are not modelled.  The successive workers of a loglet on a
    log server do not overlap in the model.  Asynchronous glue: the
    loop of a processor is modelled from the arrival of a batch to its commit,
    not the select over its other inputs.  Leadership, the execution of actions,
    RPC handlers, version barriers and rule books.  Of the virtual queues the
    scheduler (drr.rs) and the limiter.  Of the invoker, the task that talks to
    the service endpoint (only what it may send is modelled, [conforming]).
    The virtual-object theorems are about partitions without virtual queues.
    Of the replicated loglet: the remote sequencer and its network server, the
    short cut of find-tail that asks the sequencer, time-outs, and changes of the
    nodes configuration; a step of a task in which the code panics is not taken;
    the record cache never drops a record, and a miss is a step that is not taken.
    Of Bifrost, the log API over chains and the other loglet providers. *)

From stdpp Require Export prelude gmap list sorting.
From Stdlib Require Export ZArith Lia.

(** ** Outcomes

    A fallible Rust function returns [res E A]: [Ok] and [Err] are the two
    constructors of [Result<A, E>]; [Panic] is a failed [assert!], [expect] or
    [unwrap].  A function that cannot return an error but can panic returns
    [option A], with [None] for the panic. *)

Inductive res (E A : Type) : Type :=
| Ok (a : A)
| Err (e : E)
| Panic.
Arguments Ok {E A} a.
Arguments Err {E A} e.
Arguments Panic {E A}.

Definition res_bind {E A B} (m : res E A) (k : A → res E B) : res E B :=
  match m with
  | Ok a => k a
  | Err e => Err e
  | Panic => Panic
  end.

(** [expect]/[unwrap] of a value that may be absent. *)
Definition expect {E A} (o : option A) : res E A :=
  match o with
  | Some a => Ok a
  | None => Panic
  end.

Definition is_ok {E A} (m : res E A) : bool :=
  match m with Ok _ => true | _ => false end.

(** [sm S E A]: a method with [&mut self] of type [S] that returns
    [Result<A, E>].  The state is part of the outcome whatever the result is,
    so a mutation that precedes an early return is kept. *)
Definition sm (S E A : Type) : Type := S → S * res E A.

Definition sm_ret {S E A} (a : A) : sm S E A := λ s, (s, Ok a).
Definition sm_lift {S E A} (r : res E A) : sm S E A := λ s, (s, r).
Definition sm_gets {S E A} (f : S → A) : sm S E A := λ s, (s, Ok (f s)).
Definition sm_modify {S E} (f : S → S) : sm S E unit := λ s, (f s, Ok tt).
Definition sm_bind {S E A B} (m : sm S E A) (k : A → sm S E B) : sm S E B := λ s,
  match m s with
  | (s', Ok a) => k a s'
  | (s', Err e) => (s', Err e)
  | (s', Panic) => (s', Panic)
  end.
(** [if c { m }]. *)
Definition sm_when {S E} (c : bool) (m : sm S E unit) : sm S E unit :=
  if c then m else sm_ret tt.
(** [for x in xs { f(x)? }]. *)
Fixpoint sm_for {S E A} (f : A → sm S E unit) (l : list A) : sm S E unit :=
  match l with
  | [] => sm_ret tt
  | x :: l => sm_bind (f x) (λ _, sm_for f l)
  end.

Declare Scope restate_scope.
Delimit Scope restate_scope with restate.

Notation "'let?' x := c 'in' k" := (res_bind c (fun x => k))
  (at level 10, x pattern, c at level 100, k at level 200,
   format "'[v' 'let?'  x  :=  c  'in'  '/' k ']'") : restate_scope.
Notation "'let!' x := c 'in' k" := (mbind (M := option) (fun x => k) c)
  (at level 10, x pattern, c at level 100, k at level 200,
   format "'[v' 'let!'  x  :=  c  'in'  '/' k ']'") : restate_scope.

Notation "'let*' x := c 'in' k" := (sm_bind c (fun x => k))
  (at level 10, x pattern, c at level 100, k at level 200,
   format "'[v' 'let*'  x  :=  c  'in'  '/' k ']'") : restate_scope.
Notation "c ;; k" := (sm_bind c (fun _ => k))
  (at level 100, k at level 200, right associativity,
   format "'[v' c  ;;  '/' k ']'") : restate_scope.

Open Scope restate_scope.

(** ** Fixed-width unsigned integers

    A [uN] value is a [Z] in [[0, 2^N)].  The release profile of the crate has
    no overflow checks, so a plain [+], [-] or [*] wraps around. *)

Definition u_max (w : Z) : Z := 2 ^ w - 1.
Abbreviation u8_max := 255%Z.
Abbreviation u16_max := 65535%Z.
Abbreviation u32_max := 4294967295%Z.
Abbreviation u64_max := 18446744073709551615%Z.
Abbreviation u128_max := 340282366920938463463374607431768211455%Z.

Definition in_u (max x : Z) : Prop := (0 ≤ x ≤ max)%Z.
Abbreviation in_u8 := (in_u u8_max).
Abbreviation in_u16 := (in_u u16_max).
Abbreviation in_u32 := (in_u u32_max).
Abbreviation in_u64 := (in_u u64_max).
Abbreviation in_u128 := (in_u u128_max).

(** [x as uN], and the result of a wrapping operation with exact value [x]. *)
Definition wrap (max x : Z) : Z := (x mod (max + 1))%Z.
Definition as_u8 : Z → Z := wrap u8_max.
Definition as_u16 : Z → Z := wrap u16_max.
Definition as_u32 : Z → Z := wrap u32_max.
Definition as_u64 : Z → Z := wrap u64_max.
Definition as_u128 : Z → Z := wrap u128_max.

Definition saturating_add (max x y : Z) : Z := Z.min max (x + y).
Definition saturating_sub (x y : Z) : Z := Z.max 0 (x - y).
Definition checked_add (max x y : Z) : option Z :=
  if (x + y <=? max)%Z then Some (x + y)%Z else None.

(** [uN::div_ceil]: the quotient, plus one when the remainder is not zero. *)
Definition div_ceil (a b : Z) : Z :=
  (a / b + (if 0 <? a mod b then 1 else 0))%Z.

(** ** Automation *)

Create HintDb restate discriminated.
Create Rewrite HintDb restate.

(** [case_bool] turns every boolean integer comparison into its proposition. *)
Ltac bool_to_prop :=
  repeat match goal with
  | H : (_ && _) = true |- _ => apply andb_prop in H as [? ?]
  | H : (_ <=? _)%Z = true |- _ => apply Z.leb_le in H
  | H : (_ <=? _)%Z = false |- _ => apply Z.leb_gt in H
  | H : (_ <? _)%Z = true |- _ => apply Z.ltb_lt in H
  | H : (_ <? _)%Z = false |- _ => apply Z.ltb_ge in H
  | H : (_ =? _)%Z = true |- _ => apply Z.eqb_eq in H
  | H : (_ =? _)%Z = false |- _ => apply Z.eqb_neq in H
  end.

(** Case analysis on every [if] over a boolean in the goal or the context. *)
Ltac case_bool :=
  repeat match goal with
  | |- context [if ?b then _ else _] =>
      lazymatch type of b with bool => let E := fresh "Hb" in destruct b eqn:E end
  | H : context [if ?b then _ else _] |- _ =>
      lazymatch type of b with bool => let E := fresh "Hb" in destruct b eqn:E end
  end; bool_to_prop.

(** Inverts a successful bind of either kind. *)
Ltac inv_bind :=
  repeat match goal with
  | H : mbind _ _ = Some _ |- _ => apply bind_Some in H as (? & ? & H)
  | H : res_bind ?m _ = Ok _ |- _ =>
      let E := fresh "Hok" in destruct m eqn:E; simpl in H; try discriminate H
  end.

(** ** Integer lemmas *)

Lemma wrap_small max x : in_u max x → wrap max x = x.
Proof. unfold in_u, wrap. intros. apply Z.mod_small. lia. Qed.

Lemma wrap_range max x : (0 ≤ max)%Z → in_u max (wrap max x).
Proof.
  unfold in_u, wrap. intros.
  pose proof (Z.mod_pos_bound x (max + 1)). lia.
Qed.

Lemma div_ceil_spec a b q :
  (0 < b)%Z → (b * (q - 1) < a ≤ b * q)%Z → div_ceil a b = q.
Proof.
  intros Hb Hq. unfold div_ceil.
  pose proof (Z.div_mod a b). pose proof (Z.mod_pos_bound a b Hb).
  destruct (Z.ltb_spec 0 (a mod b)); nia.
Qed.

(** The defining inequalities of the rounded-up quotient. *)
Lemma div_ceil_bounds a b :
  (0 < b)%Z → (b * (div_ceil a b - 1) < a ≤ b * div_ceil a b)%Z.
Proof.
  intros Hb. unfold div_ceil.
  pose proof (Z.div_mod a b). pose proof (Z.mod_pos_bound a b Hb).
  destruct (Z.ltb_spec 0 (a mod b)); nia.
Qed.

Lemma div_ceil_le_iff a b x : (0 < b)%Z → (div_ceil a b ≤ x ↔ a ≤ b * x)%Z.
Proof. intros Hb. pose proof (div_ceil_bounds a b Hb). split; intros; nia. Qed.

Lemma div_ceil_lt_iff a b x : (0 < b)%Z → (x < div_ceil a b ↔ b * x < a)%Z.
Proof. intros Hb. pose proof (div_ceil_bounds a b Hb). split; intros; nia. Qed.

Lemma div_ceil_nonneg a b : (0 < b → 0 ≤ a → 0 ≤ div_ceil a b)%Z.
Proof. intros. pose proof (div_ceil_bounds a b). nia. Qed.

Lemma div_ceil_mono a a' b : (0 < b → a ≤ a' → div_ceil a b ≤ div_ceil a' b)%Z.
Proof. intros Hb Ha. apply div_ceil_le_iff; [done|]. pose proof (div_ceil_bounds a' b Hb). lia. Qed.

Lemma div_ceil_0 b : (0 < b)%Z → div_ceil 0 b = 0%Z.
Proof. intros. apply div_ceil_spec; lia. Qed.

Lemma div_ceil_mul a b : (0 < b)%Z → div_ceil (b * a) b = a.
Proof. intros. apply div_ceil_spec; lia. Qed.

#[export] Hint Rewrite div_ceil_0 div_ceil_mul using lia : restate.

(** ** Counting

    The number of elements of a finite set of integers that satisfy a boolean
    predicate. *)

Definition cnt (U : gset Z) (f : Z → bool) : Z :=
  Z.of_nat (size (filter (λ n, f n = true) U)).

Lemma cnt_ext U f g : (∀ n, n ∈ U → f n = g n) → cnt U f = cnt U g.
Proof.
  intros Hfg. unfold cnt. do 2 f_equal. apply set_eq. intros n. rewrite !elem_of_filter.
  split; intros [E Hn]; rewrite Hfg in *; done.
Qed.

Lemma cnt_nonneg U f : (0 ≤ cnt U f)%Z.
Proof. unfold cnt. lia. Qed.

Lemma cnt_le_size U f : (cnt U f ≤ Z.of_nat (size U))%Z.
Proof. unfold cnt. apply Nat2Z.inj_le, subseteq_size. set_solver. Qed.

Lemma cnt_mono U f g : (∀ n, n ∈ U → f n = true → g n = true) → (cnt U f ≤ cnt U g)%Z.
Proof. intros Hfg. unfold cnt. apply Nat2Z.inj_le, subseteq_size. set_solver. Qed.

Lemma cnt_empty f : cnt ∅ f = 0%Z.
Proof. done. Qed.

Lemma cnt_zero U f : cnt U f = 0%Z ↔ ∀ n, n ∈ U → f n = false.
Proof.
  unfold cnt. split.
  - intros Hz n Hn. apply not_true_is_false. intros Hf.
    assert (size (filter (λ n, f n = true) U) = 0%nat) as Hs%size_empty_iff by lia. set_solver.
  - intros Hf. replace (filter (λ n, f n = true) U) with (∅ : gset Z); [by rewrite size_empty|].
    apply set_eq. intros n. rewrite elem_of_filter.
    split; [set_solver|]. intros [Ht Hn]. rewrite Hf in Ht; done.
Qed.

(** Counting is additive on predicates that exclude each other. *)
Lemma cnt_or U f g :
  (∀ n, n ∈ U → f n = true → g n = false) → cnt U (λ n, f n || g n) = (cnt U f + cnt U g)%Z.
Proof.
  intros Hd. unfold cnt.
  rewrite <- Nat2Z.inj_add, <- size_union.
  - do 2 f_equal. apply set_eq. intros n.
    rewrite elem_of_union, !elem_of_filter, orb_true_iff. tauto.
  - intros n. rewrite !elem_of_filter. intros [Hf ?] [Hg _]. rewrite Hd in Hg; done.
Qed.

Lemma cnt_insert U n f : n ∉ U → cnt ({[ n ]} ∪ U) f = (cnt U f + Z.b2z (f n))%Z.
Proof.
  intros Hn. unfold cnt.
  assert (filter (λ n, f n = true) ({[ n ]} ∪ U) =
    filter (λ n, f n = true) {[ n ]} ∪ filter (λ n, f n = true) U) as -> by set_solver.
  destruct (f n) eqn:Hf.
  - assert (filter (λ n, f n = true) ({[ n ]} : gset Z) = {[ n ]}) as -> by set_solver.
    rewrite size_union by set_solver.
    rewrite size_singleton. simpl. lia.
  - assert (filter (λ n, f n = true) ({[ n ]} : gset Z) = ∅) as ->.
    { apply set_eq. intros x. rewrite elem_of_filter, elem_of_singleton.
      split; [|set_solver]. intros [? ->]. congruence. }
    rewrite (left_id_L ∅ (∪)). simpl. lia.
Qed.

(** Changing a predicate at one element. *)
Lemma cnt_update U n f g :
  n ∈ U → (∀ m, m ≠ n → f m = g m) → cnt U g = (cnt U f - Z.b2z (f n) + Z.b2z (g n))%Z.
Proof.
  intros Hn Hfg. rewrite (union_difference_L {[ n ]} U) by set_solver.
  rewrite !cnt_insert by set_solver.
  rewrite (cnt_ext (U ∖ {[ n ]}) f g) by set_solver. lia.
Qed.

(** Two predicates of which one implies the other, with the same count. *)
Lemma cnt_full U f g :
  (∀ n, n ∈ U → f n = true → g n = true) → (cnt U g ≤ cnt U f)%Z →
  ∀ n, n ∈ U → g n = true → f n = true.
Proof.
  intros Hfg Hle n Hn Hg.
  assert (filter (λ n, f n = true) U = filter (λ n, g n = true) U) as He.
  { apply set_subseteq_size_eq; [set_solver|]. unfold cnt in Hle. lia. }
  assert (n ∈ filter (λ n, g n = true) U) as Hin by (by apply elem_of_filter).
  rewrite <- He in Hin. by apply elem_of_filter in Hin as [? _].
Qed.

Lemma cnt_pos U f : (0 < cnt U f)%Z ↔ ∃ n, n ∈ U ∧ f n = true.
Proof.
  unfold cnt. split.
  - intros Hp. destruct (set_choose_L (filter (λ n, f n = true) U)) as [n Hn].
    + intros E. rewrite E, size_empty in Hp. lia.
    + exists n. by apply elem_of_filter in Hn as [? ?].
  - intros (n & Hn & Hf).
    assert (size (filter (λ n, f n = true) U) ≠ 0%nat); [|lia].
    apply size_non_empty_iff. set_solver.
Qed.

(** The same for lists. *)
Fixpoint cnt_list {A} (f : A → bool) (l : list A) : Z :=
  match l with
  | [] => 0
  | x :: l => Z.b2z (f x) + cnt_list f l
  end.

Lemma cnt_list_filter {A} (f : A → bool) (l : list A) :
  cnt_list f l = Z.of_nat (length (filter (λ x, f x = true) l)).
Proof.
  induction l as [|x l IH]; simpl; [done|]. rewrite filter_cons, IH.
  case_decide as Hf; [rewrite Hf; simpl; lia|]. apply not_true_is_false in Hf. rewrite Hf. simpl. lia.
Qed.

Lemma cnt_list_nonneg {A} (f : A → bool) (l : list A) : (0 ≤ cnt_list f l)%Z.
Proof. rewrite cnt_list_filter. lia. Qed.
