(* ===== verification/Sharding.v ===== *)
(** * Sharding: key ranges, shard plans and the key-space partitioner

    Models crates/sharding/src: [KeyRange] (key_range.rs), [PartitionId]
    (partition_id.rs), [ShardPlan], [Split] and [cut_by_new_shards]
    (subsharding.rs) and [EqualSizedPartitionPartitioner] (partitioner.rs).
    Keys are [u64] values; the intermediate arithmetic is [u128], written with
    its wrap-around.  [None] is the panic of a failed assertion. *)

From S2P Require Import Prelude.
Local Open Scope Z_scope.

(** ** Key ranges *)

(** An inclusive range [[start, end]] of partition keys. *)
Record KeyRange := mkKeyRange { kr_start : Z; kr_end : Z }.

#[export] Instance KeyRange_eq_dec : EqDecision KeyRange.
Proof. solve_decision. Defined.

Definition KeyRange_new (start end_ : Z) : KeyRange := mkKeyRange start end_.

Definition KeyRange_FULL : KeyRange := KeyRange_new 0 u64_max.

Definition midpoint (r : KeyRange) : Z :=
  as_u64 (div_ceil (as_u128 (kr_start r + kr_end r)) 2).

Definition num_keys (r : KeyRange) : Z :=
  as_u128 (as_u128 (kr_end r - kr_start r) + 1).

Definition intersect (r other : KeyRange) : option KeyRange :=
  let start := Z.max (kr_start r) (kr_start other) in
  let end_ := Z.min (kr_end r) (kr_end other) in
  if start <=? end_ then Some (KeyRange_new start end_) else None.

Definition is_overlapping (r other : KeyRange) : bool :=
  (kr_start r <=? kr_end other) && (kr_start other <=? kr_end r).

(** [RangeBounds::contains] of the inclusive range. *)
Definition kr_contains (r : KeyRange) (key : Z) : bool :=
  (kr_start r <=? key) && (key <=? kr_end r).

(** [Ord for KeyRange]: lexicographic on [(start, end)]. *)
Definition KeyRange_cmp (r other : KeyRange) : comparison :=
  match kr_start r ?= kr_start other with
  | Eq => kr_end r ?= kr_end other
  | c => c
  end.

(** ** Shard plans *)

Record Shard := mkShard { shard_idx : Z; shard_range : KeyRange }.

Record ShardPlan := mkShardPlan { plan_range : KeyRange; plan_num_shards : Z }.

(** [ShardPlan::new]; [max_shards] is a [NonZeroU16]. *)
Definition ShardPlan_new (range : KeyRange) (max_shards : Z) : option ShardPlan :=
  if kr_start range <=? kr_end range then
    let span := as_u128 (as_u128 (kr_end range - kr_start range) + 1) in
    let num_shards := if max_shards <? span then max_shards else as_u16 span in
    Some (mkShardPlan range num_shards)
  else None.

Definition find_shard_unchecked (p : ShardPlan) (idx : Z) : option Shard :=
  if idx <? plan_num_shards p then
    let nkeys := num_keys (plan_range p) in
    let num_shards := plan_num_shards p in
    let start_offset := div_ceil (as_u128 (idx * nkeys)) num_shards in
    let end_offset := as_u128 (div_ceil (as_u128 (as_u128 (idx + 1) * nkeys)) num_shards - 1) in
    let start := as_u128 (kr_start (plan_range p) + start_offset) in
    let end_ := as_u128 (kr_start (plan_range p) + end_offset) in
    Some (mkShard (as_u16 idx) (KeyRange_new (as_u64 start) (as_u64 end_)))
  else None.

(** [find_shard]: the outer option is the panic, the inner one the result. *)
Definition find_shard (p : ShardPlan) (idx : Z) : option (option Shard) :=
  if plan_num_shards p <=? idx then Some None
  else let! s := find_shard_unchecked p idx in Some (Some s).

Definition shard_count (p : ShardPlan) : Z := plan_num_shards p.

Definition shards (p : ShardPlan) : option (list Shard) :=
  mapM (find_shard_unchecked p) (seqZ 0 (plan_num_shards p)).

Definition key_to_idx (p : ShardPlan) (key : Z) : option Z :=
  if negb (kr_contains (plan_range p) key) then None
  else
    let offset := as_u128 (key - kr_start (plan_range p)) in
    let num_shards := plan_num_shards p in
    let idx := as_u128 (offset * num_shards) / num_keys (plan_range p) in
    Some (as_u16 idx).

(** ** Splitting a plan *)

Inductive Side := Left | Right.

#[export] Instance Side_eq_dec : EqDecision Side.
Proof. solve_decision. Defined.

Record RemapPiece := mkRemapPiece {
  old_idx : Z;
  side : Side;
  new_idx : Z;
  piece_range : KeyRange;
}.

Record Split := mkSplit {
  original : ShardPlan;
  left : option ShardPlan;
  right : option ShardPlan;
  remap : list RemapPiece;
}.

(** The [while current <= end] loop of [cut_by_new_shards].  Every iteration
    but the last ends at the end of a shard of [plan], so the number of shards
    is enough fuel; running out of fuel is reported as [None]. *)
Fixpoint cut_loop (fuel : nat) (old : Z) (sd : Side) (plan : ShardPlan)
    (current end_ : Z) (out : list RemapPiece) : option (list RemapPiece) :=
  if current <=? end_ then
    match fuel with
    | O => None
    | S fuel =>
        let! idx := key_to_idx plan current in
        let! shard := find_shard_unchecked plan idx in
        let piece_end := Z.min end_ (kr_end (shard_range shard)) in
        let out := out ++ [mkRemapPiece old sd idx (KeyRange_new current piece_end)] in
        if piece_end =? u64_max then Some out
        else cut_loop fuel old sd plan (saturating_add u64_max piece_end 1) end_ out
    end
  else Some out.

Definition cut_by_new_shards (old : Z) (sd : Side) (plan : ShardPlan)
    (subrange : KeyRange) (out : list RemapPiece) : option (list RemapPiece) :=
  cut_loop (Z.to_nat (plan_num_shards plan)) old sd plan
    (kr_start subrange) (kr_end subrange) out.

(** One side of the loop body of [split]: cut the part of the old shard that
    lies in the side's range by the side's new plan. *)
Definition split_side (sd : Side) (range : option KeyRange) (plan : option ShardPlan)
    (old_shard : Shard) (pieces : list RemapPiece) : option (list RemapPiece) :=
  match range, plan with
  | Some r, Some p =>
      match intersect (shard_range old_shard) r with
      | Some seg => cut_by_new_shards (shard_idx old_shard) sd p seg pieces
      | None => Some pieces
      end
  | _, _ => Some pieces
  end.

Fixpoint split_loop (left_range right_range : option KeyRange)
    (lp rp : option ShardPlan) (olds : list Shard) (pieces : list RemapPiece)
    : option (list RemapPiece) :=
  match olds with
  | [] => Some pieces
  | old_shard :: olds =>
      let! pieces := split_side Left left_range lp old_shard pieces in
      let! pieces := split_side Right right_range rp old_shard pieces in
      split_loop left_range right_range lp rp olds pieces
  end.

Definition left_range_of (r : KeyRange) : option KeyRange :=
  let split_at := midpoint r in
  if kr_start r <? split_at
  then Some (KeyRange_new (kr_start r) (saturating_sub split_at 1)) else None.

Definition right_range_of (r : KeyRange) : option KeyRange :=
  let split_at := midpoint r in
  if split_at <=? kr_end r then Some (KeyRange_new split_at (kr_end r)) else None.

(** [Option::map(|r| ShardPlan::new(r, max))], with the panic of [new]. *)
Definition plan_of_range (r : option KeyRange) (max_shards : Z) : option (option ShardPlan) :=
  match r with
  | Some r => let! p := ShardPlan_new r max_shards in Some (Some p)
  | None => Some None
  end.

Definition split (p : ShardPlan) (new_max_shards : Z) : option Split :=
  let left_range := left_range_of (plan_range p) in
  let right_range := right_range_of (plan_range p) in
  let! lp := plan_of_range left_range new_max_shards in
  let! rp := plan_of_range right_range new_max_shards in
  let! olds := shards p in
  let! pieces := split_loop left_range right_range lp rp olds [] in
  Some (mkSplit p lp rp pieces).

(** ** The partitioner *)

Definition PartitionId_MAX : Z := u16_max.

(** [PartitionId::next]: the successor, saturating at [MAX]. *)
Definition PartitionId_next (p : Z) : Z :=
  Z.min PartitionId_MAX (saturating_add u16_max p 1).

(** The iterator state of [EqualSizedPartitions]. *)
Record EqualSizedPartitions := mkESP { esp_plan : option ShardPlan; esp_next : Z }.

Definition EqualSizedPartitionPartitioner_new (num_partitions : Z) : option (option ShardPlan) :=
  if num_partitions =? 0 then Some None
  else let! p := ShardPlan_new KeyRange_FULL num_partitions in Some (Some p).

Definition into_iter (plan : option ShardPlan) : EqualSizedPartitions := mkESP plan 0.

(** [Iterator::next]: the item, if any, and the new iterator state. *)
Definition esp_next_item (it : EqualSizedPartitions)
    : option (option (Z * KeyRange) * EqualSizedPartitions) :=
  match esp_plan it with
  | None => Some (None, it)
  | Some plan =>
      if esp_next it <? shard_count plan then
        let idx := esp_next it in
        let it := mkESP (esp_plan it) (as_u16 (esp_next it + 1)) in
        let! s := find_shard_unchecked plan idx in
        Some (Some (idx, shard_range s), it)
      else Some (None, it)
  end.

Definition size_hint (it : EqualSizedPartitions) : Z :=
  match esp_plan it with
  | None => 0
  | Some plan => as_u16 (shard_count plan - esp_next it)
  end.

(** Draining the iterator, as [collect] does. *)
Fixpoint esp_collect (fuel : nat) (it : EqualSizedPartitions) : option (list (Z * KeyRange)) :=
  let! (item, it) := esp_next_item it in
  match item with
  | None => Some []
  | Some x =>
      match fuel with
      | O => None
      | S fuel => let! xs := esp_collect fuel it in Some (x :: xs)
      end
  end.

(** ** Shard boundaries

    [bound p i] is the first key of shard [i]; [bound p n] of the shard count
    [n] is one past the last key. *)

Definition range_wf (r : KeyRange) : Prop :=
  0 ≤ kr_start r ∧ kr_start r ≤ kr_end r ∧ kr_end r ≤ u64_max.

Definition range_size (r : KeyRange) : Z := kr_end r - kr_start r + 1.

Definition plan_wf (p : ShardPlan) : Prop :=
  range_wf (plan_range p) ∧ 1 ≤ plan_num_shards p ≤ u16_max
  ∧ plan_num_shards p ≤ range_size (plan_range p).

Definition bound (p : ShardPlan) (i : Z) : Z :=
  kr_start (plan_range p) + div_ceil (i * range_size (plan_range p)) (plan_num_shards p).

Ltac unfold_wf :=
  unfold plan_wf, range_wf, range_size, in_u in *; simpl in *.

Lemma num_keys_exact r : range_wf r → num_keys r = range_size r.
Proof.
  unfold num_keys, as_u128. intros. unfold_wf.
  rewrite (wrap_small _ (kr_end r - kr_start r)) by (unfold_wf; lia).
  apply wrap_small. unfold_wf. lia.
Qed.

Lemma ShardPlan_new_wf r n p :
  range_wf r → 1 ≤ n ≤ u16_max → ShardPlan_new r n = Some p →
  plan_wf p ∧ plan_range p = r ∧ plan_num_shards p = Z.min n (range_size r).
Proof.
  intros Hr Hn. unfold ShardPlan_new.
  pose proof (num_keys_exact r Hr) as Hk. unfold num_keys in Hk. rewrite Hk.
  case_bool; intros [= <-]; simpl; unfold as_u16;
    rewrite ?(wrap_small u16_max) by (unfold_wf; lia);
    unfold_wf; repeat split; lia.
Qed.

Lemma ShardPlan_new_Some r n : kr_start r ≤ kr_end r → is_Some (ShardPlan_new r n).
Proof. intros. unfold ShardPlan_new. case_bool; eauto; lia. Qed.

Lemma bound_0 p : plan_wf p → bound p 0 = kr_start (plan_range p).
Proof. intros. unfold bound. rewrite Z.mul_0_l, div_ceil_0; unfold_wf; lia. Qed.

Lemma bound_last p :
  plan_wf p → bound p (plan_num_shards p) = kr_end (plan_range p) + 1.
Proof. intros. unfold bound. rewrite div_ceil_mul; unfold_wf; lia. Qed.

Lemma bound_lt p i j : plan_wf p → 0 ≤ i < j → bound p i < bound p j.
Proof.
  intros Hp Hij. unfold bound.
  enough (div_ceil (i * range_size (plan_range p)) (plan_num_shards p)
          < div_ceil (j * range_size (plan_range p)) (plan_num_shards p)) by lia.
  apply div_ceil_lt_iff; [unfold_wf; lia|].
  pose proof (div_ceil_bounds (i * range_size (plan_range p)) (plan_num_shards p)).
  unfold_wf. nia.
Qed.

Lemma bound_le p i j : plan_wf p → 0 ≤ i ≤ j → bound p i ≤ bound p j.
Proof.
  intros Hp Hij. destruct (decide (i = j)) as [->|]; [lia|].
  pose proof (bound_lt p i j Hp). lia.
Qed.

Lemma bound_range p i :
  plan_wf p → 0 ≤ i ≤ plan_num_shards p →
  kr_start (plan_range p) ≤ bound p i ≤ kr_end (plan_range p) + 1.
Proof.
  intros Hp Hi. rewrite <- (bound_0 p Hp), <- (bound_last p Hp).
  split; apply bound_le; (done || lia).
Qed.

Lemma find_shard_unchecked_exact p i :
  plan_wf p → 0 ≤ i < plan_num_shards p →
  find_shard_unchecked p i = Some (mkShard i (KeyRange_new (bound p i) (bound p (i + 1) - 1))).
Proof.
  intros Hp Hi. pose proof (bound_range p i Hp) as Hb. pose proof (bound_range p (i + 1) Hp) as Hb'.
  pose proof (bound_lt p i (i + 1) Hp) as Hlt.
  unfold find_shard_unchecked. case_bool; [|lia].
  rewrite num_keys_exact by apply Hp.
  unfold as_u128, as_u64, as_u16.
  assert (range_size (plan_range p) ≤ u64_max + 1) by (unfold_wf; lia).
  assert (1 ≤ range_size (plan_range p)) by (unfold_wf; lia).
  assert (1 ≤ plan_num_shards p ≤ u16_max) by apply Hp.
  unfold bound in *.
  assert (Hm : ∀ j, 0 ≤ j ≤ u16_max → 0 ≤ j * range_size (plan_range p) ≤ u128_max) by (intros; nia).
  rewrite (wrap_small _ (i + 1)) by (unfold in_u; lia).
  rewrite !(wrap_small _ (_ * _)) by (apply Hm; lia).
  set (d0 := div_ceil (i * _) _) in *. set (d1 := div_ceil ((i + 1) * _) _) in *.
  assert (0 ≤ d0) by (apply div_ceil_nonneg; lia).
  unfold_wf.
  rewrite (wrap_small _ (d1 - 1)), (wrap_small _ i) by (unfold in_u; lia).
  rewrite !(wrap_small u128_max) by (unfold in_u; lia).
  rewrite !wrap_small by (unfold in_u; lia).
  repeat f_equal; lia.
Qed.

Lemma key_to_idx_exact p k :
  plan_wf p → kr_contains (plan_range p) k = true →
  ∃ i, key_to_idx p k = Some i ∧ 0 ≤ i < plan_num_shards p ∧ bound p i ≤ k < bound p (i + 1).
Proof.
  intros Hp Hk. unfold key_to_idx. rewrite Hk. simpl.
  unfold kr_contains in Hk. bool_to_prop.
  rewrite num_keys_exact by apply Hp. unfold as_u128, as_u16, bound.
  set (N := range_size (plan_range p)). set (S := plan_num_shards p).
  set (o := k - kr_start (plan_range p)).
  assert (1 ≤ S ≤ u16_max ∧ S ≤ N ∧ N ≤ u64_max + 1 ∧ 0 ≤ o < N) as (? & ? & ? & ?)
    by (unfold S, N, o; unfold_wf; lia).
  rewrite (wrap_small _ o), (wrap_small u128_max) by (unfold in_u; nia).
  assert (0 ≤ o * S / N < S).
  { split; [apply Z.div_pos; nia|]. apply Z.div_lt_upper_bound; nia. }
  rewrite wrap_small by (unfold in_u; lia).
  exists (o * S / N). split; [done|]. split; [done|].
  pose proof (Z.div_mod (o * S) N). pose proof (Z.mod_pos_bound (o * S) N).
  assert (div_ceil (o * S / N * N) S ≤ o) by (apply div_ceil_le_iff; nia).
  assert (o < div_ceil ((o * S / N + 1) * N) S) by (apply div_ceil_lt_iff; nia).
  unfold o in *. lia.
Qed.

Lemma bound_inj p i j k :
  plan_wf p → 0 ≤ i → 0 ≤ j →
  bound p i ≤ k < bound p (i + 1) → bound p j ≤ k < bound p (j + 1) → i = j.
Proof.
  intros Hp Hi Hj Hki Hkj.
  destruct (Z.lt_trichotomy i j) as [?|[?|?]]; [|done|].
  - pose proof (bound_le p (i + 1) j Hp). lia.
  - pose proof (bound_le p (j + 1) i Hp). lia.
Qed.

(** The characterisation of the O(1) lookup by the boundaries. *)
Lemma key_to_idx_iff p k i :
  plan_wf p →
  key_to_idx p k = Some i ↔
  0 ≤ i < plan_num_shards p ∧ bound p i ≤ k < bound p (i + 1).
Proof.
  intros Hp. split.
  - intros Hk. assert (kr_contains (plan_range p) k = true) as Hc.
    { unfold key_to_idx in Hk. by destruct (kr_contains _ k). }
    destruct (key_to_idx_exact p k Hp Hc) as (j & Hj & ?).
    rewrite Hj in Hk. by simplify_eq.
  - intros [Hi Hb].
    pose proof (bound_range p i Hp). pose proof (bound_range p (i + 1) Hp).
    assert (kr_contains (plan_range p) k = true) as Hc.
    { unfold kr_contains. apply andb_true_intro. split; apply Z.leb_le; lia. }
    destruct (key_to_idx_exact p k Hp Hc) as (j & Hj & ? & ?).
    rewrite (bound_inj p i j k Hp); done || lia.
Qed.

Lemma shards_exact p :
  plan_wf p →
  shards p = Some ((λ i, mkShard i (KeyRange_new (bound p i) (bound p (i + 1) - 1)))
                     <$> seqZ 0 (plan_num_shards p)).
Proof.
  intros Hp. unfold shards. apply mapM_Some, Forall2_fmap_r, Forall_Forall2_diag, Forall_forall.
  intros i Hi%elem_of_seqZ. simpl. apply find_shard_unchecked_exact; [done|lia].
Qed.

(** ** Tilings

    [tiles P a b l]: the pieces of [l] cover [[a, b]] exactly, in key order and
    without gap or overlap, and every piece satisfies [P]. *)

Inductive tiles (P : RemapPiece → Prop) : Z → Z → list RemapPiece → Prop :=
| tiles_nil a : tiles P a (a - 1) []
| tiles_cons a b pc l :
    kr_start (piece_range pc) = a → a ≤ kr_end (piece_range pc) ≤ b → P pc →
    tiles P (kr_end (piece_range pc) + 1) b l → tiles P a b (pc :: l).

Lemma tiles_app P a m b l1 l2 :
  tiles P a m l1 → tiles P (m + 1) b l2 → m ≤ b → tiles P a b (l1 ++ l2).
Proof.
  induction 1 as [a|a m pc l Hs He HP Ht IH]; intros H2 Hm; simpl.
  - by replace (a - 1 + 1) with a in H2 by lia.
  - econstructor; eauto. lia.
Qed.

Lemma tiles_lower P a b l j pc :
  tiles P a b l → l !! j = Some pc → a ≤ kr_start (piece_range pc).
Proof.
  intros Ht. revert j. induction Ht as [|a b p0 l ? ? ? ? IH]; intros [|j] Hj; simplify_eq/=; [lia|].
  apply IH in Hj. lia.
Qed.

(** Every key of a tiled interval lies in exactly one piece. *)
Lemma tiles_cover P a b l k :
  tiles P a b l → a ≤ k ≤ b →
  ∃ j pc, l !! j = Some pc ∧ kr_contains (piece_range pc) k = true ∧ P pc
    ∧ ∀ j' pc', l !! j' = Some pc' → kr_contains (piece_range pc') k = true → j' = j.
Proof.
  unfold kr_contains.
  induction 1 as [a|a b pc l Hs He HP Ht IH]; intros Hk; [lia|].
  destruct (decide (k ≤ kr_end (piece_range pc))) as [Hin|Hout].
  - exists 0%nat, pc. split_and!; [done|lia|done|].
    intros [|j'] pc' Hj' Hc'; [done|]. simpl in Hj'. bool_to_prop.
    eapply tiles_lower in Hj'; [|done]. lia.
  - destruct IH as (j & pc1 & Hj & Hc & HP1 & Hu); [lia|].
    exists (S j), pc1. split_and!; [done..|].
    intros [|j'] pc' Hj' Hc'; simpl in Hj'; simplify_eq; [bool_to_prop; lia|].
    by erewrite (Hu j').
Qed.

Lemma tiles_impl (P Q : RemapPiece → Prop) a b l :
  (∀ pc, P pc → a ≤ kr_start (piece_range pc) → kr_end (piece_range pc) ≤ b → Q pc) →
  tiles P a b l → tiles Q a b l.
Proof.
  intros HPQ Ht. induction Ht as [|a b pc l ? ? ? ? IH]; [constructor|].
  constructor; [done..| |].
  - apply HPQ; [done|lia..].
  - apply IH. intros. apply HPQ; [done|lia..].
Qed.

(** ** The remap of a split *)

(** A piece that belongs to one side and is aligned to the side's new plan. *)
Definition piece_in (old : Z) (sd : Side) (plan : ShardPlan) (pc : RemapPiece) : Prop :=
  old_idx pc = old ∧ side pc = sd
  ∧ ∀ k, kr_contains (piece_range pc) k = true → key_to_idx plan k = Some (new_idx pc).

Lemma cut_loop_tiles fuel old sd plan current end_ out :
  plan_wf plan →
  kr_start (plan_range plan) ≤ current ≤ end_ + 1 → end_ ≤ kr_end (plan_range plan) →
  (∀ i, key_to_idx plan current = Some i → current ≤ end_ →
        plan_num_shards plan - i ≤ Z.of_nat fuel) →
  ∃ l, cut_loop fuel old sd plan current end_ out = Some (out ++ l)
    ∧ tiles (piece_in old sd plan) current end_ l.
Proof.
  intros Hp. revert current out.
  induction fuel as [|fuel IH]; intros current out Hcur Hend Hfuel; cbn [cut_loop];
    (destruct (Z.leb_spec current end_) as [Hle|Hgt];
      [|exists []; rewrite app_nil_r; replace end_ with (current - 1) by lia;
        split; [done|constructor]]);
    (destruct (key_to_idx_exact plan current Hp) as (i & Hki & Hi & Hb);
      [unfold kr_contains; lia|]);
    specialize (Hfuel i Hki Hle); [lia|].
  rewrite Hki. simpl. rewrite (find_shard_unchecked_exact plan i) by done. simpl.
  pose proof (bound_range plan (i + 1) Hp) as Hb1.
  set (pe := Z.min end_ (bound plan (i + 1) - 1)).
  set (pc := mkRemapPiece old sd i (KeyRange_new current pe)).
  assert (Hpc : piece_in old sd plan pc).
  { split_and!; [done..|]. intros k. unfold kr_contains. simpl. intros ?. bool_to_prop.
    apply key_to_idx_iff; [done|]. unfold pe in *. lia. }
  assert (Hlast : pe = end_ → tiles (piece_in old sd plan) current end_ [pc]).
  { intros ->. constructor; simpl; [done|lia|done|].
    replace end_ with (end_ + 1 - 1) at 2 by lia. constructor. }
  assert (end_ ≤ u64_max) by (unfold_wf; lia).
  destruct (Z.eqb_spec pe u64_max).
  - exists [pc]. split; [done|]. apply Hlast. unfold pe in *. lia.
  - unfold saturating_add. rewrite Z.min_r by (unfold pe in *; lia).
    destruct (IH (pe + 1) (out ++ [pc])) as (l & Hl & Ht); [unfold pe in *; lia|done| |].
    + intros j Hj Hle'. apply key_to_idx_iff in Hj as [Hj1 Hj2]; [|done].
      assert (i + 1 = j) as <-; [|lia].
      apply (bound_inj plan (i + 1) j (pe + 1)); try done; try lia.
      assert (pe + 1 = bound plan (i + 1)) as -> by (unfold pe in *; lia).
      pose proof (bound_lt plan (i + 1) (i + 1 + 1) Hp). lia.
    + exists (pc :: l). rewrite Hl, <- app_assoc. split; [done|].
      econstructor; simpl; [done|unfold pe in *; lia|done|done].
Qed.

Lemma midpoint_bounds r :
  range_wf r → kr_start r ≤ midpoint r ≤ kr_end r
    ∧ kr_start r + kr_end r ≤ 2 * midpoint r ≤ kr_start r + kr_end r + 1.
Proof.
  intros Hr. unfold midpoint, as_u64, as_u128.
  rewrite (wrap_small u128_max) by (unfold_wf; lia).
  pose proof (div_ceil_bounds (kr_start r + kr_end r) 2).
  rewrite wrap_small; unfold_wf; lia.
Qed.

(** What one side contributes for an old shard [[a, b]]. *)
Lemma split_side_tiles sd r plan i a b pieces :
  plan_wf plan → plan_range plan = r →
  ∃ l, split_side sd (Some r) (Some plan) (mkShard i (KeyRange_new a b)) pieces = Some (pieces ++ l)
    ∧ if Z.max a (kr_start r) <=? Z.min b (kr_end r)
      then tiles (piece_in i sd plan) (Z.max a (kr_start r)) (Z.min b (kr_end r)) l
      else l = [].
Proof.
  intros Hp Hr. unfold split_side, intersect. simpl.
  destruct (Z.leb_spec (Z.max a (kr_start r)) (Z.min b (kr_end r))) as [Hle|Hgt].
  - unfold cut_by_new_shards. simpl. apply cut_loop_tiles; [done|rewrite Hr; lia..|].
    intros j Hj _. apply key_to_idx_iff in Hj; [|done]. pose proof Hp. unfold_wf. lia.
  - exists []. by rewrite app_nil_r.
Qed.

(** A remap piece is right for its keys: it names their old shard, the side of
    the midpoint they are on, and their shard in that side's new plan. *)
Definition piece_ok (p : ShardPlan) (lp rp : option ShardPlan) (pc : RemapPiece) : Prop :=
  ∀ k, kr_contains (piece_range pc) k = true →
    key_to_idx p k = Some (old_idx pc)
    ∧ match side pc with
      | Left => k < midpoint (plan_range p)
          ∧ ∃ q, lp = Some q ∧ key_to_idx q k = Some (new_idx pc)
      | Right => midpoint (plan_range p) ≤ k
          ∧ ∃ q, rp = Some q ∧ key_to_idx q k = Some (new_idx pc)
      end.

(** The side plans that [split] builds. *)
Definition side_plan (range : option KeyRange) (plan : option ShardPlan) : Prop :=
  match range, plan with
  | Some r, Some q => plan_wf q ∧ plan_range q = r
  | None, None => True
  | _, _ => False
  end.

Section Split.
Context (p : ShardPlan) (Hp : plan_wf p) (lp rp : option ShardPlan).

(** Which keys a side may hold, and the plan it is cut by. *)
Definition side_ok (sd : Side) (q : ShardPlan) (a b : Z) : Prop :=
  match sd with
  | Left => b < midpoint (plan_range p) ∧ lp = Some q
  | Right => midpoint (plan_range p) ≤ a ∧ rp = Some q
  end.

Lemma piece_in_ok sd q i a b l :
  0 ≤ i < plan_num_shards p → tiles (piece_in i sd q) a b l →
  bound p i ≤ a → b ≤ bound p (i + 1) - 1 → side_ok sd q a b →
  tiles (piece_ok p lp rp) a b l.
Proof.
  intros Hi Ht Ha Hb Hside. eapply tiles_impl; [|exact Ht].
  intros pc (Ho & Hs & Hk) Hlo Hhi k Hc. rewrite Ho, Hs.
  specialize (Hk k Hc). unfold kr_contains in Hc. bool_to_prop.
  split; [apply key_to_idx_iff; [done|lia]|].
  destruct sd; destruct Hside; split; [lia|eauto|lia|eauto].
Qed.

Hypothesis Hl : side_plan (left_range_of (plan_range p)) lp.
Hypothesis Hr : side_plan (right_range_of (plan_range p)) rp.

(** Every old shard is cut into pieces that tile it. *)
Lemma split_step_tiles i pieces :
  0 ≤ i < plan_num_shards p →
  let old := mkShard i (KeyRange_new (bound p i) (bound p (i + 1) - 1)) in
  ∃ l1 l2,
    split_side Left (left_range_of (plan_range p)) lp old pieces = Some (pieces ++ l1)
    ∧ split_side Right (right_range_of (plan_range p)) rp old (pieces ++ l1)
      = Some ((pieces ++ l1) ++ l2)
    ∧ tiles (piece_ok p lp rp) (bound p i) (bound p (i + 1) - 1) (l1 ++ l2).
Proof using Hl Hp Hr.
  intros Hi old. set (r := plan_range p) in *.
  pose proof (midpoint_bounds r (proj1 Hp)) as [Hm _].
  pose proof (bound_range p i Hp) as Hb. pose proof (bound_range p (i + 1) Hp) as Hb1.
  pose proof (bound_lt p i (i + 1) Hp) as Hlt. fold r in Hb, Hb1.
  assert (0 ≤ kr_start r) by apply Hp.
  pose proof (λ sd q a b l Ht Ha Hb, piece_in_ok sd q i a b l Hi Ht Ha Hb) as Hok.
  unfold right_range_of, left_range_of in *.
  destruct (Z.leb_spec (midpoint r) (kr_end r)); [|lia].
  destruct rp as [rq|] eqn:Erp; [|done]. destruct Hr as [Hrq Hrr].
  destruct (Z.ltb_spec (kr_start r) (midpoint r)); destruct lp as [lq|] eqn:Elp; try done.
  - destruct Hl as [Hlq Hlr].
    destruct (split_side_tiles Left _ lq i (bound p i) (bound p (i + 1) - 1) pieces Hlq Hlr)
      as (l1 & Hs1 & HT1).
    destruct (split_side_tiles Right _ rq i (bound p i) (bound p (i + 1) - 1) (pieces ++ l1) Hrq Hrr)
      as (l2 & Hs2 & HT2).
    exists l1, l2. split; [done|]. split; [done|]. simpl in HT1, HT2.
    unfold saturating_sub in HT1. rewrite (Z.max_r 0) in HT1 by lia.
    destruct (Z.leb_spec (Z.max (bound p i) (kr_start r)) (Z.min (bound p (i + 1) - 1) (midpoint r - 1)));
    destruct (Z.leb_spec (Z.max (bound p i) (midpoint r)) (Z.min (bound p (i + 1) - 1) (kr_end r)));
      subst; simpl; try lia.
    + rewrite Z.max_l, Z.min_r in HT1 by lia. rewrite Z.max_r, Z.min_l in HT2 by lia.
      apply (tiles_app _ _ (midpoint r - 1)); [eapply Hok; [done|lia..|split; [fold r; lia|done]]| |lia].
      replace (midpoint r - 1 + 1) with (midpoint r) by lia.
      eapply Hok; [done|lia..|split; [fold r; lia|done]].
    + rewrite app_nil_r. rewrite Z.max_l, Z.min_l in HT1 by lia.
      eapply Hok; [done|lia..|split; [fold r; lia|done]].
    + rewrite Z.max_l, Z.min_l in HT2 by lia. eapply Hok; [done|lia..|split; [fold r; lia|done]].
  - destruct (split_side_tiles Right _ rq i (bound p i) (bound p (i + 1) - 1) pieces Hrq Hrr)
      as (l2 & Hs2 & HT2).
    exists [], l2. rewrite app_nil_r. split; [done|]. split; [done|]. simpl in HT2 |- *.
    rewrite (proj2 (Z.leb_le _ _)) in HT2 by lia.
    rewrite Z.max_l, Z.min_l in HT2 by lia. eapply Hok; [done|lia..|split; [fold r; lia|done]].
Qed.

Lemma split_loop_tiles i n pieces :
  0 ≤ i → (Z.of_nat n = plan_num_shards p - i) →
  ∃ l, split_loop (left_range_of (plan_range p)) (right_range_of (plan_range p)) lp rp
         ((λ i, mkShard i (KeyRange_new (bound p i) (bound p (i + 1) - 1))) <$> seqZ i (Z.of_nat n))
         pieces = Some (pieces ++ l)
    ∧ tiles (piece_ok p lp rp) (bound p i) (bound p (plan_num_shards p) - 1) l.
Proof using Hl Hp Hr.
  revert i pieces. induction n as [|n IH]; intros i pieces Hi Hn.
  - exists []. rewrite app_nil_r. split; [done|].
    replace (plan_num_shards p) with i by lia. constructor.
  - rewrite seqZ_cons by lia. cbn [fmap list_fmap split_loop]. unfold Z.succ.
    destruct (split_step_tiles i pieces) as (l1 & l2 & H1 & H2 & Ht); [lia|].
    rewrite H1. simpl. rewrite H2. simpl.
    destruct (IH (i + 1) ((pieces ++ l1) ++ l2)) as (l & Hrest & Htl); [lia..|].
    replace (Z.pred (Z.of_nat (S n))) with (Z.of_nat n) by lia.
    rewrite Hrest. exists ((l1 ++ l2) ++ l). split; [by rewrite !app_assoc|].
    eapply tiles_app; [done| |].
    + by replace (bound p (i + 1) - 1 + 1) with (bound p (i + 1)) by lia.
    + pose proof (bound_le p (i + 1) (plan_num_shards p) Hp). lia.
Qed.
End Split.

Lemma plan_of_range_side r n :
  (∀ r', r = Some r' → range_wf r') → 1 ≤ n ≤ u16_max →
  ∃ q, plan_of_range r n = Some q ∧ side_plan r q.
Proof.
  intros Hr Hn. destruct r as [r|]; simpl; [|by exists None].
  specialize (Hr r eq_refl).
  destruct (ShardPlan_new_Some r n) as [q Hq]; [apply Hr|].
  rewrite Hq. simpl. exists (Some q). split; [done|].
  destruct (ShardPlan_new_wf r n q Hr Hn Hq) as (? & ? & _). done.
Qed.

Lemma split_tiles p n :
  plan_wf p → 1 ≤ n ≤ u16_max →
  ∃ s, split p n = Some s ∧ original s = p
    ∧ tiles (piece_ok p (left s) (right s)) (kr_start (plan_range p)) (kr_end (plan_range p)) (remap s).
Proof.
  intros Hp Hn. pose proof (midpoint_bounds _ (proj1 Hp)) as [Hm _].
  destruct (plan_of_range_side (left_range_of (plan_range p)) n) as (lp & El & Hlp); [|done|].
  { intros r'. unfold left_range_of, saturating_sub. case_bool; intros [= <-]. unfold_wf. lia. }
  destruct (plan_of_range_side (right_range_of (plan_range p)) n) as (rp & Er & Hrp); [|done|].
  { intros r'. unfold right_range_of. case_bool; intros [= <-]. unfold_wf. lia. }
  unfold split. rewrite El. simpl. rewrite Er. simpl. rewrite shards_exact by done. simpl.
  destruct (split_loop_tiles p Hp lp rp Hlp Hrp 0 (Z.to_nat (plan_num_shards p)) [])
    as (l & Hs & Ht); [lia|unfold_wf; lia|].
  rewrite Z2Nat.id in Hs by (unfold_wf; lia). rewrite Hs. simpl.
  eexists. split; [done|]. split; [done|]. simpl.
  rewrite bound_0, bound_last in Ht by done. by replace (_ + 1 - 1) with (kr_end (plan_range p)) in Ht by lia.
Qed.

(** The size of a shard is the average size rounded down or up. *)
Lemma bound_step p i :
  plan_wf p → 0 ≤ i →
  range_size (plan_range p) / plan_num_shards p ≤ bound p (i + 1) - bound p i
  ≤ range_size (plan_range p) / plan_num_shards p + 1.
Proof.
  intros Hp Hi. unfold bound.
  set (N := range_size (plan_range p)) in *. set (S := plan_num_shards p) in *.
  assert (1 ≤ S) by apply Hp.
  pose proof (div_ceil_bounds (i * N) S). pose proof (div_ceil_bounds ((i + 1) * N) S).
  pose proof (Z.div_mod N S). pose proof (Z.mod_pos_bound N S).
  nia.
Qed.

(** ** The iterator *)

Lemma esp_collect_exact p fuel i :
  plan_wf p → 0 ≤ i ≤ plan_num_shards p → plan_num_shards p - i ≤ Z.of_nat fuel →
  esp_collect fuel (mkESP (Some p) i)
  = Some ((λ i, (i, KeyRange_new (bound p i) (bound p (i + 1) - 1)))
            <$> seqZ i (plan_num_shards p - i)).
Proof.
  intros Hp. revert i. induction fuel as [|fuel IH]; intros i Hi Hf;
    unfold esp_collect; fold esp_collect; unfold esp_next_item, shard_count; simpl.
  - rewrite (proj2 (Z.ltb_ge _ _)) by lia. simpl. by rewrite seqZ_nil by lia.
  - destruct (Z.ltb_spec i (plan_num_shards p)); simpl; [|by rewrite seqZ_nil by lia].
    rewrite find_shard_unchecked_exact by (done || lia). simpl.
    unfold as_u16. rewrite wrap_small by (unfold_wf; lia).
    rewrite IH by lia. simpl. rewrite (seqZ_cons i) by lia. simpl.
    unfold Z.succ. repeat f_equal. lia.
Qed.

Lemma range_wf_FULL : range_wf KeyRange_FULL.
Proof. unfold_wf. lia. Qed.
#[export] Hint Resolve range_wf_FULL : restate.

(** ** Properties *)

(** In a plan built by [ShardPlan::new], the O(1) mapping [key_to_idx]
    returns [i] exactly when [find_shard] returns a shard [i] whose range
    contains the key; neither call panics. *)
Theorem key_to_idx_agrees_with_find_shard r n p k i :
  range_wf r → 1 ≤ n ≤ u16_max → in_u16 i → ShardPlan_new r n = Some p →
  key_to_idx p k = Some i ↔
  ∃ s, find_shard p i = Some (Some s) ∧ shard_idx s = i ∧ kr_contains (shard_range s) k = true.
Proof.
  intros Hr Hn Hi Hnew. destruct (ShardPlan_new_wf r n p Hr Hn Hnew) as (Hp & _ & _).
  rewrite key_to_idx_iff by done. unfold find_shard, in_u in *.
  destruct (Z.leb_spec (plan_num_shards p) i); simpl; [split; [lia|by intros (? & ? & _)]|].
  rewrite find_shard_unchecked_exact by (done || lia). simpl. unfold kr_contains.
  split.
  - intros [_ Hb]. eexists. split_and!; [done..|]. simpl. lia.
  - intros (s & [= <-] & _ & Hc). simpl in Hc. bool_to_prop. lia.
Qed.

Lemma key_to_idx_agrees_with_find_shard_witness :
  key_to_idx (mkShardPlan (KeyRange_new 100 199) 4) 150 = Some 2 ↔
  ∃ s, find_shard (mkShardPlan (KeyRange_new 100 199) 4) 2 = Some (Some s)
    ∧ shard_idx s = 2 ∧ kr_contains (shard_range s) 150 = true.
Proof.
  apply (key_to_idx_agrees_with_find_shard (KeyRange_new 100 199) 4);
    [unfold range_wf; simpl; lia|lia|unfold in_u; lia|vm_compute; reflexivity].
Defined.

(** C34: the shards of a plan are [min(max_shards, number of keys)] many, are
    numbered in order, are non-empty and adjacent, start and end with the
    plan's range, and their sizes differ by at most one key. *)
Theorem shards_partition_range r n p :
  range_wf r → 1 ≤ n ≤ u16_max → ShardPlan_new r n = Some p →
  ∃ l, shards p = Some l
    ∧ Z.of_nat (length l) = Z.min n (kr_end r - kr_start r + 1)
    ∧ (∀ i s, l !! i = Some s →
         shard_idx s = Z.of_nat i ∧ kr_start (shard_range s) ≤ kr_end (shard_range s))
    ∧ (∀ s, head l = Some s → kr_start (shard_range s) = kr_start r)
    ∧ (∀ s, last l = Some s → kr_end (shard_range s) = kr_end r)
    ∧ (∀ i s s', l !! i = Some s → l !! S i = Some s' →
         kr_start (shard_range s') = kr_end (shard_range s) + 1)
    ∧ (∀ i j s s', l !! i = Some s → l !! j = Some s' →
         range_size (shard_range s) ≤ range_size (shard_range s') + 1).
Proof.
  intros Hr Hn Hnew. destruct (ShardPlan_new_wf r n p Hr Hn Hnew) as (Hp & Hpr & Hcnt).
  eexists. split; [by apply shards_exact|].
  assert (Hlk : ∀ i s, ((λ i, mkShard i (KeyRange_new (bound p i) (bound p (i + 1) - 1)))
      <$> seqZ 0 (plan_num_shards p)) !! i = Some s →
      s = mkShard (Z.of_nat i) (KeyRange_new (bound p (Z.of_nat i)) (bound p (Z.of_nat i + 1) - 1))).
  { intros i s (j & -> & Hj)%list_lookup_fmap_Some_1.
    apply lookup_seqZ in Hj as [-> _]. by rewrite Z.add_0_l. }
  assert (1 ≤ plan_num_shards p) by apply Hp.
  split_and!.
  - rewrite length_fmap, length_seqZ. unfold range_size in Hcnt. lia.
  - intros i s ->%Hlk. simpl. pose proof (bound_lt p (Z.of_nat i) (Z.of_nat i + 1) Hp). lia.
  - intros s. rewrite head_lookup. intros ->%Hlk. simpl. by rewrite bound_0, Hpr.
  - intros s. rewrite last_lookup, length_fmap, length_seqZ. intros ->%Hlk. simpl.
    replace (Z.of_nat (pred (Z.to_nat (plan_num_shards p))) + 1) with (plan_num_shards p) by lia.
    rewrite bound_last, Hpr by done. lia.
  - intros i s s' ->%Hlk ->%Hlk. simpl. rewrite Nat2Z.inj_succ. unfold Z.succ. lia.
  - intros i j s s' ->%Hlk ->%Hlk. unfold range_size. simpl.
    pose proof (bound_step p (Z.of_nat i) Hp). pose proof (bound_step p (Z.of_nat j) Hp). lia.
Qed.

Lemma shards_partition_range_witness :
  ∃ l, shards (mkShardPlan (KeyRange_new 0 99) 8) = Some l
    ∧ Z.of_nat (length l) = Z.min 8 100.
Proof.
  destruct (shards_partition_range (KeyRange_new 0 99) 8 (mkShardPlan (KeyRange_new 0 99) 8))
    as (l & Hl & Hlen & _);
    [unfold range_wf; simpl; lia|lia|vm_compute; reflexivity|].
  exists l. split; [exact Hl|exact Hlen].
Defined.

(** C28: [split] of a plan always returns, and its remap is exact: every key of
    the plan's range lies in exactly one remap piece; the piece names the key's
    old shard, its side is [Left] exactly below the midpoint, and [new_idx] is
    the key's shard in that side's new plan. *)
Theorem split_remap_exact r n p m :
  range_wf r → 1 ≤ n ≤ u16_max → 1 ≤ m ≤ u16_max → ShardPlan_new r n = Some p →
  ∃ s, split p m = Some s ∧ original s = p ∧
    ∀ k, kr_contains r k = true →
      ∃ j pc, remap s !! j = Some pc ∧ kr_contains (piece_range pc) k = true
        ∧ (∀ j' pc', remap s !! j' = Some pc' → kr_contains (piece_range pc') k = true → j' = j)
        ∧ key_to_idx p k = Some (old_idx pc)
        ∧ (side pc = Left ↔ k < midpoint r)
        ∧ ∃ q, match side pc with Left => left s | Right => right s end = Some q
               ∧ key_to_idx q k = Some (new_idx pc).
Proof.
  intros Hr Hn Hm Hnew. destruct (ShardPlan_new_wf r n p Hr Hn Hnew) as (Hp & Hpr & _).
  destruct (split_tiles p m Hp Hm) as (s & Hs & Ho & Ht). exists s. split; [done|]. split; [done|].
  intros k Hk. unfold kr_contains in Hk. bool_to_prop. rewrite Hpr in Ht.
  destruct (tiles_cover _ _ _ _ k Ht) as (j & pc & Hj & Hc & Hok & Hu); [lia|].
  exists j, pc. split; [done|]. split; [done|]. split; [done|].
  destruct (Hok k Hc) as [Hold Hside]. split; [done|]. rewrite Hpr in Hside.
  destruct (side pc); destruct Hside as [? ?]; (split; [split; done || lia|done]).
Qed.

Lemma split_remap_exact_witness :
  ∃ s, split (mkShardPlan (KeyRange_new 100 104) 4) 4 = Some s
    ∧ original s = mkShardPlan (KeyRange_new 100 104) 4.
Proof.
  destruct (split_remap_exact (KeyRange_new 100 104) 4 (mkShardPlan (KeyRange_new 100 104) 4) 4)
    as (s & Hs & Ho & _);
    [unfold range_wf; simpl; lia|lia|lia|vm_compute; reflexivity|].
  exists s. split; [exact Hs|exact Ho].
Defined.

(** [EqualSizedPartitionPartitioner] with [n >= 1] partitions yields exactly
    [n] pairs (never more, whatever the drain bound), numbered [0 .. n-1], and
    every [u64] key lies in exactly one of the yielded ranges. *)
Theorem partitioner_covers_key_space n fuel :
  1 ≤ n ≤ u16_max → n ≤ Z.of_nat fuel →
  ∃ p l, EqualSizedPartitionPartitioner_new n = Some (Some p)
    ∧ size_hint (into_iter (Some p)) = n
    ∧ esp_collect fuel (into_iter (Some p)) = Some l
    ∧ length l = Z.to_nat n
    ∧ (∀ j pid r, l !! j = Some (pid, r) → pid = Z.of_nat j)
    ∧ ∀ k, in_u64 k →
        ∃ j pid r, l !! j = Some (pid, r) ∧ kr_contains r k = true
          ∧ ∀ j' pid' r', l !! j' = Some (pid', r') → kr_contains r' k = true → j' = j.
Proof.
  intros Hn Hf. unfold EqualSizedPartitionPartitioner_new.
  rewrite (proj2 (Z.eqb_neq n 0)) by lia.
  destruct (ShardPlan_new_Some KeyRange_FULL n) as [p Hnew]; [simpl; lia|]. rewrite Hnew. simpl.
  destruct (ShardPlan_new_wf _ n p range_wf_FULL Hn Hnew) as (Hp & Hpr & Hcnt).
  assert (plan_num_shards p = n) as Hnum by (rewrite Hcnt; unfold range_size; simpl; lia).
  eexists p, _. split; [done|]. split.
  { unfold size_hint, shard_count, as_u16. simpl. rewrite wrap_small; unfold in_u; lia. }
  split; [apply esp_collect_exact; [done|lia..]|].
  rewrite length_fmap, length_seqZ, Hnum, Z.sub_0_r. split; [done|].
  assert (Hlk : ∀ j pid r, ((λ i, (i, KeyRange_new (bound p i) (bound p (i + 1) - 1))) <$> seqZ 0 n) !! j
      = Some (pid, r) → pid = Z.of_nat j ∧ r = KeyRange_new (bound p pid) (bound p (pid + 1) - 1)).
  { intros j pid r (x & [= -> ->] & Hx)%list_lookup_fmap_Some_1.
    apply lookup_seqZ in Hx as [-> _]. by rewrite Z.add_0_l. }
  split; [intros j pid r Hj; apply (Hlk j pid r Hj)|].
  intros k Hk. destruct (key_to_idx_exact p k Hp) as (i & _ & Hi & Hb).
  { rewrite Hpr. unfold kr_contains, in_u in *. simpl. lia. }
  eexists (Z.to_nat i), i, _. split; [|split].
  - rewrite list_lookup_fmap, (proj2 (lookup_seqZ 0 n (Z.to_nat i) i)) by lia. done.
  - unfold kr_contains. simpl. lia.
  - intros j' pid' r' [-> ->]%Hlk Hc. unfold kr_contains in Hc. simpl in Hc. bool_to_prop.
    rewrite (bound_inj p i (Z.of_nat j') k Hp); lia.
Qed.

Lemma partitioner_covers_key_space_witness :
  ∃ p l, EqualSizedPartitionPartitioner_new 3 = Some (Some p)
    ∧ esp_collect 3 (into_iter (Some p)) = Some l ∧ length l = 3%nat.
Proof.
  destruct (partitioner_covers_key_space 3 3) as (p & l & Hp & _ & Hl & Hlen & _); [lia|lia|].
  exists p, l. split; [exact Hp|]. split; [exact Hl|exact Hlen].
Defined.

(** The sizes of the shards are not the ones the comment on
    [ShardPlan::shards] gives ("base + (i < rem ? 1 : 0)"): with 100 keys in 8
    shards the larger shards are not the lower-indexed ones. *)
Theorem shard_sizes_differ_from_comment :
  ∃ p l s, ShardPlan_new (KeyRange_new 0 99) 8 = Some p ∧ shards p = Some l ∧ l !! 1%nat = Some s
    ∧ range_size (shard_range s) ≠ 100 / 8 + (if 1 <? 100 mod 8 then 1 else 0).
Proof. do 3 eexists. repeat split; [vm_compute; reflexivity..|]. vm_compute. discriminate. Qed.
