(* ===== verification/Clock.v ===== *)
(** * Clock: hybrid-logical timestamps and the HLC clock

    Models crates/clock/src: [UniqueTimestamp] (unique_timestamp.rs), the HLC
    clock [HlcClock] (hlc.rs) and its storages (storage.rs).  A timestamp packs
    42 bits of milliseconds since [RESTATE_EPOCH] and a 22-bit logical counter
    in a [u64].  [HlcClock] over [AtomicStorage] is shared between threads: its
    load / compare-exchange loop is a step relation over the shared cell. *)

From S2P Require Import Prelude.
Local Open Scope Z_scope.

(** ** Timestamps *)

Definition RESTATE_EPOCH : Z := 1640995200000.
Definition PHY_TIME_BITS : Z := 42.
Definition PHY_TIME_MAX : Z := Z.shiftl 1 PHY_TIME_BITS - 1.
Definition LC_BITS : Z := 22.
Definition LC_MAX : Z := Z.shiftl 1 LC_BITS - 1.

Inductive ClockError :=
| TimestampExceedsMax
| PhysicalTimeExceedsMax (phy : Z)
| LogicalClockExceedsMax (lc max : Z)
| UnixTimestampBelowMin (unix_millis : Z)
| UnacceptableClockDrift (actual max_drift : Z).

(** The stored [NonZeroU64] is the raw value plus one. *)
Record UniqueTimestamp := mkUT { ut_stored : Z }.

#[export] Instance UniqueTimestamp_eq_dec : EqDecision UniqueTimestamp.
Proof. solve_decision. Defined.

Definition ut_new (raw : Z) : UniqueTimestamp := mkUT (saturating_add u64_max raw 1).

Definition ut_as_u64 (t : UniqueTimestamp) : Z := as_u64 (ut_stored t - 1).

(** [(phy << LC_BITS) | lc] in [u64]. *)
Definition pack (phy lc : Z) : Z := Z.lor (as_u64 (Z.shiftl phy LC_BITS)) lc.

Definition try_from_parts (phy lc : Z) : res ClockError UniqueTimestamp :=
  if PHY_TIME_MAX <? phy then Err (PhysicalTimeExceedsMax phy)
  else if LC_MAX <? lc then Err (LogicalClockExceedsMax lc LC_MAX)
  else if (lc =? LC_MAX) && (phy =? PHY_TIME_MAX) then Err TimestampExceedsMax
  else Ok (ut_new (pack phy lc)).

(** Panics when a part, or the combination, is out of range. *)
Definition from_parts_unchecked (phy lc : Z) : option UniqueTimestamp :=
  if negb (phy <=? PHY_TIME_MAX) then None
  else if negb (lc <=? LC_MAX) then None
  else
    let combined := pack phy lc in
    if negb (combined <? u64_max) then None else Some (ut_new combined).

Definition try_from_unix_millis (unix_millis : Z) : res ClockError UniqueTimestamp :=
  if unix_millis <? RESTATE_EPOCH then Err (UnixTimestampBelowMin unix_millis)
  else try_from_parts (unix_millis - RESTATE_EPOCH) 0.

Definition from_unix_millis_unchecked (unix_millis : Z) : option UniqueTimestamp :=
  from_parts_unchecked (as_u64 (unix_millis - RESTATE_EPOCH)) 0.

(** [(raw >> LC_BITS) & PHY_TIME_MAX] and [raw & LC_MAX]. *)
Definition raw_phy (raw : Z) : Z := Z.land (Z.shiftr raw LC_BITS) PHY_TIME_MAX.
Definition raw_lc (raw : Z) : Z := Z.land raw LC_MAX.

Definition ut_split (t : UniqueTimestamp) : Z * Z :=
  let raw := ut_as_u64 t in (raw_phy raw, raw_lc raw).

Definition physical_raw (t : UniqueTimestamp) : Z := raw_phy (ut_as_u64 t).
Definition logical_raw (t : UniqueTimestamp) : Z := raw_lc (ut_as_u64 t).

Definition to_unix_millis (t : UniqueTimestamp) : Z :=
  as_u64 (physical_raw t + RESTATE_EPOCH).

Definition cmp_physical (t other : UniqueTimestamp) : comparison :=
  physical_raw t ?= physical_raw other.

Definition ut_saturating_sub_ms (t earlier : UniqueTimestamp) : Z :=
  saturating_sub (physical_raw t) (physical_raw earlier).

(** [TryFrom<u64>], which is also how the bilrost proxy decodes. *)
Definition ut_try_from_u64 (value : Z) : res ClockError UniqueTimestamp :=
  try_from_parts (raw_phy value) (raw_lc value).

(** A well-formed timestamp: the stored value is a non-zero [u64]. *)
Definition ut_wf (t : UniqueTimestamp) : Prop := 1 ≤ ut_stored t ≤ u64_max.

(** [derive(Ord)]: the order of the stored value. *)
Definition ut_lt (a b : UniqueTimestamp) : Prop := ut_stored a < ut_stored b.

(** ** The HLC update functions

    The closures that [next] and [try_update] pass to [update_state]: from the
    current [(physical, logical)] pair to the new timestamp.  [phy_now] is the
    physical clock reading, in milliseconds since [RESTATE_EPOCH]. *)

Definition next_fn (phy_now : Z) (latest : Z * Z) : res ClockError UniqueTimestamp :=
  let '(latest_phy, latest_lc) := latest in
  if phy_now <=? latest_phy
  then expect (from_parts_unchecked latest_phy (latest_lc + 1))
  else expect (from_parts_unchecked phy_now 0).

Definition try_update_fn (max_drift : option Z) (phy_now : Z) (incoming : UniqueTimestamp)
    (latest : Z * Z) : res ClockError UniqueTimestamp :=
  let '(incoming_phy, incoming_lc) := ut_split incoming in
  let '(my_phy, my_lc) := latest in
  if (incoming_phy <? phy_now) && (my_phy <? phy_now)
  then expect (from_parts_unchecked phy_now 0)
  else
    match incoming_phy ?= my_phy with
    | Gt =>
        let drift := saturating_sub incoming_phy phy_now in
        match max_drift with
        | Some d =>
            if d <? drift then Err (UnacceptableClockDrift drift d)
            else try_from_parts incoming_phy (incoming_lc + 1)
        | None => try_from_parts incoming_phy (incoming_lc + 1)
        end
    | Lt => expect (from_parts_unchecked my_phy (my_lc + 1))
    | Eq => try_from_parts my_phy (Z.max my_lc incoming_lc + 1)
    end.

(** An HLC operation with the physical clock reading it took: [Clock::recent]
    is read once, before the loop.  [now] is in unix milliseconds. *)
Inductive HlcOp :=
| OpNext (now : Z)
| OpTryUpdate (now : Z) (incoming : UniqueTimestamp).

Definition op_wf (op : HlcOp) : Prop :=
  match op with OpNext _ => True | OpTryUpdate _ inc => ut_wf inc end.

Definition phy_clock_now (now : Z) : Z := as_u64 (now - RESTATE_EPOCH).

Definition op_fn (max_drift : option Z) (op : HlcOp) (latest : Z * Z)
    : res ClockError UniqueTimestamp :=
  match op with
  | OpNext now => next_fn (phy_clock_now now) latest
  | OpTryUpdate now inc => try_update_fn max_drift (phy_clock_now now) inc latest
  end.

(** One pass of the [update_state] body on a loaded state value. *)
Definition update_pass (max_drift : option Z) (op : HlcOp) (current : Z)
    : res ClockError UniqueTimestamp :=
  op_fn max_drift op (raw_phy current, raw_lc current).

(** [HlcClock::new]: the initial state value. *)
Definition hlc_new (now : Z) : res ClockError Z :=
  if RESTATE_EPOCH <? now then
    let? t := try_from_unix_millis now in Ok (ut_as_u64 t)
  else Panic.

(** An operation over [LocalStorage], whose compare-exchange always succeeds:
    the outcome and the new state. *)
Definition hlc_run_local (max_drift : option Z) (op : HlcOp) (state : Z)
    : res ClockError UniqueTimestamp * Z :=
  match update_pass max_drift op state with
  | Ok t => (Ok t, ut_as_u64 t)
  | Err e => (Err e, state)
  | Panic => (Panic, state)
  end.

(** ** Concurrent use over [AtomicStorage] *)

(** A thread is idle, or inside [update_state] holding the value it loaded. *)
Inductive HlcThread :=
| Idle
| InLoop (op : HlcOp) (current : Z).

Record HlcState := mkHlc {
  hlc_cell : Z;
  hlc_threads : nat → HlcThread;
  (** the timestamps returned so far, in the order of the successful
      compare-exchanges, each with the operation that returned it *)
  hlc_emitted : list (HlcOp * UniqueTimestamp);
}.

Definition set_thread (ts : nat → HlcThread) (i : nat) (t : HlcThread) : nat → HlcThread :=
  λ j, if decide (i = j) then t else ts j.

(** A step of one thread: call an operation and load the cell; a
    compare-exchange that fails (the cell changed, or spuriously) and reloads;
    one that succeeds and returns the timestamp; leaving with an error, or by a
    panic, which both leave the cell alone. *)
Inductive hlc_step (max_drift : option Z) : HlcState → HlcState → Prop :=
| step_load i op s :
    hlc_threads s i = Idle → op_wf op →
    hlc_step max_drift s
      (mkHlc (hlc_cell s) (set_thread (hlc_threads s) i (InLoop op (hlc_cell s))) (hlc_emitted s))
| step_cas_fail i op cur t s :
    hlc_threads s i = InLoop op cur → update_pass max_drift op cur = Ok t →
    hlc_step max_drift s
      (mkHlc (hlc_cell s) (set_thread (hlc_threads s) i (InLoop op (hlc_cell s))) (hlc_emitted s))
| step_cas_ok i op cur t s :
    hlc_threads s i = InLoop op cur → update_pass max_drift op cur = Ok t →
    hlc_cell s = cur →
    hlc_step max_drift s
      (mkHlc (ut_as_u64 t) (set_thread (hlc_threads s) i Idle) (hlc_emitted s ++ [(op, t)]))
| step_leave i op cur s :
    hlc_threads s i = InLoop op cur → (∀ t, update_pass max_drift op cur ≠ Ok t) →
    hlc_step max_drift s
      (mkHlc (hlc_cell s) (set_thread (hlc_threads s) i Idle) (hlc_emitted s)).

(** The clock as [HlcClock::new] leaves it, no thread inside. *)
Definition hlc_init (cell : Z) : HlcState := mkHlc cell (λ _, Idle) [].

(** ** Bit-level lemmas *)

Lemma LC_MAX_eq : LC_MAX = 4194303.
Proof. reflexivity. Qed.
Lemma PHY_TIME_MAX_eq : PHY_TIME_MAX = 4398046511103.
Proof. reflexivity. Qed.

Lemma raw_lc_mod raw : raw_lc raw = raw mod 4194304.
Proof. unfold raw_lc. change LC_MAX with (Z.ones 22). by rewrite Z.land_ones. Qed.

Lemma raw_phy_div raw : in_u64 raw → raw_phy raw = raw / 4194304.
Proof.
  intros Hr. unfold raw_phy. change PHY_TIME_MAX with (Z.ones 42).
  rewrite Z.land_ones, Z.shiftr_div_pow2 by (unfold LC_BITS; lia).
  change (2 ^ LC_BITS) with 4194304. apply Z.mod_small. unfold in_u in *.
  split; [apply Z.div_pos; lia|apply Z.div_lt_upper_bound; lia].
Qed.

Lemma pack_sum phy lc :
  0 ≤ phy ≤ PHY_TIME_MAX → 0 ≤ lc ≤ LC_MAX → pack phy lc = phy * 4194304 + lc.
Proof.
  rewrite LC_MAX_eq, PHY_TIME_MAX_eq. intros Hp Hl. unfold pack, as_u64.
  rewrite Z.shiftl_mul_pow2 by (unfold LC_BITS; lia). change (2 ^ LC_BITS) with 4194304.
  rewrite wrap_small by (unfold in_u; lia).
  symmetry. apply Z.add_nocarry_lor. apply Z.bits_inj'. intros n Hn.
  rewrite Z.land_spec, Z.bits_0.
  destruct (Z.lt_ge_cases n 22) as [Hlt|Hge].
  - change 4194304 with (2 ^ 22). by rewrite Z.mul_pow2_bits_low.
  - rewrite (Z.bits_above_log2 lc), andb_false_r; [done|lia|].
    destruct (decide (lc = 0)) as [->|]; [simpl; lia|]. apply Z.log2_lt_pow2; [lia|].
    apply (Z.lt_le_trans _ (2 ^ 22)); [lia|]. apply Z.pow_le_mono_r; lia.
Qed.

(** A raw value is determined by its two parts, ordered lexicographically. *)
Lemma raw_parts raw :
  in_u64 raw →
  raw = raw_phy raw * 4194304 + raw_lc raw
  ∧ 0 ≤ raw_phy raw ≤ PHY_TIME_MAX ∧ 0 ≤ raw_lc raw ≤ LC_MAX.
Proof.
  intros Hr. rewrite raw_phy_div, raw_lc_mod, LC_MAX_eq, PHY_TIME_MAX_eq by done.
  unfold in_u in Hr. pose proof (Z.div_mod raw 4194304). pose proof (Z.mod_pos_bound raw 4194304).
  split_and!; try lia; apply Z.div_pos || apply Z.lt_succ_r, Z.div_lt_upper_bound; lia.
Qed.

Lemma raw_parts_unique raw phy lc :
  in_u64 raw → 0 ≤ lc ≤ LC_MAX → raw = phy * 4194304 + lc → raw_phy raw = phy ∧ raw_lc raw = lc.
Proof.
  intros Hr Hl ->. rewrite raw_phy_div, raw_lc_mod by done. rewrite LC_MAX_eq in Hl.
  split; [rewrite Z.div_add_l by lia; rewrite (Z.div_small lc) by lia; lia|].
  rewrite Z.add_comm, Z.mod_add by lia. apply Z.mod_small. lia.
Qed.

Lemma ut_as_u64_exact t : ut_wf t → ut_as_u64 t = ut_stored t - 1.
Proof. unfold ut_wf, ut_as_u64, as_u64. intros. apply wrap_small. unfold in_u. lia. Qed.

Lemma ut_new_wf raw : in_u64 raw → ut_wf (ut_new raw).
Proof. unfold ut_wf, ut_new, saturating_add, in_u. simpl. lia. Qed.

Lemma ut_as_u64_new raw : 0 ≤ raw < u64_max → ut_as_u64 (ut_new raw) = raw.
Proof.
  intros Hr. rewrite ut_as_u64_exact by (apply ut_new_wf; unfold in_u; lia).
  unfold ut_new, saturating_add. simpl. lia.
Qed.

#[export] Hint Rewrite LC_MAX_eq PHY_TIME_MAX_eq : restate.

(** The timestamp with the given parts. *)
Definition ut_of (phy lc : Z) : UniqueTimestamp := ut_new (phy * 4194304 + lc).

Lemma try_from_parts_Ok phy lc t :
  0 ≤ phy → 0 ≤ lc → try_from_parts phy lc = Ok t →
  phy ≤ PHY_TIME_MAX ∧ lc ≤ LC_MAX ∧ phy * 4194304 + lc < u64_max ∧ t = ut_of phy lc.
Proof.
  intros Hp Hl. unfold try_from_parts.
  destruct (Z.ltb_spec PHY_TIME_MAX phy); [done|]. destruct (Z.ltb_spec LC_MAX lc); [done|].
  destruct (Z.eqb_spec lc LC_MAX), (Z.eqb_spec phy PHY_TIME_MAX); simpl; intros [= <-];
    (rewrite pack_sum by lia); autorewrite with restate in *; (split_and!; [lia..|done]).
Qed.

Lemma from_parts_unchecked_Some phy lc t :
  0 ≤ phy → 0 ≤ lc → from_parts_unchecked phy lc = Some t →
  phy ≤ PHY_TIME_MAX ∧ lc ≤ LC_MAX ∧ phy * 4194304 + lc < u64_max ∧ t = ut_of phy lc.
Proof.
  intros Hp Hl. unfold from_parts_unchecked.
  destruct (Z.leb_spec phy PHY_TIME_MAX); [|done]. destruct (Z.leb_spec lc LC_MAX); [|done]. simpl.
  rewrite pack_sum by lia. destruct (Z.ltb_spec (phy * 4194304 + lc) u64_max); [|done].
  intros [= <-]. split_and!; [lia..|done].
Qed.

Lemma expect_Ok {E A} (o : option A) (a : A) : expect (E := E) o = Ok a → o = Some a.
Proof. destruct o; naive_solver. Qed.

Lemma ut_of_wf phy lc : 0 ≤ phy → 0 ≤ lc → phy * 4194304 + lc < u64_max →
  ut_wf (ut_of phy lc) ∧ ut_as_u64 (ut_of phy lc) = phy * 4194304 + lc.
Proof.
  intros. unfold ut_of. split; [apply ut_new_wf; unfold in_u; lia|apply ut_as_u64_new; lia].
Qed.

(** ** One pass moves the clock forward *)

(** The shape of a successful pass: a timestamp above the loaded state, above
    the incoming timestamp if there is one, and no further ahead of the
    physical clock than the state was or the drift allows. *)
Lemma update_pass_Ok max_drift op cur t :
  in_u64 cur →
  op_wf op → update_pass max_drift op cur = Ok t →
  ∃ phy lc, t = ut_of phy lc ∧ 0 ≤ phy ∧ 0 ≤ lc ≤ LC_MAX ∧ phy * 4194304 + lc < u64_max
    ∧ cur < phy * 4194304 + lc
    ∧ match op with
      | OpNext now => phy ≤ Z.max (raw_phy cur) (phy_clock_now now)
      | OpTryUpdate now inc =>
          ut_as_u64 inc < phy * 4194304 + lc
          ∧ ∀ d, max_drift = Some d → 0 ≤ d → phy ≤ Z.max (raw_phy cur) (phy_clock_now now + d)
      end.
Proof.
  intros Hcur Hop. destruct (raw_parts cur Hcur) as (Hc & Hcp & Hcl).
  unfold update_pass, op_fn. destruct op as [now|now inc].
  - assert (0 ≤ phy_clock_now now) by (apply wrap_range; lia).
    unfold next_fn. destruct (Z.leb_spec (phy_clock_now now) (raw_phy cur));
      intros (? & ? & ? & ->)%expect_Ok%from_parts_unchecked_Some; try lia;
      (do 2 eexists; split; [done|]; autorewrite with restate in *; lia).
  - assert (0 ≤ phy_clock_now now) by (apply wrap_range; lia).
    assert (in_u64 (ut_as_u64 inc)) as Hinc by (apply wrap_range; lia).
    destruct (raw_parts _ Hinc) as (Hi & Hip & Hil).
    unfold try_update_fn, ut_split. unfold saturating_sub.
    destruct (_ && _) eqn:Hb; [|destruct (Z.compare_spec (raw_phy (ut_as_u64 inc)) (raw_phy cur))];
      bool_to_prop;
      repeat match goal with |- context [match max_drift with _ => _ end] => destruct max_drift end;
      try (destruct (Z.ltb_spec z (Z.max 0 (raw_phy (ut_as_u64 inc) - phy_clock_now now))); [done|]);
      first [intros (? & ? & ? & ->)%expect_Ok%from_parts_unchecked_Some
            |intros (? & ? & ? & ->)%try_from_parts_Ok]; try lia;
      (do 2 eexists; split; [done|]; autorewrite with restate in *; split_and!; try lia;
       intros ? [= <-] ?; lia).
Qed.

(** ** Invariant of the shared clock *)

Record hlc_inv (c0 : Z) (s : HlcState) : Prop := {
  inv_cell : in_u64 (hlc_cell s) ∧ c0 ≤ hlc_cell s;
  inv_threads : ∀ i op cur, hlc_threads s i = InLoop op cur → in_u64 cur ∧ op_wf op;
  inv_sorted : StronglySorted ut_lt (hlc_emitted s).*2;
  inv_emitted : ∀ op t, (op, t) ∈ hlc_emitted s →
    ut_wf t ∧ c0 < ut_as_u64 t ≤ hlc_cell s
    ∧ match op with OpNext _ => True | OpTryUpdate _ inc => ut_lt inc t end;
}.

Lemma StronglySorted_snoc {A} (R : relation A) l x :
  StronglySorted R l → (∀ y, y ∈ l → R y x) → StronglySorted R (l ++ [x]).
Proof.
  induction 1 as [|y l Hs IH Hf]; intros Hx; simpl; [by repeat constructor|].
  constructor; [apply IH; set_solver|].
  apply Forall_app. split; [done|]. repeat constructor. apply Hx. set_solver.
Qed.

Lemma hlc_step_inv d c0 s s' : hlc_step d s s' → hlc_inv c0 s → hlc_inv c0 s'.
Proof.
  intros Hstep [[Hc Hc0] Ht Hs He].
  assert (Hset : ∀ i th, (∀ op cur, th = InLoop op cur → in_u64 cur ∧ op_wf op) →
            ∀ j op cur, set_thread (hlc_threads s) i th j = InLoop op cur → in_u64 cur ∧ op_wf op).
  { intros i th Hth j op cur. unfold set_thread. case_decide; eauto. }
  destruct Hstep as [i op s Hi Hop|i op cur t s Hi Hu|i op cur t s Hi Hu Hcell|i op cur s Hi Hu];
    (split; simpl; [try by split|apply Hset; try by intros|try done|try done]).
  - by intros ? ? [= <- <-].
  - intros ? ? [= <- <-]. split; [done|by eapply Ht].
  - destruct (Ht _ _ _ Hi) as [Hcur Hop].
    destruct (update_pass_Ok _ _ _ _ Hcur Hop Hu) as (phy & lc & -> & ? & ? & ? & ? & _).
    destruct (ut_of_wf phy lc) as [_ ->]; [lia..|]. unfold in_u in *. lia.
  - destruct (Ht _ _ _ Hi) as [Hcur Hop].
    destruct (update_pass_Ok _ _ _ _ Hcur Hop Hu) as (phy & lc & -> & ? & ? & ? & ? & _).
    destruct (ut_of_wf phy lc) as [Hw Heq]; [lia..|].
    rewrite fmap_app. apply StronglySorted_snoc; [done|].
    intros y ((op', t') & -> & Hin)%list_elem_of_fmap. destruct (He _ _ Hin) as (Hw' & ? & _).
    simpl. unfold ut_lt. rewrite ut_as_u64_exact in * by done. lia.
  - destruct (Ht _ _ _ Hi) as [Hcur Hop].
    destruct (update_pass_Ok _ _ _ _ Hcur Hop Hu) as (phy & lc & -> & ? & ? & ? & ? & Hlast).
    destruct (ut_of_wf phy lc) as [Hw Heq]; [lia..|].
    intros op' t' [Hin|Hin]%elem_of_app.
    + destruct (He _ _ Hin) as (? & ? & ?). split_and!; [done|lia|lia|done].
    + apply list_elem_of_singleton in Hin as [= -> ->]. split; [done|]. split; [lia|].
      destruct op as [|now inc]; [done|]. destruct Hlast as [Hinc _]. unfold ut_lt.
      rewrite ut_as_u64_exact in Heq by done. rewrite ut_as_u64_exact in Hinc by done. lia.
Qed.

Lemma hlc_reachable_inv d c0 s :
  in_u64 c0 → rtc (hlc_step d) (hlc_init c0) s → hlc_inv c0 s.
Proof.
  intros Hc Hr. remember (hlc_init c0) as s0 eqn:E0.
  assert (hlc_inv c0 s0) as H0.
  { subst. split; simpl; [split; [done|lia]|done|constructor|set_solver]. }
  clear E0. induction Hr as [|s0 s1 s2 Hstep _ IH]; eauto using hlc_step_inv.
Qed.

(** ** Properties *)

(** Encoding a timestamp as a [u64] and decoding it again is exact: every
    [u64] below [u64::MAX] decodes to a timestamp that encodes back to it (and
    whose parts recombine to it), and [u64::MAX] is rejected. *)
Theorem timestamp_codec_roundtrip v :
  in_u64 v →
  if v =? u64_max then ut_try_from_u64 v = Err TimestampExceedsMax
  else ∃ t, ut_try_from_u64 v = Ok t ∧ ut_wf t ∧ ut_as_u64 t = v
       ∧ ut_split t = (v / 2 ^ 22, v mod 2 ^ 22)
       ∧ try_from_parts (v / 2 ^ 22) (v mod 2 ^ 22) = Ok t.
Proof.
  intros Hv. destruct (raw_parts v Hv) as (Hsum & Hp & Hl).
  change (2 ^ 22) with 4194304. rewrite <- raw_phy_div, <- raw_lc_mod by done.
  unfold ut_try_from_u64, ut_split.
  destruct (Z.eqb_spec v u64_max) as [->|Hne]; [reflexivity|].
  assert (try_from_parts (raw_phy v) (raw_lc v) = Ok (ut_new v)) as HOk.
  { unfold try_from_parts. rewrite (pack_sum _ _ Hp Hl), <- Hsum. unfold in_u in *.
    autorewrite with restate in *. case_bool; lia || done. }
  exists (ut_new v). unfold in_u in Hv.
  rewrite HOk, ut_as_u64_new by lia. split_and!; try done. apply ut_new_wf. unfold in_u. lia.
Qed.

Lemma timestamp_codec_roundtrip_witness :
  ∃ t, ut_try_from_u64 12345678901234567 = Ok t ∧ ut_as_u64 t = 12345678901234567.
Proof.
  destruct (timestamp_codec_roundtrip 12345678901234567) as (t & H1 & _ & H2 & _);
    [unfold in_u; lia|].
  exists t. split; [exact H1|exact H2].
Defined.

(** C27: timestamps returned by one [HlcClock] shared between any number of
    threads are unique and strictly increasing in the order in which the
    compare-exchanges succeed, all of them are above the clock's initial state,
    and one returned by [try_update] is also above the incoming timestamp. *)
Theorem hlc_timestamps_strictly_increasing d c0 s :
  in_u64 c0 → rtc (hlc_step d) (hlc_init c0) s →
  StronglySorted ut_lt (hlc_emitted s).*2
  ∧ ∀ op t, (op, t) ∈ hlc_emitted s →
      c0 < ut_as_u64 t
      ∧ match op with OpNext _ => True | OpTryUpdate _ inc => ut_lt inc t end.
Proof.
  intros Hc Hr. destruct (hlc_reachable_inv d c0 s Hc Hr) as [_ _ Hs He].
  split; [done|]. intros op t Hin. destruct (He _ _ Hin) as (_ & ? & ?). split; [lia|done].
Qed.

(** Two threads load the same state; the first wins, the second reloads. *)
Lemma hlc_timestamps_strictly_increasing_witness :
  let now := RESTATE_EPOCH + 5 in
  ∃ s, rtc (hlc_step None) (hlc_init 0) s ∧ length (hlc_emitted s) = 2%nat
    ∧ StronglySorted ut_lt (hlc_emitted s).*2.
Proof.
  intros now.
  pose (s1 := mkHlc 0 (set_thread (λ _, Idle) 0 (InLoop (OpNext now) 0)) []).
  pose (s2 := mkHlc 0 (set_thread (hlc_threads s1) 1 (InLoop (OpNext now) 0)) []).
  pose (t1 := ut_of 5 0). pose (t2 := ut_of 5 1).
  pose (s3 := mkHlc (ut_as_u64 t1) (set_thread (hlc_threads s2) 0 Idle) [(OpNext now, t1)]).
  pose (s4 := mkHlc (ut_as_u64 t1) (set_thread (hlc_threads s3) 1 (InLoop (OpNext now) (ut_as_u64 t1)))
                [(OpNext now, t1)]).
  pose (s5 := mkHlc (ut_as_u64 t2) (set_thread (hlc_threads s4) 1 Idle)
                [(OpNext now, t1); (OpNext now, t2)]).
  assert (rtc (hlc_step None) (hlc_init 0) s5) as Hr.
  { eapply rtc_l; [apply (step_load _ 0 (OpNext now) (hlc_init 0)); [reflexivity|exact I]|].
    eapply rtc_l; [apply (step_load _ 1 (OpNext now) s1); [reflexivity|exact I]|].
    eapply rtc_l; [apply (step_cas_ok _ 0 (OpNext now) 0 t1 s2);
      [reflexivity|vm_compute; reflexivity|reflexivity]|].
    eapply rtc_l; [apply (step_cas_fail _ 1 (OpNext now) 0 t1 s3);
      [reflexivity|vm_compute; reflexivity]|].
    eapply rtc_l; [apply (step_cas_ok _ 1 (OpNext now) (ut_as_u64 t1) t2 s4);
      [reflexivity|vm_compute; reflexivity|reflexivity]|].
    apply rtc_refl. }
  exists s5. split; [exact Hr|]. split; [reflexivity|].
  apply (hlc_timestamps_strictly_increasing None 0 s5); [unfold in_u; lia|exact Hr].
Defined.

(** C38: with a drift bound [d], [try_update] never moves the clock's physical
    part further than [d] milliseconds ahead of the local physical clock (it
    stays where it was if it already was further), and an incoming timestamp
    that is too far ahead is refused with the state unchanged. *)
Theorem try_update_respects_drift d now inc st out st' :
  in_u64 st → ut_wf inc → 0 ≤ d →
  hlc_run_local (Some d) (OpTryUpdate now inc) st = (out, st') →
  match out with
  | Ok t => st' = ut_as_u64 t ∧ physical_raw t ≤ Z.max (raw_phy st) (phy_clock_now now + d)
  | _ => st' = st
  end
  ∧ (Z.max (raw_phy st) (phy_clock_now now) + d < physical_raw inc →
     out = Err (UnacceptableClockDrift (physical_raw inc - phy_clock_now now) d)).
Proof.
  intros Hst Hinc Hd Hrun. split.
  - unfold hlc_run_local in Hrun. destruct (update_pass _ _ st) as [t| |] eqn:Hu; simplify_eq; [|done..].
    split; [done|]. destruct (update_pass_Ok _ _ _ _ Hst (Hinc : op_wf (OpTryUpdate now inc)) Hu)
      as (phy & lc & -> & ? & ? & ? & ? & ? & Hdrift).
    destruct (ut_of_wf phy lc) as [_ Heq]; [lia..|]. unfold physical_raw.
    destruct (raw_parts_unique (ut_as_u64 (ut_of phy lc)) phy lc) as [-> _];
      [rewrite Heq; unfold in_u; lia|lia|done|]. by apply Hdrift.
  - intros Hfar. assert (0 ≤ phy_clock_now now) by (apply wrap_range; lia).
    destruct (raw_parts st Hst) as (_ & ? & _).
    unfold hlc_run_local, update_pass, op_fn, try_update_fn, ut_split, physical_raw, saturating_sub in *.
    rewrite (proj2 (Z.ltb_ge _ (phy_clock_now now))) in Hrun by lia.
    cbn [andb] in Hrun. rewrite (proj2 (Z.compare_gt_iff _ _)) in Hrun by lia.
    rewrite (Z.max_r 0) in Hrun by lia. rewrite (proj2 (Z.ltb_lt d _)) in Hrun by lia.
    by simplify_eq.
Qed.

Lemma try_update_respects_drift_witness :
  let now := RESTATE_EPOCH + 5 in
  hlc_run_local (Some 100) (OpTryUpdate now (ut_of 1000 0)) 0
  = (Err (UnacceptableClockDrift 995 100), 0).
Proof.
  intros now.
  destruct (hlc_run_local (Some 100) (OpTryUpdate now (ut_of 1000 0)) 0) as [out st'] eqn:Hrun.
  destruct (try_update_respects_drift 100 now (ut_of 1000 0) 0 out st') as [H1 H2];
    [unfold in_u; lia|vm_compute; split; discriminate|lia|exact Hrun|].
  rewrite H2 in H1 by (vm_compute; reflexivity).
  rewrite H2 by (vm_compute; reflexivity). rewrite H1. vm_compute. reflexivity.
Defined.
