(* ===== verification/LogTypes.v ===== *)
(** * LogTypes: sequence numbers, loglet ids, tail states and record keys

    Models crates/types/src/logs: the sequence numbers [Lsn] and [LogletOffset]
    and the record [Keys] and [KeyFilter] (mod.rs), [LogletId] (loglet.rs) and
    [TailState] (tail.rs). *)

From S2P Require Import Prelude.
Local Open Scope Z_scope.

(** ** Sequence numbers *)

(** [trait SequenceNumber]: the constants and the two saturating steps. *)
Class SequenceNumber := {
  sn_MAX : Z;
  sn_INVALID : Z;
  sn_OLDEST : Z;
  sn_next : Z → Z;
  sn_prev : Z → Z;
}.

Definition Lsn_MAX : Z := u64_max.
Definition Lsn_INVALID : Z := 0.
Definition Lsn_OLDEST : Z := 1.
Definition lsn_next (l : Z) : Z := saturating_add u64_max l 1.
Definition lsn_prev (l : Z) : Z := saturating_sub l 1.

Definition Lsn_SequenceNumber : SequenceNumber := {|
  sn_MAX := Lsn_MAX; sn_INVALID := Lsn_INVALID; sn_OLDEST := Lsn_OLDEST;
  sn_next := lsn_next; sn_prev := lsn_prev |}.

Definition LogletOffset_OLDEST : Z := 1.
Definition offset_next (o : Z) : Z := saturating_add u32_max o 1.
(** Saturates to [OLDEST], not to [INVALID]. *)
Definition offset_prev (o : Z) : Z := Z.max LogletOffset_OLDEST (saturating_sub o 1).
Definition offset_prev_unchecked (o : Z) : Z := saturating_sub o 1.
(** [Add<u32>]: panics on overflow. *)
Definition offset_add (o rhs : Z) : option Z := checked_add u32_max o rhs.

Definition LogletOffset_SequenceNumber : SequenceNumber := {|
  sn_MAX := u32_max; sn_INVALID := 0; sn_OLDEST := LogletOffset_OLDEST;
  sn_next := offset_next; sn_prev := offset_prev |}.

(** ** Loglet ids *)

Definition LogletId_new (log_id segment_index : Z) : Z :=
  Z.lor (as_u64 (Z.shiftl log_id 32)) segment_index.

(** Panics when the segment part is exhausted. *)
Definition LogletId_next (id : Z) : option Z :=
  if Z.land id 0xFFFFFFFF <? u32_max then Some (as_u64 (id + 1)) else None.

Definition LogletId_log_id (id : Z) : Z := Z.shiftr id 32.
Definition LogletId_segment_index (id : Z) : Z := Z.land id 0xFFFFFFFF.

(** ** Tail state *)

Inductive TailState :=
| TailOpen (offset : Z)
| TailSealed (offset : Z).

#[export] Instance TailState_eq_dec : EqDecision TailState.
Proof. solve_decision. Defined.

Definition TailState_new (sealed : bool) (offset : Z) : TailState :=
  if sealed then TailSealed offset else TailOpen offset.

Definition tail_is_sealed (t : TailState) : bool :=
  match t with TailSealed _ => true | TailOpen _ => false end.

Definition tail_offset (t : TailState) : Z :=
  match t with TailOpen o | TailSealed o => o end.

(** [combine]: the new state and whether it changed. *)
Definition tail_combine (t : TailState) (sealed : bool) (offset : Z) : TailState * bool :=
  let old_offset := tail_offset t in
  let is_already_sealed := tail_is_sealed t in
  let new_offset := Z.max (tail_offset t) offset in
  let new_sealed := tail_is_sealed t || sealed in
  if negb (Bool.eqb new_sealed is_already_sealed) || (old_offset <? new_offset)
  then (TailState_new new_sealed new_offset, true)
  else (t, false).

Definition tail_seal (t : TailState) : TailState * bool :=
  if tail_is_sealed t then (t, false)
  else (TailState_new true (tail_offset t), true).

(** ** Record keys and key filters *)

Inductive Keys :=
| KeysNone
| KeysSingle (k : Z)
| KeysPair (k1 k2 : Z)
| KeysRangeInclusive (start end_ : Z).

Inductive KeyFilter :=
| FilterAny
| FilterInclude (k : Z)
| FilterWithin (start end_ : Z).

Definition range_contains (start end_ k : Z) : bool := (start <=? k) && (k <=? end_).

Definition matches_key_query (keys : Keys) (query : KeyFilter) : bool :=
  match keys, query with
  | KeysNone, _ => true
  | _, FilterAny => true
  | KeysSingle key1, FilterInclude key2 => key1 =? key2
  | KeysSingle key, FilterWithin a b => range_contains a b key
  | KeysPair first second, FilterInclude key => (key =? first) || (key =? second)
  | KeysPair first second, FilterWithin a b => range_contains a b first || range_contains a b second
  | KeysRangeInclusive s e, FilterInclude key => range_contains s e key
  | KeysRangeInclusive s1 e1, FilterWithin s2 e2 => (s1 <=? e2) && (s2 <=? e1)
  end.

(** [Keys::iter]: the keys the record carries. *)
Definition keys_iter (keys : Keys) : list Z :=
  match keys with
  | KeysNone => []
  | KeysSingle k => [k]
  | KeysPair k1 k2 => [k1; k2]
  | KeysRangeInclusive s e => seqZ s (e - s + 1)
  end.

(** The keys a filter asks for. *)
Definition filter_wants (query : KeyFilter) (k : Z) : Prop :=
  match query with
  | FilterAny => True
  | FilterInclude k' => k = k'
  | FilterWithin a b => a ≤ k ≤ b
  end.

(** ** Lemmas *)

Lemma land_u32 x : Z.land x 0xFFFFFFFF = x mod 2 ^ 32.
Proof. change 0xFFFFFFFF with (Z.ones 32). by apply Z.land_ones. Qed.

Lemma LogletId_new_sum l s : in_u32 l → in_u32 s → LogletId_new l s = l * 2 ^ 32 + s.
Proof.
  unfold in_u, LogletId_new, as_u64. intros Hl Hs.
  rewrite Z.shiftl_mul_pow2 by lia. rewrite wrap_small by (unfold in_u; lia).
  symmetry. apply Z.add_nocarry_lor, Z.bits_inj'. intros n Hn. rewrite Z.land_spec, Z.bits_0.
  destruct (Z.lt_ge_cases n 32) as [Hlt|Hge]; [by rewrite Z.mul_pow2_bits_low|].
  rewrite (Z.bits_above_log2 s), andb_false_r; [done|lia|].
  destruct (decide (s = 0)) as [->|]; [simpl; lia|]. apply Z.log2_lt_pow2; [lia|].
  apply (Z.lt_le_trans _ (2 ^ 32)); [lia|]. apply Z.pow_le_mono_r; lia.
Qed.

Lemma LogletId_parts id l s :
  0 ≤ s < 2 ^ 32 → id = l * 2 ^ 32 + s → LogletId_log_id id = l ∧ LogletId_segment_index id = s.
Proof.
  intros Hs ->. unfold LogletId_log_id, LogletId_segment_index.
  rewrite land_u32, Z.shiftr_div_pow2 by lia. split.
  - rewrite Z.div_add_l by lia. rewrite Z.div_small by lia. lia.
  - rewrite Z.add_comm, Z.mod_add by lia. apply Z.mod_small. lia.
Qed.

(** ** Properties *)

(** A [LogletId] gives back the log id and segment index it was made of,
    and [next] keeps the log id and steps the segment index by one, panicking
    exactly when the segment index is [u32::MAX]. *)
Theorem LogletId_roundtrip_and_next l s :
  in_u32 l → in_u32 s →
  LogletId_log_id (LogletId_new l s) = l ∧ LogletId_segment_index (LogletId_new l s) = s
  ∧ LogletId_next (LogletId_new l s) = if s =? u32_max then None else Some (LogletId_new l (s + 1)).
Proof.
  intros Hl Hs. rewrite !LogletId_new_sum by done.
  destruct (LogletId_parts (l * 2 ^ 32 + s) l s) as [H1 H2]; [unfold in_u in *; lia|done|].
  split; [done|]. split; [done|].
  unfold LogletId_next, as_u64. fold (LogletId_segment_index (l * 2 ^ 32 + s)). rewrite H2.
  unfold in_u in *. destruct (Z.eqb_spec s u32_max).
  - by rewrite (proj2 (Z.ltb_ge _ _)) by lia.
  - rewrite (proj2 (Z.ltb_lt _ _)) by lia. rewrite LogletId_new_sum by (unfold in_u; lia).
    rewrite wrap_small by (unfold in_u; lia). f_equal. lia.
Qed.

Lemma LogletId_roundtrip_and_next_witness :
  LogletId_log_id (LogletId_new 7 3) = 7 ∧ LogletId_segment_index (LogletId_new 7 3) = 3
  ∧ LogletId_next (LogletId_new 7 3) = Some (LogletId_new 7 4).
Proof. apply (LogletId_roundtrip_and_next 7 3); unfold in_u; lia. Defined.

(** The order in which tail states may evolve: the offset grows and a sealed
    tail stays sealed. *)
Definition tail_le (a b : TailState) : Prop :=
  tail_offset a ≤ tail_offset b ∧ (tail_is_sealed a = true → tail_is_sealed b = true).

(** [TailState::combine] is the least upper bound of the state and the
    observed [(sealed, offset)] in the order "offsets only move forward, a
    sealed tail is never unsealed"; it reports a change exactly when the state
    changed.  So tail updates can be applied in any order, and repeatedly. *)
Theorem tail_combine_is_join t sealed offset :
  let t' := fst (tail_combine t sealed offset) in
  tail_le t t' ∧ tail_le (TailState_new sealed offset) t'
  ∧ (∀ u, tail_le t u → tail_le (TailState_new sealed offset) u → tail_le t' u)
  ∧ (snd (tail_combine t sealed offset) = true ↔ t' ≠ t).
Proof.
  unfold tail_combine, tail_le.
  destruct t as [o|o], sealed; simpl;
    destruct (Z.ltb_spec o (Z.max o offset)); simpl; repeat split; intros; simpl in *;
    intuition (try congruence; try lia).
  all: simplify_eq; try lia; congruence.
Qed.

(** A record matches a key filter exactly when it has no keys, the filter
    is [Any], or one of the record's keys is wanted by the filter (ranges
    non-empty). *)
Theorem matches_key_query_spec keys query :
  match keys with KeysRangeInclusive s e => s ≤ e | _ => True end →
  match query with FilterWithin a b => a ≤ b | _ => True end →
  matches_key_query keys query = true ↔
  keys = KeysNone ∨ query = FilterAny ∨ ∃ k, k ∈ keys_iter keys ∧ filter_wants query k.
Proof.
  intros Hk Hq.
  assert (HIn : ∀ k, k ∈ keys_iter keys ↔ match keys with
      | KeysNone => False | KeysSingle a => k = a | KeysPair a b => k = a ∨ k = b
      | KeysRangeInclusive s e => s ≤ k ≤ e end).
  { intros k. destruct keys; simpl; rewrite ?elem_of_nil, ?elem_of_cons, ?elem_of_seqZ, ?elem_of_nil; intuition lia. }
  setoid_rewrite HIn. clear HIn.
  destruct keys as [|a|a b|s e], query as [|q|qs qe]; simpl; unfold range_contains;
    (split; [intros Hm | intros [?|[?|(k & Hin & Hw)]]]);
    try done; try (by auto); try lia; try discriminate.
  all: try (right; right).
  - exists a. lia.
  - exists a. lia.
  - exists q. lia.
  - apply orb_true_iff in Hm as [Hm|Hm]; [exists a|exists b]; lia.
  - exists q. lia.
  - exists (Z.max s qs). lia.
Qed.

Lemma matches_key_query_spec_witness :
  matches_key_query (KeysRangeInclusive 5 10) (FilterWithin 10 12) = true.
Proof.
  apply (matches_key_query_spec (KeysRangeInclusive 5 10) (FilterWithin 10 12)); [lia|lia|].
  right. right. exists 10. split; [|simpl; lia]. vm_compute. repeat constructor.
Defined.
