(* ===== verification/BTreeMap.v ===== *)
(** * BTreeMap: ordered maps with integer keys

    The part of [std::collections::BTreeMap] the log chain uses, as an
    association list in strictly increasing key order ([bt_wf]). *)

From S2P Require Import Prelude.
Local Open Scope Z_scope.

Section BTree.
Context {V : Type}.
Implicit Types (m : list (Z * V)) (k : Z) (v : V).

Definition bt_wf m : Prop := StronglySorted Z.lt m.*1.

Definition bt_first_key_value m : option (Z * V) := head m.
Definition bt_last_key_value m : option (Z * V) := last m.

(** [insert]: replaces the value of an existing key. *)
Fixpoint bt_insert k v m : list (Z * V) :=
  match m with
  | [] => [(k, v)]
  | (k', v') :: m' =>
      if k <? k' then (k, v) :: m
      else if k =? k' then (k, v) :: m'
      else (k', v') :: bt_insert k v m'
  end.

(** [iter().rfind(p)]: the entry with the greatest key that satisfies [p]. *)
Definition bt_rfind (p : Z * V → bool) m : option (Z * V) := last (filter p m).

(** [range((Excluded(k), Unbounded)).next()]: the first entry above [k]. *)
Definition bt_next_after k m : option (Z * V) := head (filter (λ e, k <? e.1) m).

(** [split_off(k)]: the entries below [k] stay, the others are returned. *)
Definition bt_split_off k m : list (Z * V) * list (Z * V) :=
  (filter (λ e, e.1 <? k) m, filter (λ e, k <=? e.1) m).

(** ** Lemmas *)

Lemma bt_wf_cons k v m :
  bt_wf ((k, v) :: m) ↔ (∀ k' v', (k', v') ∈ m → k < k') ∧ bt_wf m.
Proof.
  unfold bt_wf. simpl. split.
  - intros [Hs Hf]%StronglySorted_inv. split; [|done]. intros k' v' Hin.
    rewrite Forall_forall in Hf. apply Hf. change k' with (k', v').1.
    by apply list_elem_of_fmap_2.
  - intros [Hf Hs]. constructor; [done|]. apply Forall_forall.
    intros x ([k' v'] & -> & Hin)%list_elem_of_fmap. eauto.
Qed.

Lemma bt_wf_app m1 m2 :
  bt_wf (m1 ++ m2) ↔
  bt_wf m1 ∧ bt_wf m2 ∧ ∀ e1 e2, e1 ∈ m1 → e2 ∈ m2 → e1.1 < e2.1.
Proof.
  induction m1 as [|[k v] m1 IH]; simpl.
  - split; [intros; split_and!; [constructor|done|by intros ? ? ?%not_elem_of_nil]|tauto].
  - rewrite !bt_wf_cons, IH. setoid_rewrite elem_of_app. setoid_rewrite elem_of_cons. split.
    + intros (H1 & H2 & H3 & H4). split_and!; try done; [eauto|].
      intros e1 [k2 v2] [->|Hin] Hin2; [eauto|eauto].
    + intros ((H1 & H2) & H3 & H4). split_and!; try done; [|eauto].
      intros k' v' [Hin|Hin]; [eauto|]. apply (H4 (k, v) (k', v')); auto.
Qed.

Lemma bt_wf_snoc m k v :
  bt_wf (m ++ [(k, v)]) ↔ bt_wf m ∧ ∀ e, e ∈ m → e.1 < k.
Proof.
  rewrite bt_wf_app. setoid_rewrite list_elem_of_singleton. split.
  - intros (? & _ & H). split; [done|]. intros e He. by apply (H e (k, v)).
  - intros (? & H). split_and!; [done|unfold bt_wf; simpl; repeat constructor|].
    intros e1 e2 He ->. by apply H.
Qed.

Lemma bt_wf_unique m e1 e2 : bt_wf m → e1 ∈ m → e2 ∈ m → e1.1 = e2.1 → e1 = e2.
Proof.
  induction m as [|[k v] m IH]; [by intros _ ?%not_elem_of_nil|].
  rewrite bt_wf_cons. intros [Hk Hm] [->|H1]%elem_of_cons [->|H2]%elem_of_cons Heq; [done|..].
  - destruct e2 as [k2 v2]. specialize (Hk _ _ H2). simpl in *. lia.
  - destruct e1 as [k1 v1]. specialize (Hk _ _ H1). simpl in *. lia.
  - eauto.
Qed.

(** The last entry and the rest. *)
Lemma bt_last_split m k v :
  bt_last_key_value m = Some (k, v) → ∃ m', m = m' ++ [(k, v)].
Proof. apply last_Some. Qed.

Lemma bt_insert_above m k v :
  (∀ e, e ∈ m → e.1 < k) → bt_insert k v m = m ++ [(k, v)].
Proof.
  induction m as [|[k' v'] m IH]; intros Hk; simpl; [done|].
  assert (k' < k) by (apply (Hk (k', v')); constructor).
  rewrite (proj2 (Z.ltb_ge _ _)), (proj2 (Z.eqb_neq _ _)) by lia.
  rewrite IH; [done|]. intros e He. apply Hk. by constructor.
Qed.

Lemma bt_insert_last m k v v' :
  bt_wf (m ++ [(k, v)]) → bt_insert k v' (m ++ [(k, v)]) = m ++ [(k, v')].
Proof.
  rewrite bt_wf_snoc. intros [_ Hk].
  induction m as [|[k0 v0] m IH]; simpl.
  - by rewrite Z.ltb_irrefl, Z.eqb_refl.
  - assert (k0 < k) by (apply (Hk (k0, v0)); constructor).
    rewrite (proj2 (Z.ltb_ge _ _)), (proj2 (Z.eqb_neq _ _)) by lia.
    rewrite IH; [done|]. intros e He. apply Hk. by constructor.
Qed.

Lemma filter_all_true {A} (p : A → bool) (l : list A) :
  (∀ x, x ∈ l → p x = true) → filter p l = l.
Proof.
  induction l as [|x l IH]; intros Hp; [done|].
  rewrite filter_cons_True; [|by apply Is_true_eq_left, Hp; constructor].
  f_equal. apply IH. intros y Hy. apply Hp. by constructor.
Qed.

Lemma filter_all_false {A} (p : A → bool) (l : list A) :
  (∀ x, x ∈ l → p x = false) → filter p l = [].
Proof.
  induction l as [|x l IH]; intros Hp; [done|].
  rewrite filter_cons_False; [|rewrite (Hp x) by constructor; by intros []].
  apply IH. intros y Hy. apply Hp. by constructor.
Qed.

Lemma elem_of_filter_bool {A} (p : A → bool) (l : list A) (x : A) :
  x ∈ filter p l ↔ p x = true ∧ x ∈ l.
Proof. rewrite list_elem_of_filter, Is_true_true. done. Qed.

(** Searching around one entry of a sorted map. *)
Lemma bt_next_after_split m1 m2 k v :
  bt_wf (m1 ++ (k, v) :: m2) → bt_next_after k (m1 ++ (k, v) :: m2) = head m2.
Proof.
  rewrite bt_wf_app, bt_wf_cons. intros (_ & (H2 & _) & H12). unfold bt_next_after.
  rewrite filter_app, filter_all_false, filter_cons_False; simpl.
  - rewrite filter_all_true; [done|]. intros [k' v'] Hin. simpl. apply Z.ltb_lt. eauto.
  - rewrite Z.ltb_irrefl. by intros [].
  - intros e He. apply Z.ltb_ge. specialize (H12 e (k, v) He). simpl in H12.
    apply Z.lt_le_incl, H12. constructor.
Qed.

Lemma bt_rfind_split (p : Z * V → bool) m1 m2 e :
  p e = true → (∀ x, x ∈ m2 → p x = false) → bt_rfind p (m1 ++ e :: m2) = Some e.
Proof.
  intros He H2. unfold bt_rfind.
  rewrite filter_app, filter_cons_True by (by rewrite He).
  rewrite (filter_all_false p m2) by done. by rewrite last_snoc.
Qed.

Lemma bt_rfind_Some (p : Z * V → bool) m e :
  bt_rfind p m = Some e → ∃ m1 m2, m = m1 ++ e :: m2 ∧ p e = true ∧ ∀ x, x ∈ m2 → p x = false.
Proof.
  unfold bt_rfind. induction m as [|x m IH] using rev_ind; [done|].
  rewrite filter_app. destruct (p x) eqn:Hx.
  - rewrite filter_cons_True, filter_nil, last_snoc by (by rewrite Hx). intros [= <-].
    exists m, []. split_and!; [done..|]. by intros ? ?%not_elem_of_nil.
  - rewrite filter_cons_False, filter_nil, app_nil_r by (rewrite Hx; by intros []).
    intros (m1 & m2 & -> & ? & H2)%IH. exists m1, (m2 ++ [x]).
    split; [by rewrite <- app_assoc|]. split; [done|].
    intros y [?|Hy]%elem_of_app; [eauto|]. by apply list_elem_of_singleton in Hy as ->.
Qed.

Lemma bt_rfind_None (p : Z * V → bool) m e : bt_rfind p m = None → e ∈ m → p e = false.
Proof.
  unfold bt_rfind. rewrite last_None. intros Hf He. destruct (p e) eqn:Hp; [|done].
  assert (e ∈ filter p m) as Hin by (by apply elem_of_filter_bool).
  rewrite Hf in Hin. by apply not_elem_of_nil in Hin.
Qed.

Lemma bt_split_off_at m1 m2 k v :
  bt_wf (m1 ++ (k, v) :: m2) → bt_split_off k (m1 ++ (k, v) :: m2) = (m1, (k, v) :: m2).
Proof.
  rewrite bt_wf_app, bt_wf_cons. intros (_ & (H2 & _) & H12). unfold bt_split_off.
  assert (H1 : ∀ e, e ∈ m1 → e.1 < k) by (intros e He; apply (H12 e (k, v) He); constructor).
  f_equal; rewrite filter_app.
  - rewrite filter_all_true, filter_all_false; [by rewrite app_nil_r|..].
    + intros e [->|Hin]%elem_of_cons; simpl; apply Z.ltb_ge; [lia|].
      destruct e. apply Z.lt_le_incl. eauto.
    + intros e He. by apply Z.ltb_lt, H1.
  - rewrite filter_all_false, filter_all_true; [done|..].
    + intros e [->|Hin]%elem_of_cons; simpl; apply Z.leb_le; [lia|].
      destruct e. apply Z.lt_le_incl. eauto.
    + intros e He. by apply Z.leb_gt, H1.
Qed.
End BTree.

(** ** Insertion *)

Lemma elem_of_bt_insert {V} (m : list (Z * V)) (k : Z) v e :
  bt_wf m → e ∈ bt_insert k v m ↔ e = (k, v) ∨ (e ∈ m ∧ e.1 ≠ k).
Proof.
  induction m as [|[k' v'] m IH]; intros Hm; simpl.
  - rewrite list_elem_of_singleton, elem_of_nil. tauto.
  - apply bt_wf_cons in Hm as [Hk Hm]. destruct (Z.ltb_spec k k'); [|destruct (Z.eqb_spec k k') as [<-|]].
    + rewrite !elem_of_cons. split; [|tauto].
      intros [->|[->|Hin]]; [by left|right; split; [by left|simpl; lia]|].
      right. split; [by right|]. destruct e as [k0 v0]. specialize (Hk _ _ Hin). simpl. lia.
    + rewrite !elem_of_cons. split.
      * intros [->|Hin]; [by left|]. right. split; [by right|].
        destruct e as [k0 v0]. specialize (Hk _ _ Hin). simpl. lia.
      * intros [->|[[->|Hin] Hne]]; [by left|done|by right].
    + rewrite !elem_of_cons, IH by done. split.
      * intros [->|[->|[? ?]]]; [right; split; [by left|simpl; lia]|by left|right; split; [by right|done]].
      * intros [->|[[->|?] ?]]; [by right; left|by left|by right; right].
Qed.

Lemma bt_insert_wf {V} (m : list (Z * V)) (k : Z) v : bt_wf m → bt_wf (bt_insert k v m).
Proof.
  induction m as [|[k' v'] m IH]; intros Hm; simpl; [unfold bt_wf; simpl; repeat constructor|].
  pose proof Hm as [Hk Hm']%bt_wf_cons. destruct (Z.ltb_spec k k'); [|destruct (Z.eqb_spec k k') as [<-|]].
  - apply bt_wf_cons. split; [|done].
    intros k0 v0 [[= -> ->]|Hin]%elem_of_cons; [done|]. specialize (Hk _ _ Hin). lia.
  - apply bt_wf_cons. split; [|done]. intros k0 v0 Hin. eauto.
  - apply bt_wf_cons. split; [|by apply IH].
    intros k0 v0 [[= -> ->]|[Hin _]]%elem_of_bt_insert; [lia|eauto|done].
Qed.
