(* ===== verification/Locality.v ===== *)
(** * Locality: location scopes and node locations

    Models crates/types/src/locality: [LocationScope] (location_scope.rs) and
    [NodeLocation] with its parser and printer (node_location.rs).  Strings are
    ASCII strings, so [str::trim] removes the ASCII white space. *)

From S2P Require Import Prelude.
From Stdlib Require Import Ascii.
From stdpp Require Import strings pretty.
Local Open Scope Z_scope.

(** ** Scopes *)

Inductive LocationScope := Node | Zone | Region | Root.

#[export] Instance LocationScope_eq_dec : EqDecision LocationScope.
Proof. solve_decision. Defined.

(** [scope as u8]; the derived order of the enum is the order of this number. *)
Definition scope_as_u8 (s : LocationScope) : Z :=
  match s with Node => 0 | Zone => 1 | Region => 2 | Root => 3 end.

Definition scope_from_u8 (v : Z) : option LocationScope :=
  if v =? 0 then Some Node
  else if v =? 1 then Some Zone
  else if v =? 2 then Some Region
  else if v =? 3 then Some Root
  else None.

Definition next_greater_scope (s : LocationScope) : option LocationScope :=
  scope_from_u8 (scope_as_u8 s + 1).

Definition next_smaller_scope (s : LocationScope) : option LocationScope :=
  match s with Node => None | _ => scope_from_u8 (scope_as_u8 s - 1) end.

Definition is_special (s : LocationScope) : bool :=
  match s with Root | Node => true | _ => false end.

(** The number of non-special scopes. *)
Definition num_scopes : nat := 2.

#[export] Instance LocationScope_countable : Countable LocationScope.
Proof.
  refine (inj_countable scope_as_u8 scope_from_u8 _). by intros [].
Defined.

(** ** Strings *)

Definition is_white_space (c : Ascii.ascii) : bool :=
  let n := Z.of_nat (Ascii.nat_of_ascii c) in (n =? 32) || ((9 <=? n) && (n <=? 13)).

Fixpoint trim_start (l : list Ascii.ascii) : list Ascii.ascii :=
  match l with
  | c :: l' => if is_white_space c then trim_start l' else l
  | [] => []
  end.

Definition str_trim (s : list Ascii.ascii) : list Ascii.ascii :=
  rev (trim_start (rev (trim_start s))).

(** [str::split(delimiter)] for a one-character delimiter; the result is never
    empty. *)
Fixpoint str_split (d : Ascii.ascii) (s : list Ascii.ascii) : list (list Ascii.ascii) :=
  match s with
  | [] => [[]]
  | c :: s' =>
      if decide (c = d) then [] :: str_split d s'
      else match str_split d s' with
           | t :: ts => (c :: t) :: ts
           | [] => [[c]]
           end
  end.

(** [Itertools::join] with a one-character separator. *)
Fixpoint str_join (d : Ascii.ascii) (ts : list (list Ascii.ascii)) : list Ascii.ascii :=
  match ts with
  | [] => []
  | [t] => t
  | t :: ts' => t ++ d :: str_join d ts'
  end.

Definition str_contains (c : Ascii.ascii) (s : list Ascii.ascii) : bool := bool_decide (c ∈ s).

Fixpoint starts_with (prefix s : list Ascii.ascii) : bool :=
  match prefix, s with
  | [], _ => true
  | p :: prefix', c :: s' => bool_decide (p = c) && starts_with prefix' s'
  | _ :: _, [] => false
  end.

Definition SCOPE_DELIMITER : Ascii.ascii := "."%char.
Definition NODE_DELIMITER : Ascii.ascii := ":"%char.

Definition ends_with_delimiter (s : list Ascii.ascii) : bool :=
  match last s with Some c => bool_decide (c = SCOPE_DELIMITER) | None => false end.

(** [PlainNodeId]'s [Display]: ["N<id>"]. *)
Definition node_id_to_string (id : Z) : list Ascii.ascii :=
  String.list_ascii_of_string ("N" +:+ pretty id).

(** ** Node locations *)

(** The labels of the non-special scopes from the greatest (region) to the
    smallest (zone), an array of [num_scopes] strings, and how many are set. *)
Record NodeLocation := mkNodeLocation {
  labels : list (list Ascii.ascii);
  num_defined_scopes : nat;
}.

#[export] Instance NodeLocation_eq_dec : EqDecision NodeLocation.
Proof. solve_decision. Defined.

Definition NodeLocation_new : NodeLocation := mkNodeLocation (replicate num_scopes []) 0.

Definition location_is_empty (l : NodeLocation) : bool := (num_defined_scopes l =? 0)%nat.

(** Panics on a special scope. *)
Definition scope_to_index (s : LocationScope) : option nat :=
  if is_special s then None else Some (num_scopes - Z.to_nat (scope_as_u8 s))%nat.

Definition effective_scopes (s : LocationScope) : option nat :=
  match s with
  | Root => Some 0%nat
  | Node => Some num_scopes
  | s => let! i := scope_to_index s in Some (i + 1)%nat
  end.

Definition domain_string (l : NodeLocation) (s : LocationScope) (node_id : option Z)
    : option (list Ascii.ascii) :=
  match location_is_empty l, node_id with
  | true, None => Some []
  | _, _ =>
      let! n := effective_scopes s in
      let result := str_join SCOPE_DELIMITER (take n (take (num_defined_scopes l) (labels l))) in
      match s, node_id with
      | Node, Some id => Some (result ++ NODE_DELIMITER :: node_id_to_string id)
      | _, _ => Some result
      end
  end.

Definition label_at (l : NodeLocation) (s : LocationScope) : option (list Ascii.ascii) :=
  if is_special s then Some []
  else let! i := scope_to_index s in labels l !! i.

Definition is_scope_defined (l : NodeLocation) (s : LocationScope) : bool :=
  match scope_to_index s with
  | Some i => (i <? num_defined_scopes l)%nat
  | None => false
  end.

Definition smallest_defined_scope (l : NodeLocation) : option LocationScope :=
  if (num_defined_scopes l =? 0)%nat then Some Root
  else scope_from_u8 (as_u8 (scope_as_u8 Root - Z.of_nat (num_defined_scopes l))).

Definition shares_domain_with (l other : NodeLocation) (s : LocationScope) : option bool :=
  match s with
  | Root => Some true
  | Node => Some false
  | _ =>
      let! n := effective_scopes s in
      Some (bool_decide (take n (labels l) = take n (labels other)))
  end.

(** [Display]. *)
Definition location_to_string (l : NodeLocation) : option (list Ascii.ascii) :=
  domain_string l Node None.

Definition matches_prefix (l : NodeLocation) (prefix : list Ascii.ascii) : option bool :=
  let prefix := str_trim prefix in
  if bool_decide (prefix = []) || bool_decide (prefix = [SCOPE_DELIMITER]) then Some true
  else
    let! d := domain_string l Node None in
    let domain_str := d ++ [SCOPE_DELIMITER] in
    if ends_with_delimiter prefix then Some (starts_with prefix domain_str)
    else Some (starts_with (prefix ++ [SCOPE_DELIMITER]) domain_str).

(** ** Parsing *)

Inductive LocationError :=
| IllegalCharacters
| WrongNumberOfScopes
| NonEmptyAfterEmpty.

Definition validate_token (token : list Ascii.ascii) : res LocationError (list Ascii.ascii) :=
  if str_contains " "%char token || str_contains ":"%char token
  then Err IllegalCharacters else Ok token.

Fixpoint validate_tokens (ts : list (list Ascii.ascii)) : res LocationError (list (list Ascii.ascii)) :=
  match ts with
  | [] => Ok []
  | t :: ts =>
      let? t := validate_token t in
      let? ts := validate_tokens ts in
      Ok (t :: ts)
  end.

(** The [while n_tokens < num_scopes] loop: fills the labels until the tokens
    run out or an empty one is consumed; returns the labels set and the tokens
    not consumed. *)
Fixpoint fill_labels (room : nat) (tokens : list (list Ascii.ascii))
    : list (list Ascii.ascii) * list (list Ascii.ascii) :=
  match room, tokens with
  | O, _ => ([], tokens)
  | S _, [] => ([], [])
  | S _, [] :: tokens => ([], tokens)
  | S room, token :: tokens =>
      let '(ls, rest) := fill_labels room tokens in (token :: ls, rest)
  end.

Definition location_from_str (s : list Ascii.ascii) : res LocationError NodeLocation :=
  let s := str_trim s in
  if bool_decide (s = []) then Ok NodeLocation_new
  else
    let? tokens := validate_tokens (str_split SCOPE_DELIMITER s) in
    if (num_scopes <? length tokens)%nat then Err WrongNumberOfScopes
    else
      let '(ls, rest) := fill_labels num_scopes tokens in
      if existsb (λ t, negb (bool_decide (t = []))) rest then Err NonEmptyAfterEmpty
      else Ok (mkNodeLocation (ls ++ replicate (num_scopes - length ls) []) (length ls)).

(** ** Lemmas on strings *)

Lemma trim_start_id l : (∀ c, c ∈ l → is_white_space c = false) → trim_start l = l.
Proof. destruct l as [|c l]; intros Hc; simpl; [done|]. by rewrite (Hc c) by constructor. Qed.

Lemma str_trim_id l : (∀ c, c ∈ l → is_white_space c = false) → str_trim l = l.
Proof.
  intros Hc. unfold str_trim. rewrite (trim_start_id l) by done.
  rewrite trim_start_id; [apply rev_involutive|].
  intros c Hin%list_elem_of_In%in_rev%list_elem_of_In. by apply Hc.
Qed.

Lemma str_split_single d t : d ∉ t → str_split d t = [t].
Proof.
  induction t as [|c t IH]; intros Hd; simpl; [done|].
  apply not_elem_of_cons in Hd as [? Hd]. rewrite decide_False by done. by rewrite IH.
Qed.

Lemma str_split_app d t s : d ∉ t → str_split d (t ++ d :: s) = t :: str_split d s.
Proof.
  induction t as [|c t IH]; intros Hd; simpl; [by rewrite decide_True|].
  apply not_elem_of_cons in Hd as [? Hd]. rewrite decide_False by done. by rewrite IH.
Qed.

(** The tokens of a split do not contain the delimiter, and their characters
    come from the string. *)
Lemma str_split_tokens d s t : t ∈ str_split d s → (d ∉ t) ∧ ∀ c, c ∈ t → c ∈ s.
Proof.
  revert t. induction s as [|c s IH]; simpl; intros t.
  - intros ->%list_elem_of_singleton. split; [by intros ?%not_elem_of_nil|done].
  - case_decide as Hd.
    + intros [->|Hin]%elem_of_cons.
      * split; [by intros ?%not_elem_of_nil|by intros ? ?%not_elem_of_nil].
      * destruct (IH _ Hin) as [? Hs]. split; [done|]. intros. constructor. auto.
    + destruct (str_split d s) as [|t0 ts].
      * intros ->%list_elem_of_singleton. split; [intros ?%list_elem_of_singleton; congruence|].
        intros c' ->%list_elem_of_singleton. constructor.
      * intros [->|Hin]%elem_of_cons.
        -- destruct (IH t0) as [Ht0 Hs]; [constructor|]. split.
           ++ intros [->|?]%elem_of_cons; done.
           ++ intros c' [->|?]%elem_of_cons; [constructor|]. constructor. auto.
        -- destruct (IH t) as [? Hs]; [by constructor|]. split; [done|]. constructor. auto.
Qed.

Lemma validate_tokens_Ok ts ts' :
  validate_tokens ts = Ok ts' ↔ ts' = ts ∧ ∀ t, t ∈ ts → (" "%char ∉ t) ∧ ":"%char ∉ t.
Proof.
  revert ts'. induction ts as [|t ts IH]; intros ts'; simpl.
  { split; [intros [= <-]; split; [done|by intros ? ?%not_elem_of_nil]|by intros [-> _]]. }
  unfold validate_token, str_contains.
  destruct (bool_decide (" "%char ∈ t)) eqn:E1, (bool_decide (":"%char ∈ t)) eqn:E2; simpl;
    try apply bool_decide_eq_true_1 in E1; try apply bool_decide_eq_true_1 in E2;
    try apply bool_decide_eq_false_1 in E1; try apply bool_decide_eq_false_1 in E2.
  1-3: split; [done|]; intros [_ Hall]; destruct (Hall t); [constructor|done].
  destruct (validate_tokens ts) as [ts0| |] eqn:Hv; simpl.
  - destruct (proj1 (IH ts0) eq_refl) as [-> Hts]. split.
    + intros [= <-]. split; [done|]. intros t' [->|?]%elem_of_cons; [done|auto].
    + by intros [-> _].
  - split; [done|]. intros [-> Hall]. assert (Err e = Ok ts) as [=]. apply IH.
    split; [done|]. intros t' ?. apply Hall. by constructor.
  - split; [done|]. intros [-> Hall]. assert (@Panic LocationError _ = Ok ts) as [=]. apply IH.
    split; [done|]. intros t' ?. apply Hall. by constructor.
Qed.

(** ** Well-formed locations *)

(** A label that is set: not empty, no white space and no delimiter. *)
Definition label_ok (t : list Ascii.ascii) : Prop :=
  t ≠ [] ∧ ∀ c, c ∈ t → is_white_space c = false ∧ c ≠ SCOPE_DELIMITER ∧ c ≠ NODE_DELIMITER.

(** The set labels are a prefix, the rest of the array is empty. *)
Definition location_wf (l : NodeLocation) : Prop :=
  ∃ ls, labels l = ls ++ replicate (num_scopes - length ls) []
    ∧ num_defined_scopes l = length ls ∧ (length ls ≤ num_scopes)%nat ∧ Forall label_ok ls.

Lemma label_ok_not_delimiter t : label_ok t → SCOPE_DELIMITER ∉ t.
Proof. intros [_ Ht] Hin. by destruct (Ht _ Hin) as (_ & ? & _). Qed.

Lemma label_ok_validates t : label_ok t → (" "%char ∉ t) ∧ ":"%char ∉ t.
Proof.
  intros [_ Ht]. split; intros Hin; destruct (Ht _ Hin) as (Hw & _ & Hn); [|done].
  vm_compute in Hw. done.
Qed.

Lemma label_ok_cons t : label_ok t → ∃ c t', t = c :: t'.
Proof. destruct t; [by intros [? _]|eauto]. Qed.

Lemma location_wf_mk ls :
  (length ls ≤ num_scopes)%nat → Forall label_ok ls →
  location_wf (mkNodeLocation (ls ++ replicate (num_scopes - length ls) []) (length ls)).
Proof. intros. by exists ls. Qed.

(** A successful parse of a text without white space. *)
Lemma location_from_str_wf s l :
  location_from_str s = Ok l → (∀ c, c ∈ str_trim s → is_white_space c = false) → location_wf l.
Proof.
  unfold location_from_str. generalize (str_trim s). clear s. intros s Hs Hw.
  destruct (bool_decide (s = [])); [simplify_eq; apply (location_wf_mk []); [simpl; lia|done]|].
  inv_bind. apply validate_tokens_Ok in Hok as [-> Hv].
  assert (Htok : ∀ t, t ∈ str_split SCOPE_DELIMITER s → t ≠ [] → label_ok t).
  { intros t Hin Hne. destruct (str_split_tokens _ _ _ Hin) as [Hd Hc]. split; [done|].
    intros c Hct. split; [auto|]. destruct (Hv t Hin) as [_ Hnd].
    split; intros ->; done. }
  unfold num_scopes in *. destruct (str_split SCOPE_DELIMITER s) as [|t1 [|t2 [|]]]; simpl in Hs; try done.
  - simplify_eq. apply (location_wf_mk []); [simpl; lia|done].
  - assert (H1 := Htok t1 ltac:(constructor)). destruct t1 as [|c t1]; simpl in Hs; simplify_eq.
    + apply (location_wf_mk []); [simpl; lia|done].
    + apply (location_wf_mk [c :: t1]); [unfold num_scopes; simpl; lia|]. repeat constructor; by apply H1.
  - assert (H1 := Htok t1 ltac:(constructor)). assert (H2 := Htok t2 ltac:(repeat constructor)).
    destruct t1 as [|c1 t1], t2 as [|c2 t2]; simpl in Hs; simplify_eq.
    + apply (location_wf_mk []); [simpl; lia|done].
    + apply (location_wf_mk [c1 :: t1]); [unfold num_scopes; simpl; lia|]. repeat constructor; by apply H1.
    + apply (location_wf_mk [c1 :: t1; c2 :: t2]); [unfold num_scopes; simpl; lia|].
      constructor; [by apply H1|]. constructor; [by apply H2|done].
Qed.

(** ** Properties *)

(** Printing a well-formed node location and parsing the text gives the
    location back, and parsing any text without inner white space yields a
    well-formed location when it succeeds. *)
Theorem location_print_parse_roundtrip l s l' :
  location_wf l →
  (∃ text, location_to_string l = Some text ∧ location_from_str text = Ok l)
  ∧ (location_from_str s = Ok l' → (∀ c, c ∈ str_trim s → is_white_space c = false) → location_wf l').
Proof.
  intros (ls & Hl & Hn & Hlen & Hok). split.
  - destruct l as [lb n]. simpl in *. subst lb n. unfold num_scopes in *.
    destruct ls as [|t1 [|t2 [|]]]; simpl in Hlen; try lia.
    + exists []. by split.
    + inversion_clear Hok as [|? ? H1 _]. exists t1. split; [done|]. unfold location_from_str.
      rewrite str_trim_id by (intros c Hc; by apply H1). rewrite bool_decide_eq_false_2 by apply H1.
      rewrite str_split_single by (by apply label_ok_not_delimiter).
      rewrite (proj2 (validate_tokens_Ok [t1] [t1])).
      2: { split; [done|]. intros t ->%list_elem_of_singleton. by apply label_ok_validates. }
      simpl. destruct (label_ok_cons t1 H1) as (c & t' & ->). done.
    + inversion_clear Hok as [|? ? H1 Hok2]. inversion_clear Hok2 as [|? ? H2 _].
      exists (t1 ++ SCOPE_DELIMITER :: t2). split; [done|]. unfold location_from_str.
      rewrite str_trim_id.
      2: { intros c [?|[->|?]%elem_of_cons]%elem_of_app; [by apply H1|done|by apply H2]. }
      rewrite bool_decide_eq_false_2 by (by destruct t1).
      rewrite str_split_app, str_split_single by (by apply label_ok_not_delimiter).
      rewrite (proj2 (validate_tokens_Ok [t1; t2] [t1; t2])).
      2: { split; [done|]. intros t [->|Ht]%elem_of_cons; [|apply list_elem_of_singleton in Ht as ->]; by apply label_ok_validates. }
      simpl. destruct (label_ok_cons t1 H1) as (c & t' & ->).
      destruct (label_ok_cons t2 H2) as (c2 & t2' & ->). done.
  - apply location_from_str_wf.
Qed.

Lemma location_print_parse_roundtrip_witness :
  let l := mkNodeLocation [["a"%char]; ["b"%char]] 2 in
  ∃ text, location_to_string l = Some text ∧ location_from_str text = Ok l.
Proof.
  intros l. apply (location_print_parse_roundtrip l [] l).
  exists [["a"%char]; ["b"%char]]. split; [reflexivity|]. split; [reflexivity|].
  split; [unfold num_scopes; simpl; lia|].
  repeat constructor; try discriminate.
  all: apply list_elem_of_singleton in H as ->; try discriminate; reflexivity.
Defined.
