(* ===== verification/Replication.v ===== *)
(** * Replication: the replication property of a log

    Models [ReplicationProperty] (crates/types/src/replication/
    replication_property.rs): how many copies are needed at each location
    scope.  The [BTreeMap<LocationScope, u8>] is a [BTreeMap] keyed by the
    scope's number.  Parsing from text goes through a regular-expression
    library and is not modelled. *)

From S2P Require Import Prelude BTreeMap Locality.
Local Open Scope Z_scope.

(** A map from scope number to replication factor, in increasing scope order. *)
Record ReplicationProperty := mkRP { rp_map : list (Z * Z) }.

#[export] Instance ReplicationProperty_eq_dec : EqDecision ReplicationProperty.
Proof. solve_decision. Defined.

Definition rp_get (rp : ReplicationProperty) (s : LocationScope) : option Z :=
  snd <$> head (filter (λ e, e.1 =? scope_as_u8 s) (rp_map rp)).

(** [replication_factor] is a [NonZeroU8]. *)
Definition ReplicationProperty_new (replication_factor : Z) : ReplicationProperty :=
  mkRP (bt_insert (scope_as_u8 Node) replication_factor []).

Definition with_scope (s : LocationScope) (replication_factor : Z) : option ReplicationProperty :=
  if scope_as_u8 s <? scope_as_u8 Root
  then Some (mkRP (bt_insert (scope_as_u8 s) replication_factor [])) else None.

(** The loop that enumerates scopes from the greatest to the smallest:
    [while let Some(s) = scope.next_smaller_scope()].  A scope has at most
    three smaller ones. *)
Fixpoint smaller_scopes (fuel : nat) (s : LocationScope) : list LocationScope :=
  match fuel, next_smaller_scope s with
  | S fuel, Some s' => s' :: smaller_scopes fuel s'
  | _, _ => []
  end.

Fixpoint distinct_loop (rp : ReplicationProperty) (ss : list LocationScope) (prev_factor : Z)
    (acc : list (LocationScope * Z)) : list (LocationScope * Z) :=
  match ss with
  | [] => acc
  | s :: ss =>
      match rp_get rp s with
      | None => distinct_loop rp ss prev_factor acc
      | Some factor =>
          if factor =? prev_factor then distinct_loop rp ss prev_factor acc
          else distinct_loop rp ss factor (acc ++ [(s, factor)])
      end
  end.

Definition distinct_replication_factors (rp : ReplicationProperty) : list (LocationScope * Z) :=
  distinct_loop rp (smaller_scopes 4 Root) 0 [].

(** The factor of scope [s] conflicts with the entry [e]: a smaller scope with
    fewer copies, or a greater one with more. *)
Definition conflicts (s : LocationScope) (factor : Z) (e : Z * Z) : bool :=
  ((e.1 <? scope_as_u8 s) && (e.2 <? factor)) || ((scope_as_u8 s <? e.1) && (factor <? e.2)).

Inductive ReplicationPropertyError := ConflictsWith (scope factor : Z).

(** [set_scope]; the error names the first conflicting entry, and the property
    is unchanged then. *)
Definition set_scope (rp : ReplicationProperty) (s : LocationScope) (factor : Z)
    : res ReplicationPropertyError ReplicationProperty :=
  if scope_as_u8 s <? scope_as_u8 Root then
    match find (conflicts s factor) (rp_map rp) with
    | Some (s', r) => Err (ConflictsWith s' r)
    | None => Ok (mkRP (bt_insert (scope_as_u8 s) factor (rp_map rp)))
    end
  else Panic.

(** Panics on an empty map. *)
Definition num_copies (rp : ReplicationProperty) : option Z :=
  snd <$> bt_first_key_value (rp_map rp).

Definition copies_at_scope (rp : ReplicationProperty) (s : LocationScope) : option (option Z) :=
  match s with
  | Node => let! n := num_copies rp in Some (Some n)
  | s => Some (rp_get rp s)
  end.

Definition greatest_defined_scope (rp : ReplicationProperty) : option LocationScope :=
  let! e := bt_last_key_value (rp_map rp) in scope_from_u8 e.1.

(** ** Invariant

    Factors do not grow with the scope, every factor is at least one, and only
    [Node], [Zone] and [Region] have one. *)

Definition rp_wf (rp : ReplicationProperty) : Prop :=
  bt_wf (rp_map rp) ∧ rp_map rp ≠ []
  ∧ (∀ e, e ∈ rp_map rp → 0 ≤ e.1 < 3 ∧ 1 ≤ e.2 ≤ u8_max)
  ∧ (∀ e e', e ∈ rp_map rp → e' ∈ rp_map rp → e.1 < e'.1 → e'.2 ≤ e.2).

(** The three constructors, applied any number of times. *)
Inductive rp_built : ReplicationProperty → Prop :=
| built_new f : 1 ≤ f ≤ u8_max → rp_built (ReplicationProperty_new f)
| built_with_scope s f rp : 1 ≤ f ≤ u8_max → with_scope s f = Some rp → rp_built rp
| built_set_scope rp s f rp' :
    rp_built rp → 1 ≤ f ≤ u8_max → set_scope rp s f = Ok rp' → rp_built rp'.

Lemma scope_as_u8_range s : 0 ≤ scope_as_u8 s ≤ 3.
Proof. destruct s; simpl; lia. Qed.

Lemma bt_insert_nonempty (k v : Z) (m : list (Z * Z)) : bt_insert k v m ≠ [].
Proof. destruct m as [|[k' v'] m]; simpl; [done|]. by case_bool. Qed.

(** [set_scope] succeeds exactly when the updated map satisfies the order of
    factors. *)
Lemma set_scope_Ok rp s f rp' :
  set_scope rp s f = Ok rp' →
  scope_as_u8 s < 3 ∧ rp_map rp' = bt_insert (scope_as_u8 s) f (rp_map rp)
  ∧ ∀ e, e ∈ rp_map rp → (e.1 < scope_as_u8 s → f ≤ e.2) ∧ (scope_as_u8 s < e.1 → e.2 ≤ f).
Proof.
  unfold set_scope. simpl. destruct (Z.ltb_spec (scope_as_u8 s) 3); [|done].
  destruct (find _ _) as [[s' r]|] eqn:Hf; intros [= <-]. split; [done|]. split; [done|].
  intros e He%list_elem_of_In. pose proof (find_none _ _ Hf _ He) as Hc. unfold conflicts in Hc. lia.
Qed.

Lemma set_scope_Err rp s f e :
  set_scope rp s f = Err e →
  ∃ x, x ∈ rp_map rp
    ∧ ((x.1 < scope_as_u8 s ∧ x.2 < f) ∨ (scope_as_u8 s < x.1 ∧ f < x.2)).
Proof.
  unfold set_scope. destruct (_ <? _); [|done].
  destruct (find _ _) as [[s' r]|] eqn:Hf; [|done]. intros _.
  apply find_some in Hf as [Hin%list_elem_of_In Hc]. exists (s', r). split; [done|].
  unfold conflicts in Hc. simpl in *. lia.
Qed.

Lemma rp_singleton_wf k f : 0 ≤ k < 3 → 1 ≤ f ≤ u8_max → rp_wf (mkRP [(k, f)]).
Proof.
  intros Hk Hf. repeat split; simpl; try done; try (apply list_elem_of_singleton in H as ->; simpl; lia).
  - unfold bt_wf. simpl. repeat constructor.
  - intros e e' ->%list_elem_of_singleton ->%list_elem_of_singleton. simpl. lia.
Qed.

Lemma set_scope_wf rp s f rp' :
  rp_wf rp → 1 ≤ f ≤ u8_max → set_scope rp s f = Ok rp' → rp_wf rp'.
Proof.
  intros (Hw & Hne & Hr & Hm) Hf (Hs & Hmap & Hc)%set_scope_Ok.
  pose proof (scope_as_u8_range s). unfold rp_wf. rewrite Hmap.
  split_and!; [by apply bt_insert_wf|apply bt_insert_nonempty|..].
  - intros e [->|[Hin _]]%elem_of_bt_insert; [simpl; lia|by apply Hr|done].
  - intros e e' [->|[Hin ?]]%elem_of_bt_insert [->|[Hin' ?]]%elem_of_bt_insert Hlt; simpl in *; try done; try lia.
    + by apply Hc.
    + by apply Hc.
    + by apply Hm.
Qed.

Lemma rp_built_wf rp : rp_built rp → rp_wf rp.
Proof.
  induction 1 as [f Hf|s f rp Hf Hs|rp s f rp' _ IH Hf Hs].
  - by apply rp_singleton_wf.
  - unfold with_scope in Hs. pose proof (scope_as_u8_range s). case_bool; simplify_eq.
    apply rp_singleton_wf; simpl in *; [lia|done].
  - by eapply set_scope_wf.
Qed.

Lemma num_copies_max rp n :
  rp_wf rp → num_copies rp = Some n →
  (∃ e, e ∈ rp_map rp ∧ e.2 = n) ∧ ∀ e, e ∈ rp_map rp → e.2 ≤ n.
Proof.
  intros (Hw & Hne & Hr & Hm). unfold num_copies, bt_first_key_value.
  destruct (rp_map rp) as [|[k v] m] eqn:E; [done|]. simpl. intros [= <-]. split.
  - exists (k, v). split; [constructor|done].
  - intros e [->|Hin]%elem_of_cons; [done|]. apply (Hm (k, v)); [constructor|by constructor|].
    apply bt_wf_cons in Hw as [Hk _]. destruct e. eauto.
Qed.

(** ** Properties *)

(** A replication property built with [new], [with_scope] and [set_scope]
    never asks for more copies at a greater scope than at a smaller one, has
    factors in [1..255] at the non-root scopes only, and [num_copies] is its
    largest factor.  [set_scope] refuses exactly the factors that would break
    this order. *)
Theorem replication_property_monotone rp :
  rp_built rp →
  rp_wf rp
  ∧ (∃ n, num_copies rp = Some n ∧ copies_at_scope rp Node = Some (Some n)
          ∧ (∃ e, e ∈ rp_map rp ∧ e.2 = n) ∧ ∀ e, e ∈ rp_map rp → e.2 ≤ n)
  ∧ ∀ s f, s ≠ Root → 1 ≤ f ≤ u8_max →
      is_ok (set_scope rp s f) = true ↔
      ∀ e, e ∈ rp_map rp → (e.1 < scope_as_u8 s → f ≤ e.2) ∧ (scope_as_u8 s < e.1 → e.2 ≤ f).
Proof.
  intros Hb. pose proof (rp_built_wf rp Hb) as Hw. split; [done|]. split.
  - destruct (num_copies rp) as [n|] eqn:Hn.
    + exists n. simpl. rewrite Hn. split; [done|]. split; [done|]. by apply num_copies_max.
    + unfold num_copies, bt_first_key_value in Hn. destruct Hw as (_ & Hne & _).
      by destruct (rp_map rp).
  - intros s f Hs Hf. destruct (set_scope rp s f) as [rp'|e|] eqn:E; simpl.
    + apply set_scope_Ok in E as (_ & _ & ?). done.
    + apply set_scope_Err in E as (x & Hin & Hx). split; [done|].
      intros Hall. destruct (Hall x Hin). lia.
    + unfold set_scope in E. destruct s; simpl in E; try done; destruct (find _ _) as [[]|]; done.
Qed.

Lemma replication_property_monotone_witness :
  ∃ rp, with_scope Zone 2 = Some rp ∧ rp_wf rp.
Proof.
  exists (mkRP [(1, 2)]). split; [reflexivity|].
  apply (replication_property_monotone (mkRP [(1, 2)])).
  apply (built_with_scope Zone 2); [lia|reflexivity].
Defined.
