(* ===== verification/LogChain.v ===== *)
(** * LogChain: the segment chain of a log and the loglet lookup index

    Models crates/types/src/logs/metadata.rs: the loglet kinds and
    configurations, [Chain] with its segment lookups, [LookupIndex], and the
    [Logs] metadata with its conversion from the stored form [LogsSerde].

    The JSON text of the loglet parameters and of the seal metadata is produced
    and read by the serde_json package; [JsonCodec] is the interface to it. *)

From stdpp Require Import strings.
From S2P Require Import Prelude Clock LogTypes BTreeMap Replication.
Local Open Scope Z_scope.

(** ** Loglet kinds and parameters *)

Inductive ProviderKind := PkLocal | PkInMemory | PkReplicated.
Inductive InternalKind := IkLocal | IkInMemory | IkReplicated | IkSealed.

#[export] Instance ProviderKind_eq_dec : EqDecision ProviderKind.
Proof. solve_decision. Defined.
#[export] Instance InternalKind_eq_dec : EqDecision InternalKind.
Proof. solve_decision. Defined.

Definition is_seal_marker (k : InternalKind) : bool :=
  match k with IkSealed => true | _ => false end.

Definition internal_of_provider (k : ProviderKind) : InternalKind :=
  match k with
  | PkLocal => IkLocal
  | PkInMemory => IkInMemory
  | PkReplicated => IkReplicated
  end.

Definition provider_of_internal (k : InternalKind) : option ProviderKind :=
  match k with
  | IkLocal => Some PkLocal
  | IkInMemory => Some PkInMemory
  | IkReplicated => Some PkReplicated
  | IkSealed => None
  end.

(** [PartialEq<InternalKind> for ProviderKind] and its mirror image. *)
Definition kind_eq (p : ProviderKind) (k : InternalKind) : bool :=
  match p, k with
  | PkLocal, IkLocal | PkInMemory, IkInMemory | PkReplicated, IkReplicated => true
  | _, _ => false
  end.

Definition SegmentIndex_OLDEST : Z := 0.
(** Panics when there is no next index. *)
Definition segment_index_next (i : Z) : option Z := checked_add u32_max i 1.

Record ReplicatedLogletParams := mkRLP {
  rlp_loglet_id : Z;
  rlp_sequencer : Z * Z;
  rlp_replication : ReplicationProperty;
  rlp_nodeset : list Z;
}.

Record SealMetadata := mkSeal {
  sm_permanent_seal : bool;
  sm_sealed_at : Z;
  sm_context : list (string * string);
  sm_tail_ts : option UniqueTimestamp;
}.

(** The serde_json functions the code calls, [None] being a serde error. *)
Class JsonCodec := {
  params_from_slice : string → option ReplicatedLogletParams;
  seal_from_slice : string → option SealMetadata;
  seal_to_string : SealMetadata → option string;
}.

(** Reading back what was written: the documented behaviour of the derived
    [Serialize] and [Deserialize] of [SealMetadata]. *)
Class JsonCodecLaws (J : JsonCodec) := {
  seal_roundtrip m s : seal_to_string m = Some s → seal_from_slice s = Some m;
}.

Record LogletConfig := mkLC {
  lc_kind : InternalKind;
  lc_params : string;
  lc_index : Z;
  lc_created_at : option UniqueTimestamp;
}.

#[export] Instance LogletConfig_eq_dec : EqDecision LogletConfig.
Proof. solve_decision. Defined.

Definition LogletConfig_new (index : Z) (kind : ProviderKind) (params : string) : LogletConfig :=
  mkLC (internal_of_provider kind) params index None.

Definition LogletConfig_new_sealed `{JsonCodec} (index : Z) (metadata : SealMetadata)
  : option LogletConfig :=
  let! params := seal_to_string metadata in
  Some (mkLC IkSealed params index None).

(** ** Chains *)

Abbreviation Chain := (list (Z * LogletConfig)).

Record Segment := mkSegment {
  base_lsn : Z;
  tail_lsn : option Z;
  seg_config : LogletConfig;
}.

Inductive MaybeSegment :=
| SegmentFound (s : Segment)
| SegmentTrim (next_base_lsn : Z).

Definition Chain_with_base_lsn (base : Z) (kind : ProviderKind) (params : string) : Chain :=
  bt_insert base (LogletConfig_new SegmentIndex_OLDEST kind params) [].

Definition Chain_new (kind : ProviderKind) (params : string) : Chain :=
  Chain_with_base_lsn Lsn_OLDEST kind params.

Definition sealed_tail (c : Chain) : option Z :=
  match bt_last_key_value c with
  | Some (lsn, config) => if is_seal_marker (lc_kind config) then Some lsn else None
  | None => None
  end.

Definition chain_is_sealed (c : Chain) : bool := bool_decide (is_Some (sealed_tail c)).

(** The segment of an entry: it ends where the next one begins. *)
Definition segment_at (c : Chain) (e : Z * LogletConfig) : Segment :=
  mkSegment e.1 (fst <$> bt_next_after e.1 c) e.2.

Definition non_special_tail (c : Chain) : option Segment :=
  let! e := bt_rfind (λ e, negb (is_seal_marker (lc_kind e.2))) c in
  Some (segment_at c e).

(** The functions below panic on an empty chain. *)
Definition chain_tail (c : Chain) : option Segment :=
  (λ e, mkSegment e.1 None e.2) <$> bt_last_key_value c.

Definition tail_index (c : Chain) : option Z :=
  (λ e, lc_index e.2) <$> bt_last_key_value c.

Definition chain_head (c : Chain) : option Segment :=
  match c with
  | [] => None
  | e :: rest => Some (mkSegment e.1 (fst <$> bt_first_key_value rest) e.2)
  end.

Definition num_segments (c : Chain) : nat := length c.

Definition find_segment_by_index (c : Chain) (index : Z) (provider : ProviderKind)
  : option Segment :=
  let! e := bt_rfind (λ e, (lc_index e.2 =? index) && kind_eq provider (lc_kind e.2)) c in
  Some (segment_at c e).

Definition find_segment_for_lsn (c : Chain) (lsn : Z) : option MaybeSegment :=
  let lsn := Z.max lsn Lsn_OLDEST in
  match bt_rfind (λ e, e.1 <=? lsn) c with
  | None => (λ e, SegmentTrim e.1) <$> bt_first_key_value c
  | Some e => Some (SegmentFound (segment_at c e))
  end.

(** The iterator looks one entry ahead for the tail of the current segment. *)
Fixpoint chain_iter (c : Chain) : list Segment :=
  match c with
  | [] => []
  | e :: rest => mkSegment e.1 (fst <$> head rest) e.2 :: chain_iter rest
  end.

(** ** Lookup index *)

Record LogletRef := mkRef {
  ref_params : ReplicatedLogletParams;
  references : list (Z * Z);
}.

Abbreviation LookupIndex := (gmap Z LogletRef).

Definition add_replicated_loglet (idx : LookupIndex) (log_id segment_index : Z)
    (params : ReplicatedLogletParams) : LookupIndex :=
  let r := default (mkRef params []) (idx !! rlp_loglet_id params) in
  <[rlp_loglet_id params := mkRef (ref_params r) (references r ++ [(log_id, segment_index)])]> idx.

Definition rm_replicated_loglet_reference (idx : LookupIndex)
    (log_id segment_index loglet_id : Z) : LookupIndex :=
  match idx !! loglet_id with
  | None => idx
  | Some r =>
      let refs := filter (λ x, bool_decide (x ≠ (log_id, segment_index))) (references r) in
      match refs with
      | [] => delete loglet_id idx
      | _ => <[loglet_id := mkRef (ref_params r) refs]> idx
      end
  end.

Definition get_replicated_loglet (idx : LookupIndex) (loglet_id : Z) : option LogletRef :=
  idx !! loglet_id.

(** ** Logs configuration *)

Definition NodeSetSize_MAX : Z := 128.

Definition NodeSetSize_try_from (value : Z) : option Z :=
  if value >? NodeSetSize_MAX then None else Some (as_u16 value).

Record ReplicatedLogletConfig := mkRLC {
  replication_property : ReplicationProperty;
  target_nodeset_size : Z;
}.

Inductive ProviderConfiguration :=
| PcInMemory
| PcLocal
| PcReplicated (config : ReplicatedLogletConfig).

#[export] Instance ReplicatedLogletConfig_eq_dec : EqDecision ReplicatedLogletConfig.
Proof. solve_decision. Defined.
#[export] Instance ProviderConfiguration_eq_dec : EqDecision ProviderConfiguration.
Proof. solve_decision. Defined.

Definition pc_kind (p : ProviderConfiguration) : ProviderKind :=
  match p with
  | PcInMemory => PkInMemory
  | PcLocal => PkLocal
  | PcReplicated _ => PkReplicated
  end.

Definition pc_from (kind : ProviderKind) (rp : ReplicationProperty) (size : Z)
  : ProviderConfiguration :=
  match kind with
  | PkLocal => PcLocal
  | PkInMemory => PcInMemory
  | PkReplicated => PcReplicated (mkRLC rp size)
  end.

Definition pc_default : ProviderConfiguration :=
  PcReplicated (mkRLC (ReplicationProperty_new 1) 1).

(** ** Logs metadata *)

Abbreviation LogsConfiguration := ProviderConfiguration.

Record Logs := mkLogs {
  logs_version : Z;
  logs_map : gmap Z Chain;
  lookup_index : LookupIndex;
  logs_config : LogsConfiguration;
  modified_at : option UniqueTimestamp;
}.

Definition Version_INVALID : Z := 0.
Definition Version_MIN : Z := 1.
Definition version_next (v : Z) : Z := as_u32 (v + 1).

Definition Logs_default : Logs := mkLogs Version_INVALID ∅ ∅ pc_default None.
Definition with_logs_configuration (c : LogsConfiguration) : Logs :=
  mkLogs Version_MIN ∅ ∅ c None.

Definition logs_chain (l : Logs) (log_id : Z) : option Chain := logs_map l !! log_id.

(** The stored form has no index and may have no configuration. *)
Record LogsSerde := mkSerde {
  serde_version : Z;
  serde_logs : list (Z * Chain);
  serde_config : option LogsConfiguration;
  serde_modified_at : option UniqueTimestamp;
}.

Definition logs_into_serde (l : Logs) : LogsSerde :=
  mkSerde (logs_version l) (map_to_list (logs_map l)) (Some (logs_config l)) (modified_at l).

Section Serde.
Context `{JsonCodec}.

(** The configuration of deployments that predate the stored one. *)
Definition legacy_config : LogsConfiguration :=
  PcReplicated (mkRLC (ReplicationProperty_new 2) 0).

(** Adds the replicated loglets of a chain to the index; the [bool] is whether
    there was one. *)
Fixpoint index_chain (idx : LookupIndex) (log_id : Z) (c : Chain)
  : option (LookupIndex * bool) :=
  match c with
  | [] => Some (idx, false)
  | (_, config) :: rest =>
      if kind_eq PkReplicated (lc_kind config) then
        let! params := params_from_slice (lc_params config) in
        let! (idx', _) := index_chain
          (add_replicated_loglet idx log_id (lc_index config) params) log_id rest in
        Some (idx', true)
      else index_chain idx log_id rest
  end.

Fixpoint from_serde_loop (logs : list (Z * Chain)) (m : gmap Z Chain) (idx : LookupIndex)
    (config : option LogsConfiguration)
  : option (gmap Z Chain * LookupIndex * option LogsConfiguration) :=
  match logs with
  | [] => Some (m, idx, config)
  | (log_id, c) :: rest =>
      let! (idx', replicated) := index_chain idx log_id c in
      let config' :=
        match config, replicated with
        | None, true => Some legacy_config
        | _, _ => config
        end in
      from_serde_loop rest (<[log_id := c]> m) idx' config'
  end.

Definition logs_try_from_serde (v : LogsSerde) : option Logs :=
  let! x := from_serde_loop (serde_logs v) ∅ ∅ (serde_config v) in
  let '(m, idx, config) := x in
  Some (mkLogs (serde_version v) m idx (default pc_default config) (serde_modified_at v)).
End Serde.

(** ** Well-formed chains *)

(** What holds between an entry and every later one: the base offsets grow,
    only the last entry is a seal marker, and the segment indices grow, except
    that a seal marker has the index of the segment it seals. *)
Definition entry_before (e1 e2 : Z * LogletConfig) : Prop :=
  e1.1 < e2.1 ∧ is_seal_marker (lc_kind e1.2) = false ∧
  (lc_index e1.2 < lc_index e2.2 ∨
   (lc_index e1.2 = lc_index e2.2 ∧ is_seal_marker (lc_kind e2.2) = true)).

Definition entry_ok `{JsonCodec} (e : Z * LogletConfig) : Prop :=
  0 ≤ lc_index e.2 ≤ u32_max ∧
  (lc_kind e.2 = IkReplicated → is_Some (params_from_slice (lc_params e.2))).

Definition chain_wf `{JsonCodec} (c : Chain) : Prop :=
  c ≠ [] ∧ StronglySorted entry_before c ∧ Forall entry_ok c.

Lemma chain_sorted_bt (c : Chain) : StronglySorted entry_before c → bt_wf c.
Proof. apply StronglySorted_fmap. by intros e1 e2 [? _]. Qed.

Lemma chain_wf_bt `{JsonCodec} c : chain_wf c → bt_wf c.
Proof. intros (_ & ? & _). by apply chain_sorted_bt. Qed.

(** The segments of the iterator are the entries, each with the next base. *)
Lemma elem_of_chain_iter (c : Chain) s :
  s ∈ chain_iter c ↔
  ∃ c1 e c2, c = c1 ++ e :: c2 ∧ s = mkSegment e.1 (fst <$> head c2) e.2.
Proof.
  induction c as [|e c IH]; simpl.
  - split; [by intros ?%not_elem_of_nil|]. by intros ([]&?&?&?&?).
  - rewrite elem_of_cons, IH. split.
    + intros [->|(c1&e'&c2&->&->)]; [by exists [], e, c|by exists (e :: c1), e', c2].
    + intros ([|e1 c1]&e'&c2&[= -> ->]&->); [by left|right; by exists c1, e', c2].
Qed.

Lemma segment_at_iter (c1 c2 : Chain) e :
  bt_wf (c1 ++ e :: c2) →
  segment_at (c1 ++ e :: c2) e = mkSegment e.1 (fst <$> head c2) e.2.
Proof. intros Hwf. destruct e as [k v]. unfold segment_at. simpl. by rewrite bt_next_after_split. Qed.

Lemma head_bound (c1 c2 : Chain) e lsn :
  bt_wf (c1 ++ e :: c2) → (∀ t, fst <$> head c2 = Some t → lsn < t) →
  ∀ x, x ∈ c2 → lsn < x.1.
Proof.
  destruct e as [ke ve]. intros (_ & [_ H2]%bt_wf_cons & _)%bt_wf_app Ht x Hx.
  destruct c2 as [|[k v] c2]; [by apply not_elem_of_nil in Hx|].
  specialize (Ht k eq_refl). apply elem_of_cons in Hx as [->|Hx]; [done|].
  apply bt_wf_cons in H2 as [Hk _]. destruct x as [kx vx]. specialize (Hk _ _ Hx). simpl. lia.
Qed.

(** ** Segment lookup *)

Lemma find_segment_for_lsn_split (c1 c2 : Chain) e lsn :
  bt_wf (c1 ++ e :: c2) → e.1 ≤ Z.max lsn Lsn_OLDEST →
  (∀ t, fst <$> head c2 = Some t → Z.max lsn Lsn_OLDEST < t) →
  find_segment_for_lsn (c1 ++ e :: c2) lsn =
    Some (SegmentFound (mkSegment e.1 (fst <$> head c2) e.2)).
Proof.
  intros Hwf He Ht. unfold find_segment_for_lsn.
  rewrite bt_rfind_split; [by rewrite segment_at_iter|by apply Z.leb_le|].
  intros x Hx. apply Z.leb_gt. by eapply head_bound.
Qed.

(** The three outcomes of a lookup, by inversion. *)
Lemma find_segment_for_lsn_inv (c : Chain) lsn :
  bt_wf c → c ≠ [] →
  (∃ c1 e c2, c = c1 ++ e :: c2 ∧ e.1 ≤ Z.max lsn Lsn_OLDEST ∧
     (∀ t, fst <$> head c2 = Some t → Z.max lsn Lsn_OLDEST < t) ∧
     find_segment_for_lsn c lsn = Some (SegmentFound (mkSegment e.1 (fst <$> head c2) e.2))) ∨
  (∃ e c2, c = e :: c2 ∧ Z.max lsn Lsn_OLDEST < e.1 ∧
     find_segment_for_lsn c lsn = Some (SegmentTrim e.1)).
Proof.
  intros Hwf Hne. destruct (bt_rfind (λ e, e.1 <=? Z.max lsn Lsn_OLDEST) c) as [e|] eqn:Hf.
  - left. apply bt_rfind_Some in Hf as (c1 & c2 & -> & He & H2). apply Z.leb_le in He.
    assert (∀ t, fst <$> head c2 = Some t → Z.max lsn Lsn_OLDEST < t) as Ht.
    { intros t (x & Hx & ->)%fmap_Some. apply head_Some in Hx as [? ->].
      apply Z.leb_gt, H2. constructor. }
    exists c1, e, c2. split_and!; [done..|]. by apply find_segment_for_lsn_split.
  - right. destruct c as [|e c2]; [done|]. exists e, c2. split_and!; [done|..].
    + apply Z.leb_gt. by apply (bt_rfind_None _ (e :: c2) e Hf); constructor.
    + unfold find_segment_for_lsn. by rewrite Hf.
Qed.

(** C33. Segment lookup by log sequence number.  On a non-empty chain the
    lookup never panics; it finds exactly the segment of the iteration whose
    half-open interval [[base, tail)] contains the (clamped) number; and it
    reports a trim gap exactly when the number is below the oldest segment,
    with that segment's base. *)
Theorem find_segment_for_lsn_spec (c : Chain) (lsn : Z) :
  bt_wf c → c ≠ [] →
  (∀ s, find_segment_for_lsn c lsn = Some (SegmentFound s) ↔
     s ∈ chain_iter c ∧ base_lsn s ≤ Z.max lsn Lsn_OLDEST ∧
     ∀ t, tail_lsn s = Some t → Z.max lsn Lsn_OLDEST < t) ∧
  (∀ n, find_segment_for_lsn c lsn = Some (SegmentTrim n) ↔
     (base_lsn <$> chain_head c) = Some n ∧ Z.max lsn Lsn_OLDEST < n) ∧
  is_Some (find_segment_for_lsn c lsn).
Proof.
  intros Hwf Hne. split_and!.
  - intros s. split.
    + destruct (find_segment_for_lsn_inv c lsn Hwf Hne)
        as [(c1&e&c2&Hc&?&?&Hf)|(e&c2&_&_&Hf)]; rewrite Hf; [|done].
      intros [= <-]. split_and!; [|done..]. apply elem_of_chain_iter. eauto.
    + rewrite elem_of_chain_iter. intros ((c1&e&c2&->&->)&?&?).
      by apply find_segment_for_lsn_split.
  - intros n. destruct (find_segment_for_lsn_inv c lsn Hwf Hne)
      as [(c1&e&c2&->&He&Ht&Hf)|(e&c2&->&?&Hf)]; rewrite Hf.
    + split; [done|]. intros [Hn Hlt]. exfalso.
      destruct c1 as [|e1 c1]; simpl in Hn; injection Hn as <-; [simpl in *; lia|].
      destruct e as [ke ve], e1 as [k1 v1].
      apply bt_wf_cons in Hwf as [Hlt1 _].
      assert (k1 < ke) by (apply (Hlt1 ke ve); set_solver). simpl in *. lia.
    + simpl. split; [by intros [= <-]|by intros [[= <-] _]].
  - destruct (find_segment_for_lsn_inv c lsn Hwf Hne)
      as [(?&?&?&?&?&?&->)|(?&?&?&?&->)]; eauto.
Qed.

(** Within a chain, an index and a provider kind identify a segment. *)
Lemma chain_index_unique (c : Chain) e1 e2 p :
  StronglySorted entry_before c → e1 ∈ c → e2 ∈ c →
  kind_eq p (lc_kind e1.2) = true → kind_eq p (lc_kind e2.2) = true →
  lc_index e1.2 = lc_index e2.2 → e1 = e2.
Proof.
  intros Hs H1 H2 Hk1 Hk2 Hi.
  assert (∀ k, kind_eq p k = true → is_seal_marker k = false) as Hseal
    by (by destruct p, k).
  apply list_elem_of_split in H1 as (c1 & c2 & ->).
  apply StronglySorted_app in Hs as (H12 & _ & [_ Hf]%StronglySorted_inv).
  rewrite Forall_forall in Hf.
  apply elem_of_app in H2 as [H2|[->|H2]%elem_of_cons]; [|done|].
  - destruct (H12 e2 e1 H2) as (_ & _ & [?|[_ Hs]]); [constructor|lia|].
    rewrite (Hseal _ Hk1) in Hs. done.
  - destruct (Hf e2 H2) as (_ & _ & [?|[_ Hs]]); [lia|]. rewrite (Hseal _ Hk2) in Hs. done.
Qed.

(** Segment lookup by index.  On a well-formed chain a lookup by segment
    index and provider kind finds exactly the segment of the iteration that
    has them: there is at most one. *)
Theorem find_segment_by_index_spec `{JsonCodec} (c : Chain) (i : Z) (p : ProviderKind) (s : Segment) :
  chain_wf c →
  find_segment_by_index c i p = Some s ↔
  s ∈ chain_iter c ∧ lc_index (seg_config s) = i ∧ kind_eq p (lc_kind (seg_config s)) = true.
Proof.
  intros Hc. pose proof (chain_wf_bt c Hc) as Hwf. destruct Hc as (_ & Hs & _).
  unfold find_segment_by_index. rewrite bind_Some, elem_of_chain_iter. split.
  - intros (e & (c1 & c2 & -> & [Hi%Z.eqb_eq Hk]%andb_prop & _)%bt_rfind_Some & [= <-]).
    rewrite segment_at_iter by done. simpl. eauto 10.
  - intros ((c1 & e & c2 & -> & ->) & Hi & Hk). simpl in Hi, Hk. exists e.
    rewrite segment_at_iter by done. split; [|done]. apply bt_rfind_split.
    + by rewrite Hi, Z.eqb_refl, Hk.
    + intros x Hx. apply not_true_is_false. intros [Hi'%Z.eqb_eq Hk']%andb_prop.
      assert (x = e) as ->.
      { eapply (chain_index_unique _ x e p Hs); [set_solver..|done|done|congruence]. }
      apply StronglySorted_app in Hs as (_ & _ & [_ Hf]%StronglySorted_inv).
      rewrite Forall_forall in Hf. destruct (Hf e Hx) as [? _]. lia.
Qed.

(** ** The lookup index against the chains *)

Section Index.
Context `{JsonCodec}.

(** Segment [seg] of the chain is the replicated loglet [lid]. *)
Definition chain_has (c : Chain) (seg lid : Z) : Prop :=
  ∃ e p, e ∈ c ∧ lc_kind e.2 = IkReplicated ∧ lc_index e.2 = seg ∧
         params_from_slice (lc_params e.2) = Some p ∧ rlp_loglet_id p = lid.

Definition idx_has (idx : LookupIndex) (log seg lid : Z) : Prop :=
  ∃ r, idx !! lid = Some r ∧ (log, seg) ∈ references r.

(** No entry is left without references, and each has its own parameters. *)
Definition idx_ok (idx : LookupIndex) : Prop :=
  ∀ lid r, idx !! lid = Some r → references r ≠ [] ∧ rlp_loglet_id (ref_params r) = lid.

(** The index holds exactly the replicated segments of the chains. *)
Definition index_consistent (m : gmap Z Chain) (idx : LookupIndex) : Prop :=
  idx_ok idx ∧
  ∀ log seg lid, idx_has idx log seg lid ↔ ∃ c, m !! log = Some c ∧ chain_has c seg lid.

Lemma add_has idx log s p l s' lid :
  idx_has (add_replicated_loglet idx log s p) l s' lid ↔
  idx_has idx l s' lid ∨ (l = log ∧ s' = s ∧ lid = rlp_loglet_id p).
Proof.
  unfold idx_has, add_replicated_loglet. split.
  - intros (r & [[<- <-]|[Hne Hr]]%lookup_insert_Some & Hin); [|eauto].
    simpl in Hin. apply elem_of_app in Hin as [Hin|Hin%list_elem_of_singleton].
    + destruct (idx !! rlp_loglet_id p) as [r|]; [eauto|by apply not_elem_of_nil in Hin].
    + injection Hin as -> ->. auto.
  - intros [(r & Hr & Hin)|(-> & -> & ->)].
    + destruct (decide (lid = rlp_loglet_id p)) as [->|Hne].
      * rewrite lookup_insert_eq, Hr. eexists. split; [done|]. simpl. set_solver.
      * rewrite lookup_insert_ne by done. eauto.
    + rewrite lookup_insert_eq. eexists. split; [done|]. simpl. set_solver.
Qed.

Lemma add_ok idx log s p : idx_ok idx → idx_ok (add_replicated_loglet idx log s p).
Proof.
  unfold add_replicated_loglet.
  intros Hok lid r [[<- <-]|[Hne Hr]]%lookup_insert_Some; [|eauto].
  split; simpl; [by intros []%app_eq_nil|].
  destruct (idx !! rlp_loglet_id p) eqn:E; [|done]. by eapply Hok.
Qed.

Lemma rm_has idx log s lid0 l s' lid :
  idx_has (rm_replicated_loglet_reference idx log s lid0) l s' lid ↔
  idx_has idx l s' lid ∧ ¬ (l = log ∧ s' = s ∧ lid = lid0).
Proof.
  unfold idx_has, rm_replicated_loglet_reference.
  destruct (idx !! lid0) as [r0|] eqn:E0; [|split; [|naive_solver]].
  2: { intros (r & Hr & ?). split; [eauto|]. intros (_ & _ & ->). congruence. }
  set (f := filter _ (references r0)).
  assert (Hf : ∀ x, x ∈ f ↔ x ≠ (log, s) ∧ x ∈ references r0)
    by (intros x; unfold f; by rewrite elem_of_filter_bool, bool_decide_eq_true).
  clearbody f.
  destruct (decide (lid = lid0)) as [->|Hne].
  - rewrite E0. specialize (Hf (l, s')). destruct f as [|x f].
    + rewrite lookup_delete_eq. rewrite elem_of_nil in Hf. naive_solver.
    + rewrite lookup_insert_eq. naive_solver.
  - assert (match f with [] => delete lid0 idx
             | _ => <[lid0 := mkRef (ref_params r0) f]> idx end !! lid = idx !! lid) as ->.
    { destruct f; [by apply lookup_delete_ne|by apply lookup_insert_ne]. }
    naive_solver.
Qed.

Lemma rm_ok idx log s lid0 : idx_ok idx → idx_ok (rm_replicated_loglet_reference idx log s lid0).
Proof.
  unfold rm_replicated_loglet_reference. intros Hok.
  destruct (idx !! lid0) as [r0|] eqn:E0; [|done]. destruct (filter _ _) as [|x f] eqn:Ef.
  - intros lid r [_ Hr]%lookup_delete_Some. eauto.
  - intros lid r [[<- <-]|[_ Hr]]%lookup_insert_Some; [|eauto].
    split; [done|]. simpl. by eapply Hok.
Qed.

Lemma chain_has_cons e c seg lid :
  chain_has (e :: c) seg lid ↔ chain_has [e] seg lid ∨ chain_has c seg lid.
Proof. unfold chain_has. setoid_rewrite elem_of_cons. set_solver. Qed.

Lemma chain_has_app c1 c2 seg lid :
  chain_has (c1 ++ c2) seg lid ↔ chain_has c1 seg lid ∨ chain_has c2 seg lid.
Proof. unfold chain_has. setoid_rewrite elem_of_app. naive_solver. Qed.

Lemma chain_has_nil seg lid : ¬ chain_has [] seg lid.
Proof. unfold chain_has. set_solver. Qed.

Lemma chain_has_single b lc seg lid :
  chain_has [(b, lc)] seg lid ↔
  lc_kind lc = IkReplicated ∧ lc_index lc = seg ∧
  ∃ p, params_from_slice (lc_params lc) = Some p ∧ rlp_loglet_id p = lid.
Proof. unfold chain_has. setoid_rewrite list_elem_of_singleton. naive_solver. Qed.

Lemma kind_eq_replicated k : kind_eq PkReplicated k = true ↔ k = IkReplicated.
Proof. by destruct k. Qed.

Lemma index_chain_spec c : ∀ idx log idx' b,
  index_chain idx log c = Some (idx', b) → idx_ok idx →
  idx_ok idx' ∧ Forall (λ e, lc_kind e.2 = IkReplicated → is_Some (params_from_slice (lc_params e.2))) c ∧
  ∀ l s lid, idx_has idx' l s lid ↔ idx_has idx l s lid ∨ (l = log ∧ chain_has c s lid).
Proof.
  induction c as [|[k lc] c IH]; intros idx log idx' b Hc Hok; cbn [index_chain] in Hc.
  { simplify_eq. split_and!; [done..|]. intros. split; [auto|]. intros [?|[_ []%chain_has_nil]]; done. }
  destruct (kind_eq PkReplicated (lc_kind lc)) eqn:Hk.
  - apply kind_eq_replicated in Hk. apply bind_Some in Hc as (p & Hp & Hc).
    apply bind_Some in Hc as ([i' b'] & Hi & Hc). simplify_eq.
    apply IH in Hi as (? & ? & Hspec); [|by apply add_ok]. split_and!; [done|constructor; eauto|].
    intros. rewrite Hspec, add_has, chain_has_cons, chain_has_single. naive_solver.
  - apply IH in Hc as (? & ? & Hspec); [|done]. split_and!; [done|constructor; [|done]|].
    + cbn [snd]. intros Hr%kind_eq_replicated. congruence.
    + intros. rewrite Hspec, chain_has_cons, chain_has_single.
      rewrite <- kind_eq_replicated. naive_solver congruence.
Qed.

Lemma from_serde_loop_spec logs : ∀ m idx cfg m' idx' cfg',
  from_serde_loop logs m idx cfg = Some (m', idx', cfg') →
  NoDup logs.*1 → (∀ l, l ∈ logs.*1 → m !! l = None) → index_consistent m idx →
  index_consistent m' idx' ∧ m' = list_to_map logs ∪ m.
Proof.
  induction logs as [|[log c] logs IH]; intros m idx cfg m' idx' cfg' Hl Hnd Hm Hc;
    cbn [from_serde_loop] in Hl.
  { simplify_eq. split; [done|]. by rewrite list_to_map_nil, (left_id_L ∅ (∪)). }
  apply bind_Some in Hl as ([idx1 b] & Hi & Hl).
  apply NoDup_cons in Hnd as [Hnin Hnd]. destruct Hc as [Hok Hc].
  apply index_chain_spec in Hi as (Hok1 & _ & Hspec); [|done].
  assert (m !! log = None) as Hnone by (apply Hm; constructor).
  apply IH in Hl as [Hres ->].
  - split; [done|]. simpl. rewrite <- insert_union_r, insert_union_l; [done|].
    by apply not_elem_of_list_to_map_1.
  - done.
  - intros l Hin. rewrite lookup_insert_ne by (by intros ->).
    apply Hm. by constructor.
  - split; [done|]. intros l s lid. rewrite Hspec, Hc. split.
    + intros [(c' & Hc' & ?)|[-> ?]].
      * exists c'. rewrite lookup_insert_ne; [done|congruence].
      * exists c. by rewrite lookup_insert_eq.
    + intros (c' & [[<- <-]|[_ ?]]%lookup_insert_Some & ?); eauto.
Qed.

Lemma index_consistent_empty : index_consistent ∅ ∅.
Proof.
  split; [by intros lid r ?%lookup_empty_Some|].
  intros. unfold idx_has. setoid_rewrite lookup_empty. naive_solver.
Qed.
End Index.

(** Loading stored metadata.  A stored form with distinct log ids that
    loads gives exactly its chains, its version and its modification time,
    keeps a stored configuration, and the lookup index built on the way holds
    exactly the replicated segments of the chains. *)
Theorem logs_try_from_serde_consistent `{JsonCodec} (v : LogsSerde) (l : Logs) :
  logs_try_from_serde v = Some l → NoDup (serde_logs v).*1 →
  logs_map l = list_to_map (serde_logs v) ∧
  index_consistent (logs_map l) (lookup_index l) ∧
  logs_version l = serde_version v ∧ modified_at l = serde_modified_at v ∧
  ∀ cfg, serde_config v = Some cfg → logs_config l = cfg.
Proof.
  intros Hl Hnd. apply bind_Some in Hl as ([[m idx] cfg] & Hloop & [= <-]). simpl.
  pose proof Hloop as Hcfg. apply from_serde_loop_spec in Hloop as [Hc ->]; [|done|done|].
  2: apply index_consistent_empty.
  rewrite (right_id_L ∅ (∪)) in *. split_and!; [done..|].
  intros cfg0 Hs. rewrite Hs in Hcfg. clear -Hcfg.
  assert (∀ logs (m0 : gmap Z Chain) (i0 : LookupIndex) m1 i1 c1,
    from_serde_loop logs m0 i0 (Some cfg0) = Some (m1, i1, c1) → c1 = Some cfg0) as Hgen.
  { induction logs as [|[lg c] logs IH]; intros m0 i0 m1 i1 c1 Hl; cbn [from_serde_loop] in Hl;
      [by simplify_eq|]. apply bind_Some in Hl as ([i b] & _ & Hl). by apply IH in Hl. }
  by rewrite (Hgen _ _ _ _ _ _ Hcfg).
Qed.

(** ** Instances *)

(** A codec with the round-trip law: a loglet's parameters are written as as
    many letters as its id, and only seals without context are written. *)
Definition demo_seal (permanent : bool) : SealMetadata := mkSeal permanent 0 [] None.

#[export] Instance SealMetadata_eq_dec : EqDecision SealMetadata.
Proof. solve_decision. Defined.

Definition demo_codec : JsonCodec := {|
  params_from_slice s :=
    if decide (s = EmptyString) then None
    else Some (mkRLP (Z.of_nat (String.length s)) (1, 1) (ReplicationProperty_new 2) [1; 2]);
  seal_from_slice s :=
    if decide (s = "permanent"%string) then Some (demo_seal true)
    else if decide (s = "temporary"%string) then Some (demo_seal false)
    else None;
  seal_to_string m :=
    if decide (m = demo_seal true) then Some "permanent"%string
    else if decide (m = demo_seal false) then Some "temporary"%string
    else None;
|}.

Lemma demo_codec_laws : JsonCodecLaws demo_codec.
Proof.
  constructor. intros m s. simpl.
  destruct (decide (m = demo_seal true)) as [->|]; [by intros [= <-]|].
  by destruct (decide (m = demo_seal false)) as [->|]; [intros [= <-]|].
Qed.

Definition demo_chain : Chain :=
  [(1, mkLC IkReplicated "a" 0 None); (10, mkLC IkReplicated "bb" 1 None);
   (20, mkLC IkSealed "temporary" 1 None)].

Lemma demo_chain_wf : @chain_wf demo_codec demo_chain.
Proof.
  split; [done|]. split.
  - unfold demo_chain.
    repeat first [apply SSorted_nil | apply SSorted_cons | apply Forall_nil_2 | apply Forall_cons_2];
      unfold entry_before; simpl; (split; [lia|split; [done|auto with lia]]).
  - unfold demo_chain. repeat apply Forall_cons_2; [..|apply Forall_nil_2];
      unfold entry_ok; simpl; (split; [lia|intros; eauto; done]).
Qed.

Lemma find_segment_for_lsn_spec_witness :
  bt_wf demo_chain ∧
  find_segment_for_lsn demo_chain 12 =
    Some (SegmentFound (mkSegment 10 (Some 20) (mkLC IkReplicated "bb" 1 None))).
Proof.
  assert (bt_wf demo_chain) as Hwf
    by apply (@chain_wf_bt demo_codec demo_chain demo_chain_wf).
  split; [done|].
  apply (proj1 (find_segment_for_lsn_spec demo_chain 12 Hwf ltac:(discriminate))).
  split; [|split; [vm_compute; discriminate|intros t [= <-]; reflexivity]].
  simpl. set_solver.
Defined.

Lemma find_segment_by_index_spec_witness :
  @chain_wf demo_codec demo_chain ∧
  find_segment_by_index demo_chain 1 PkReplicated =
    Some (mkSegment 10 (Some 20) (mkLC IkReplicated "bb" 1 None)).
Proof.
  split; [apply demo_chain_wf|].
  apply (proj2 (@find_segment_by_index_spec demo_codec demo_chain 1 PkReplicated _ demo_chain_wf)).
  split; [simpl; set_solver|split; reflexivity].
Defined.

Definition demo_serde : LogsSerde := mkSerde 3 [(7, demo_chain)] None None.
Definition demo_logs : Logs :=
  Eval vm_compute in default Logs_default (@logs_try_from_serde demo_codec demo_serde).

Lemma logs_try_from_serde_consistent_witness :
  @logs_try_from_serde demo_codec demo_serde = Some demo_logs ∧
  @index_consistent demo_codec (logs_map demo_logs) (lookup_index demo_logs).
Proof.
  assert (@logs_try_from_serde demo_codec demo_serde = Some demo_logs) as E by reflexivity.
  split; [exact E|].
  apply (@logs_try_from_serde_consistent demo_codec demo_serde demo_logs E).
  simpl. apply NoDup_singleton.
Defined.
