(* ===== verification/LogsBuilder.v ===== *)
(** * LogsBuilder: editing the log metadata

    Models crates/types/src/logs/builder.rs: [LogsBuilder] and the
    [ChainBuilder] it hands out, with [add_log], [trim_prefix],
    [append_segment] and [seal].  A method that returns early keeps the changes
    it made before. *)

From stdpp Require Import strings.
From S2P Require Import Prelude Clock LogTypes BTreeMap Replication LogChain.
Local Open Scope Z_scope.

Inductive BuilderError :=
| ChainPermanentlySealed (log_id : Z)
| LogAlreadyExists (log_id : Z)
| ParamsSerde
| SegmentConflict (base : Z)
| HlcClockError (e : ClockError).

(** What a [ChainBuilder] borrows mutably from the builder. *)
Record ChainView := mkView {
  cb_chain : Chain;
  cb_index : LookupIndex;
  cb_modified : bool;
}.

Definition set_chain (c : Chain) (v : ChainView) : ChainView :=
  mkView c (cb_index v) (cb_modified v).
Definition map_index (f : LookupIndex → LookupIndex) (v : ChainView) : ChainView :=
  mkView (cb_chain v) (f (cb_index v)) (cb_modified v).
Definition set_modified (b : bool) (v : ChainView) : ChainView :=
  mkView (cb_chain v) (cb_index v) b.

Section Builder.
Context `{JsonCodec}.

Abbreviation CB := (sm ChainView BuilderError).

(** [f(..)?] on a serde result, and [.expect(..)] on an option. *)
Definition serde {S A} (o : option A) : sm S BuilderError A :=
  sm_lift (match o with Some a => Ok a | None => Err ParamsSerde end).
Definition expecting {S A} (o : option A) : sm S BuilderError A := sm_lift (expect o).

Fixpoint rm_references_loop (log_id : Z) (segments : Chain) : CB unit :=
  match segments with
  | [] => sm_ret tt
  | (_, config) :: rest =>
      sm_when (kind_eq PkReplicated (lc_kind config))
        (let* params := expecting (params_from_slice (lc_params config)) in
         sm_modify (map_index (λ idx, rm_replicated_loglet_reference idx log_id
           (lc_index config) (rlp_loglet_id params)))) ;;
      rm_references_loop log_id rest
  end.

Definition trim_prefix (log_id until_base_lsn : Z) : CB unit :=
  let* c := sm_gets cb_chain in
  let* found := expecting (find_segment_for_lsn c until_base_lsn) in
  match found with
  | SegmentTrim _ => sm_ret tt
  | SegmentFound segment =>
      let '(before, remaining) := bt_split_off (base_lsn segment) c in
      sm_modify (set_chain before) ;;
      sm_when (negb (bool_decide (before = [])))
        (sm_modify (set_modified true) ;; rm_references_loop log_id before) ;;
      sm_modify (set_chain remaining)
  end.

(** Takes the old last segment out of the index before it is replaced. *)
Definition unindex_replaced (log_id : Z) (old : LogletConfig) : CB unit :=
  sm_when (kind_eq PkReplicated (lc_kind old))
    (let* params := serde (params_from_slice (lc_params old)) in
     sm_modify (map_index (λ idx, rm_replicated_loglet_reference idx log_id
       (lc_index old) (rlp_loglet_id params)))).

(** Puts a new segment into the index. *)
Definition index_appended (log_id new_index : Z) (provider : ProviderKind) (params : string)
  : CB unit :=
  sm_when (bool_decide (provider = PkReplicated))
    (let* p := serde (params_from_slice params) in
     sm_modify (map_index (λ idx, add_replicated_loglet idx log_id new_index p))).

(** The guard of [append_segment] on a chain that ends in a seal marker. *)
Definition check_seal_marker (log_id base key : Z) (tail : LogletConfig) : CB unit :=
  sm_when (is_seal_marker (lc_kind tail))
    (let* seal_metadata := serde (seal_from_slice (lc_params tail)) in
     if sm_permanent_seal seal_metadata then sm_lift (Err (ChainPermanentlySealed log_id))
     else if negb (base =? key) then sm_lift (Err (SegmentConflict key))
     else sm_ret tt).

Definition append_segment (log_id base : Z) (provider : ProviderKind) (params : string) : CB Z :=
  let* c := sm_gets cb_chain in
  let* last_entry := expecting (bt_last_key_value c) in
  let '(key, tail) := last_entry in
  check_seal_marker log_id base key tail ;;
  let new_index := as_u32 (lc_index tail + 1) in
  if key <? base then
    index_appended log_id new_index provider params ;;
    sm_modify (set_chain (bt_insert base (LogletConfig_new new_index provider params) c)) ;;
    sm_modify (set_modified true) ;;
    sm_ret new_index
  else if key =? base then
    unindex_replaced log_id tail ;;
    index_appended log_id new_index provider params ;;
    sm_modify (set_chain (bt_insert key (LogletConfig_new new_index provider params) c)) ;;
    sm_modify (set_modified true) ;;
    sm_ret new_index
  else sm_lift (Err (SegmentConflict key)).

Definition seal (log_id tail_lsn : Z) (metadata : SealMetadata) : CB Z :=
  let* c := sm_gets cb_chain in
  let* last_entry := expecting (bt_last_key_value c) in
  let '(key, tail) := last_entry in
  if is_seal_marker (lc_kind tail) then
    sm_modify (set_modified false) ;;
    sm_ret key
  else if key <? tail_lsn then
    let* marker := serde (LogletConfig_new_sealed (lc_index tail) metadata) in
    sm_modify (set_chain (bt_insert tail_lsn marker c)) ;;
    sm_modify (set_modified true) ;;
    sm_ret tail_lsn
  else if key =? tail_lsn then
    unindex_replaced log_id tail ;;
    let* marker := serde (LogletConfig_new_sealed (lc_index tail) metadata) in
    sm_modify (set_chain (bt_insert key marker c)) ;;
    sm_modify (set_modified true) ;;
    sm_ret tail_lsn
  else sm_lift (Err (SegmentConflict key)).

(** ** The builder *)

Record LogsBuilder := mkLB {
  lb_inner : Logs;
  lb_modified : bool;
  lb_hlc : Z;
}.

Definition set_index (idx : LookupIndex) (b : LogsBuilder) : LogsBuilder :=
  let l := lb_inner b in
  mkLB (mkLogs (logs_version l) (logs_map l) idx (logs_config l) (modified_at l))
    (lb_modified b) (lb_hlc b).

(** [chain(log_id)]: runs a [ChainBuilder] method in place; [None] when the log
    does not exist. *)
Definition with_chain {A} (log_id : Z) (op : CB A) (b : LogsBuilder)
  : option (LogsBuilder * res BuilderError A) :=
  let l := lb_inner b in
  match logs_map l !! log_id with
  | None => None
  | Some c =>
      let '(v, r) := op (mkView c (lookup_index l) (lb_modified b)) in
      Some (mkLB (mkLogs (logs_version l) (<[log_id := cb_chain v]> (logs_map l)) (cb_index v)
                    (logs_config l) (modified_at l)) (cb_modified v) (lb_hlc b), r)
  end.

Fixpoint add_log_loop (log_id : Z) (segments : Chain) : sm LogsBuilder BuilderError unit :=
  match segments with
  | [] => sm_ret tt
  | (_, config) :: rest =>
      sm_when (kind_eq PkReplicated (lc_kind config))
        (let* params := serde (params_from_slice (lc_params config)) in
         sm_modify (λ b, set_index (add_replicated_loglet (lookup_index (lb_inner b)) log_id
           (lc_index config) params) b)) ;;
      add_log_loop log_id rest
  end.

Definition add_log (log_id : Z) (c : Chain) : sm LogsBuilder BuilderError unit :=
  let* exists_ := sm_gets (λ b, bool_decide (is_Some (logs_map (lb_inner b) !! log_id))) in
  if (exists_ : bool) then sm_lift (Err (LogAlreadyExists log_id))
  else
    add_log_loop log_id c ;;
    sm_modify (λ b, let l := lb_inner b in
      mkLB (mkLogs (logs_version l) (<[log_id := c]> (logs_map l)) (lookup_index l)
              (logs_config l) (modified_at l)) true (lb_hlc b)) ;;
    let* c := sm_gets (λ b, logs_map (lb_inner b) !! log_id) in
    let* _ := expecting c in
    sm_ret tt.

Definition set_configuration (cfg : LogsConfiguration) (b : LogsBuilder) : LogsBuilder :=
  let l := lb_inner b in
  if bool_decide (logs_config l = cfg) then b
  else mkLB (mkLogs (logs_version l) (logs_map l) (lookup_index l) cfg (modified_at l))
         true (lb_hlc b).

(** The argument is a [NonZeroU32]. *)
Definition set_version (version : Z) (b : LogsBuilder) : LogsBuilder :=
  let l := lb_inner b in
  mkLB (mkLogs (as_u32 (version - 1)) (logs_map l) (lookup_index l) (logs_config l)
          (modified_at l)) (lb_modified b) (lb_hlc b).

Definition build (b : LogsBuilder) : Logs :=
  let l := lb_inner b in
  mkLogs (version_next (logs_version l)) (logs_map l) (lookup_index l) (logs_config l) None.

Definition build_if_modified (b : LogsBuilder) : option Logs :=
  if lb_modified b then Some (build b) else None.

(** [max_drift] is the configured drift, [now] the wall clock. *)
Definition builder_try_from (max_drift : option Z) (now : Z) (l : Logs)
  : res BuilderError LogsBuilder :=
  match hlc_new now with
  | Ok h =>
      match modified_at l with
      | None => Ok (mkLB l false h)
      | Some t =>
          match hlc_run_local max_drift (OpTryUpdate now t) h with
          | (Ok _, h') => Ok (mkLB l false h')
          | (Err e, _) => Err (HlcClockError e)
          | (Panic, _) => Panic
          end
      end
  | _ => Panic
  end.

Definition LogsBuilder_new (now : Z) : res BuilderError LogsBuilder :=
  match hlc_new now with
  | Ok h => Ok (mkLB Logs_default false h)
  | _ => Panic
  end.

(** ** Invariant *)

(** Every chain is well formed and the index agrees with the chains. *)
Definition logs_wf (l : Logs) : Prop :=
  (∀ log_id c, logs_map l !! log_id = Some c → chain_wf c) ∧
  index_consistent (logs_map l) (lookup_index l).

(** The same, for the view of one log in a map [m] of chains. *)
Definition view_wf (log_id : Z) (m : gmap Z Chain) (v : ChainView) : Prop :=
  chain_wf (cb_chain v) ∧ index_consistent (<[log_id := cb_chain v]> m) (cb_index v).

Lemma index_consistent_insert m log c idx :
  index_consistent (<[log := c]> m) idx ↔
  idx_ok idx ∧ ∀ l s lid, idx_has idx l s lid ↔
    (l = log ∧ chain_has c s lid) ∨ (l ≠ log ∧ ∃ c', m !! l = Some c' ∧ chain_has c' s lid).
Proof.
  unfold index_consistent. apply and_iff_compat_l.
  apply forall_proper; intros l; apply forall_proper; intros s; apply forall_proper; intros lid.
  destruct (decide (l = log)) as [->|Hne].
  - rewrite lookup_insert_eq. naive_solver.
  - rewrite lookup_insert_ne by done. naive_solver.
Qed.

Lemma entry_before_index e1 e2 :
  entry_before e1 e2 → lc_index e1.2 ≤ lc_index e2.2.
Proof. intros (_ & _ & [?|[? _]]); lia. Qed.

(** A well-formed chain seen from its last entry. *)
Lemma chain_wf_snoc (c : Chain) (e : Z * LogletConfig) :
  chain_wf (c ++ [e]) ↔
  StronglySorted entry_before c ∧ Forall entry_ok c ∧ entry_ok e ∧
  ∀ x, x ∈ c → entry_before x e.
Proof.
  unfold chain_wf. rewrite StronglySorted_app, Forall_app, Forall_singleton.
  setoid_rewrite list_elem_of_singleton. split.
  - intros (_ & (H1 & H2 & _) & H3 & H4). split_and!; eauto.
  - intros (H1 & H2 & H3 & H4). split_and!; try done; [by intros []%app_eq_nil|..].
    + intros ? ? ? ->. auto.
    + repeat constructor.
Qed.

Lemma chain_wf_last (c : Chain) :
  chain_wf c → ∃ c0 key tail, c = c0 ++ [(key, tail)] ∧ bt_last_key_value c = Some (key, tail).
Proof.
  intros (Hne & _). destruct (bt_last_key_value c) as [[key tail]|] eqn:E.
  - pose proof (bt_last_split _ _ _ E) as [c0 ->]. eauto.
  - by apply last_None in E.
Qed.

(** Replicated segments before an unsealed last entry have smaller indices. *)
Lemma chain_has_init_lt (c : Chain) (e : Z * LogletConfig) s lid :
  (∀ x, x ∈ c → entry_before x e) → is_seal_marker (lc_kind e.2) = false →
  chain_has c s lid → s < lc_index e.2.
Proof.
  intros Hb Hk (x & p & Hx & _ & <- & _). destruct (Hb x Hx) as (_ & _ & [?|[_ ?]]); [done|congruence].
Qed.

Lemma LogletConfig_new_ok base i provider params :
  0 ≤ i ≤ u32_max →
  (provider = PkReplicated → is_Some (params_from_slice params)) →
  entry_ok (base, LogletConfig_new i provider params).
Proof. intros Hi Hp. split; [done|]. simpl. intros Hk. apply Hp. by destruct provider. Qed.

(** ** The steps of the chain operations *)

Lemma index_appended_spec log i provider params base v v' r :
  index_appended log i provider params v = (v', r) →
  (v' = v ∧ r = Err ParamsSerde) ∨
  (r = Ok tt ∧ cb_chain v' = cb_chain v ∧ (idx_ok (cb_index v) → idx_ok (cb_index v')) ∧
   (provider = PkReplicated → is_Some (params_from_slice params)) ∧
   ∀ l s lid, idx_has (cb_index v') l s lid ↔ idx_has (cb_index v) l s lid ∨
     (l = log ∧ chain_has [(base, LogletConfig_new i provider params)] s lid)).
Proof.
  unfold index_appended, sm_when. setoid_rewrite chain_has_single.
  destruct (bool_decide_reflect (provider = PkReplicated)) as [->|Hp].
  - unfold sm_bind, serde, sm_lift, sm_modify, map_index.
    destruct (params_from_slice params) as [p|] eqn:E; intros [= <- <-]; [right|by left].
    split_and!; simpl; [done|done|apply add_ok|done|].
    intros. rewrite add_has. naive_solver.
  - intros [= <- <-]. right. split_and!; [done..|]. intros l s lid. simpl.
    assert (internal_of_provider provider ≠ IkReplicated) by (by destruct provider).
    naive_solver.
Qed.

Lemma unindex_replaced_spec log key old v v' r :
  entry_ok (key, old) → unindex_replaced log old v = (v', r) →
  r = Ok tt ∧ cb_chain v' = cb_chain v ∧ (idx_ok (cb_index v) → idx_ok (cb_index v')) ∧
  ∀ l s lid, idx_has (cb_index v') l s lid ↔
    idx_has (cb_index v) l s lid ∧ ¬ (l = log ∧ chain_has [(key, old)] s lid).
Proof.
  intros [_ Hok]. unfold unindex_replaced, sm_when. setoid_rewrite chain_has_single.
  destruct (kind_eq PkReplicated (lc_kind old)) eqn:Hk.
  - apply kind_eq_replicated in Hk. destruct (Hok Hk) as [p Hp]. simpl in Hp.
    unfold sm_bind, serde, sm_lift, sm_modify, map_index. rewrite Hp.
    intros [= <- <-]. split_and!; simpl; [done|done|apply rm_ok|].
    intros. rewrite rm_has. naive_solver.
  - intros [= <- <-]. split_and!; [done..|]. intros l s lid.
    assert (lc_kind old ≠ IkReplicated) by (by intros ?%kind_eq_replicated; congruence).
    naive_solver.
Qed.

Lemma check_seal_marker_spec log base key tail v v' r :
  check_seal_marker log base key tail v = (v', r) →
  v' = v ∧ r ≠ Panic ∧ (r = Ok tt → is_seal_marker (lc_kind tail) = true → base = key).
Proof.
  unfold check_seal_marker, sm_when. destruct (is_seal_marker (lc_kind tail)); [|by intros [= <- <-]].
  unfold sm_bind, serde, sm_lift, sm_ret.
  destruct (seal_from_slice (lc_params tail)) as [md|]; [|by intros [= <- <-]].
  destruct (sm_permanent_seal md); [by intros [= <- <-]|].
  destruct (Z.eqb_spec base key); intros [= <- <-]; done.
Qed.

(** Replacing the last entry by one with the same base, or adding one above. *)
Lemma chain_wf_replace (c0 : Chain) key tail new :
  chain_wf (c0 ++ [(key, tail)]) → entry_ok (key, new) →
  (lc_index tail < lc_index new ∨
   lc_index tail = lc_index new ∧ is_seal_marker (lc_kind new) = true) →
  chain_wf (c0 ++ [(key, new)]).
Proof.
  rewrite !chain_wf_snoc. intros (? & ? & _ & Hb) Hok Hi. split_and!; [done..|].
  intros x Hx. destruct (Hb x Hx) as (? & ? & Hxi). split_and!; [done..|]. simpl in *. naive_solver lia.
Qed.

Lemma chain_wf_extend (c0 : Chain) key tail base new :
  chain_wf (c0 ++ [(key, tail)]) → entry_ok (base, new) → key < base →
  is_seal_marker (lc_kind tail) = false →
  (lc_index tail < lc_index new ∨
   lc_index tail = lc_index new ∧ is_seal_marker (lc_kind new) = true) →
  chain_wf ((c0 ++ [(key, tail)]) ++ [(base, new)]).
Proof.
  intros Hwf Hok Hlt Hk Hi. pose proof Hwf as (_ & _ & _ & Hb)%chain_wf_snoc.
  destruct Hwf as (_ & Hs & Hf). apply chain_wf_snoc. split_and!; [done..|].
  intros x [Hx|Hx]%elem_of_app.
  - destruct (Hb x Hx) as (? & ? & Hxi). simpl in *. split_and!; [simpl; lia|done|].
    simpl. naive_solver lia.
  - apply list_elem_of_singleton in Hx as ->. split_and!; done.
Qed.

(** A change of one chain, and of the index at that log only. *)
Lemma index_update log m c c' idx idx' :
  index_consistent (<[log := c]> m) idx → (idx_ok idx → idx_ok idx') →
  (∀ l s lid, l ≠ log → idx_has idx' l s lid ↔ idx_has idx l s lid) →
  (∀ s lid, (idx_has idx log s lid ↔ chain_has c s lid) →
            (idx_has idx' log s lid ↔ chain_has c' s lid)) →
  index_consistent (<[log := c']> m) idx'.
Proof.
  rewrite !index_consistent_insert. intros [Hok Hc] Hok' Hne Heq. split; [auto|].
  intros l s lid. destruct (decide (l = log)) as [->|Hl].
  - rewrite (Heq s lid); [naive_solver|]. rewrite Hc. naive_solver.
  - rewrite Hne, Hc by done. naive_solver.
Qed.

(** Monadic steps: what [sm_bind] does with a finished first part. *)
Lemma sm_bind_spec {S E A B} (f : sm S E A) (k : A → sm S E B) s s' r :
  sm_bind f k s = (s', r) →
  (∃ s1 a, f s = (s1, Ok a) ∧ k a s1 = (s', r)) ∨
  (∃ e, f s = (s', Err e) ∧ r = Err e) ∨ (f s = (s', Panic) ∧ r = Panic).
Proof. unfold sm_bind. destruct (f s) as [s1 [a|e|]]; naive_solver. Qed.

Lemma sm_bind_gets {S E A B} (f : S → A) (k : A → sm S E B) s : sm_bind (sm_gets f) k s = k (f s) s.
Proof. done. Qed.

Lemma sm_bind_expecting {S A B} (o : option A) (a : A) (k : A → sm S BuilderError B) s :
  o = Some a → sm_bind (expecting o) k s = k a s.
Proof. by intros ->. Qed.

Lemma commit_chain {A} (c : Chain) (a : A) v :
  (sm_modify (set_chain c) ;; sm_modify (set_modified true) ;; sm_ret a : CB A) v =
  (mkView c (cb_index v) true, Ok a).
Proof. done. Qed.

(** Replacing the last segment: the view after the old one has left the index. *)
Lemma replace_view_wf log m c0 key tail new v1 v2 :
  chain_wf (c0 ++ [(key, tail)]) →
  entry_ok (key, new) →
  (lc_index tail < lc_index new ∨
   lc_index tail = lc_index new ∧ is_seal_marker (lc_kind new) = true) →
  (idx_ok (cb_index v1) → idx_ok (cb_index v2)) →
  (∀ l s lid, idx_has (cb_index v2) l s lid ↔
     (idx_has (cb_index v1) l s lid ∧ ¬ (l = log ∧ chain_has [(key, tail)] s lid)) ∨
     (l = log ∧ chain_has [(key, new)] s lid)) →
  let c' := bt_insert key new (c0 ++ [(key, tail)]) in
  chain_wf c' ∧ (index_consistent (<[log := c0 ++ [(key, tail)]]> m) (cb_index v1) →
                 index_consistent (<[log := c']> m) (cb_index v2)).
Proof.
  intros Hwf Hnew Hi Hok Hidx c'. unfold c'.
  rewrite bt_insert_last by (by apply chain_wf_bt). split; [by eapply chain_wf_replace|]. intros Hc.
  eapply index_update; [done|done|intros; rewrite Hidx; naive_solver|].
  intros s lid Hs. rewrite Hidx, Hs, !chain_has_app.
  assert (chain_has [(key, tail)] s lid → ¬ chain_has c0 s lid) as Hex.
  { intros (Hk & <- & _)%chain_has_single Hc0. apply chain_wf_snoc in Hwf as (_ & _ & _ & Hb).
    apply (chain_has_init_lt _ _ _ _ Hb) in Hc0; [simpl in *; lia|]. simpl. by rewrite Hk. }
  naive_solver.
Qed.

Lemma extend_view_wf log m c0 key tail base new v1 v2 :
  chain_wf (c0 ++ [(key, tail)]) →
  entry_ok (base, new) → key < base → is_seal_marker (lc_kind tail) = false →
  (lc_index tail < lc_index new ∨
   lc_index tail = lc_index new ∧ is_seal_marker (lc_kind new) = true) →
  (idx_ok (cb_index v1) → idx_ok (cb_index v2)) →
  (∀ l s lid, idx_has (cb_index v2) l s lid ↔ idx_has (cb_index v1) l s lid ∨
     (l = log ∧ chain_has [(base, new)] s lid)) →
  let c' := bt_insert base new (c0 ++ [(key, tail)]) in
  chain_wf c' ∧ (index_consistent (<[log := c0 ++ [(key, tail)]]> m) (cb_index v1) →
                 index_consistent (<[log := c']> m) (cb_index v2)).
Proof.
  intros Hwf Hnew Hlt Hk Hi Hok Hidx c'. unfold c'.
  pose proof (chain_wf_extend _ _ _ _ _ Hwf Hnew Hlt Hk Hi) as Hwf'.
  rewrite bt_insert_above.
  2: { apply chain_wf_bt in Hwf'. by apply bt_wf_snoc in Hwf' as [_ ?]. }
  split; [done|]. intros Hc. eapply index_update; [done|done|intros; rewrite Hidx; naive_solver|].
  intros s lid Hs. rewrite Hidx, Hs, (chain_has_app (c0 ++ _)). naive_solver.
Qed.

(** What a call on a chain guarantees: no panic, a well-formed chain, and an index
    that still agrees, unless the call stopped at parameters that cannot be read. *)
Definition call_ok {A} (log : Z) (m : gmap Z Chain) (v v' : ChainView) (r : res BuilderError A) : Prop :=
  r ≠ Panic ∧ chain_wf (cb_chain v') ∧
  (r ≠ Err ParamsSerde → index_consistent (<[log := cb_chain v]> m) (cb_index v) →
   index_consistent (<[log := cb_chain v']> m) (cb_index v')).

Lemma call_ok_view {A} log m v v' (r : res BuilderError A) :
  call_ok log m v v' r → view_wf log m v → r ≠ Err ParamsSerde → view_wf log m v'.
Proof. intros (_ & Hc & Hi) [_ Hv] Hr. split; [done|]. by apply Hi. Qed.

Lemma append_segment_ok log m base provider params v v' r :
  chain_wf (cb_chain v) → (∀ i, tail_index (cb_chain v) = Some i → i < u32_max) →
  append_segment log base provider params v = (v', r) → call_ok log m v v' r.
Proof.
  intros Hwf Htail Happ. destruct v as [c idx md]. simpl in *.
  destruct (chain_wf_last c Hwf) as (c0 & key & tail & -> & Hlast).
  specialize (Htail (lc_index tail)). unfold tail_index in Htail. rewrite Hlast in Htail.
  specialize (Htail eq_refl).
  pose proof Hwf as (_ & _ & Htok & _)%chain_wf_snoc.
  assert (as_u32 (lc_index tail + 1) = lc_index tail + 1) as Hi.
  { apply wrap_small. destruct Htok. unfold in_u. simpl in *. lia. }
  unfold append_segment in Happ. rewrite sm_bind_gets in Happ. cbn [cb_chain] in Happ.
  rewrite (sm_bind_expecting _ _ _ _ Hlast), Hi in Happ.
  apply sm_bind_spec in Happ as [(v1 & [] & Hchk & Happ)|[(e & Hchk & ->)|(Hchk & ->)]];
    apply check_seal_marker_spec in Hchk as (-> & Hnp & Hmark); [|by split_and!|done].
  assert (Hnew : (provider = PkReplicated → is_Some (params_from_slice params)) →
    ∀ b, entry_ok (b, LogletConfig_new (lc_index tail + 1) provider params)).
  { intros Hp b. apply LogletConfig_new_ok; [|done]. destruct Htok. simpl in *. lia. }
  destruct (Z.ltb_spec key base) as [Hlt|Hge].
  - apply sm_bind_spec in Happ as [(v1 & [] & Hadd & Happ)|[(e & Hadd & ->)|(Hadd & ->)]];
      apply (index_appended_spec _ _ _ _ base) in Hadd as [[? ?]|(Hr & _ & Hok & Hp & Hhas)];
      simplify_eq; [|by split_and!].
    rewrite commit_chain in Happ. simplify_eq. split; [done|].
    edestruct (extend_view_wf log m c0 key tail base (LogletConfig_new (lc_index tail + 1) provider params)
      (mkView (c0 ++ [(key, tail)]) idx md) v1)
      as [? Hc]; [done|by apply Hnew|done| |left; simpl; lia|done|done|by split].
    destruct (is_seal_marker (lc_kind tail)) eqn:E; [|done]. specialize (Hmark eq_refl eq_refl). lia.
  - destruct (Z.eqb_spec key base) as [->|]; [|unfold sm_lift in Happ; simplify_eq; by split_and!].
    apply sm_bind_spec in Happ as [(v1 & [] & Hrm & Happ)|[(e & Hrm & ->)|(Hrm & ->)]];
      apply (unindex_replaced_spec _ _ _ _ _ _ Htok) in Hrm as (Hr & Hc1 & Hok1 & Hhas1);
      simplify_eq.
    apply sm_bind_spec in Happ as [(v2 & [] & Hadd & Happ)|[(e & Hadd & ->)|(Hadd & ->)]];
      apply (index_appended_spec _ _ _ _ base) in Hadd as [[? ?]|(Hr & _ & Hok & Hp & Hhas)];
      simplify_eq; [|by simpl in Hc1; rewrite <- Hc1 in Hwf; split_and!].
    rewrite commit_chain in Happ. simplify_eq. split; [done|].
    edestruct (replace_view_wf log m c0 base tail (LogletConfig_new (lc_index tail + 1) provider params)
      (mkView (c0 ++ [(base, tail)]) idx md) v2)
      as [? Hc]; [done|by apply Hnew|left; simpl; lia|by auto| |by split].
    intros. rewrite Hhas, Hhas1. simpl. tauto.
Qed.

Lemma seal_ok log m tail_lsn metadata v v' r :
  chain_wf (cb_chain v) → seal log tail_lsn metadata v = (v', r) → call_ok log m v v' r.
Proof.
  intros Hwf Hseal. destruct v as [c idx md]. simpl in *.
  destruct (chain_wf_last c Hwf) as (c0 & key & tail & -> & Hlast).
  pose proof Hwf as (_ & _ & Htok & _)%chain_wf_snoc.
  unfold seal in Hseal. rewrite sm_bind_gets in Hseal. cbn [cb_chain] in Hseal.
  rewrite (sm_bind_expecting _ _ _ _ Hlast) in Hseal.
  destruct (is_seal_marker (lc_kind tail)) eqn:Hk; [injection Hseal as <- <-; by split_and!|].
  destruct (LogletConfig_new_sealed (lc_index tail) metadata) as [mk|] eqn:Hmk.
  - assert (lc_index mk = lc_index tail ∧ lc_kind mk = IkSealed) as [Hmi Hmkk].
    { unfold LogletConfig_new_sealed in Hmk. apply bind_Some in Hmk as (? & _ & [= <-]). done. }
    assert (∀ b, entry_ok (b, mk)) as Hok.
    { intros b. destruct Htok. split; simpl in *; [by rewrite Hmi|by rewrite Hmkk]. }
    assert (∀ b s lid, ¬ chain_has [(b, mk)] s lid) as Hno.
    { intros b s lid (? & _)%chain_has_single. congruence. }
    destruct (Z.ltb_spec key tail_lsn) as [Hlt|Hge].
    + unfold serde at 1 in Hseal. injection Hseal as <- <-. split; [done|].
      edestruct (extend_view_wf log m c0 key tail tail_lsn mk (mkView (c0 ++ [(key, tail)]) idx md)
        (mkView (c0 ++ [(key, tail)]) idx md)) as [? Hc];
        [done|by apply Hok|done|done|right; by rewrite Hmi, Hmkk|done| |by split]. naive_solver.
    + destruct (Z.eqb_spec key tail_lsn) as [->|]; [|injection Hseal as <- <-; by split_and!].
      apply sm_bind_spec in Hseal as [(v1 & [] & Hrm & Hseal)|[(e & Hrm & ->)|(Hrm & ->)]];
        apply (unindex_replaced_spec _ _ _ _ _ _ Htok) in Hrm as (Hr & _ & Hok1 & Hhas1);
        simplify_eq.
      unfold serde at 1 in Hseal. injection Hseal as <- <-. split; [done|].
      edestruct (replace_view_wf log m c0 tail_lsn tail mk (mkView (c0 ++ [(tail_lsn, tail)]) idx md) v1)
        as [? Hc]; [done|by apply Hok|right; by rewrite Hmi, Hmkk|done| |by split].
      intros. rewrite Hhas1. naive_solver.
  - destruct (Z.ltb_spec key tail_lsn); [injection Hseal as <- <-; by split_and!|].
    destruct (Z.eqb_spec key tail_lsn) as [->|]; [|injection Hseal as <- <-; by split_and!].
    apply sm_bind_spec in Hseal as [(v1 & [] & Hrm & Hseal)|[(e & Hrm & ->)|(Hrm & ->)]];
      apply (unindex_replaced_spec _ _ _ _ _ _ Htok) in Hrm as (Hr & Hc1 & _); simplify_eq.
    injection Hseal as <- <-. simpl in Hc1. rewrite <- Hc1 in Hwf. by split_and!.
Qed.

Lemma rm_references_loop_spec log segs : ∀ v,
  Forall entry_ok segs → ∃ v',
  rm_references_loop log segs v = (v', Ok tt) ∧ cb_chain v' = cb_chain v ∧
  cb_modified v' = cb_modified v ∧
  (idx_ok (cb_index v) → idx_ok (cb_index v')) ∧
  ∀ l s lid, idx_has (cb_index v') l s lid ↔
    idx_has (cb_index v) l s lid ∧ ¬ (l = log ∧ chain_has segs s lid).
Proof.
  induction segs as [|[k lc] segs IH]; intros v Hok; cbn [rm_references_loop].
  { exists v. split_and!; [done..|]. intros. pose proof (chain_has_nil s lid). naive_solver. }
  apply Forall_cons in Hok as [[_ Hk] Hok].
  setoid_rewrite chain_has_cons. setoid_rewrite chain_has_single.
  destruct (kind_eq PkReplicated (lc_kind lc)) eqn:Hr; unfold sm_when.
  - apply kind_eq_replicated in Hr. destruct (Hk Hr) as [p Hp]. simpl in Hp. rewrite Hp.
    edestruct IH as (v' & Hv' & Hc & Hm & Hi & Hhas); [done|].
    exists v'. split_and!; [exact Hv'|done|done|intros; by apply Hi, rm_ok|].
    intros. rewrite Hhas. simpl. rewrite rm_has. naive_solver.
  - edestruct IH as (v' & Hv' & Hc & Hm & Hi & Hhas); [done|].
    exists v'. split_and!; [exact Hv'|done|done|done|].
    intros. rewrite Hhas. rewrite <- kind_eq_replicated. naive_solver congruence.
Qed.

(** The two halves of a chain have no segment in common. *)
Lemma chain_has_disjoint (c1 c2 : Chain) s lid lid' :
  StronglySorted entry_before (c1 ++ c2) → chain_has c1 s lid → ¬ chain_has c2 s lid'.
Proof.
  intros [Hb _]%StronglySorted_app (x & p & Hx & Hkx & Hix & _) (y & q & Hy & Hky & Hiy & _).
  destruct (Hb x y Hx Hy) as (_ & _ & [?|[_ Hs]]); [lia|]. by rewrite Hky in Hs.
Qed.

(** What [trim_prefix] does on a well-formed view. *)
Lemma trim_prefix_eval log m until v :
  chain_wf (cb_chain v) →
  (trim_prefix log until v = (v, Ok tt) ∧
   ∃ e c2, cb_chain v = e :: c2 ∧ Z.max until Lsn_OLDEST < e.1) ∨
  ∃ c1 e c2 v', cb_chain v = c1 ++ e :: c2 ∧ e.1 ≤ Z.max until Lsn_OLDEST ∧
    (∀ t, fst <$> head c2 = Some t → Z.max until Lsn_OLDEST < t) ∧
    trim_prefix log until v = (v', Ok tt) ∧ cb_chain v' = e :: c2 ∧
    cb_modified v' = match c1 with [] => cb_modified v | _ => true end ∧ chain_wf (cb_chain v') ∧
    (index_consistent (<[log := cb_chain v]> m) (cb_index v) →
     index_consistent (<[log := cb_chain v']> m) (cb_index v')).
Proof.
  intros Hwf. pose proof (chain_wf_bt _ Hwf) as Hbt. pose proof Hwf as (Hne & Hs & Hok).
  unfold trim_prefix. rewrite sm_bind_gets.
  destruct (find_segment_for_lsn_inv _ until Hbt Hne)
    as [(c1 & e & c2 & E & He & Ht & Hf)|(e & c2 & E & He & Hf)]; [right|left; split; [|eauto]].
  2: by rewrite (sm_bind_expecting _ _ _ _ Hf).
  rewrite (sm_bind_expecting _ _ _ _ Hf). cbn [base_lsn].
  destruct v as [c idx md]. cbn [cb_chain cb_index cb_modified] in *. subst c.
  destruct e as [ke le]. cbn [fst snd] in *. rewrite bt_split_off_at by done.
  pose proof Hs as (_ & _ & Hs2)%StronglySorted_app.
  apply Forall_app in Hok as [Hok1 Hok2].
  assert (chain_wf ((ke, le) :: c2)) as Hwf2 by (by split_and!).
  destruct (bool_decide_reflect (c1 = [])) as [->|Hc1].
  { exists [], (ke, le), c2, (mkView ((ke, le) :: c2) idx md). by split_and!. }
  destruct (rm_references_loop_spec log c1 (mkView c1 idx true) Hok1)
    as (v1 & Hv1 & Hch & Hmd & Hi & Hhas).
  exists c1, (ke, le), c2, (set_chain ((ke, le) :: c2) v1). cbn [negb].
  split_and!; [done|done|done| |done|by destruct c1|done|].
  - unfold sm_when, sm_bind, sm_modify at 1 2. unfold set_chain, set_modified at 1. simpl.
    unfold set_chain, set_modified. simpl. by rewrite Hv1.
  - simpl. intros Hc. eapply index_update; [done|done|intros; rewrite Hhas; naive_solver|].
    intros s lid Hl. rewrite Hhas. simpl. rewrite Hl, chain_has_app.
    pose proof (chain_has_disjoint _ _ s lid lid Hs). naive_solver.
Qed.

Lemma trim_prefix_ok log m until v v' r :
  chain_wf (cb_chain v) → trim_prefix log until v = (v', r) → call_ok log m v v' r.
Proof.
  intros Hwf Ht. destruct (trim_prefix_eval log m until v Hwf)
    as [[Ht' _]|(?&?&?&?&?&?&?&Ht'&?&?&?&?)]; rewrite Ht' in Ht; simplify_eq; by split_and!.
Qed.

(** The loop of [add_log] reads the parameters of every replicated segment, or stops
    at the first that it cannot read. *)
Lemma add_log_loop_spec log segs : ∀ b, ∃ idx r,
  add_log_loop log segs b = (set_index idx b, r) ∧
  (r = Err ParamsSerde ∨
   (r = Ok tt ∧
    (∀ e, e ∈ segs → lc_kind e.2 = IkReplicated → is_Some (params_from_slice (lc_params e.2))) ∧
    (idx_ok (lookup_index (lb_inner b)) → idx_ok idx) ∧
    ∀ l s lid, idx_has idx l s lid ↔
      idx_has (lookup_index (lb_inner b)) l s lid ∨ (l = log ∧ chain_has segs s lid))).
Proof.
  induction segs as [|[k lc] segs IH]; intros b; cbn [add_log_loop].
  { exists (lookup_index (lb_inner b)), (Ok tt). split; [by destruct b as [[] ? ?]|]. right.
    split_and!; [done|by intros e ?%elem_of_nil|done|].
    intros. pose proof (chain_has_nil s lid). naive_solver. }
  setoid_rewrite chain_has_cons. setoid_rewrite chain_has_single. setoid_rewrite elem_of_cons.
  destruct (kind_eq PkReplicated (lc_kind lc)) eqn:Hr; unfold sm_when.
  - apply kind_eq_replicated in Hr. destruct (params_from_slice (lc_params lc)) as [p|] eqn:Hp.
    + edestruct (IH (set_index (add_replicated_loglet (lookup_index (lb_inner b)) log (lc_index lc) p) b))
        as (idx & r & Hv' & Hcase). exists idx, r. split; [exact Hv'|].
      destruct Hcase as [?|(-> & Hall & Hi & Hhas)]; [by left|right].
      split_and!; [done| |intros; by apply Hi, add_ok|].
      * intros e [->|He] Hk; [simpl; by rewrite Hp|by apply Hall].
      * intros. rewrite Hhas. simpl. rewrite add_has. naive_solver.
    + exists (lookup_index (lb_inner b)), (Err ParamsSerde). split; [by destruct b as [[] ? ?]|by left].
  - destruct (IH b) as (idx & r & Hv' & Hcase). exists idx, r. split; [exact Hv'|].
    destruct Hcase as [?|(-> & Hall & Hi & Hhas)]; [by left|right]. split_and!; [done| |done|].
    + intros e [->|He] Hk; [|by apply Hall]. simpl in Hk. by apply kind_eq_replicated in Hk; congruence.
    + intros. rewrite Hhas. rewrite <- kind_eq_replicated. naive_solver congruence.
Qed.

(** The chains of the metadata. *)
Definition chains_wf (b : LogsBuilder) : Prop :=
  ∀ log c, logs_map (lb_inner b) !! log = Some c → chain_wf c.
Definition index_agrees (b : LogsBuilder) : Prop :=
  index_consistent (logs_map (lb_inner b)) (lookup_index (lb_inner b)).

(** What the type of chains guarantees of a chain that is added: segments, sorted,
    with growing indices and at most one seal marker, at the end.  Whether the
    parameters can be read is for [add_log] to find out. *)
Definition chain_shape (c : Chain) : Prop :=
  c ≠ [] ∧ StronglySorted entry_before c ∧ Forall (λ e, 0 ≤ lc_index e.2 ≤ u32_max) c.

(** ** Sequences of calls *)

Inductive BuilderCall :=
| CallAddLog (log : Z) (c : Chain)
| CallTrimPrefix (log until : Z)
| CallAppendSegment (log base : Z) (provider : ProviderKind) (params : string)
| CallSeal (log tail : Z) (metadata : SealMetadata)
| CallSetConfiguration (cfg : LogsConfiguration)
| CallSetVersion (version : Z).

Definition as_unit {A} (r : res BuilderError A) : res BuilderError unit :=
  match r with Ok _ => Ok tt | Err e => Err e | Panic => Panic end.

(** A call on a log that does not exist does nothing: [chain] returns [None]. *)
Definition on_chain {A} (log : Z) (op : CB A) (b : LogsBuilder) : LogsBuilder * res BuilderError unit :=
  match with_chain log op b with Some (b', r) => (b', as_unit r) | None => (b, Ok tt) end.

Definition builder_call (c : BuilderCall) (b : LogsBuilder) : LogsBuilder * res BuilderError unit :=
  match c with
  | CallAddLog log c => add_log log c b
  | CallTrimPrefix log until => on_chain log (trim_prefix log until) b
  | CallAppendSegment log base provider params =>
      on_chain log (append_segment log base provider params) b
  | CallSeal log tail metadata => on_chain log (seal log tail metadata) b
  | CallSetConfiguration cfg => (set_configuration cfg b, Ok tt)
  | CallSetVersion version => (set_version version b, Ok tt)
  end.

(** The builder after the calls, and what each call returned. *)
Fixpoint builder_run (cs : list BuilderCall) (b : LogsBuilder)
    : LogsBuilder * list (res BuilderError unit) :=
  match cs with
  | [] => (b, [])
  | c :: cs => let '(b, r) := builder_call c b in
               let '(b, rs) := builder_run cs b in (b, r :: rs)
  end.

(** An added chain has the shape of a chain, and no segment is appended behind the
    last segment index, which would wrap around. *)
Definition call_allowed (c : BuilderCall) (b : LogsBuilder) : Prop :=
  match c with
  | CallAddLog _ c => chain_shape c
  | CallAppendSegment log _ _ _ =>
      ∀ c i, logs_map (lb_inner b) !! log = Some c → tail_index c = Some i → i < u32_max
  | _ => True
  end.
Fixpoint calls_allowed (cs : list BuilderCall) (b : LogsBuilder) : Prop :=
  match cs with
  | [] => True
  | c :: cs => call_allowed c b ∧ calls_allowed cs (builder_call c b).1
  end.

Lemma add_log_ok log c b b' r :
  chains_wf b → chain_shape c → add_log log c b = (b', r) →
  r ≠ Panic ∧ chains_wf b' ∧ (r ≠ Err ParamsSerde → index_agrees b → index_agrees b').
Proof.
  intros Hch (Hne & Hs & Hb). unfold add_log. rewrite sm_bind_gets.
  destruct (bool_decide_reflect (is_Some (logs_map (lb_inner b) !! log))) as [?|Hnone];
    [by intros [= <- <-]|].
  destruct (add_log_loop_spec log c b) as (idx & rl & Hl & Hcase).
  unfold sm_bind at 1. rewrite Hl. destruct Hcase as [->|(-> & Hall & Hok & Hhas)].
  { intros [= <- <-]. by split_and!. }
  unfold sm_bind at 1, sm_modify. rewrite sm_bind_gets. simpl.
  rewrite (sm_bind_expecting _ c) by apply lookup_insert_eq. intros [= <- <-].
  split_and!; [done| |].
  - intros l c' Hl'. simpl in Hl'. apply lookup_insert_Some in Hl' as [[<- <-]|[_ ?]]; [|by eapply Hch].
    split_and!; [done..|]. rewrite Forall_forall in Hb |- *. intros e He. split; [by apply Hb|by apply Hall].
  - intros _ [Hok0 Hc]. apply eq_None_not_Some in Hnone.
    apply index_consistent_insert. split; [by apply Hok|]. intros l s lid. rewrite Hhas, Hc.
    naive_solver congruence.
Qed.

Lemma on_chain_ok {A} log (op : CB A) b b' r :
  (∀ c m v v' r, logs_map (lb_inner b) !! log = Some c → cb_chain v = c → chain_wf c →
     op v = (v', r) → call_ok log m v v' r) →
  chains_wf b → on_chain log op b = (b', r) →
  r ≠ Panic ∧ chains_wf b' ∧ (r ≠ Err ParamsSerde → index_agrees b → index_agrees b').
Proof.
  intros Hop Hch. unfold on_chain, with_chain.
  destruct (logs_map (lb_inner b) !! log) as [c|] eqn:E; [|by intros [= <- <-]].
  destruct (op _) as [v' r'] eqn:Eop. intros [= <- <-].
  apply (Hop c (logs_map (lb_inner b))) in Eop as (Hp & Hwf & Hi); [|done|done|by eapply Hch].
  split_and!; [by destruct r'| |].
  - intros l c' Hl'. simpl in Hl'. apply lookup_insert_Some in Hl' as [[<- <-]|[_ ?]]; [done|by eapply Hch].
  - intros Hr Hb. apply Hi; [destruct r'; simpl in Hr; congruence|]. simpl. by rewrite insert_id.
Qed.

Lemma builder_call_ok c b b' r :
  chains_wf b → call_allowed c b → builder_call c b = (b', r) →
  r ≠ Panic ∧ chains_wf b' ∧ (r ≠ Err ParamsSerde → index_agrees b → index_agrees b').
Proof.
  intros Hch Hal. destruct c as [log c|log until|log base p ps|log t md|cfg|n]; simpl in *.
  - by apply add_log_ok.
  - apply on_chain_ok; [|done]. intros c m v v' r' _ <- Hwf. by apply trim_prefix_ok.
  - apply on_chain_ok; [|done]. intros c m v v' r' Hl <- Hwf. apply append_segment_ok; [done|].
    intros i. by apply Hal.
  - apply on_chain_ok; [|done]. intros c m v v' r' _ <- Hwf. by apply seal_ok.
  - intros [= <- <-]. unfold set_configuration. by case_bool_decide.
  - by intros [= <- <-].
Qed.

Lemma builder_run_ok cs : ∀ b, chains_wf b → calls_allowed cs b →
  let '(b', rs) := builder_run cs b in
  chains_wf b' ∧ Panic ∉ rs ∧ (Err ParamsSerde ∉ rs → index_agrees b → index_agrees b').
Proof.
  induction cs as [|c cs IH]; intros b Hch Hal; simpl; [by split_and!; [|set_solver|]|].
  destruct Hal as [Hc Hal]. destruct (builder_call c b) as [b1 r] eqn:E. simpl in Hal.
  destruct (builder_call_ok c b b1 r Hch Hc E) as (Hp & Hch1 & Hi). specialize (IH b1 Hch1 Hal).
  destruct (builder_run cs b1) as [b' rs]. destruct IH as (H1 & H2 & H3).
  split_and!; [done|rewrite not_elem_of_cons; split; [congruence|done]|].
  intros [? ?]%not_elem_of_cons Hb. apply H3; [done|]. apply Hi; [congruence|done].
Qed.
End Builder.

(** C23. The invariant of the log metadata.  Whatever sequence of calls edits the
    builder, whether they succeed or fail, no call panics, and every chain stays
    non-empty, sorted by base offset, with growing segment indices, at most one seal
    marker, at its end, and parameters that can be read; so it is in the metadata that
    is built.  Until a call fails on parameters that cannot be read, the lookup index
    holds exactly the replicated segments of the chains.  Assumed are chains to add
    that are sorted in this way, and that no chain uses up its segment indices. *)
Theorem builder_preserves_logs_wf `{JsonCodec} (cs : list BuilderCall) (b : LogsBuilder) :
  logs_wf (lb_inner b) → calls_allowed cs b →
  let '(b', rs) := builder_run cs b in
  Panic ∉ rs ∧
  (∀ log c, logs_map (build b') !! log = Some c → chain_wf c) ∧
  (Err ParamsSerde ∉ rs → index_consistent (logs_map (build b')) (lookup_index (build b'))).
Proof.
  intros [Hch Hi] Hal. pose proof (builder_run_ok cs b Hch Hal) as Hr.
  destruct (builder_run cs b) as [b' rs]. destruct Hr as (H1 & H2 & H3). split_and!; [done..|].
  intros Hn. by apply H3.
Qed.

(** Trimming.  [trim_prefix] on a well-formed chain always succeeds, keeps
    the tail segment, does not change the lookup of any offset from the trim
    point on, answers a trim gap for every offset below the first segment it
    keeps, and marks the metadata as modified when it removes anything. *)
Theorem trim_prefix_keeps_suffix `{JsonCodec} (log until : Z) m (v v' : ChainView) r :
  view_wf log m v → trim_prefix log until v = (v', r) →
  r = Ok tt ∧
  bt_last_key_value (cb_chain v') = bt_last_key_value (cb_chain v) ∧
  (∀ lsn, until ≤ lsn →
     find_segment_for_lsn (cb_chain v') lsn = find_segment_for_lsn (cb_chain v) lsn) ∧
  (∀ s, chain_head (cb_chain v') = Some s → ∀ lsn, Z.max lsn Lsn_OLDEST < base_lsn s →
     find_segment_for_lsn (cb_chain v') lsn = Some (SegmentTrim (base_lsn s))) ∧
  (cb_chain v' ≠ cb_chain v → cb_modified v' = true).
Proof.
  intros Hv Ht.
  assert (r = Ok tt ∧ view_wf log m v' ∧ ∃ c1, cb_chain v = c1 ++ cb_chain v' ∧
    (c1 ≠ [] → cb_modified v' = true) ∧
    (c1 = [] ∨ ∃ e c2, cb_chain v' = e :: c2 ∧ e.1 ≤ Z.max until Lsn_OLDEST))
    as (-> & Hv' & c1 & Hc & Hmd & Hfirst).
  { destruct (trim_prefix_eval log m until v (proj1 Hv))
      as [[Ht' _]|(c1&e&c2&v1&Hc&He&_&Ht'&Hc'&Hmd&Hv1&Hi1)]; rewrite Ht' in Ht; simplify_eq.
    - split_and!; [done..|]. exists []. split_and!; [done..|by left].
    - split_and!; [done|split; [done|by apply Hi1, Hv]|]. exists c1. rewrite Hc'. split_and!; [done|by destruct c1|eauto]. }
  pose proof (chain_wf_bt _ (proj1 Hv')) as Hbt'. pose proof (chain_wf_bt _ (proj1 Hv)) as Hbt.
  pose proof Hv' as [(Hne & _) _]. split_and!; [done|..].
  - rewrite Hc. unfold bt_last_key_value. rewrite last_app.
    destruct (last (cb_chain v')) eqn:E; [done|]. by apply last_None in E.
  - intros lsn Hlsn. destruct Hfirst as [->|(e & c2 & E & He)]; [by rewrite Hc|].
    rewrite Hc in Hbt |- *.
    destruct (find_segment_for_lsn_inv _ lsn Hbt' Hne)
      as [(d1 & x & d2 & Ed & ? & ? & ->)|(x & d2 & Ed & Hx & _)].
    + rewrite Ed, app_assoc. rewrite Ed, app_assoc in Hbt.
      by rewrite find_segment_for_lsn_split.
    + rewrite E in Ed. simplify_eq. lia.
  - intros s Hs lsn Hlsn. by apply (find_segment_for_lsn_spec _ lsn Hbt' Hne); rewrite Hs.
  - intros Hch. apply Hmd. intros ->. by rewrite Hc in Hch.
Qed.

(** A call on one chain, whatever its result. *)
Inductive chain_call `{JsonCodec} (log : Z) (v v' : ChainView) : Prop :=
| call_trim until r : trim_prefix log until v = (v', r) → chain_call log v v'
| call_append base provider params r :
    append_segment log base provider params v = (v', r) → chain_call log v v'
| call_seal tail metadata r : seal log tail metadata v = (v', r) → chain_call log v v'.

Section Sealed.
Context `{J : JsonCodec}.

(** The chain ends, at [t], in a permanent seal. *)
Definition permanently_sealed (log : Z) m (t : Z) (v : ChainView) : Prop :=
  view_wf log m v ∧ ∃ marker md, bt_last_key_value (cb_chain v) = Some (t, marker) ∧
    lc_kind marker = IkSealed ∧ seal_from_slice (lc_params marker) = Some md ∧
    sm_permanent_seal md = true.

Lemma permanently_sealed_append log m t v base p ps :
  permanently_sealed log m t v →
  append_segment log base p ps v = (v, Err (ChainPermanentlySealed log)).
Proof.
  intros (_ & marker & md & Hl & Hk & Hmd & Hp). unfold append_segment.
  rewrite sm_bind_gets, (sm_bind_expecting _ _ _ _ Hl). unfold sm_bind at 1, check_seal_marker.
  rewrite Hk. simpl. unfold sm_bind, serde, sm_lift. rewrite Hmd, Hp. done.
Qed.

Lemma permanently_sealed_seal log m t v tl md :
  permanently_sealed log m t v → seal log tl md v = (set_modified false v, Ok t).
Proof.
  intros (_ & marker & md' & Hl & Hk & _). unfold seal.
  rewrite sm_bind_gets, (sm_bind_expecting _ _ _ _ Hl). by rewrite Hk.
Qed.

Lemma permanently_sealed_call log m t v v' :
  chain_call log v v' → permanently_sealed log m t v → permanently_sealed log m t v'.
Proof.
  intros [until r Ht|base p ps r Ha|tl md r Hs] Hps.
  - pose proof Hps as (Hv & marker & md & Hl & Hrest).
    destruct (trim_prefix_eval log m until v (proj1 Hv))
      as [[Ht' _]|(c1&e&c2&v1&Hc&He&_&Ht'&Hc'&Hmd&Hv1&Hi1)]; rewrite Ht' in Ht; simplify_eq; [done|].
    split; [split; [done|by apply Hi1, Hv]|]. exists marker, md. split; [|done]. rewrite Hc'. rewrite Hc in Hl.
    unfold bt_last_key_value in *. rewrite last_app in Hl.
    by destruct (last (e :: c2)) eqn:El; [|apply last_None in El].
  - by erewrite permanently_sealed_append in Ha by done; simplify_eq.
  - erewrite permanently_sealed_seal in Hs by done. simplify_eq. by destruct Hps.
Qed.

(** A successful seal of an open chain ends it in a marker with the metadata. *)
Lemma seal_last `{!JsonCodecLaws J} log m v v' t t' md :
  view_wf log m v → chain_is_sealed (cb_chain v) = false →
  seal log t md v = (v', Ok t') →
  t' = t ∧ ∃ marker, bt_last_key_value (cb_chain v') = Some (t, marker) ∧
    lc_kind marker = IkSealed ∧ seal_from_slice (lc_params marker) = Some md.
Proof.
  intros [Hwf Hc] Hopen Hseal. destruct v as [c idx b]. simpl in *.
  destruct (chain_wf_last c Hwf) as (c0 & key & tail & -> & Hlast).
  pose proof (chain_wf_bt _ Hwf) as Hbt.
  unfold seal in Hseal. rewrite sm_bind_gets in Hseal. cbn [cb_chain] in Hseal.
  rewrite (sm_bind_expecting _ _ _ _ Hlast) in Hseal.
  unfold chain_is_sealed, sealed_tail in Hopen. rewrite Hlast in Hopen.
  destruct (is_seal_marker (lc_kind tail)); [by rewrite bool_decide_eq_false in Hopen; destruct Hopen|].
  assert (∀ mk, LogletConfig_new_sealed (lc_index tail) md = Some mk →
    lc_kind mk = IkSealed ∧ seal_from_slice (lc_params mk) = Some md) as Hmk.
  { intros mk (s & Hs%seal_roundtrip & [= <-])%bind_Some. done. }
  destruct (LogletConfig_new_sealed (lc_index tail) md) as [mk|].
  - destruct (Z.ltb_spec key t) as [Hlt|Hge].
    + injection Hseal as <- <-. split; [done|]. exists mk. split; [|by apply Hmk]. simpl.
      rewrite bt_insert_above; [apply last_snoc|].
      intros e [He|He]%elem_of_app; [|by apply list_elem_of_singleton in He as ->].
      apply bt_wf_snoc in Hbt as [_ Hk]. specialize (Hk e He). lia.
    + destruct (Z.eqb_spec key t) as [->|]; [|done].
      apply sm_bind_spec in Hseal as [(v1 & [] & Hrm & Hseal)|[(e & Hrm & ?)|(Hrm & ?)]];
        [|done|done].
      injection Hseal as <- <-. split; [done|]. exists mk. split; [|by apply Hmk]. simpl.
      rewrite bt_insert_last by done. apply last_snoc.
  - destruct (Z.ltb_spec key t); [done|]. destruct (Z.eqb_spec key t); [|done].
    by apply sm_bind_spec in Hseal as [(v1 & [] & Hrm & Hseal)|[(er & Hrm & ?)|(Hrm & ?)]].
Qed.
End Sealed.

(** C31. A permanent seal is final.  Once an open chain has been sealed with
    permanent metadata at [t], any further calls on it, trims and seals
    included, leave it sealed at [t], and every attempt to append a segment is
    refused and changes nothing. *)
Theorem permanent_seal_is_final `{J : JsonCodec, !JsonCodecLaws J} (log t t' : Z) m md
    (v v1 v2 : ChainView) :
  view_wf log m v → chain_is_sealed (cb_chain v) = false →
  sm_permanent_seal md = true → seal log t md v = (v1, Ok t') →
  rtc (chain_call log) v1 v2 →
  sealed_tail (cb_chain v2) = Some t ∧
  ∀ base p ps, append_segment log base p ps v2 = (v2, Err (ChainPermanentlySealed log)).
Proof.
  intros Hv Hopen Hp Hseal Hcalls.
  assert (permanently_sealed log m t v1) as Hps.
  { split; [by eapply call_ok_view; [eapply seal_ok; [apply Hv|done]|..]|].
    destruct (seal_last _ _ _ _ _ _ _ Hv Hopen Hseal) as (-> & mk & ? & ? & ?). by exists mk, md. }
  clear Hseal. induction Hcalls as [v1|v1 v2 v3 Hcall _ IH].
  - split; [|intros; by eapply permanently_sealed_append].
    destruct Hps as (_ & mk & md' & Hl & Hk & _). unfold sealed_tail. by rewrite Hl, Hk.
  - apply IH. by eapply permanently_sealed_call.
Qed.

(** Sealing a sealed chain forgets earlier edits.  The call succeeds and
    changes no metadata, but it clears the modification flag: whatever was
    edited before on the same builder, [build_if_modified] then returns
    nothing. *)
Theorem reseal_discards_modified_flag `{JsonCodec} (b : LogsBuilder) log t md c tl :
  logs_map (lb_inner b) !! log = Some c → sealed_tail c = Some tl →
  ∃ b', with_chain log (seal log t md) b = Some (b', Ok tl) ∧
    lb_inner b' = lb_inner b ∧ build_if_modified b' = None.
Proof.
  intros Hl Hs. unfold with_chain. rewrite Hl. unfold seal. rewrite sm_bind_gets. cbn [cb_chain].
  unfold sealed_tail in Hs. destruct (bt_last_key_value c) as [[key tail]|] eqn:Hlast; [|done].
  rewrite (sm_bind_expecting _ _ _ _ eq_refl).
  destruct (is_seal_marker (lc_kind tail)); simplify_eq. eexists. split; [done|]. simpl.
  rewrite insert_id by done. split; [by destruct b as [[] ? ?]|done].
Qed.

(** ** Instances *)

Section Demo.
#[local] Existing Instance demo_codec.
#[local] Existing Instance demo_codec_laws.

Definition demo_open_chain : Chain :=
  [(1, mkLC IkReplicated "a" 0 None); (10, mkLC IkReplicated "bb" 1 None)].

(** Log 7 ends in a temporary seal, log 8 is open. *)
Definition demo_index : LookupIndex :=
  Eval vm_compute in
    match from_serde_loop [(7, demo_chain); (8, demo_open_chain)] ∅ ∅ None with
    | Some (_, idx, _) => idx
    | None => ∅
    end.

Definition demo_builder : LogsBuilder :=
  mkLB (mkLogs 3 (list_to_map [(7, demo_chain); (8, demo_open_chain)]) demo_index PcLocal None)
    false 0.

Lemma demo_open_chain_wf : chain_wf demo_open_chain.
Proof.
  apply (chain_wf_snoc [(1, mkLC IkReplicated "a" 0 None)]). split_and!.
  - apply SSorted_cons; [apply SSorted_nil|apply Forall_nil_2].
  - apply Forall_cons_2; [|apply Forall_nil_2]. split; simpl; [lia|intros; eauto; done].
  - split; simpl; [lia|intros; eauto; done].
  - intros x ->%list_elem_of_singleton. unfold entry_before. simpl. auto with lia.
Qed.

Lemma demo_builder_wf : logs_wf (lb_inner demo_builder).
Proof.
  split.
  - intros log c. simpl. rewrite !lookup_insert_Some, lookup_empty.
    intros [[_ <-]|[_ [[_ <-]|[_ ?]]]]; [apply demo_chain_wf|apply demo_open_chain_wf|done].
  - edestruct (from_serde_loop_spec [(7, demo_chain); (8, demo_open_chain)] ∅ ∅ None) as [Hc Hm];
      [reflexivity| |done|apply index_consistent_empty|].
    + simpl. apply NoDup_cons. split; [|apply NoDup_singleton]. set_solver.
    + exact Hc.
Qed.

Definition demo_view : ChainView := mkView demo_open_chain demo_index false.

Lemma demo_view_wf : view_wf 8 (logs_map (lb_inner demo_builder)) demo_view.
Proof.
  split; [apply demo_open_chain_wf|].
  rewrite insert_id by reflexivity. apply demo_builder_wf.
Qed.

(** The sealed log is reopened by an append at the sealed tail and trimmed; a new log
    is added, and a segment with unreadable parameters is refused. *)
Definition demo_calls : list BuilderCall :=
  [CallAppendSegment 7 20 PkReplicated "ccc"; CallTrimPrefix 7 15; CallAddLog 9 demo_open_chain;
   CallAppendSegment 8 10 PkReplicated ""].

Lemma builder_preserves_logs_wf_witness :
  (builder_run demo_calls demo_builder).2 = [Ok tt; Ok tt; Ok tt; Err ParamsSerde] ∧
  (let '(b', rs) := builder_run demo_calls demo_builder in
   Panic ∉ rs ∧
   (∀ log c, logs_map (build b') !! log = Some c → chain_wf c) ∧
   (Err ParamsSerde ∉ rs → index_consistent (logs_map (build b')) (lookup_index (build b')))).
Proof.
  split; [vm_compute; reflexivity|].
  apply (builder_preserves_logs_wf demo_calls demo_builder); [apply demo_builder_wf|].
  split; [|split; [exact I|split; [|split; [|exact I]]]].
  - intros c i Hc Hi. vm_compute in Hc. injection Hc as <-. vm_compute in Hi. injection Hi as <-.
    reflexivity.
  - destruct demo_open_chain_wf as (H1 & H2 & _). split; [exact H1|split; [exact H2|]].
    repeat constructor; vm_compute; discriminate.
  - intros c i Hc Hi. vm_compute in Hc. injection Hc as <-. vm_compute in Hi. injection Hi as <-.
    reflexivity.
Defined.

Lemma trim_prefix_keeps_suffix_witness :
  ∃ v', trim_prefix 8 12 demo_view = (v', Ok tt) ∧
    find_segment_for_lsn (cb_chain v') 12 = find_segment_for_lsn demo_open_chain 12 ∧
    find_segment_for_lsn (cb_chain v') 5 = Some (SegmentTrim 10).
Proof.
  eexists. split; [reflexivity|].
  destruct (trim_prefix_keeps_suffix 8 12 (logs_map (lb_inner demo_builder)) demo_view _ (Ok tt)
    demo_view_wf eq_refl) as (_ & _ & H1 & H2 & _).
  split; [apply (H1 12); lia|apply (H2 _ eq_refl 5); reflexivity].
Defined.

Lemma permanent_seal_is_final_witness :
  ∃ v1 v2, seal 8 30 (demo_seal true) demo_view = (v1, Ok 30) ∧
    seal 8 40 (demo_seal false) v1 = (v2, Ok 30) ∧ sealed_tail (cb_chain v2) = Some 30.
Proof.
  eexists _, _. split; [reflexivity|split; [reflexivity|]].
  eapply (permanent_seal_is_final 8 30 30 (logs_map (lb_inner demo_builder)) (demo_seal true)
    demo_view); [apply demo_view_wf|reflexivity|reflexivity|reflexivity|].
  apply rtc_once. eapply (call_seal _ _ _ 40 (demo_seal false)). reflexivity.
Defined.

(** The configuration is edited, then an already sealed log is sealed again. *)
Lemma reseal_discards_modified_flag_witness :
  let b := set_configuration PcInMemory demo_builder in
  lb_modified b = true ∧
  ∃ b', with_chain 7 (seal 7 25 (demo_seal false)) b = Some (b', Ok 20) ∧
    lb_inner b' = lb_inner b ∧ build_if_modified b' = None.
Proof.
  split; [reflexivity|].
  apply (reseal_discards_modified_flag (set_configuration PcInMemory demo_builder) 7 25
    (demo_seal false) demo_chain 20); reflexivity.
Defined.

(** An append that replaces an empty tail segment and fails to read the new
    parameters has already dropped the old segment from the index. *)
Example failed_append_drops_index_entry :
  let '(v', r) := append_segment 8 10 PkReplicated "" demo_view in
  r = Err ParamsSerde ∧ cb_chain v' = cb_chain demo_view ∧
  (8, 1) ∈ default [] (references <$> cb_index demo_view !! 2) ∧
  (8, 1) ∉ default [] (references <$> cb_index v' !! 2).
Proof. vm_compute. split_and!; [done|done|set_solver|set_solver]. Qed.
End Demo.
