(* ===== verification/NodesConfig.v ===== *)
(** * NodesConfig: the nodes configuration

    Models crates/types/src/nodes_config.rs: storage, worker and metadata-server
    states, the map of nodes with its tombstones, and the name lookup kept
    beside it.  Addresses and versions are opaque strings here. *)

From stdpp Require Import strings.
From S2P Require Import Prelude Clock Locality LogChain.
Local Open Scope Z_scope.

(** ** States *)

Inductive StorageState := Provisioning | Disabled | ReadOnly | Gone | ReadWrite | DataLoss.
Inductive MetadataServerState := MsStandby | MsMember | MsProvisioning.
Inductive WorkerState := WsProvisioning | WsActive | WsDraining | WsDisabled.
Inductive Role := HttpIngress | Admin | Worker | LogServer | MetadataServer.

#[export] Instance StorageState_eq_dec : EqDecision StorageState.
Proof. solve_decision. Defined.
#[export] Instance Role_eq_dec : EqDecision Role.
Proof. solve_decision. Defined.
#[export] Instance Role_countable : Countable Role.
Proof.
  refine (inj_countable'
    (λ r, match r with
      | HttpIngress => 0 | Admin => 1 | Worker => 2 | LogServer => 3 | MetadataServer => 4 end%nat)
    (λ n, match n with
      | 0 => HttpIngress | 1 => Admin | 2 => Worker | 3 => LogServer | _ => MetadataServer end%nat) _).
  by intros [].
Defined.

Definition can_write_to (s : StorageState) : bool :=
  match s with
  | Provisioning | Disabled | Gone | DataLoss => false
  | ReadWrite | ReadOnly => true
  end.

Definition should_write_to (s : StorageState) : bool :=
  match s with
  | Provisioning | Disabled | ReadOnly | Gone | DataLoss => false
  | ReadWrite => true
  end.

Definition can_read_from (s : StorageState) : bool :=
  match s with
  | Provisioning | ReadOnly | Gone | ReadWrite | DataLoss => true
  | Disabled => false
  end.

Definition is_authoritative (s : StorageState) : bool :=
  match s with
  | DataLoss => false
  | Disabled | Provisioning | ReadOnly | Gone | ReadWrite => true
  end.

Definition storage_empty (s : StorageState) : bool :=
  match s with Disabled => true | _ => false end.

(** ** MNode ids and configurations *)

(** [GenerationalNodeId(plain, generation)] and [NodeId]. *)
Abbreviation GenerationalNodeId := (Z * Z)%type.

Inductive NodeId :=
| NodePlain (id : Z)
| NodeGenerational (id : GenerationalNodeId).

Definition node_id_id (n : NodeId) : Z :=
  match n with NodePlain id => id | NodeGenerational g => g.1 end.

Definition as_generational (n : NodeId) : option GenerationalNodeId :=
  match n with NodePlain _ => None | NodeGenerational g => Some g end.

Inductive NodesConfigError :=
| UnknownNodeId (n : NodeId)
| Deleted (n : NodeId)
| GenerationMismatch (expected found : NodeId).

Record NodeConfig := mkNode {
  nc_name : string;
  nc_current_generation : GenerationalNodeId;
  nc_address : string;
  nc_ctrl_address : option string;
  nc_roles : gset Role;
  nc_storage_state : StorageState;
  nc_location : NodeLocation;
  nc_metadata_server_state : MetadataServerState;
  nc_worker_state : WorkerState;
  nc_binary_version : option string;
}.

Definition has_role (n : NodeConfig) (r : Role) : bool := bool_decide (r ∈ nc_roles n).

Inductive MaybeNode :=
| Tombstone
| MNode (n : NodeConfig).

Definition is_node (m : MaybeNode) : bool :=
  match m with MNode _ => true | Tombstone => false end.

Record NodesConfiguration := mkNodes {
  nodes_version : Z;
  cluster_name : string;
  cluster_fingerprint : option Z;
  nodes : gmap Z MaybeNode;
  name_lookup : gmap string Z;
  nodes_modified_at : option UniqueTimestamp;
  nodes_features : gset Z;
}.

(** [now] is the wall clock; panics when it cannot be represented. *)
Definition NodesConfiguration_new (version : Z) (name : string) (fingerprint now : Z)
  : option NodesConfiguration :=
  let! t := from_unix_millis_unchecked now in
  Some (mkNodes version name (Some fingerprint) ∅ ∅ (Some t) ∅).

Definition set_nodes (m : gmap Z MaybeNode) (names : gmap string Z) (c : NodesConfiguration)
  : NodesConfiguration :=
  mkNodes (nodes_version c) (cluster_name c) (cluster_fingerprint c) m names
    (nodes_modified_at c) (nodes_features c).

Definition set_features (features : gset Z) (c : NodesConfiguration) : NodesConfiguration :=
  mkNodes (nodes_version c) (cluster_name c) (cluster_fingerprint c) (nodes c) (name_lookup c)
    (nodes_modified_at c) (nodes_features c ∪ features).

Definition increment_version (now : Z) (c : NodesConfiguration) : option NodesConfiguration :=
  let! t := from_unix_millis_unchecked now in
  Some (mkNodes (as_u32 (nodes_version c + 1)) (cluster_name c) (cluster_fingerprint c) (nodes c)
    (name_lookup c) (Some t) (nodes_features c)).

Definition nodes_len (c : NodesConfiguration) : nat := size (name_lookup c).

Definition contains_node (c : NodesConfiguration) (id : Z) : bool :=
  default false (is_node <$> nodes c !! id).

Definition remove_node_unchecked (id : Z) (c : NodesConfiguration) : NodesConfiguration :=
  match nodes c !! id with
  | None => c
  | Some m =>
      let names := match m with
        | MNode n => delete (nc_name n) (name_lookup c)
        | Tombstone => name_lookup c
        end in
      set_nodes (<[id := Tombstone]> (nodes c)) names c
  end.

Definition upsert_node (n : NodeConfig) (c : NodesConfiguration) : NodesConfiguration :=
  let plain_id := (nc_current_generation n).1 in
  let names := match nodes c !! plain_id with
    | Some (MNode existing) => delete (nc_name existing) (name_lookup c)
    | _ => name_lookup c
    end in
  set_nodes (<[plain_id := MNode n]> (nodes c)) (<[nc_name n := plain_id]> names) c.

Definition find_node_by_id (c : NodesConfiguration) (node_id : NodeId)
  : res NodesConfigError NodeConfig :=
  match nodes c !! node_id_id node_id with
  | None => Err (UnknownNodeId node_id)
  | Some Tombstone => Err (Deleted node_id)
  | Some (MNode found) =>
      match as_generational node_id with
      | Some requested =>
          if bool_decide (requested ≠ nc_current_generation found)
          then Err (GenerationMismatch node_id (NodeGenerational (nc_current_generation found)))
          else Ok found
      | None => Ok found
      end
  end.

Definition res_ok {E A} (r : res E A) : option A :=
  match r with Ok a => Some a | _ => None end.

Definition find_node_by_name (c : NodesConfiguration) (name : string) : option NodeConfig :=
  let! id := name_lookup c !! name in
  res_ok (find_node_by_id c (NodePlain id)).

Definition get_log_server_storage_state (c : NodesConfiguration) (id : Z) : StorageState :=
  match nodes c !! id with
  | None => Provisioning
  | Some Tombstone => Disabled
  | Some (MNode found) => nc_storage_state found
  end.

Definition get_metadata_server_state (c : NodesConfiguration) (id : Z) : MetadataServerState :=
  match nodes c !! id with
  | None => MsStandby
  | Some Tombstone => MsStandby
  | Some (MNode found) =>
      if has_role found MetadataServer then nc_metadata_server_state found else MsStandby
  end.

Definition get_worker_state (c : NodesConfiguration) (id : Z) : WorkerState :=
  match nodes c !! id with
  | None => WsProvisioning
  | Some Tombstone => WsDisabled
  | Some (MNode found) => nc_worker_state found
  end.

Definition has_worker_role (c : NodesConfiguration) (id : Z) : bool :=
  match nodes c !! id with Some (MNode n) => has_role n Worker | _ => false end.

(** The iteration order of the map is not specified. *)
Definition nodes_iter (c : NodesConfiguration) : list (Z * NodeConfig) :=
  omap (λ '(k, v), match v with MNode n => Some (k, n) | Tombstone => None end)
    (map_to_list (nodes c)).

Definition iter_role (c : NodesConfiguration) (r : Role) : list (Z * NodeConfig) :=
  omap (λ '(k, v), match v with
    | MNode n => if has_role n r then Some (k, n) else None
    | Tombstone => None end)
    (map_to_list (nodes c)).

Definition max_plain_node_id (c : NodesConfiguration) : option Z :=
  foldr (λ '(k, _) acc, Some (match acc with Some m => Z.max k m | None => k end)) None
    (map_to_list (nodes c)).

Definition nodes_is_valid (c : NodesConfiguration) : bool :=
  negb (nodes_version c =? Version_INVALID).

(** Rejects an update that changes a known cluster fingerprint. *)
Definition validate_update (c : NodesConfiguration) (previous : option NodesConfiguration) : bool :=
  match previous with
  | Some current =>
      match cluster_fingerprint current with
      | Some fp => bool_decide (cluster_fingerprint c = Some fp)
      | None => true
      end
  | None => true
  end.

(** ** Invariant *)

(** The name lookup is exactly the map from the names of the live nodes, and a
    node is stored under its own plain id. *)
Definition nodes_wf (c : NodesConfiguration) : Prop :=
  (∀ name id, name_lookup c !! name = Some id ↔
     ∃ n, nodes c !! id = Some (MNode n) ∧ nc_name n = name) ∧
  (∀ id n, nodes c !! id = Some (MNode n) → (nc_current_generation n).1 = id).

(** No other live node has the name of [n]. *)
Definition name_free (n : NodeConfig) (c : NodesConfiguration) : Prop :=
  ∀ id m, nodes c !! id = Some (MNode m) → id ≠ (nc_current_generation n).1 →
    nc_name m ≠ nc_name n.

(** One edit of the configuration. *)
Inductive nodes_step (c c' : NodesConfiguration) : Prop :=
| ns_upsert n : name_free n c → c' = upsert_node n c → nodes_step c c'
| ns_remove id : c' = remove_node_unchecked id c → nodes_step c c'
| ns_features fs : c' = set_features fs c → nodes_step c c'
| ns_version now : increment_version now c = Some c' → nodes_step c c'.

Lemma nodes_wf_name_inj c id1 id2 n1 n2 :
  nodes_wf c → nodes c !! id1 = Some (MNode n1) → nodes c !! id2 = Some (MNode n2) →
  nc_name n1 = nc_name n2 → id1 = id2.
Proof.
  intros [Hn _] H1 H2 E.
  assert (name_lookup c !! nc_name n1 = Some id1) by (apply Hn; eauto).
  assert (name_lookup c !! nc_name n1 = Some id2) by (apply Hn; eauto). congruence.
Qed.

Lemma upsert_node_wf n c : name_free n c → nodes_wf c → nodes_wf (upsert_node n c).
Proof.
  intros Hfree Hwf. pose proof Hwf as [Hn Hg]. set (pid := (nc_current_generation n).1).
  unfold upsert_node. fold pid. split; simpl.
  2: { intros id m [[<- [= <-]]|[_ ?]]%lookup_insert_Some; eauto. }
  intros name id. set (names := match nodes c !! pid with Some (MNode _) => _ | _ => _ end).
  assert (Hnames : ∀ nm i, nm ≠ nc_name n → names !! nm = Some i ↔
    i ≠ pid ∧ name_lookup c !! nm = Some i).
  { intros nm i Hnm. subst names. destruct (nodes c !! pid) as [[|ex]|] eqn:Ep.
    - split; [|by intros [? ?]]. intros Hi. split; [|done]. intros ->.
      apply Hn in Hi as (? & ? & ?). congruence.
    - rewrite lookup_delete_Some. split.
      + intros [Hne Hi]. split; [|done]. intros ->. apply Hn in Hi as (? & ? & ?). congruence.
      + intros [Hi Hl]. split; [|done]. intros <-. apply Hi.
        assert (name_lookup c !! nc_name ex = Some pid) by (apply Hn; eauto). congruence.
    - split; [|by intros [? ?]]. intros Hi. split; [|done]. intros ->.
      apply Hn in Hi as (? & ? & ?). congruence. }
  destruct (decide (name = nc_name n)) as [->|Hne].
  - rewrite lookup_insert_eq. split.
    + intros [= <-]. exists n. by rewrite lookup_insert_eq.
    + intros (m & [[<- _]|[Hid Hm]]%lookup_insert_Some & E); [done|]. by destruct (Hfree id m).
  - rewrite lookup_insert_ne by done. rewrite Hnames, Hn by done. split.
    + intros [Hid (m & Hm & <-)]. exists m. by rewrite lookup_insert_ne.
    + intros (m & [[<- [= <-]]|[Hid Hm]]%lookup_insert_Some & E); [done|]. eauto.
Qed.

Lemma remove_node_wf id c : nodes_wf c → nodes_wf (remove_node_unchecked id c).
Proof.
  intros Hwf. pose proof Hwf as [Hn Hg]. unfold remove_node_unchecked.
  destruct (nodes c !! id) as [m|] eqn:Ei; [|done]. split; simpl.
  2: { intros i n [[_ ?]|[_ ?]]%lookup_insert_Some; [done|eauto]. }
  intros name i. setoid_rewrite lookup_insert_Some. destruct m as [|n].
  - rewrite Hn. split; [|naive_solver]. intros (m & Hm & <-). exists m.
    split; [right; split; [congruence|done]|done].
  - rewrite lookup_delete_Some, Hn. split.
    + intros [Hne (m & Hm & <-)]. exists m. split; [right; split; [congruence|done]|done].
    + intros (m & [[_ ?]|[Hi Hm]] & <-); [done|]. split; [|eauto]. intros E. apply Hi.
      by eapply (nodes_wf_name_inj c).
Qed.

Lemma nodes_step_wf c c' : nodes_step c c' → nodes_wf c → nodes_wf c'.
Proof.
  intros [n Hf ->|id ->|fs ->|now Hv] Hwf.
  - by apply upsert_node_wf.
  - by apply remove_node_wf.
  - done.
  - by apply bind_Some in Hv as (? & _ & [= <-]).
Qed.

Lemma nodes_step_ids c c' : nodes_step c c' → dom (nodes c) ⊆ dom (nodes c').
Proof.
  intros [n Hf ->|id ->|fs ->|now Hv].
  - simpl. set_solver.
  - unfold remove_node_unchecked. destruct (nodes c !! id); simpl; set_solver.
  - done.
  - by apply bind_Some in Hv as (? & _ & [= <-]).
Qed.

Lemma elem_of_nodes_iter c id n : (id, n) ∈ nodes_iter c ↔ nodes c !! id = Some (MNode n).
Proof.
  unfold nodes_iter. rewrite list_elem_of_omap. split.
  - intros ([k [|m]] & Hin%elem_of_map_to_list & [= <- <-]); done.
  - intros Hn%elem_of_map_to_list. by exists (id, MNode n).
Qed.

Lemma nodes_iter_NoDup c : NoDup (nodes_iter c).
Proof.
  unfold nodes_iter. pose proof (NoDup_map_to_list (nodes c)) as Hnd.
  induction (map_to_list (nodes c)) as [|[k [|m]] l IH]; simpl; [constructor|..].
  - apply IH. by apply NoDup_cons in Hnd as [_ ?].
  - apply NoDup_cons in Hnd as [Hni Hnd]. constructor; [|by apply IH].
    intros ([k' [|m']] & Hin & [= <- <-])%list_elem_of_omap; done.
Qed.

(** The name lookup has one entry per live node. *)
Lemma nodes_len_iter c : nodes_wf c → nodes_len c = length (nodes_iter c).
Proof.
  intros Hwf. pose proof Hwf as [Hn _]. unfold nodes_len. rewrite <- length_map_to_list.
  rewrite <- (length_fmap (λ '(id, n), (nc_name n, id)) (nodes_iter c)).
  apply Permutation_length, NoDup_Permutation; [apply NoDup_map_to_list|..].
  - apply NoDup_fmap_2_strong; [|apply nodes_iter_NoDup].
    intros [i1 n1] [i2 n2] H1%elem_of_nodes_iter H2%elem_of_nodes_iter [= E ->]. congruence.
  - intros [name id]. rewrite elem_of_map_to_list, Hn, list_elem_of_fmap. split.
    + intros (n & Hl & <-). exists (id, n). by rewrite elem_of_nodes_iter.
    + intros ([i n] & [= -> ->] & Hin%elem_of_nodes_iter). eauto.
Qed.

(** The name lookup stays consistent.  Through any edits, as long as a new
    or renamed node takes a name no other live node has, looking up a node by
    name finds exactly the live node with that name, the length is the number
    of live nodes, every id that was ever known stays known, and the cluster
    fingerprint does not change. *)
Theorem nodes_lookup_consistent (c c' : NodesConfiguration) :
  rtc nodes_step c c' → nodes_wf c →
  nodes_wf c' ∧
  (∀ name n, find_node_by_name c' name = Some n ↔
     ∃ id, find_node_by_id c' (NodePlain id) = Ok n ∧ nc_name n = name) ∧
  nodes_len c' = length (nodes_iter c') ∧
  dom (nodes c) ⊆ dom (nodes c') ∧
  validate_update c' (Some c) = true.
Proof.
  intros Hsteps Hwf.
  assert (nodes_wf c' ∧ dom (nodes c) ⊆ dom (nodes c') ∧
    cluster_fingerprint c' = cluster_fingerprint c) as (Hwf' & Hdom & Hfp).
  { induction Hsteps as [|c1 c2 c3 Hs _ IH]; [done|].
    destruct IH as (? & ? & Hfp); [by eapply nodes_step_wf|]. apply nodes_step_ids in Hs as Hd.
    split_and!; [done|set_solver|]. rewrite Hfp.
    destruct Hs as [n Hf ->|id ->|fs ->|now Hv]; [done| |done|].
    - unfold remove_node_unchecked. by destruct (nodes c1 !! id).
    - by apply bind_Some in Hv as (? & _ & [= <-]). }
  split_and!; [done| |by apply nodes_len_iter|done|].
  - pose proof Hwf' as [Hn _]. intros name n.
    assert (∀ id, find_node_by_id c' (NodePlain id) = Ok n ↔ nodes c' !! id = Some (MNode n)) as Hf.
    { intros id. unfold find_node_by_id. simpl. destruct (nodes c' !! id) as [[|]|]; naive_solver. }
    unfold find_node_by_name. rewrite bind_Some. setoid_rewrite Hf. setoid_rewrite Hn. split.
    + intros (id & (m & Hm & Hnm) & Hr). exists id. unfold find_node_by_id in Hr. simpl in Hr.
      rewrite Hm in Hr. simpl in Hr. simplify_eq. done.
    + intros (id & Hm & Hnm). exists id. split; [eauto|]. by rewrite (proj2 (Hf id) Hm).
  - unfold validate_update. rewrite Hfp. destruct (cluster_fingerprint c); [|done].
    by apply bool_decide_eq_true.
Qed.

Lemma max_plain_node_id_spec c m :
  max_plain_node_id c = Some m ↔ m ∈ dom (nodes c) ∧ ∀ id, id ∈ dom (nodes c) → id ≤ m.
Proof.
  assert (∀ (l : list (Z * MaybeNode)) m,
    foldr (λ '(k, _) acc, Some (match acc with Some m => Z.max k m | None => k end)) None l = Some m
    ↔ m ∈ l.*1 ∧ ∀ id, id ∈ l.*1 → id ≤ m) as Hgen.
  { induction l as [|[k v] l IH]; intros m'; simpl.
    - rewrite elem_of_nil. naive_solver.
    - setoid_rewrite elem_of_cons. destruct (foldr _ None l) as [a|] eqn:E.
      + destruct (proj1 (IH a) eq_refl) as [Ha Hall]. split.
        * intros [= <-]. split; [|intros id [->|?%Hall]; lia].
          destruct (Z.max_spec k a) as [[_ ->]|[_ ->]]; auto.
        * intros [[->|Hin] Hle]; f_equal; [specialize (Hle a); rewrite Z.max_l; naive_solver|].
          apply Hall in Hin as ?. pose proof (Hle k (or_introl eq_refl)).
          pose proof (Hle a (or_intror Ha)). lia.
      + destruct l as [|[k' v'] l]; [|simpl in E; by destruct (foldr _ None l)].
        simpl. setoid_rewrite elem_of_nil. naive_solver lia. }
  unfold max_plain_node_id. rewrite Hgen.
  assert (∀ id, id ∈ (map_to_list (nodes c)).*1 ↔ id ∈ dom (nodes c)) as Hd.
  { intros id. rewrite list_elem_of_fmap, elem_of_dom. split.
    - intros ([k v] & -> & Hin%elem_of_map_to_list). eauto.
    - intros [v Hv]. exists (id, v). by rewrite elem_of_map_to_list. }
  setoid_rewrite Hd. done.
Qed.

(** Removing a node.  A known node that is removed leaves a tombstone: it
    is reported as deleted whatever generation is asked for, no longer
    contained, and its storage and worker are disabled; its id still counts
    for the maximum id, so a new node does not get it; and every other node is
    looked up as before. *)
Theorem removed_node_is_tombstone (c : NodesConfiguration) (id : Z) :
  id ∈ dom (nodes c) →
  let c' := remove_node_unchecked id c in
  (∀ n, node_id_id n = id → find_node_by_id c' n = Err (Deleted n)) ∧
  contains_node c' id = false ∧
  get_log_server_storage_state c' id = Disabled ∧
  get_worker_state c' id = WsDisabled ∧
  max_plain_node_id c' = max_plain_node_id c ∧
  (∀ n, node_id_id n ≠ id → find_node_by_id c' n = find_node_by_id c n).
Proof.
  intros [m Hm]%elem_of_dom c'.
  assert (nodes c' = <[id := Tombstone]> (nodes c)) as Hc.
  { subst c'. unfold remove_node_unchecked. by rewrite Hm. }
  clearbody c'. unfold find_node_by_id, contains_node, get_log_server_storage_state, get_worker_state.
  rewrite Hc. split_and!; try by rewrite lookup_insert_eq.
  - intros n ->. by rewrite lookup_insert_eq.
  - apply option_eq. intros x. rewrite !max_plain_node_id_spec, Hc, dom_insert_lookup_L by eauto. done.
  - intros n Hn. by rewrite lookup_insert_ne.
Qed.

(** ** Instances *)

Definition demo_node (id : Z) (name : string) : NodeConfig :=
  mkNode name (id, 1) "addr" None {[ Worker; LogServer ]} ReadWrite NodeLocation_new
    MsStandby WsActive None.

Definition demo_nodes0 : NodesConfiguration := mkNodes 1 "c" (Some 42) ∅ ∅ None ∅.
Definition demo_nodes : NodesConfiguration :=
  upsert_node (demo_node 2 "b") (upsert_node (demo_node 1 "a") demo_nodes0).

Lemma demo_nodes0_wf : nodes_wf demo_nodes0.
Proof. split; simpl; setoid_rewrite lookup_empty; naive_solver. Qed.

(** Two nodes join and the first one is removed. *)
Lemma nodes_lookup_consistent_witness :
  nodes_wf demo_nodes0 ∧ nodes_wf (remove_node_unchecked 1 demo_nodes).
Proof.
  split; [apply demo_nodes0_wf|].
  apply (nodes_lookup_consistent demo_nodes0); [|apply demo_nodes0_wf].
  eapply rtc_l; [apply (ns_upsert _ _ (demo_node 1 "a")); [|reflexivity]|].
  { intros id m Hm. simpl in Hm. by rewrite lookup_empty in Hm. }
  eapply rtc_l; [apply (ns_upsert _ _ (demo_node 2 "b")); [|reflexivity]|].
  { intros id m Hm. simpl in Hm. apply lookup_insert_Some in Hm as [[_ [= <-]]|[_ Hm]];
      [discriminate|]. by rewrite lookup_empty in Hm. }
  apply rtc_once. by apply (ns_remove _ _ 1).
Defined.

Lemma removed_node_is_tombstone_witness :
  1 ∈ dom (nodes demo_nodes) ∧
  find_node_by_id (remove_node_unchecked 1 demo_nodes) (NodePlain 1) = Err (Deleted (NodePlain 1)).
Proof.
  assert (1 ∈ dom (nodes demo_nodes)) as Hin by (apply elem_of_dom; eexists; reflexivity).
  split; [exact Hin|]. apply (removed_node_is_tombstone demo_nodes 1 Hin). reflexivity.
Defined.
