(* ===== verification/NodeSetChecker.v ===== *)
(** * NodeSetChecker: write quorums and f-majorities of a node set

    Models crates/types/src/replication/checker.rs.  A checker holds, for every
    location scope with a replication requirement, the failure domains of the
    node set with a counter per attribute value, kept up to date as attributes
    are set on nodes.

    A failure domain is a boxed value that is never removed, and [HashPtr]
    compares the addresses of the boxes; here the name of the domain stands for
    its address. *)

From stdpp Require Import strings.
From S2P Require Import Prelude BTreeMap Locality Replication NodesConfig.
Local Open Scope Z_scope.

(** ** Results and counters *)

Inductive FMajorityResult := FmNone | FmBestEffort | FmSuccessWithRisk | FmSuccess.

Definition fm_passed (r : FMajorityResult) : bool :=
  match r with FmSuccess | FmSuccessWithRisk => true | _ => false end.

Definition is_authoritative_complete (r : FMajorityResult) : bool :=
  match r with FmSuccess => true | _ => false end.

Record Count := mkCount { num_readable_nodes : Z; num_authoritative_nodes : Z }.

Definition count_default : Count := mkCount 0 0.
Definition count_is_empty (c : Count) : bool := num_readable_nodes c =? 0.
Definition num_non_auth_nodes (c : Count) : Z :=
  as_u32 (num_readable_nodes c - num_authoritative_nodes c).

Definition count_increment (s : StorageState) (c : Count) : Count :=
  mkCount
    (if can_read_from s then as_u32 (num_readable_nodes c + 1) else num_readable_nodes c)
    (if is_authoritative s then as_u32 (num_authoritative_nodes c + 1)
     else num_authoritative_nodes c).

Definition count_decrement (s : StorageState) (c : Count) : Count :=
  if num_readable_nodes c =? 0 then c
  else mkCount
    (if can_read_from s then as_u32 (num_readable_nodes c - 1) else num_readable_nodes c)
    (if is_authoritative s then as_u32 (num_authoritative_nodes c - 1)
     else num_authoritative_nodes c).

Abbreviation DomainName := (list Ascii.ascii).

(** [u32::try_from(n).expect(..)]. *)
Definition expect_u32 (n : nat) : option Z :=
  if Z.of_nat n <=? u32_max then Some (Z.of_nat n) else None.

Section Checker.
Context {Attr : Type} `{Countable Attr}.

Record FailureDomainState := mkFD {
  num_nodes : Z;
  per_attribute_counter : gmap Attr Count;
}.

Definition fd_default : FailureDomainState := mkFD 0 ∅.
Definition fd_increment (fd : FailureDomainState) : FailureDomainState :=
  mkFD (as_u32 (num_nodes fd + 1)) (per_attribute_counter fd).

Record LocationScopeState := mkScope {
  failure_domains : gmap DomainName FailureDomainState;
  node_to_fd : gmap Z DomainName;
  replication_factor : Z;
  replication_fds : gmap Attr (gset DomainName);
}.

Definition LocationScopeState_new (replication : Z) : LocationScopeState :=
  mkScope ∅ ∅ replication ∅.

Record NodeSetChecker := mkChecker {
  scopes : list (Z * LocationScopeState);
  node_to_attr : gmap Z Attr;
  node_to_storage_state : gmap Z StorageState;
}.

(** ** Construction *)

(** The domain a node belongs to at a scope; the inner [None] is a node without
    location information there. *)
Definition node_domain (node_id : Z) (location : NodeLocation) (scope : LocationScope)
  : option (option DomainName) :=
  if bool_decide (scope = Node) then Some (Some (node_id_to_string node_id))
  else if is_scope_defined location scope then
    let! d := domain_string location scope None in Some (Some d)
  else Some None.

Definition add_node_at (node_id : Z) (domain : option DomainName) (st : LocationScopeState)
  : LocationScopeState :=
  match domain with
  | None => st
  | Some d =>
      let fd := fd_increment (default fd_default (failure_domains st !! d)) in
      mkScope (<[d := fd]> (failure_domains st)) (<[node_id := d]> (node_to_fd st))
        (replication_factor st) (replication_fds st)
  end.

Fixpoint add_node_scopes (node_id : Z) (location : NodeLocation)
    (ss : list (Z * LocationScopeState)) : option (list (Z * LocationScopeState)) :=
  match ss with
  | [] => Some []
  | (k, st) :: rest =>
      let! scope := scope_from_u8 k in
      let! d := node_domain node_id location scope in
      let! rest' := add_node_scopes node_id location rest in
      Some ((k, add_node_at node_id d st) :: rest')
  end.

Definition add_node (node_id : Z) (s : StorageState) (location : NodeLocation)
    (c : NodeSetChecker) : option NodeSetChecker :=
  if storage_empty s then Some c
  else
    let! ss := add_node_scopes node_id location (scopes c) in
    Some (mkChecker ss (node_to_attr c) (<[node_id := s]> (node_to_storage_state c))).

Fixpoint new_scopes (rp : ReplicationProperty) (ss : list LocationScope)
    (acc : list (Z * LocationScopeState)) : option (list (Z * LocationScopeState)) :=
  match ss with
  | [] => Some acc
  | s :: rest =>
      let! copies := copies_at_scope rp s in
      new_scopes rp rest
        (match copies with
         | Some r => bt_insert (scope_as_u8 s) (LocationScopeState_new r) acc
         | None => acc
         end)
  end.

Fixpoint add_nodes (cfg : NodesConfiguration) (nodeset : list Z) (c : NodeSetChecker)
  : option NodeSetChecker :=
  match nodeset with
  | [] => Some c
  | node_id :: rest =>
      let! c' :=
        match find_node_by_id cfg (NodePlain node_id) with
        | Ok config => add_node node_id (nc_storage_state config) (nc_location config) c
        | Err (Deleted _) => Some c
        | Err (UnknownNodeId _) => add_node node_id Provisioning NodeLocation_new c
        | _ => None
        end in
      add_nodes cfg rest c'
  end.

Definition NodeSetChecker_new (nodeset : list Z) (cfg : NodesConfiguration)
    (rp : ReplicationProperty) : option NodeSetChecker :=
  let! ss := new_scopes rp (smaller_scopes 4 Root) [] in
  if bool_decide (ss = []) then None
  else add_nodes cfg nodeset (mkChecker ss ∅ ∅).

(** ** Attributes *)

Definition rm_attr_at (node_id : Z) (attr : Attr) (s : StorageState) (st : LocationScopeState)
  : LocationScopeState :=
  match node_to_fd st !! node_id with
  | None => st
  | Some d =>
      match failure_domains st !! d with
      | None => st
      | Some fd =>
          match per_attribute_counter fd !! attr with
          | None => st
          | Some c =>
              let c' := count_decrement s c in
              let rfds :=
                if count_is_empty c' then
                  match replication_fds st !! attr with
                  | Some ds =>
                      let ds' := ds ∖ {[ d ]} in
                      if bool_decide (ds' = ∅) then delete attr (replication_fds st)
                      else <[attr := ds']> (replication_fds st)
                  | None => replication_fds st
                  end
                else replication_fds st in
              let counters :=
                if count_is_empty c' then delete attr (per_attribute_counter fd)
                else <[attr := c']> (per_attribute_counter fd) in
              mkScope (<[d := mkFD (num_nodes fd) counters]> (failure_domains st))
                (node_to_fd st) (replication_factor st) rfds
          end
      end
  end.

Definition add_attr_at (node_id : Z) (attr : Attr) (s : StorageState) (st : LocationScopeState)
  : LocationScopeState :=
  match node_to_fd st !! node_id with
  | None => st
  | Some d =>
      match failure_domains st !! d with
      | None => st
      | Some fd =>
          let c := count_increment s (default count_default (per_attribute_counter fd !! attr)) in
          let rfds :=
            if num_readable_nodes c =? 1
            then <[attr := default ∅ (replication_fds st !! attr) ∪ {[ d ]}]> (replication_fds st)
            else replication_fds st in
          mkScope
            (<[d := mkFD (num_nodes fd) (<[attr := c]> (per_attribute_counter fd))]>
               (failure_domains st))
            (node_to_fd st) (replication_factor st) rfds
      end
  end.

Definition map_scopes (f : LocationScopeState → LocationScopeState) (ss : list (Z * LocationScopeState))
  : list (Z * LocationScopeState) := (λ '(k, st), (k, f st)) <$> ss.

Definition storage_state_of (c : NodeSetChecker) (node_id : Z) : StorageState :=
  default Disabled (node_to_storage_state c !! node_id).

Definition set_attribute (node_id : Z) (attribute : Attr) (c : NodeSetChecker) : NodeSetChecker :=
  let s := storage_state_of c node_id in
  if storage_empty s then c
  else
    let attrs := <[node_id := attribute]> (node_to_attr c) in
    match node_to_attr c !! node_id with
    | Some old =>
        if decide (old = attribute) then mkChecker (scopes c) attrs (node_to_storage_state c)
        else
          let ss := map_scopes (rm_attr_at node_id old s) (scopes c) in
          mkChecker (map_scopes (add_attr_at node_id attribute s) ss) attrs
            (node_to_storage_state c)
    | None =>
        mkChecker (map_scopes (add_attr_at node_id attribute s) (scopes c)) attrs
          (node_to_storage_state c)
    end.

Definition set_attribute_on_each (nodes : list Z) (attribute : Attr) (c : NodeSetChecker)
  : NodeSetChecker :=
  foldl (λ c n, set_attribute n attribute c) c nodes.

Definition fill_with (attribute : Attr) (c : NodeSetChecker) : NodeSetChecker :=
  set_attribute_on_each (map_to_list (node_to_storage_state c)).*1 attribute c.

(** [trait Merge], with the [Default] the callers also need: the merged value
    and whether it changed. *)
Class Merge := {
  attr_default : Attr;
  attr_merge : Attr → Attr → Attr * bool;
}.

Definition merge_attribute `{Merge} (node_id : Z) (attribute : Attr) (c : NodeSetChecker)
  : NodeSetChecker :=
  if storage_empty (storage_state_of c node_id) then c
  else
    match node_to_attr c !! node_id with
    | Some existing =>
        let '(new, changed) := attr_merge existing attribute in
        if changed then set_attribute node_id new c else c
    | None => set_attribute node_id (attr_merge attr_default attribute).1 c
    end.

(** ** Queries *)

(** The inner loop of the write-quorum check: stops once enough domains match. *)
Fixpoint merge_domains (target : Z) (domains : list DomainName) (matches : gset DomainName)
  : gset DomainName * bool :=
  match domains with
  | [] => (matches, false)
  | d :: rest =>
      let matches := matches ∪ {[ d ]} in
      if target <=? Z.of_nat (size matches) then (matches, true)
      else merge_domains target rest matches
  end.

Fixpoint write_quorum_loop (target : Z) (predicate : Attr → bool)
    (l : list (Attr * gset DomainName)) (matches : gset DomainName) : bool :=
  match l with
  | [] => false
  | (attribute, domains) :: rest =>
      if predicate attribute then
        match merge_domains target (elements domains) matches with
        | (_, true) => true
        | (matches, false) => write_quorum_loop target predicate rest matches
        end
      else write_quorum_loop target predicate rest matches
  end.

Definition scope_write_quorum (predicate : Attr → bool) (st : LocationScopeState) : bool :=
  write_quorum_loop (replication_factor st) predicate (map_to_list (replication_fds st)) ∅.

Definition check_write_quorum (predicate : Attr → bool) (c : NodeSetChecker) : bool :=
  forallb (λ e, scope_write_quorum predicate e.2) (scopes c).

(** The counters of the matching attribute values, added up. *)
Definition sum_counters (predicate : Attr → bool) (f : Count → Z) (counters : gmap Attr Count) : Z :=
  foldl (λ acc '(a, c), if predicate a then as_u32 (acc + f c) else acc) 0 (map_to_list counters).

Inductive DomainMatch := MatchAuth | MatchNonAuth | MatchNone.

Definition domain_match (predicate : Attr → bool) (fd : FailureDomainState) : DomainMatch :=
  if num_nodes fd =? 0 then MatchNonAuth
  else
    let auth := sum_counters predicate num_authoritative_nodes (per_attribute_counter fd) in
    let non_auth := sum_counters predicate num_non_auth_nodes (per_attribute_counter fd) in
    if (0 <? auth) && (num_nodes fd <=? auth) then MatchAuth
    else if (0 <? non_auth) && (num_nodes fd <=? non_auth) then MatchNonAuth
    else MatchNone.

Definition count_domain (predicate : Attr → bool) (acc : Z * Z) (e : DomainName * FailureDomainState)
  : Z * Z :=
  match domain_match predicate e.2 with
  | MatchAuth => (as_u32 (acc.1 + 1), acc.2)
  | MatchNonAuth => (acc.1, as_u32 (acc.2 + 1))
  | MatchNone => acc
  end.

Definition count_matching_domains (predicate : Attr → bool) (st : LocationScopeState) : Z * Z :=
  foldl (count_domain predicate) (0, 0) (map_to_list (failure_domains st)).

Definition count_nodes (predicate : StorageState → bool) (c : NodeSetChecker) : option Z :=
  expect_u32 (length (filter (λ e : Z * StorageState, predicate e.2)
    (map_to_list (node_to_storage_state c)))).

Definition count_authoritative_nodes (c : NodeSetChecker) : option Z :=
  count_nodes is_authoritative c.

Definition is_complete_set (predicate : Attr → bool) (c : NodeSetChecker) : option bool :=
  let! e := head (filter (λ e : Z * LocationScopeState, e.1 =? scope_as_u8 Node) (scopes c)) in
  let! auth := count_authoritative_nodes c in
  Some ((count_matching_domains predicate e.2).1 =? auth).

(** The first scope with an f-majority, and whether its domains are
    authoritative. *)
Fixpoint fmajority_loop (predicate : Attr → bool) (ss : list (Z * LocationScopeState))
  : option (option bool) :=
  match ss with
  | [] => Some None
  | (_, st) :: rest =>
      let! candidate_domains := expect_u32 (size (failure_domains st)) in
      let needed := as_u32 (saturating_sub candidate_domains (replication_factor st) + 1) in
      let '(auth, non_auth) := count_matching_domains predicate st in
      if needed <=? as_u32 (auth + non_auth) then Some (Some (needed <=? auth))
      else fmajority_loop predicate rest
  end.

Definition check_fmajority (predicate : Attr → bool) (c : NodeSetChecker)
  : option FMajorityResult :=
  let! r := fmajority_loop predicate (scopes c) in
  match r with
  | Some true => Some FmSuccess
  | Some false => Some FmSuccessWithRisk
  | None =>
      let! complete := is_complete_set predicate c in
      Some (if (complete : bool) then FmBestEffort else FmNone)
  end.

Definition checker_any (predicate : Attr → bool) (c : NodeSetChecker) : bool :=
  existsb (λ e, predicate e.2) (map_to_list (node_to_attr c)).
Definition checker_all (predicate : Attr → bool) (c : NodeSetChecker) : bool :=
  forallb (λ e, predicate e.2) (map_to_list (node_to_attr c)).

(** ** Invariant: what the counters count *)

Definition at_fd (nf : gmap Z DomainName) (d : DomainName) (n : Z) : bool :=
  bool_decide (nf !! n = Some d).
Definition has_attr (A : gmap Z Attr) (a : Attr) (n : Z) : bool := bool_decide (A !! n = Some a).
Definition auth_node (S : gmap Z StorageState) (n : Z) : bool :=
  is_authoritative (default DataLoss (S !! n)).

(** A counter entry: absent when it counts no node. *)
Definition count_entry (readable auth : Z) : option Count :=
  if readable =? 0 then None else Some (mkCount readable auth).

(** The nodes of domain [d] with attribute [a], and the authoritative ones. *)
Definition readable_in (S : gmap Z StorageState) (A : gmap Z Attr) (nf : gmap Z DomainName)
    (d : DomainName) (a : Attr) : Z :=
  cnt (dom S) (λ n, at_fd nf d n && has_attr A a n).
Definition auth_in (S : gmap Z StorageState) (A : gmap Z Attr) (nf : gmap Z DomainName)
    (d : DomainName) (a : Attr) : Z :=
  cnt (dom S) (λ n, at_fd nf d n && has_attr A a n && auth_node S n).

Definition counts_of (S : gmap Z StorageState) (A : gmap Z Attr) (nf : gmap Z DomainName)
    (d : DomainName) (a : Attr) : option Count :=
  count_entry (readable_in S A nf d a) (auth_in S A nf d a).

Record scope_inv (S : gmap Z StorageState) (A : gmap Z Attr) (st : LocationScopeState) : Prop := {
  si_dom n d : node_to_fd st !! n = Some d → n ∈ dom S;
  si_fd d : is_Some (failure_domains st !! d) ↔ ∃ n, node_to_fd st !! n = Some d;
  si_nodes d fd : failure_domains st !! d = Some fd →
    num_nodes fd = cnt (dom S) (at_fd (node_to_fd st) d);
  si_counts d fd a : failure_domains st !! d = Some fd →
    per_attribute_counter fd !! a = counts_of S A (node_to_fd st) d a;
  si_rep a d : d ∈ default ∅ (replication_fds st !! a) ↔
    ∃ n, node_to_fd st !! n = Some d ∧ A !! n = Some a;
}.

(** The node set fits in 32 bits, and disabled nodes are left out of it. *)
Definition storage_ok (S : gmap Z StorageState) : Prop :=
  Z.of_nat (size (dom S)) ≤ u32_max ∧ ∀ n s, S !! n = Some s → s ≠ Disabled.

Lemma can_read_enabled s : s ≠ Disabled → can_read_from s = true.
Proof. by destruct s. Qed.

Lemma at_fd_true nf d n : at_fd nf d n = true ↔ nf !! n = Some d.
Proof. apply bool_decide_eq_true. Qed.
Lemma has_attr_true A a n : has_attr A a n = true ↔ A !! n = Some a.
Proof. apply bool_decide_eq_true. Qed.

(** Counters depend only on the attributes of the nodes of the domain. *)
Lemma counts_ext S A B nf d a :
  (∀ m, nf !! m = Some d → A !! m = Some a ↔ B !! m = Some a) →
  counts_of S A nf d a = counts_of S B nf d a.
Proof.
  intros HAB.
  assert (∀ m, at_fd nf d m && has_attr A a m = at_fd nf d m && has_attr B a m) as E.
  { intros m. apply eq_bool_prop_intro. rewrite !Is_true_true, !andb_true_iff.
    rewrite at_fd_true, !has_attr_true. naive_solver. }
  unfold counts_of, readable_in, auth_in. f_equal; apply cnt_ext; intros m _; by rewrite E.
Qed.

Lemma counts_bounds S A nf d a :
  0 ≤ auth_in S A nf d a ≤ readable_in S A nf d a ∧
  readable_in S A nf d a ≤ Z.of_nat (size (dom S)).
Proof.
  split; [split; [apply cnt_nonneg|]|apply cnt_le_size].
  apply cnt_mono. by intros ? _ [? _]%andb_prop.
Qed.

(** Assigning an attribute to a node of the domain that had none adds one. *)
Lemma counts_insert S A nf d a n s :
  S !! n = Some s → nf !! n = Some d → A !! n = None →
  readable_in S (<[n := a]> A) nf d a = readable_in S A nf d a + 1 ∧
  auth_in S (<[n := a]> A) nf d a = auth_in S A nf d a + Z.b2z (is_authoritative s).
Proof.
  intros Hs Hd Ha. assert (n ∈ dom S) as Hin by (by apply elem_of_dom_2 in Hs).
  assert (∀ m, m ≠ n → has_attr A a m = has_attr (<[n := a]> A) a m) as Hne.
  { intros m Hm. unfold has_attr. by rewrite lookup_insert_ne. }
  assert (has_attr A a n = false ∧ has_attr (<[n := a]> A) a n = true) as [H0 H1].
  { unfold has_attr. rewrite Ha, lookup_insert_eq. by rewrite bool_decide_eq_true. }
  apply at_fd_true in Hd. unfold readable_in, auth_in. split.
  - rewrite (cnt_update _ n (λ m, at_fd nf d m && has_attr A a m));
      [|done|intros; by rewrite Hne]. rewrite H0, H1, Hd. simpl. lia.
  - rewrite (cnt_update _ n (λ m, at_fd nf d m && has_attr A a m && auth_node S m));
      [|done|intros; by rewrite Hne]. rewrite H0, H1, Hd. unfold auth_node. rewrite Hs. simpl. lia.
Qed.

Lemma default_count S A nf d a :
  default count_default (counts_of S A nf d a) = mkCount (readable_in S A nf d a) (auth_in S A nf d a).
Proof.
  unfold counts_of, count_entry. pose proof (counts_bounds S A nf d a).
  destruct (Z.eqb_spec (readable_in S A nf d a) 0); [|done]. simpl. unfold count_default. f_equal; lia.
Qed.

Lemma count_increment_insert S A nf d a n s :
  storage_ok S → S !! n = Some s → nf !! n = Some d → A !! n = None →
  count_increment s (default count_default (counts_of S A nf d a)) =
    mkCount (readable_in S (<[n := a]> A) nf d a) (auth_in S (<[n := a]> A) nf d a).
Proof.
  intros [Hsize Hen] Hs Hd Ha. rewrite default_count.
  pose proof (counts_bounds S (<[n := a]> A) nf d a). pose proof (counts_bounds S A nf d a).
  destruct (counts_insert S A nf d a n s Hs Hd Ha) as [HR HU]. rewrite HR, HU in *.
  unfold count_increment. simpl. rewrite (can_read_enabled s) by eauto.
  unfold as_u32. rewrite wrap_small by (unfold in_u; lia).
  destruct (is_authoritative s); simpl in *; [|f_equal; lia].
  by rewrite wrap_small by (unfold in_u; lia).
Qed.

(** Removing it again subtracts one. *)
Lemma count_decrement_insert S A nf d a n s :
  storage_ok S → S !! n = Some s → nf !! n = Some d → A !! n = None →
  count_decrement s (mkCount (readable_in S (<[n := a]> A) nf d a)
                             (auth_in S (<[n := a]> A) nf d a)) =
    mkCount (readable_in S A nf d a) (auth_in S A nf d a).
Proof.
  intros [Hsize Hen] Hs Hd Ha.
  pose proof (counts_bounds S (<[n := a]> A) nf d a). pose proof (counts_bounds S A nf d a).
  destruct (counts_insert S A nf d a n s Hs Hd Ha) as [HR HU]. rewrite HR, HU in *.
  unfold count_decrement. simpl. rewrite (proj2 (Z.eqb_neq _ _)) by lia.
  rewrite (can_read_enabled s) by eauto.
  unfold as_u32. rewrite wrap_small by (unfold in_u; lia). f_equal; [lia|].
  destruct (is_authoritative s); simpl in *; [|lia]. rewrite wrap_small by (unfold in_u; lia). lia.
Qed.

Lemma readable_pos S A nf d a :
  (∀ n, nf !! n = Some d → n ∈ dom S) →
  0 < readable_in S A nf d a ↔ ∃ n, nf !! n = Some d ∧ A !! n = Some a.
Proof.
  intros Hdom. unfold readable_in. rewrite cnt_pos. setoid_rewrite andb_true_iff.
  setoid_rewrite at_fd_true. setoid_rewrite has_attr_true. naive_solver.
Qed.

(** A node outside every domain of the scope does not matter to it. *)
Lemma scope_inv_no_domain S A B st n :
  node_to_fd st !! n = None → (∀ m, m ≠ n → A !! m = B !! m) →
  scope_inv S A st → scope_inv S B st.
Proof.
  intros Hn HAB Hinv. assert (∀ m d, node_to_fd st !! m = Some d → A !! m = B !! m) as E.
  { intros m d Hm. apply HAB. congruence. }
  split; try apply Hinv.
  - intros d fd a Hfd. rewrite (si_counts _ _ _ Hinv _ _ _ Hfd). apply counts_ext.
    intros m Hm. by rewrite (E m d).
  - intros a d. rewrite (si_rep _ _ _ Hinv). apply exist_proper. intros m. split; intros [Hm HA];
      (split; [done|]); specialize (E _ _ Hm); congruence.
Qed.

(** New counters for one domain, right for attributes that differ only there. *)
Lemma scope_update_inv S A B st d fd counters rfds :
  scope_inv S A st → failure_domains st !! d = Some fd →
  (∀ m d', node_to_fd st !! m = Some d' → d' ≠ d → A !! m = B !! m) →
  (∀ a, counters !! a = counts_of S B (node_to_fd st) d a) →
  (∀ a d', d' ∈ default ∅ (rfds !! a) ↔ ∃ n, node_to_fd st !! n = Some d' ∧ B !! n = Some a) →
  scope_inv S B (mkScope (<[d := mkFD (num_nodes fd) counters]> (failure_domains st))
    (node_to_fd st) (replication_factor st) rfds).
Proof.
  intros Hinv Hfd HAB Hcnt Hrep. split; simpl; [apply Hinv|..|done].
  - intros d'. rewrite <- (si_fd _ _ _ Hinv). destruct (decide (d' = d)) as [->|].
    + rewrite lookup_insert_eq, Hfd. split; eauto.
    + by rewrite lookup_insert_ne.
  - intros d' fd' [[<- <-]|[_ Hf]]%lookup_insert_Some; simpl; by apply Hinv.
  - intros d' fd' a [[<- <-]|[Hne Hf]]%lookup_insert_Some; simpl; [done|].
    rewrite (si_counts _ _ _ Hinv _ _ _ Hf). apply counts_ext. intros m Hm.
    by rewrite (HAB m d').
Qed.

(** The domains of the attribute values, when one node gets attribute [a]. *)
Lemma rep_insert (A : gmap Z Attr) (nf : gmap Z DomainName) n d a a' d' :
  nf !! n = Some d → A !! n = None →
  (∃ m, nf !! m = Some d' ∧ <[n := a]> A !! m = Some a') ↔
  (∃ m, nf !! m = Some d' ∧ A !! m = Some a') ∨ (a' = a ∧ d' = d).
Proof.
  intros Hd Ha. split.
  - intros (m & Hm & [[<- <-]|[Hne HA]]%lookup_insert_Some); [right; split; congruence|eauto].
  - intros [(m & Hm & HA)|[-> ->]].
    + exists m. split; [done|]. rewrite lookup_insert_ne; [done|congruence].
    + exists n. by rewrite lookup_insert_eq.
Qed.

Lemma insert_other_domain (A : gmap Z Attr) (nf : gmap Z DomainName) n a d m d' :
  nf !! n = Some d → nf !! m = Some d' → d' ≠ d → A !! m = <[n := a]> A !! m.
Proof. intros Hn Hm Hne. rewrite lookup_insert_ne; [done|congruence]. Qed.

(** Assigning an attribute to a node without one. *)
Lemma add_attr_inv S A st n a s :
  storage_ok S → S !! n = Some s → A !! n = None →
  scope_inv S A st → scope_inv S (<[n := a]> A) (add_attr_at n a s st).
Proof.
  intros Hok Hs Ha Hinv. unfold add_attr_at.
  destruct (node_to_fd st !! n) as [d|] eqn:Hd.
  2: { eapply scope_inv_no_domain; [done| |done]. intros m Hm. by rewrite lookup_insert_ne. }
  assert (is_Some (failure_domains st !! d)) as [fd Hfd] by (apply (si_fd _ _ _ Hinv); eauto).
  rewrite Hfd, (si_counts _ _ _ Hinv _ _ a Hfd), (count_increment_insert _ _ _ _ _ _ _ Hok Hs Hd Ha).
  destruct (counts_insert S A _ d a n s Hs Hd Ha) as [HR HU].
  pose proof (counts_bounds S A (node_to_fd st) d a) as Hb. simpl.
  eapply scope_update_inv; [done|done|intros; by eapply insert_other_domain|..].
  - intros a'. destruct (decide (a' = a)) as [->|Hne].
    + rewrite lookup_insert_eq. unfold counts_of, count_entry.
      by rewrite (proj2 (Z.eqb_neq (readable_in S (<[n := a]> A) _ _ _) 0)) by lia.
    + rewrite lookup_insert_ne by done. rewrite (si_counts _ _ _ Hinv _ _ _ Hfd). apply counts_ext.
      intros m _. destruct (decide (m = n)) as [->|]; [|by rewrite lookup_insert_ne].
      rewrite lookup_insert_eq, Ha. naive_solver.
  - intros a' d'. rewrite (rep_insert _ _ _ _ _ _ _ Hd Ha), <- (si_rep _ _ _ Hinv). rewrite HR.
    destruct (Z.eqb_spec (readable_in S A (node_to_fd st) d a + 1) 1).
    + destruct (decide (a' = a)) as [->|]; [rewrite lookup_insert_eq; simpl; set_solver|].
      rewrite lookup_insert_ne by done. naive_solver.
    + split; [by left|]. intros [?|[-> ->]]; [done|]. apply (si_rep _ _ _ Hinv).
      apply (readable_pos S); [intros m Hm; by eapply Hinv|lia].
Qed.

(** Taking the attribute of a node away. *)
Lemma rm_attr_inv S A st n a s :
  storage_ok S → S !! n = Some s → A !! n = Some a →
  scope_inv S A st → scope_inv S (delete n A) (rm_attr_at n a s st).
Proof.
  intros Hok Hs Ha Hinv. unfold rm_attr_at. set (A0 := delete n A).
  assert (A0 !! n = None) as H0 by apply lookup_delete_eq.
  assert (A = <[n := a]> A0) as EA by (subst A0; by rewrite insert_delete_id).
  clearbody A0. subst A. clear Ha.
  destruct (node_to_fd st !! n) as [d|] eqn:Hd.
  2: { eapply scope_inv_no_domain; [done| |done]. intros m Hm. by rewrite lookup_insert_ne. }
  assert (is_Some (failure_domains st !! d)) as [fd Hfd] by (apply (si_fd _ _ _ Hinv); eauto).
  destruct (counts_insert S A0 _ d a n s Hs Hd H0) as [HR HU].
  pose proof (counts_bounds S A0 (node_to_fd st) d a) as Hb.
  rewrite Hfd, (si_counts _ _ _ Hinv _ _ a Hfd). unfold counts_of at 1, count_entry.
  rewrite (proj2 (Z.eqb_neq (readable_in S (<[n := a]> A0) _ _ _) 0)) by lia.
  rewrite (count_decrement_insert _ _ _ _ _ _ _ Hok Hs Hd H0). unfold count_is_empty. simpl.
  set (r0 := readable_in S A0 (node_to_fd st) d a) in *.
  assert (∀ m, node_to_fd st !! m = Some d → m ∈ dom S) as Hdom by (intros m Hm; by eapply Hinv).
  pose proof (readable_pos S A0 _ d a Hdom) as Hpos. fold r0 in Hpos.
  eapply scope_update_inv; [done|done|intros; symmetry; by eapply insert_other_domain|..].
  - intros a'. destruct (decide (a' = a)) as [->|Hne].
    + unfold counts_of, count_entry. fold r0.
      destruct (Z.eqb_spec r0 0); [by rewrite lookup_delete_eq|by rewrite lookup_insert_eq].
    + transitivity (per_attribute_counter fd !! a').
      { destruct (r0 =? 0); [by rewrite lookup_delete_ne|by rewrite lookup_insert_ne]. }
      rewrite (si_counts _ _ _ Hinv _ _ _ Hfd). apply counts_ext.
      intros m _. destruct (decide (m = n)) as [->|]; [|by rewrite lookup_insert_ne].
      rewrite lookup_insert_eq, H0. naive_solver.
  - intros a' d'. pose proof (si_rep _ _ _ Hinv a' d') as Hrep.
    rewrite (rep_insert _ _ _ _ _ _ _ Hd H0) in Hrep.
    destruct (Z.eqb_spec r0 0) as [Hz|Hnz].
    + assert (¬ ∃ m, node_to_fd st !! m = Some d ∧ A0 !! m = Some a) as Hno by (rewrite <- Hpos; lia).
      destruct (decide (a' = a)) as [->|Hne].
      * destruct (replication_fds st !! a) as [ds|] eqn:Er; simpl in Hrep.
        -- case_bool_decide as Hds.
           ++ rewrite lookup_delete_eq. simpl. naive_solver set_solver.
           ++ rewrite lookup_insert_eq. simpl. rewrite elem_of_difference, elem_of_singleton, Hrep.
              naive_solver.
        -- rewrite Er. simpl. rewrite Hrep. naive_solver set_solver.
      * assert (∀ m : gmap Attr (gset DomainName), m !! a' = replication_fds st !! a' →
          (d' ∈ default ∅ (m !! a') ↔ ∃ n0, node_to_fd st !! n0 = Some d' ∧ A0 !! n0 = Some a')) as Hm.
        { intros m ->. rewrite Hrep. naive_solver. }
        apply Hm. destruct (replication_fds st !! a); [|done].
        case_bool_decide; [by rewrite lookup_delete_ne|by rewrite lookup_insert_ne].
    + rewrite Hrep. split; [|by left]. intros [?|[-> ->]]; [done|]. apply Hpos. lia.
Qed.

(** ** The checker's invariant and its operations *)

Record checker_inv (c : NodeSetChecker) : Prop := {
  ci_storage : storage_ok (node_to_storage_state c);
  ci_attrs : dom (node_to_attr c) ⊆ dom (node_to_storage_state c);
  ci_scopes : Forall (λ e, scope_inv (node_to_storage_state c) (node_to_attr c) e.2 ∧
                           1 ≤ replication_factor e.2) (scopes c);
  ci_node : scope_as_u8 Node ∈ (scopes c).*1;
}.

Lemma storage_state_enabled c n s :
  checker_inv c → storage_state_of c n = s → storage_empty s = false →
  node_to_storage_state c !! n = Some s.
Proof.
  unfold storage_state_of. intros _ <- He.
  destruct (node_to_storage_state c !! n) as [s|]; simpl in *; done.
Qed.

Lemma map_scopes_inv S A B f ss :
  (∀ st, scope_inv S A st → scope_inv S B (f st)) →
  (∀ st, replication_factor (f st) = replication_factor st) →
  Forall (λ e, scope_inv S A e.2 ∧ 1 ≤ replication_factor e.2) ss →
  Forall (λ e, scope_inv S B e.2 ∧ 1 ≤ replication_factor e.2) (map_scopes f ss).
Proof.
  intros Hf Hr Hall. unfold map_scopes. rewrite Forall_fmap. eapply Forall_impl; [exact Hall|].
  intros [k st] [? ?]. simpl in *. rewrite Hr. auto.
Qed.

Lemma add_attr_factor n a s st : replication_factor (add_attr_at n a s st) = replication_factor st.
Proof. unfold add_attr_at. by repeat case_match. Qed.
Lemma rm_attr_factor n a s st : replication_factor (rm_attr_at n a s st) = replication_factor st.
Proof. unfold rm_attr_at. repeat case_match; done. Qed.

Lemma set_attribute_storage n a c :
  node_to_storage_state (set_attribute n a c) = node_to_storage_state c.
Proof. unfold set_attribute. by repeat case_match. Qed.

Lemma set_attribute_scopes_other n a c :
  (λ e, (e.1, node_to_fd e.2, replication_factor e.2)) <$> scopes (set_attribute n a c) =
  (λ e, (e.1, node_to_fd e.2, replication_factor e.2)) <$> scopes c.
Proof.
  assert (∀ f ss, (∀ st, node_to_fd (f st) = node_to_fd st ∧
      replication_factor (f st) = replication_factor st) →
    (λ e, (e.1, node_to_fd e.2, replication_factor e.2)) <$> map_scopes f ss =
    (λ e : Z * LocationScopeState, (e.1, node_to_fd e.2, replication_factor e.2)) <$> ss) as Hmap.
  { intros f ss Hf. unfold map_scopes. rewrite <- list_fmap_compose. apply list_fmap_ext.
    intros i [k st] _. simpl. destruct (Hf st) as [-> ->]. done. }
  assert (∀ n a s st, node_to_fd (add_attr_at n a s st) = node_to_fd st) as H1
    by (intros; unfold add_attr_at; by repeat case_match).
  assert (∀ n a s st, node_to_fd (rm_attr_at n a s st) = node_to_fd st) as H2
    by (intros; unfold rm_attr_at; repeat case_match; done).
  unfold set_attribute. repeat case_match; simpl; rewrite ?Hmap; auto using add_attr_factor, rm_attr_factor.
Qed.

Lemma set_attribute_keys n a c : (scopes (set_attribute n a c)).*1 = (scopes c).*1.
Proof.
  assert (∀ l : list (Z * LocationScopeState),
    l.*1 = (fst ∘ fst) <$> ((λ e, (e.1, node_to_fd e.2, replication_factor e.2)) <$> l)) as E.
  { intros l. rewrite <- list_fmap_compose. by apply list_fmap_ext. }
  by rewrite !E, set_attribute_scopes_other.
Qed.

Lemma set_attribute_inv n a c : checker_inv c → checker_inv (set_attribute n a c).
Proof.
  intros Hinv. cut (storage_ok (node_to_storage_state (set_attribute n a c)) ∧
    dom (node_to_attr (set_attribute n a c)) ⊆ dom (node_to_storage_state (set_attribute n a c)) ∧
    Forall (λ e, scope_inv (node_to_storage_state (set_attribute n a c))
      (node_to_attr (set_attribute n a c)) e.2 ∧ 1 ≤ replication_factor e.2)
      (scopes (set_attribute n a c))).
  { intros (? & ? & ?). split; [done..|]. rewrite set_attribute_keys. apply Hinv. }
  unfold set_attribute. destruct (storage_empty (storage_state_of c n)) eqn:He; [split_and!; apply Hinv|].
  pose proof (storage_state_enabled c n _ Hinv eq_refl He) as Hs.
  destruct Hinv as [Hok Hdom Hsc _].
  assert (dom (<[n := a]> (node_to_attr c)) ⊆ dom (node_to_storage_state c)) as Hdom'.
  { rewrite dom_insert. apply elem_of_dom_2 in Hs. set_solver. }
  destruct (node_to_attr c !! n) as [old|] eqn:Ho.
  - destruct (decide (old = a)) as [->|Hne]; split_and!; simpl; try done.
    + by rewrite insert_id.
    + eapply (map_scopes_inv _ (delete n (node_to_attr c))); [|intros; apply add_attr_factor|].
      * intros st Hst. rewrite <- insert_delete_eq. apply add_attr_inv; [done..| |done].
        apply lookup_delete_eq.
      * eapply map_scopes_inv; [|intros; apply rm_attr_factor|exact Hsc].
        intros st Hst. by apply rm_attr_inv.
  - split_and!; simpl; [done|done|].
    eapply map_scopes_inv; [|intros; apply add_attr_factor|exact Hsc].
    intros st Hst. by apply add_attr_inv.
Qed.

Lemma set_attribute_on_each_inv l a c : checker_inv c → checker_inv (set_attribute_on_each l a c).
Proof.
  unfold set_attribute_on_each. revert c. induction l as [|n l IH]; intros c Hc; simpl; [done|].
  by apply IH, set_attribute_inv.
Qed.

Lemma merge_attribute_inv `{Merge} n a c : checker_inv c → checker_inv (merge_attribute n a c).
Proof.
  intros Hc. unfold merge_attribute. destruct (storage_empty _); [done|].
  destruct (node_to_attr c !! n) as [ex|]; [|by apply set_attribute_inv].
  destruct (attr_merge ex a) as [new []]; [by apply set_attribute_inv|done].
Qed.

(** A node that joins the set adds to no counter, and to its domain only. *)
Lemma counts_add_node (S : gmap Z StorageState) (A : gmap Z Attr) (nf nf' : gmap Z DomainName) n s d a :
  n ∉ dom S → A !! n = None → (∀ m, m ≠ n → nf' !! m = nf !! m) →
  counts_of (<[n := s]> S) A nf' d a = counts_of S A nf d a.
Proof.
  intros Hn Ha Hnf. unfold counts_of, readable_in, auth_in. rewrite dom_insert_L.
  rewrite !cnt_insert by done. assert (has_attr A a n = false) as ->.
  { unfold has_attr. by rewrite Ha. }
  rewrite !andb_false_r. simpl. rewrite !Z.add_0_r.
  f_equal; apply cnt_ext; intros m Hm; assert (m ≠ n) by set_solver;
    unfold at_fd, auth_node; rewrite Hnf by done; rewrite ?lookup_insert_ne by done; done.
Qed.

Lemma nodes_add_node (S : gmap Z StorageState) (nf nf' : gmap Z DomainName) n s d :
  n ∉ dom S → (∀ m, m ≠ n → nf' !! m = nf !! m) →
  cnt (dom (<[n := s]> S)) (at_fd nf' d) = cnt (dom S) (at_fd nf d) + Z.b2z (at_fd nf' d n).
Proof.
  intros Hn Hnf. rewrite dom_insert_L, cnt_insert by done. f_equal. apply cnt_ext.
  intros m Hm. unfold at_fd. rewrite Hnf; [done|set_solver].
Qed.

(** A domain that does not exist yet has no node. *)
Lemma no_domain_no_node S A st d n :
  scope_inv S A st → failure_domains st !! d = None → at_fd (node_to_fd st) d n = false.
Proof.
  intros Hinv E%eq_None_not_Some. apply not_true_is_false. intros Hm%at_fd_true.
  apply E, (si_fd _ _ _ Hinv). eauto.
Qed.

(** Adding a node to a scope, before any attribute is set on it. *)
Lemma add_node_at_inv S A st n s dn :
  n ∉ dom S → A !! n = None → Z.of_nat (size (dom S)) + 1 ≤ u32_max →
  scope_inv S A st → scope_inv (<[n := s]> S) A (add_node_at n dn st).
Proof.
  intros Hn Ha Hsize Hinv.
  assert (node_to_fd st !! n = None) as Hnone.
  { destruct (node_to_fd st !! n) as [d|] eqn:E; [|done]. by apply (si_dom _ _ _ Hinv) in E. }
  destruct dn as [d|]; simpl.
  2: { split; [|apply Hinv|..|apply Hinv].
    - intros m d Hm. rewrite dom_insert_L. apply (si_dom _ _ _ Hinv) in Hm. set_solver.
    - intros d fd Hfd. rewrite (nodes_add_node _ (node_to_fd st)) by done. unfold at_fd at 2.
      rewrite Hnone. simpl. rewrite (si_nodes _ _ _ Hinv _ _ Hfd). lia.
    - intros d fd a Hfd. rewrite (si_counts _ _ _ Hinv _ _ _ Hfd). by erewrite counts_add_node. }
  assert (∀ m, m ≠ n → <[n := d]> (node_to_fd st) !! m = node_to_fd st !! m) as Hnf
    by (intros; by rewrite lookup_insert_ne).
  assert (default fd_default (failure_domains st !! d) =
    mkFD (cnt (dom S) (at_fd (node_to_fd st) d))
      (default ∅ (per_attribute_counter <$> failure_domains st !! d))) as Hfd0.
  { destruct (failure_domains st !! d) as [fd|] eqn:E; simpl.
    - rewrite <- (si_nodes _ _ _ Hinv _ _ E). by destruct fd.
    - unfold fd_default. f_equal. symmetry. apply cnt_zero. intros m _. by eapply no_domain_no_node. }
  split; simpl.
  - intros m d'. rewrite dom_insert_L. intros [[<- _]|[_ Hm]]%lookup_insert_Some; [set_solver|].
    apply (si_dom _ _ _ Hinv) in Hm. set_solver.
  - intros d'. destruct (decide (d' = d)) as [->|Hne].
    + rewrite lookup_insert_eq. split; [|eauto]. intros _. exists n. by rewrite lookup_insert_eq.
    + rewrite lookup_insert_ne, (si_fd _ _ _ Hinv) by done.
      split; intros [m Hm]; exists m.
      * rewrite lookup_insert_ne; [done|congruence].
      * rewrite lookup_insert_ne in Hm; [done|]. intros ->. rewrite lookup_insert_eq in Hm. congruence.
  - intros d' fd' [[<- <-]|[Hne Hf]]%lookup_insert_Some; simpl; rewrite (nodes_add_node _ (node_to_fd st)) by done.
    + rewrite Hfd0. simpl. unfold at_fd at 3. rewrite lookup_insert_eq, bool_decide_true by done.
      unfold as_u32. rewrite wrap_small; [done|].
      pose proof (cnt_le_size (dom S) (at_fd (node_to_fd st) d)).
      pose proof (cnt_nonneg (dom S) (at_fd (node_to_fd st) d)). unfold in_u. lia.
    + rewrite (si_nodes _ _ _ Hinv _ _ Hf). unfold at_fd at 3.
      rewrite lookup_insert_eq, bool_decide_false by congruence. simpl. lia.
  - intros d' fd' a [[<- <-]|[Hne Hf]]%lookup_insert_Some; simpl;
      rewrite (counts_add_node _ _ (node_to_fd st)) by done.
    + rewrite Hfd0. simpl. destruct (failure_domains st !! d) as [fd|] eqn:E; simpl.
      * by apply (si_counts _ _ _ Hinv).
      * rewrite lookup_empty. unfold counts_of, count_entry. replace (readable_in _ _ _ _ _) with 0; [done|].
        symmetry. apply cnt_zero. intros m _. apply andb_false_intro1. by eapply no_domain_no_node.
    + by apply (si_counts _ _ _ Hinv).
  - intros a d'. rewrite (si_rep _ _ _ Hinv). split; intros (m & Hm & HA); exists m; (split; [|done]).
    + rewrite lookup_insert_ne; [done|congruence].
    + rewrite lookup_insert_ne in Hm; [done|congruence].
Qed.

(** ** Construction establishes the invariant *)

(** The keys are the scopes below the root, and the scopes agree with the
    storage states and have a replication factor. *)
Definition scopes_ok (S : gmap Z StorageState) (ss : list (Z * LocationScopeState)) : Prop :=
  Forall (λ e, is_Some (scope_from_u8 e.1) ∧ scope_inv S ∅ e.2 ∧ 1 ≤ replication_factor e.2) ss ∧
  scope_as_u8 Node ∈ ss.*1.

Lemma node_domain_total n loc scope : is_Some (node_domain n loc scope).
Proof.
  unfold node_domain. case_bool_decide; [done|].
  destruct (is_scope_defined loc scope) eqn:E; [|done].
  unfold domain_string. destruct (location_is_empty loc); [done|].
  destruct scope; simpl; done.
Qed.

Lemma add_node_scopes_ok S n s loc ss :
  n ∉ dom S → Z.of_nat (size (dom S)) + 1 ≤ u32_max → scopes_ok S ss →
  ∃ ss', add_node_scopes n loc ss = Some ss' ∧ scopes_ok (<[n := s]> S) ss'.
Proof.
  intros Hn Hsize [Hall Hnode].
  cut (∃ ss', add_node_scopes n loc ss = Some ss' ∧ ss'.*1 = ss.*1 ∧
    Forall (λ e, is_Some (scope_from_u8 e.1) ∧ scope_inv (<[n := s]> S) ∅ e.2 ∧
      1 ≤ replication_factor e.2) ss').
  { intros (ss' & ? & E & ?). exists ss'. split; [done|]. split; [done|by rewrite E]. }
  clear Hnode. induction Hall as [|[k st] ss (Hk & Hst & Hr) _ (ss' & IH1 & IHk & IH2)]; simpl.
  { exists []. split_and!; [done|done|constructor]. }
  destruct Hk as [scope Hk]. simpl in Hk. rewrite Hk. simpl.
  destruct (node_domain_total n loc scope) as [d Hd]. rewrite Hd. simpl. rewrite IH1. simpl.
  eexists. split; [done|]. split; [by rewrite !fmap_cons, IHk|].
  constructor; [|done]. simpl. split_and!; [by rewrite Hk| |].
  - by apply add_node_at_inv.
  - destruct d; done.
Qed.

Lemma add_node_ok n s loc ss S :
  n ∉ dom S → storage_ok S → Z.of_nat (size (dom S)) + 1 ≤ u32_max → scopes_ok S ss →
  ∃ ss' S', add_node n s loc (mkChecker ss ∅ S) = Some (mkChecker ss' ∅ S') ∧
    storage_ok S' ∧ scopes_ok S' ss' ∧ dom S' ⊆ {[ n ]} ∪ dom S.
Proof.
  intros Hn [Hs Hen] Hsize Hok. unfold add_node.
  destruct (storage_empty s) eqn:He; [exists ss, S; split_and!; [done..|set_solver]|]. simpl.
  destruct (add_node_scopes_ok S n s loc ss Hn Hsize Hok) as (ss' & -> & Hss').
  exists ss', (<[n := s]> S). split_and!; [done| |done|by rewrite dom_insert_L]. split.
  - rewrite dom_insert_L, size_union, size_singleton by set_solver. lia.
  - intros m s' [[_ <-]|[_ Hm]]%lookup_insert_Some; [by intros ->|eauto].
Qed.

Lemma add_nodes_ok cfg nodeset : ∀ ss S,
  NoDup nodeset → (∀ n, n ∈ nodeset → n ∉ dom S) →
  Z.of_nat (size (dom S)) + Z.of_nat (length nodeset) ≤ u32_max → storage_ok S → scopes_ok S ss →
  ∃ ss' S', add_nodes cfg nodeset (mkChecker ss ∅ S) = Some (mkChecker ss' ∅ S') ∧
    storage_ok S' ∧ scopes_ok S' ss'.
Proof.
  induction nodeset as [|n ns IH]; intros ss S Hnd Hdis Hsize Hs Hss; simpl; [eauto|].
  apply NoDup_cons in Hnd as [Hni Hnd]. cbn [length] in Hsize.
  assert (n ∉ dom S) as Hn by (apply Hdis; constructor).
  assert (∀ s loc, ∃ c', add_node n s loc (mkChecker ss ∅ S) = Some c' ∧ ∃ ss' S',
    add_nodes cfg ns c' = Some (mkChecker ss' ∅ S') ∧ storage_ok S' ∧ scopes_ok S' ss') as Hadd.
  { intros s loc.
    destruct (add_node_ok n s loc ss S Hn Hs ltac:(lia) Hss) as (ss1 & S1 & Heq & Hs1 & Hss1 & Hd1).
    exists (mkChecker ss1 ∅ S1). split; [done|]. apply IH; [done| | |done|done].
    - intros m Hm Hin. apply Hd1 in Hin. apply elem_of_union in Hin as [->%elem_of_singleton|Hin]; [done|].
      eapply Hdis; [by right|done].
    - apply subseteq_size in Hd1. rewrite size_union, size_singleton in Hd1 by set_solver. lia. }
  unfold find_node_by_id. simpl. destruct (nodes cfg !! n) as [[|node]|]; simpl.
  - apply IH; [done|intros m Hm; apply Hdis; by right|lia|done|done].
  - destruct (Hadd (nc_storage_state node) (nc_location node)) as (c' & -> & ?). done.
  - destruct (Hadd Provisioning NodeLocation_new) as (c' & -> & ?). done.
Qed.

Lemma scope_inv_new r : scope_inv ∅ ∅ (LocationScopeState_new r).
Proof.
  split; simpl; try done.
  - intros d. rewrite lookup_empty. split; [by intros []|]. intros [n Hn]. by rewrite lookup_empty in Hn.
  - intros a d. rewrite lookup_empty. split; [set_solver|]. intros (n & Hn & _). by rewrite lookup_empty in Hn.
Qed.

Lemma rp_get_pos rp s r : rp_wf rp → rp_get rp s = Some r → 1 ≤ r.
Proof.
  intros (_ & _ & Hr & _). unfold rp_get. intros (e & He & ->)%fmap_Some.
  apply head_Some_elem_of in He. apply elem_of_filter_bool in He as [_ He]. by apply Hr in He as [_ [? _]].
Qed.

Lemma new_scopes_ok rp :
  rp_wf rp → ∃ ss, new_scopes rp (smaller_scopes 4 Root) [] = Some ss ∧ ss ≠ [] ∧ scopes_ok ∅ ss.
Proof.
  intros Hwf.
  assert (∃ n, num_copies rp = Some n ∧ 1 ≤ n) as (n & Hn & Hn1).
  { destruct Hwf as (_ & Hne & Hr & _). unfold num_copies. destruct (rp_map rp) as [|e m]; [done|].
    exists e.2. split; [done|]. apply Hr. constructor. }
  assert (∀ r, 1 ≤ r → ∀ k, is_Some (scope_from_u8 k) → is_Some (scope_from_u8 k) ∧
    scope_inv ∅ ∅ (LocationScopeState_new r) ∧ 1 ≤ replication_factor (LocationScopeState_new r)) as Hsc.
  { intros. split_and!; [done|apply scope_inv_new|done]. }
  simpl. rewrite Hn. simpl.
  destruct (rp_get rp Region) as [r|] eqn:Er; destruct (rp_get rp Zone) as [z|] eqn:Ez; simpl;
    (eexists; split; [reflexivity|]; split; [done|]; split; [|simpl; set_solver]);
    repeat (apply Forall_cons_2; [apply Hsc; [eauto using rp_get_pos|by eexists]|]); apply Forall_nil_2.
Qed.

(** ** Queries against the node set *)

(** Node [n] has an attribute that satisfies the predicate. *)
Definition matches (p : Attr → bool) (A : gmap Z Attr) (n : Z) : bool :=
  match A !! n with Some a => p a | None => false end.

Lemma merge_domains_spec target ds : ∀ m,
  Z.of_nat (size m) < target →
  match merge_domains target ds m with
  | (m', true) => m ⊆ m' ∧ m' ⊆ m ∪ list_to_set ds ∧ target ≤ Z.of_nat (size m')
  | (m', false) => m' = m ∪ list_to_set ds ∧ Z.of_nat (size m') < target
  end.
Proof.
  induction ds as [|d ds IH]; intros m Hm; simpl; [split; [set_solver|done]|].
  destruct (Z.leb_spec target (Z.of_nat (size (m ∪ {[d]})))) as [Hle|Hlt]; [set_solver|].
  specialize (IH (m ∪ {[d]}) Hlt). destruct (merge_domains target ds (m ∪ {[d]})) as [m' []];
    [set_solver|]. destruct IH as [-> ?]. split; [set_solver|done].
Qed.

(** The domains listed for the matching attribute values. *)
Definition listed (p : Attr → bool) (l : list (Attr * gset DomainName)) : gset DomainName :=
  foldr (λ '(a, ds) acc, if p a then ds ∪ acc else acc) ∅ l.

Lemma write_quorum_loop_spec target p l : ∀ m,
  Z.of_nat (size m) < target →
  write_quorum_loop target p l m = true ↔ target ≤ Z.of_nat (size (m ∪ listed p l)).
Proof.
  induction l as [|[a ds] l IH]; intros m Hm; simpl.
  - rewrite (right_id_L ∅ (∪)). split; [done|lia].
  - destruct (p a); [|by apply IH].
    pose proof (merge_domains_spec target (elements ds) m Hm) as Hmd.
    destruct (merge_domains target (elements ds) m) as [m' []]; rewrite list_to_set_elements_L in Hmd.
    + destruct Hmd as (_ & Hsub & Hle). split; [|done]. intros _.
      assert (size m' ≤ size (m ∪ (ds ∪ listed p l)))%nat by (apply subseteq_size; set_solver). lia.
    + destruct Hmd as [-> Hlt]. rewrite IH by done. by rewrite (assoc_L (∪)).
Qed.

Lemma elem_of_listed p l d :
  d ∈ listed p l ↔ ∃ a ds, (a, ds) ∈ l ∧ p a = true ∧ d ∈ ds.
Proof.
  induction l as [|[a ds] l IH]; simpl; [set_solver|].
  setoid_rewrite elem_of_cons. destruct (p a) eqn:Ha; [rewrite elem_of_union|]; rewrite IH;
    naive_solver congruence.
Qed.

(** The domains of a scope with at least one matching node. *)
Definition touched (p : Attr → bool) (A : gmap Z Attr) (st : LocationScopeState) : gset DomainName :=
  set_omap (λ n, node_to_fd st !! n) (filter (λ n, matches p A n = true) (dom A)).

Lemma elem_of_touched p A st d :
  d ∈ touched p A st ↔ ∃ n, node_to_fd st !! n = Some d ∧ matches p A n = true.
Proof.
  unfold touched. rewrite elem_of_set_omap. setoid_rewrite elem_of_filter.
  setoid_rewrite elem_of_dom. split; [naive_solver|]. intros (n & Hn & Hm). exists n.
  split_and!; try done. unfold matches in Hm. by destruct (A !! n).
Qed.

Lemma scope_write_quorum_spec S A st p :
  scope_inv S A st → 1 ≤ replication_factor st →
  scope_write_quorum p st = true ↔ replication_factor st ≤ Z.of_nat (size (touched p A st)).
Proof.
  intros Hinv Hr. unfold scope_write_quorum.
  rewrite write_quorum_loop_spec by (rewrite size_empty; lia). rewrite (left_id_L ∅ (∪)).
  replace (listed p (map_to_list (replication_fds st))) with (touched p A st); [done|].
  apply set_eq. intros d. rewrite elem_of_listed, elem_of_touched.
  setoid_rewrite elem_of_map_to_list. unfold matches. split.
  - intros (n & Hn & Hm). destruct (A !! n) as [a|] eqn:Ha; [|done].
    assert (d ∈ default ∅ (replication_fds st !! a)) as Hd by (apply (si_rep _ _ _ Hinv); eauto).
    destruct (replication_fds st !! a) as [ds|] eqn:E; [|set_solver]. eauto.
  - intros (a & ds & E & Hp & Hd).
    assert (d ∈ default ∅ (replication_fds st !! a)) as Hd' by (by rewrite E).
    apply (si_rep _ _ _ Hinv) in Hd' as (n & Hn & Ha). exists n. by rewrite Ha.
Qed.

(** Adding up counters over the attribute values counts the matching nodes. *)
Lemma sum_counters_spec U (A : gmap Z Attr) (f : Count → Z) (q : Z → bool) p
    (counters : gmap Attr Count) :
  Z.of_nat (size U) ≤ u32_max →
  (∀ a c, counters !! a = Some c → f c = cnt U (λ n, has_attr A a n && q n)) →
  (∀ a, counters !! a = None → cnt U (λ n, has_attr A a n && q n) = 0) →
  sum_counters p f counters = cnt U (λ n, matches p A n && q n).
Proof.
  intros HU Hsome Hnone.
  set (g := λ (L : list Attr) (n : Z),
    match A !! n with Some a => p a && bool_decide (a ∈ L) | None => false end && q n).
  assert (∀ l L, NoDup (L ++ l.*1) → (∀ a c, (a, c) ∈ l → counters !! a = Some c) →
    foldl (λ acc '(a, c), if p a then as_u32 (acc + f c) else acc) (cnt U (g L)) l =
      cnt U (g (L ++ l.*1))) as Hgen.
  { induction l as [|[a c] l IH]; intros L Hnd Hl; simpl; [by rewrite app_nil_r|].
    assert ((if p a then as_u32 (cnt U (g L) + f c) else cnt U (g L)) = cnt U (g (L ++ [a]))) as ->.
    { assert (a ∉ L) as HaL by (apply NoDup_app in Hnd as (_ & Hd & _); intros Hin; eapply Hd; [done|constructor]).
      assert (∀ n, g (L ++ [a]) n = g L n || (p a && (has_attr A a n && q n))) as Hg.
      { intros n. unfold g, has_attr. destruct (A !! n) as [x|] eqn:Hx.
        - destruct (decide (x = a)) as [->|Hne].
          + rewrite (bool_decide_true (a ∈ L ++ [a])) by set_solver.
            rewrite (bool_decide_false (a ∈ L)), (bool_decide_true (Some a = Some a)) by done.
            by destruct (p a), (q n).
          + rewrite (bool_decide_false (Some x = Some a)) by congruence.
            rewrite (bool_decide_ext (x ∈ L ++ [a]) (x ∈ L)) by set_solver.
            by rewrite andb_false_l, andb_false_r, orb_false_r.
        - rewrite bool_decide_false by done. by rewrite andb_false_l, andb_false_r. }
      rewrite (cnt_ext U (g (L ++ [a])) _ (λ n _, Hg n)).
      destruct (p a) eqn:Hp; [|apply cnt_ext; intros; by rewrite andb_false_l, orb_false_r].
      rewrite (Hsome a c) by (apply Hl; constructor).
      rewrite <- cnt_or.
      - apply wrap_small. split; [apply cnt_nonneg|]. etrans; [apply cnt_le_size|done].
      - intros n _ Hgn. unfold g in Hgn. destruct (A !! n) as [x|] eqn:Hx; [|done].
        apply andb_prop in Hgn as [[_ HxL%bool_decide_eq_true]%andb_prop _].
        unfold has_attr. rewrite Hx, bool_decide_false; [done|]. congruence. }
    rewrite IH; [by rewrite <- app_assoc|by rewrite <- app_assoc|]. intros. apply Hl. by right. }
  unfold sum_counters.
  assert (0 = cnt U (g [])) as ->.
  { symmetry. apply cnt_zero. intros n _. unfold g. destruct (A !! n); [|done].
    by rewrite bool_decide_false, andb_false_r by set_solver. }
  rewrite Hgen; [|apply NoDup_fst_map_to_list|by intros ? ? ?%elem_of_map_to_list].
  apply cnt_ext. intros n Hn. unfold g, matches. destruct (A !! n) as [a|] eqn:Ha; [|done].
  destruct (counters !! a) as [c|] eqn:Hc.
  - rewrite bool_decide_true; [by rewrite andb_true_r|].
    apply list_elem_of_fmap. exists (a, c). by rewrite elem_of_map_to_list.
  - specialize (Hnone _ Hc). rewrite cnt_zero in Hnone. specialize (Hnone n Hn).
    unfold has_attr in Hnone. rewrite Ha, bool_decide_true in Hnone by done. simpl in Hnone.
    by rewrite Hnone, !andb_false_r.
Qed.

(** Every node of domain [d] matches and is (or is not) authoritative. *)
Definition domain_all (S : gmap Z StorageState) (A : gmap Z Attr) (st : LocationScopeState)
    (p : Attr → bool) (auth : bool) (d : DomainName) : Prop :=
  ∀ n, node_to_fd st !! n = Some d → matches p A n = true ∧ auth_node S n = auth.

Section Domain.
Context (S : gmap Z StorageState) (A : gmap Z Attr) (st : LocationScopeState).
Context (Hok : storage_ok S) (Hinv : scope_inv S A st).
Context (d : DomainName) (fd : FailureDomainState) (Hfd : failure_domains st !! d = Some fd).

Let in_d (auth : bool) (n : Z) : bool := at_fd (node_to_fd st) d n && Bool.eqb (auth_node S n) auth.

Lemma counter_split a :
  per_attribute_counter fd !! a = count_entry
    (cnt (dom S) (λ n, has_attr A a n && in_d true n) + cnt (dom S) (λ n, has_attr A a n && in_d false n))
    (cnt (dom S) (λ n, has_attr A a n && in_d true n)).
Proof using Hinv Hfd.
  rewrite (si_counts _ _ _ Hinv _ _ _ Hfd). unfold counts_of. rewrite <- cnt_or.
  - f_equal; apply cnt_ext; intros n _; unfold in_d;
      by destruct (at_fd _ d n), (has_attr A a n), (auth_node S n).
  - intros n _. unfold in_d. by destruct (has_attr A a n), (at_fd _ d n), (auth_node S n).
Qed.

Lemma counter_sums p :
  sum_counters p num_authoritative_nodes (per_attribute_counter fd) =
    cnt (dom S) (λ n, matches p A n && in_d true n) ∧
  sum_counters p num_non_auth_nodes (per_attribute_counter fd) =
    cnt (dom S) (λ n, matches p A n && in_d false n).
Proof using Hok Hinv Hfd.
  destruct Hok as [Hsize _].
  assert (∀ a f, 0 ≤ cnt (dom S) (λ n, has_attr A a n && f n) ≤ u32_max) as Hb.
  { intros a f. split; [apply cnt_nonneg|]. etrans; [apply cnt_le_size|done]. }
  split; apply sum_counters_spec; try done; intros a; rewrite counter_split; unfold count_entry;
    pose proof (Hb a (in_d true)); pose proof (Hb a (in_d false));
    case_match eqn:E; bool_to_prop; try done; try lia; intros c [= <-]; simpl; [done|].
  unfold num_non_auth_nodes, as_u32. simpl. rewrite wrap_small by (unfold in_u; lia). lia.
Qed.

Lemma domain_nodes : num_nodes fd = cnt (dom S) (at_fd (node_to_fd st) d) ∧ 0 < num_nodes fd.
Proof using Hinv Hfd.
  rewrite (si_nodes _ _ _ Hinv _ _ Hfd). split; [done|]. apply cnt_pos.
  assert (is_Some (failure_domains st !! d)) as [n Hn]%(si_fd _ _ _ Hinv) by eauto.
  exists n. rewrite at_fd_true. split; [by eapply Hinv|done].
Qed.

Lemma domain_complete p auth :
  num_nodes fd ≤ cnt (dom S) (λ n, matches p A n && in_d auth n) ↔ domain_all S A st p auth d.
Proof using Hinv Hfd.
  rewrite (proj1 domain_nodes). split.
  - intros Hle n Hn. apply (cnt_full _ (λ n, matches p A n && in_d auth n)) with (n := n) in Hle.
    + apply andb_prop in Hle as [? [_ ?%Bool.eqb_prop]%andb_prop]. done.
    + by intros m _ [_ [? _]%andb_prop]%andb_prop.
    + by eapply Hinv.
    + by apply at_fd_true.
  - intros Hall. apply cnt_mono. intros n _ Hn. unfold in_d. rewrite Hn. apply at_fd_true in Hn.
    destruct (Hall n Hn) as [-> ->]. by rewrite eqb_reflx.
Qed.

Lemma domain_match_spec p :
  match domain_match p fd with
  | MatchAuth => domain_all S A st p true d
  | MatchNonAuth => domain_all S A st p false d
  | MatchNone => ¬ domain_all S A st p true d ∧ ¬ domain_all S A st p false d
  end.
Proof using Hok Hinv Hfd.
  unfold domain_match. destruct domain_nodes as [_ Hpos].
  rewrite (proj2 (Z.eqb_neq (num_nodes fd) 0)) by lia.
  destruct (counter_sums p) as [-> ->]. pose proof (domain_complete p true).
  pose proof (domain_complete p false).
  repeat match goal with |- context [if ?b then _ else _] => destruct b eqn:? end;
    rewrite ?andb_true_iff, ?andb_false_iff in *; rewrite <- ?domain_complete; lia.
Qed.
End Domain.

(** The number of domains of each kind. *)
Definition is_auth_match (p : Attr → bool) (e : DomainName * FailureDomainState) : bool :=
  match domain_match p e.2 with MatchAuth => true | _ => false end.
Definition is_non_auth_match (p : Attr → bool) (e : DomainName * FailureDomainState) : bool :=
  match domain_match p e.2 with MatchNonAuth => true | _ => false end.

Lemma count_matching_domains_spec p st :
  Z.of_nat (size (failure_domains st)) ≤ u32_max →
  count_matching_domains p st =
    (cnt_list (is_auth_match p) (map_to_list (failure_domains st)),
     cnt_list (is_non_auth_match p) (map_to_list (failure_domains st))) ∧
  cnt_list (is_auth_match p) (map_to_list (failure_domains st)) +
  cnt_list (is_non_auth_match p) (map_to_list (failure_domains st)) ≤
    Z.of_nat (size (failure_domains st)).
Proof.
  rewrite <- length_map_to_list. unfold count_matching_domains.
  assert (∀ l x y, Z.of_nat (length l) + x + y ≤ u32_max → 0 ≤ x → 0 ≤ y →
    foldl (count_domain p) (x, y) l = (x + cnt_list (is_auth_match p) l, y + cnt_list (is_non_auth_match p) l) ∧
    cnt_list (is_auth_match p) l + cnt_list (is_non_auth_match p) l ≤ Z.of_nat (length l)) as Hgen.
  { induction l as [|[d fd] l IH]; intros x y Hb Hx Hy; cbn [foldl length cnt_list].
    { split; [|done]. f_equal; lia. }
    cbn [length] in Hb. unfold is_auth_match at 1 3, is_non_auth_match at 1 3.
    unfold count_domain at 2. cbn [fst snd].
    destruct (domain_match p fd); cbn [Z.b2z]; unfold as_u32; rewrite ?wrap_small by (unfold in_u; lia);
      (match goal with |- foldl _ (?x', ?y') _ = _ ∧ _ => destruct (IH x' y') as [-> ?]; [lia..|] end);
      (split; [f_equal; lia|lia]). }
  intros Hl. destruct (Hgen (map_to_list (failure_domains st)) 0 0) as [-> Hle]; [lia..|].
  split; [done|lia].
Qed.

(** There are at most as many domains as nodes. *)
Lemma domains_size S A st :
  scope_inv S A st → (size (failure_domains st) ≤ size (dom S))%nat.
Proof.
  intros Hinv. rewrite <- size_dom.
  assert (∀ (l : list Z) (X : gset DomainName), NoDup l →
    (∀ d, d ∈ X → ∃ n, n ∈ l ∧ node_to_fd st !! n = Some d) → (size X ≤ length l)%nat) as Hgen.
  { induction l as [|n l IH]; intros X Hnd HX; simpl.
    - assert (X = ∅) as -> by (apply set_eq; intros d; set_solver). by rewrite size_empty.
    - apply NoDup_cons in Hnd as [_ Hnd].
      destruct (node_to_fd st !! n) as [d0|] eqn:E.
      + assert (size (X ∖ {[d0]}) ≤ length l)%nat.
        { apply IH; [done|]. intros d [Hd Hne]%elem_of_difference.
          destruct (HX d Hd) as (m & [->|Hm]%elem_of_cons & Hf); [set_solver|eauto]. }
        assert (size X ≤ size ({[d0]} ∪ X ∖ {[d0]}))%nat.
        { apply subseteq_size. intros d Hd. destruct (decide (d = d0)); set_solver. }
        rewrite size_union, size_singleton in * by set_solver. lia.
      + etrans; [apply IH; [done|]|lia]. intros d Hd.
        destruct (HX d Hd) as (m & [->|Hm]%elem_of_cons & Hf); [congruence|eauto]. }
  etrans; [apply (Hgen (elements (dom S))); [apply NoDup_elements|]|done].
  intros d Hd%elem_of_dom. apply (si_fd _ _ _ Hinv) in Hd as [n Hn]. exists n.
  split; [|done]. apply elem_of_elements. by eapply Hinv.
Qed.

(** The domains that the f-majority check counts. *)
Definition covered (p : Attr → bool) (st : LocationScopeState) : gset DomainName :=
  list_to_set (filter (λ e, (is_auth_match p e || is_non_auth_match p e) = true)
    (map_to_list (failure_domains st))).*1.

Lemma covered_size p st :
  Z.of_nat (size (covered p st)) =
    cnt_list (is_auth_match p) (map_to_list (failure_domains st)) +
    cnt_list (is_non_auth_match p) (map_to_list (failure_domains st)).
Proof.
  unfold covered. rewrite size_list_to_set.
  2: { apply NoDup_fmap_2_strong; [|apply NoDup_filter, NoDup_map_to_list].
       intros [d1 f1] [d2 f2] [_ H1%elem_of_map_to_list]%list_elem_of_filter
         [_ H2%elem_of_map_to_list]%list_elem_of_filter E. simpl in E. congruence. }
  rewrite length_fmap, <- cnt_list_filter.
  induction (map_to_list (failure_domains st)) as [|x l IH]; simpl; [done|].
  rewrite IH. unfold is_auth_match, is_non_auth_match. destruct (domain_match p x.2); simpl; lia.
Qed.

Lemma elem_of_covered S A st p d :
  storage_ok S → scope_inv S A st → d ∈ covered p st ↔
  d ∈ dom (failure_domains st) ∧ (domain_all S A st p true d ∨ domain_all S A st p false d).
Proof.
  intros Hok Hinv. unfold covered. rewrite elem_of_list_to_set, list_elem_of_fmap.
  setoid_rewrite list_elem_of_filter. unfold is_auth_match, is_non_auth_match. split.
  - intros ([d' fd] & -> & Hm & Hin%elem_of_map_to_list). simpl in *.
    split; [by apply elem_of_dom_2 in Hin|].
    pose proof (domain_match_spec S A st Hok Hinv _ _ Hin p).
    destruct (domain_match p fd); [by left|by right|done].
  - intros [[fd Hfd]%elem_of_dom Hall]. exists (d, fd). rewrite elem_of_map_to_list. simpl.
    split_and!; [done| |done].
    pose proof (domain_match_spec S A st Hok Hinv _ _ Hfd p).
    destruct (domain_match p fd); [done|done|tauto].
Qed.

(** One round of the f-majority loop, on a scope that keeps the invariant. *)
Lemma fmajority_loop_cons S A k st ss p :
  storage_ok S → scope_inv S A st → 1 ≤ replication_factor st →
  fmajority_loop p ((k, st) :: ss) =
    if Z.max 0 (Z.of_nat (size (failure_domains st)) - replication_factor st) + 1
       <=? Z.of_nat (size (covered p st))
    then Some (Some (Z.max 0 (Z.of_nat (size (failure_domains st)) - replication_factor st) + 1
                     <=? cnt_list (is_auth_match p) (map_to_list (failure_domains st))))
    else fmajority_loop p ss.
Proof.
  intros [Hsize _] Hinv Hr. cbn [fmajority_loop].
  pose proof (domains_size S A st Hinv) as Hd.
  destruct (count_matching_domains_spec p st) as [Hc Hle]; [lia|].
  pose proof (cnt_list_nonneg (is_auth_match p) (map_to_list (failure_domains st))).
  pose proof (cnt_list_nonneg (is_non_auth_match p) (map_to_list (failure_domains st))).
  unfold expect_u32. rewrite (proj2 (Z.leb_le _ _)) by lia. simpl. rewrite Hc, covered_size.
  unfold saturating_sub, as_u32. rewrite !wrap_small by (unfold in_u; lia). done.
Qed.

(** The checks of [check_fmajority] on every scope: it never panics, and it
    passes exactly when some scope has enough covered domains. *)
Lemma check_fmajority_passed c p :
  checker_inv c →
  ∃ r, check_fmajority p c = Some r ∧
  (fm_passed r = true ↔ ∃ e, e ∈ scopes c ∧
     Z.of_nat (size (failure_domains e.2)) - replication_factor e.2 < Z.of_nat (size (covered p e.2)) ∧
     covered p e.2 ≠ ∅).
Proof.
  intros [Hok Hdom Hsc Hnode]. unfold check_fmajority.
  assert (∃ r, fmajority_loop p (scopes c) = Some r ∧ (is_Some r ↔ ∃ e, e ∈ scopes c ∧
     Z.of_nat (size (failure_domains e.2)) - replication_factor e.2 < Z.of_nat (size (covered p e.2)) ∧
     covered p e.2 ≠ ∅)) as (r & Hr & Hspec).
  { clear Hnode. induction Hsc as [|[k st] ss [Hst Hf] _ (r & IH & IHs)].
    - exists None. split; [done|]. split; [by intros [? [=]]|]. set_solver.
    - rewrite (fmajority_loop_cons _ _ k st ss p Hok Hst Hf).
      assert (covered p st ≠ ∅ ↔ 0 < Z.of_nat (size (covered p st))) as Hne.
      { rewrite <- leibniz_equiv_iff, <- size_empty_iff. lia. }
      setoid_rewrite elem_of_cons. destruct (Z.leb_spec
        (Z.max 0 (Z.of_nat (size (failure_domains st)) - replication_factor st) + 1)
        (Z.of_nat (size (covered p st)))) as [Hle|Hgt].
      + eexists. split; [done|]. split; [|eauto]. intros _. exists (k, st). simpl.
        split_and!; [by left|lia|apply Hne; lia].
      + exists r. split; [done|]. rewrite IHs. split; [naive_solver|].
        intros (e & [->|He] & Hlt & Hn); [|eauto]. simpl in *. apply Hne in Hn. lia. }
  rewrite Hr. simpl. destruct r as [[]|].
  - eexists. split; [done|]. rewrite <- Hspec. split; eauto.
  - eexists. split; [done|]. rewrite <- Hspec. split; eauto.
  - unfold is_complete_set.
    assert (∃ e, head (filter (λ e : Z * LocationScopeState, e.1 =? scope_as_u8 Node) (scopes c)) = Some e)
      as [e He].
    { apply list_elem_of_fmap in Hnode as (e & Hk & He).
      destruct (head (filter (λ e : Z * LocationScopeState, e.1 =? scope_as_u8 Node) (scopes c)))
        as [e'|] eqn:E; [eauto|]. apply head_None in E. exfalso. apply (not_elem_of_nil e).
      rewrite <- E. apply elem_of_filter_bool. split; [by apply Z.eqb_eq|done]. }
    rewrite He. simpl. unfold count_authoritative_nodes, count_nodes, expect_u32.
    rewrite (proj2 (Z.leb_le _ _)).
    + simpl. eexists. split; [done|]. rewrite <- Hspec. split; [by case_match|by intros [? [=]]].
    + destruct Hok as [Hs _]. rewrite size_dom, <- length_map_to_list in Hs.
      etrans; [|exact Hs]. apply Nat2Z.inj_le, length_filter.
Qed.

(** One call that changes the attributes. *)
Inductive checker_step `{Merge} (c c' : NodeSetChecker) : Prop :=
| cs_set n a : c' = set_attribute n a c → checker_step c c'
| cs_each l a : c' = set_attribute_on_each l a c → checker_step c c'
| cs_fill a : c' = fill_with a c → checker_step c c'
| cs_merge n a : c' = merge_attribute n a c → checker_step c c'.

Definition skeleton (c : NodeSetChecker) : list (Z * gmap Z DomainName * Z) :=
  (λ e, (e.1, node_to_fd e.2, replication_factor e.2)) <$> scopes c.

Lemma checker_step_inv `{Merge} c c' :
  checker_step c c' → checker_inv c →
  checker_inv c' ∧ skeleton c' = skeleton c ∧ node_to_storage_state c' = node_to_storage_state c.
Proof.
  assert (∀ l a c, skeleton (set_attribute_on_each l a c) = skeleton c ∧
    node_to_storage_state (set_attribute_on_each l a c) = node_to_storage_state c) as Heach.
  { unfold set_attribute_on_each. induction l as [|n l IH]; intros a c0; simpl; [done|].
    destruct (IH a (set_attribute n a c0)) as [-> ->].
    split; [apply set_attribute_scopes_other|apply set_attribute_storage]. }
  intros [n a ->|l a ->|a ->|n a ->] Hc.
  - split_and!; [by apply set_attribute_inv|apply set_attribute_scopes_other|apply set_attribute_storage].
  - split_and!; [by apply set_attribute_on_each_inv|apply Heach..].
  - split_and!; [by apply set_attribute_on_each_inv|apply Heach..].
  - split; [by apply merge_attribute_inv|]. unfold merge_attribute. repeat case_match; try done;
      (split; [apply set_attribute_scopes_other|apply set_attribute_storage]).
Qed.

Lemma checker_steps_inv `{Merge} c c' :
  rtc checker_step c c' → checker_inv c →
  checker_inv c' ∧ skeleton c' = skeleton c ∧ node_to_storage_state c' = node_to_storage_state c.
Proof.
  induction 1 as [|c1 c2 c3 Hs _ IH]; [done|]. intros Hc.
  destruct (checker_step_inv _ _ Hs Hc) as (Hc2 & E1 & E2). destruct (IH Hc2) as (? & -> & ->). done.
Qed.

Lemma checker_new_inv nodeset cfg rp :
  rp_wf rp → NoDup nodeset → Z.of_nat (length nodeset) ≤ u32_max →
  ∃ c, NodeSetChecker_new nodeset cfg rp = Some c ∧ checker_inv c.
Proof.
  intros Hrp Hnd Hlen. unfold NodeSetChecker_new.
  destruct (new_scopes_ok rp Hrp) as (ss & -> & Hne & Hok). simpl. rewrite bool_decide_false by done.
  destruct (add_nodes_ok cfg nodeset ss ∅) as (ss' & S' & -> & Hs & [Hss Hnode]);
    [done|set_solver|by rewrite dom_empty_L, size_empty|by split|done|].
  exists (mkChecker ss' ∅ S'). split; [done|]. split; simpl; [done|set_solver| |done].
  eapply Forall_impl; [exact Hss|]. naive_solver.
Qed.
End Checker.

Section Theorems.
Context {Attr : Type} `{Countable Attr} `{M : !Merge (Attr := Attr)}.

(** The counters are exact.  A checker can always be built for a node set
    and a replication property, and after any sequence of attribute changes,
    at every scope: a failure domain's node count is the number of its
    non-disabled nodes; its counter of an attribute value is the number of its
    nodes with that value, with the authoritative ones counted apart, and is
    absent when there are none; and the domains listed for a value are exactly
    those with a node that has it. *)
Theorem checker_counters_exact (nodeset : list Z) (cfg : NodesConfiguration)
    (rp : ReplicationProperty) :
  rp_wf rp → NoDup nodeset → Z.of_nat (length nodeset) ≤ u32_max →
  ∃ c0 : NodeSetChecker, NodeSetChecker_new nodeset cfg rp = Some c0 ∧
  ∀ c, rtc checker_step c0 c →
    storage_ok (node_to_storage_state c) ∧
    dom (node_to_attr c) ⊆ dom (node_to_storage_state c) ∧
    ∀ e, e ∈ scopes c → scope_inv (node_to_storage_state c) (node_to_attr c) e.2.
Proof.
  intros Hrp Hnd Hlen. destruct (checker_new_inv (Attr := Attr) nodeset cfg rp Hrp Hnd Hlen) as (c0 & Hnew & Hc0).
  exists c0. split; [done|]. intros c Hsteps. destruct (checker_steps_inv c0 c Hsteps Hc0) as (Hc & _).
  destruct Hc as [Hok Hdom Hsc _]. split_and!; [done..|]. intros e He.
  rewrite Forall_forall in Hsc. by apply Hsc.
Qed.

(** C35. Write quorums.  The early-exit loops decide whether, at every scope of
    the replication property, the nodes with a matching attribute are spread
    over at least as many failure domains as copies are required. *)
Theorem check_write_quorum_spec nodeset cfg rp (c0 c : NodeSetChecker) (p : Attr → bool) :
  rp_wf rp → NoDup nodeset → Z.of_nat (length nodeset) ≤ u32_max →
  NodeSetChecker_new nodeset cfg rp = Some c0 → rtc checker_step c0 c →
  check_write_quorum p c = true ↔
  ∀ e, e ∈ scopes c → ∃ D : gset DomainName, replication_factor e.2 ≤ Z.of_nat (size D) ∧
    ∀ d, d ∈ D → ∃ n, node_to_fd e.2 !! n = Some d ∧ matches p (node_to_attr c) n = true.
Proof.
  intros Hrp Hnd Hlen Hnew Hsteps.
  destruct (checker_new_inv (Attr := Attr) nodeset cfg rp Hrp Hnd Hlen) as (c0' & Hnew' & Hc0). simplify_eq.
  destruct (checker_steps_inv c0 c Hsteps Hc0) as ([_ _ Hsc _] & _). rewrite Forall_forall in Hsc.
  unfold check_write_quorum. rewrite forallb_forall. setoid_rewrite <- list_elem_of_In.
  apply forall_proper. intros e. apply forall_proper. intros He. destruct (Hsc e He) as [Hinv Hr].
  rewrite (scope_write_quorum_spec _ _ _ p Hinv Hr). split.
  - intros Hle. exists (touched p (node_to_attr c) e.2). split; [done|]. intros d. apply elem_of_touched.
  - intros (D & HD & Hin). etrans; [exact HD|]. apply Nat2Z.inj_le, subseteq_size.
    intros d Hd%Hin. by apply elem_of_touched.
Qed.

(** Domains covered by an f-majority and touched by a write quorum overlap. *)
Lemma covered_touched_overlap S (A1 A2 : gmap Z Attr) (st1 st2 : LocationScopeState)
    (p1 p2 : Attr → bool) :
  storage_ok S → scope_inv S A1 st1 → scope_inv S A2 st2 → node_to_fd st1 = node_to_fd st2 →
  replication_factor st1 ≤ Z.of_nat (size (touched p2 A2 st2)) →
  Z.of_nat (size (failure_domains st1)) - replication_factor st1 < Z.of_nat (size (covered p1 st1)) →
  ∃ n, matches p1 A1 n = true ∧ matches p2 A2 n = true.
Proof.
  intros Hok H1 H2 Hnf Hw Hf.
  assert (touched p2 A2 st2 ⊆ dom (failure_domains st1)) as Ht.
  { intros d (n & Hn & _)%elem_of_touched. apply elem_of_dom, (si_fd _ _ _ H1). rewrite Hnf. eauto. }
  assert (covered p1 st1 ⊆ dom (failure_domains st1)) as Hc.
  { intros d Hd. by apply (elem_of_covered S A1 st1 p1 d Hok H1) in Hd as [? _]. }
  destruct (decide (covered p1 st1 ∩ touched p2 A2 st2 = ∅)) as [Hdis|Hov].
  - assert (size (covered p1 st1 ∪ touched p2 A2 st2) ≤ size (dom (failure_domains st1)))%nat as Hsz
      by (apply subseteq_size; set_solver).
    rewrite size_union in Hsz by set_solver. rewrite size_dom in Hsz. lia.
  - apply set_choose_L in Hov as [d [Hd1 Hd2]%elem_of_intersection].
    apply elem_of_touched in Hd2 as (n & Hn & Hm). exists n. split; [|done].
    apply (elem_of_covered S A1 st1 p1 d Hok H1) in Hd1 as [_ Hall]. rewrite <- Hnf in Hn.
    destruct Hall as [Hall|Hall]; by apply Hall.
Qed.

(** C15. Quorum intersection.  If the nodes that match [p1] pass the f-majority
    check and the nodes that match [p2] pass the write-quorum check, under any
    two assignments of attributes over the same node set, then some node
    matches both: an f-majority intersects every legal write quorum. *)
Theorem fmajority_intersects_write_quorum nodeset cfg rp (c0 c1 c2 : NodeSetChecker)
    (p1 p2 : Attr → bool) (r : FMajorityResult) :
  rp_wf rp → NoDup nodeset → Z.of_nat (length nodeset) ≤ u32_max →
  NodeSetChecker_new nodeset cfg rp = Some c0 →
  rtc checker_step c0 c1 → rtc checker_step c0 c2 →
  check_fmajority p1 c1 = Some r → fm_passed r = true → check_write_quorum p2 c2 = true →
  ∃ n, matches p1 (node_to_attr c1) n = true ∧ matches p2 (node_to_attr c2) n = true.
Proof.
  intros Hrp Hnd Hlen Hnew Hs1 Hs2 Hf Hpass Hw.
  destruct (checker_new_inv (Attr := Attr) nodeset cfg rp Hrp Hnd Hlen) as (c0' & Hnew' & Hc0). simplify_eq.
  destruct (checker_steps_inv c0 c1 Hs1 Hc0) as (Hc1 & Hk1 & HS1).
  destruct (checker_steps_inv c0 c2 Hs2 Hc0) as (Hc2 & Hk2 & HS2).
  destruct (check_fmajority_passed c1 p1 Hc1) as (r' & Hr' & Hspec). simplify_eq.
  apply Hspec in Hpass as (e1 & He1 & Hlt & _).
  apply list_elem_of_lookup in He1 as [i Hi].
  assert (skeleton c1 = skeleton c2) as Hk by congruence.
  assert (∃ e2, scopes c2 !! i = Some e2 ∧ node_to_fd e2.2 = node_to_fd e1.2 ∧
    replication_factor e2.2 = replication_factor e1.2) as (e2 & Hi2 & Hnf & Hrf).
  { pose proof (f_equal (.!! i) Hk) as Hl. unfold skeleton in Hl.
    rewrite !list_lookup_fmap, Hi in Hl. destruct (scopes c2 !! i) as [e2|]; [|done].
    simpl in Hl. exists e2. split_and!; congruence. }
  destruct Hc1 as [Hok1 _ Hsc1 _], Hc2 as [_ _ Hsc2 _].
  rewrite Forall_lookup in Hsc1, Hsc2. destruct (Hsc1 _ _ Hi) as [Hst1 _].
  destruct (Hsc2 _ _ Hi2) as [Hst2 Hr2]. rewrite HS2, <- HS1 in Hst2.
  eapply (covered_touched_overlap _ _ _ e1.2 e2.2); [exact Hok1|done|done|done| |done].
  rewrite <- Hrf. apply (scope_write_quorum_spec _ _ _ p2 Hst2 Hr2).
  unfold check_write_quorum in Hw. rewrite forallb_forall in Hw. apply Hw.
  apply list_elem_of_In. by eapply list_elem_of_lookup_2.
Qed.

(** C36. F-majority.  The check never panics, and it passes exactly when at
    some scope with [R] required copies the failure domains whose nodes all
    match, and are all authoritative or all not, are more than all domains
    but [R]. *)
Theorem check_fmajority_spec nodeset cfg rp (c0 c : NodeSetChecker) (p : Attr → bool) :
  rp_wf rp → NoDup nodeset → Z.of_nat (length nodeset) ≤ u32_max →
  NodeSetChecker_new nodeset cfg rp = Some c0 → rtc checker_step c0 c →
  ∃ r, check_fmajority p c = Some r ∧
  (fm_passed r = true ↔
   ∃ e (D : gset DomainName), e ∈ scopes c ∧ D ≠ ∅ ∧
     Z.of_nat (size (failure_domains e.2)) - replication_factor e.2 < Z.of_nat (size D) ∧
     ∀ d, d ∈ D → d ∈ dom (failure_domains e.2) ∧
       ∃ auth, domain_all (node_to_storage_state c) (node_to_attr c) e.2 p auth d).
Proof.
  intros Hrp Hnd Hlen Hnew Hsteps.
  destruct (checker_new_inv (Attr := Attr) nodeset cfg rp Hrp Hnd Hlen) as (c0' & Hnew' & Hc0). simplify_eq.
  destruct (checker_steps_inv c0 c Hsteps Hc0) as (Hc & _).
  destruct (check_fmajority_passed c p Hc) as (r & Hr & Hspec). exists r. split; [done|].
  destruct Hc as [Hok _ Hsc _]. rewrite Forall_forall in Hsc. rewrite Hspec.
  apply exist_proper. intros e. split.
  - intros (He & Hlt & Hne). exists (covered p e.2). split_and!; [done..|]. intros d Hd.
    destruct (Hsc e He) as [Hst _].
    apply (elem_of_covered _ _ _ p d Hok Hst) in Hd as [? [?|?]]; eauto.
  - intros (D & He & Hne & Hlt & HD). destruct (Hsc e He) as [Hst _].
    assert (D ⊆ covered p e.2) as Hsub.
    { intros d Hd. apply (elem_of_covered _ _ _ p d Hok Hst).
      destruct (HD d Hd) as [? [[] ?]]; auto. }
    split_and!; [done| |set_solver].
    apply subseteq_size in Hsub. lia.
Qed.
End Theorems.

(** ** Instances *)

(** A boolean tag that merges by disjunction. *)
#[local] Instance bool_merge : Merge (Attr := bool) := {|
  attr_default := false;
  attr_merge x y := (x || y, negb (Bool.eqb (x || y) x)) |}.

(** Three nodes, two copies: nodes 1 and 2 are known, node 3 is not yet. *)
Definition demo_rp : ReplicationProperty := ReplicationProperty_new 2.
Definition demo_nodeset : list Z := [1; 2; 3].
Definition demo_checker : NodeSetChecker (Attr := bool) :=
  Eval vm_compute in
    match NodeSetChecker_new demo_nodeset demo_nodes demo_rp with
    | Some c => c | None => mkChecker [] ∅ ∅ end.

Lemma demo_checker_new : NodeSetChecker_new demo_nodeset demo_nodes demo_rp = Some demo_checker.
Proof. vm_compute. reflexivity. Qed.

Lemma demo_rp_wf : rp_wf demo_rp.
Proof.
  unfold rp_wf. simpl. split_and!; [repeat constructor|done|..].
  - intros e ->%list_elem_of_singleton. simpl. lia.
  - intros e e' ->%list_elem_of_singleton ->%list_elem_of_singleton. simpl. lia.
Qed.

Lemma demo_nodeset_NoDup : NoDup demo_nodeset.
Proof. apply (bool_decide_unpack _). vm_compute. done. Qed.

Definition demo_sealed : NodeSetChecker := set_attribute 2 true (set_attribute 1 true demo_checker).
Definition demo_written : NodeSetChecker := set_attribute 3 true (set_attribute 2 true demo_checker).

Lemma demo_sealed_steps : rtc checker_step demo_checker demo_sealed.
Proof. eapply rtc_l; [by eapply cs_set|]. apply rtc_once. by eapply cs_set. Qed.
Lemma demo_written_steps : rtc checker_step demo_checker demo_written.
Proof. eapply rtc_l; [by eapply cs_set|]. apply rtc_once. by eapply cs_set. Qed.

Lemma checker_counters_exact_witness :
  ∃ c0 : NodeSetChecker, NodeSetChecker_new (Attr := bool) demo_nodeset demo_nodes demo_rp = Some c0 ∧
    storage_ok (node_to_storage_state c0).
Proof.
  destruct (checker_counters_exact (Attr := bool) demo_nodeset demo_nodes demo_rp demo_rp_wf
    demo_nodeset_NoDup ltac:(vm_compute; discriminate)) as (c0 & Hnew & Hall).
  exists c0. split; [exact Hnew|]. apply (Hall c0). apply rtc_refl.
Defined.

Lemma check_write_quorum_spec_witness :
  check_write_quorum id demo_written = true ∧
  ∀ e, e ∈ scopes demo_written → ∃ D : gset DomainName,
    replication_factor e.2 ≤ Z.of_nat (size D) ∧
    ∀ d, d ∈ D → ∃ n, node_to_fd e.2 !! n = Some d ∧ matches id (node_to_attr demo_written) n = true.
Proof.
  assert (check_write_quorum id demo_written = true) as Hw by (vm_compute; reflexivity).
  split; [exact Hw|].
  apply (check_write_quorum_spec demo_nodeset demo_nodes demo_rp demo_checker demo_written id
    demo_rp_wf demo_nodeset_NoDup ltac:(vm_compute; discriminate) demo_checker_new demo_written_steps).
  exact Hw.
Defined.

Lemma fmajority_intersects_write_quorum_witness :
  check_fmajority id demo_sealed = Some FmSuccess ∧ check_write_quorum id demo_written = true ∧
  ∃ n, matches id (node_to_attr demo_sealed) n = true ∧ matches id (node_to_attr demo_written) n = true.
Proof.
  assert (check_fmajority id demo_sealed = Some FmSuccess) as Hf by (vm_compute; reflexivity).
  assert (check_write_quorum id demo_written = true) as Hw by (vm_compute; reflexivity).
  split; [exact Hf|split; [exact Hw|]].
  exact (fmajority_intersects_write_quorum demo_nodeset demo_nodes demo_rp demo_checker demo_sealed
    demo_written id id FmSuccess demo_rp_wf demo_nodeset_NoDup ltac:(vm_compute; discriminate)
    demo_checker_new demo_sealed_steps demo_written_steps Hf eq_refl Hw).
Defined.

Lemma check_fmajority_spec_witness :
  ∃ r, check_fmajority id demo_sealed = Some r ∧
  (fm_passed r = true ↔
   ∃ e (D : gset DomainName), e ∈ scopes demo_sealed ∧ D ≠ ∅ ∧
     Z.of_nat (size (failure_domains e.2)) - replication_factor e.2 < Z.of_nat (size D) ∧
     ∀ d, d ∈ D → d ∈ dom (failure_domains e.2) ∧ ∃ auth,
       domain_all (node_to_storage_state demo_sealed) (node_to_attr demo_sealed) e.2 id auth d).
Proof.
  exact (check_fmajority_spec demo_nodeset demo_nodes demo_rp demo_checker demo_sealed id
    demo_rp_wf demo_nodeset_NoDup ltac:(vm_compute; discriminate) demo_checker_new demo_sealed_steps).
Defined.
