(* ===== verification/Quorums.v ===== *)
(** * Quorums: what the checks of a node set mean, without attributes

    Different tasks of a replicated loglet ask the same questions about the same node
    set with different attributes: the sequencer which nodes have stored a batch, the
    task that finds the tail which nodes are sealed.  This file says what a write quorum
    and an f-majority are as properties of a set of nodes, that the checks of
    NodeSetChecker.v imply them for any type of attributes, and that the two intersect.

    It also models the effective node set (crates/types/src/replicated_loglet/log_nodeset.rs). *)

From stdpp Require Import strings gmap sorting.
From S2P Require Import Prelude BTreeMap Locality Replication NodesConfig NodeSetChecker.

Open Scope Z_scope.

(** ** Node sets *)

(** [LogNodeSetExt]. *)
Definition all_disabled (nodeset : list Z) (cfg : NodesConfiguration) : bool :=
  match nodeset with
  | [] => true
  | _ => forallb (λ n, bool_decide (get_log_server_storage_state cfg n = Disabled)) nodeset
  end.
Definition all_provisioning (nodeset : list Z) (cfg : NodesConfiguration) : bool :=
  match nodeset with
  | [] => true
  | _ => forallb (λ n, bool_decide (get_log_server_storage_state cfg n = Provisioning)) nodeset
  end.
(** [EffectiveNodeSet::new]. *)
Definition to_effective (nodeset : list Z) (cfg : NodesConfiguration) : list Z :=
  filter (λ n, storage_empty (get_log_server_storage_state cfg n) = false) nodeset.

(** ** Quorums *)

(** For each scope the failure domains of the nodes and the number of copies. *)
Abbreviation Scopes := (list (Z * gmap Z DomainName * Z)).

Definition domains_of (nf : gmap Z DomainName) : gset DomainName := map_img nf.

Definition is_write_quorum (sk : Scopes) (W : Z → Prop) : Prop :=
  ∀ k nf r, (k, nf, r) ∈ sk →
  ∃ D : gset DomainName, r ≤ Z.of_nat (size D) ∧ ∀ d, d ∈ D → ∃ n, nf !! n = Some d ∧ W n.

Definition is_fmajority (sk : Scopes) (F : Z → Prop) : Prop :=
  ∃ k nf r, (k, nf, r) ∈ sk ∧ ∃ D : gset DomainName,
    D ⊆ domains_of nf ∧ Z.of_nat (size (domains_of nf)) - r < Z.of_nat (size D)
    ∧ ∀ d n, d ∈ D → nf !! n = Some d → F n.

Lemma write_quorum_mono sk (W W' : Z → Prop) :
  (∀ n, W n → W' n) → is_write_quorum sk W → is_write_quorum sk W'.
Proof.
  intros HW Hq k nf r Hin. destruct (Hq k nf r Hin) as (D & Hs & HD). exists D. split; [done|].
  intros d Hd. destruct (HD d Hd) as (n & ? & ?). eauto.
Qed.

(** An f-majority intersects every write quorum. *)
Lemma quorums_intersect sk F W :
  is_fmajority sk F → is_write_quorum sk W → ∃ n, F n ∧ W n.
Proof.
  intros (k & nf & r & Hin & D1 & Hsub & Hsz & HF) HW.
  destruct (HW k nf r Hin) as (D2 & Hr & HD2).
  assert (D2 ⊆ domains_of nf) as Hsub2.
  { intros d (n & Hn & _)%HD2. apply elem_of_map_img. by exists n. }
  destruct (decide (D1 ∩ D2 = ∅)) as [Hdis|Hov].
  - assert (size (D1 ∪ D2) ≤ size (domains_of nf))%nat as Hle by (apply subseteq_size; set_solver).
    rewrite size_union in Hle by set_solver. lia.
  - apply set_choose_L in Hov as [d [H1 H2]%elem_of_intersection].
    destruct (HD2 d H2) as (n & Hn & ?). exists n. split; [by eapply HF|done].
Qed.

(** ** The checks *)

Section Checks.
Context {Attr : Type} `{Countable Attr}.
Implicit Types (c : NodeSetChecker (Attr := Attr)).

(** The nodes whose attribute matches. *)
Definition matching (p : Attr → bool) c (n : Z) : Prop := ∃ a, node_to_attr c !! n = Some a ∧ p a = true.

Lemma matches_matching p c n : matches p (node_to_attr c) n = true ↔ matching p c n.
Proof. unfold matches, matching. destruct (node_to_attr c !! n); naive_solver. Qed.

Lemma skeleton_scopes c k nf r :
  (k, nf, r) ∈ skeleton c → ∃ st, (k, st) ∈ scopes c ∧ node_to_fd st = nf ∧ replication_factor st = r.
Proof. intros ([k' st] & [= -> -> ->] & Hin)%list_elem_of_fmap. by exists st. Qed.

Lemma domains_of_scope S A (st : LocationScopeState (Attr := Attr)) :
  scope_inv S A st → dom (failure_domains st) = domains_of (node_to_fd st).
Proof.
  intros Hinv. apply set_eq. intros d. rewrite elem_of_dom, (si_fd _ _ _ Hinv d). unfold domains_of.
  by rewrite elem_of_map_img.
Qed.

Lemma check_write_quorum_sound p c :
  checker_inv c → check_write_quorum p c = true → is_write_quorum (skeleton c) (matching p c).
Proof.
  intros [_ _ Hsc _] Hw k nf r (st & Hin & <- & <-)%skeleton_scopes.
  rewrite Forall_forall in Hsc. destruct (Hsc _ Hin) as [Hinv Hr].
  unfold check_write_quorum in Hw. rewrite forallb_forall in Hw.
  specialize (Hw (k, st) (proj1 (list_elem_of_In _ _) Hin)).
  apply (scope_write_quorum_spec _ _ _ p Hinv Hr) in Hw.
  exists (touched p (node_to_attr c) st). split; [done|].
  intros d (n & Hn & Hm)%elem_of_touched. exists n. by rewrite <- matches_matching.
Qed.

Lemma check_fmajority_sound p c r :
  checker_inv c → check_fmajority p c = Some r → fm_passed r = true →
  is_fmajority (skeleton c) (matching p c).
Proof.
  intros Hc Hr Hp. destruct (check_fmajority_passed c p Hc) as (r' & Hr' & Hspec). simplify_eq.
  apply Hspec in Hp as ([k st] & Hin & Hsz & _). simpl in *. destruct Hc as [Hok _ Hsc _].
  rewrite Forall_forall in Hsc. destruct (Hsc _ Hin) as [Hinv _]. simpl in Hinv.
  exists k, (node_to_fd st), (replication_factor st). split.
  { apply list_elem_of_fmap. by exists (k, st). }
  exists (covered p st). rewrite <- (domains_of_scope _ _ _ Hinv), size_dom. split_and!; [|done|].
  - intros d Hd. by apply (elem_of_covered _ _ _ p d Hok Hinv) in Hd as [? _].
  - intros d n Hd Hn. apply (elem_of_covered _ _ _ p d Hok Hinv) in Hd as [_ Hall].
    apply matches_matching. destruct Hall as [Hall|Hall]; by apply Hall.
Qed.

End Checks.

(** ** The scopes do not depend on the attributes *)

Section Shape.
Context {A1 A2 : Type} `{Countable A1, Countable A2}.

Definition shape {A : Type} `{Countable A} (e : Z * LocationScopeState (Attr := A)) : Z * gmap Z DomainName * Z :=
  (e.1, node_to_fd e.2, replication_factor e.2).
Definition shapes {A : Type} `{Countable A} (l : list (Z * LocationScopeState (Attr := A))) : Scopes := shape <$> l.

Lemma bt_insert_shape k (st1 : LocationScopeState (Attr := A1)) (st2 : LocationScopeState (Attr := A2)) l1 l2 :
  shape (k, st1) = shape (k, st2) → shape <$> l1 = shape <$> l2 →
  shape <$> bt_insert k st1 l1 = shape <$> bt_insert k st2 l2.
Proof.
  intros Hst. revert l2. induction l1 as [|[k1 v1] l1 IH]; intros [|[k2 v2] l2] Hl; try discriminate.
  - simpl. by rewrite Hst.
  - rewrite !fmap_cons in Hl. injection Hl as Hk Hn Hr Hl. simpl in *. subst k2.
    assert (shape (k1, v1) = shape (k1, v2)) as Hv by (unfold shape; simpl; congruence).
    destruct (k <? k1); [by rewrite !fmap_cons, Hst, Hv, Hl|].
    destruct (k =? k1); [by rewrite !fmap_cons, Hst, Hl|]. by rewrite !fmap_cons, Hv, (IH l2).
Qed.

Lemma new_scopes_shape rp ss : ∀ (l1 : list (Z * LocationScopeState (Attr := A1))) (l2 : list (Z * LocationScopeState (Attr := A2))),
  shape <$> l1 = shape <$> l2 →
  shapes <$> new_scopes rp ss l1 = shapes <$> new_scopes rp ss l2.
Proof.
  induction ss as [|s ss IH]; intros l1 l2 Hl; simpl; [unfold shapes; by rewrite Hl|].
  destruct (copies_at_scope rp s) as [[r|]|]; simpl; [|by apply IH|done].
  apply IH, bt_insert_shape; [done|done].
Qed.

Lemma add_node_scopes_shape n loc (l1 : list (Z * LocationScopeState (Attr := A1))) :
  ∀ (l2 : list (Z * LocationScopeState (Attr := A2))), shape <$> l1 = shape <$> l2 →
  shapes <$> add_node_scopes n loc l1 = shapes <$> add_node_scopes n loc l2.
Proof.
  induction l1 as [|[k1 v1] l1 IH]; intros [|[k2 v2] l2] Hl; try discriminate; [done|].
  rewrite !fmap_cons in Hl. injection Hl as Hk Hn Hr Hl. simpl in *. subst k2.
  destruct (scope_from_u8 k1) as [scope|]; [|done]. simpl.
  destruct (node_domain n loc scope) as [d|]; [|done]. simpl. specialize (IH l2 Hl).
  destruct (add_node_scopes n loc l1) as [r1|], (add_node_scopes n loc l2) as [r2|]; try discriminate; [|done].
  simpl in *. injection IH as IH. apply (f_equal Some). unfold shapes. simpl. f_equal; [|exact IH].
  unfold shape. simpl. destruct d; simpl; by rewrite Hn, Hr.
Qed.

Lemma add_nodes_shape cfg nodeset : ∀ (c1 : NodeSetChecker (Attr := A1)) (c2 : NodeSetChecker (Attr := A2)),
  skeleton c1 = skeleton c2 →
  skeleton <$> add_nodes cfg nodeset c1 = skeleton <$> add_nodes cfg nodeset c2.
Proof.
  assert (∀ n s loc (c1 : NodeSetChecker (Attr := A1)) (c2 : NodeSetChecker (Attr := A2)),
    skeleton c1 = skeleton c2 → skeleton <$> add_node n s loc c1 = skeleton <$> add_node n s loc c2) as Hadd.
  { intros n s loc c1 c2 Hs. unfold add_node. destruct (storage_empty s); [simpl; by rewrite Hs|].
    pose proof (add_node_scopes_shape n loc (scopes c1) (scopes c2) Hs) as Hsh.
    destruct (add_node_scopes n loc (scopes c1)), (add_node_scopes n loc (scopes c2)); try discriminate; [|done].
    simpl in *. injection Hsh as Hsh. unfold skeleton. simpl. by f_equal. }
  induction nodeset as [|n nodeset IH]; intros c1 c2 Hs; simpl; [by rewrite Hs|].
  set (r1 := match find_node_by_id cfg (NodePlain n) with Ok _ => _ | _ => _ end).
  set (r2 := match find_node_by_id cfg (NodePlain n) with Ok _ => _ | _ => _ end).
  assert (skeleton <$> r1 = skeleton <$> r2) as Hr.
  { subst r1 r2. destruct (find_node_by_id cfg (NodePlain n)) as [nc|[]|]; simpl; try apply Hadd; try done. by rewrite Hs. }
  destruct r1, r2; try discriminate; [|done]. simpl in *. simplify_eq. by apply IH.
Qed.

Lemma NodeSetChecker_new_shape nodeset cfg rp :
  skeleton <$> NodeSetChecker_new (Attr := A1) nodeset cfg rp =
  skeleton <$> NodeSetChecker_new (Attr := A2) nodeset cfg rp.
Proof.
  unfold NodeSetChecker_new. pose proof (new_scopes_shape rp (smaller_scopes 4 Root) [] [] eq_refl) as Hn.
  destruct (new_scopes (Attr := A1) _ _ _) as [s1|], (new_scopes (Attr := A2) _ _ _) as [s2|];
    try discriminate; [|done].
  simpl in *. injection Hn as Hn. assert (s1 = [] ↔ s2 = []) as Hnil.
  { destruct s1, s2; try done; rewrite ?fmap_cons, ?fmap_nil in Hn; discriminate. }
  rewrite (bool_decide_ext _ _ Hnil). destruct (bool_decide _); [done|]. by apply add_nodes_shape.
Qed.

End Shape.

(** The scopes of a node set. *)
Definition scopes_of (nodeset : list Z) (cfg : NodesConfiguration) (rp : ReplicationProperty) : Scopes :=
  default [] (skeleton <$> NodeSetChecker_new (Attr := unit) nodeset cfg rp).

Lemma skeleton_new {Attr} `{Countable Attr} nodeset cfg rp (c : NodeSetChecker (Attr := Attr)) :
  NodeSetChecker_new nodeset cfg rp = Some c → skeleton c = scopes_of nodeset cfg rp.
Proof.
  intros Hc. unfold scopes_of. rewrite (NodeSetChecker_new_shape (A1 := unit) (A2 := Attr)), Hc. done.
Qed.

(** A checker ignores the nodes that are not effective. *)
Lemma add_nodes_effective {Attr} `{Countable Attr} cfg nodeset : ∀ (c : NodeSetChecker (Attr := Attr)),
  add_nodes cfg (to_effective nodeset cfg) c = add_nodes cfg nodeset c.
Proof.
  induction nodeset as [|n nodeset IH]; intros c; [done|]. unfold to_effective. rewrite filter_cons.
  fold (to_effective nodeset cfg). case_decide as Hd.
  - simpl. destruct (match find_node_by_id cfg (NodePlain n) with Ok _ => _ | _ => _ end); [|done].
    simpl. apply IH.
  - apply not_false_is_true in Hd. unfold get_log_server_storage_state in Hd. simpl.
    unfold find_node_by_id. simpl. destruct (nodes cfg !! n) as [[|nc]|]; [apply IH| |done].
    simpl. unfold add_node. rewrite Hd. apply IH.
Qed.

Lemma NodeSetChecker_new_effective {Attr} `{Countable Attr} nodeset cfg rp :
  NodeSetChecker_new (Attr := Attr) (to_effective nodeset cfg) cfg rp =
  NodeSetChecker_new nodeset cfg rp.
Proof.
  unfold NodeSetChecker_new. destruct (new_scopes _ _ _); [|done]. simpl.
  destruct (bool_decide _); [done|]. apply add_nodes_effective.
Qed.

(** ** What the attributes of a checker stand for *)

(** [good sk P c]: a checker over the scopes [sk] in which the attribute of every node
    is backed by the fact [P]. *)
Section Evidence.
Context {Attr : Type} `{Countable Attr}.
Implicit Types (c : NodeSetChecker (Attr := Attr)) (P : Z → Attr → Prop).

Record good (sk : Scopes) P c : Prop := {
  go_inv : checker_inv c;
  go_scopes : skeleton c = sk;
  go_attrs : ∀ i a, node_to_attr c !! i = Some a → P i a }.

Lemma good_mono sk P P' c : (∀ i a, P i a → P' i a) → good sk P c → good sk P' c.
Proof. intros HP [A B C]. split; eauto. Qed.

Lemma set_attribute_attrs i a c :
  node_to_attr (set_attribute i a c) =
  if storage_empty (storage_state_of c i) then node_to_attr c else <[ i := a ]> (node_to_attr c).
Proof. unfold set_attribute. by repeat case_match. Qed.

Lemma good_set sk P i a c : P i a → good sk P c → good sk P (set_attribute i a c).
Proof.
  intros Hi [A B C]. split.
  - by apply set_attribute_inv.
  - rewrite <- B. apply set_attribute_scopes_other.
  - intros j b. rewrite set_attribute_attrs. destruct (storage_empty _); [apply C|].
    rewrite lookup_insert_Some. intros [[-> ->]|[_ ?]]; eauto.
Qed.

Lemma good_each sk P a l : ∀ c, (∀ i, i ∈ l → P i a) → good sk P c → good sk P (set_attribute_on_each l a c).
Proof.
  induction l as [|i l IH]; intros c Hl Hc; simpl; [done|]. apply IH; [set_solver|]. apply good_set; [set_solver|done].
Qed.

Lemma good_merge `{!Merge (Attr := Attr)} sk P i a c :
  P i (attr_merge attr_default a).1 → (∀ b, P i b → P i (attr_merge b a).1) →
  good sk P c → good sk P (merge_attribute i a c).
Proof.
  intros Hd Hm Hc. unfold merge_attribute. destruct (storage_empty _); [done|].
  destruct (node_to_attr c !! i) as [b|] eqn:Hb; [|by apply good_set].
  pose proof (Hm b (go_attrs _ _ _ Hc _ _ Hb)) as Hp. destruct (attr_merge b a) as [new []]; [|done].
  by apply good_set.
Qed.

(** All attributes are replaced. *)
Lemma each_attrs a l : ∀ c i b,
  node_to_attr (set_attribute_on_each l a c) !! i = Some b →
  b = a ∨ (node_to_attr c !! i = Some b ∧ (i ∈ l → storage_empty (storage_state_of c i) = true)).
Proof.
  induction l as [|j l IH]; intros c i b Hi; simpl in *; [right; split; [done|by intros ?%elem_of_nil]|].
  apply IH in Hi as [->|[Hi Hl]]; [by left|].
  assert (storage_state_of (set_attribute j a c) i = storage_state_of c i) as E
    by (unfold storage_state_of; by rewrite set_attribute_storage).
  rewrite E in Hl. rewrite set_attribute_attrs in Hi.
  destruct (storage_empty (storage_state_of c j)) eqn:Ej.
  - right. split; [done|]. intros [->|?]%elem_of_cons; auto.
  - apply lookup_insert_Some in Hi as [[-> ->]|[Hne Hi]]; [by left|].
    right. split; [done|]. intros [->|?]%elem_of_cons; auto.
Qed.

Lemma good_fill sk P Q a c : (∀ i, P i a) → good sk Q c → good sk P (fill_with a c).
Proof.
  intros Ha [Hc B C]. destruct (good_each sk (λ _ _, True) a (map_to_list (node_to_storage_state c)).*1 c)
    as [A' B' _]; [done|by split|]. split; [done|done|]. intros i b [->|[Hi Hl]]%each_attrs; [done|].
  assert (is_Some (node_to_storage_state c !! i)) as [s Hs].
  { apply elem_of_dom, (ci_attrs _ Hc), elem_of_dom. eauto. }
  exfalso. destruct (ci_storage _ Hc) as [_ Hok]. pose proof (Hok _ _ Hs) as Hne.
  assert (storage_empty (storage_state_of c i) = true) as He.
  { apply Hl, list_elem_of_fmap. exists (i, s). split; [done|]. by apply elem_of_map_to_list. }
  unfold storage_state_of in He. rewrite Hs in He. by destruct s.
Qed.

Lemma good_write_quorum sk P p c :
  good sk P c → check_write_quorum p c = true → is_write_quorum sk (λ i, ∃ a, p a = true ∧ P i a).
Proof.
  intros [A <- C] Hw. eapply write_quorum_mono; [|by apply check_write_quorum_sound].
  intros i (a & Ha & Hp). eauto.
Qed.

Lemma fmajority_mono sk (F F' : Z → Prop) : (∀ n, F n → F' n) → is_fmajority sk F → is_fmajority sk F'.
Proof.
  intros HF (k & nf & r & Hin & D & A & B & C). exists k, nf, r. split; [done|]. exists D. eauto 10.
Qed.

Lemma good_fmajority sk P p c r :
  good sk P c → check_fmajority p c = Some r → fm_passed r = true →
  is_fmajority sk (λ i, ∃ a, p a = true ∧ P i a).
Proof.
  intros [A <- C] Hr Hp. eapply fmajority_mono; [|by eapply check_fmajority_sound].
  intros i (a & Ha & Hm). eauto.
Qed.

Lemma add_nodes_attrs cfg nodeset : ∀ c c', add_nodes cfg nodeset c = Some c' → node_to_attr c' = node_to_attr c.
Proof.
  induction nodeset as [|n nodeset IH]; intros c c' Hc; simpl in Hc; [by simplify_eq|].
  assert (∀ s loc c1, add_node n s loc c = Some c1 → node_to_attr c1 = node_to_attr c) as Hadd.
  { intros s loc c1. unfold add_node. destruct (storage_empty s); [by intros [= ->]|].
    destruct (add_node_scopes _ _ _); simpl; [by intros [= <-]|done]. }
  destruct (match find_node_by_id cfg (NodePlain n) with Ok _ => _ | _ => _ end) as [c1|] eqn:E; [|done].
  simpl in Hc. rewrite (IH _ _ Hc). repeat case_match; simplify_eq; eauto.
Qed.

Lemma new_attrs nodeset cfg rp c : NodeSetChecker_new nodeset cfg rp = Some c → node_to_attr c = ∅.
Proof.
  unfold NodeSetChecker_new. destruct (new_scopes _ _ _); [|done]. simpl.
  destruct (bool_decide _); [done|]. apply add_nodes_attrs.
Qed.

Lemma good_new nodeset cfg rp P c :
  rp_wf rp → NoDup nodeset → Z.of_nat (length nodeset) ≤ u32_max →
  NodeSetChecker_new nodeset cfg rp = Some c → good (scopes_of nodeset cfg rp) P c.
Proof.
  intros Hrp Hnd Hlen Hc. destruct (checker_new_inv (Attr := Attr) nodeset cfg rp Hrp Hnd Hlen) as (c' & Hc' & Hinv).
  simplify_eq. split; [done|by apply skeleton_new|]. intros i a. rewrite (new_attrs _ _ _ _ Hc). by rewrite lookup_empty.
Qed.

End Evidence.
