(* ===== verification/LogServer.v ===== *)
(** * LogServer: the server that stores the copies of a replicated loglet

    Models crates/log-server for one loglet: the messages
    (crates/types/src/net/log_server.rs), the shared state of the loglet
    (metadata.rs), the queues of waiting requests (futures-util/src/waiter_queue.rs),
    the worker that handles the requests (loglet_worker.rs), the storage tasks and
    their answers (tasks/), the writer that commits batches (rocksdb_logstore/writer.rs)
    and the store with its recovery, digests and reads (rocksdb_logstore/store.rs).

    The worker and the writer run concurrently.  The worker appends commands to
    the channel of the writer; the writer takes some of them, commits them as one
    batch and then advances the shared tail and answers the requests.  A step of
    [server_step] is one turn of either, or a restart.  RocksDB is the finite map
    [Disk]: a batch that it reports as written is written, in order; of a batch
    that it reports as failed all or nothing may be on disk after a restart. *)

From stdpp Require Import strings gmap sorting.
From S2P Require Import Prelude LogTypes NodesConfig.

Open Scope Z_scope.

(** ** Messages *)

Inductive Status :=
| StUnknown | StOk | StDisabled | StDropped | StSealed | StSealing
| StSequencerMismatch | StOutOfBounds | StMalformed.

#[export] Instance Status_eq_dec : EqDecision Status.
Proof. solve_decision. Defined.

Definition LogletOffset_INVALID : Z := 0.

Record LogRecord := { rec_created_at : Z; rec_keys : Keys; rec_body : string }.

(** [LogServerResponseHeader]. *)
Record ResponseHeader := mkHeader {
  rh_local_tail : Z;
  rh_known_global_tail : Z;
  rh_sealed : bool;
  rh_status : Status }.

Definition header_new (tail : TailState) (known_global_tail : Z) : ResponseHeader :=
  mkHeader (tail_offset tail) known_global_tail (tail_is_sealed tail) StOk.
Definition header_empty : ResponseHeader :=
  mkHeader LogletOffset_INVALID LogletOffset_INVALID false StDisabled.
Definition with_status (s : Status) (h : ResponseHeader) : ResponseHeader :=
  mkHeader (rh_local_tail h) (rh_known_global_tail h) (rh_sealed h) s.

(** The only flag of a store is bit 0. *)
Definition IgnoreSeal : Z := 1.
Definition flags_contains (flags flag : Z) : bool := Z.land flags flag =? flag.

Record Store := {
  sto_known_global_tail : Z;
  sto_timeout_at : option Z;
  sto_flags : Z;
  sto_first_offset : Z;
  sto_sequencer : GenerationalNodeId;
  sto_known_archived : Z;
  sto_payloads : list LogRecord }.

Definition expired (now : Z) (m : Store) : bool :=
  match sto_timeout_at m with Some t => t <=? now | None => false end.

(** [None] on overflow.  The length of an empty batch wraps around before it is
    added (it is refused afterwards). *)
Definition last_offset (m : Store) : option Z :=
  let len := Z.of_nat (length (sto_payloads m)) in
  if len <=? u32_max then offset_add (sto_first_offset m) ((len - 1) mod 2 ^ 32) else None.

Definition is_repair (m : Store) : bool := flags_contains (sto_flags m) IgnoreSeal.

Inductive TailUpdateQuery :=
| TuqUnknown
| TuqLocalTail (target : Z)
| TuqGlobalTail (target : Z)
| TuqLocalOrGlobal (target : Z).

Inductive RecordStatus := RsUnknown | RsTrimmed | RsArchived | RsExists.

Record DigestEntry := mkEntry { de_from_offset : Z; de_to_offset : Z; de_status : RecordStatus }.

(** [DigestEntry::len]. *)
Definition digest_entry_len (e : DigestEntry) : Z :=
  if de_from_offset e <=? de_to_offset e then 0
  else saturating_sub (de_to_offset e) (de_from_offset e) + 1.
Definition digest_entry_is_empty (e : DigestEntry) : bool := de_to_offset e <? de_from_offset e.

Inductive MaybeRecord :=
| MrTrimGap (to_ : Z)
| MrFilteredGap (to_ : Z)
| MrData (r : LogRecord).

(** A request is named by a number; its answer goes to this number. *)
Abbreviation Rpc := Z.

Inductive Reply :=
| Stored (rpc : Rpc) (h : ResponseHeader)
| Sealed (rpc : Rpc) (h : ResponseHeader)
| Trimmed (rpc : Rpc) (h : ResponseHeader)
| LogletInfo (rpc : Rpc) (h : ResponseHeader) (trim_point : Z)
| TailUpdated (rpc : Rpc) (h : ResponseHeader)
| Digest (rpc : Rpc) (h : ResponseHeader) (entries : list DigestEntry)
| Records (rpc : Rpc) (h : ResponseHeader) (next_offset : Z) (records : list (Z * MaybeRecord)).

(** ** The state of the loglet, shared by the worker and the writer *)

Record LogletState := mkLogletState {
  ls_sequencer : option GenerationalNodeId;
  ls_local_tail : TailState;
  ls_trim_point : Z;
  ls_known_global_tail : Z }.

Definition LogletState_new (sequencer : option GenerationalNodeId) (local_tail : Z) (sealed : bool)
    (trim_point known_global_tail : Z) : LogletState :=
  mkLogletState sequencer (TailState_new sealed local_tail) trim_point known_global_tail.

(** The sequencer is set once. *)
Definition set_sequencer (s : GenerationalNodeId) (st : LogletState) : LogletState :=
  mkLogletState (match ls_sequencer st with Some s0 => Some s0 | None => Some s end)
    (ls_local_tail st) (ls_trim_point st) (ls_known_global_tail st).
(** [TailOffsetWatch::notify] and [notify_seal]. *)
Definition notify_tail (sealed : bool) (offset : Z) (st : LogletState) : LogletState :=
  mkLogletState (ls_sequencer st) (tail_combine (ls_local_tail st) sealed offset).1
    (ls_trim_point st) (ls_known_global_tail st).
Definition notify_seal (st : LogletState) : LogletState :=
  mkLogletState (ls_sequencer st) (tail_seal (ls_local_tail st)).1
    (ls_trim_point st) (ls_known_global_tail st).
Definition notify_known_global_tail (t : Z) (st : LogletState) : LogletState :=
  mkLogletState (ls_sequencer st) (ls_local_tail st) (ls_trim_point st)
    (if ls_known_global_tail st <? t then t else ls_known_global_tail st).
Definition update_trim_point (t : Z) (st : LogletState) : LogletState :=
  mkLogletState (ls_sequencer st) (ls_local_tail st)
    (if ls_trim_point st <? t then t else ls_trim_point st) (ls_known_global_tail st).

(** ** Queues of waiters *)

(** What waits for a tail: a store, or a request to be told about it. *)
Inductive Waiter := WaitStore (rpc : Rpc) | WaitTail (rpc : Rpc).

Record WaiterQueue := mkQueue { wq_inner : list (Z * Waiter); wq_max_key : option Z }.

Definition wq_default : WaiterQueue := mkQueue [] None.

(** The position that the binary search of a sorted queue finds. *)
Fixpoint partition_point (target : Z) (l : list (Z * Waiter)) : nat :=
  match l with
  | [] => 0%nat
  | e :: l => if e.1 <=? target then S (partition_point target l) else 0%nat
  end.

Definition wq_push (target : Z) (v : Waiter) (q : WaiterQueue) : WaiterQueue :=
  if match wq_max_key q with None => true | Some m => m <=? target end
  then mkQueue (wq_inner q ++ [(target, v)]) (Some target)
  else
    let pos := partition_point target (wq_inner q) in
    mkQueue (take pos (wq_inner q) ++ (target, v) :: drop pos (wq_inner q)) (wq_max_key q).

(** The waiters that are drained, and the rest. *)
Fixpoint pop_while (threshold : Z) (l : list (Z * Waiter)) : list Waiter * list (Z * Waiter) :=
  match l with
  | [] => ([], [])
  | (t, v) :: l' =>
      if t <=? threshold then let '(vs, rest) := pop_while threshold l' in (v :: vs, rest) else ([], l)
  end.

Definition drain_up_to (threshold : Z) (q : WaiterQueue) : list Waiter * WaiterQueue :=
  let '(vs, rest) := pop_while threshold (wq_inner q) in
  (vs, mkQueue rest (match rest with [] => None | _ => wq_max_key q end)).

Definition drain_all (q : WaiterQueue) : list Waiter * WaiterQueue := ((wq_inner q).*2, wq_default).

Definition wq_is_empty (q : WaiterQueue) : bool := match wq_inner q with [] => true | _ => false end.

(** ** Storage tasks *)

Inductive Task :=
| TaskStore (rpc : Rpc) (sequencer : option GenerationalNodeId)
| TaskSeal (rpc : Rpc)
| TaskTrim (rpc : Rpc) (trim_point : Z)
| TaskSyncGlobalTail (global_tail : Z).

(** [OnComplete::on_complete] of a waiter and of a task. *)
Definition waiter_complete (tail : TailState) (global : Z) (s : Status) (w : Waiter) : Reply :=
  match w with
  | WaitStore rpc => Stored rpc (with_status s (header_new tail global))
  | WaitTail rpc => TailUpdated rpc (with_status s (header_new tail global))
  end.

Definition task_complete (tail : TailState) (global : Z) (s : Status) (t : Task) : option Reply :=
  let h := with_status s (header_new tail global) in
  match t with
  | TaskStore rpc _ => Some (Stored rpc h)
  | TaskSeal rpc => Some (Sealed rpc h)
  | TaskTrim rpc _ => Some (Trimmed rpc h)
  | TaskSyncGlobalTail _ => None
  end.
(** A completed seal also seals the tail. *)
Definition task_seals (s : Status) (t : Task) : bool :=
  match t with TaskSeal _ => bool_decide (s = StOk) | _ => false end.

(** [Drop]: a task that is dropped without an answer.  The request of a seal is
    then left without one. *)
Definition task_drop (t : Task) : option Reply :=
  let h := with_status StDisabled (header_new (TailOpen LogletOffset_INVALID) LogletOffset_INVALID) in
  match t with
  | TaskStore rpc _ => Some (Stored rpc h)
  | TaskTrim rpc _ => Some (Trimmed rpc h)
  | TaskSeal _ | TaskSyncGlobalTail _ => None
  end.

(** ** The store *)

(** The rows of one loglet: its records and its metadata. *)
Record Disk := mkDisk {
  d_records : gmap Z LogRecord;
  d_seal : bool;
  d_trim_point : option Z;
  d_global_tail : option Z;
  d_local_tail : option Z;
  d_sequencer : option GenerationalNodeId }.

Definition empty_disk : Disk := mkDisk ∅ false None None None None.

Inductive MetadataUpdate :=
| SetSequencer (s : GenerationalNodeId)
| UpdateTrimPoint (new_trim_point : Z)
| UpdateGlobalTail (known_global_tail : Z)
| UpdateLocalTail (new_local_tail : Z)
| MetaSeal.

Inductive DataUpdate :=
| StoreBatch (payloads : list LogRecord) (first_offset last_offset : Z)
| TrimLogRecords (trim_point : Z).

(** [metadata_full_merge]: a trim point only moves forward. *)
Definition metadata_merge (existing : option Z) (op : Z) : Z :=
  Z.max op (default LogletOffset_INVALID existing).

Definition update_metadata (u : MetadataUpdate) (d : Disk) : Disk :=
  match u with
  | SetSequencer s =>
      mkDisk (d_records d) (d_seal d) (d_trim_point d) (d_global_tail d) (d_local_tail d) (Some s)
  | UpdateTrimPoint t =>
      mkDisk (d_records d) (d_seal d) (Some (metadata_merge (d_trim_point d) t)) (d_global_tail d)
        (d_local_tail d) (d_sequencer d)
  | UpdateGlobalTail t =>
      mkDisk (d_records d) (d_seal d) (d_trim_point d) (Some t) (d_local_tail d) (d_sequencer d)
  | UpdateLocalTail t =>
      mkDisk (d_records d) (d_seal d) (d_trim_point d) (d_global_tail d) (Some t) (d_sequencer d)
  | MetaSeal =>
      mkDisk (d_records d) true (d_trim_point d) (d_global_tail d) (d_local_tail d) (d_sequencer d)
  end.

Definition upd_records (f : gmap Z LogRecord → gmap Z LogRecord) (d : Disk) : Disk :=
  mkDisk (f (d_records d)) (d_seal d) (d_trim_point d) (d_global_tail d) (d_local_tail d) (d_sequencer d).

(** One row for each record, at consecutive offsets. *)
Fixpoint process_store_message (offset : Z) (payloads : list LogRecord) (m : gmap Z LogRecord) : gmap Z LogRecord :=
  match payloads with
  | [] => m
  | r :: payloads => process_store_message (offset_next offset) payloads (<[ offset := r ]> m)
  end.

(** The range deletion includes the trim point. *)
Definition trim_log_records (trim_point : Z) (m : gmap Z LogRecord) : gmap Z LogRecord :=
  filter (λ kv, ¬ (LogletOffset_OLDEST ≤ kv.1 ∧ kv.1 < offset_next trim_point)) m.

Definition update_data (u : DataUpdate) (d : Disk) : Disk :=
  match u with
  | StoreBatch payloads first _ => upd_records (process_store_message first payloads) d
  | TrimLogRecords t => upd_records (trim_log_records t) d
  end.

(** The largest offset of a record ([seek_for_prev]). *)
Definition last_record (m : gmap Z LogRecord) : option Z :=
  map_fold (λ o _ acc, Some (match acc with Some x => Z.max x o | None => o end)) None m.

(** [load_loglet_state]. *)
Definition load_loglet_state (d : Disk) : LogletState :=
  let trim_point := default LogletOffset_INVALID (d_trim_point d) in
  let known_global_tail := default LogletOffset_OLDEST (d_global_tail d) in
  let local_tail :=
    match d_local_tail d with
    | Some t => t
    | None => match last_record (d_records d) with
              | Some o => offset_next o
              | None => LogletOffset_OLDEST
              end
    end in
  let local_tail := if local_tail <=? trim_point then offset_next trim_point else local_tail in
  LogletState_new (d_sequencer d) local_tail (d_seal d) trim_point
    (Z.max known_global_tail (offset_next trim_point)).

(** ** The writer *)

Inductive LogStoreWriteCommand :=
| CmdWrite (task : Task) (data : option DataUpdate) (meta : option MetadataUpdate)
| CmdRegister
| CmdUnregister.

(** What the worker and the writer share: the store, the state of the loglet, the
    channel of the writer, whether the writer has the state registered, whether the
    channel is open, whether the writer has stopped and writes are disabled, and the
    answers that have been sent. *)
Record Node := mkNode {
  n_disk : Disk;
  n_state : LogletState;
  n_channel : list LogStoreWriteCommand;
  n_registered : bool;
  n_writer_up : bool;
  n_stopped : bool;
  n_replies : list Reply }.

Definition upd_state (f : LogletState → LogletState) (n : Node) : Node :=
  mkNode (n_disk n) (f (n_state n)) (n_channel n) (n_registered n) (n_writer_up n) (n_stopped n) (n_replies n).
Definition reply (r : Reply) (n : Node) : Node :=
  mkNode (n_disk n) (n_state n) (n_channel n) (n_registered n) (n_writer_up n) (n_stopped n) (n_replies n ++ [r]).
Definition reply_all (rs : list Reply) (n : Node) : Node :=
  mkNode (n_disk n) (n_state n) (n_channel n) (n_registered n) (n_writer_up n) (n_stopped n) (n_replies n ++ rs).

(** [tx.send]: fails when the writer has stopped, and then drops the command. *)
Definition send_command (c : LogStoreWriteCommand) (n : Node) : Node * bool :=
  if n_writer_up n
  then (mkNode (n_disk n) (n_state n) (n_channel n ++ [c]) (n_registered n) true (n_stopped n) (n_replies n), true)
  else (reply_all (match c with CmdWrite t _ _ => option_list (task_drop t) | _ => [] end) n, false).

(** The part of a batch that is about the loglet. *)
Record LogletBatch := mkLogletBatch {
  lb_max_offset : option Z;
  lb_notify_seal : bool;
  lb_tasks : list Task;
  lb_unregister : bool }.

(** The batch: the updates in their order, and the loglet's part once it has one. *)
Record Batch := mkBatch { b_write : list (Disk → Disk); b_loglet : option LogletBatch }.

Definition batch_default : Batch := mkBatch [] None.

Definition handle_command (c : LogStoreWriteCommand) (registered : bool) (b : Batch) : bool * Batch :=
  match c with
  | CmdRegister =>
      match b_loglet b with
      | Some l => (registered, mkBatch (b_write b)
                    (Some (mkLogletBatch (lb_max_offset l) (lb_notify_seal l) (lb_tasks l) false)))
      | None => (true, b)
      end
  | CmdUnregister =>
      if registered then
        match b_loglet b with
        | Some l => (true, mkBatch (b_write b)
                      (Some (mkLogletBatch (lb_max_offset l) (lb_notify_seal l) (lb_tasks l) true)))
        | None => (false, b)
        end
      else (registered, b)
  | CmdWrite task data meta =>
      let l := default (mkLogletBatch None false [] false) (b_loglet b) in
      let seals := match meta with Some MetaSeal => true | _ => false end in
      let max_offset :=
        match data with
        | Some (StoreBatch _ _ last) =>
            Some (match lb_max_offset l with Some m => Z.max m last | None => last end)
        | _ => lb_max_offset l
        end in
      (registered,
       mkBatch (b_write b ++ option_list (update_metadata <$> meta) ++ option_list (update_data <$> data))
         (Some (mkLogletBatch max_offset (lb_notify_seal l || seals) (lb_tasks l ++ [task])
                  (lb_unregister l))))
  end.

Fixpoint handle_commands (cs : list LogStoreWriteCommand) (registered : bool) (b : Batch) : bool * Batch :=
  match cs with
  | [] => (registered, b)
  | c :: cs => let '(registered, b) := handle_command c registered b in handle_commands cs registered b
  end.

Definition write_batch (b : Batch) (d : Disk) : Disk := foldl (λ d f, f d) d (b_write b).

(** After the write: the tail moves, then the tasks are answered. *)
Definition notify_batch (l : LogletBatch) (st : LogletState) : LogletState :=
  match lb_max_offset l with
  | Some m => notify_tail (lb_notify_seal l) (offset_next m) st
  | None => if lb_notify_seal l then notify_seal st else st
  end.

Definition complete_batch (l : LogletBatch) (n : Node) : Node :=
  let n := upd_state (notify_batch l) n in
  let tail := ls_local_tail (n_state n) in
  let global := ls_known_global_tail (n_state n) in
  let n := reply_all (omap (task_complete tail global StOk) (lb_tasks l)) n in
  let n := if existsb (task_seals StOk) (lb_tasks l) then upd_state notify_seal n else n in
  if lb_unregister l
  then mkNode (n_disk n) (n_state n) (n_channel n) false (n_writer_up n) (n_stopped n) (n_replies n)
  else n.

Definition drop_tasks (ts : list Task) (n : Node) : Node := reply_all (omap task_drop ts) n.

Definition command_task (c : LogStoreWriteCommand) : option Task :=
  match c with CmdWrite t _ _ => Some t | _ => None end.

(** The writer takes the first [k] commands of its channel and commits them. *)
Definition commit (k : nat) (n : Node) : Node :=
  let '(registered, b) := handle_commands (take k (n_channel n)) (n_registered n) batch_default in
  match b_write b with
  | [] => mkNode (n_disk n) (n_state n) (drop k (n_channel n)) registered (n_writer_up n) (n_stopped n) (n_replies n)
  | _ =>
      let n := mkNode (write_batch b (n_disk n)) (n_state n) (drop k (n_channel n)) registered
                 (n_writer_up n) (n_stopped n) (n_replies n) in
      match b_loglet b with
      | None => n
      | Some l => if registered then complete_batch l n else drop_tasks (lb_tasks l) n
      end
  end.

(** The write fails: the store disables writes, the writer stops and drops its
    commands.  [persisted]: the batch is on disk nevertheless. *)
Definition commit_fails (k : nat) (persisted : bool) (n : Node) : Node :=
  let '(registered, b) := handle_commands (take k (n_channel n)) (n_registered n) batch_default in
  drop_tasks (omap command_task (n_channel n))
    (mkNode (if persisted then write_batch b (n_disk n) else n_disk n) (n_state n) [] registered false true
       (n_replies n)).

(** At shutdown the writer closes its channel, commits what is left of it, and then
    disables writes. *)
Definition writer_closes (n : Node) : Node :=
  mkNode (n_disk n) (n_state n) (n_channel n) (n_registered n) false (n_stopped n) (n_replies n).
Definition writer_stops (n : Node) : Node :=
  match n_channel n with
  | [] => if n_writer_up n then n
          else mkNode (n_disk n) (n_state n) [] (n_registered n) false true (n_replies n)
  | _ => n
  end.

(** ** The worker *)

Record PendingWaiters := mkPending {
  pw_seals : list Rpc;
  pw_local_tail_waiters : WaiterQueue;
  pw_global_tail_waiters : WaiterQueue;
  pw_local_or_global_tail_waiters : WaiterQueue }.

Definition pending_default : PendingWaiters := mkPending [] wq_default wq_default wq_default.

Definition pending_is_empty (p : PendingWaiters) : bool :=
  match pw_seals p with [] => true | _ => false end
  && wq_is_empty (pw_local_tail_waiters p) && wq_is_empty (pw_global_tail_waiters p)
  && wq_is_empty (pw_local_or_global_tail_waiters p).

Definition has_waiting_for_global_tail_updates (p : PendingWaiters) : bool :=
  negb (wq_is_empty (pw_local_or_global_tail_waiters p)) || negb (wq_is_empty (pw_global_tail_waiters p)).

(** The waiting seals hold the same watch, so that completing them with [Ok]
    seals the tail that is sealed already. *)
Definition seal_replies (tail : TailState) (global : Z) (s : Status) (seals : list Rpc) : list Reply :=
  (λ rpc, Sealed rpc (with_status s (header_new tail global))) <$> seals.

Definition pending_on_local_tail_change (tail : TailState) (global : Z) (p : PendingWaiters)
    : PendingWaiters * list Reply :=
  if tail_is_sealed tail then
    let '(l, _) := drain_all (pw_local_tail_waiters p) in
    let '(g, _) := drain_all (pw_global_tail_waiters p) in
    let '(lg, _) := drain_all (pw_local_or_global_tail_waiters p) in
    (pending_default,
     seal_replies tail global StOk (pw_seals p)
       ++ (waiter_complete tail global StSealed <$> (l ++ g ++ lg)))
  else
    let '(l, local) := drain_up_to (tail_offset tail) (pw_local_tail_waiters p) in
    let '(lg, local_or_global) := drain_up_to (tail_offset tail) (pw_local_or_global_tail_waiters p) in
    (mkPending (pw_seals p) local (pw_global_tail_waiters p) local_or_global,
     waiter_complete tail global StOk <$> (l ++ lg)).

Definition pending_on_global_tail_change (tail : TailState) (global : Z) (p : PendingWaiters)
    : PendingWaiters * list Reply :=
  let s := if tail_is_sealed tail then StSealed else StOk in
  let '(g, global_waiters) := drain_up_to global (pw_global_tail_waiters p) in
  let '(lg, local_or_global) := drain_up_to global (pw_local_or_global_tail_waiters p) in
  (mkPending (pw_seals p) (pw_local_tail_waiters p) global_waiters local_or_global,
   waiter_complete tail global s <$> (g ++ lg)).

Record Worker := mkWorker {
  w_seal_enqueued : bool;
  w_accepting_writes : bool;
  w_staging_local_tail : Z;
  w_global_tail : Z;
  w_known_sequencer : option GenerationalNodeId;
  w_pending : PendingWaiters;
  w_last_synced_global_tail : Z;
  w_writer_active : bool }.

Definition set_seal_enqueued (b : bool) (w : Worker) : Worker :=
  mkWorker b (w_accepting_writes w) (w_staging_local_tail w) (w_global_tail w) (w_known_sequencer w)
    (w_pending w) (w_last_synced_global_tail w) (w_writer_active w).
Definition set_accepting_writes (b : bool) (w : Worker) : Worker :=
  mkWorker (w_seal_enqueued w) b (w_staging_local_tail w) (w_global_tail w) (w_known_sequencer w)
    (w_pending w) (w_last_synced_global_tail w) (w_writer_active w).
Definition set_staging (t : Z) (w : Worker) : Worker :=
  mkWorker (w_seal_enqueued w) (w_accepting_writes w) t (w_global_tail w) (w_known_sequencer w)
    (w_pending w) (w_last_synced_global_tail w) (w_writer_active w).
Definition set_global (t : Z) (w : Worker) : Worker :=
  mkWorker (w_seal_enqueued w) (w_accepting_writes w) (w_staging_local_tail w) t (w_known_sequencer w)
    (w_pending w) (w_last_synced_global_tail w) (w_writer_active w).
Definition set_known_sequencer (s : GenerationalNodeId) (w : Worker) : Worker :=
  mkWorker (w_seal_enqueued w) (w_accepting_writes w) (w_staging_local_tail w) (w_global_tail w) (Some s)
    (w_pending w) (w_last_synced_global_tail w) (w_writer_active w).
Definition set_pending (p : PendingWaiters) (w : Worker) : Worker :=
  mkWorker (w_seal_enqueued w) (w_accepting_writes w) (w_staging_local_tail w) (w_global_tail w)
    (w_known_sequencer w) p (w_last_synced_global_tail w) (w_writer_active w).
Definition set_last_synced (t : Z) (w : Worker) : Worker :=
  mkWorker (w_seal_enqueued w) (w_accepting_writes w) (w_staging_local_tail w) (w_global_tail w)
    (w_known_sequencer w) (w_pending w) t (w_writer_active w).

(** [LogletWorker::start], with [new_loglet_writer]. *)
Definition worker_start (n : Node) : Node * Worker :=
  let '(n, active) := send_command CmdRegister n in
  let st := n_state n in
  (n, mkWorker false true (tail_offset (ls_local_tail st)) (ls_known_global_tail st) (ls_sequencer st)
        pending_default (ls_known_global_tail st) active).

(** Returns the known global tail. *)
Definition update_global_tail (new_tail : Z) (s : Node * Worker) : (Node * Worker) * Z :=
  let '(n, w) := s in
  if w_global_tail w <? new_tail
  then ((upd_state (notify_known_global_tail new_tail) n, set_global new_tail w), new_tail)
  else (s, w_global_tail w).

Definition wait_local_or_global (target : Z) (v : Waiter) (w : Worker) : Worker :=
  let p := w_pending w in
  set_pending (mkPending (pw_seals p) (pw_local_tail_waiters p) (pw_global_tail_waiters p)
                 (wq_push target v (pw_local_or_global_tail_waiters p))) w.

(** [enqueue_put_records] through the loglet's writer, which may be closed. *)
Definition enqueue_store (first last : Z) (payloads : list LogRecord) (t : Task) (w : Worker) (n : Node)
    : Node * bool :=
  if w_writer_active w then
    let meta := match t with TaskStore _ (Some s) => Some (SetSequencer s) | _ => None end in
    send_command (CmdWrite t (Some (StoreBatch payloads first last)) meta) n
  else (drop_tasks [t] n, false).

Definition process_store (peer : GenerationalNodeId) (now : Z) (rpc : Rpc) (m : Store)
    (s : Node * Worker) : Node * Worker :=
  let local_tail := ls_local_tail (n_state s.1) in
  let '((n, w), known_global_tail) := update_global_tail (sto_known_global_tail m) s in
  let complete status :=
    (reply (Stored rpc (with_status status (header_new local_tail known_global_tail))) n, w) in
  match last_offset m with
  | None => complete StMalformed
  | Some last =>
      if match sto_payloads m with [] => true | _ => false end
         || (sto_first_offset m =? LogletOffset_INVALID) then complete StMalformed
      else if negb (is_repair m) && tail_is_sealed local_tail then complete StSealed
      else if negb (w_accepting_writes w) then complete StDisabled
      else if match w_known_sequencer w with
              | Some k => negb (bool_decide (k = sto_sequencer m))
              | None => false
              end then complete StSequencerMismatch
      else
        let next_ok_offset := Z.max (w_staging_local_tail w) known_global_tail in
        if (sto_first_offset m <? next_ok_offset) && negb (bool_decide (peer = sto_sequencer m))
           && negb (is_repair m) then complete StSequencerMismatch
        else if next_ok_offset <? sto_first_offset m then complete StOutOfBounds
        else if expired now m then complete StDropped
        else if negb (is_repair m) && (last <? tail_offset local_tail) then complete StOk
        else if negb (is_repair m) && (last <? w_staging_local_tail w)
        then (n, wait_local_or_global (offset_next last) (WaitStore rpc) w)
        else if w_seal_enqueued w && negb (tail_is_sealed local_tail) then
          if is_repair m then complete StSealing
          else (n, wait_local_or_global (offset_next last) (WaitStore rpc) w)
        else
          let '(n, w, task) :=
            match w_known_sequencer w with
            | None => (upd_state (set_sequencer (sto_sequencer m)) n,
                       set_known_sequencer (sto_sequencer m) w, TaskStore rpc (Some (sto_sequencer m)))
            | Some _ => (n, w, TaskStore rpc None)
            end in
          let '(n, sent) := enqueue_store (sto_first_offset m) last (sto_payloads m) task w n in
          if sent : bool
          then (n, set_staging (Z.max (w_staging_local_tail w) (offset_next last)) w)
          else (n, set_accepting_writes false w)
  end.

Definition process_wait_for_tail (rpc : Rpc) (known_global_tail : Z) (query : TailUpdateQuery)
    (s : Node * Worker) : Node * Worker :=
  let '((n, w), _) := update_global_tail known_global_tail s in
  let tail := ls_local_tail (n_state n) in
  let global := w_global_tail w in
  let complete status := (reply (waiter_complete tail global status (WaitTail rpc)) n, w) in
  let p := w_pending w in
  match query with
  | TuqUnknown => complete StMalformed
  | TuqLocalTail target =>
      if (target <=? tail_offset tail) || tail_is_sealed tail then complete StOk
      else (n, set_pending (mkPending (pw_seals p) (wq_push target (WaitTail rpc) (pw_local_tail_waiters p))
                              (pw_global_tail_waiters p) (pw_local_or_global_tail_waiters p)) w)
  | TuqGlobalTail target =>
      if (target <=? global) || tail_is_sealed tail
      then complete (if tail_is_sealed tail then StSealed else StOk)
      else (n, set_pending (mkPending (pw_seals p) (pw_local_tail_waiters p)
                              (wq_push target (WaitTail rpc) (pw_global_tail_waiters p))
                              (pw_local_or_global_tail_waiters p)) w)
  | TuqLocalOrGlobal target =>
      if (target <=? tail_offset tail) || (target <=? global) || tail_is_sealed tail then complete StOk
      else (n, wait_local_or_global target (WaitTail rpc) w)
  end.

Definition process_trim (rpc : Rpc) (known_global_tail new_trim_point : Z) (s : Node * Worker)
    : Node * Worker :=
  let '((n, w), known_global_tail) := update_global_tail known_global_tail s in
  let local_tail := ls_local_tail (n_state n) in
  let complete status :=
    (reply (Trimmed rpc (with_status status (header_new local_tail known_global_tail))) n, w) in
  let high_watermark := Z.max known_global_tail (tail_offset local_tail) in
  if (new_trim_point <? LogletOffset_OLDEST) || (high_watermark <=? new_trim_point)
  then complete StMalformed
  else
    let clipped := Z.min new_trim_point (offset_prev (tail_offset local_tail)) in
    if clipped <=? ls_trim_point (n_state n) then complete StOk
    else
      let n := upd_state (update_trim_point clipped) n in
      let task := TaskTrim rpc clipped in
      if w_writer_active w
      then ((send_command (CmdWrite task (Some (TrimLogRecords clipped)) (Some (UpdateTrimPoint clipped))) n).1, w)
      else (drop_tasks [task] n, w).

Definition process_seal (rpc : Rpc) (known_global_tail : Z) (s : Node * Worker) : Node * Worker :=
  let '((n, w), known_global_tail) := update_global_tail known_global_tail s in
  let local_tail := ls_local_tail (n_state n) in
  let p := w_pending w in
  if tail_is_sealed local_tail
  then (reply (Sealed rpc (header_new local_tail known_global_tail)) n, set_seal_enqueued false w)
  else if w_seal_enqueued w
  then (n, set_pending (mkPending (pw_seals p ++ [rpc]) (pw_local_tail_waiters p)
                          (pw_global_tail_waiters p) (pw_local_or_global_tail_waiters p)) w)
  else if w_writer_active w then
    let '(n, sent) := send_command (CmdWrite (TaskSeal rpc) None (Some MetaSeal)) n in
    (n, set_seal_enqueued sent w)
  else (reply (Sealed rpc (with_status StDisabled
                 (header_new (TailOpen LogletOffset_INVALID) LogletOffset_INVALID))) n,
        set_seal_enqueued false w).

Definition persist_global_tail (s : Node * Worker) : Node * Worker :=
  let '(n, w) := s in
  if w_accepting_writes w && (w_last_synced_global_tail w <? w_global_tail w) then
    let task := TaskSyncGlobalTail (w_global_tail w) in
    let n := if w_writer_active w
             then (send_command (CmdWrite task None (Some (UpdateGlobalTail (w_global_tail w)))) n).1
             else n in
    (n, set_last_synced (w_global_tail w) w)
  else (n, w).

(** The worker sees the current local tail. *)
Definition on_local_tail_change (s : Node * Worker) : Node * Worker :=
  let '(n, w) := s in
  let tail := ls_local_tail (n_state n) in
  let w := if tail_is_sealed tail && w_seal_enqueued w
           then set_staging (tail_offset tail) (set_seal_enqueued false w) else w in
  let '(p, rs) := pending_on_local_tail_change tail (w_global_tail w) (w_pending w) in
  (reply_all rs n, set_pending p w).

Definition on_global_tail_change (s : Node * Worker) : Node * Worker :=
  let '(n, w) := s in
  let '(p, rs) := pending_on_global_tail_change (ls_local_tail (n_state n))
                    (ls_known_global_tail (n_state n)) (w_pending w) in
  (reply_all rs n, set_pending p w).

Definition on_writes_disabled (s : Node * Worker) : Node * Worker :=
  let '(n, w) := s in
  let tail := ls_local_tail (n_state n) in
  let global := w_global_tail w in
  let '(p, rs1) := pending_on_global_tail_change tail global (w_pending w) in
  let '(p, rs2) := pending_on_local_tail_change tail global p in
  let rs3 := seal_replies tail global StDisabled (pw_seals p) in
  let '(l, _) := drain_all (pw_local_tail_waiters p) in
  let rs4 := waiter_complete tail global StDisabled <$> l in
  let p := mkPending [] wq_default (pw_global_tail_waiters p) (pw_local_or_global_tail_waiters p) in
  (reply_all (rs1 ++ rs2 ++ rs3 ++ rs4) n,
   mkWorker false false (tail_offset tail) global (w_known_sequencer w) p
     (w_last_synced_global_tail w) false).

(** [idle]: no request for a minute. *)
Definition is_quiescent (idle : bool) (s : Node * Worker) : bool :=
  negb (w_seal_enqueued s.2) && pending_is_empty (w_pending s.2)
  && tail_is_sealed (ls_local_tail (n_state s.1)) && idle.

(** [Drop] of a waiter that nobody answered. *)
Definition waiter_drop (w : Waiter) : list Reply :=
  match w with
  | WaitStore rpc => option_list (task_drop (TaskStore rpc None))
  | WaitTail _ => []
  end.

(** The end of a worker: it tells the waiters if the tail is sealed, stores the
    global tail, and drops the waiters that are left and its writer. *)
Definition worker_stop (s : Node * Worker) : Node :=
  let '(n, w) := persist_global_tail (on_local_tail_change s) in
  let n := reply_all ((wq_inner (pw_local_or_global_tail_waiters (w_pending w))).*2 ≫= waiter_drop) n in
  if w_writer_active w then (send_command CmdUnregister n).1 else n.

(** ** Reading *)

(** The rows of the data column family of the loglet, in the order of their keys. *)
Definition key_le (a b : Z * LogRecord) : Prop := a.1 ≤ b.1.
#[export] Instance key_le_dec : RelDecision key_le.
Proof. unfold key_le. solve_decision. Defined.

Definition sorted_records (m : gmap Z LogRecord) : list (Z * LogRecord) :=
  merge_sort key_le (map_to_list m).
(** The iterator at its first key that is not below [o]. *)
Definition seek (o : Z) (m : gmap Z LogRecord) : list (Z * LogRecord) :=
  filter (λ e, o ≤ e.1) (sorted_records m).

(** The bytes of a record after its keys: flags, time stamp and body. *)
Definition decoder_size (r : LogRecord) : Z := 2 + 8 + Z.of_nat (String.length (rec_body r)).

Record GetRecords := {
  gr_total_limit_in_bytes : option Z;
  gr_filter : KeyFilter;
  gr_from_offset : Z;
  gr_to_offset : Z }.

(** The loop of [read_records].  [later_trim o]: the trim point that is read when
    the iterator stands at [o]; a seek passes over the rows below the pointer. *)
Fixpoint read_loop (later_trim : Z → Z) (filt : KeyFilter) (from to_ : Z) (it : list (Z * LogRecord))
    (pointer budget : Z) (first_record_inserted : bool) (records : list (Z * MaybeRecord))
    : Z * list (Z * MaybeRecord) :=
  match it with
  | [] => (pointer, records)
  | (offset, r) :: it =>
      if offset <? pointer
      then read_loop later_trim filt from to_ it pointer budget first_record_inserted records
      else if to_ <? pointer then (pointer, records)
      else if to_ <? offset then (offset_next to_, records)
      else if (pointer <? offset) && (offset <=? later_trim offset) then
        read_loop later_trim filt from to_ it (offset_next (later_trim offset)) budget
          first_record_inserted [(from, MrTrimGap (later_trim offset))]
      else if negb (matches_key_query (rec_keys r) filt) then
        read_loop later_trim filt from to_ it (offset_next offset) budget first_record_inserted
          (records ++ [(offset, MrFilteredGap offset)])
      else if first_record_inserted && (budget <? decoder_size r) then (offset, records)
      else
        read_loop later_trim filt from to_ it (offset_next offset)
          (saturating_sub budget (decoder_size r)) true (records ++ [(offset, MrData r)])
  end.

Definition read_from_offset (from trim_point : Z) : Z := Z.max from (offset_next trim_point).
Definition read_to_offset (to_ : Z) (local_tail : TailState) : Z :=
  Z.min to_ (offset_prev (tail_offset local_tail)).

Definition read_records (later_trim : Z → Z) (msg : GetRecords) (st : LogletState) (m : gmap Z LogRecord)
    : Z * list (Z * MaybeRecord) :=
  let from := gr_from_offset msg in
  let read_from := read_from_offset from (ls_trim_point st) in
  let read_to := read_to_offset (gr_to_offset msg) (ls_local_tail st) in
  let gap := if from <? read_from then [(from, MrTrimGap (offset_prev_unchecked read_from))] else [] in
  read_loop later_trim (gr_filter msg) from read_to (seek read_from m) read_from
    (default u64_max (gr_total_limit_in_bytes msg)) false gap.

(** The loop of [get_records_digest]; [None] is its panic. *)
Fixpoint digest_loop (to_ : Z) (it : list (Z * LogRecord)) (pointer : Z) (open : option DigestEntry)
    (entries : list DigestEntry) : option (list DigestEntry) :=
  match it with
  | [] => Some (entries ++ option_list open)
  | (offset, _) :: it =>
      if to_ <? pointer then Some (entries ++ option_list open)
      else match offset ?= pointer with
           | Gt =>
               let entries := entries ++ option_list open in
               if to_ <? offset then Some entries
               else digest_loop to_ it (offset_next offset) (Some (mkEntry offset offset RsExists)) entries
           | Eq =>
               let open :=
                 match open with
                 | Some e => mkEntry (de_from_offset e) pointer (de_status e)
                 | None => mkEntry offset offset RsExists
                 end in
               digest_loop to_ it (offset_next pointer) (Some open) entries
           | Lt => None
           end
  end.

Definition get_records_digest (from to_ : Z) (st : LogletState) (m : gmap Z LogRecord)
    : option (list DigestEntry) :=
  let read_from := read_from_offset from (ls_trim_point st) in
  let read_to := read_to_offset to_ (ls_local_tail st) in
  let entries := if from <? read_from
                 then [mkEntry from (offset_prev_unchecked read_from) RsTrimmed] else [] in
  let it := if read_to =? u32_max then seek read_from m
            else filter (λ e, e.1 < offset_next read_to) (seek read_from m) in
  digest_loop read_to it read_from None entries.

Definition process_get_records (rpc : Rpc) (known_global_tail : Z) (msg : GetRecords) (s : Node * Worker)
    : Node * Worker :=
  let '((n, w), _) := update_global_tail known_global_tail s in
  if gr_to_offset msg <? gr_from_offset msg
  then (reply (Records rpc (with_status StMalformed header_empty) (gr_from_offset msg) []) n, w)
  else
    let st := n_state n in
    let '(next_offset, records) := read_records (λ _, ls_trim_point st) msg st (d_records (n_disk n)) in
    (reply (Records rpc (header_new (ls_local_tail st) (ls_known_global_tail st)) next_offset records) n, w).

Definition process_get_digest (rpc : Rpc) (known_global_tail from to_ : Z) (s : Node * Worker)
    : Node * Worker :=
  let '((n, w), _) := update_global_tail known_global_tail s in
  if to_ <? from then (reply (Digest rpc (with_status StMalformed header_empty) []) n, w)
  else
    let st := n_state n in
    match get_records_digest from to_ st (d_records (n_disk n)) with
    | Some entries =>
        (reply (Digest rpc (header_new (ls_local_tail st) (ls_known_global_tail st)) entries) n, w)
    | None => (n, w)
    end.

Definition process_get_loglet_info (rpc : Rpc) (known_global_tail : Z) (s : Node * Worker) : Node * Worker :=
  let '((n, w), known_global_tail) := update_global_tail known_global_tail s in
  (reply (LogletInfo rpc (header_new (ls_local_tail (n_state n)) known_global_tail)
            (ls_trim_point (n_state n))) n, w).

Definition process_release (known_global_tail : Z) (s : Node * Worker) : Node * Worker :=
  (update_global_tail known_global_tail s).1.

(** ** The server of the loglet *)

Inductive Message :=
| MsgStore (peer : GenerationalNodeId) (now : Z) (m : Store)
| MsgGetRecords (known_global_tail : Z) (m : GetRecords)
| MsgRelease (known_global_tail : Z)
| MsgGetDigest (known_global_tail from to_ : Z)
| MsgGetLogletInfo (known_global_tail : Z)
| MsgWaitForTail (known_global_tail : Z) (query : TailUpdateQuery)
| MsgSeal (known_global_tail : Z)
| MsgTrim (known_global_tail trim_point : Z).

(** The global tail in the header of a message. *)
Definition msg_known_global_tail (m : Message) : Z :=
  match m with
  | MsgStore _ _ m => sto_known_global_tail m
  | MsgGetRecords g _ | MsgRelease g | MsgGetDigest g _ _ | MsgGetLogletInfo g
  | MsgWaitForTail g _ | MsgSeal g | MsgTrim g _ => g
  end.

(** [process_data_svc_op] and [process_info_svc_op]. *)
Definition process_message (rpc : Rpc) (m : Message) (s : Node * Worker) : Node * Worker :=
  match m with
  | MsgStore peer now m => process_store peer now rpc m s
  | MsgGetRecords g m => process_get_records rpc g m s
  | MsgRelease g => process_release g s
  | MsgGetDigest g from to_ => process_get_digest rpc g from to_ s
  | MsgGetLogletInfo g => process_get_loglet_info rpc g s
  | MsgWaitForTail g q => process_wait_for_tail rpc g q s
  | MsgSeal g => process_seal rpc g s
  | MsgTrim g t => process_trim rpc g t s
  end.

(** A worker is serving, or drains its requests before it ends. *)
Inductive Phase := Serving | Draining.

#[export] Instance Phase_eq_dec : EqDecision Phase.
Proof. solve_decision. Defined.

(** [sv_cancelled]: the server is shutting down and starts no worker any more. *)
Record Server := mkServer {
  sv_node : Node;
  sv_worker : option (Worker * Phase);
  sv_cancelled : bool }.

Inductive Event :=
| EvStart
| EvMessage (rpc : Rpc) (m : Message)
| EvLocalTail
| EvGlobalTail
| EvWritesDisabled
| EvTick (idle : bool)
| EvCancel
| EvStop
| EvCommit (k : nat)
| EvCommitFails (k : nat) (persisted : bool)
| EvWriterCloses
| EvWriterStops
| EvRestart (k : nat).

Definition has_pending_seal (w : Worker) : bool :=
  match pw_seals (w_pending w) with [] => false | _ => true end.

(** A turn of the worker. *)
Definition on_worker (f : Node * Worker → Node * Worker) (s : Server) : Server :=
  match sv_worker s with
  | Some (w, ph) => let '(n, w) := f (sv_node s, w) in mkServer n (Some (w, ph)) (sv_cancelled s)
  | None => s
  end.

(** A branch of the loop of [run] whose condition is [enabled]. *)
Definition on_worker_if (enabled : Worker → Phase → bool) (f : Node * Worker → Node * Worker) (s : Server)
    : Server :=
  match sv_worker s with
  | Some (w, ph) => if enabled w ph then on_worker f s else s
  | None => s
  end.

(** What is left after a crash: the store.  The writer may have written the first
    [k] commands of its channel. *)
Definition restart_node (k : nat) (n : Node) : Node :=
  let d := write_batch (handle_commands (take k (n_channel n)) (n_registered n) batch_default).2 (n_disk n) in
  mkNode d (load_loglet_state d) [] false true false (n_replies n).

Definition server_step (e : Event) (s : Server) : Server :=
  match e with
  | EvStart =>
      match sv_worker s with
      | None => if sv_cancelled s then s
                else let '(n, w) := worker_start (sv_node s) in mkServer n (Some (w, Serving)) false
      | Some _ => s
      end
  | EvMessage rpc m => on_worker (process_message rpc m) s
  | EvLocalTail =>
      on_worker_if (λ w ph, bool_decide (ph = Serving) || has_pending_seal w) on_local_tail_change s
  | EvGlobalTail =>
      on_worker_if (λ w ph, bool_decide (ph = Serving) && has_waiting_for_global_tail_updates (w_pending w))
        on_global_tail_change s
  | EvWritesDisabled =>
      on_worker_if (λ w ph, n_stopped (sv_node s) && w_accepting_writes w
                              && (bool_decide (ph = Serving) || has_pending_seal w))
        on_writes_disabled s
  | EvTick idle =>
      match sv_worker s with
      | Some (w, Serving) =>
          if is_quiescent idle (sv_node s, w)
          then mkServer (sv_node s) (Some (w, Draining)) (sv_cancelled s)
          else on_worker persist_global_tail s
      | _ => s
      end
  | EvCancel =>
      mkServer (sv_node s) ((λ wp, (wp.1, Draining)) <$> sv_worker s) true
  | EvStop =>
      match sv_worker s with
      | Some (w, Draining) =>
          if has_pending_seal w then s else mkServer (worker_stop (sv_node s, w)) None (sv_cancelled s)
      | _ => s
      end
  | EvCommit k =>
      if n_stopped (sv_node s) then s else mkServer (commit k (sv_node s)) (sv_worker s) (sv_cancelled s)
  | EvCommitFails k persisted =>
      if n_stopped (sv_node s) then s
      else mkServer (commit_fails k persisted (sv_node s)) (sv_worker s) (sv_cancelled s)
  | EvWriterCloses => mkServer (writer_closes (sv_node s)) (sv_worker s) (sv_cancelled s)
  | EvWriterStops => mkServer (writer_stops (sv_node s)) (sv_worker s) (sv_cancelled s)
  | EvRestart k => mkServer (restart_node k (sv_node s)) None false
  end.

(** A server with an empty store. *)
Definition node_init : Node := mkNode empty_disk (load_loglet_state empty_disk) [] false true false [].
Definition server_init : Server := mkServer node_init None false.

Definition server_run (es : list Event) : Server := foldl (flip server_step) server_init es.
