(* ===== verification/LogServerProps.v ===== *)
(** * LogServerProps: what a log server promises

    The server of LogServer.v keeps what it acknowledges.  The argument follows
    the store through the queue of the writer: [after ch d] is the store once the
    queued commands are written.  Every queued store starts at or below the first
    offset that is missing there, so a written batch never leaves a gap below the
    tail except for offsets that are trimmed or below a global tail that the server
    has been told. *)

From stdpp Require Import strings gmap sorting.
From S2P Require Import Prelude LogTypes NodesConfig LogServer.

Open Scope Z_scope.

(** ** The tail *)

Lemma TailState_eta t : TailState_new (tail_is_sealed t) (tail_offset t) = t.
Proof. by destruct t. Qed.
Lemma sealed_new b o : tail_is_sealed (TailState_new b o) = b.
Proof. by destruct b. Qed.
Lemma offset_new b o : tail_offset (TailState_new b o) = o.
Proof. by destruct b. Qed.

Lemma tail_combine_new t sealed o :
  (tail_combine t sealed o).1 = TailState_new (tail_is_sealed t || sealed) (Z.max (tail_offset t) o).
Proof.
  unfold tail_combine. destruct (negb _ || _) eqn:E; [done|]. simpl.
  apply orb_false_iff in E as [E1 E2]. apply negb_false_iff, eqb_prop in E1. apply Z.ltb_ge in E2.
  rewrite E1. replace (Z.max (tail_offset t) o) with (tail_offset t) by lia. by rewrite TailState_eta.
Qed.

Lemma tail_seal_new t : (tail_seal t).1 = TailState_new true (tail_offset t).
Proof. unfold tail_seal. by destruct t. Qed.

#[export] Hint Rewrite sealed_new offset_new tail_combine_new tail_seal_new : tail.

Definition mem_tail (n : Node) : Z := tail_offset (ls_local_tail (n_state n)).
Definition mem_sealed (n : Node) : bool := tail_is_sealed (ls_local_tail (n_state n)).

(** ** The store *)

Lemma last_record_spec m :
  match last_record m with
  | None => m = ∅
  | Some x => is_Some (m !! x) ∧ ∀ o, is_Some (m !! o) → o ≤ x
  end.
Proof.
  unfold last_record.
  apply (map_fold_weak_ind (λ acc m, match acc with
    | None => m = ∅ | Some x => is_Some (m !! x) ∧ ∀ o, is_Some (m !! o) → o ≤ x end)); [done|].
  intros o r m' acc Hm IH. destruct acc as [x|].
  - destruct IH as [Hx Hmax]. split.
    + destruct (Z.max_spec x o) as [[? ->]|[? ->]]; [by rewrite lookup_insert_eq|].
      destruct (decide (o = x)) as [->|]; [by rewrite lookup_insert_eq|by rewrite lookup_insert_ne].
    + intros k. destruct (decide (o = k)) as [->|]; [lia|].
      rewrite lookup_insert_ne by done. intros ?%Hmax. lia.
  - subst. split; [by rewrite lookup_insert_eq|]. intros k.
    destruct (decide (o = k)) as [->|]; [lia|]. rewrite lookup_insert_ne, lookup_empty by done.
    by intros [? ?].
Qed.

Definition disk_tail (d : Disk) : Z := tail_offset (ls_local_tail (load_loglet_state d)).
Definition disk_trim (d : Disk) : Z := default LogletOffset_INVALID (d_trim_point d).

(** What every store of a server looks like.  No offset is the last one of its
    type: the tail after it could not be expressed. *)
Record disk_wf (d : Disk) : Prop := {
  dw_local_tail : d_local_tail d = None;
  dw_trim : 0 ≤ disk_trim d < u32_max;
  dw_offsets : ∀ o, is_Some (d_records d !! o) → 1 ≤ o < u32_max }.

Lemma offset_next_lt o : o < u32_max → offset_next o = o + 1.
Proof. unfold offset_next, saturating_add. lia. Qed.

Lemma disk_tail_le d t :
  disk_wf d →
  disk_tail d ≤ t ↔ 1 ≤ t ∧ disk_trim d < t ∧ ∀ o, is_Some (d_records d !! o) → o < t.
Proof.
  intros [Hl Ht Ho]. unfold disk_tail, load_loglet_state. rewrite Hl.
  fold (disk_trim d). simpl. autorewrite with tail.
  pose proof (last_record_spec (d_records d)) as Hs. destruct (last_record _) as [x|].
  - destruct Hs as [Hx Hmax]. pose proof (Ho _ Hx). rewrite (offset_next_lt x) by lia.
    destruct (Z.leb_spec (x + 1) (disk_trim d)).
    + rewrite offset_next_lt by lia. split; [intros; split_and!; try lia|lia].
      intros o Hd. pose proof (Hmax _ Hd). lia.
    + split; [intros; split_and!; try lia|].
      * intros o Hd. pose proof (Hmax _ Hd). lia.
      * intros (_ & _ & H'). pose proof (H' _ Hx). lia.
  - rewrite Hs. unfold LogletOffset_OLDEST. destruct (Z.leb_spec 1 (disk_trim d)).
    + rewrite offset_next_lt by lia. split; [intros; split_and!; try lia|lia].
      intros o [? ?]. by rewrite lookup_empty in *.
    + split; [intros; split_and!; try lia|lia]. intros o [? ?]. by rewrite lookup_empty in *.
Qed.

(** What a command does to the store, and a queue of them. *)
Definition apply_write (c : LogStoreWriteCommand) (d : Disk) : Disk :=
  match c with
  | CmdWrite _ data meta =>
      from_option update_data id data (from_option update_metadata id meta d)
  | _ => d
  end.
Definition after (cs : list LogStoreWriteCommand) (d : Disk) : Disk := foldl (flip apply_write) d cs.

Lemma after_app cs1 cs2 d : after (cs1 ++ cs2) d = after cs2 (after cs1 d).
Proof. apply foldl_app. Qed.

Lemma write_command c reg b d :
  write_batch (handle_command c reg b).2 d = apply_write c (write_batch b d).
Proof.
  unfold write_batch. destruct c as [t data meta| |]; simpl.
  - rewrite !foldl_app. by destruct data, meta.
  - by destruct (b_loglet b).
  - destruct reg; [|done]. by destruct (b_loglet b).
Qed.

Lemma write_commands cs : ∀ reg b d,
  write_batch (handle_commands cs reg b).2 d = after cs (write_batch b d).
Proof.
  induction cs as [|c cs IH]; intros reg b d; [done|]. simpl.
  rewrite <- (write_command c reg b). destruct (handle_command c reg b) as [reg' b']. by rewrite IH.
Qed.

(** A queue that registers the state of the loglet with the writer, or removes it. *)
Definition registers (c : LogStoreWriteCommand) (reg : bool) : bool :=
  match c with CmdRegister => true | CmdUnregister => false | CmdWrite _ _ _ => reg end.
Definition registered_after (cs : list LogStoreWriteCommand) (reg : bool) : bool := foldl (flip registers) reg cs.

Lemma process_store_message_lookup ps : ∀ f (m : gmap Z LogRecord) o,
  f + Z.of_nat (length ps) ≤ u32_max →
  process_store_message f ps m !! o =
    if bool_decide (f ≤ o < f + Z.of_nat (length ps)) then ps !! Z.to_nat (o - f) else m !! o.
Proof.
  induction ps as [|r ps IH]; intros f m o Hb; simpl.
  - rewrite bool_decide_false; [done|]. simpl. lia.
  - simpl length in Hb. rewrite offset_next_lt by lia. rewrite IH by lia.
    destruct (decide (o = f)) as [->|Hne].
    + rewrite bool_decide_false by lia. rewrite lookup_insert_eq, bool_decide_true by (simpl; lia).
      by rewrite Z.sub_diag.
    + rewrite lookup_insert_ne by done.
      destruct (decide (f + 1 ≤ o < f + 1 + Z.of_nat (length ps))).
      * rewrite !bool_decide_true by (simpl; lia).
        replace (Z.to_nat (o - f)) with (S (Z.to_nat (o - (f + 1)))) by lia. done.
      * rewrite !bool_decide_false by (simpl; lia). done.
Qed.

Lemma trim_log_records_lookup t (m : gmap Z LogRecord) o :
  t < u32_max →
  is_Some (trim_log_records t m !! o) ↔ is_Some (m !! o) ∧ (o < 1 ∨ t < o).
Proof.
  intros Ht. unfold trim_log_records. rewrite offset_next_lt by done. unfold LogletOffset_OLDEST.
  destruct (m !! o) as [r|] eqn:E.
  - destruct (decide (1 ≤ o ∧ o < t + 1)).
    + rewrite map_lookup_filter_None_2; [|naive_solver]. split; [by intros []|intros [_ ?]; lia].
    + rewrite (map_lookup_filter_Some_2 _ _ _ r); [|done|done]. naive_solver lia.
  - rewrite map_lookup_filter_None_2 by (by left). split; [by intros []|by intros [[] _]].
Qed.

Lemma trim_log_records_some t (m : gmap Z LogRecord) o r :
  trim_log_records t m !! o = Some r → m !! o = Some r.
Proof. by intros [? _]%map_lookup_filter_Some. Qed.

(** ** Messages *)

Definition store_last (m : Store) : Z := sto_first_offset m + Z.of_nat (length (sto_payloads m)) - 1.

(** A batch that the worker does not refuse as malformed. *)
Definition store_wf (m : Store) : Prop :=
  1 ≤ sto_first_offset m ∧ sto_payloads m ≠ [] ∧ store_last m < u32_max.

(** The sequencer gives an offset to one record, and to none the last offset. *)
Definition carries (content : Z → LogRecord) (m : Store) : Prop :=
  0 ≤ sto_first_offset m ∧ store_last m < u32_max
  ∧ ∀ i r, sto_payloads m !! i = Some r → r = content (sto_first_offset m + Z.of_nat i).

Lemma last_offset_spec content m :
  carries content m → sto_payloads m ≠ [] → last_offset m = Some (store_last m).
Proof.
  intros (Hf & Hl & _) Hne. unfold last_offset, store_last in *.
  assert (0 < Z.of_nat (length (sto_payloads m))) by (destruct (sto_payloads m); [done|simpl; lia]).
  set (len := Z.of_nat _) in *. replace (len <=? u32_max) with true by lia.
  rewrite Z.mod_small by (change (2 ^ 32) with (u32_max + 1); lia).
  unfold offset_add, checked_add. replace (_ <=? u32_max) with true by lia. f_equal. lia.
Qed.

(** ** Stores and queues that are in order *)

Section Server.
Context (content : Z → LogRecord) (rcv : Rpc → Store → Prop) (told : Z).
Implicit Types (d : Disk) (c : LogStoreWriteCommand) (ch : list LogStoreWriteCommand) (n : Node) (w : Worker).

(** The server has the record of offset [o], or need not have it. *)
Definition safe d (o : Z) : Prop :=
  is_Some (d_records d !! o) ∨ o ≤ disk_trim d ∨ o < told.
(** It has the record, or has trimmed it. *)
Definition hold d (o : Z) : Prop := is_Some (d_records d !! o) ∨ o ≤ disk_trim d.

Lemma safe_hold d o : safe d o ↔ hold d o ∨ o < told.
Proof. unfold safe, hold. tauto. Qed.

Record disk_ok d : Prop := {
  do_wf : disk_wf d;
  do_content : ∀ o r, d_records d !! o = Some r → r = content o;
  do_prefix : ∀ o, 1 ≤ o < disk_tail d → safe d o;
  do_trim : disk_trim d < told;
  do_global : default LogletOffset_OLDEST (d_global_tail d) ≤ told }.

Inductive cmd_ok d : LogStoreWriteCommand → Prop :=
| ok_store rpc sq m :
    rcv rpc m → store_wf m → carries content m →
    (d_seal d = true → is_repair m = true) →
    (∀ o, 1 ≤ o < sto_first_offset m → safe d o) →
    cmd_ok d (CmdWrite (TaskStore rpc sq)
                (Some (StoreBatch (sto_payloads m) (sto_first_offset m) (store_last m)))
                (SetSequencer <$> sq))
| ok_seal rpc : cmd_ok d (CmdWrite (TaskSeal rpc) None (Some MetaSeal))
| ok_trim rpc t :
    1 ≤ t < u32_max → t < told →
    cmd_ok d (CmdWrite (TaskTrim rpc t) (Some (TrimLogRecords t)) (Some (UpdateTrimPoint t)))
| ok_sync g :
    g ≤ told →
    cmd_ok d (CmdWrite (TaskSyncGlobalTail g) None (Some (UpdateGlobalTail g)))
| ok_register : cmd_ok d CmdRegister
| ok_unregister : cmd_ok d CmdUnregister.

Definition is_write c : bool := match c with CmdWrite _ _ _ => true | _ => false end.

Fixpoint chan_ok d (reg : bool) ch : Prop :=
  match ch with
  | [] => True
  | c :: ch => (is_write c = true → reg = true) ∧ cmd_ok d c
               ∧ chan_ok (apply_write c d) (registers c reg) ch
  end.

Lemma chan_ok_app d reg ch1 ch2 :
  chan_ok d reg (ch1 ++ ch2) ↔
  chan_ok d reg ch1 ∧ chan_ok (after ch1 d) (registered_after ch1 reg) ch2.
Proof.
  revert d reg. induction ch1 as [|c ch1 IH]; intros d reg; simpl; [tauto|]. rewrite IH. tauto.
Qed.

Lemma disk_tail_bounds d :
  disk_wf d →
  1 ≤ disk_tail d ∧ disk_trim d < disk_tail d ∧ ∀ o, is_Some (d_records d !! o) → o < disk_tail d.
Proof. intros Hwf. by apply disk_tail_le. Qed.
Lemma disk_tail_bound d : disk_wf d → disk_tail d ≤ u32_max.
Proof.
  intros Hwf. apply disk_tail_le; [done|]. destruct Hwf as [_ Ht Ho].
  split_and!; [lia|lia|]. intros o H'. pose proof (Ho _ H'). lia.
Qed.

(** *** Writing a command *)

Lemma store_range_lookup m o :
  carries content m → sto_first_offset m ≤ o ≤ store_last m →
  sto_payloads m !! Z.to_nat (o - sto_first_offset m) = Some (content o).
Proof.
  intros (Hf & Hl & Hc) Ho. unfold store_last in *.
  destruct (lookup_lt_is_Some_2 (sto_payloads m) (Z.to_nat (o - sto_first_offset m))) as [r Hr]; [lia|].
  rewrite Hr. f_equal. rewrite (Hc _ _ Hr). f_equal. lia.
Qed.

Lemma stored_lookup m d o :
  carries content m →
  process_store_message (sto_first_offset m) (sto_payloads m) (d_records d) !! o =
    if bool_decide (sto_first_offset m ≤ o ≤ store_last m) then Some (content o) else d_records d !! o.
Proof.
  intros Hc. rewrite process_store_message_lookup by (destruct Hc as (_ & Hl & _); unfold store_last in *; lia).
  destruct (decide (sto_first_offset m ≤ o ≤ store_last m)) as [Hi|Hi].
  - rewrite (bool_decide_true (_ ≤ _ ≤ _)) by done.
    rewrite bool_decide_true by (unfold store_last in *; lia). by apply store_range_lookup.
  - rewrite (bool_decide_false (_ ≤ _ ≤ _)) by done.
    rewrite bool_decide_false by (unfold store_last in *; lia). done.
Qed.

Definition cmd_tail c (t : Z) : Z :=
  match c with CmdWrite _ (Some (StoreBatch _ _ last)) _ => Z.max t (last + 1) | _ => t end.
Definition cmd_seals c : bool :=
  match c with CmdWrite _ _ (Some MetaSeal) => true | _ => false end.

Lemma disk_tail_eq d t :
  disk_wf d →
  (∀ t', 1 ≤ t' ∧ disk_trim d < t' ∧ (∀ o, is_Some (d_records d !! o) → o < t') ↔ t ≤ t') →
  disk_tail d = t.
Proof.
  intros Hwf Ht. apply Z.le_antisymm.
  - apply disk_tail_le; [done|]. by apply Ht.
  - apply Ht. by apply disk_tail_le.
Qed.

(** A step of the store keeps the tail and what is safe. *)
Record grows d d' : Prop := {
  gr_hold : ∀ o, hold d o → hold d' o;
  gr_tail : disk_tail d ≤ disk_tail d';
  gr_seal : d_seal d = true → d_seal d' = true }.

#[local] Instance grows_preorder : PreOrder grows.
Proof.
  split; [constructor; [tauto|lia|done]|].
  intros x y z [A1 A2 A3] [B1 B2 B3]. constructor; [auto|lia|auto].
Qed.

Lemma gr_safe d d' o : grows d d' → safe d o → safe d' o.
Proof. intros Hg. rewrite !safe_hold. intros [?|?]; [left; by apply (gr_hold _ _ Hg)|by right]. Qed.

Lemma disk_store_wf d m meta :
  disk_wf d → store_wf m → carries content m →
  disk_wf (update_data (StoreBatch (sto_payloads m) (sto_first_offset m) (store_last m))
             (from_option update_metadata id (SetSequencer <$> meta) d)).
Proof.
  intros [Hl Ht Ho] (H1 & H2 & H3) Hc. split; [by destruct meta|by destruct meta|].
  intros o. simpl.
  assert (d_records (from_option update_metadata id (SetSequencer <$> meta) d) = d_records d) as ->
    by by destruct meta.
  rewrite stored_lookup by done. destruct (bool_decide_reflect (sto_first_offset m ≤ o ≤ store_last m)).
  - intros _. lia.
  - apply Ho.
Qed.

Lemma apply_store d rpc sq m :
  disk_ok d →
  store_wf m → carries content m → (∀ o, 1 ≤ o < sto_first_offset m → safe d o) →
  let c := CmdWrite (TaskStore rpc sq)
             (Some (StoreBatch (sto_payloads m) (sto_first_offset m) (store_last m)))
             (SetSequencer <$> sq) in
  disk_ok (apply_write c d) ∧ grows d (apply_write c d)
  ∧ disk_tail (apply_write c d) = cmd_tail c (disk_tail d)
  ∧ d_seal (apply_write c d) = d_seal d
  ∧ ∀ o, sto_first_offset m ≤ o ≤ store_last m → is_Some (d_records (apply_write c d) !! o).
Proof.
  intros [Hwf Hcont Hpre Htm Hg] Hm Hc Hf c.
  pose proof (disk_store_wf d m sq Hwf Hm Hc) as Hwf'. fold (apply_write c d) in Hwf'.
  assert (∀ o, d_records (apply_write c d) !! o =
    if bool_decide (sto_first_offset m ≤ o ≤ store_last m) then Some (content o) else d_records d !! o) as Hlk.
  { intros o. rewrite <- stored_lookup by done. by destruct sq. }
  assert (disk_trim (apply_write c d) = disk_trim d) as Htr by by destruct sq.
  assert (d_global_tail (apply_write c d) = d_global_tail d) as Hgl by by destruct sq.
  assert (d_seal (apply_write c d) = d_seal d) as Hse by by destruct sq.
  assert (∀ o, hold d o → hold (apply_write c d) o) as Hhold.
  { intros o. unfold hold. rewrite Hlk, Htr. destruct (bool_decide _); naive_solver. }
  assert (∀ o, safe d o → safe (apply_write c d) o) as Hsafe
    by (intros o; rewrite !safe_hold; naive_solver).
  assert (∀ o, sto_first_offset m ≤ o ≤ store_last m → is_Some (d_records (apply_write c d) !! o)) as Hin.
  { intros o Ho. rewrite Hlk, bool_decide_true by done. done. }
  assert (disk_tail (apply_write c d) = cmd_tail c (disk_tail d)) as Htail.
  { destruct Hm as (Hm1 & Hm2 & Hm3).
    assert (sto_first_offset m ≤ store_last m)
      by (unfold store_last; destruct (sto_payloads m); [done|simpl; lia]).
    apply disk_tail_eq; [done|]. intros t'. rewrite Htr. cbn [cmd_tail c]. split.
    - intros (A & B & C). assert (disk_tail d ≤ t').
      { apply disk_tail_le; [done|]. split_and!; [done|done|]. intros o Ho. apply C.
        rewrite Hlk. by destruct (bool_decide _). }
      pose proof (C (store_last m) (Hin (store_last m) ltac:(lia))). lia.
    - intros Ht. destruct (disk_tail_bounds d Hwf) as (A & B & C). split_and!; [lia|lia|].
      intros o. rewrite Hlk. destruct (bool_decide_reflect (sto_first_offset m ≤ o ≤ store_last m)).
      + intros _. lia.
      + intros Ho%C. lia. }
  split_and!; try done.
  - split; [done| | |by rewrite Htr|by rewrite Hgl].
    + intros o r. rewrite Hlk. destruct (bool_decide _); [congruence|apply Hcont].
    + rewrite Htail. simpl. intros o Ho. destruct (decide (o < sto_first_offset m)); [by apply Hsafe, Hf; lia|].
      destruct (decide (o ≤ store_last m)); [by left; apply Hin; lia|]. apply Hsafe, Hpre. lia.
  - split; [done| |by rewrite Hse]. rewrite Htail. simpl. lia.
Qed.

Lemma apply_trim d rpc t :
  disk_ok d → 1 ≤ t < u32_max → t < told →
  let c := CmdWrite (TaskTrim rpc t) (Some (TrimLogRecords t)) (Some (UpdateTrimPoint t)) in
  disk_ok (apply_write c d) ∧ grows d (apply_write c d).
Proof.
  intros [Hwf Hcont Hpre Htm Hg] Ht Htt c.
  assert (disk_trim (apply_write c d) = Z.max t (disk_trim d)) as Htr by done.
  assert (∀ o, is_Some (d_records (apply_write c d) !! o) ↔ is_Some (d_records d !! o) ∧ (o < 1 ∨ t < o))
    as Hlk by (intros o; apply trim_log_records_lookup; lia).
  assert (disk_wf (apply_write c d)) as Hwf'.
  { destruct Hwf as [A B C]. split; [done|rewrite Htr; lia|]. intros o [Ho _]%Hlk. by apply C. }
  assert (disk_tail (apply_write c d) = Z.max (disk_tail d) (t + 1)) as Htail.
  { destruct (disk_tail_bounds d Hwf) as (A & B & C).
    apply disk_tail_eq; [done|]. intros t'. rewrite Htr. split.
    - intros (A' & B' & C'). assert (disk_tail d ≤ t'); [|lia].
      apply disk_tail_le; [done|]. split_and!; [lia|lia|]. intros o Ho.
      destruct (decide (o ≤ t)); [lia|]. apply C', Hlk. split; [done|lia].
    - intros H'. split_and!; [lia|lia|]. intros o [Ho _]%Hlk. pose proof (C _ Ho). lia. }
  assert (∀ o, hold d o → hold (apply_write c d) o) as Hhold.
  { intros o. unfold hold. rewrite Hlk, Htr. intros [Ho|?]; [|lia].
    destruct (dw_offsets d Hwf _ Ho). destruct (decide (t < o)); [left; split; [done|lia]|right; lia]. }
  split; [|split; [done|lia|done]]. split; [done| | |lia|done].
  - intros o r Hr. apply Hcont. exact (trim_log_records_some t _ _ _ Hr).
  - rewrite Htail. intros o Ho. destruct (decide (o ≤ t)); [right; left; rewrite Htr; lia|].
    rewrite safe_hold. destruct (proj1 (safe_hold d o) (Hpre o ltac:(lia))); auto.
Qed.

(** The other commands leave the records and the trim point alone. *)
Lemma apply_other c d :
  disk_ok d →
  d_records (apply_write c d) = d_records d → disk_trim (apply_write c d) = disk_trim d →
  d_local_tail (apply_write c d) = d_local_tail d →
  default LogletOffset_OLDEST (d_global_tail (apply_write c d)) ≤ told →
  disk_tail (apply_write c d) = disk_tail d ∧ disk_ok (apply_write c d)
  ∧ (∀ o, hold d o → hold (apply_write c d) o).
Proof.
  intros [Hwf Hcont Hpre Htm Hg] Hr Ht Hl Hgl.
  assert (disk_wf (apply_write c d)) as Hwf'.
  { destruct Hwf as [A B C]. split; [congruence|by rewrite Ht|by rewrite Hr]. }
  assert (disk_tail (apply_write c d) = disk_tail d) as Htail.
  { apply disk_tail_eq; [done|]. intros t'. rewrite Hr, Ht. symmetry. by apply disk_tail_le. }
  assert (∀ o, safe d o ↔ safe (apply_write c d) o) as Hs by (intros o; unfold safe; by rewrite Hr, Ht).
  split_and!; [done| |by intros o; unfold hold; rewrite Hr, Ht].
  split; [done|by rewrite Hr| |by rewrite Ht|done]. rewrite Htail. intros o Ho. by apply Hs, Hpre.
Qed.

Lemma apply_ok d c :
  disk_ok d → cmd_ok d c →
  disk_ok (apply_write c d) ∧ grows d (apply_write c d)
  ∧ cmd_tail c (disk_tail d) ≤ disk_tail (apply_write c d)
  ∧ d_seal (apply_write c d) = d_seal d || cmd_seals c.
Proof.
  intros Hd Hc. destruct Hc as [rpc sq m _ Hm Hcar _ Hf|rpc|rpc t Ht Htt|g Hg| |].
  - edestruct apply_store as (A & B & C & D & _); try done. split_and!; [done|done|by rewrite C|].
    rewrite D. by destruct sq; rewrite orb_false_r.
  - destruct (apply_other (CmdWrite (TaskSeal rpc) None (Some MetaSeal)) d) as (A & B & C);
      try done; [apply (do_global d Hd)|].
    split_and!; [done| |by rewrite A|by destruct (d_seal d)]. split; [done|by rewrite A|done].
  - edestruct apply_trim as (A & B); [done..|]. split_and!; [done|done|apply (gr_tail _ _ B)|].
    by rewrite orb_false_r.
  - destruct (apply_other (CmdWrite (TaskSyncGlobalTail g) None (Some (UpdateGlobalTail g))) d)
      as (A & B & C); try done.
    split_and!; [done| |by rewrite A|by rewrite orb_false_r]. split; [done|by rewrite A|done].
  - split_and!; [done|reflexivity|done|by rewrite orb_false_r].
  - split_and!; [done|reflexivity|done|by rewrite orb_false_r].
Qed.

Lemma after_ok ch : ∀ d reg,
  disk_ok d → chan_ok d reg ch → disk_ok (after ch d) ∧ grows d (after ch d).
Proof.
  induction ch as [|c ch IH]; intros d reg Hd; simpl; [split; [done|reflexivity]|].
  intros (_ & Hc & Hch). destruct (apply_ok d c Hd Hc) as (A & B & _).
  destruct (IH _ _ A Hch) as [C D]. split; [done|]. by etrans.
Qed.

(** ** The invariant of the node *)

Definition reply_header (r : Reply) : ResponseHeader :=
  match r with
  | Stored _ h | Sealed _ h | Trimmed _ h | LogletInfo _ h _ | TailUpdated _ h
  | Digest _ h _ | Records _ h _ _ => h
  end.

(** The store once the writer has written its queue. *)
Definition vdisk n : Disk := after (n_channel n) (n_disk n).

Definition durable d (m : Store) : Prop := ∀ o, sto_first_offset m ≤ o ≤ store_last m → safe d o.

(** No answer has reported the loglet as sealed. *)
Definition not_yet_sealed n : Prop := ∀ r, r ∈ n_replies n → rh_sealed (reply_header r) = false.

(** A store that has been acknowledged.  Unless it is a repair it is below the tail
    of every answer that reports the loglet as sealed. *)
Record acked n (rpc : Rpc) (m : Store) : Prop := {
  ak_rcv : rcv rpc m;
  ak_wf : store_wf m;
  ak_durable : durable (n_disk n) m;
  ak_below : is_repair m = false → store_last m < Z.max told (mem_tail n);
  ak_fenced : is_repair m = false → ∀ r, r ∈ n_replies n → rh_sealed (reply_header r) = true →
    store_last m < Z.max told (rh_local_tail (reply_header r)) }.

Lemma acked_mono n n' rpc m :
  grows (n_disk n) (n_disk n') → mem_tail n ≤ mem_tail n' → n_replies n' = n_replies n →
  acked n rpc m → acked n' rpc m.
Proof.
  intros Hg Ht Hr [A B C D E]. split; [done|done| | |by rewrite Hr].
  - intros o Ho. by eapply gr_safe, C.
  - intros Hrep. pose proof (D Hrep). lia.
Qed.

(** What an answer says about the records. *)
Definition reply_data d (r : Reply) : Prop :=
  match r with
  | Digest _ _ es => ∀ e o, e ∈ es → de_status e = RsExists →
      de_from_offset e ≤ o ≤ de_to_offset e → hold d o
  | Records _ _ _ rs => (∀ o r, (o, MrData r) ∈ rs → r = content o)
                        ∧ ∀ o t, (o, MrTrimGap t) ∈ rs → 0 ≤ t < told
  | LogletInfo _ _ t => t < told
  | _ => True
  end.

Lemma reply_data_grows d d' r : grows d d' → reply_data d r → reply_data d' r.
Proof. intros Hg. destruct r; try done. simpl. intros Hd e o He Hs Ho. by eapply (gr_hold _ _ Hg), Hd. Qed.

(** No answer that reports a seal has a tail below [floor]. *)
Context (floor : Z).

Record NodeInv n : Prop := {
  ni_disk : disk_ok (n_disk n);
  ni_chan : chan_ok (n_disk n) (n_registered n) (n_channel n);
  ni_down : n_stopped n = true → n_writer_up n = false;
  ni_exact : n_stopped n = false → mem_sealed n = d_seal (n_disk n);
  ni_le : 1 ≤ mem_tail n ≤ disk_tail (n_disk n) ∧ (mem_sealed n = true → d_seal (n_disk n) = true);
  ni_global : ls_known_global_tail (n_state n) ≤ told ∧ ls_trim_point (n_state n) < told;
  ni_headers : ∀ r, r ∈ n_replies n →
    rh_local_tail (reply_header r) ≤ mem_tail n ∧ (rh_sealed (reply_header r) = true → mem_sealed n = true)
    ∧ rh_known_global_tail (reply_header r) ≤ told ∧ reply_data (n_disk n) r;
  ni_stored : ∀ rpc h, Stored rpc h ∈ n_replies n → rh_status h = StOk → ∃ m, acked n rpc m;
  ni_sealed : ∀ rpc h, Sealed rpc h ∈ n_replies n → rh_status h = StOk → rh_sealed h = true;
  ni_floor : floor ≤ mem_tail n ∧
    ∀ r, r ∈ n_replies n → rh_sealed (reply_header r) = true → floor ≤ rh_local_tail (reply_header r);
  ni_order : ∀ r r', r ∈ n_replies n → r' ∈ n_replies n → rh_sealed (reply_header r') = true →
    rh_sealed (reply_header r) = false → rh_local_tail (reply_header r) ≤ Z.max 0 (rh_local_tail (reply_header r')) }.

Lemma unsealed_not_yet n : NodeInv n → mem_sealed n = false → not_yet_sealed n.
Proof.
  intros Hn Hs r Hin. destruct (ni_headers n Hn _ Hin) as (_ & H' & _).
  destruct (rh_sealed _); [|done]. by rewrite H' in Hs.
Qed.

(** A change of the node that answers nothing. *)
Lemma headers_mono n n' :
  NodeInv n → grows (n_disk n) (n_disk n') → mem_tail n ≤ mem_tail n' →
  (mem_sealed n = true → mem_sealed n' = true) → n_replies n' = n_replies n →
  ∀ r, r ∈ n_replies n' →
    rh_local_tail (reply_header r) ≤ mem_tail n' ∧ (rh_sealed (reply_header r) = true → mem_sealed n' = true)
    ∧ rh_known_global_tail (reply_header r) ≤ told ∧ reply_data (n_disk n') r.
Proof.
  intros Hn Hg Ht Hs Hr r. rewrite Hr. intros (A & B & C & D)%(ni_headers n Hn).
  split_and!; [lia|auto|done|]. by eapply reply_data_grows.
Qed.
Lemma stored_mono n n' :
  NodeInv n → grows (n_disk n) (n_disk n') → mem_tail n ≤ mem_tail n' → n_replies n' = n_replies n →
  ∀ rpc h, Stored rpc h ∈ n_replies n' → rh_status h = StOk → ∃ m, acked n' rpc m.
Proof.
  intros Hn Hg Ht Hr rpc h. rewrite Hr. intros Hin Hok.
  destruct (ni_stored n Hn _ _ Hin Hok) as [m Hm]. exists m. by eapply acked_mono, Hm.
Qed.

(** The answers that keep the invariant. *)
Definition reply_ok n (r : Reply) : Prop :=
  (rh_local_tail (reply_header r) ≤ mem_tail n
   ∧ (rh_sealed (reply_header r) = true → mem_sealed n = true ∧ rh_local_tail (reply_header r) = mem_tail n)
   ∧ rh_known_global_tail (reply_header r) ≤ told
   ∧ (rh_sealed (reply_header r) = false → mem_sealed n = true → rh_local_tail (reply_header r) ≤ 0))
  ∧ reply_data (n_disk n) r
  ∧ match r with
    | Stored rpc h =>
        rh_status h = StOk →
        ∃ m, rcv rpc m ∧ store_wf m ∧ durable (n_disk n) m
             ∧ (is_repair m = false → store_last m < Z.max told (mem_tail n) ∧ not_yet_sealed n)
    | Sealed rpc h => rh_status h = StOk → rh_sealed h = true
    | _ => True
    end.

Lemma reply_all_inv n rs : NodeInv n → Forall (reply_ok n) rs → NodeInv (reply_all rs n).
Proof.
  intros Hn Hrs. rewrite Forall_forall in Hrs. pose proof Hn as [H1 H2 H3 H4 H5 H6 H7 H8 H9 H10 H11].
  split; try done.
  - intros r [?|Hr]%elem_of_app; [by apply H7|]. destruct (Hrs _ Hr) as ((A & B & C & _) & D & _).
    split_and!; [done|by intros [? _]%B|done|done].
  - intros rpc h [Hin|Hin]%elem_of_app Hok.
    + destruct (H8 _ _ Hin Hok) as [m [A B C D E]]. exists m. split; try done.
      intros Hrep r [Hin'|Hin']%elem_of_app Hs; [by eapply E|].
      destruct (Hrs _ Hin') as ((_ & H' & _) & _). destruct (H' Hs) as [_ ->]. by apply D.
    + destruct (Hrs _ Hin) as (_ & _ & H'). destruct (H' Hok) as (m & A & B & C & D). exists m.
      split; [done..| |].
      * intros Hrep. by apply D.
      * intros Hrep r [Hin'|Hin']%elem_of_app Hs.
        -- destruct (D Hrep) as [_ Hno]. by rewrite (Hno _ Hin') in Hs.
        -- destruct (Hrs _ Hin') as ((_ & H'' & _) & _). destruct (H'' Hs) as [_ ->]. by apply D.
  - intros rpc h [Hin|Hin]%elem_of_app Hok; [by eapply H9|].
    destruct (Hrs _ Hin) as (_ & _ & H'). by apply H'.
  - destruct H10 as [F1 F2]. split; [done|]. intros r [Hr|Hr]%elem_of_app Hs; [by apply F2|].
    destruct (Hrs _ Hr) as ((_ & H' & _) & _). destruct (H' Hs) as [_ ->]. done.
  - assert (∀ r, r ∈ n_replies n ++ rs → rh_local_tail (reply_header r) ≤ mem_tail n) as Hle.
    { intros r [?|Hr]%elem_of_app; [by apply H7|]. by apply Hrs. }
    intros r r' Hr [Hr'|Hr']%elem_of_app Hs' Hs.
    + apply elem_of_app in Hr as [Hr|Hr]; [by apply H11|].
      destruct (Hrs _ Hr) as ((_ & _ & _ & Hz) & _). destruct (H7 _ Hr') as (_ & Hm & _).
      pose proof (Hz Hs (Hm Hs')). lia.
    + destruct (Hrs _ Hr') as ((_ & H' & _) & _). destruct (H' Hs') as [_ ->]. pose proof (Hle _ Hr). lia.
Qed.

Lemma reply_inv n r : NodeInv n → reply_ok n r → NodeInv (reply r n).
Proof. intros Hn Hr. apply (reply_all_inv n [r]); [done|by apply Forall_singleton]. Qed.

(** Answers that acknowledge nothing and carry no data. *)
Definition acks (r : Reply) : bool :=
  match r with
  | Stored _ h | Sealed _ h => bool_decide (rh_status h = StOk)
  | Digest _ _ es => negb (bool_decide (es = []))
  | Records _ _ _ rs => negb (bool_decide (rs = []))
  | LogletInfo _ _ _ => true
  | _ => false
  end.

Lemma reply_ok_nack n r :
  rh_local_tail (reply_header r) ≤ mem_tail n →
  (rh_sealed (reply_header r) = true → mem_sealed n = true ∧ rh_local_tail (reply_header r) = mem_tail n) →
  rh_known_global_tail (reply_header r) ≤ told →
  (rh_sealed (reply_header r) = false → mem_sealed n = true → rh_local_tail (reply_header r) ≤ 0) →
  acks r = false → reply_ok n r.
Proof.
  intros H1 H2 H3 H4 Ha. split; [done|].
  destruct r as [? h|? h|? h|? h ?|? h|? h es|? h ? rs]; try done; simpl in Ha |- *.
  - by rewrite bool_decide_eq_false in Ha.
  - by rewrite bool_decide_eq_false in Ha.
  - apply negb_false_iff, bool_decide_eq_true in Ha as ->. split; [|done]. by intros e o ?%elem_of_nil.
  - apply negb_false_iff, bool_decide_eq_true in Ha as ->.
    split; [|done]. split; [by intros o r ?%elem_of_nil|by intros o t ?%elem_of_nil].
Qed.

(** The header of the current tail. *)
Ltac current_header := split_and!; simpl; [done|done|done|unfold mem_sealed; simpl; congruence].

Lemma reply_ok_current n r g s :
  g ≤ told → reply_header r = with_status s (header_new (ls_local_tail (n_state n)) g) → acks r = false →
  reply_ok n r.
Proof.
  intros Hg Hh. apply reply_ok_nack; rewrite Hh; [done|by simpl|done|]. simpl. unfold mem_sealed. congruence.
Qed.

Lemma reply_ok_dropped n t r : NodeInv n → task_drop t = Some r → reply_ok n r.
Proof.
  intros Hn Ht. destruct (ni_le n Hn) as [Hp _].
  pose proof (do_trim _ (ni_disk n Hn)). pose proof (dw_trim _ (do_wf _ (ni_disk n Hn))).
  destruct t; simplify_eq/=; apply reply_ok_nack; simpl; try done; unfold LogletOffset_INVALID; lia.
Qed.

Lemma below_durable n m :
  NodeInv n → store_wf m → store_last m < Z.max told (mem_tail n) → durable (n_disk n) m.
Proof.
  intros Hn (Hf & _) Hl o Ho. destruct (decide (o < told)); [by right; right|].
  apply (do_prefix _ (ni_disk n Hn)). destruct (ni_le n Hn). lia.
Qed.

(** An acknowledged store that is not a repair: the server has everything up to it. *)
Lemma acked_prefix n rpc m o :
  NodeInv n → acked n rpc m → is_repair m = false → 1 ≤ o ≤ store_last m → safe (n_disk n) o.
Proof.
  intros Hn Ha Hrep Ho. pose proof (ak_below _ _ _ Ha Hrep). destruct (decide (o < told)); [by right; right|].
  apply (do_prefix _ (ni_disk n Hn)). destruct (ni_le n Hn). lia.
Qed.

(** A store below the tail, or below the global tail, of a loglet that is open. *)
Lemma reply_ok_stored n rpc m g :
  NodeInv n → rcv rpc m → store_wf m → store_last m < Z.max told (mem_tail n) → mem_sealed n = false →
  g ≤ told → reply_ok n (Stored rpc (with_status StOk (header_new (ls_local_tail (n_state n)) g))).
Proof.
  intros Hn Hr Hw Hl Hs Hg. split; [split_and!; simpl; [done|done|done|congruence]|].
  split; [done|]. intros _. exists m.
  split_and!; [done..|by apply below_durable|]. intros _. split; [done|]. by apply unsealed_not_yet.
Qed.

Lemma reply_ok_sealed n rpc g :
  mem_sealed n = true → g ≤ told →
  reply_ok n (Sealed rpc (with_status StOk (header_new (ls_local_tail (n_state n)) g))).
Proof.
  intros Hs Hg. split; [split_and!; simpl; [done|done|done|unfold mem_sealed in *; congruence]|].
  split; [done|]. intros _. by simpl.
Qed.

(** ** Queues of waiters *)

Lemma wq_push_elem target v q e :
  e ∈ wq_inner (wq_push target v q) → e = (target, v) ∨ e ∈ wq_inner q.
Proof.
  unfold wq_push. case_match; simpl.
  - rewrite elem_of_app, list_elem_of_singleton. tauto.
  - generalize (partition_point target (wq_inner q)). intros pos.
    assert (e ∈ wq_inner q ↔ e ∈ take pos (wq_inner q) ∨ e ∈ drop pos (wq_inner q)) as ->
      by by rewrite <- elem_of_app, take_drop.
    rewrite elem_of_app, elem_of_cons. tauto.
Qed.

Lemma pop_while_spec threshold l :
  Forall (λ v, ∃ t, t ≤ threshold ∧ (t, v) ∈ l) (pop_while threshold l).1
  ∧ (pop_while threshold l).2 ⊆ l.
Proof.
  induction l as [|[t v] l [IH1 IH2]]; simpl; [by split; [constructor|]|].
  destruct (Z.leb_spec t threshold); simpl; [|by split; [constructor|]].
  destruct (pop_while threshold l) as [vs rest]; simpl in *. split; [|set_solver].
  constructor; [exists t; split; [done|left]|]. eapply Forall_impl; [done|].
  intros v' (t' & ? & ?). exists t'. split; [done|by right].
Qed.

Lemma drain_up_to_spec threshold q :
  Forall (λ v, ∃ t, t ≤ threshold ∧ (t, v) ∈ wq_inner q) (drain_up_to threshold q).1
  ∧ wq_inner (drain_up_to threshold q).2 ⊆ wq_inner q.
Proof.
  unfold drain_up_to. pose proof (pop_while_spec threshold (wq_inner q)).
  by destruct (pop_while threshold (wq_inner q)).
Qed.

(** ** The invariant of the worker *)

Definition waits_for (m : Store) (t : Z) (rpc : Rpc) : Prop :=
  rcv rpc m ∧ store_wf m ∧ is_repair m = false ∧ t = store_last m + 1.

(** Only the queue for both tails has stores. *)
Record pending_ok (p : PendingWaiters) : Prop := {
  po_stores : ∀ t rpc, (t, WaitStore rpc) ∈ wq_inner (pw_local_or_global_tail_waiters p) →
    ∃ m, waits_for m t rpc;
  po_local : ∀ t rpc, (t, WaitStore rpc) ∉ wq_inner (pw_local_tail_waiters p);
  po_global : ∀ t rpc, (t, WaitStore rpc) ∉ wq_inner (pw_global_tail_waiters p) }.

(** A worker that ends because it is quiescent has seen the seal. *)
Context (quiescent : bool).

Record WorkerInv n w : Prop := {
  wi_staging : n_writer_up n = true → ∀ o, 1 ≤ o < w_staging_local_tail w → safe (vdisk n) o;
  wi_global : w_global_tail w ≤ told;
  wi_seal : n_writer_up n = true → d_seal (vdisk n) = true →
    mem_sealed n = true ∨ w_seal_enqueued w = true;
  wi_registered : n_writer_up n = true → w_writer_active w = true →
    registered_after (n_channel n) (n_registered n) = true;
  wi_pending : pending_ok (w_pending w);
  wi_quiescent : quiescent = true → mem_sealed n = true }.

Definition Inv (s : Node * Worker) : Prop := NodeInv s.1 ∧ WorkerInv s.1 s.2.

Lemma vdisk_ok n : NodeInv n → disk_ok (vdisk n) ∧ grows (n_disk n) (vdisk n).
Proof. intros Hn. eapply after_ok; [apply (ni_disk n Hn)|apply (ni_chan n Hn)]. Qed.

Lemma mem_tail_vdisk n : NodeInv n → mem_tail n ≤ disk_tail (vdisk n).
Proof. intros Hn. destruct (vdisk_ok n Hn) as [_ [_ Ht _]]. destruct (ni_le n Hn). lia. Qed.

(** *** Changes of the node that the invariants allow *)

Lemma Inv_state f n w :
  (∀ st, ls_local_tail (f st) = ls_local_tail st) →
  ls_known_global_tail (f (n_state n)) ≤ told → ls_trim_point (f (n_state n)) < told →
  Inv (n, w) → Inv (upd_state f n, w).
Proof.
  intros Hf Hg Htr [Hn [W1 W2 W3 W4 W5 W6]]. pose proof Hn as [H1 H2 H3 H4 H5 H6 H7 H8 H9 H10 H11].
  assert (mem_tail (upd_state f n) = mem_tail n) as Ht by (unfold mem_tail; simpl; by rewrite Hf).
  assert (mem_sealed (upd_state f n) = mem_sealed n) as Hs by (unfold mem_sealed; simpl; by rewrite Hf).
  split; split; simpl; rewrite ?Ht, ?Hs; try done.
  intros rpc h Hin Hok. apply (stored_mono n (upd_state f n) Hn ltac:(done) ltac:(lia) eq_refl rpc h Hin Hok).
Qed.

Lemma Inv_reply_all rs n w : Inv (n, w) → Forall (reply_ok n) rs → Inv (reply_all rs n, w).
Proof. intros [Hn [W1 W2 W3 W4 W5 W6]] Hrs. split; [by apply reply_all_inv|by split]. Qed.

Lemma Inv_reply r n w : Inv (n, w) → reply_ok n r → Inv (reply r n, w).
Proof. intros H' Hr. apply (Inv_reply_all [r]); [done|by apply Forall_singleton]. Qed.

Lemma Inv_drop ts n w : Inv (n, w) → Inv (drop_tasks ts n, w).
Proof.
  intros HI. apply Inv_reply_all; [done|]. apply Forall_forall.
  intros r (t & _ & Ht)%list_elem_of_omap. by apply (reply_ok_dropped n t); [apply HI|].
Qed.

Lemma send_node_inv c n :
  NodeInv n → (n_writer_up n = true → cmd_ok (vdisk n) c) →
  (n_writer_up n = true → is_write c = true → registered_after (n_channel n) (n_registered n) = true) →
  NodeInv (send_command c n).1.
Proof.
  intros Hn Hc Hr. unfold send_command. destruct (n_writer_up n) eqn:Hup; simpl.
  - pose proof Hn as [H1 H2 H3 H4 H5 H6 H7 H8 H9 H10 H11]. split; try done; simpl.
    + rewrite chan_ok_app. split; [done|]. simpl. by split_and!; [apply Hr|apply Hc|].
    + intros Hst. by rewrite (H3 Hst) in Hup.
    + intros rpc h Hin Hok. by apply (stored_mono n _ Hn) with (rpc := rpc) (h := h).
  - apply reply_all_inv; [done|]. apply Forall_forall. intros r Hin.
    destruct c as [t ? ?| |]; [|by apply elem_of_nil in Hin..].
    destruct (task_drop t) as [r'|] eqn:Ht; [|by apply elem_of_nil in Hin].
    apply list_elem_of_singleton in Hin as ->. by apply (reply_ok_dropped n t).
Qed.

Lemma send_up c n : (send_command c n).2 = n_writer_up n.
Proof. unfold send_command. by destruct (n_writer_up n). Qed.
Lemma send_up' c n : n_writer_up (send_command c n).1 = n_writer_up n.
Proof. unfold send_command. by destruct (n_writer_up n) eqn:E. Qed.
Lemma send_state c n : n_state (send_command c n).1 = n_state n.
Proof. unfold send_command. by destruct (n_writer_up n). Qed.
Lemma send_vdisk c n : n_writer_up n = true → vdisk (send_command c n).1 = apply_write c (vdisk n).
Proof. intros Hup. unfold vdisk, send_command. rewrite Hup. simpl. by rewrite after_app. Qed.

(** The worker sends a command that it may send. *)
Lemma Inv_send c n w :
  Inv (n, w) → (n_writer_up n = true → cmd_ok (vdisk n) c) → w_writer_active w = true →
  (n_writer_up n = true → cmd_seals c = true → w_seal_enqueued w = true) →
  c ≠ CmdUnregister → Inv ((send_command c n).1, w).
Proof.
  intros [Hn HW] Hc Ha Hs Hu. pose proof HW as [W1 W2 W3 W4 W5 W6]. simpl in *.
  split; simpl; [by apply send_node_inv; [..|intros; apply W4]|].
  unfold mem_tail, mem_sealed in *.
  split; unfold mem_tail, mem_sealed; rewrite ?send_state, ?send_up'; try done.
  - intros Hup o Ho. rewrite send_vdisk by done.
    destruct (apply_ok (vdisk n) c) as (_ & G & _); [by apply vdisk_ok|auto|]. by apply (gr_safe _ _ _ G), W1.
  - intros Hup. rewrite send_vdisk by done.
    destruct (apply_ok (vdisk n) c) as (_ & _ & _ & ->); [by apply vdisk_ok|auto|].
    intros [?|?]%orb_true_iff; [by apply W3|right; by apply Hs].
  - intros Hup _. unfold send_command. rewrite Hup. simpl. unfold registered_after.
    rewrite foldl_app. simpl. fold (registered_after (n_channel n) (n_registered n)).
    destruct c; simpl; [by apply W4|done|done].
Qed.

(** *** Requests *)

(** Offsets below the global tail that the worker knows, and below its staged tail. *)
Lemma known_safe n o :
  NodeInv n → 1 ≤ o < Z.max told (mem_tail n) → safe (vdisk n) o.
Proof.
  intros Hn Ho. destruct (decide (o < told)); [by right; right|].
  apply (do_prefix _ (proj1 (vdisk_ok n Hn))). pose proof (mem_tail_vdisk n Hn). lia.
Qed.

Lemma update_global_tail_spec g n w :
  g ≤ told → Inv (n, w) →
  ∃ n' w', update_global_tail g (n, w) = ((n', w'), w_global_tail w') ∧ Inv (n', w')
    ∧ ls_local_tail (n_state n') = ls_local_tail (n_state n).
Proof.
  intros Hg HI. unfold update_global_tail. destruct (Z.ltb_spec (w_global_tail w) g).
  - exists (upd_state (notify_known_global_tail g) n), (set_global g w). split_and!; [done| |done].
    destruct (Inv_state (notify_known_global_tail g) n w) as [A [W1 W2 W3 W4 W5 W6]]; [done|..].
    + simpl. destruct HI as [Hn _]. pose proof (ni_global n Hn). simpl in *. case_match; lia.
    + simpl. apply (ni_global n (proj1 HI)).
    + done.
    + split; [done|]. split; try done.
  - by exists n, w.
Qed.

Ltac take_global_tail HI n w :=
  let Hl := fresh "Hlocal" in
  lazymatch type of HI with
  | Inv ?s =>
      lazymatch goal with
      | |- context [update_global_tail ?g _] =>
          destruct (update_global_tail_spec g _ _ ltac:(eassumption) HI) as (n & w & -> & ? & Hl);
          clear HI; rename select (Inv _) into HI
      end
  end.

Lemma Inv_pending p n w : Inv (n, w) → pending_ok p → Inv (n, set_pending p w).
Proof. intros [Hn [W1 W2 W3 W4 W5 W6]] Hp. by split. Qed.

Lemma wait_local_or_global_inv t v n w :
  Inv (n, w) → (∀ rpc, v = WaitStore rpc → ∃ m, waits_for m t rpc) → Inv (n, wait_local_or_global t v w).
Proof.
  intros HI Hv. apply Inv_pending; [done|]. destruct HI as [_ [_ _ _ _ [P1 P2 P3] _]].
  split; try done. simpl. intros t' rpc [[= -> <-]|?]%wq_push_elem; eauto.
Qed.

Lemma enqueue_store_inv rpc sq m n w :
  Inv (n, w) → rcv rpc m → store_wf m → carries content m →
  (mem_sealed n = false → w_seal_enqueued w = true → False) →
  (is_repair m = false → mem_sealed n = false) →
  sto_first_offset m ≤ Z.max (w_staging_local_tail w) (w_global_tail w) →
  let '(n', sent) := enqueue_store (sto_first_offset m) (store_last m) (sto_payloads m)
                       (TaskStore rpc sq) w n in
  Inv (n', if sent then set_staging (Z.max (w_staging_local_tail w) (offset_next (store_last m))) w
           else set_accepting_writes false w).
Proof.
  intros HI Hr Hw Hc Hs1 Hs2 Hf. unfold enqueue_store. destruct (w_writer_active w) eqn:Ha.
  - set (c := CmdWrite _ _ _).
    assert (n_writer_up n = true → ∀ o, 1 ≤ o < sto_first_offset m → safe (vdisk n) o) as Hpre.
    { intros Hup o Ho. destruct HI as [Hn [W1 W2 _ _ _ _]]; simpl in *.
      destruct (decide (o < w_staging_local_tail w)); [apply W1; [done|lia]|]. apply known_safe; [done|lia]. }
    assert (n_writer_up n = true → cmd_ok (vdisk n) c) as Hok.
    { intros Hup. replace c with (CmdWrite (TaskStore rpc sq)
        (Some (StoreBatch (sto_payloads m) (sto_first_offset m) (store_last m))) (SetSequencer <$> sq))
        by by destruct sq.
      constructor; try done; [|auto]. intros Hd. destruct HI as [_ [_ _ W3 _ _ _]]. simpl in *.
      destruct (is_repair m) eqn:Hrep; [done|]. specialize (Hs2 eq_refl).
      destruct (W3 Hup Hd) as [H'|H']; [by rewrite Hs2 in H'|by destruct (Hs1 Hs2 H')]. }
    destruct (send_command c n) as [n' sent] eqn:E.
    pose proof (send_up c n) as Hsent. rewrite E in Hsent. simpl in Hsent.
    assert (Inv (n', w)) as HI'.
    { replace n' with (send_command c n).1 by by rewrite E. apply Inv_send; try done.
      intros _. by destruct sq. }
    destruct HI' as [Hn' [W1 W2 W3 W4 W5 W6]]. destruct sent; [|by split].
    split; [done|]. split; try done. simpl in *. intros Hup o Ho.
    destruct Hw as (? & ? & Hlast). rewrite offset_next_lt in Ho by done.
    destruct (decide (o < w_staging_local_tail w)); [apply W1; [done|lia]|].
    replace n' with (send_command c n).1 by by rewrite E. rewrite send_vdisk by done.
    destruct HI as [Hn _]. destruct (vdisk_ok n Hn) as [Hd _].
    destruct (apply_store (vdisk n) rpc sq m Hd) as (_ & G & _ & _ & Hin);
      [split; done|done|auto|].
    replace (CmdWrite _ _ (SetSequencer <$> sq)) with c in * by by destruct sq.
    destruct (decide (o < sto_first_offset m)); [apply (gr_safe _ _ _ G), Hpre; [done|lia]|left; apply Hin; lia].
  - apply (Inv_drop [TaskStore rpc sq]) in HI. destruct HI as [Hn [W1 W2 W3 W4 W5 W6]]. by split.
Qed.

Lemma process_store_inv peer now rpc m s :
  sto_known_global_tail m ≤ told → rcv rpc m → carries content m → Inv s →
  Inv (process_store peer now rpc m s).
Proof.
  intros Hg Hr Hc HI. destruct s as [n0 w0]. unfold process_store. simpl fst.
  take_global_tail HI n w. rewrite <- Hlocal. clear Hlocal.
  assert (∀ status, status ≠ StOk → Inv (reply (Stored rpc (with_status status
    (header_new (ls_local_tail (n_state n)) (w_global_tail w)))) n, w)) as Hcomplete.
  { intros status Hs. apply Inv_reply; [done|].
    eapply reply_ok_current; [apply (wi_global n w (proj2 HI))|done|]. by apply bool_decide_false. }
  destruct (last_offset m) as [last|] eqn:Hlast; [|by apply Hcomplete].
  destruct (_ || (sto_first_offset m =? _)) eqn:Hmal; [by apply Hcomplete|].
  apply orb_false_iff in Hmal as [Hne Hf0]. apply Z.eqb_neq in Hf0.
  assert (store_wf m) as Hw.
  { destruct Hc as (? & ? & _). unfold LogletOffset_INVALID in Hf0.
    split_and!; [lia| |done]. by destruct (sto_payloads m). }
  rewrite (last_offset_spec content) in Hlast by (done || apply Hw). simplify_eq.
  destruct (negb (is_repair m) && _) eqn:Hsealed; [by apply Hcomplete|].
  destruct (negb (w_accepting_writes w)); [by apply Hcomplete|].
  match goal with |- Inv (if ?b then _ else _) => destruct b; [by apply Hcomplete|] end.
  destruct (_ && negb (is_repair m)) eqn:Hpeer; [by apply Hcomplete|].
  destruct (Z.ltb_spec (Z.max (w_staging_local_tail w) (w_global_tail w)) (sto_first_offset m));
    [by apply Hcomplete|].
  destruct (expired now m); [by apply Hcomplete|].
  assert (is_repair m = false → mem_sealed n = false) as Hopen.
  { intros E. by rewrite E in Hsealed. }
  assert (is_repair m = false → ∃ m', waits_for m' (offset_next (store_last m)) rpc) as Hwait.
  { intros Hrep. exists m. split_and!; try done. apply offset_next_lt, Hw. }
  destruct (negb (is_repair m) && (store_last m <? tail_offset _)) eqn:Hdup.
  { apply andb_true_iff in Hdup as [Hrep%negb_true_iff Hdup%Z.ltb_lt].
    apply Inv_reply; [done|]. apply (reply_ok_stored n rpc m); try done; [apply HI|unfold mem_tail; lia|auto|apply (wi_global n w (proj2 HI))]. }
  destruct (negb (is_repair m) && (store_last m <? w_staging_local_tail w)) eqn:Hlatch.
  { apply andb_true_iff in Hlatch as [Hrep%negb_true_iff _].
    apply wait_local_or_global_inv; [done|]. intros ? [= <-]. auto. }
  destruct (w_seal_enqueued w && _) eqn:Hsealing.
  { destruct (is_repair m) eqn:Hrep; [by apply Hcomplete|].
    apply wait_local_or_global_inv; [done|]. intros ? [= <-]. auto. }
  assert (mem_sealed n = false → w_seal_enqueued w = true → False) as Henq.
  { unfold mem_sealed. intros E1 E2. by rewrite E1, E2 in Hsealing. }
  destruct (w_known_sequencer w) as [k|].
  - pose proof (enqueue_store_inv rpc None m n w HI Hr Hw Hc Henq Hopen ltac:(lia)) as H'.
    by destruct (enqueue_store _ _ _ _ _ _) as [n' []].
  - set (n1 := upd_state _ n). set (w1 := set_known_sequencer _ w).
    assert (Inv (n1, w1)) as HI1.
    { destruct (Inv_state (set_sequencer (sto_sequencer m)) n w) as [? [W1 W2 W3 W4 W5 W6]];
        [done|apply (ni_global n (proj1 HI))..|done|]. by split. }
    pose proof (enqueue_store_inv rpc (Some (sto_sequencer m)) m n1 w1 HI1 Hr Hw Hc Henq Hopen
      ltac:(simpl; lia)) as H'.
    by destruct (enqueue_store _ _ _ _ _ _) as [n' []].
Qed.

Lemma waiter_tail_ok n w g s rpc :
  g ≤ told → Inv (n, w) → Inv (reply (waiter_complete (ls_local_tail (n_state n)) g s (WaitTail rpc)) n, w).
Proof. intros Hg HI. apply Inv_reply; [done|]. by eapply reply_ok_current. Qed.

Lemma process_wait_for_tail_inv rpc g q s :
  g ≤ told → Inv s → Inv (process_wait_for_tail rpc g q s).
Proof.
  intros Hg HI. destruct s as [n0 w0]. unfold process_wait_for_tail.
  take_global_tail HI n w. clear Hlocal.
  pose proof HI as [_ [_ _ _ _ [P1 P2 P3] _]]. simpl in *.
  destruct q as [|t|t|t]; [|destruct (_ || _)..]; try (by apply (waiter_tail_ok n w); [apply (wi_global n w (proj2 HI))|]).
  - apply Inv_pending; [done|]. split; try done. simpl. intros t' rpc' [?|?]%wq_push_elem; [done|].
    by eapply P2.
  - apply Inv_pending; [done|]. split; try done. simpl. intros t' rpc' [?|?]%wq_push_elem; [done|].
    by eapply P3.
  - by apply wait_local_or_global_inv.
Qed.

Lemma mem_tail_bound n : NodeInv n → 1 ≤ mem_tail n ≤ u32_max.
Proof.
  intros Hn. destruct (ni_le n Hn) as [? _].
  pose proof (disk_tail_bound _ (do_wf _ (ni_disk n Hn))). lia.
Qed.

Lemma told_pos n : NodeInv n → 0 < told.
Proof.
  intros Hn. pose proof (do_trim _ (ni_disk n Hn)). pose proof (dw_trim _ (do_wf _ (ni_disk n Hn))). lia.
Qed.

Lemma process_trim_inv rpc g t s : g ≤ told → t < told → Inv s → Inv (process_trim rpc g t s).
Proof.
  intros Hg Htt HI. destruct s as [n0 w0]. unfold process_trim.
  take_global_tail HI n w. clear Hlocal.
  assert (∀ status, Inv (reply (Trimmed rpc (with_status status
    (header_new (ls_local_tail (n_state n)) (w_global_tail w)))) n, w)) as Hcomplete.
  { intros status. apply Inv_reply; [done|]. by eapply reply_ok_current; [apply (wi_global n w (proj2 HI))|..]. }
  destruct (_ || _) eqn:Hmal; [apply Hcomplete|]. destruct (_ <=? ls_trim_point _); [apply Hcomplete|].
  apply orb_false_iff in Hmal as [Ht%Z.ltb_ge _]. unfold LogletOffset_OLDEST in Ht.
  set (clipped := Z.min t _). assert (1 ≤ clipped < u32_max) as Hcl.
  { pose proof (mem_tail_bound n (proj1 HI)) as Hb. unfold mem_tail in Hb. simpl in Hb.
    unfold clipped, offset_prev, LogletOffset_OLDEST, saturating_sub. lia. }
  assert (clipped < told) as Hclt by (unfold clipped; lia).
  apply (Inv_state (update_trim_point clipped)) in HI;
    [|done|apply (ni_global n (proj1 HI))|simpl; pose proof (ni_global n (proj1 HI)); simpl in *; case_match; lia].
  destruct (w_writer_active w) eqn:Ha; [|by apply Inv_drop].
  apply Inv_send; try done. intros _. by constructor.
Qed.

Lemma Inv_seal_enqueued n w :
  (n_writer_up n = true → d_seal (vdisk n) = true → mem_sealed n = true) →
  Inv (n, w) → Inv (n, set_seal_enqueued false w).
Proof. intros Hs [Hn [W1 W2 W3 W4 W5 W6]]. split; [done|]. split; try done. left. by apply Hs. Qed.

Lemma process_seal_inv rpc g s : g ≤ told → Inv s → Inv (process_seal rpc g s).
Proof.
  intros Hg HI. destruct s as [n0 w0]. unfold process_seal.
  take_global_tail HI n w. clear Hlocal.
  destruct (tail_is_sealed _) eqn:Hs.
  { apply Inv_seal_enqueued; [done|]. apply Inv_reply; [done|].
    by apply reply_ok_sealed; [|apply (wi_global n w (proj2 HI))]. }
  destruct (w_seal_enqueued w) eqn:He.
  { apply Inv_pending; [done|]. destruct HI as [_ [_ _ _ _ [P1 P2 P3] _]]. by split. }
  assert (n_writer_up n = true → d_seal (vdisk n) = true → mem_sealed n = true) as Hv.
  { intros Hup Hd. destruct HI as [_ [_ _ W3 _ _ _]]. simpl in W3. rewrite He in W3. by destruct (W3 Hup Hd). }
  destruct (w_writer_active w) eqn:Ha.
  - destruct (send_command _ n) as [n' sent] eqn:E.
    pose proof (send_up (CmdWrite (TaskSeal rpc) None (Some MetaSeal)) n) as Hup. rewrite E in Hup.
    replace n' with (send_command (CmdWrite (TaskSeal rpc) None (Some MetaSeal)) n).1 by by rewrite E.
    simpl in Hup. subst sent. apply Inv_send; try done; [|by constructor].
    destruct HI as [Hn [W1 W2 W3 W4 W5 W6]]. split; [done|]. split; try done. simpl. by right.
  - apply Inv_seal_enqueued; [done|]. apply Inv_reply; [done|]. 
    apply (reply_ok_nack n (Sealed _ _)); simpl; try done; unfold LogletOffset_INVALID;
      pose proof (mem_tail_bound n (proj1 HI)); pose proof (told_pos n (proj1 HI)); simpl in *; lia.
Qed.

Lemma persist_global_tail_inv s : Inv s → Inv (persist_global_tail s).
Proof.
  intros HI. destruct s as [n w]. unfold persist_global_tail. destruct (_ && _); [|done].
  assert (∀ t n, Inv (n, w) → Inv (n, set_last_synced t w)) as Hset.
  { intros t n' [Hn [W1 W2 W3 W4 W5 W6]]. by split. }
  apply Hset. destruct (w_writer_active w) eqn:Ha; [|done]. apply Inv_send; try done.
  intros _. constructor. apply (wi_global n w (proj2 HI)).
Qed.

(** *** Changes of the tails *)

Lemma wait_elem_snd (l : list (Z * Waiter)) v : v ∈ l.*2 → ∃ t, (t, v) ∈ l.
Proof. intros ([t v'] & -> & ?)%list_elem_of_fmap. by exists t. Qed.

(** A drained waiter that is told something other than [Ok]. *)
Lemma waiter_nack n v g s : s ≠ StOk → g ≤ told → reply_ok n (waiter_complete (ls_local_tail (n_state n)) g s v).
Proof.
  intros Hs Hg. destruct v; eapply reply_ok_current; try done. by apply bool_decide_false.
Qed.

Lemma waiter_ack n v g t :
  NodeInv n → mem_sealed n = false → t ≤ Z.max told (mem_tail n) → g ≤ told →
  (∀ rpc, v = WaitStore rpc → ∃ m, waits_for m t rpc) →
  reply_ok n (waiter_complete (ls_local_tail (n_state n)) g StOk v).
Proof.
  intros Hn Hs Ht Hg Hw. destruct v as [rpc|rpc]; [|by eapply reply_ok_current].
  destruct (Hw rpc eq_refl) as (m & Hr & Hwf & _ & ->). apply (reply_ok_stored n rpc m); try done. lia.
Qed.

Lemma seal_replies_ok n g s rpcs :
  (s = StOk → mem_sealed n = true) → g ≤ told → Forall (reply_ok n) (seal_replies (ls_local_tail (n_state n)) g s rpcs).
Proof.
  intros Hs Hg. apply Forall_fmap, Forall_forall. intros rpc _. simpl.
  destruct (decide (s = StOk)) as [->|Hne]; [by apply reply_ok_sealed; auto|].
  eapply reply_ok_current; [done..|]. by apply bool_decide_false.
Qed.

Lemma drained_acks n q g threshold :
  NodeInv n → mem_sealed n = false → threshold ≤ Z.max told (mem_tail n) → g ≤ told →
  (∀ t rpc, (t, WaitStore rpc) ∈ wq_inner q → ∃ m, waits_for m t rpc) →
  Forall (reply_ok n) (waiter_complete (ls_local_tail (n_state n)) g StOk <$> (drain_up_to threshold q).1).
Proof.
  intros Hn Hs Ht Hg Hq. destruct (drain_up_to_spec threshold q) as [Hd _].
  apply Forall_fmap. eapply Forall_impl; [done|]. intros v (t & Hle & Hin). simpl.
  apply (waiter_ack n v g t); [done|done|lia|done|]. intros rpc ->. eauto.
Qed.

Lemma pending_local_ok n p g :
  NodeInv n → pending_ok p → g ≤ told →
  pending_ok (pending_on_local_tail_change (ls_local_tail (n_state n)) g p).1
  ∧ Forall (reply_ok n) (pending_on_local_tail_change (ls_local_tail (n_state n)) g p).2.
Proof.
  intros Hn [P1 P2 P3] Hg. unfold pending_on_local_tail_change.
  destruct (tail_is_sealed _) eqn:Hs; cbn [fst snd drain_all].
  - split; [by split; simpl; set_solver|]. apply Forall_app. split; [by apply seal_replies_ok|].
    apply Forall_fmap, Forall_forall. intros v _. by apply waiter_nack.
  - pose proof (drained_acks n (pw_local_tail_waiters p) g (mem_tail n) Hn Hs ltac:(lia) Hg) as A.
    pose proof (drained_acks n (pw_local_or_global_tail_waiters p) g (mem_tail n) Hn Hs ltac:(lia) Hg) as B.
    pose proof (drain_up_to_spec (mem_tail n) (pw_local_tail_waiters p)) as [_ A'].
    pose proof (drain_up_to_spec (mem_tail n) (pw_local_or_global_tail_waiters p)) as [_ B'].
    unfold mem_tail in *.
    destruct (drain_up_to _ (pw_local_tail_waiters p)) as [l q1].
    destruct (drain_up_to _ (pw_local_or_global_tail_waiters p)) as [lg q2]. cbn [fst snd] in *.
    split; [split; simpl; [eauto|intros t rpc H'%A'; by eapply P2|done]|].
    rewrite fmap_app. apply Forall_app. split; [apply A|by apply B]. intros ? ? ?%P2. done.
Qed.

Lemma pending_global_ok n p g :
  NodeInv n → pending_ok p → g ≤ told →
  pending_ok (pending_on_global_tail_change (ls_local_tail (n_state n)) g p).1
  ∧ Forall (reply_ok n) (pending_on_global_tail_change (ls_local_tail (n_state n)) g p).2.
Proof.
  intros Hn [P1 P2 P3] Hg. unfold pending_on_global_tail_change.
  pose proof (drain_up_to_spec g (pw_global_tail_waiters p)) as [_ A'].
  pose proof (drain_up_to_spec g (pw_local_or_global_tail_waiters p)) as [_ B'].
  assert (mem_sealed n = false →
    Forall (reply_ok n) (waiter_complete (ls_local_tail (n_state n)) g StOk <$> (drain_up_to g (pw_global_tail_waiters p)).1)
    ∧ Forall (reply_ok n) (waiter_complete (ls_local_tail (n_state n)) g StOk <$> (drain_up_to g (pw_local_or_global_tail_waiters p)).1)) as Hok.
  { intros Hs. split; apply drained_acks; try done; [lia| |lia]. intros ? ? ?%P3. done. }
  destruct (drain_up_to g (pw_global_tail_waiters p)) as [l q1].
  destruct (drain_up_to g (pw_local_or_global_tail_waiters p)) as [lg q2]. cbn [fst snd] in *.
  split; [split; simpl; [eauto|done|intros t rpc H'%A'; by eapply P3]|].
  rewrite fmap_app. unfold mem_sealed in Hok. destruct (tail_is_sealed _).
  - apply Forall_app; split; apply Forall_fmap, Forall_forall; intros v _; by apply waiter_nack.
  - apply Forall_app. by apply Hok.
Qed.

Lemma on_local_tail_change_inv s : Inv s → Inv (on_local_tail_change s).
Proof.
  intros HI. destruct s as [n w]. unfold on_local_tail_change.
  set (w' := if _ && _ then _ else _).
  assert (Inv (n, w') ∧ w_pending w' = w_pending w) as [HI' Hp].
  { unfold w'. destruct (_ && _) eqn:E; [|done]. apply andb_true_iff in E as [E _]. split; [|done].
    destruct HI as [Hn [W1 W2 W3 W4 W5 W6]]. split; [done|]. split; try done; simpl; [|by left].
    intros _ o Ho. apply known_safe; [done|]. unfold mem_tail. simpl. lia. }
  destruct (pending_local_ok n (w_pending w') (w_global_tail w')) as [A B];
    [apply HI'|rewrite Hp; apply (wi_pending _ _ (proj2 HI))|apply (wi_global _ _ (proj2 HI'))|].
  destruct (pending_on_local_tail_change _ _ _) as [p rs]. simpl in *.
  apply Inv_reply_all; [|done]. by apply Inv_pending.
Qed.

Lemma on_global_tail_change_inv s : Inv s → Inv (on_global_tail_change s).
Proof.
  intros HI. destruct s as [n w]. unfold on_global_tail_change.
  destruct (pending_global_ok n (w_pending w) (ls_known_global_tail (n_state n))) as [A B];
    [apply HI|apply (wi_pending _ _ (proj2 HI))|apply (ni_global n (proj1 HI))|].
  destruct (pending_on_global_tail_change _ _ _) as [p rs]. simpl in *.
  apply Inv_reply_all; [|done]. by apply Inv_pending.
Qed.

Lemma on_writes_disabled_inv s :
  n_writer_up s.1 = false → Inv s → Inv (on_writes_disabled s).
Proof.
  intros Hdown HI. destruct s as [n w]. simpl in Hdown. pose proof HI as [Hn HW]. simpl in *.
  destruct (pending_global_ok n (w_pending w) (w_global_tail w) Hn (wi_pending _ _ HW) (wi_global _ _ HW))
    as [A1 B1].
  destruct (pending_on_global_tail_change _ _ _) as [p1 rs1]. simpl in A1, B1.
  destruct (pending_local_ok n p1 (w_global_tail w) Hn A1 (wi_global _ _ HW)) as [A2 B2].
  destruct (pending_on_local_tail_change _ _ p1) as [p2 rs2]. simpl in A2, B2. simpl.
  apply Inv_reply_all.
  - destruct HW as [W1 W2 W3 W4 W5 W6], A2 as [P1 P2 P3]. split; [done|].
    split; simpl; try done; try by rewrite Hdown. by split; simpl; [|set_solver|].
  - pose proof (wi_global _ _ HW).
    rewrite !Forall_app. split_and!; [done|done|by apply seal_replies_ok|].
    apply Forall_fmap, Forall_forall. intros v _. by apply waiter_nack.
Qed.

(** *** Requests that only read *)

Lemma sorted_records_elem m o r : (o, r) ∈ sorted_records m ↔ m !! o = Some r.
Proof. unfold sorted_records. by rewrite merge_sort_Permutation, elem_of_map_to_list. Qed.

Lemma seek_elem from m o r : (o, r) ∈ seek from m → m !! o = Some r.
Proof. by intros [_ ?%sorted_records_elem]%list_elem_of_filter. Qed.

(** The entries of a read: records with [D], and trim gaps up to an offset with [T]. *)
Definition read_data (D : Z → LogRecord → Prop) (T : Z → Prop) (e : Z * MaybeRecord) : Prop :=
  match e.2 with
  | MrData r => D e.1 r
  | MrTrimGap t => T t
  | MrFilteredGap _ => True
  end.

Lemma read_loop_data D T later filt from to_ it : ∀ pointer budget first records,
  (∀ o r, (o, r) ∈ it → D o r ∧ (o ≤ later o → T (later o))) → Forall (read_data D T) records →
  Forall (read_data D T) (read_loop later filt from to_ it pointer budget first records).2.
Proof.
  induction it as [|[offset r] it IH]; intros pointer budget first records Hit Hr; simpl; [done|].
  assert (∀ o r, (o, r) ∈ it → D o r ∧ (o ≤ later o → T (later o))) as Hit' by (intros ? ? ?; apply Hit; by right).
  destruct (Hit offset r (list_elem_of_here _ _)) as [Hd Ht].
  destruct (offset <? pointer); [by apply IH|]. destruct (to_ <? pointer); [done|].
  destruct (to_ <? offset); [done|]. destruct ((pointer <? offset) && _) eqn:E.
  { apply andb_true_iff in E as [_ E%Z.leb_le]. apply IH; [done..|]. apply Forall_singleton. by apply Ht. }
  destruct (negb _); [apply IH; [done..|]; apply Forall_app; split; [done|by repeat constructor]|].
  destruct (first && _); [done|]. apply IH; [done..|].
  apply Forall_app. split; [done|]. by apply Forall_singleton.
Qed.

Lemma process_get_records_inv rpc g msg s : g ≤ told → Inv s → Inv (process_get_records rpc g msg s).
Proof.
  intros Hg HI. destruct s as [n0 w0]. unfold process_get_records. take_global_tail HI n w.
  pose proof (mem_tail_bound n (proj1 HI)). pose proof (told_pos n (proj1 HI)) as Hp.
  destruct (ni_global n (proj1 HI)) as [Hgl Htr].
  pose proof (do_content _ (ni_disk n (proj1 HI))) as Hcont. simpl in *. destruct (_ <? _).
  { apply Inv_reply; [done|]. apply (reply_ok_nack n (Records _ _ _ _)); simpl; try done;
      unfold LogletOffset_INVALID; lia. }
  assert (Forall (read_data (λ o r, r = content o) (λ t, 0 ≤ t < told))
    (read_records (λ _, ls_trim_point (n_state n)) msg (n_state n) (d_records (n_disk n))).2) as Hd.
  { apply read_loop_data.
    - intros o r Ho%seek_elem. split; [by apply Hcont|].
      destruct (dw_offsets _ (do_wf _ (ni_disk n (proj1 HI))) o); [by exists r|]. simpl. lia.
    - unfold read_from_offset. case_match eqn:E; [|by constructor]. apply Z.ltb_lt in E.
      apply Forall_singleton. red. simpl.
      unfold offset_prev_unchecked, saturating_sub, offset_next, saturating_add in *. lia. }
  destruct (read_records _ _ _ _) as [next rs]. simpl in Hd. rewrite Forall_forall in Hd.
  apply Inv_reply; [done|]. split; [current_header|]. split; [|done].
  split; [intros o r Hin|intros o t Hin]; apply (Hd _ Hin).
Qed.

(** A digest reports only records that are there.  The open entry covers the
    offsets before the pointer. *)
Lemma digest_loop_data (P : Z → Prop) to_ it : ∀ pointer open entries es,
  digest_loop to_ it pointer open entries = Some es →
  (∀ o r, (o, r) ∈ it → P o ∧ o < u32_max) →
  (∀ e, open = Some e → de_to_offset e < pointer ∧ ∀ o, de_from_offset e ≤ o < pointer → P o) →
  (∀ e o, e ∈ entries → de_status e = RsExists → de_from_offset e ≤ o ≤ de_to_offset e → P o) →
  ∀ e o, e ∈ es → de_status e = RsExists → de_from_offset e ≤ o ≤ de_to_offset e → P o.
Proof.
  induction it as [|[offset r] it IH]; intros pointer open entries es Hd Hit Ho He; simpl in Hd;
    [simplify_eq|];
    assert (∀ e o, e ∈ entries ++ option_list open → de_status e = RsExists →
      de_from_offset e ≤ o ≤ de_to_offset e → P o) as He'
    by (intros e o [?|Hin]%elem_of_app Hs Hr; [by eapply He|]; destruct open as [e'|];
        [apply list_elem_of_singleton in Hin as ->; destruct (Ho _ eq_refl) as [? Hp]; apply Hp; lia
        |by apply elem_of_nil in Hin]); [done|].
  assert (∀ o r, (o, r) ∈ it → P o ∧ o < u32_max) as Hit' by (intros ? ? ?; eapply Hit; by right).
  destruct (Hit offset r) as [HP Hlt]; [left|].
  destruct (to_ <? pointer); [by simplify_eq|].
  destruct (Z.compare_spec offset pointer) as [->| |]; [|done|].
  - rewrite offset_next_lt in Hd by done. eapply IH; [exact Hd|done| |done].
    intros e [= <-]. destruct open as [e|]; simpl.
    + split; [lia|]. intros o Hr. destruct (decide (o = pointer)) as [->|]; [done|].
      apply (Ho _ eq_refl). lia.
    + split; [lia|]. intros o Hr. by replace o with pointer by lia.
  - destruct (to_ <? offset); [by simplify_eq|]. rewrite offset_next_lt in Hd by done.
    eapply IH; [exact Hd|done| |done]. intros e [= <-]. simpl. split; [lia|].
    intros o Hr. by replace o with offset by lia.
Qed.

Lemma process_get_digest_inv rpc g from to_ s : g ≤ told → Inv s → Inv (process_get_digest rpc g from to_ s).
Proof.
  intros Hg HI. destruct s as [n0 w0]. unfold process_get_digest. take_global_tail HI n w.
  pose proof (mem_tail_bound n (proj1 HI)). pose proof (told_pos n (proj1 HI)) as Hp.
  destruct (ni_global n (proj1 HI)) as [Hgl _].
  pose proof (dw_offsets _ (do_wf _ (ni_disk n (proj1 HI)))) as Hoff. simpl in *. destruct (_ <? _).
  { apply Inv_reply; [done|]. apply (reply_ok_nack n (Digest _ _ _)); simpl; try done;
      unfold LogletOffset_INVALID; lia. }
  destruct (get_records_digest _ _ _ _) as [es|] eqn:E; [|done].
  apply Inv_reply; [done|]. split; [current_header|]. split; [|done]. simpl. unfold get_records_digest in E.
  eapply digest_loop_data; [exact E| |done|].
  - intros o r Hin. assert (d_records (n_disk n) !! o = Some r) as Hr.
    { case_match; [by apply seek_elem in Hin|]. apply list_elem_of_filter in Hin as [_ Hin].
      by apply seek_elem in Hin. }
    split; [by left; exists r|]. apply Hoff. by exists r.
  - intros e o Hin. case_match; [|by apply elem_of_nil in Hin].
    by apply list_elem_of_singleton in Hin as ->.
Qed.

Lemma process_get_loglet_info_inv rpc g s : g ≤ told → Inv s → Inv (process_get_loglet_info rpc g s).
Proof.
  intros Hg HI. destruct s as [n0 w0]. unfold process_get_loglet_info. take_global_tail HI n w.
  pose proof (wi_global n w (proj2 HI)). destruct (ni_global n (proj1 HI)) as [_ Ht].
  apply Inv_reply; [done|]. split; [current_header|done].
Qed.

Lemma process_release_inv g s : g ≤ told → Inv s → Inv (process_release g s).
Proof.
  intros Hg HI. destruct s as [n0 w0]. unfold process_release. by take_global_tail HI n w.
Qed.

(** What a message says about the global tail: a trim point lies below it. *)
Definition msg_told (m : Message) : Z :=
  match m with
  | MsgTrim g t => Z.max g (t + 1)
  | _ => msg_known_global_tail m
  end.

Lemma process_message_inv rpc m s :
  msg_told m ≤ told →
  (∀ peer now sto, m = MsgStore peer now sto → rcv rpc sto ∧ carries content sto) →
  Inv s → Inv (process_message rpc m s).
Proof.
  intros Hg Hs HI. destruct m; unfold msg_told in Hg; simpl in *.
  - destruct (Hs _ _ _ eq_refl). by apply process_store_inv.
  - by apply process_get_records_inv.
  - by apply process_release_inv.
  - by apply process_get_digest_inv.
  - by apply process_get_loglet_info_inv.
  - by apply process_wait_for_tail_inv.
  - by apply process_seal_inv.
  - apply process_trim_inv; [lia..|done].
Qed.

(** *** The worker starts and ends *)

Lemma worker_start_inv n :
  quiescent = false → NodeInv n → (n_writer_up n = true → d_seal (vdisk n) = true → mem_sealed n = true) →
  Inv (worker_start n).
Proof.
  intros Hq Hn Hs. unfold worker_start. destruct (send_command CmdRegister n) as [n' sent] eqn:E.
  assert (n' = (send_command CmdRegister n).1) as -> by by rewrite E.
  assert (sent = n_writer_up n) as -> by (rewrite <- (send_up CmdRegister n); by rewrite E). clear E.
  assert (NodeInv (send_command CmdRegister n).1) as Hn' by (apply send_node_inv; [done|constructor|done]).
  split; [done|]. simpl. split; simpl; rewrite ?send_up'.
  - intros _ o Ho. apply known_safe; [done|]. unfold mem_tail. lia.
  - apply (ni_global _ Hn').
  - intros Hup. rewrite send_vdisk by done. simpl. unfold mem_sealed. rewrite send_state.
    intros Hd. left. by apply Hs.
  - intros Hup _. unfold send_command. rewrite Hup. simpl. unfold registered_after.
    by rewrite foldl_app.
  - by split; simpl; set_solver.
  - by rewrite Hq.
Qed.

Lemma worker_stop_inv s :
  Inv s → NodeInv (worker_stop s)
  ∧ mem_sealed (worker_stop s) = mem_sealed s.1.
Proof.
  intros HI. unfold worker_stop.
  assert (ls_local_tail (n_state (persist_global_tail (on_local_tail_change s)).1) = ls_local_tail (n_state s.1)) as Hl.
  { destruct s as [n w]. unfold on_local_tail_change. destruct (pending_on_local_tail_change _ _ _).
    unfold persist_global_tail. destruct (_ && (w_last_synced_global_tail _ <? _)); [|done].
    cbn [fst]. destruct (w_writer_active _); [by rewrite send_state|done]. }
  pose proof (persist_global_tail_inv _ (on_local_tail_change_inv _ HI)) as HI'.
  destruct (persist_global_tail _) as [n w]. simpl in Hl. destruct HI' as [Hn _]. simpl in Hn.
  set (rs := _ ≫= _).
  assert (NodeInv (reply_all rs n)) as Hn'.
  { apply reply_all_inv; [done|]. apply Forall_forall. intros r (v & Hv & _)%list_elem_of_bind.
    destruct v as [rpc|rpc]; [|by apply elem_of_nil in Hv].
    apply list_elem_of_singleton in Hv as ->. by apply (reply_ok_dropped n (TaskStore rpc None)). }
  assert (mem_sealed (reply_all rs n) = mem_sealed s.1) as Hm by (unfold mem_sealed; simpl; by rewrite Hl).
  destruct (w_writer_active w); [|done]. split.
  - apply send_node_inv; [done|constructor|done].
  - rewrite <- Hm. unfold mem_sealed. by rewrite send_state.
Qed.

(** ** The writer *)

Lemma handle_commands_snoc cs c reg b :
  handle_commands (cs ++ [c]) reg b =
    handle_command c (handle_commands cs reg b).1 (handle_commands cs reg b).2.
Proof.
  revert reg b. induction cs as [|c' cs IH]; intros reg b; simpl.
  - by destruct (handle_command c reg b).
  - by destruct (handle_command c' reg b).
Qed.

Definition is_store_of (last : Z) c : Prop :=
  ∃ t p f meta, c = CmdWrite t (Some (StoreBatch p f last)) meta.

(** What the batch says about the commands that are in it. *)
Record loglet_batch_ok d (cs : list LogStoreWriteCommand) (l : LogletBatch) : Prop := {
  lo_tasks : lb_tasks l = omap command_task cs;
  lo_seal : lb_notify_seal l = existsb cmd_seals cs;
  lo_max : ∀ x, lb_max_offset l = Some x → x < u32_max ∧ x < disk_tail (after cs d);
  lo_stores : ∀ c last, c ∈ cs → is_store_of last c → ∃ x, lb_max_offset l = Some x ∧ last ≤ x }.

Definition batch_ok d (reg0 : bool) (cs : list LogStoreWriteCommand) (r : bool * Batch) : Prop :=
  match b_loglet r.2 with
  | None => r.1 = registered_after cs reg0 ∧ b_write r.2 = [] ∧ omap command_task cs = []
  | Some l => r.1 = true ∧ lb_unregister l = negb (registered_after cs reg0)
              ∧ b_write r.2 ≠ [] ∧ loglet_batch_ok d cs l
  end.

Lemma loglet_batch_same d cs c l b :
  is_write c = false → loglet_batch_ok d cs l →
  loglet_batch_ok d (cs ++ [c]) (mkLogletBatch (lb_max_offset l) (lb_notify_seal l) (lb_tasks l) b).
Proof.
  intros Hc [A B C D]. split; simpl.
  - rewrite omap_app, A. destruct c; [done|..]; simpl; by rewrite app_nil_r.
  - rewrite existsb_app, B. destruct c; [done|..]; simpl; by rewrite !orb_false_r.
  - intros x Hx. rewrite after_app. by destruct c; [done|..]; apply C.
  - intros c' last [Hin| ->%list_elem_of_singleton]%elem_of_app Hs; [by eapply D|].
    destruct Hs as (? & ? & ? & ? & ->). done.
Qed.

Lemma loglet_batch_write d cs t data meta l b :
  disk_ok (after cs d) → cmd_ok (after cs d) (CmdWrite t data meta) →
  loglet_batch_ok d cs l →
  loglet_batch_ok d (cs ++ [CmdWrite t data meta])
    (mkLogletBatch
       match data with
       | Some (StoreBatch _ _ last) =>
           Some (match lb_max_offset l with Some m => Z.max m last | None => last end)
       | _ => lb_max_offset l
       end (lb_notify_seal l || match meta with Some MetaSeal => true | _ => false end)
       (lb_tasks l ++ [t]) b).
Proof.
  intros Hd Hc [A B C D]. destruct (apply_ok _ _ Hd Hc) as (_ & [_ Ht _] & Hct & _). split; simpl.
  - by rewrite omap_app, A.
  - rewrite existsb_app, B. simpl. by rewrite orb_false_r.
  - intros x Hx. rewrite after_app. simpl.
    destruct data as [[p f last|t']|].
    2, 3: destruct (C _ Hx) as [Hx1 Hx2]; simpl in *; split; [done|lia].
    assert (last < u32_max) as Hl.
    { inversion Hc; subst. by match goal with H' : store_wf _ |- _ => destruct H' as (_ & _ & ?) end. }
    simpl in Hct, Ht. destruct (lb_max_offset l) as [m|]; simplify_eq.
    + destruct (C m eq_refl). simpl in *. lia.
    + simpl in *. lia.
  - intros c last [Hin| ->%list_elem_of_singleton]%elem_of_app Hs.
    + destruct (D _ _ Hin Hs) as (x & Hx & Hle). destruct data as [[? ? last'|?]|]; [|by exists x..].
      rewrite Hx. eexists. split; [done|]. lia.
    + destruct Hs as (t' & p & f & meta' & [= -> -> ->]). eexists. split; [done|].
      destruct (lb_max_offset l); lia.
Qed.

Lemma loglet_batch_empty d cs :
  omap command_task cs = [] → loglet_batch_ok d cs (mkLogletBatch None false [] false).
Proof.
  intros Ht. assert (∀ c, c ∈ cs → is_write c = false) as Hw.
  { intros c Hc. destruct c as [t data meta| |]; [|done..].
    assert (t ∈ omap command_task cs) as Ht' by (apply list_elem_of_omap; by eexists).
    rewrite Ht in Ht'. by apply elem_of_nil in Ht'. }
  split; simpl; try done.
  - symmetry. apply not_true_is_false. intros (c & Hc & Hs)%existsb_exists.
    apply list_elem_of_In, Hw in Hc. by destruct c.
  - intros c last Hc (? & ? & ? & ? & ->). by apply Hw in Hc.
Qed.

Lemma handle_commands_ok d reg0 cs :
  disk_ok d → chan_ok d reg0 cs → batch_ok d reg0 cs (handle_commands cs reg0 batch_default).
Proof.
  intros Hd. induction cs as [|c cs IH] using rev_ind; intros Hch; [done|].
  apply chan_ok_app in Hch as [Hch (Hw & Hc & _)]. specialize (IH Hch).
  destruct (after_ok _ _ _ Hd Hch) as [Hd' _].
  rewrite handle_commands_snoc. destruct (handle_commands cs reg0 batch_default) as [reg b].
  assert (registered_after (cs ++ [c]) reg0 = registers c (registered_after cs reg0)) as Hreg
    by (unfold registered_after; by rewrite foldl_app).
  unfold batch_ok in *. rewrite Hreg, omap_app. cbn [fst snd] in *.
  destruct c as [t data meta| |]; cbn [handle_command registers] in *.
  - specialize (Hw eq_refl). rewrite Hw in *. cbn [fst snd b_loglet b_write negb].
    assert (option_list (update_metadata <$> meta) ++ option_list (update_data <$> data) ≠ [])
      as Hne by (clear -Hc; inversion Hc; simpl; try done; by destruct (_ <$> _)).
    destruct (b_loglet b) as [l|].
    + destruct IH as (-> & Hu & _ & Hl). split_and!; [done|done| |by apply loglet_batch_write].
      intros [_ ?]%app_eq_nil. done.
    + destruct IH as (-> & Hb & Ht). split_and!; [done|done| |].
      * intros [_ ?]%app_eq_nil. done.
      * by apply loglet_batch_write; [..|apply loglet_batch_empty].
  - destruct (b_loglet b) as [l|] eqn:E; cbn [fst snd b_loglet b_write].
    + destruct IH as (-> & Hu & Hb & Hl). split_and!; [done|done|done|by apply loglet_batch_same].
    + rewrite E. destruct IH as (-> & Hb & Ht). by rewrite Ht.
  - destruct (b_loglet b) as [l|] eqn:E; cbn [fst snd b_loglet b_write].
    + destruct IH as (-> & Hu & Hb & Hl). cbn [fst snd b_loglet b_write].
      split_and!; [done|done|done|by apply loglet_batch_same].
    + destruct IH as (-> & Hb & Ht). rewrite Ht. destruct (registered_after cs reg0) eqn:Er; cbn [fst snd];
        by rewrite E.
Qed.

Lemma after_seal cs : ∀ d reg,
  disk_ok d → chan_ok d reg cs → d_seal (after cs d) = d_seal d || existsb cmd_seals cs.
Proof.
  induction cs as [|c cs IH]; intros d reg Hd; simpl; [by rewrite orb_false_r|].
  intros (_ & Hc & Hch). destruct (apply_ok _ _ Hd Hc) as (Hd' & _ & _ & Hs).
  unfold after in *. simpl. rewrite (IH _ _ Hd' Hch), Hs. by rewrite orb_assoc.
Qed.

(** The node after a batch, before its answers. *)
Definition committed (cs rest : list LogStoreWriteCommand) (st : LogletState) n : Node :=
  mkNode (after cs (n_disk n)) st rest (registered_after cs (n_registered n))
    (n_writer_up n) (n_stopped n) (n_replies n).

Lemma committed_inv cs rest st n :
  NodeInv n → n_stopped n = false → n_channel n = cs ++ rest →
  mem_tail n ≤ tail_offset (ls_local_tail st) ≤ disk_tail (after cs (n_disk n)) →
  tail_is_sealed (ls_local_tail st) = mem_sealed n || existsb cmd_seals cs →
  ls_known_global_tail st = ls_known_global_tail (n_state n) →
  ls_trim_point st = ls_trim_point (n_state n) →
  NodeInv (committed cs rest st n).
Proof.
  intros Hn Hup Hchan Ht Hs Hg Htp. pose proof Hn as [H1 H2 H3 H4 H5 H6 H7 H8 H9 H10 H11].
  rewrite Hchan, chan_ok_app in H2. destruct H2 as [H2 H2'].
  destruct (after_ok _ _ _ H1 H2) as [Hd Hgr]. specialize (H4 Hup).
  assert (d_seal (after cs (n_disk n)) = mem_sealed n || existsb cmd_seals cs) as Hseal.
  { rewrite H4. by eapply after_seal. }
  assert (mem_tail n ≤ mem_tail (committed cs rest st n)) as Htm by (unfold mem_tail in *; simpl; lia).
  split; unfold mem_sealed; simpl; try done.
  - by rewrite Hseal, Hs.
  - split; [unfold mem_tail in *; simpl; lia|]. by rewrite Hseal, Hs.
  - by rewrite Hg, Htp.
  - apply (headers_mono n (committed cs rest st n)); try done.
    unfold mem_sealed at 2. simpl. rewrite Hs. by intros ->.
  - by apply (stored_mono n (committed cs rest st n)).
  - destruct H10. split; [lia|done].
Qed.

Lemma chan_ok_split d reg cs c :
  chan_ok d reg cs → c ∈ cs → ∃ cs1 cs2, cs = cs1 ++ c :: cs2 ∧ cmd_ok (after cs1 d) c
    ∧ chan_ok d reg cs1 ∧ chan_ok (apply_write c (after cs1 d)) (registers c (registered_after cs1 reg)) cs2.
Proof.
  intros Hch (cs1 & cs2 & ->)%list_elem_of_split. exists cs1, cs2.
  apply chan_ok_app in Hch as (H1 & _ & H2 & H3). done.
Qed.

(** The answers of a batch. *)
Lemma task_complete_ok cs rest st n t r g :
  NodeInv n → NodeInv (committed cs rest st n) → n_stopped n = false → n_channel n = cs ++ rest →
  (∀ c last, c ∈ cs → is_store_of last c → last < tail_offset (ls_local_tail st)) →
  tail_is_sealed (ls_local_tail st) = mem_sealed n || existsb cmd_seals cs → g ≤ told →
  t ∈ omap command_task cs → task_complete (ls_local_tail st) g StOk t = Some r →
  reply_ok (committed cs rest st n) r.
Proof.
  intros Hn Hn' Hup Hchan Hlast Hs Hgt Ht Hr. apply list_elem_of_omap in Ht as (c & Hc & Hct).
  pose proof (ni_chan n Hn) as Hch. rewrite Hchan, chan_ok_app in Hch. destruct Hch as [Hch _].
  destruct (chan_ok_split _ _ _ _ Hch Hc) as (cs1 & cs2 & Hcs & Hok & Hch1 & Hch2).
  destruct (after_ok _ _ _ (ni_disk n Hn) Hch1) as [Hd1 Hg1].
  destruct Hok as [rpc sq m Hrcv Hwf Hcar Hrep Hpre|rpc|rpc t' Ht' Htt'|g' Hg'| |]; simplify_eq/=.
  - destruct (apply_store _ rpc sq m Hd1 Hwf Hcar Hpre) as (Hd2 & _ & _ & _ & Hin).
    destruct (after_ok _ _ _ Hd2 Hch2) as [_ Hg2].
    assert (durable (after (cs1 ++ CmdWrite (TaskStore rpc sq)
      (Some (StoreBatch (sto_payloads m) (sto_first_offset m) (store_last m)))
      (SetSequencer <$> sq) :: cs2) (n_disk n)) m) as Hdur.
    { intros o Ho. rewrite after_app. apply (gr_safe _ _ _ Hg2). left. by apply Hin. }
    split; [current_header|]. split; [done|]. intros _. exists m. split_and!; try done. intros Hno. split.
    + unfold mem_tail. simpl. pose proof (Hlast _ (store_last m) Hc ltac:(by repeat eexists)). lia.
    + apply (unsealed_not_yet n Hn). rewrite (ni_exact n Hn Hup).
      destruct (d_seal (n_disk n)) eqn:E; [|done]. rewrite Hrep in Hno; [done|]. by apply (gr_seal _ _ Hg1).
  - apply (reply_ok_sealed (committed _ rest st n) rpc g); [|done]. unfold mem_sealed. simpl.
    rewrite Hs, existsb_app. simpl. by rewrite !orb_true_r.
  - apply (reply_ok_current (committed _ rest st n) _ g StOk); done.
Qed.

Lemma notify_batch_spec d cs l st :
  loglet_batch_ok d cs l → tail_offset (ls_local_tail st) ≤ disk_tail (after cs d) →
  tail_offset (ls_local_tail st) ≤ tail_offset (ls_local_tail (notify_batch l st)) ≤ disk_tail (after cs d)
  ∧ tail_is_sealed (ls_local_tail (notify_batch l st)) =
      tail_is_sealed (ls_local_tail st) || existsb cmd_seals cs
  ∧ ls_known_global_tail (notify_batch l st) = ls_known_global_tail st
  ∧ ls_trim_point (notify_batch l st) = ls_trim_point st
  ∧ (∀ c last, c ∈ cs → is_store_of last c → last < tail_offset (ls_local_tail (notify_batch l st))).
Proof.
  intros [_ Hs Hm Hst] Ht. unfold notify_batch. rewrite <- Hs.
  destruct (lb_max_offset l) as [x|].
  - destruct (Hm x eq_refl). simpl. autorewrite with tail. rewrite offset_next_lt by done.
    split_and!; [lia|lia|done|done|done|].
    intros c last Hc Hl. destruct (Hst _ _ Hc Hl) as (? & [= <-] & ?). lia.
  - destruct (lb_notify_seal l); simpl; autorewrite with tail.
    + split_and!; [lia|lia|by rewrite orb_true_r|done|done|].
      intros c last Hc Hl. by destruct (Hst _ _ Hc Hl) as (? & ? & ?).
    + split_and!; [lia|lia|by rewrite orb_false_r|done|done|].
      intros c last Hc Hl. by destruct (Hst _ _ Hc Hl) as (? & ? & ?).
Qed.

Lemma notify_seal_sealed st : tail_is_sealed (ls_local_tail st) = true → notify_seal st = st.
Proof. destruct st as [? [] ? ?]; done. Qed.

(** A commit: the batch is written, the tail follows, and the tasks are answered. *)
Lemma commit_spec k n :
  NodeInv n → n_stopped n = false →
  let cs := take k (n_channel n) in
  ∃ st rs, commit k n = reply_all rs (committed cs (drop k (n_channel n)) st n)
    ∧ NodeInv (committed cs (drop k (n_channel n)) st n)
    ∧ Forall (reply_ok (committed cs (drop k (n_channel n)) st n)) rs
    ∧ mem_tail n ≤ tail_offset (ls_local_tail st)
    ∧ (mem_sealed n = true → tail_is_sealed (ls_local_tail st) = true).
Proof.
  intros Hn Hup cs. assert (n_channel n = cs ++ drop k (n_channel n)) as Hchan by (symmetry; apply take_drop).
  pose proof (ni_chan n Hn) as Hch. rewrite Hchan, chan_ok_app in Hch. destruct Hch as [Hch _].
  pose proof (handle_commands_ok _ _ _ (ni_disk n Hn) Hch) as Hb.
  pose proof (write_commands cs (n_registered n) batch_default (n_disk n)) as Hw.
  destruct (after_ok _ _ _ (ni_disk n Hn) Hch) as [_ [_ Hgt Hgs]].
  destruct (ni_le n Hn) as [Hle _].
  unfold commit. fold cs. destruct (handle_commands cs (n_registered n) batch_default) as [reg b].
  unfold batch_ok in Hb. cbn [fst snd] in *. destruct (b_loglet b) as [l|] eqn:El.
  - destruct Hb as (-> & Hu & Hne & Hl). destruct (b_write b) eqn:Ew; [done|]. rewrite Hw.
    change (write_batch batch_default (n_disk n)) with (n_disk n).
    destruct (notify_batch_spec _ _ _ (n_state n) Hl) as ([Ht1 Ht2] & Hs & Hg & Htp & Hlast);
      [unfold mem_tail in *; lia|].
    set (st := notify_batch l (n_state n)) in *.
    assert (NodeInv (committed cs (drop k (n_channel n)) st n)) as Hn'
      by (apply committed_inv; [done..| |done|done|done]; split; [done|done]).
    set (g := ls_known_global_tail st).
    exists st, (omap (task_complete (ls_local_tail st) g StOk) (lb_tasks l)). split_and!; try done.
    + unfold complete_batch. cbn [upd_state n_state reply_all n_disk n_channel n_registered n_writer_up n_replies].
      fold st. fold g. set (rs := omap _ _). unfold reply_all, committed.
      assert ((if existsb (task_seals StOk) (lb_tasks l) then notify_seal st else st) = st) as Hst.
      { destruct (existsb (task_seals StOk) (lb_tasks l)) eqn:E; [|done]. apply notify_seal_sealed.
        apply existsb_exists in E as (t & Ht & Hts). rewrite (lo_tasks _ _ _ Hl) in Ht.
        apply list_elem_of_In, list_elem_of_omap in Ht as (c & Hc & Hct).
        rewrite Hs. replace (existsb cmd_seals cs) with true; [by rewrite orb_true_r|].
        symmetry. apply existsb_exists. exists c. split; [by apply list_elem_of_In|].
        destruct (chan_ok_split _ _ _ _ Hch Hc) as (? & ? & _ & Hok & _).
        destruct Hok; simplify_eq/=; done. }
      rewrite Hu. destruct (existsb (task_seals StOk) (lb_tasks l)), (registered_after cs (n_registered n));
        cbn; fold st; unfold upd_state; cbn; by rewrite ?Hst.
    + apply Forall_forall. intros r (t & Ht & Hr)%list_elem_of_omap. rewrite (lo_tasks _ _ _ Hl) in Ht.
      destruct (ni_global n Hn) as [Hgt' _]. rewrite <- Hg in Hgt'. by eapply task_complete_ok.
    + intros E. unfold mem_sealed in E. by rewrite Hs, E.
  - destruct Hb as (-> & Hnil & Ht). rewrite Hnil.
    assert (after cs (n_disk n) = n_disk n) as Ha
      by (etrans; [symmetry; exact Hw|]; unfold write_batch; by rewrite Hnil).
    assert (existsb cmd_seals cs = false) as Hns.
    { pose proof (lo_seal _ _ _ (loglet_batch_empty (n_disk n) cs Ht)) as E. done. }
    exists (n_state n), []. split_and!; [|apply committed_inv; try done|by constructor|done|done].
    + unfold reply_all, committed. simpl. by rewrite Ha, app_nil_r.
    + rewrite Ha. unfold mem_tail in *. lia.
    + by rewrite Hns, orb_false_r.
Qed.

Lemma commit_vdisk k n st rs :
  commit k n = reply_all rs (committed (take k (n_channel n)) (drop k (n_channel n)) st n) →
  vdisk (commit k n) = vdisk n
  ∧ registered_after (n_channel (commit k n)) (n_registered (commit k n)) =
      registered_after (n_channel n) (n_registered n).
Proof.
  intros ->. unfold vdisk, committed, reply_all, registered_after. simpl.
  rewrite <- after_app, <- foldl_app, take_drop. done.
Qed.

Lemma fails_inv k persisted n :
  NodeInv n → n_stopped n = false → NodeInv (commit_fails k persisted n).
Proof.
  intros Hn Hup. unfold commit_fails.
  pose proof (write_commands (take k (n_channel n)) (n_registered n) batch_default (n_disk n)) as Hw.
  destruct (handle_commands _ _ _) as [reg b]. simpl in Hw. rewrite Hw.
  pose proof Hn as [H1 H2 H3 H4 H5 H6 H7 H8 H9 H10 H11].
  rewrite <- (take_drop k (n_channel n)), chan_ok_app in H2. destruct H2 as [H2 _].
  destruct (after_ok _ _ _ H1 H2) as [Hd Hg].
  set (d' := if persisted then _ else _).
  assert (disk_ok d' ∧ grows (n_disk n) d') as [Hd' Hg'] by (destruct persisted; [done|split; [done|reflexivity]]).
  match goal with |- NodeInv (drop_tasks ?ts ?n') => set (n1 := n'); assert (NodeInv n1) as Hn1 end.
  { destruct Hg' as [G1 G2 G3]. split; try done; simpl.
    - destruct H5 as [A B]. split; [unfold mem_tail in *; simpl in *; lia|]. intros E. by apply G3, B.
    - by apply (headers_mono n n1).
    - by apply (stored_mono n n1). }
  apply reply_all_inv; [done|]. apply Forall_forall.
  intros r (t & _ & Ht)%list_elem_of_omap. by apply (reply_ok_dropped n1 t).
Qed.

Lemma closed_inv n : NodeInv n → NodeInv (writer_closes n).
Proof.
  intros Hn. pose proof Hn as [H1 H2 H3 H4 H5 H6 H7 H8 H9 H10 H11]. split; try done.
  by apply (stored_mono n (writer_closes n)).
Qed.

Lemma stopped_inv n :
  NodeInv n → NodeInv (writer_stops n)
  ∧ (writer_stops n = n ∨ n_writer_up (writer_stops n) = false ∧ n_state (writer_stops n) = n_state n).
Proof.
  intros Hn. unfold writer_stops. destruct (n_channel n) eqn:E; [|by split; [|left]].
  destruct (n_writer_up n); [by split; [|left]|]. split; [|by right].
  pose proof Hn as [H1 H2 H3 H4 H5 H6 H7 H8 H9 H10 H11]. split; try done.
  by eapply (stored_mono n).
Qed.

Lemma restart_inv k n :
  NodeInv n → NodeInv (restart_node k n) ∧ mem_tail n ≤ mem_tail (restart_node k n)
  ∧ (mem_sealed n = true → mem_sealed (restart_node k n) = true).
Proof.
  intros Hn. unfold restart_node. rewrite write_commands.
  change (write_batch batch_default (n_disk n)) with (n_disk n).
  pose proof Hn as [H1 H2 H3 H4 H5 H6 H7 H8 H9 H10 H11].
  rewrite <- (take_drop k (n_channel n)), chan_ok_app in H2. destruct H2 as [H2 _].
  destruct (after_ok _ _ _ H1 H2) as [Hd Hgr]. pose proof Hgr as [G1 G2 G3]. set (d := after _ _) in *.
  destruct H5 as [[H5 H5'] H5''].
  match goal with |- NodeInv ?n' ∧ _ => set (n1 := n') end.
  assert (mem_tail n1 = disk_tail d) as Ht by done.
  assert (mem_sealed n1 = d_seal d) as Hs by (unfold mem_sealed; simpl; by autorewrite with tail).
  assert (mem_sealed n = true → mem_sealed n1 = true) as Hs' by (rewrite Hs; auto).
  split_and!; [|rewrite Ht; lia|done]. split; simpl; try done.
  - rewrite Ht, Hs. split; [lia|done].
  - fold (disk_trim d). rewrite offset_next_lt by apply (dw_trim d (do_wf d Hd)).
    pose proof (do_global d Hd). pose proof (do_trim d Hd). lia.
  - apply (headers_mono n n1); try done. rewrite Ht. lia.
  - apply (stored_mono n n1); try done. rewrite Ht. lia.
  - rewrite Ht. destruct H10. split; [lia|done].
Qed.

End Server.

(** ** The server *)

Section Run.
Context (content : Z → LogRecord) (rcv : Rpc → Store → Prop) (told floor : Z).
Implicit Types (s : Server).

(** The worker ends because the loglet is sealed and idle. *)
Definition retiring s (ph : Phase) : bool := bool_decide (ph = Draining) && negb (sv_cancelled s).

(** Without a worker only a sealed loglet has a seal in the queue, so that the next
    worker knows of it. *)
Record SInv s : Prop := {
  si_node : NodeInv content rcv told floor (sv_node s);
  si_worker : ∀ w ph, sv_worker s = Some (w, ph) → WorkerInv rcv told (retiring s ph) (sv_node s) w;
  si_none : sv_worker s = None → sv_cancelled s = false → n_writer_up (sv_node s) = true →
    d_seal (vdisk (sv_node s)) = true → mem_sealed (sv_node s) = true }.

Lemma on_worker_inv f s :
  SInv s →
  (∀ w ph, sv_worker s = Some (w, ph) → Inv content rcv told floor (retiring s ph) (sv_node s, w) →
    Inv content rcv told floor (retiring s ph) (f (sv_node s, w))) →
  SInv (on_worker f s).
Proof.
  intros Hs Hf. unfold on_worker. destruct (sv_worker s) as [[w ph]|] eqn:E; [|done].
  pose proof (Hf w ph eq_refl (conj (si_node s Hs) (si_worker s Hs _ _ E))) as HI.
  destruct (f (sv_node s, w)) as [n' w']. destruct HI as [Hn HW].
  split; simpl; [done|by intros ? ? [= <- <-]|done].
Qed.

Lemma on_worker_if_inv en f s :
  SInv s →
  (∀ w ph, en w ph = true → Inv content rcv told floor (retiring s ph) (sv_node s, w) →
    Inv content rcv told floor (retiring s ph) (f (sv_node s, w))) →
  SInv (on_worker_if en f s).
Proof.
  intros Hs Hf. unfold on_worker_if. destruct (sv_worker s) as [[w ph]|] eqn:E; [|done].
  destruct (en w ph) eqn:He; [|done]. apply on_worker_inv; [done|].
  intros w' ph' E'. rewrite E in E'. simplify_eq. by apply Hf.
Qed.

Lemma server_step_inv e s :
  (∀ rpc m, e = EvMessage rpc m → msg_told m ≤ told
    ∧ ∀ peer now sto, m = MsgStore peer now sto → rcv rpc sto ∧ carries content sto) →
  SInv s → SInv (server_step e s).
Proof.
  intros He Hs. pose proof (si_node s Hs) as Hn. destruct e as [|rpc m| | | |idle| | |k|k pers| | |k]; simpl.
  - destruct (sv_worker s) eqn:E; [done|]. destruct (sv_cancelled s) eqn:Ec; [done|].
    pose proof (worker_start_inv content rcv told floor false (sv_node s) eq_refl Hn (si_none s Hs E Ec)) as HI.
    destruct (worker_start (sv_node s)) as [n w]. destruct HI as [A B].
    split; simpl; [done|by intros ? ? [= <- <-]|done].
  - destruct (He _ _ eq_refl) as [Hg Hst]. apply on_worker_inv; [done|]. intros w ph _.
    by apply process_message_inv.
  - apply on_worker_if_inv; [done|]. intros w ph _. apply on_local_tail_change_inv.
  - apply on_worker_if_inv; [done|]. intros w ph _. apply on_global_tail_change_inv.
  - apply on_worker_if_inv; [done|]. intros w ph [[Hu _]%andb_true_iff _]%andb_true_iff.
    apply on_writes_disabled_inv. by apply (ni_down _ _ _ _ _ Hn).
  - destruct (sv_worker s) as [[w []]|] eqn:E; [|done..].
    destruct (is_quiescent idle (sv_node s, w)) eqn:Eq.
    + unfold is_quiescent in Eq. apply andb_true_iff in Eq as [[_ Eq]%andb_true_iff _].
      split; simpl; [done| |done]. intros ? ? [= <- <-].
      destruct (si_worker s Hs _ _ E) as [W1 W2 W3 W4 W5 W6]. by split.
    + apply on_worker_inv; [done|]. intros w' ph _. apply persist_global_tail_inv.
  - split; simpl; [done| |done]. intros w ph Hw. destruct (sv_worker s) as [[w' ph']|] eqn:E; [|done].
    simpl in Hw. simplify_eq. destruct (si_worker s Hs _ _ E) as [W1 W2 W3 W4 W5 W6]. by split.
  - destruct (sv_worker s) as [[w []]|] eqn:E; [done| |done].
    destruct (has_pending_seal w); [done|]. pose proof (si_worker s Hs _ _ E) as HW.
    destruct (worker_stop_inv content rcv told floor _ (sv_node s, w) (conj Hn HW)) as [A B].
    split; simpl; [done|done|]. intros _ Hc _ _. rewrite B. apply (wi_quiescent _ _ _ _ _ HW).
    unfold retiring. by rewrite Hc.
  - destruct (n_stopped (sv_node s)) eqn:Hup; [done|].
    destruct (commit_spec content rcv told floor k _ Hn Hup) as (st & rs & Hc & Hn' & Hrs & Ht & Hse).
    destruct (commit_vdisk _ _ _ _ Hc) as [Hv Hr].
    assert (NodeInv content rcv told floor (commit k (sv_node s))) as Hn2 by (rewrite Hc; by apply reply_all_inv).
    assert (mem_tail (commit k (sv_node s)) = tail_offset (ls_local_tail st)) as Et by by rewrite Hc.
    assert (mem_sealed (commit k (sv_node s)) = tail_is_sealed (ls_local_tail st)) as Es by by rewrite Hc.
    assert (n_writer_up (commit k (sv_node s)) = n_writer_up (sv_node s)) as Eu by by rewrite Hc.
    split; simpl; [done| |].
    + intros w ph E. destruct (si_worker s Hs _ _ E) as [W1 W2 W3 W4 W5 W6].
      split; rewrite ?Hv, ?Hr, ?Et, ?Es, ?Eu; auto. intros Hu Hd. destruct (W3 Hu Hd); auto.
    + intros E Ec. rewrite Hv, Es, Eu. intros Hu Hd. by apply Hse, (si_none s Hs E Ec).
  - destruct (n_stopped (sv_node s)) eqn:Hup; [done|].
    pose proof (fails_inv content rcv told floor k pers _ Hn Hup) as Hn'.
    assert (n_writer_up (commit_fails k pers (sv_node s)) = false
      ∧ n_state (commit_fails k pers (sv_node s)) = n_state (sv_node s)) as [Hd Hst].
    { unfold commit_fails. by destruct (handle_commands _ _ _). }
    split; simpl; [done| |by rewrite Hd].
    intros w ph E. destruct (si_worker s Hs _ _ E) as [W1 W2 W3 W4 W5 W6].
    split; unfold mem_tail, mem_sealed; rewrite ?Hd, ?Hst; done.
  - split; simpl; [by apply closed_inv| |done].
    intros w ph E. destruct (si_worker s Hs _ _ E) as [W1 W2 W3 W4 W5 W6]. by split.
  - destruct (stopped_inv content rcv told floor _ Hn) as [Hn' Heq]. split; simpl; [done| |].
    + intros w ph E. pose proof (si_worker s Hs _ _ E) as HW. destruct Heq as [->|[Hd Hst]]; [done|].
      destruct HW as [W1 W2 W3 W4 W5 W6]. split; unfold mem_tail, mem_sealed; rewrite ?Hd, ?Hst; done.
    + intros E Ec. destruct Heq as [->|[-> _]]; [by apply (si_none s Hs)|done].
  - destruct (restart_inv content rcv told floor k _ Hn) as [Hn' _]. split; simpl; [done|done|].
    intros _ _ _. unfold mem_sealed, restart_node, vdisk. simpl. by autorewrite with tail.
Qed.

End Run.

(** ** What a step keeps *)

(** A turn of the worker leaves the store alone; answers are never taken back. *)
Definition frame (n n' : Node) : Prop := n_disk n' = n_disk n ∧ n_replies n `prefix_of` n_replies n'.

#[export] Instance frame_preorder : PreOrder frame.
Proof. split; [by split|]. intros a b c [E1 P1] [E2 P2]. split; [congruence|by etrans]. Qed.

Lemma frame_reply_all rs n : frame n (reply_all rs n).
Proof. split; [done|]. by exists rs. Qed.
Lemma frame_reply r n : frame n (reply r n).
Proof. apply (frame_reply_all [r]). Qed.
Lemma frame_upd_state f n : frame n (upd_state f n).
Proof. by split. Qed.
Lemma frame_send c n : frame n (send_command c n).1.
Proof. unfold send_command. destruct (n_writer_up n); [by split|apply frame_reply_all]. Qed.
Lemma frame_global g n w : frame n (update_global_tail g (n, w)).1.1.
Proof. unfold update_global_tail. by destruct (_ <? _). Qed.
Lemma frame_enqueue f l p t w n : frame n (enqueue_store f l p t w n).1.
Proof. unfold enqueue_store. destruct (w_writer_active w); [apply frame_send|apply frame_reply_all]. Qed.

Lemma frame_send_eq c n n' b : send_command c n = (n', b) → frame n n'.
Proof. intros E. pose proof (frame_send c n) as Hf. by rewrite E in Hf. Qed.
Lemma frame_enqueue_eq f l p t w n n' b : enqueue_store f l p t w n = (n', b) → frame n n'.
Proof. intros E. pose proof (frame_enqueue f l p t w n) as Hf. by rewrite E in Hf. Qed.
Lemma frame_drop ts n : frame n (drop_tasks ts n).
Proof. apply frame_reply_all. Qed.
Lemma frame_refl n : frame n n.
Proof. reflexivity. Qed.

Create HintDb frame discriminated.
#[local] Hint Resolve frame_refl frame_reply_all frame_reply frame_upd_state frame_send frame_drop : frame.
#[local] Hint Immediate frame_send_eq frame_enqueue_eq : frame.
#[local] Hint Extern 3 (frame _ (send_command _ (upd_state _ _)).1) => etrans; [apply frame_upd_state|] : frame.
#[local] Hint Extern 3 (frame _ (drop_tasks _ (upd_state _ _))) => etrans; [apply frame_upd_state|] : frame.

(** The frame of the rest of a handler, after the global tail of the message. *)
Ltac frame_message :=
  lazymatch goal with
  | |- context [update_global_tail ?g (?n0, ?w0)] =>
      let Hf := fresh "Hf" in
      pose proof (frame_global g n0 w0) as Hf;
      destruct (update_global_tail g (n0, w0)) as [[? ?] ?]; cbn [fst snd] in Hf |- *;
      etrans; [exact Hf|clear Hf]
  end.
Ltac frame_cases := repeat case_match; simplify_eq/=; eauto with frame.

Lemma process_message_frame rpc m n w : frame n (process_message rpc m (n, w)).1.
Proof.
  destruct m; simpl.
  - unfold process_store. cbn [fst]. frame_message. frame_cases.
    all: etrans; [apply frame_upd_state|eauto with frame].
  - unfold process_get_records. frame_message. frame_cases.
  - unfold process_release. apply frame_global.
  - unfold process_get_digest. frame_message. frame_cases.
  - unfold process_get_loglet_info. frame_message. frame_cases.
  - unfold process_wait_for_tail. frame_message. frame_cases.
  - unfold process_seal. frame_message. frame_cases.
  - unfold process_trim. frame_message. frame_cases.
Qed.

Lemma persist_frame n w : frame n (persist_global_tail (n, w)).1.
Proof. unfold persist_global_tail. frame_cases. Qed.
Lemma local_tail_frame n w : frame n (on_local_tail_change (n, w)).1.
Proof. unfold on_local_tail_change. frame_cases. Qed.
Lemma global_tail_frame n w : frame n (on_global_tail_change (n, w)).1.
Proof. unfold on_global_tail_change. frame_cases. Qed.
Lemma writes_disabled_frame n w : frame n (on_writes_disabled (n, w)).1.
Proof. unfold on_writes_disabled. frame_cases. Qed.
Lemma worker_stop_frame n w : frame n (worker_stop (n, w)).
Proof.
  unfold worker_stop. pose proof (local_tail_frame n w) as H1.
  destruct (on_local_tail_change (n, w)) as [n1 w1]. pose proof (persist_frame n1 w1) as H2.
  destruct (persist_global_tail (n1, w1)) as [n2 w2]. cbn [fst] in *.
  etrans; [exact H1|]. etrans; [exact H2|]. etrans; [apply frame_reply_all|]. case_match; eauto with frame.
Qed.

(** The order of the states of a server. *)
Definition node_le (n n' : Node) : Prop :=
  (∀ o, hold (n_disk n) o → hold (n_disk n') o) ∧ n_replies n `prefix_of` n_replies n'.

Lemma frame_le n n' : frame n n' → node_le n n'.
Proof. intros [E P]. split; [by rewrite E|done]. Qed.

Lemma on_worker_le f s :
  (∀ n w, frame n (f (n, w)).1) → node_le (sv_node s) (sv_node (on_worker f s)).
Proof.
  intros Hf. unfold on_worker. destruct (sv_worker s) as [[w ph]|]; [|by apply frame_le].
  pose proof (Hf (sv_node s) w) as Hw. destruct (f (sv_node s, w)). by apply frame_le.
Qed.
Lemma on_worker_if_le en f s :
  (∀ n w, frame n (f (n, w)).1) → node_le (sv_node s) (sv_node (on_worker_if en f s)).
Proof.
  intros Hf. unfold on_worker_if. destruct (sv_worker s) as [[w ph]|]; [|by apply frame_le].
  destruct (en w ph); [by apply on_worker_le|by apply frame_le].
Qed.

Section Steps.
Context (content : Z → LogRecord) (rcv : Rpc → Store → Prop) (told floor : Z).

(** Whatever part of its queue the writer writes. *)
Lemma written_le k n :
  NodeInv content rcv told floor n → ∀ o, hold (n_disk n) o → hold (after (take k (n_channel n)) (n_disk n)) o.
Proof.
  intros Hn. pose proof (ni_chan _ _ _ _ n Hn) as Hch.
  rewrite <- (take_drop k (n_channel n)), chan_ok_app in Hch. destruct Hch as [Hch _].
  destruct (after_ok content rcv told _ _ _ (ni_disk _ _ _ _ n Hn) Hch) as [_ Hg]. apply (gr_hold _ _ Hg).
Qed.

Lemma server_step_le e s : SInv content rcv told floor s → node_le (sv_node s) (sv_node (server_step e s)).
Proof.
  intros [Hn _ _]. destruct e as [|rpc m| | | |idle| | |k|k pers| | |k]; simpl.
  - destruct (sv_worker s); [by apply frame_le|]. destruct (sv_cancelled s); [by apply frame_le|].
    unfold worker_start. destruct (send_command CmdRegister (sv_node s)) as [n b] eqn:E.
    apply frame_le. simpl. eauto with frame.
  - apply on_worker_le, process_message_frame.
  - apply on_worker_if_le, local_tail_frame.
  - apply on_worker_if_le, global_tail_frame.
  - apply on_worker_if_le, writes_disabled_frame.
  - destruct (sv_worker s) as [[w []]|]; [|by apply frame_le..].
    destruct (is_quiescent _ _); [by apply frame_le|]. apply on_worker_le, persist_frame.
  - by apply frame_le.
  - destruct (sv_worker s) as [[w []]|]; [by apply frame_le| |by apply frame_le].
    destruct (has_pending_seal w); [by apply frame_le|]. apply frame_le, worker_stop_frame.
  - destruct (n_stopped (sv_node s)) eqn:Hup; [by apply frame_le|].
    destruct (commit_spec content rcv told floor k _ Hn Hup) as (st & rs & -> & _).
    split; simpl; [by apply written_le|by exists rs].
  - destruct (n_stopped (sv_node s)) eqn:Hup; [by apply frame_le|]. unfold commit_fails.
    pose proof (write_commands (take k (n_channel (sv_node s))) (n_registered (sv_node s)) batch_default
      (n_disk (sv_node s))) as Hw.
    destruct (handle_commands _ _ _) as [reg b]. simpl in Hw. rewrite Hw.
    split; simpl; [|by eexists]. destruct pers; [by apply written_le|done].
  - by apply frame_le.
  - apply frame_le. unfold writer_stops. repeat case_match; done.
  - unfold restart_node. rewrite write_commands. split; [by apply written_le|done].
Qed.

End Steps.

(** ** More requests *)

Section Mono.
Context (content : Z → LogRecord) (rcv rcv' : Rpc → Store → Prop) (told told' floor floor' : Z).
Context (Hrcv : ∀ rpc m, rcv rpc m → rcv' rpc m) (Htold : told ≤ told') (Hfloor : floor' ≤ floor).

Lemma safe_mono d o : safe told d o → safe told' d o.
Proof. unfold safe. naive_solver lia. Qed.

Lemma disk_ok_mono d : disk_ok content told d → disk_ok content told' d.
Proof. intros [A B C D E]. split; [done|done| |lia|lia]. intros o Ho. by apply safe_mono, C. Qed.

Lemma chan_ok_mono ch : ∀ d reg, chan_ok content rcv told d reg ch → chan_ok content rcv' told' d reg ch.
Proof.
  induction ch as [|c ch IH]; intros d reg; simpl; [done|]. intros (A & B & C).
  split_and!; [done| |by apply IH]. destruct B; constructor; eauto using safe_mono; lia.
Qed.

Lemma reply_data_mono d r : reply_data content told d r → reply_data content told' d r.
Proof.
  destruct r; try done; simpl; [lia|]. intros [A B]. split; [done|]. intros o t Hin. pose proof (B _ _ Hin). lia.
Qed.

Lemma NodeInv_mono n : NodeInv content rcv told floor n → NodeInv content rcv' told' floor' n.
Proof.
  intros [H1 H2 H3 H4 H5 H6 H7 H8 H9 H10 H11].
  split; try done; [by apply disk_ok_mono|by apply chan_ok_mono|lia| | |].
  - intros r (A & B & C & D)%H7. split_and!; [done|done|lia|by apply reply_data_mono].
  - intros rpc h Hin Hok. destruct (H8 _ _ Hin Hok) as [m [A B C D E]]. exists m.
    split; [by apply Hrcv|done| | |].
    + intros o Ho. by apply safe_mono, C.
    + intros Hr. pose proof (D Hr). lia.
    + intros Hr r Hin' Hs. pose proof (E Hr _ Hin' Hs). lia.
  - destruct H10 as [F1 F2]. split; [lia|]. intros r Hin Hs. pose proof (F2 _ Hin Hs). lia.
Qed.

Lemma WorkerInv_mono q n w : WorkerInv rcv told q n w → WorkerInv rcv' told' q n w.
Proof.
  intros [W1 W2 W3 W4 [P1 P2 P3] W6]. split; try done; [|lia|].
  - intros Hup o Ho. by apply safe_mono, W1.
  - split; try done. intros t rpc Hin. destruct (P1 _ _ Hin) as (m & A & B & C & D). exists m.
    by split_and!; [apply Hrcv|..].
Qed.

Lemma SInv_mono s : SInv content rcv told floor s → SInv content rcv' told' floor' s.
Proof.
  intros [A B C]. split; [by apply NodeInv_mono| |done].
  intros w ph E. by apply WorkerInv_mono, B.
Qed.

End Mono.

(** The floor may be raised to what the server reports at the moment. *)
Lemma SInv_raise content rcv told floor floor' s :
  SInv content rcv told floor s → floor' ≤ mem_tail (sv_node s) →
  (∀ r, r ∈ n_replies (sv_node s) → rh_sealed (reply_header r) = true → floor' ≤ rh_local_tail (reply_header r)) →
  SInv content rcv told floor' s.
Proof. intros [[] HB HC] Hm Hr. split; [|done|done]. by split. Qed.

(** ** Runs *)

Definition received (es : list Event) (rpc : Rpc) (m : Store) : Prop :=
  ∃ peer now, EvMessage rpc (MsgStore peer now m) ∈ es.

Definition event_told (e : Event) : Z :=
  match e with EvMessage _ m => msg_told m | _ => LogletOffset_OLDEST end.
(** The largest global tail in a message to the server. *)
Definition told_of (es : list Event) : Z := foldr (λ e t, Z.max (event_told e) t) LogletOffset_OLDEST es.

(** What the sequencer of the loglet and the network guarantee: an offset is given to
    one record and is not the last one of its type; every request has its own number. *)
Definition sequenced (content : Z → LogRecord) (es : list Event) : Prop :=
  ∀ rpc m, received es rpc m → carries content m.
Definition distinct_requests (es : list Event) : Prop :=
  ∀ rpc m m', received es rpc m → received es rpc m' → m = m'.

Lemma told_of_app es es' : told_of (es ++ es') = Z.max (told_of es) (told_of es').
Proof.
  unfold told_of. induction es as [|e es IH]; simpl; [|lia].
  induction es'; simpl; unfold LogletOffset_OLDEST in *; lia.
Qed.

Lemma server_run_snoc es e : server_run (es ++ [e]) = server_step e (server_run es).
Proof. unfold server_run. by rewrite foldl_app. Qed.

Lemma disk_init_ok content told : 1 ≤ told → disk_ok content told empty_disk.
Proof.
  intros Hp. assert (disk_trim empty_disk = 0) as Ht by by vm_compute.
  split; [| | |rewrite Ht; lia|exact Hp].
  - split; [done|by vm_compute|]. intros o [r Hr]. cbn in Hr. by rewrite lookup_empty in Hr.
  - intros o r Hr. cbn in Hr. by rewrite lookup_empty in Hr.
  - intros o Ho. exfalso. assert (disk_tail empty_disk = 1) by by vm_compute. lia.
Qed.

Lemma node_init_inv content rcv told floor : 1 ≤ told → floor ≤ 1 → NodeInv content rcv told floor node_init.
Proof.
  intros Hp Hf. assert (mem_tail node_init = 1) as Ht by by vm_compute.
  assert (disk_tail (n_disk node_init) = 1) as Hd by by vm_compute.
  assert (ls_known_global_tail (n_state node_init) = 1) as Hg by by vm_compute.
  assert (ls_trim_point (n_state node_init) = 0) as Htp by by vm_compute.
  split; rewrite ?Ht, ?Hd, ?Hg, ?Htp; try done; try (intros *; by intros ?%elem_of_nil); [by apply disk_init_ok|lia|].
  split; [done|]. by intros ? ?%elem_of_nil.
Qed.

Lemma server_init_inv content rcv told floor : 1 ≤ told → floor ≤ 1 → SInv content rcv told floor server_init.
Proof. intros Hp Hf. split; [by apply node_init_inv|done|done]. Qed.

Lemma server_run_inv content es :
  sequenced content es → SInv content (received es) (told_of es) 1 (server_run es).
Proof.
  induction es as [|e es IH] using rev_ind; intros Hseq.
  - by apply server_init_inv.
  - rewrite server_run_snoc. apply server_step_inv.
    + intros rpc m ->. rewrite told_of_app. split; [simpl; lia|].
      intros peer now sto ->. assert (received (es ++ [EvMessage rpc (MsgStore peer now sto)]) rpc sto) as Hr.
      { exists peer, now. apply elem_of_app. right. by apply list_elem_of_singleton. }
      split; [done|]. by eapply Hseq.
    + eapply (SInv_mono _ _ _ _ _ 1 1); [| |done|apply IH].
      * intros rpc m (peer & now & Hin). exists peer, now. apply elem_of_app. by left.
      * rewrite told_of_app. lia.
      * intros rpc m (peer & now & Hin). apply (Hseq rpc). exists peer, now. apply elem_of_app. by left.
Qed.
