(* ===== verification/LogServerSafety.v ===== *)
(** * LogServerSafety: the promises of a log server, over its whole life

    Theorems about every run of the server of LogServer.v, with crashes and failed
    writes at any point: what is acknowledged is kept, a seal is final, and nothing
    that the server has said about its tail is taken back. *)

From stdpp Require Import strings gmap sorting.
From S2P Require Import Prelude LogTypes NodesConfig LogServer LogServerProps.

Open Scope Z_scope.

Abbreviation replies_of es := (n_replies (sv_node (server_run es))).
Abbreviation disk_of es := (n_disk (sv_node (server_run es))).

(** C13: acknowledged stores are durable.  When a server has answered a store with
    [Ok], its store holds every record of the batch, and unless the store is a repair
    every record before it too, with the content that the sequencer gave to that
    offset, except for records at or below its durable trim point and below a global
    tail that it was told (they are already replicated).  This holds whatever else the
    server did before and after: batches that were committed in part, failed writes,
    crashes in the middle of a write, restarts, seals, trims, duplicate and repair
    stores. *)
Theorem store_acknowledged_durable content es rpc m h o :
  sequenced content es → distinct_requests es →
  received es rpc m → Stored rpc h ∈ replies_of es → rh_status h = StOk →
  (if is_repair m then sto_first_offset m else 1) ≤ o ≤ store_last m →
  d_records (disk_of es) !! o = Some (content o)
  ∨ o ≤ disk_trim (disk_of es) ∨ o < told_of es.
Proof.
  intros Hseq Hd Hr Hin Hok Ho. destruct (server_run_inv content es Hseq) as [Hn _ _].
  destruct (ni_stored _ _ _ _ _ Hn _ _ Hin Hok) as [m' Ha].
  rewrite (Hd _ _ _ Hr (ak_rcv _ _ _ _ _ Ha)) in Ho.
  assert (safe (told_of es) (disk_of es) o) as Hs.
  { destruct (is_repair m') eqn:Hrep; [by apply (ak_durable _ _ _ _ _ Ha)|]. by eapply acked_prefix. }
  destruct Hs as [[r Hrec]|?]; [left|by right].
  by rewrite <- (do_content _ _ _ (ni_disk _ _ _ _ _ Hn) _ _ Hrec).
Qed.

(** C14: the seal fence.  When an answer of a server reports the loglet as sealed, and
    the server has answered a store that is not a repair with [Ok], in any order and
    in any of its lives, the store ends below the local tail that the first answer
    reports, or below a global tail that the server was told.  The answer to a seal
    reports the loglet as sealed.  So whoever seals a loglet and takes the largest
    reported tail misses no store that this server acknowledges, not even one that
    was in flight. *)
Theorem seal_fences_stores content es rpc m h r :
  sequenced content es → distinct_requests es →
  received es rpc m → is_repair m = false → Stored rpc h ∈ replies_of es → rh_status h = StOk →
  r ∈ replies_of es →
  (∀ rpc' h', r = Sealed rpc' h' → rh_status h' = StOk → rh_sealed h' = true) ∧
  (rh_sealed (reply_header r) = true →
   store_last m < Z.max (rh_local_tail (reply_header r)) (told_of es)).
Proof.
  intros Hseq Hd Hr Hrep Hin Hok Hin'. destruct (server_run_inv content es Hseq) as [Hn _ _].
  split; [intros rpc' h' ->; by apply (ni_sealed _ _ _ _ _ Hn rpc')|]. intros Hs.
  destruct (ni_stored _ _ _ _ _ Hn _ _ Hin Hok) as [m' [A _ _ _ E]].
  rewrite <- (Hd _ _ _ Hr A) in E. pose proof (E Hrep _ Hin' Hs). lia.
Qed.

(** C16: what a server has said about its tail stays true.  No answer of a server, in
    any of its lives, reported a local tail above the current one, and once an answer
    reported the loglet as sealed it stays sealed, also after a crash. *)
Theorem tail_reports_stay_true content es r :
  sequenced content es → r ∈ replies_of es →
  rh_local_tail (reply_header r) ≤ mem_tail (sv_node (server_run es))
  ∧ (rh_sealed (reply_header r) = true → mem_sealed (sv_node (server_run es)) = true).
Proof.
  intros Hseq Hin. destruct (server_run_inv content es Hseq) as [Hn _ _].
  destruct (ni_headers _ _ _ _ _ Hn _ Hin) as (? & ? & _). done.
Qed.

(** ** A run *)

Definition demo_sequencer : GenerationalNodeId := (1, 1).
Definition demo_record (o : Z) : LogRecord := {| rec_created_at := o; rec_keys := KeysSingle o; rec_body := "x" |}.
Definition demo_store (global flags first : Z) (n : nat) : Store := {|
  sto_known_global_tail := global; sto_timeout_at := None; sto_flags := flags;
  sto_first_offset := first; sto_sequencer := demo_sequencer; sto_known_archived := 0;
  sto_payloads := (λ i, demo_record (first + Z.of_nat i)) <$> seq 0 n |}.

(** Two stores, the second one committed in the batch of a seal; a store after the
    seal, a crash, and a repair store in the next life. *)
Definition demo_events : list Event :=
  [ EvStart;
    EvMessage 1 (MsgStore demo_sequencer 0 (demo_store 1 0 1 2));
    EvMessage 2 (MsgStore demo_sequencer 0 (demo_store 1 0 3 1));
    EvCommit 2; EvLocalTail;
    EvMessage 3 (MsgSeal 1); EvCommit 3; EvLocalTail;
    EvMessage 4 (MsgStore demo_sequencer 0 (demo_store 1 0 4 1));
    EvRestart 1; EvStart;
    EvMessage 5 (MsgStore (7, 1) 0 (demo_store 1 1 3 2)); EvCommit 2 ].

Lemma sequenced_forall content es :
  Forall (λ e, match e with EvMessage _ (MsgStore _ _ m) => carries content m | _ => True end) es →
  sequenced content es.
Proof. rewrite Forall_forall. intros Hf rpc m (peer & now & Hin). by apply (Hf _ Hin). Qed.

Lemma demo_carries global flags first n :
  0 ≤ first → first + Z.of_nat n ≤ u32_max → carries demo_record (demo_store global flags first n).
Proof.
  intros H1 H2. split_and!; [done|unfold store_last; simpl; rewrite length_fmap, length_seq; lia|].
  simpl. intros i r. rewrite list_lookup_fmap. intros (j & Hj & ->)%fmap_Some.
  apply lookup_seq in Hj as [-> _]. done.
Qed.

Lemma demo_sequenced : sequenced demo_record demo_events.
Proof.
  apply sequenced_forall. unfold demo_events.
  repeat (constructor; [first [exact I|by apply demo_carries; lia]|]). constructor.
Defined.

Lemma demo_received rpc m :
  received demo_events rpc m →
  (rpc, m) ∈ [(1, demo_store 1 0 1 2); (2, demo_store 1 0 3 1); (4, demo_store 1 0 4 1); (5, demo_store 1 1 3 2)].
Proof. intros (peer & now & Hin). unfold demo_events in Hin. rewrite !elem_of_cons in Hin. set_solver. Qed.

Lemma demo_distinct : distinct_requests demo_events.
Proof.
  intros rpc m m' H1%demo_received H2%demo_received.
  rewrite !elem_of_cons in H1, H2. set_solver.
Defined.

Definition demo_ok (sealed : bool) (tail : Z) : ResponseHeader := mkHeader tail 1 sealed StOk.

Lemma demo_replies :
  replies_of demo_events =
    [Stored 1 (demo_ok false 3); Stored 2 (demo_ok true 4); Sealed 3 (demo_ok true 4);
     Stored 4 (with_status StSealed (demo_ok true 4)); Stored 5 (demo_ok true 5)].
Proof. vm_compute. reflexivity. Defined.

Lemma demo_first_received : received demo_events 1 (demo_store 1 0 1 2).
Proof. exists demo_sequencer, 0. right. left. Defined.

Lemma store_acknowledged_durable_witness :
  d_records (disk_of demo_events) !! 2 = Some (demo_record 2) ∨ 2 ≤ disk_trim (disk_of demo_events)
  ∨ 2 < told_of demo_events.
Proof.
  apply (store_acknowledged_durable demo_record demo_events 1 (demo_store 1 0 1 2) (demo_ok false 3) 2).
  - apply demo_sequenced.
  - apply demo_distinct.
  - apply demo_first_received.
  - rewrite demo_replies. left.
  - reflexivity.
  - vm_compute. split; congruence.
Defined.

Lemma seal_fences_stores_witness : 2 < Z.max (rh_local_tail (demo_ok true 4)) (told_of demo_events).
Proof.
  apply (seal_fences_stores demo_record demo_events 1 (demo_store 1 0 1 2) (demo_ok false 3)
           (Sealed 3 (demo_ok true 4))).
  - apply demo_sequenced.
  - apply demo_distinct.
  - apply demo_first_received.
  - reflexivity.
  - rewrite demo_replies. left.
  - reflexivity.
  - rewrite demo_replies. right. right. left.
  - reflexivity.
Defined.

Lemma tail_reports_stay_true_witness :
  4 ≤ mem_tail (sv_node (server_run demo_events))
  ∧ (true = true → mem_sealed (sv_node (server_run demo_events)) = true).
Proof.
  apply (tail_reports_stay_true demo_record demo_events (Sealed 3 (demo_ok true 4))).
  - apply demo_sequenced.
  - rewrite demo_replies. right. right. left.
Defined.

(** ** Trims *)

(** The answer to a second trim does not wait for the first one: the trim point that
    it is compared with is the one in memory, which moves before the store does.  A
    crash then takes an acknowledged trim back. *)
Definition trim_events : list Event :=
  [ EvStart; EvMessage 1 (MsgStore demo_sequencer 0 (demo_store 1 0 1 3)); EvCommit 2;
    EvMessage 2 (MsgTrim 4 2); EvMessage 3 (MsgTrim 4 2); EvRestart 0 ].

Lemma acknowledged_trim_lost :
  Trimmed 3 (mkHeader 4 4 false StOk) ∈ replies_of trim_events
  ∧ disk_trim (disk_of trim_events) = 0 ∧ d_records (disk_of trim_events) !! 2 = Some (demo_record 2).
Proof. split_and!; [vm_compute; right; left|vm_compute; reflexivity..]. Qed.

(** An empty loglet can be trimmed at its tail: the trim point is clipped to the
    predecessor of the tail, which is never below the oldest offset. *)
Lemma empty_loglet_trimmed_at_tail :
  let s := sv_node (server_run [EvStart; EvMessage 1 (MsgTrim 10 5)]) in
  ls_trim_point (n_state s) = 1 ∧ tail_offset (ls_local_tail (n_state s)) = 1
  ∧ tail_offset (ls_local_tail (n_state (restart_node 2 s))) = 2.
Proof. vm_compute. done. Qed.

(** ** Registrations *)

(** The workers of a loglet share its state, so the writer cannot tell their
    registrations apart: when the unregistration of a worker that ended comes after the
    registration of the next one, the next one is not registered.  Its stores are then
    written, but the tail does not move and they are answered with [Disabled]. *)
Lemma stale_unregistration_loses_store :
  let c := CmdWrite (TaskStore 9 None) (Some (StoreBatch [demo_record 1] 1 1)) None in
  let n := mkNode empty_disk (load_loglet_state empty_disk) [CmdRegister; CmdUnregister; c] true true false [] in
  n_registered (commit 2 n) = false
  ∧ d_records (n_disk (commit 1 (commit 2 n))) !! 1 = Some (demo_record 1)
  ∧ mem_tail (commit 1 (commit 2 n)) = 1
  ∧ n_replies (commit 1 (commit 2 n)) =
      [Stored 9 (with_status StDisabled (header_new (TailOpen LogletOffset_INVALID) LogletOffset_INVALID))].
Proof. vm_compute. done. Qed.

(** ** Repairs while a seal completes *)

(** A repair store that is accepted after the seal is written but before the worker has
    seen it is queued, and then the staged tail goes back to the tail of the seal.  The
    local tail moves past it, and a repair store at the local tail is refused. *)
Definition repair_events : list Event :=
  [ EvStart; EvMessage 1 (MsgStore demo_sequencer 0 (demo_store 1 0 1 2)); EvMessage 2 (MsgSeal 1);
    EvCommit 3; EvMessage 3 (MsgStore (7, 1) 0 (demo_store 1 1 3 2)); EvLocalTail; EvCommit 1;
    EvMessage 4 (MsgStore (7, 1) 0 (demo_store 1 1 5 1)) ].

Lemma repair_during_seal_reverts_staging :
  let s := server_run repair_events in
  mem_tail (sv_node s) = 5 ∧ (w_staging_local_tail ∘ fst) <$> sv_worker s = Some 3
  ∧ last (n_replies (sv_node s)) = Some (Stored 4 (with_status StOutOfBounds (demo_ok true 5))).
Proof. vm_compute. done. Qed.
