(* ===== verification/LogServerReads.v ===== *)
(** * LogServerReads: digests and reads are exact

    [get_records_digest] and [read_records] of LogServer.v against the records of the
    store: what is reported is there, and what is there is reported. *)

From stdpp Require Import strings gmap sorting.
From S2P Require Import Prelude LogTypes NodesConfig LogServer LogServerProps.

Open Scope Z_scope.

(** ** The iterator *)

Definition key_lt (a b : Z * LogRecord) : Prop := a.1 < b.1.

Lemma sorted_records_sorted m : StronglySorted key_lt (sorted_records m).
Proof.
  assert (StronglySorted key_le (sorted_records m)) as Hs.
  { apply StronglySorted_merge_sort; [unfold Transitive, key_le; lia|]. intros a b. unfold key_le. lia. }
  assert (NoDup (sorted_records m).*1) as Hnd.
  { unfold sorted_records. rewrite merge_sort_Permutation. apply NoDup_fst_map_to_list. }
  induction Hs as [|[o r] l Hs IH Hf]; simpl in *; [constructor|].
  apply NoDup_cons in Hnd as [Hn Hnd]. constructor; [by apply IH|].
  rewrite Forall_forall in *. intros [o' r'] Hin. pose proof (Hf _ Hin). unfold key_lt, key_le in *.
  simpl in *. assert (o ≠ o'); [|lia]. intros ->. apply Hn, list_elem_of_fmap. by exists (o', r').
Qed.

Lemma filter_sorted (P : Z * LogRecord → Prop) `{!∀ x, Decision (P x)} l :
  StronglySorted key_lt l → StronglySorted key_lt (filter P l).
Proof.
  induction 1 as [|e l Hs IH Hf]; [constructor|]. rewrite filter_cons. case_decide; [|done].
  constructor; [done|]. rewrite Forall_forall in *. intros x [_ ?]%list_elem_of_filter. auto.
Qed.

Lemma sorted_cons_inv (e : Z * LogRecord) l :
  StronglySorted key_lt (e :: l) → StronglySorted key_lt l ∧ ∀ x, x ∈ l → e.1 < x.1.
Proof. intros [Hs Hf]%StronglySorted_inv. split; [done|]. by rewrite Forall_forall in Hf. Qed.

(** ** Digests *)

(** The digest says [s] of offset [o]. *)
Definition digest_says (es : list DigestEntry) (s : RecordStatus) (o : Z) : Prop :=
  ∃ e, e ∈ es ∧ de_status e = s ∧ de_from_offset e ≤ o ≤ de_to_offset e.

Definition entries_in_order (es : list DigestEntry) : Prop :=
  StronglySorted (λ e e', de_to_offset e < de_from_offset e') es ∧ Forall (λ e, de_from_offset e ≤ de_to_offset e) es.

Definition open_ok (pointer : Z) (open : option DigestEntry) : Prop :=
  match open with
  | None => True
  | Some e => de_status e = RsExists ∧ de_from_offset e ≤ de_to_offset e ∧ de_to_offset e = pointer - 1
  end.

Definition open_from (pointer : Z) (open : option DigestEntry) : Z :=
  match open with None => pointer | Some e => de_from_offset e end.

(** What the loop adds: entries for exactly the rows that are left, after the open one. *)
Record digest_adds (to_ : Z) (it : list (Z * LogRecord)) (pointer : Z) (open : option DigestEntry)
    (rs : list DigestEntry) : Prop := {
  da_says : ∀ o, digest_says rs RsExists o ↔
    digest_says (option_list open) RsExists o ∨ o ∈ it.*1 ∧ o ≤ to_;
  da_status : Forall (λ e, de_status e = RsExists ∧ open_from pointer open ≤ de_from_offset e) rs;
  da_order : entries_in_order rs }.

Lemma says_app es es' s o : digest_says (es ++ es') s o ↔ digest_says es s o ∨ digest_says es' s o.
Proof. unfold digest_says. setoid_rewrite elem_of_app. naive_solver. Qed.

Lemma says_one e s o :
  digest_says [e] s o ↔ de_status e = s ∧ de_from_offset e ≤ o ≤ de_to_offset e.
Proof. unfold digest_says. setoid_rewrite list_elem_of_singleton. naive_solver. Qed.

Lemma says_nil s o : ¬ digest_says [] s o.
Proof. by intros (e & ?%elem_of_nil & _). Qed.

Lemma digest_close to_ it pointer open :
  open_ok pointer open → (∀ o r, (o, r) ∈ it → to_ < o) →
  digest_adds to_ it pointer open (option_list open).
Proof.
  intros Ho Hto. split.
  - intros o. split; [by left|]. intros [?|[([o' r] & -> & H1%Hto)%list_elem_of_fmap H2]]; [done|].
    simpl in *. lia.
  - destruct open as [e|]; simpl; [|constructor]. apply Forall_singleton. split; [apply Ho|lia].
  - destruct open as [e|]; split; repeat constructor. apply Ho.
Qed.

(** The row is the next offset: the open entry is extended, or opened. *)
Lemma digest_extend to_ it pointer open r rs :
  open_ok pointer open → pointer ≤ to_ →
  let e := match open with
           | Some e => mkEntry (de_from_offset e) pointer (de_status e)
           | None => mkEntry pointer pointer RsExists
           end in
  digest_adds to_ it (pointer + 1) (Some e) rs → digest_adds to_ ((pointer, r) :: it) pointer open rs.
Proof.
  intros Ho Hp e [H1 H2 H3]. split; [|by destruct open|done].
  intros o. rewrite H1, fmap_cons, elem_of_cons. simpl option_list. rewrite says_one.
  destruct open as [e0|]; simpl option_list; rewrite ?says_one.
  - destruct Ho as (A & B & C). cbn [e de_status de_from_offset de_to_offset fst]. rewrite A.
    destruct (decide (o = pointer)); naive_solver lia.
  - pose proof (says_nil RsExists o). cbn [e de_status de_from_offset de_to_offset fst].
    destruct (decide (o = pointer)); naive_solver lia.
Qed.

(** The row is beyond it: the open entry is closed, and another one opened. *)
Lemma digest_reopen to_ it pointer offset open r rs :
  open_ok pointer open → pointer < offset → offset ≤ to_ →
  digest_adds to_ it (offset + 1) (Some (mkEntry offset offset RsExists)) rs →
  digest_adds to_ ((offset, r) :: it) pointer open (option_list open ++ rs).
Proof.
  intros Ho Hp Hto [H1 H2 H3]. simpl in H2. split.
  - intros o. rewrite says_app, H1, fmap_cons, elem_of_cons. simpl option_list. rewrite says_one.
    cbn [de_status de_from_offset de_to_offset fst].
    destruct (decide (o = offset)); naive_solver lia.
  - apply Forall_app. split.
    + destruct open as [e|]; simpl; [|constructor]. apply Forall_singleton. split; [apply Ho|lia].
    + eapply Forall_impl; [exact H2|]. intros x [? ?]. split; [done|]. unfold open_from.
      destruct open as [e0|]; [destruct Ho as (? & ? & ?)|]; lia.
  - destruct open as [e0|]; simpl; [|done]. destruct H3 as [H3 H4], Ho as (A & B & C).
    split; [|by constructor]. constructor; [done|]. eapply Forall_impl; [exact H2|]. intros x [_ ?]. lia.
Qed.

Lemma digest_loop_spec to_ it : ∀ pointer open entries,
  StronglySorted key_lt it → (∀ e, e ∈ it → pointer ≤ e.1 < u32_max) → open_ok pointer open →
  ∃ rs, digest_loop to_ it pointer open entries = Some (entries ++ rs)
    ∧ digest_adds to_ it pointer open rs.
Proof.
  induction it as [|[offset r] it IH]; intros pointer open entries Hs Hb Ho.
  - exists (option_list open). split; [done|]. apply digest_close; [done|]. by intros o ? ?%elem_of_nil.
  - apply sorted_cons_inv in Hs as [Hs Hlt]. cbn [fst] in Hlt.
    destruct (Hb (offset, r) ltac:(left)) as [Hp Hu]. cbn [fst] in Hp, Hu.
    assert (∀ e, e ∈ it → offset + 1 ≤ e.1 < u32_max) as Hb'.
    { intros e He. pose proof (Hlt _ He). destruct (Hb e ltac:(by right)). lia. }
    cbn [digest_loop]. destruct (Z.ltb_spec to_ pointer).
    { exists (option_list open). split; [done|]. apply digest_close; [done|].
      intros o r' Hin. destruct (Hb _ Hin). simpl in *. lia. }
    destruct (Z.compare_spec offset pointer) as [->|?|Hgt]; [|lia|].
    + set (e := match open with Some e => _ | None => _ end).
      assert (open_ok (pointer + 1) (Some e)) as He.
      { destruct open as [e0|]; simpl; [destruct Ho as (A & B & C)|]; split_and!; try done; lia. }
      rewrite offset_next_lt by done.
      destruct (IH (pointer + 1) (Some e) entries Hs Hb' He) as (rs & -> & Hrs).
      exists rs. split; [done|]. by apply digest_extend.
    + destruct (Z.ltb_spec to_ offset).
      { exists (option_list open). split; [done|]. apply digest_close; [done|].
        intros o r' [[= -> ->]|Hin]%elem_of_cons; [done|]. pose proof (Hlt _ Hin). simpl in *. lia. }
      rewrite offset_next_lt by done.
      destruct (IH (offset + 1) (Some (mkEntry offset offset RsExists)) (entries ++ option_list open) Hs Hb')
        as (rs & -> & Hrs); [simpl; split_and!; done || lia|].
      exists (option_list open ++ rs). split; [by rewrite app_assoc|]. by apply digest_reopen.
Qed.

(** The state of a loglet whose offsets leave room for a tail. *)
Definition reads_wf (st : LogletState) (m : gmap Z LogRecord) : Prop :=
  0 ≤ ls_trim_point st < u32_max ∧ 1 ≤ tail_offset (ls_local_tail st) ≤ u32_max
  ∧ ∀ o, is_Some (m !! o) → 1 ≤ o < u32_max.

(** C21: digests are exact.  The digest of a range is never a panic; it says of exactly
    the offsets up to the trim point that they are trimmed, and of exactly the offsets
    above it, and below the local tail, that the store has a record of that they exist;
    its entries are not empty, in order, and do not overlap. *)
Theorem digest_exact from to_ st m :
  reads_wf st m → 0 ≤ from ≤ to_ →
  ∃ es, get_records_digest from to_ st m = Some es
    ∧ (∀ o, digest_says es RsTrimmed o ↔ from ≤ o ≤ ls_trim_point st)
    ∧ (∀ o, digest_says es RsExists o ↔
         is_Some (m !! o) ∧ from ≤ o ∧ ls_trim_point st < o ∧ o ≤ read_to_offset to_ (ls_local_tail st))
    ∧ entries_in_order es.
Proof.
  intros (Ht & Htail & Hm) Hft. unfold get_records_digest.
  set (trim := ls_trim_point st) in *. set (to' := read_to_offset _ _).
  assert (to' < u32_max) as Hto.
  { unfold to', read_to_offset, offset_prev, saturating_sub, LogletOffset_OLDEST. lia. }
  assert (read_from_offset from trim = Z.max from (trim + 1)) as Hrf
    by (unfold read_from_offset; rewrite offset_next_lt; lia).
  rewrite Hrf. set (from' := Z.max from (trim + 1)) in *.
  destruct (Z.eqb_spec to' u32_max); [lia|]. rewrite offset_next_lt by done.
  set (it := filter _ _).
  assert (∀ o r, (o, r) ∈ it ↔ m !! o = Some r ∧ from' ≤ o ≤ to') as Hit.
  { intros o r. unfold it, seek. rewrite !list_elem_of_filter, sorted_records_elem. simpl. naive_solver lia. }
  set (head := if from <? from' then _ else _).
  destruct (digest_loop_spec to' it from' None head) as (rs & -> & [H1 H2 [H3 H4]]).
  { by apply filter_sorted, filter_sorted, sorted_records_sorted. }
  { intros [o r] [Ho ?]%Hit. destruct (Hm o); [by eexists|]. simpl. lia. }
  { done. }
  simpl option_list in H1. simpl open_from in H2.
  assert (∀ o, ¬ digest_says rs RsTrimmed o) as Hnt.
  { intros o (e & He & Hs & _). rewrite Forall_forall in H2. destruct (H2 _ He). congruence. }
  assert (∀ s o, digest_says head s o ↔ s = RsTrimmed ∧ from ≤ o ≤ trim) as Hhead.
  { intros s o. unfold head. destruct (Z.ltb_spec from from'); [rewrite says_one|].
    - unfold offset_prev_unchecked, saturating_sub. cbn [de_status de_from_offset de_to_offset].
      naive_solver lia.
    - split; [by intros ?%says_nil|lia]. }
  exists (head ++ rs). split_and!; [done| | |].
  - intros o. rewrite says_app, Hhead. pose proof (Hnt o). tauto.
  - intros o. rewrite says_app, Hhead, H1. pose proof (says_nil RsExists o).
    assert (o ∈ it.*1 ↔ is_Some (m !! o) ∧ from' ≤ o ≤ to') as ->.
    { split.
      - intros ([o' r] & -> & [? ?]%Hit)%list_elem_of_fmap. split; [by eexists|done].
      - intros [[r Hr] ?]. apply list_elem_of_fmap. exists (o, r). split; [done|]. by apply Hit. }
    split; [intros [[? _]|[?|?]]; [done|done|]; intuition lia|intuition lia].
  - unfold head, entries_in_order. destruct (Z.ltb_spec from from'); [|done].
    unfold offset_prev_unchecked, saturating_sub. simpl. split; constructor; simpl; try done; [|lia].
    eapply Forall_impl; [exact H2|]. intros e [_ ?]. simpl. lia.
Qed.

(** ** Reads *)

Section Reads.
Context (later_trim : Z → Z) (filt : KeyFilter) (from to_ : Z).
Hypothesis Hlater : ∀ o, later_trim o < u32_max.

(** What a read says of a record. *)
Definition shown (e : Z * LogRecord) : Z * MaybeRecord :=
  if matches_key_query (rec_keys e.2) filt then (e.1, MrData e.2) else (e.1, MrFilteredGap e.1).

(** The rows that a read which goes on at [lo] and ends before [next] reports. *)
Definition rows (lo next : Z) (it : list (Z * LogRecord)) : list (Z * LogRecord) :=
  filter (λ e, lo ≤ e.1 ∧ e.1 < next ∧ e.1 ≤ to_) it.

Lemma rows_none lo next it : (∀ e, e ∈ it → lo ≤ e.1 → e.1 < next → e.1 ≤ to_ → False) → rows lo next it = [].
Proof.
  intros He. unfold rows. induction it as [|e it IH]; [done|]. rewrite filter_cons_False.
  - apply IH. intros x Hx. apply He. by right.
  - intros (A & B & C). by apply (He e ltac:(left)).
Qed.

Lemma rows_skip lo next e it : e.1 < lo → rows lo next (e :: it) = rows lo next it.
Proof. intros He. unfold rows. rewrite filter_cons_False; [done|]. lia. Qed.

Lemma rows_take lo next e it :
  (∀ x, x ∈ it → e.1 < x.1) → lo ≤ e.1 → e.1 ≤ to_ → e.1 < next →
  rows lo next (e :: it) = e :: rows (e.1 + 1) next it.
Proof.
  intros Hlt Hlo Hto Hn. unfold rows. rewrite filter_cons_True by done. f_equal.
  induction it as [|x it IH]; [done|]. pose proof (Hlt x ltac:(left)).
  assert (∀ y, y ∈ it → e.1 < y.1) as Hlt' by (intros y Hy; apply Hlt; by right).
  rewrite !filter_cons, IH by done. repeat case_decide; done || lia.
Qed.

(** How a read that starts at [pointer] ends: it goes on after the records that it
    had, or it met a trim point and starts again after it. *)
Inductive read_result (it : list (Z * LogRecord)) (pointer next : Z) (records : list (Z * MaybeRecord))
    : list (Z * MaybeRecord) → Prop :=
| read_on : read_result it pointer next records (records ++ (shown <$> rows pointer next it))
| read_trimmed o r :
    (o, r) ∈ it → pointer < o ≤ later_trim o → later_trim o < next →
    read_result it pointer next records
      ((from, MrTrimGap (later_trim o)) :: (shown <$> rows (later_trim o + 1) next it)).

(** Everything up to [to_] is reported, or the next record did not fit. *)
Definition read_ends (it : list (Z * LogRecord)) (pointer next : Z) (first : bool) : Prop :=
  (∀ e, e ∈ it → next ≤ e.1 → to_ < e.1)
  ∨ (∃ r, (next, r) ∈ it) ∧ next ≤ to_ ∧ (first = false → pointer < next).

Lemma read_result_skip e it pointer next records rs :
  e.1 < pointer → read_result it pointer next records rs → read_result (e :: it) pointer next records rs.
Proof.
  intros He [|o r Hin Ho Hn].
  - rewrite <- (rows_skip pointer next e it) by done. constructor.
  - rewrite <- (rows_skip (later_trim o + 1) next e it) by lia. econstructor; [by right|done|done].
Qed.

Lemma read_ends_skip e it pointer next first :
  e.1 < next → read_ends it pointer next first → read_ends (e :: it) pointer next first.
Proof.
  intros He [Hall|([r Hr] & H1 & H2)].
  - left. intros x [->|Hx]%elem_of_cons; [lia|auto].
  - right. split_and!; try done. exists r. by right.
Qed.

Lemma read_nothing it pointer next records :
  (∀ e, e ∈ it → pointer ≤ e.1 → e.1 < next → e.1 ≤ to_ → False) →
  read_result it pointer next records records.
Proof.
  intros Hn. pose proof (read_on it pointer next records) as Hr.
  by rewrite (rows_none _ _ _ Hn), app_nil_r in Hr.
Qed.

(** The row is reported. *)
Lemma read_result_take e it pointer next records rs :
  (∀ x, x ∈ it → e.1 < x.1) → pointer ≤ e.1 → e.1 ≤ to_ → e.1 + 1 ≤ next →
  read_result it (e.1 + 1) next (records ++ [shown e]) rs →
  read_result (e :: it) pointer next records rs.
Proof.
  intros Hlt Hp Hto Hn [|o r Hin Ho Hn'].
  - rewrite <- app_assoc. pose proof (read_on (e :: it) pointer next records) as Hr.
    rewrite (rows_take pointer next e it) in Hr by (done || lia). done.
  - rewrite <- (rows_skip (later_trim o + 1) next e it) by lia.
    apply (read_trimmed _ _ _ _ o r); [by right|lia|done].
Qed.

(** The row is trimmed by now. *)
Lemma read_result_trim offset r it pointer next records rs :
  (∀ x, x ∈ it → offset < x.1) → pointer < offset ≤ later_trim offset → later_trim offset < next →
  read_result it (later_trim offset + 1) next [(from, MrTrimGap (later_trim offset))] rs →
  read_result ((offset, r) :: it) pointer next records rs.
Proof.
  intros Hlt Hp Hn [|o r' Hin Ho Hn'].
  - simpl. rewrite <- (rows_skip (later_trim offset + 1) next (offset, r) it) by (simpl; lia).
    by apply (read_trimmed _ _ _ _ offset r); [left|..].
  - pose proof (Hlt _ Hin) as Hlo. simpl in Hlo.
    rewrite <- (rows_skip (later_trim o + 1) next (offset, r) it) by (simpl; lia).
    apply (read_trimmed _ _ _ _ o r'); [by right|lia|done].
Qed.

Lemma read_ends_mono it pointer pointer' next first first' :
  pointer < pointer' → pointer' ≤ next → read_ends it pointer' next first' → read_ends it pointer next first.
Proof. intros Hp Hn [?|(? & ? & ?)]; [by left|right]. split_and!; [done..|]. lia. Qed.

Lemma read_loop_spec it : ∀ pointer budget first records,
  to_ < u32_max → StronglySorted key_lt it → (∀ e, e ∈ it → e.1 < u32_max) →
  let '(next, rs) := read_loop later_trim filt from to_ it pointer budget first records in
  pointer ≤ next ∧ read_result it pointer next records rs ∧ read_ends it pointer next first.
Proof.
  induction it as [|[offset r] it IH]; intros pointer budget first records Hto Hs Hb; cbn [read_loop].
  { split_and!; [done|apply read_nothing|left]; by intros e ?%elem_of_nil. }
  apply sorted_cons_inv in Hs as [Hs Hlt]. simpl in Hlt.
  assert (∀ e, e ∈ it → e.1 < u32_max) as Hb' by (intros e He; apply Hb; by right).
  pose proof (Hb (offset, r) ltac:(left)) as Hu. simpl in Hu.
  assert (∀ e, e ∈ (offset, r) :: it → offset ≤ e.1) as Hge.
  { intros e [->|He%Hlt]%elem_of_cons; simpl; lia. }
  destruct (Z.ltb_spec offset pointer) as [Hsk|Hsk].
  { specialize (IH pointer budget first records Hto Hs Hb').
    destruct (read_loop _ _ _ _ _ _ _ _ _) as [next rs]. destruct IH as (A & B & C).
    split_and!; [done|by apply read_result_skip|apply read_ends_skip; [simpl; lia|done]]. }
  destruct (Z.ltb_spec to_ pointer).
  { split_and!; [done| |].
    - apply read_nothing. intros e He. pose proof (Hge e He). lia.
    - left. intros e He. pose proof (Hge e He). lia. }
  destruct (Z.ltb_spec to_ offset).
  { rewrite offset_next_lt by done. split_and!; [lia| |].
    - apply read_nothing. intros e He. pose proof (Hge e He). lia.
    - left. intros e He. pose proof (Hge e He). lia. }
  destruct (_ && (offset <=? later_trim offset)) eqn:Htrim.
  { apply andb_true_iff in Htrim as [H1%Z.ltb_lt H2%Z.leb_le].
    rewrite offset_next_lt by apply Hlater.
    specialize (IH (later_trim offset + 1) budget first [(from, MrTrimGap (later_trim offset))] Hto Hs Hb').
    destruct (read_loop _ _ _ _ _ _ _ _ _) as [next rs]. destruct IH as (A & B & C).
    split_and!; [lia|apply read_result_trim; (done || lia)|].
    apply read_ends_skip; [simpl; lia|]. eapply read_ends_mono, C; lia. }
  rewrite !offset_next_lt by done.
  assert (∀ budget first', let '(next, rs) := read_loop later_trim filt from to_ it (offset + 1) budget first'
      (records ++ [shown (offset, r)]) in
    pointer ≤ next ∧ read_result ((offset, r) :: it) pointer next records rs
      ∧ read_ends ((offset, r) :: it) pointer next first) as Htake.
  { intros budget' first'. specialize (IH (offset + 1) budget' first' (records ++ [shown (offset, r)]) Hto Hs Hb').
    destruct (read_loop _ _ _ _ _ _ _ _ _) as [next rs]. destruct IH as (A & B & C).
    split_and!; [lia|apply read_result_take; (done || simpl; lia)|].
    apply read_ends_skip; [simpl; lia|]. eapply read_ends_mono, C; lia. }
  unfold shown in Htake. cbn [fst snd] in Htake.
  destruct (matches_key_query (rec_keys r) filt); cbn [negb]; [|apply Htake].
  destruct first; cbn [andb]; [|apply Htake]. destruct (budget <? decoder_size r); [|apply Htake].
  split_and!; [done| |].
  - apply read_nothing. intros e He. pose proof (Hge e He). lia.
  - right. split_and!; [by exists r; left|done|done].
Qed.

(** *** The byte limit *)

Definition bytes_of_records (l : list LogRecord) : Z := foldr (λ r n, decoder_size r + n) 0 l.
(** The records that a read returns. *)
Definition data_of (rs : list (Z * MaybeRecord)) : list LogRecord :=
  omap (λ e, match e.2 with MrData r => Some r | _ => None end) rs.
(** The matching records of the store in a range. *)
Definition wanted (lo next : Z) (it : list (Z * LogRecord)) : list LogRecord :=
  filter (λ r, matches_key_query (rec_keys r) filt = true) (rows lo next it).*2.
(** The first record is returned whatever its size. *)
Definition fits (limit : Z) (l : list LogRecord) : Prop :=
  (List.length l ≤ 1)%nat ∨ bytes_of_records l ≤ limit.

Lemma decoder_size_pos r : 0 < decoder_size r.
Proof. unfold decoder_size. lia. Qed.
Lemma bytes_nonneg l : 0 ≤ bytes_of_records l.
Proof. induction l as [|r l IH]; simpl; [lia|]. pose proof (decoder_size_pos r). lia. Qed.
Lemma bytes_snoc l r : bytes_of_records (l ++ [r]) = bytes_of_records l + decoder_size r.
Proof. induction l as [|x l IH]; simpl; lia. Qed.

Lemma wanted_cons lo next e it :
  bytes_of_records (wanted lo next (e :: it)) =
  (if bool_decide (lo ≤ e.1 ∧ e.1 < next ∧ e.1 ≤ to_) && matches_key_query (rec_keys e.2) filt
   then decoder_size e.2 else 0) + bytes_of_records (wanted lo next it).
Proof.
  unfold wanted, rows. rewrite filter_cons. case_bool_decide as H; [|by rewrite decide_False].
  rewrite decide_True by done. rewrite fmap_cons, filter_cons. simpl.
  case_decide as Hm; [by rewrite Hm|]. by destruct (matches_key_query _ _).
Qed.

Lemma wanted_mono lo lo' next e it :
  lo ≤ lo' → bytes_of_records (wanted lo' next it) ≤ bytes_of_records (wanted lo next (e :: it)).
Proof.
  intros Hlo. rewrite wanted_cons. pose proof (decoder_size_pos e.2) as He.
  assert (bytes_of_records (wanted lo' next it) ≤ bytes_of_records (wanted lo next it)) as Hs.
  { induction it as [|x it IH]; [done|]. rewrite !wanted_cons. pose proof (decoder_size_pos x.2).
    destruct (matches_key_query (rec_keys x.2) filt); rewrite ?andb_false_r, ?andb_true_r; [|lia].
    repeat case_bool_decide; lia. }
  destruct (_ && _); lia.
Qed.

Lemma wanted_take lo next e it :
  (∀ x, x ∈ it → e.1 < x.1) → lo ≤ e.1 → e.1 ≤ to_ → e.1 < next →
  matches_key_query (rec_keys e.2) filt = true →
  bytes_of_records (wanted lo next (e :: it)) = decoder_size e.2 + bytes_of_records (wanted (e.1 + 1) next it).
Proof.
  intros Hlt Hlo Hto Hn Hm. unfold wanted. rewrite rows_take by done. rewrite fmap_cons, filter_cons.
  by rewrite decide_True.
Qed.

(** What is returned fits, and a record at [next] did not fit any more; [spent] is
    the size of the records that were read, also of those that a trim gap replaced. *)
Lemma read_loop_budget limit it : ∀ pointer budget spent first records,
  limit - spent ≤ budget ≤ Z.max 0 (limit - spent) →
  bytes_of_records (data_of records) ≤ spent → (first = false → spent = 0 ∧ data_of records = []) →
  fits limit (data_of records) →
  to_ < u32_max → StronglySorted key_lt it → (∀ e, e ∈ it → e.1 < u32_max) →
  let '(next, rs) := read_loop later_trim filt from to_ it pointer budget first records in
  fits limit (data_of rs) ∧
  (∀ r, (next, r) ∈ it → next ≤ to_ → matches_key_query (rec_keys r) filt = true ∧
     limit < spent + bytes_of_records (wanted pointer next it) + decoder_size r).
Proof.
  induction it as [|[offset r] it IH]; intros pointer budget spent first records Hbg Hsp Hfirst Hfit Hto Hs Hb.
  { cbn [read_loop]. split; [done|]. by intros r ?%elem_of_nil. }
  pose proof (read_loop_spec ((offset, r) :: it) pointer budget first records Hto Hs Hb) as Hsp1.
  apply sorted_cons_inv in Hs as [Hs Hlt]. simpl in Hlt.
  assert (∀ e, e ∈ it → e.1 < u32_max) as Hb' by (intros e He; apply Hb; by right).
  pose proof (Hb (offset, r) ltac:(left)) as Hu. simpl in Hu. cbn [read_loop] in *.
  destruct (Z.ltb_spec offset pointer) as [Hsk|Hsk].
  { specialize (IH pointer budget spent first records Hbg Hsp Hfirst Hfit Hto Hs Hb').
    destruct (read_loop _ _ _ _ _ _ _ _ _) as [next rs]. destruct IH as (A & B), Hsp1 as (Hn & _).
    split; [done|]. intros r' [[= -> ->]|Hin]%elem_of_cons Hle; [lia|].
    destruct (B r' Hin Hle) as [Hm Hl]. split; [done|].
    pose proof (wanted_mono pointer pointer next (offset, r) it ltac:(lia)). lia. }
  destruct (Z.ltb_spec to_ pointer); [split; [done|lia]|].
  destruct (Z.ltb_spec to_ offset).
  { rewrite offset_next_lt by done. split; [done|lia]. }
  destruct (_ && (offset <=? later_trim offset)) eqn:Htrim.
  { apply andb_true_iff in Htrim as [H1%Z.ltb_lt H2%Z.leb_le]. rewrite offset_next_lt in * by apply Hlater.
    pose proof (bytes_nonneg (data_of records)).
    specialize (IH (later_trim offset + 1) budget spent first [(from, MrTrimGap (later_trim offset))]).
    pose proof (read_loop_spec it (later_trim offset + 1) budget first
      [(from, MrTrimGap (later_trim offset))] Hto Hs Hb') as Hsp2.
    destruct (read_loop _ _ _ _ _ _ _ _ _) as [next rs]. destruct Hsp2 as (Hn & _).
    destruct IH as (A & B); [done|simpl; lia|intros Hf; by destruct (Hfirst Hf)|left; simpl; lia|done..|].
    split; [done|]. intros r' [[= -> ->]|Hin]%elem_of_cons Hle; [lia|].
    destruct (B r' Hin Hle) as [Hm Hl]. split; [done|].
    pose proof (wanted_mono pointer (later_trim offset + 1) next (offset, r) it ltac:(lia)). lia. }
  rewrite !offset_next_lt in * by done.
  destruct (matches_key_query (rec_keys r) filt) eqn:Hmatch; cbn [negb] in *.
  2: { specialize (IH (offset + 1) budget spent first (records ++ [(offset, MrFilteredGap offset)])).
    unfold data_of in IH. rewrite omap_app, app_nil_r in IH. fold (data_of records) in IH.
    pose proof (read_loop_spec it (offset + 1) budget first
      (records ++ [(offset, MrFilteredGap offset)]) Hto Hs Hb') as Hsp2.
    destruct (read_loop _ _ _ _ _ _ _ _ _) as [next rs]. destruct Hsp2 as (Hn & _).
    destruct IH as (A & B); [done..|]. split; [done|].
    intros r' [[= -> ->]|Hin]%elem_of_cons Hle; [lia|].
    destruct (B r' Hin Hle) as [Hm Hl]. split; [done|].
    pose proof (wanted_mono pointer (offset + 1) next (offset, r) it ltac:(lia)). lia. }
  destruct (first && (budget <? decoder_size r)) eqn:Hstop.
  { apply andb_true_iff in Hstop as [_ Hlt2%Z.ltb_lt]. split; [done|].
    intros r' [[= ->]|Hin%Hlt]%elem_of_cons Hle; [|simpl in Hin; lia]. split; [done|].
    pose proof (bytes_nonneg (wanted pointer offset ((offset, r) :: it))). lia. }
  pose proof (decoder_size_pos r) as Hpos. pose proof (bytes_nonneg (data_of records)) as Hnn.
  specialize (IH (offset + 1) (saturating_sub budget (decoder_size r)) (spent + decoder_size r) true (records ++ [(offset, MrData r)])).
  unfold data_of in IH. rewrite omap_app in IH. cbn [omap list_omap snd] in IH. fold (data_of records) in IH.
  rewrite bytes_snoc in IH.
  pose proof (read_loop_spec it (offset + 1) (saturating_sub budget (decoder_size r)) true
    (records ++ [(offset, MrData r)]) Hto Hs Hb') as Hsp2.
  destruct (read_loop _ _ _ _ _ _ _ _ _) as [next rs]. destruct Hsp2 as (Hn & _).
  destruct IH as (A & B); [unfold saturating_sub; lia|lia|done| |done..|].
  { unfold fits. destruct first; cbn [andb] in Hstop.
    - apply Z.ltb_ge in Hstop. right. rewrite bytes_snoc. lia.
    - destruct (Hfirst eq_refl) as [_ ->]. left. simpl. lia. }
  split; [done|]. intros r' [[= -> ->]|Hin]%elem_of_cons Hle; [lia|].
  destruct (B r' Hin Hle) as [Hm Hl]. split; [done|].
  rewrite (wanted_take pointer next (offset, r) it) by (done || simpl; lia). simpl. lia.
Qed.
End Reads.

(** C22: reads are exact.  A read returns, in the order of their offsets, one entry for
    every record of the store from its first offset on that is above the trim point and
    below [next_offset]: the record itself, or a filtered gap of it when its keys do not
    match.  If offsets from the first one on are trimmed, a gap up to the trim point
    comes first; the trim point may have moved while the read went on.  The records
    returned fit into the byte limit, unless there is only one.  The read ends at the
    clipped end of the range, or in front of a matching record with which the matching
    records from the start of the read on exceed the limit, and in that case it got past
    the first offset. *)
Theorem read_records_exact later_trim msg st m :
  reads_wf st m → 0 ≤ gr_from_offset msg → (∀ o, later_trim o < u32_max) →
  let '(next, rs) := read_records later_trim msg st m in
  let from := gr_from_offset msg in
  let to_ := read_to_offset (gr_to_offset msg) (ls_local_tail st) in
  let limit := default u64_max (gr_total_limit_in_bytes msg) in
  fits limit (data_of rs) ∧
  ∃ trim, ls_trim_point st ≤ trim
    ∧ (trim = ls_trim_point st ∨ ∃ o, is_Some (m !! o) ∧ o ≤ trim ∧ trim = later_trim o)
    ∧ rs = (if from <=? trim then [(from, MrTrimGap trim)] else [])
           ++ (shown (gr_filter msg) <$> rows to_ (Z.max from (trim + 1)) next (sorted_records m))
    ∧ ((∀ o, is_Some (m !! o) → next ≤ o → to_ < o)
       ∨ ∃ r, m !! next = Some r ∧ next ≤ to_ ∧ Z.max from (ls_trim_point st + 1) < next
              ∧ matches_key_query (rec_keys r) (gr_filter msg) = true
              ∧ limit < bytes_of_records (wanted (gr_filter msg) to_ (Z.max from (ls_trim_point st + 1)) next
                                            (sorted_records m)) + decoder_size r).
Proof.
  intros (Ht & Htail & Hm) Hf Hlater. unfold read_records.
  set (from := gr_from_offset msg) in *. set (trim := ls_trim_point st) in *. set (to_ := read_to_offset _ _).
  assert (to_ < u32_max) as Hto.
  { unfold to_, read_to_offset, offset_prev, saturating_sub, LogletOffset_OLDEST. lia. }
  assert (read_from_offset from trim = Z.max from (trim + 1)) as ->
    by (unfold read_from_offset; rewrite offset_next_lt; lia).
  set (pointer := Z.max from (trim + 1)). set (gap := if from <? pointer then _ else _).
  set (limit := default _ _).
  assert (∀ lo next, pointer ≤ lo → rows to_ lo next (seek pointer m) = rows to_ lo next (sorted_records m)) as Hrows.
  { intros lo next Hlo. unfold rows, seek. rewrite list_filter_filter. apply list_filter_iff. intros e. lia. }
  assert (∀ o r, (o, r) ∈ seek pointer m ↔ m !! o = Some r ∧ pointer ≤ o) as Hit.
  { intros o r. unfold seek. rewrite list_elem_of_filter, sorted_records_elem. simpl. tauto. }
  assert (StronglySorted key_lt (seek pointer m)) as Hss by (by apply filter_sorted, sorted_records_sorted).
  assert (∀ e, e ∈ seek pointer m → e.1 < u32_max) as Hbd.
  { intros [o r] [Hr _]%Hit. destruct (Hm o); [by eexists|done]. }
  assert (data_of gap = []) as Hgap by (unfold gap; by destruct (_ <? _)).
  pose proof (read_loop_spec later_trim (gr_filter msg) from to_ Hlater (seek pointer m) pointer
    limit false gap Hto Hss Hbd) as Hspec.
  pose proof (read_loop_budget later_trim (gr_filter msg) from to_ Hlater limit (seek pointer m) pointer
    limit 0 false gap) as Hbud. rewrite Hgap in Hbud.
  destruct (read_loop _ _ _ _ _ _ _ _ _) as [next rs]. destruct Hspec as (Hn & Hres & Hends).
  destruct Hbud as [Hfit Hstop]; [lia|done|done|left; simpl; lia|done..|]. split; [done|].
  assert ((∀ o, is_Some (m !! o) → next ≤ o → to_ < o)
       ∨ ∃ r, m !! next = Some r ∧ next ≤ to_ ∧ pointer < next
              ∧ matches_key_query (rec_keys r) (gr_filter msg) = true
              ∧ limit < bytes_of_records (wanted (gr_filter msg) to_ pointer next (sorted_records m))
                        + decoder_size r) as Hend.
  { destruct Hends as [Hall|([r Hr] & H1 & H2)]; [left|right].
    - intros o [r Hr] Ho. apply (Hall (o, r)); [|done]. apply Hit. split; [done|lia].
    - destruct (Hstop r Hr H1) as [Hmk Hlim]. apply Hit in Hr as [Hr _]. unfold wanted in Hlim.
      rewrite Hrows in Hlim by done. exists r. split_and!; [done|done|by apply H2|done|done]. }
  destruct Hres as [|o r Hin Ho Hlt].
  - exists trim. split_and!; [done|by left| |done]. rewrite Hrows by done. f_equal. unfold gap.
    unfold offset_prev_unchecked, saturating_sub.
    destruct (Z.ltb_spec from pointer), (Z.leb_spec from trim); try done; try lia.
    repeat f_equal. lia.
  - apply Hit in Hin as [Hr _]. exists (later_trim o). split_and!; [lia| | |done].
    + right. exists o. split_and!; [by eexists|lia|done].
    + destruct (Z.leb_spec from (later_trim o)); [|lia].
      rewrite Hrows by lia. simpl. do 2 f_equal. f_equal. lia.
Qed.

(** ** An example *)

Definition read_demo_record (o : Z) : LogRecord :=
  {| rec_created_at := o; rec_keys := KeysSingle o; rec_body := "body" |}.
(** A store without offset 4, trimmed up to 2. *)
Definition read_demo_records : gmap Z LogRecord :=
  list_to_map ((λ o, (o, read_demo_record o)) <$> [3; 5; 6]).
Definition read_demo_state : LogletState := mkLogletState None (TailOpen 7) 2 6.
Definition read_demo_msg : GetRecords :=
  {| gr_total_limit_in_bytes := Some 20; gr_filter := FilterWithin 5 9; gr_from_offset := 1; gr_to_offset := 9 |}.

Lemma read_demo_wf : reads_wf read_demo_state read_demo_records.
Proof.
  unfold reads_wf. cbn [read_demo_state ls_trim_point ls_local_tail tail_offset]. split_and!; [lia..|]. intros o [r Hr].
  apply elem_of_list_to_map_2 in Hr. simpl in Hr. rewrite !elem_of_cons, elem_of_nil in Hr.
  destruct Hr as [[= -> _]|[[= -> _]|[[= -> _]|[]]]]; lia.
Defined.

Example read_demo_result :
  read_records (λ _, 2) read_demo_msg read_demo_state read_demo_records =
    (6, [(1, MrTrimGap 2); (3, MrFilteredGap 3); (5, MrData (read_demo_record 5))]).
Proof. vm_compute. reflexivity. Qed.

Lemma digest_exact_witness :
  ∃ es, get_records_digest 1 9 read_demo_state read_demo_records = Some es
    ∧ (∀ o, digest_says es RsTrimmed o ↔ 1 ≤ o ≤ 2)
    ∧ (∀ o, digest_says es RsExists o ↔ is_Some (read_demo_records !! o) ∧ 1 ≤ o ∧ 2 < o ∧ o ≤ 6)
    ∧ entries_in_order es.
Proof.
  apply (digest_exact 1 9 read_demo_state read_demo_records); [apply read_demo_wf|lia].
Defined.

Lemma read_records_exact_witness :
  let '(next, rs) := read_records (λ _, 2) read_demo_msg read_demo_state read_demo_records in
  fits 20 (data_of rs) ∧
  ∃ trim, 2 ≤ trim
    ∧ (trim = 2 ∨ ∃ o : Z, is_Some (read_demo_records !! o) ∧ o ≤ trim ∧ trim = 2)
    ∧ rs = (if 1 <=? trim then [(1, MrTrimGap trim)] else [])
           ++ (shown (FilterWithin 5 9) <$> rows 6 (Z.max 1 (trim + 1)) next (sorted_records read_demo_records))
    ∧ ((∀ o, is_Some (read_demo_records !! o) → next ≤ o → 6 < o)
       ∨ ∃ r, read_demo_records !! next = Some r ∧ next ≤ 6 ∧ Z.max 1 3 < next
              ∧ matches_key_query (rec_keys r) (FilterWithin 5 9) = true
              ∧ 20 < bytes_of_records (wanted (FilterWithin 5 9) 6 (Z.max 1 3) next
                                         (sorted_records read_demo_records)) + decoder_size r).
Proof.
  apply (read_records_exact (λ _, 2) read_demo_msg read_demo_state read_demo_records).
  - apply read_demo_wf.
  - vm_compute. congruence.
  - intros _. lia.
Defined.
