(* ===== verification/ReplicatedLoglet.v ===== *)
(** * ReplicatedLoglet: the tasks that read and write a replicated loglet

    Models crates/bifrost/src/providers/replicated_loglet: the sequencer that gives
    offsets to batches and its appenders, which store a batch on a write quorum
    (sequencer.rs, sequencer/appender.rs, replication/spread_selector.rs); the tasks that
    seal the loglet, find its tail, repair the tail and trim it (tasks/); and the stream
    that reads it (read_path/read_stream_task.rs).

    A task is a record with one function for each thing that can happen to it: an answer
    of a log server, a failed request, the end of a wait.  A function whose result is an
    [option] is [None] where the code panics.  The nodes configuration does not change. *)

From stdpp Require Import strings gmap sorting.
From S2P Require Import Prelude BTreeMap LogTypes Locality Replication LogChain NodesConfig NodeSetChecker Quorums LogServer.

Open Scope Z_scope.

(** The loglet and the configuration of the nodes. *)
Class LogletEnv := {
  le_params : ReplicatedLogletParams;
  le_config : NodesConfiguration }.

Section Loglet.
Context `{!LogletEnv}.

Definition nodeset : list Z := rlp_nodeset le_params.
Definition effective_nodeset : list Z := to_effective nodeset le_config.

(** A checker over the whole node set, and over the effective one. *)
Definition new_checker {Attr} `{Countable Attr} : option (NodeSetChecker (Attr := Attr)) :=
  NodeSetChecker_new nodeset le_config (rlp_replication le_params).
Definition new_effective_checker {Attr} `{Countable Attr} : option (NodeSetChecker (Attr := Attr)) :=
  NodeSetChecker_new effective_nodeset le_config (rlp_replication le_params).

(** ** Watches of a tail *)

Definition watch_notify (sealed : bool) (offset : Z) (t : TailState) : TailState := (tail_combine t sealed offset).1.
Definition watch_offset (offset : Z) (t : TailState) : TailState := (tail_combine t false offset).1.
Definition watch_seal (t : TailState) : TailState := (tail_seal t).1.
(** The condition of [wait_for_offset_or_seal]. *)
Definition offset_or_seal (offset : Z) (t : TailState) : bool :=
  match t with TailSealed _ => true | TailOpen tail => offset <=? tail end.

(** ** The spread selector *)

(** [select] with the strategy [Flood], up to the order of the nodes: [Ok None] is the
    error that there are too few nodes. *)
Definition select (exclude_nodes : gset Z) : option (option (list Z)) :=
  let writeable := filter (λ n, n ∉ exclude_nodes ∧ can_write_to (get_log_server_storage_state le_config n) = true) nodeset in
  let! copies := num_copies (rlp_replication le_params) in
  if Z.of_nat (length writeable) <? copies then Some None
  else
    let! checker := new_checker (Attr := bool) in
    let checker := set_attribute_on_each writeable true checker in
    Some (if check_write_quorum (λ a, a) checker then Some writeable else None).

Definition select_fixups (existing_copies exclude_nodes : gset Z) : option (option (list Z)) :=
  let! selected := select exclude_nodes in
  Some (filter (λ n, n ∉ existing_copies) <$> selected).

(** ** The appender *)

(** [ApSending]: in the loop of [send_wave]. *)
Inductive AppenderState := ApWave | ApSending | ApBackoff | ApDone | ApSealed | ApCancelled | ApWriteUnavailable.

#[export] Instance AppenderState_eq_dec : EqDecision AppenderState.
Proof. solve_decision. Defined.

Record NodeAttributes := mkAttrs { na_committed : bool; na_sealed : bool }.

Definition attr_committed : NodeAttributes := mkAttrs true false.
Definition attr_sealed : NodeAttributes := mkAttrs false true.

#[export] Instance NodeAttributes_eq_dec : EqDecision NodeAttributes.
Proof. solve_decision. Defined.
#[export] Instance NodeAttributes_countable : Countable NodeAttributes.
Proof. apply (inj_countable' (λ a, (na_committed a, na_sealed a)) (λ p, mkAttrs p.1 p.2)). by intros []. Defined.

Inductive Failure := FailStatus (s : Status) | FailRpc.

Inductive PerNodeStatus :=
| PnNotAttempted
| PnFailed (attempts : Z) (last_err : Failure)
| PnCommitted
| PnSealed.

Definition pn_failed_with_status (s : Status) : PerNodeStatus := PnFailed 1 (FailStatus s).

(** [Merge]: what is shown of a node.  A node that has the batch stays committed. *)
Definition pn_merge (a b : PerNodeStatus) : PerNodeStatus * bool :=
  match a, b with
  | PnNotAttempted, PnNotAttempted => (a, false)
  | PnCommitted, PnCommitted => (a, false)
  | PnNotAttempted, e => (e, true)
  | PnCommitted, _ => (a, false)
  | PnFailed a1 _, PnFailed a2 last_err => (PnFailed (a1 + a2) last_err, true)
  | _, PnCommitted => (PnCommitted, true)
  | PnSealed, PnSealed => (a, false)
  | _, PnSealed => (PnSealed, true)
  | PnSealed, _ => (a, false)
  | _, _ => (a, false)
  end.

Definition status_merge (node : Z) (s : PerNodeStatus) (m : gmap Z PerNodeStatus) : gmap Z PerNodeStatus :=
  <[ node := (pn_merge (default PnNotAttempted (m !! node)) s).1 ]> m.

(** What a store task reports to its appender. *)
Inductive StoreTaskStatus :=
| StsSealed
| StsStored (h : ResponseHeader)
| StsError
| StsShutdown.

(** A store task waits for its turn, or for the answer to its request. *)
Inductive StoreTask := StWaitingTail | StSending (rpc : Rpc).

(** What the writer of a batch is told. *)
Inductive CommitResult := CrOffset (last : Z) | CrSealed | CrReconfigurationNeeded.

Record Appender := mkAppender {
  ap_first_offset : Z;
  ap_records : list LogRecord;
  ap_checker : NodeSetChecker (Attr := NodeAttributes);
  ap_status : gmap Z PerNodeStatus;
  ap_wave : Z;
  ap_permit : bool;
  ap_resolver : bool;
  ap_result : option CommitResult;
  ap_graylist : gset Z;
  ap_tasks : gmap Z StoreTask;
  ap_state : AppenderState }.

(** [RecordsExt::last_offset]. *)
Inductive SequencerError := LogletOffsetExhausted | InvalidBatchLength.

Definition records_last_offset (records : list LogRecord) (first_offset : Z) : res SequencerError Z :=
  let len := Z.of_nat (length records) in
  if u32_max <? len then Err InvalidBatchLength
  else match checked_add u32_max first_offset (as_u32 (len - 1)) with
       | Some o => Ok o
       | None => Err LogletOffsetExhausted
       end.

Definition ap_last_offset (a : Appender) : option Z :=
  match records_last_offset (ap_records a) (ap_first_offset a) with Ok o => Some o | _ => None end.

Definition appender_new (first_offset : Z) (records : list LogRecord) : option Appender :=
  let! checker := new_checker in
  Some (mkAppender first_offset records checker ∅ 0 true true None ∅ ∅ ApWave).

Definition ap_set_checker (c : NodeSetChecker) (a : Appender) : Appender :=
  mkAppender (ap_first_offset a) (ap_records a) c (ap_status a) (ap_wave a) (ap_permit a) (ap_resolver a)
    (ap_result a) (ap_graylist a) (ap_tasks a) (ap_state a).
Definition ap_set_graylist (g : gset Z) (a : Appender) : Appender :=
  mkAppender (ap_first_offset a) (ap_records a) (ap_checker a) (ap_status a) (ap_wave a) (ap_permit a)
    (ap_resolver a) (ap_result a) g (ap_tasks a) (ap_state a).
Definition ap_set_tasks (t : gmap Z StoreTask) (a : Appender) : Appender :=
  mkAppender (ap_first_offset a) (ap_records a) (ap_checker a) (ap_status a) (ap_wave a) (ap_permit a)
    (ap_resolver a) (ap_result a) (ap_graylist a) t (ap_state a).
Definition ap_set_state (s : AppenderState) (a : Appender) : Appender :=
  mkAppender (ap_first_offset a) (ap_records a) (ap_checker a) (ap_status a) (ap_wave a) (ap_permit a)
    (ap_resolver a) (ap_result a) (ap_graylist a) (ap_tasks a) s.
Definition ap_merge_status (node : Z) (s : PerNodeStatus) (a : Appender) : Appender :=
  mkAppender (ap_first_offset a) (ap_records a) (ap_checker a) (status_merge node s (ap_status a)) (ap_wave a)
    (ap_permit a) (ap_resolver a) (ap_result a) (ap_graylist a) (ap_tasks a) (ap_state a).
Definition ap_next_wave (a : Appender) : Appender :=
  mkAppender (ap_first_offset a) (ap_records a) (ap_checker a) (ap_status a) (as_u32 (ap_wave a + 1))
    (ap_permit a) (ap_resolver a) (ap_result a) (ap_graylist a) (ap_tasks a) (ap_state a).

(** The nodes whose attribute matches ([NodeSetChecker::filter]). *)
Definition checker_filter {Attr} `{Countable Attr} (p : Attr → bool) (c : NodeSetChecker (Attr := Attr)) : list (Z * Attr) :=
  filter (λ e, p e.2 = true) (map_to_list (node_to_attr c)).

Definition reset_graylist (a : Appender) : Appender :=
  ap_set_graylist (list_to_set (checker_filter na_sealed (ap_checker a)).*1) a.

(** [alive]: what the cluster state says about the nodes. *)
Definition generate_spread (alive : Z → bool) (a : Appender) : option (Appender * option (list Z)) :=
  let dead := filter (λ n, alive n = false) nodeset in
  let a := ap_set_graylist (ap_graylist a ∪ list_to_set dead) a in
  let! selected := select (ap_graylist a) in
  match selected with
  | Some spread => Some (a, Some spread)
  | None =>
      let a := reset_graylist a in
      let! selected := select (ap_graylist a) in
      Some (a, selected)
  end.

(** The beginning of a wave: a store task for every node of the spread that neither has
    the batch nor is sealed. *)
Definition start_wave (alive : Z → bool) (a : Appender) : option Appender :=
  let a := ap_next_wave a in
  let! (a, spread) := generate_spread alive a in
  match spread with
  | None => Some (ap_set_state ApWriteUnavailable a)
  | Some spread =>
      let skip n := match node_to_attr (ap_checker a) !! n with
                    | Some s => na_committed s || na_sealed s
                    | None => false
                    end in
      let pending := filter (λ n, skip n = false) spread in
      Some (ap_set_state ApSending (ap_set_tasks (list_to_map ((λ n, (n, StWaitingTail)) <$> pending)) a))
  end.

(** The request of a store task ([try_send]). *)
Definition make_store (known_global_tail timeout_at : Z) (a : Appender) : Store := {|
  sto_known_global_tail := known_global_tail;
  sto_timeout_at := Some timeout_at;
  sto_flags := 0;
  sto_first_offset := ap_first_offset a;
  sto_sequencer := rlp_sequencer le_params;
  sto_known_archived := LogletOffset_INVALID;
  sto_payloads := ap_records a |}.

(** The state that the appenders share with their sequencer. *)
Record SharedState := mkShared {
  sh_known_global_tail : TailState;
  sh_servers : gmap Z TailState;
  sh_maybe_sealed : bool }.

Definition sh_notify_global (o : Z) (sh : SharedState) : SharedState :=
  mkShared (watch_offset o (sh_known_global_tail sh)) (sh_servers sh) (sh_maybe_sealed sh).
Definition sh_server (node : Z) (sh : SharedState) : TailState :=
  default (TailOpen LogletOffset_OLDEST) (sh_servers sh !! node).
Definition sh_upd_server (node : Z) (f : TailState → TailState) (sh : SharedState) : SharedState :=
  mkShared (sh_known_global_tail sh) (<[ node := f (sh_server node sh) ]> (sh_servers sh)) (sh_maybe_sealed sh).
Definition sh_mark_maybe_sealed (sh : SharedState) : SharedState :=
  mkShared (sh_known_global_tail sh) (sh_servers sh) true.

(** The end of the wait of [send]: [None] while the tail that is looked at has not
    arrived, [Some true] when it is sealed. *)
Definition wait_result (first_offset : Z) (t : TailState) : option bool :=
  if offset_or_seal first_offset t then Some (tail_is_sealed t) else None.

(** The answer to a store ([send]). *)
Definition store_answer (node : Z) (h : ResponseHeader) (sh : SharedState) : SharedState * StoreTaskStatus :=
  let sh := sh_upd_server node (watch_offset (rh_local_tail h)) sh in
  match rh_status h with
  | StSealing | StSealed =>
      (sh_mark_maybe_sealed (sh_upd_server node watch_seal sh), StsSealed)
  | _ => (sh, StsStored h)
  end.

(** The batch is on a write quorum: the global tail moves, the writer is told, and the
    permit is returned. *)
Definition commit_batch (a : Appender) (sh : SharedState) : option (Appender * SharedState) :=
  let! last := ap_last_offset a in
  let '(resolver, result, sh) :=
    if ap_resolver a then (false, Some (CrOffset last), sh_notify_global (offset_next last) sh)
    else (false, ap_result a, sh) in
  Some (mkAppender (ap_first_offset a) (ap_records a) (ap_checker a) (ap_status a) (ap_wave a) false resolver
          result (ap_graylist a) ∅ ApDone, sh).

(** A round of the loop of [send_wave]: the store task of [node] has ended. *)
Definition on_store_result (node : Z) (r : StoreTaskStatus) (a : Appender) (sh : SharedState)
    : option (Appender * SharedState) :=
  let a := ap_set_tasks (delete node (ap_tasks a)) a in
  let graylisted a := ap_set_graylist (ap_graylist a ∪ {[ node ]}) a in
  let check_quorum a :=
    if check_write_quorum na_committed (ap_checker a) then commit_batch a sh else Some (a, sh) in
  if tail_is_sealed (sh_known_global_tail sh) then Some (ap_set_state ApSealed (ap_set_tasks ∅ a), sh)
  else
    match r with
    | StsShutdown => Some (ap_set_state ApCancelled (ap_set_tasks ∅ a), sh)
    | StsError => Some (graylisted (ap_merge_status node (PnFailed 1 FailRpc) a), sh)
    | StsSealed =>
        Some (ap_merge_status node PnSealed (ap_set_checker (set_attribute node attr_sealed (ap_checker a)) a), sh)
    | StsStored h =>
        match rh_status h with
        | StOk =>
            check_quorum (ap_merge_status node PnCommitted
                            (ap_set_checker (set_attribute node attr_committed (ap_checker a)) a))
        | StSealed | StSealing =>
            check_quorum (graylisted (ap_merge_status node (pn_failed_with_status (rh_status h))
                            (ap_set_checker (set_attribute node attr_sealed (ap_checker a)) a)))
        | StUnknown | StDropped | StDisabled | StSequencerMismatch | StMalformed | StOutOfBounds =>
            check_quorum (graylisted (ap_merge_status node (pn_failed_with_status (rh_status h)) a))
        end
    end.

(** The wave has no tasks any more. *)
Definition end_wave (a : Appender) : option Appender :=
  let! r := check_fmajority na_sealed (ap_checker a) in
  Some (ap_set_state (if fm_passed r then ApSealed else ApBackoff) a).

(** The end of [run]: the resolver, when it is still there, tells the writer. *)
Definition ap_finish (a : Appender) : Appender :=
  let result :=
    match ap_state a with
    | ApCancelled | ApWriteUnavailable => Some CrReconfigurationNeeded
    | ApSealed => Some CrSealed
    | _ => ap_result a
    end in
  mkAppender (ap_first_offset a) (ap_records a) (ap_checker a) (ap_status a) (ap_wave a) false false
    (if ap_resolver a then result else ap_result a) (ap_graylist a) ∅ (ap_state a).

Definition ap_is_final (a : Appender) : bool :=
  match ap_state a with ApWave | ApSending | ApBackoff => false | _ => true end.

(** ** The sequencer *)

Definition MAX_OFFSET_SOFT : Z := 2 ^ 31 - 1.

Inductive LogletCommit := LcSealed | LcReconfigurationNeeded | LcDeferred.

Record Sequencer := mkSequencer {
  sq_shared : SharedState;
  sq_next_write_offset : Z;
  sq_max_inflight : Z;
  sq_permits : Z;
  sq_closed : bool;
  sq_cancelled : bool;
  sq_appenders : list Appender }.

Definition sequencer_new (max_inflight : Z) : Sequencer :=
  mkSequencer (mkShared (TailOpen LogletOffset_OLDEST) ∅ false) LogletOffset_OLDEST max_inflight max_inflight
    false false [].

(** [drain], up to the wait for the appenders. *)
Definition drain (s : Sequencer) : Sequencer :=
  mkSequencer (sq_shared s) (sq_next_write_offset s) (sq_max_inflight s) (sq_permits s) true true (sq_appenders s).
Definition is_drained (s : Sequencer) : bool := forallb (λ a, negb (ap_permit a)) (sq_appenders s).

Definition ensure_enough_permits (required : Z) (s : Sequencer) : Sequencer :=
  if sq_max_inflight s <? required
  then mkSequencer (sq_shared s) (sq_next_write_offset s) required
         (sq_permits s + (required - sq_max_inflight s)) (sq_closed s) (sq_cancelled s) (sq_appenders s)
  else s.

Inductive EnqueueResult :=
| EqCommit (c : LogletCommit) (s : Sequencer)
| EqWaits (s : Sequencer)
| EqPanics.

(** [EqWaits]: the batch waits for permits. *)
Definition enqueue_batch (payloads : list LogRecord) (s : Sequencer) : EnqueueResult :=
  let len := Z.of_nat (length payloads) in
  let s := ensure_enough_permits len s in
  if u32_max <? len then EqPanics
  else if sq_closed s then EqCommit LcSealed s
  else if sq_permits s <? len then EqWaits s
  else if match checked_add u32_max (sq_next_write_offset s) len with
          | None => true
          | Some o => MAX_OFFSET_SOFT <=? o
          end then EqCommit LcReconfigurationNeeded (drain s)
  else
    let offset := sq_next_write_offset s in
    match appender_new offset payloads with
    | None => EqPanics
    | Some a =>
        EqCommit LcDeferred
          (mkSequencer (sq_shared s) (offset + len) (sq_max_inflight s) (sq_permits s - len)
             (sq_closed s) (sq_cancelled s) (sq_appenders s ++ [a]))
    end.

(** ** Sealing *)

Inductive NodeSealStatus := NsError | NsSealed | NsUnknown.

#[export] Instance NodeSealStatus_eq_dec : EqDecision NodeSealStatus.
Proof. solve_decision. Defined.
#[export] Instance NodeSealStatus_countable : Countable NodeSealStatus.
Proof.
  apply (inj_countable' (λ s, match s with NsError => 0 | NsSealed => 1 | NsUnknown => 2 end)
    (λ n, match n with 0 => NsError | 1 => NsSealed | _ => NsUnknown end)). by intros [].
Defined.

(** [SealTask::run]: its state, and what it returns. *)
Record SealTask := mkSealTask {
  st_checker : NodeSetChecker (Attr := NodeSealStatus);
  st_max_local_tail : Z }.

Inductive SealResult := SrSealed (max_local_tail : Z) | SrFailed.

(** All nodes are provisioning: the loglet cannot be sealed. *)
Definition seal_start : option (SealTask + SealResult) :=
  if all_provisioning nodeset le_config then Some (inr SrFailed)
  else let! c := new_effective_checker in Some (inl (mkSealTask c LogletOffset_OLDEST)).

(** [on_seal_response]: whether the answer counts. *)
Definition on_seal_response (h : ResponseHeader) : bool :=
  bool_decide (rh_status h = StOk) || rh_sealed h.

(** The answer of a node, [None] when it failed; the global tail of the answer goes to
    the watch. *)
Definition seal_answer (node : Z) (h : option ResponseHeader) (watch : TailState) (t : SealTask)
    : option ((TailState * SealTask) * option SealResult) :=
  match h with
  | None => Some ((watch, mkSealTask (set_attribute node NsError (st_checker t)) (st_max_local_tail t)), None)
  | Some h =>
      let watch := watch_offset (rh_known_global_tail h) watch in
      if on_seal_response h then
        let max_local_tail := Z.max (st_max_local_tail t) (rh_local_tail h) in
        let c := set_attribute node NsSealed (st_checker t) in
        let! r := check_fmajority (λ a, bool_decide (a = NsSealed)) c in
        Some ((watch, mkSealTask c max_local_tail),
              if fm_passed r then Some (SrSealed max_local_tail) else None)
      else Some ((watch, mkSealTask (set_attribute node NsError (st_checker t)) (st_max_local_tail t)), None)
  end.

(** ** Finding the tail *)

Inductive NodeTailStatus := NtUnknown | NtKnown (local_tail : Z) (sealed : bool).

#[export] Instance NodeTailStatus_eq_dec : EqDecision NodeTailStatus.
Proof. solve_decision. Defined.
#[export] Instance NodeTailStatus_countable : Countable NodeTailStatus.
Proof.
  apply (inj_countable' (λ s, match s with NtUnknown => None | NtKnown t b => Some (t, b) end)
    (λ o, match o with None => NtUnknown | Some (t, b) => NtKnown t b end)). by intros [].
Defined.

Definition nt_local_tail (s : NodeTailStatus) : option Z :=
  match s with NtKnown t _ => Some t | NtUnknown => None end.
Definition nt_is_known (s : NodeTailStatus) : bool := match s with NtKnown _ _ => true | _ => false end.
Definition nt_is_known_sealed (s : NodeTailStatus) : bool := match s with NtKnown _ b => b | _ => false end.

Definition nt_merge (a b : NodeTailStatus) : NodeTailStatus * bool :=
  match a, b with
  | _, NtUnknown => (a, false)
  | NtUnknown, o => (o, true)
  | NtKnown my_offset my_seal, NtKnown other_offset other_seal =>
      (NtKnown (Z.max my_offset other_offset) (my_seal || other_seal), true)
  end.

#[export] Instance NodeTailStatus_Merge : Merge (Attr := NodeTailStatus) :=
  { attr_default := NtUnknown; attr_merge := nt_merge }.

Abbreviation TailChecker := (NodeSetChecker (Attr := NodeTailStatus)).

Inductive FindTailResult := FtOpen (global_tail : Z) | FtSealed (global_tail : Z) | FtError.

(** The largest local tail of the nodes that match; [None] when there are none. *)
Definition max_local_tail (p : NodeTailStatus → bool) (c : TailChecker) : option Z :=
  foldr (λ e acc, match nt_local_tail e.2, acc with
                  | Some t, Some m => Some (Z.max t m)
                  | Some t, None => Some t
                  | None, _ => acc
                  end) None (checker_filter p c).

(** The status of a node, from the answer to [GetLogletInfo] or [WaitForTail]; a request
    that failed says nothing. *)
Definition tail_status (h : ResponseHeader) : NodeTailStatus :=
  match rh_status h with
  | StOk | StSealed => NtKnown (rh_local_tail h) (rh_sealed h)
  | _ => NtUnknown
  end.

(** What the loop over the answers does next. *)
Inductive TailDecision :=
| DcWait
| DcRestart
| DcReturn (r : FindTailResult)
| DcRepair (start_offset target_tail : Z)
| DcSeal
| DcWatch (max_local_tail : Z).

(** All copies of the records below [t] are there. *)
Definition reached (t : Z) (s : NodeTailStatus) : bool :=
  match s with NtKnown local_tail _ => t <=? local_tail | NtUnknown => false end.
Definition reached_open (t : Z) (s : NodeTailStatus) : bool :=
  match s with NtKnown local_tail sealed => negb sealed && (t <=? local_tail) | NtUnknown => false end.

(** A round of the loop ['check_nodeset]. *)
Definition check_nodeset (known_global_tail : Z) (c : TailChecker) : option TailDecision :=
  let! known := check_fmajority nt_is_known c in
  if negb (fm_passed known) then Some DcWait
  else
    let! sealed := check_fmajority nt_is_known_sealed c in
    if fm_passed sealed then
      let! max_tail := max_local_tail nt_is_known_sealed c in
      if max_tail <? known_global_tail then Some DcRestart
      else if (max_tail =? known_global_tail) || check_write_quorum (reached max_tail) c
      then Some (DcReturn (FtSealed max_tail))
      else if check_write_quorum nt_is_known c then Some (DcRepair known_global_tail max_tail)
      else Some DcWait
    else if checker_any nt_is_known_sealed c then Some DcSeal
    else
      let! max_tail := max_local_tail nt_is_known c in
      if check_write_quorum (reached_open max_tail) c then Some (DcReturn (FtOpen max_tail))
      else if max_tail <=? known_global_tail then Some (DcReturn (FtOpen known_global_tail))
      else Some (DcWatch max_tail).

(** After an update in the loop that waits for the tail to move.  [sequencer_gone]: the
    sequencer is gone or likely gone; [nothing_left]: no request is in flight. *)
Definition watch_nodeset (max_tail known_global_tail : Z) (sequencer_gone nothing_left : bool) (c : TailChecker)
    : option TailDecision :=
  if checker_any nt_is_known_sealed c then check_nodeset known_global_tail c
  else if check_write_quorum (reached_open max_tail) c then Some (DcReturn (FtOpen max_tail))
  else if max_tail <=? known_global_tail then Some (DcReturn (FtOpen known_global_tail))
  else if sequencer_gone && check_write_quorum nt_is_known c then Some DcSeal
  else if nothing_left then Some (DcReturn FtError)
  else Some (DcWatch max_tail).

(** ** Repairing the tail *)

Record Digests := mkDigests {
  dg_start_offset : Z;
  dg_target_tail : Z;
  dg_offsets_under_repair : list (Z * gset Z);
  dg_known_nodes : gset Z;
  dg_num_fixups : Z }.

Definition digests_new (start_offset target_tail : Z) : Digests :=
  let offsets :=
    if target_tail <=? start_offset then []
    else (λ i, (start_offset + Z.of_nat i, ∅)) <$> seq 0 (Z.to_nat (target_tail - start_offset)) in
  mkDigests start_offset target_tail offsets ∅ 0.

Definition digests_finished (d : Digests) : bool := dg_target_tail d <=? dg_start_offset d.

Definition truncate_range (d : Digests) : Digests :=
  mkDigests (dg_start_offset d) (dg_target_tail d)
    (if dg_target_tail d <=? dg_start_offset d then []
     else filter (λ e, dg_start_offset d ≤ e.1) (dg_offsets_under_repair d))
    (dg_known_nodes d) (dg_num_fixups d).

Definition update_start_offset (new_start_offset : Z) (d : Digests) : Digests :=
  let start := Z.max (dg_start_offset d) new_start_offset in
  let d' := mkDigests start (dg_target_tail d) (dg_offsets_under_repair d) (dg_known_nodes d) (dg_num_fixups d) in
  if start =? dg_start_offset d then d' else truncate_range d'.

(** The node has the records of these offsets. *)
Definition add_copies (node from to_ : Z) (l : list (Z * gset Z)) : list (Z * gset Z) :=
  (λ e, if (from <=? e.1) && (e.1 <=? to_) then (e.1, e.2 ∪ {[ node ]}) else e) <$> l.

Definition on_digest_message (node : Z) (h : ResponseHeader) (entries : list DigestEntry) (watch : TailState)
    (d : Digests) : TailState * Digests :=
  let watch := watch_offset (rh_known_global_tail h) watch in
  let d := update_start_offset (tail_offset watch) d in
  if negb (bool_decide (rh_status h = StOk)) then (watch, d)
  else if bool_decide (node ∈ dg_known_nodes d) then (watch, d)
  else
    let d := mkDigests (dg_start_offset d) (dg_target_tail d) (dg_offsets_under_repair d)
               (dg_known_nodes d ∪ {[ node ]}) (dg_num_fixups d) in
    if digests_finished d then (watch, d)
    else
      let offsets := foldl (λ l e, match de_status e with
                                   | RsExists => add_copies node (de_from_offset e) (de_to_offset e) l
                                   | _ => l
                                   end) (dg_offsets_under_repair d) entries in
      (watch, mkDigests (dg_start_offset d) (dg_target_tail d) offsets (dg_known_nodes d) (dg_num_fixups d)).

(** A checker in which the given nodes have the attribute [true]. *)
Definition copies_checker (nodes : gset Z) : option (NodeSetChecker (Attr := bool)) :=
  let! c := new_checker in Some (set_attribute_on_each (elements nodes) true c).
Definition copies_suffice (nodes : gset Z) : option bool :=
  let! c := copies_checker nodes in Some (check_write_quorum (λ a, a) c).

Definition can_repair (d : Digests) : option bool := copies_suffice (dg_known_nodes d).

(** Walks backwards to an offset with a write quorum of copies. *)
Fixpoint last_replicated (rev_offsets : list (Z * gset Z)) (c : NodeSetChecker (Attr := bool)) : option Z :=
  match rev_offsets with
  | [] => None
  | (offset, nodes) :: rest =>
      let c := set_attribute_on_each (elements nodes) true (fill_with false c) in
      if check_write_quorum (λ a, a) c then Some offset else last_replicated rest c
  end.

Definition advance (d : Digests) : option (Digests * bool) :=
  let! ok := can_repair d in
  if negb ok then Some (d, false)
  else
    let! c := new_checker in
    match last_replicated (rev (dg_offsets_under_repair d)) c with
    | Some offset => Some (update_start_offset (offset_next offset) d, true)
    | None =>
        if digests_finished d then Some (d, true)
        else match dg_offsets_under_repair d with
             | [] => None
             | (_, copies) :: _ => Some (d, negb (bool_decide (copies = ∅)))
             end
    end.

(** The store of a record under repair. *)
Definition repair_store (d : Digests) (offset : Z) (r : LogRecord) : Store := {|
  sto_known_global_tail := dg_start_offset d;
  sto_timeout_at := None;
  sto_flags := IgnoreSeal;
  sto_first_offset := offset;
  sto_sequencer := rlp_sequencer le_params;
  sto_known_archived := LogletOffset_INVALID;
  sto_payloads := [r] |}.

(** What [replicate_record_and_advance] does with an entry of the read stream. *)
Inductive Replicate :=
| RpSkip (d : Digests)
| RpError
| RpStore (offset : Z) (m : Store) (fixups : list Z) (c : NodeSetChecker (Attr := bool)).

Definition replicate_record (offset : Z) (e : MaybeRecord) (d : Digests) : option Replicate :=
  if offset <? dg_start_offset d then Some (RpSkip d)
  else
    match e with
    | MrTrimGap to_ => Some (RpSkip (update_start_offset (offset_next to_) d))
    | MrFilteredGap _ => None
    | MrData r =>
        let! known_copies := (list_to_map (dg_offsets_under_repair d) : gmap Z (gset Z)) !! offset in
        let! fixups := select_fixups known_copies ∅ in
        match fixups with
        | None => Some RpError
        | Some fixups =>
            let! c := copies_checker known_copies in
            Some (RpStore offset (repair_store d offset r) fixups c)
        end
    end.

(** The record has enough copies. *)
Definition record_repaired (offset : Z) (d : Digests) : Digests :=
  let d := mkDigests (dg_start_offset d) (dg_target_tail d) (dg_offsets_under_repair d) (dg_known_nodes d)
             (dg_num_fixups d + 1) in
  update_start_offset (offset_next offset) d.

(** ** Trimming *)

(** The trim point that is sent, [None] when there is nothing to trim. *)
Definition clip_trim_point (trim_point known_global_tail : Z) : option Z :=
  let t := Z.min trim_point (offset_prev_unchecked known_global_tail) in
  if t =? LogletOffset_INVALID then None else Some t.

(** ** Checking for a seal *)

Inductive CheckSealOutcome := CsSealed | CsOpen (is_partially_sealed : bool) | CsUnknown (is_partially_sealed : bool).

(** A round of the loop of [CheckSealTask::run]; [None] inside is: wait for more. *)
Definition check_seal (nothing_left : bool) (c : NodeSetChecker (Attr := bool)) : option (option CheckSealOutcome) :=
  let! r := check_fmajority (λ a, a) c in
  if fm_passed r then Some (Some CsSealed)
  else if check_write_quorum negb c then Some (Some (CsOpen (checker_any (λ a, a) c)))
  else if nothing_left then Some (Some (CsUnknown (checker_any (λ a, a) c)))
  else Some None.

(** ** Reading *)

Record ReadStream := mkReadStream {
  rs_filter : KeyFilter;
  rs_last_known_tail : Z;
  rs_read_pointer : Z;
  rs_read_to : option Z;
  rs_move_beyond_global_tail : bool;
  rs_sent : list (Z * MaybeRecord) }.

(** [start] and the beginning of [run]; reading past the global tail needs an end. *)
Definition read_stream_start (filt : KeyFilter) (from : Z) (read_to : option Z) (known_global_tail : Z)
    (move_beyond : bool) : option ReadStream :=
  match move_beyond, read_to with
  | true, None => None
  | true, Some to_ => Some (mkReadStream filt (offset_next to_) (Z.max from LogletOffset_OLDEST) read_to true [])
  | false, _ => Some (mkReadStream filt known_global_tail (Z.max from LogletOffset_OLDEST) read_to false [])
  end.

Definition rs_tail_changed (known_global_tail : Z) (s : ReadStream) : ReadStream :=
  mkReadStream (rs_filter s) known_global_tail (rs_read_pointer s) (rs_read_to s) (rs_move_beyond_global_tail s) (rs_sent s).

Definition rs_should_terminate (s : ReadStream) : bool :=
  match rs_read_to s with Some to_ => to_ <? rs_read_pointer s | None => false end.
Definition rs_can_advance (s : ReadStream) : bool :=
  (rs_read_pointer s <? rs_last_known_tail s) && (rs_read_pointer s <=? default u32_max (rs_read_to s)).

(** An entry goes to the reader, and the pointer moves behind it. *)
Definition rs_ship (e : MaybeRecord) (next : Z) (s : ReadStream) : ReadStream :=
  mkReadStream (rs_filter s) (rs_last_known_tail s) next (rs_read_to s) (rs_move_beyond_global_tail s)
    (rs_sent s ++ [(rs_read_pointer s, e)]).

Definition rs_trim_gap (trim_point : Z) (s : ReadStream) : ReadStream :=
  if rs_read_pointer s <=? trim_point then rs_ship (MrTrimGap trim_point) (offset_next trim_point) s else s.

(** [send_next_from_cache], with the record that the cache has at the pointer. *)
Definition rs_from_cache (r : LogRecord) (s : ReadStream) : ReadStream :=
  if negb (rs_can_advance s) then s
  else if matches_key_query (rec_keys r) (rs_filter s)
  then rs_ship (MrData r) (offset_next (rs_read_pointer s)) s
  else rs_ship (MrFilteredGap (rs_read_pointer s)) (offset_next (rs_read_pointer s)) s.

(** [calculate_read_ahead_to_offset]. *)
Definition rs_to_offset (permits : Z) (s : ReadStream) : Z :=
  let to_ := offset_prev (saturating_add u32_max (rs_read_pointer s) permits) in
  match rs_read_to s with Some r => Z.min to_ r | None => to_ end.

(** The loop over the records of an answer; records ahead go to the cache. *)
Fixpoint rs_on_records (records : list (Z * MaybeRecord)) (cache : gmap Z LogRecord) (s : ReadStream)
    : gmap Z LogRecord * ReadStream :=
  match records with
  | [] => (cache, s)
  | (offset, e) :: records =>
      if (rs_last_known_tail s <=? offset) || (rs_read_pointer s <? offset)
      then rs_on_records records (match e with MrData r => <[ offset := r ]> cache | _ => cache end) s
      else if offset =? rs_read_pointer s then
        match e with
        | MrTrimGap to_ => rs_on_records records cache (rs_ship e (offset_next to_) s)
        | MrFilteredGap to_ =>
            let gap_to := offset_prev (Z.min (rs_last_known_tail s) (offset_next to_)) in
            rs_on_records records cache (rs_ship (MrFilteredGap gap_to) (offset_next gap_to) s)
        | MrData r => rs_on_records records cache (rs_ship e (offset_next (rs_read_pointer s)) s)
        end
      else rs_on_records records cache s
  end.

End Loglet.
