(* ===== verification/LogletCluster.v ===== *)
(** * LogletCluster: a replicated loglet on its log servers

    The sequencer and any number of clients of ReplicatedLoglet.v, with a server of
    LogServer.v on every node.  A step of [cluster_step] is one turn of a server, of the
    sequencer or of a client, or the delivery of a request.  Requests are never lost from
    [cl_sent]: they are delivered in any order, late, several times or not at all, and
    an answer that a server has given can be read at any time.  Servers crash.

    The clients stand for the tasks on other nodes: a client has its own watch of the
    global tail, which it updates from answers, from the sequencer and from other
    clients.  [content] is the record that gets an offset. *)

From stdpp Require Import strings gmap sorting.
From S2P Require Import Prelude BTreeMap LogTypes Locality Replication LogChain NodesConfig NodeSetChecker Quorums LogServer ReplicatedLoglet.

Open Scope Z_scope.

Abbreviation TailChecker := (NodeSetChecker (Attr := NodeTailStatus)).

Section Cluster.
Context `{!LogletEnv} (content : Z → LogRecord).

(** ** Clients *)

(** [RepairTail::run]: the digests, then the entries of a read stream (the next one is
    number [k]), and for one entry the stores that are in flight. *)
Inductive RepairPhase :=
| RpDigest
| RpReplicating (s : ReadStream) (k : nat)
| RpStoring (s : ReadStream) (k : nat) (offset : Z) (c : NodeSetChecker (Attr := bool)) (rpcs : list (Z * Rpc)).

Inductive ClientTask :=
| TkIdle
| TkFind (c : TailChecker)
| TkWatch (c : TailChecker) (max_tail : Z)
| TkSeal (then_find : bool) (t : SealTask)
| TkRepair (d : Digests) (ph : RepairPhase).

(** [c_targets]: the tails that the client found on an f-majority of sealed nodes. *)
Record Client := mkClient {
  c_watch : TailState;
  c_task : ClientTask;
  c_results : list FindTailResult;
  c_targets : list Z;
  c_sealed : bool;
  c_reader : option ReadStream;
  c_cache : gmap Z LogRecord }.

Definition client_new : Client := mkClient (TailOpen LogletOffset_OLDEST) TkIdle [] [] false None ∅.

Definition c_set_task (t : ClientTask) (c : Client) : Client :=
  mkClient (c_watch c) t (c_results c) (c_targets c) (c_sealed c) (c_reader c) (c_cache c).
Definition c_set_watch (w : TailState) (c : Client) : Client :=
  mkClient w (c_task c) (c_results c) (c_targets c) (c_sealed c) (c_reader c) (c_cache c).
Definition c_learn (g : Z) (c : Client) : Client := c_set_watch (watch_offset g (c_watch c)) c.
Definition c_found (target : Z) (c : Client) : Client :=
  mkClient (c_watch c) (c_task c) (c_results c) (c_targets c ++ [target]) (c_sealed c) (c_reader c) (c_cache c).
Definition c_seal_done (c : Client) : Client :=
  mkClient (c_watch c) TkIdle (c_results c) (c_targets c) true (c_reader c) (c_cache c).
Definition c_set_stream (r : option ReadStream) (cache : gmap Z LogRecord) (c : Client) : Client :=
  mkClient (c_watch c) (c_task c) (c_results c) (c_targets c) (c_sealed c) r cache.

Definition c_global (c : Client) : Z := tail_offset (c_watch c).

(** [find_tail_inner]: the result goes to the watch. *)
Definition find_done (r : FindTailResult) (c : Client) : Client :=
  mkClient match r with
           | FtOpen g => watch_offset g (c_watch c)
           | FtSealed g => watch_notify true g (c_watch c)
           | FtError => c_watch c
           end TkIdle (c_results c ++ [r]) (c_targets c) (c_sealed c) (c_reader c) (c_cache c).

(** The beginning of ['find_tail]. *)
Definition find_start (c : Client) : option Client :=
  if all_provisioning nodeset le_config then Some (find_done (FtOpen LogletOffset_OLDEST) c)
  else let! checker := new_effective_checker in Some (c_set_task (TkFind checker) c).

Definition find_restart (c : Client) : option Client :=
  let! checker := new_effective_checker in Some (c_set_task (TkFind checker) c).

Definition start_seal (then_find : bool) (c : Client) : option Client :=
  let! r := seal_start in
  match r with
  | inl t => Some (c_set_task (TkSeal then_find t) c)
  | inr _ => Some (if then_find then find_done FtError c else c_set_task TkIdle c)
  end.

(** [RepairTail::new] and the beginning of its [run]. *)
Definition start_repair (start target : Z) (c : Client) : Client :=
  let d := digests_new start target in
  if digests_finished d then find_done (FtSealed target) c
  else c_set_task (TkRepair d RpDigest) c.

Definition act (dec : TailDecision) (checker : TailChecker) (c : Client) : option Client :=
  match dec with
  | DcWait => Some (c_set_task (TkFind checker) c)
  | DcRestart => find_restart c
  | DcReturn (FtSealed t) => Some (find_done (FtSealed t) (c_found t c))
  | DcReturn r => Some (find_done r c)
  | DcRepair start target => Some (start_repair start target (c_found target c))
  | DcSeal => start_seal true c
  | DcWatch t => Some (c_set_task (TkWatch checker t) c)
  end.

(** An answer to [GetLogletInfo] or [WaitForTail]. *)
Definition on_info (node : Z) (h : ResponseHeader) (c : Client) : Client :=
  let c := c_learn (rh_known_global_tail h) c in
  match c_task c with
  | TkFind checker => c_set_task (TkFind (merge_attribute node (tail_status h) checker)) c
  | TkWatch checker t => c_set_task (TkWatch (merge_attribute node (tail_status h) checker) t) c
  | _ => c
  end.

Definition decide_find (sequencer_gone nothing_left : bool) (c : Client) : option Client :=
  match c_task c with
  | TkFind checker => let! dec := check_nodeset (c_global c) checker in act dec checker c
  | TkWatch checker t =>
      let! dec := watch_nodeset t (c_global c) sequencer_gone nothing_left checker in act dec checker c
  | _ => Some c
  end.

Definition on_seal_answer (node : Z) (h : option ResponseHeader) (c : Client) : option Client :=
  match c_task c with
  | TkSeal then_find t =>
      let! ((w, t), r) := seal_answer node h (c_watch c) t in
      let c := c_set_watch w c in
      match r with
      | Some (SrSealed _) => if then_find then find_restart c else Some (c_seal_done c)
      | _ => Some (c_set_task (TkSeal then_find t) c)
      end
  | _ => Some c
  end.

(** A task gives up: no node answers any more, or an error. *)
Definition abandon (c : Client) : option Client :=
  match c_task c with
  | TkFind _ | TkWatch _ _ => Some (find_done FtError c)
  | TkSeal then_find _ => Some (if then_find then find_done FtError c else c_set_task TkIdle c)
  | TkRepair _ _ => find_restart c
  | TkIdle => Some c
  end.

(** The repair is complete. *)
Definition repair_done (d : Digests) (c : Client) : Client := find_done (FtSealed (dg_target_tail d)) c.

(** After the digests: replicate, or give up. *)
Definition after_digests (d : Digests) (c : Client) : option Client :=
  if digests_finished d then Some (repair_done d c)
  else
    let! ok := can_repair d in
    if negb ok then find_restart c
    else
      let! (d, ok) := advance d in
      if negb ok then find_restart c
      else
        let! s := read_stream_start FilterAny (dg_start_offset d) (Some (offset_prev (dg_target_tail d)))
                    (c_global c) true in
        Some (c_set_task (TkRepair d (RpReplicating s 0)) c).

Definition on_digest (node : Z) (h : ResponseHeader) (entries : list DigestEntry) (c : Client) : option Client :=
  match c_task c with
  | TkRepair d RpDigest =>
      let '(w, d) := on_digest_message node h entries (c_watch c) d in
      let c := c_set_watch w c in
      let! (d, ready) := advance d in
      if (ready : bool) then after_digests d c else Some (c_set_task (TkRepair d RpDigest) c)
  | TkRepair d (RpReplicating s k) =>
      let '(w, d) := on_digest_message node h entries (c_watch c) d in
      let c := c_set_watch w c in
      let! (d, _) := advance d in
      Some (c_set_task (TkRepair d (RpReplicating s k)) c)
  | _ => Some c
  end.

(** No digest is expected any more. *)
Definition digests_end (c : Client) : option Client :=
  match c_task c with
  | TkRepair d RpDigest => after_digests d c
  | _ => Some c
  end.

(** The loop of [replicate_record_and_advance]. *)
Definition repair_poll (c : Client) : Client :=
  match c_task c with
  | TkRepair d (RpStoring s k offset checker rpcs) =>
      if check_write_quorum (λ a, a) checker
      then c_set_task (TkRepair (record_repaired offset d) (RpReplicating s k)) c
      else c
  | _ => c
  end.

Definition on_repair_stored (node : Z) (rpc : Rpc) (h : ResponseHeader) (c : Client) : Client :=
  match c_task c with
  | TkRepair d (RpStoring s k offset checker rpcs) =>
      if bool_decide ((node, rpc) ∈ rpcs) && bool_decide (rh_status h = StOk)
      then repair_poll (c_set_task (TkRepair d (RpStoring s k offset (set_attribute node true checker) rpcs)) c)
      else c
  | _ => c
  end.

(** ** Streams *)

(** The stream of the client's reader, or of its repair. *)
Definition get_stream (repair : bool) (c : Client) : option ReadStream :=
  if repair then
    match c_task c with
    | TkRepair _ (RpReplicating s _) | TkRepair _ (RpStoring s _ _ _ _) => Some s
    | _ => None
    end
  else c_reader c.

Definition put_stream (repair : bool) (s : ReadStream) (c : Client) : Client :=
  if repair then
    match c_task c with
    | TkRepair d (RpReplicating _ k) => c_set_task (TkRepair d (RpReplicating s k)) c
    | TkRepair d (RpStoring _ k o ch rpcs) => c_set_task (TkRepair d (RpStoring s k o ch rpcs)) c
    | _ => c
    end
  else c_set_stream (Some s) (c_cache c) c.

Definition on_stream (repair : bool) (f : ReadStream → ReadStream) (c : Client) : Client :=
  match get_stream repair c with
  | Some s => put_stream repair (f s) c
  | None => c
  end.

Definition on_records (repair : bool) (h : ResponseHeader) (records : list (Z * MaybeRecord)) (c : Client) : Client :=
  let c := c_learn (rh_known_global_tail h) c in
  match get_stream repair c with
  | Some s =>
      let '(cache, s) := rs_on_records records (c_cache c) s in
      put_stream repair s (c_set_stream (c_reader c) cache c)
  | None => c
  end.

(** ** The cluster *)

(** A request has the number of its place in [cl_sent]. *)
Record Cluster := mkCluster {
  cl_servers : gmap Z Server;
  cl_sent : list (Z * Message);
  cl_seq : Sequencer;
  cl_clients : gmap nat Client }.

Definition server_of (i : Z) (cl : Cluster) : Server := default server_init (cl_servers cl !! i).
Definition client_of (c : nat) (cl : Cluster) : Client := default client_new (cl_clients cl !! c).
Definition replies_at (i : Z) (cl : Cluster) : list Reply := n_replies (sv_node (server_of i cl)).

Definition set_server (i : Z) (s : Server) (cl : Cluster) : Cluster :=
  mkCluster (<[ i := s ]> (cl_servers cl)) (cl_sent cl) (cl_seq cl) (cl_clients cl).
Definition set_client (c : nat) (x : Client) (cl : Cluster) : Cluster :=
  mkCluster (cl_servers cl) (cl_sent cl) (cl_seq cl) (<[ c := x ]> (cl_clients cl)).
Definition set_seq (s : Sequencer) (cl : Cluster) : Cluster :=
  mkCluster (cl_servers cl) (cl_sent cl) s (cl_clients cl).
Definition send (msgs : list (Z * Message)) (cl : Cluster) : Cluster :=
  mkCluster (cl_servers cl) (cl_sent cl ++ msgs) (cl_seq cl) (cl_clients cl).
Definition next_rpc (cl : Cluster) : Rpc := Z.of_nat (length (cl_sent cl)).

(** What a client asks of a server; the header has the global tail that it knows. *)
Inductive Request :=
| RqInfo
| RqWaitForTail (q : TailUpdateQuery)
| RqSeal
| RqDigest (from to_ : Z)
| RqRecords (m : GetRecords)
| RqTrim (trim_point : Z)
| RqRelease.

Definition request_message (global : Z) (r : Request) : option Message :=
  match r with
  | RqInfo => Some (MsgGetLogletInfo global)
  | RqWaitForTail q => Some (MsgWaitForTail global q)
  | RqSeal => Some (MsgSeal global)
  | RqDigest from to_ => Some (MsgGetDigest global from to_)
  | RqRecords m => Some (MsgGetRecords global m)
  | RqTrim t => MsgTrim global <$> clip_trim_point t global
  | RqRelease => Some (MsgRelease global)
  end.

Inductive CEvent :=
(* servers *)
| CServer (i : Z) (e : LogServer.Event)
| CDeliver (k : nat) (now : Z)
(* the sequencer *)
| CEnqueue (n : nat)
| CWave (a : nat) (alive : list Z)
| CStoreWait (a : nat) (i : Z) (local : bool) (timeout_at : Z)
| CStored (a : nat) (i : Z) (k : nat)
| CStoreFails (a : nat) (i : Z) (shutdown : bool)
| CWaveEnd (a : nat)
| CBackoffEnd (a : nat)
| CCancel (a : nat)
| CAppendEnd (a : nat)
| CDrain
| CSequencerSeals (c : nat)
| CSequencerLearns (c : nat)
(* clients *)
| CLearn (c : nat)
| CShare (c c' : nat)
| CRequest (c : nat) (i : Z) (r : Request)
| CFind (c : nat)
| CInfo (c : nat) (i : Z) (k : nat)
| CDecide (c : nat) (sequencer_gone nothing_left : bool)
| CSeal (c : nat)
| CSealAnswer (c : nat) (i : Z) (k : option nat)
| CGiveUp (c : nat)
| CDigest (c : nat) (i : Z) (k : nat)
| CDigestsEnd (c : nat)
| CRepairEntry (c : nat)
| CRepairStored (c : nat) (i : Z) (k : nat)
| CRead (c : nat) (filt : KeyFilter) (from : Z) (to_ : option Z)
| CReadTail (c : nat)
| CReadRecords (c : nat) (repair : bool) (i : Z) (k : nat)
| CReadCache (c : nat) (repair : bool)
| CReadTrim (c : nat) (repair : bool) (i : Z) (k : nat)
| CCacheBatch (c : nat) (a : nat).

Definition message_at (now : Z) (m : Message) : Message :=
  match m with MsgStore peer _ s => MsgStore peer now s | _ => m end.

Definition deliver (k : nat) (now : Z) (cl : Cluster) : Cluster :=
  match cl_sent cl !! k with
  | Some (i, m) => set_server i (server_step (EvMessage (Z.of_nat k) (message_at now m)) (server_of i cl)) cl
  | None => cl
  end.

Definition upd_client (c : nat) (f : Client → option Client) (cl : Cluster) : Cluster :=
  match f (client_of c cl) with
  | Some x => set_client c x cl
  | None => cl
  end.

(** *** The sequencer *)

Definition payloads_at (offset : Z) (n : nat) : list LogRecord := (λ i, content (offset + Z.of_nat i)) <$> seq 0 n.

Definition enqueue (n : nat) (cl : Cluster) : Cluster :=
  match n, enqueue_batch (payloads_at (sq_next_write_offset (cl_seq cl)) n) (cl_seq cl) with
  | O, _ => cl
  | _, EqCommit _ s | _, EqWaits s => set_seq s cl
  | _, EqPanics => cl
  end.

(** An appender takes a step; the permits that it returns go back to the sequencer. *)
Definition put_appender (j : nat) (a a' : Appender) (sh : SharedState) (s : Sequencer) : Sequencer :=
  mkSequencer sh (sq_next_write_offset s) (sq_max_inflight s)
    (if ap_permit a && negb (ap_permit a') then sq_permits s + Z.of_nat (length (ap_records a)) else sq_permits s)
    (sq_closed s) (sq_cancelled s) (<[ j := a' ]> (sq_appenders s)).

Definition upd_appender (j : nat) (f : Appender → SharedState → option (Appender * SharedState)) (cl : Cluster)
    : Cluster :=
  let s := cl_seq cl in
  match sq_appenders s !! j with
  | Some a =>
      match f a (sq_shared s) with
      | Some (a', sh) => set_seq (put_appender j a a' sh s) cl
      | None => cl
      end
  | None => cl
  end.

(** The wait of a store task ends. *)
Definition store_wait (j : nat) (i : Z) (local : bool) (timeout_at : Z) (cl : Cluster) : Cluster :=
  let sh := sq_shared (cl_seq cl) in
  match sq_appenders (cl_seq cl) !! j with
  | Some a =>
      match ap_state a, ap_tasks a !! i with
      | ApSending, Some StWaitingTail =>
          match wait_result (ap_first_offset a) (if local then sh_server i sh else sh_known_global_tail sh) with
          | Some true => upd_appender j (on_store_result i StsSealed) cl
          | Some false =>
              let m := make_store (tail_offset (sh_known_global_tail sh)) timeout_at a in
              let a' := ap_set_tasks (<[ i := StSending (next_rpc cl) ]> (ap_tasks a)) a in
              send [(i, MsgStore (rlp_sequencer le_params) 0 m)]
                (set_seq (put_appender j a a' sh (cl_seq cl)) cl)
          | None => cl
          end
      | _, _ => cl
      end
  | None => cl
  end.

(** The answer to a store. *)
Definition stored (j : nat) (i : Z) (rpc : Rpc) (h : ResponseHeader) (cl : Cluster) : Cluster :=
  upd_appender j (λ a sh,
    match ap_state a, ap_tasks a !! i with
    | ApSending, Some (StSending rpc') =>
        if bool_decide (rpc' = rpc)
        then let '(sh, r) := store_answer i h sh in on_store_result i r a sh
        else Some (a, sh)
    | _, _ => Some (a, sh)
    end) cl.

Definition in_state (st : AppenderState) (f : Appender → option Appender) (a : Appender) (sh : SharedState)
    : option (Appender * SharedState) :=
  if bool_decide (ap_state a = st) then let! a := f a in Some (a, sh) else Some (a, sh).

Definition upd_shared (f : SharedState → SharedState) (s : Sequencer) : Sequencer :=
  mkSequencer (f (sq_shared s)) (sq_next_write_offset s) (sq_max_inflight s) (sq_permits s) (sq_closed s)
    (sq_cancelled s) (sq_appenders s).

(** *** Repairs *)

Definition repair_entry (c : nat) (cl : Cluster) : Cluster :=
  let x := client_of c cl in
  match c_task x with
  | TkRepair d (RpReplicating s k) =>
      if digests_finished d then set_client c (repair_done d x) cl
      else
        match rs_sent s !! k with
        | None => cl
        | Some (offset, e) =>
            match replicate_record offset e d with
            | None => cl
            | Some (RpSkip d) => set_client c (c_set_task (TkRepair d (RpReplicating s (S k))) x) cl
            | Some RpError => upd_client c abandon cl
            | Some (RpStore offset m fixups checker) =>
                let rpcs := imap (λ j i, (i, next_rpc cl + Z.of_nat j)) fixups in
                send ((λ i, (i, MsgStore (Z.of_nat c, 1) 0 m)) <$> fixups)
                  (set_client c (repair_poll (c_set_task (TkRepair d (RpStoring s (S k) offset checker rpcs)) x)) cl)
            end
        end
  | _ => cl
  end.

(** *** A step *)

Definition cluster_step (e : CEvent) (cl : Cluster) : Cluster :=
  match e with
  | CServer i e =>
      match e with
      | EvMessage _ _ => cl
      | _ => set_server i (server_step e (server_of i cl)) cl
      end
  | CDeliver k now => deliver k now cl
  | CEnqueue n => enqueue n cl
  | CWave j alive => upd_appender j (in_state ApWave (start_wave (λ n, bool_decide (n ∈ alive)))) cl
  | CStoreWait j i local t => store_wait j i local t cl
  | CStored j i k =>
      match replies_at i cl !! k with
      | Some (Stored rpc h) => stored j i rpc h cl
      | _ => cl
      end
  | CStoreFails j i shutdown =>
      upd_appender j (λ a sh,
        match ap_state a, ap_tasks a !! i with
        | ApSending, Some _ => on_store_result i (if shutdown then StsShutdown else StsError) a sh
        | _, _ => Some (a, sh)
        end) cl
  | CWaveEnd j =>
      upd_appender j (in_state ApSending (λ a, if bool_decide (ap_tasks a = ∅) then end_wave a else Some a)) cl
  | CBackoffEnd j => upd_appender j (in_state ApBackoff (λ a, Some (ap_set_state ApWave a))) cl
  | CCancel j =>
      if sq_cancelled (cl_seq cl)
      then upd_appender j (λ a sh, Some (if ap_is_final a then a else ap_set_state ApCancelled (ap_set_tasks ∅ a), sh)) cl
      else cl
  | CAppendEnd j => upd_appender j (λ a sh, Some (if ap_is_final a then ap_finish a else a, sh)) cl
  | CDrain => set_seq (drain (cl_seq cl)) cl
  | CSequencerSeals c =>
      if c_sealed (client_of c cl) && sq_closed (cl_seq cl) && is_drained (cl_seq cl)
      then set_seq (upd_shared (λ sh, mkShared (watch_seal (sh_known_global_tail sh)) (sh_servers sh) (sh_maybe_sealed sh)) (cl_seq cl)) cl
      else cl
  | CSequencerLearns c => set_seq (upd_shared (sh_notify_global (c_global (client_of c cl))) (cl_seq cl)) cl
  | CLearn c => upd_client c (λ x, Some (c_learn (tail_offset (sh_known_global_tail (sq_shared (cl_seq cl)))) x)) cl
  | CShare c c' => upd_client c (λ x, Some (c_learn (c_global (client_of c' cl)) x)) cl
  | CRequest c i r =>
      match request_message (c_global (client_of c cl)) r with
      | Some m => send [(i, m)] cl
      | None => cl
      end
  | CFind c => upd_client c (λ x, match c_task x with TkIdle => find_start x | _ => Some x end) cl
  | CInfo c i k =>
      match replies_at i cl !! k with
      | Some (LogletInfo _ h _) | Some (TailUpdated _ h) => upd_client c (λ x, Some (on_info i h x)) cl
      | _ => cl
      end
  | CDecide c gone nothing => upd_client c (decide_find gone nothing) cl
  | CSeal c => upd_client c (λ x, match c_task x with TkIdle => start_seal false x | _ => Some x end) cl
  | CSealAnswer c i None => upd_client c (on_seal_answer i None) cl
  | CSealAnswer c i (Some k) =>
      match replies_at i cl !! k with
      | Some (Sealed _ h) => upd_client c (on_seal_answer i (Some h)) cl
      | _ => cl
      end
  | CGiveUp c => upd_client c abandon cl
  | CDigest c i k =>
      match replies_at i cl !! k with
      | Some (Digest _ h entries) => upd_client c (on_digest i h entries) cl
      | _ => cl
      end
  | CDigestsEnd c => upd_client c digests_end cl
  | CRepairEntry c => repair_entry c cl
  | CRepairStored c i k =>
      match replies_at i cl !! k with
      | Some (Stored rpc h) => upd_client c (λ x, Some (on_repair_stored i rpc h x)) cl
      | _ => cl
      end
  | CRead c filt from to_ =>
      upd_client c (λ x, let! s := read_stream_start filt from to_ (c_global x) false in
                         Some (c_set_stream (Some s) (c_cache x) x)) cl
  | CReadTail c => upd_client c (λ x, Some (on_stream false (rs_tail_changed (c_global x)) x)) cl
  | CReadRecords c repair i k =>
      match replies_at i cl !! k with
      | Some (Records _ h _ records) => upd_client c (λ x, Some (on_records repair h records x)) cl
      | _ => cl
      end
  | CReadCache c repair =>
      upd_client c (λ x, Some (on_stream repair (λ s,
        match c_cache x !! rs_read_pointer s with Some r => rs_from_cache r s | None => s end) x)) cl
  | CReadTrim c repair i k =>
      match replies_at i cl !! k with
      | Some (LogletInfo _ h t) => upd_client c (λ x, Some (on_stream repair (rs_trim_gap t) x)) cl
      | _ => cl
      end
  | CCacheBatch c j =>
      match sq_appenders (cl_seq cl) !! j with
      | Some a => upd_client c (λ x, Some (c_set_stream (c_reader x)
                    (process_store_message (ap_first_offset a) (ap_records a) (c_cache x)) x)) cl
      | None => cl
      end
  end.

Definition cluster_init (max_inflight : Z) : Cluster := mkCluster ∅ [] (sequencer_new max_inflight) ∅.

Definition cluster_run (max_inflight : Z) (es : list CEvent) : Cluster :=
  foldl (flip cluster_step) (cluster_init max_inflight) es.

End Cluster.
