(* ===== verification/LogletEvidence.v ===== *)
(** * LogletEvidence: what the answers of log servers prove

    The tasks of a replicated loglet decide from answers of log servers.  This file says
    what an answer proves about the server that gave it (a batch is acknowledged, a record
    is held, the loglet is sealed at a tail), that none of this is ever lost, and which
    sets of answers allow a task to consider a tail as committed. *)

From stdpp Require Import strings gmap sorting.
From S2P Require Import Prelude BTreeMap LogTypes Locality Replication LogChain NodesConfig NodeSetChecker Quorums LogServer LogServerProps ReplicatedLoglet LogletCluster.

Open Scope Z_scope.

(** ** One server *)

Section Server.
Context (content : Z → LogRecord) (rcv : Rpc → Store → Prop) (told floor : Z).
Implicit Types (s : Server).

(** A held record is below the tail of the store, so that everything before it is held
    or below the global tail. *)
Lemma held_below_tail d o : disk_wf d → hold d o → 1 ≤ o → o < disk_tail d.
Proof.
  intros Hd Ho H1. destruct (disk_tail_bounds d Hd) as (_ & Ht & Hr).
  destruct Ho as [Ho|Ho]; [by apply Hr|lia].
Qed.

Lemma below_tail_held d o : disk_ok content told d → 1 ≤ told → told ≤ o < disk_tail d → hold d o.
Proof.
  intros Hd H1 Ho. destruct (proj1 (safe_hold content rcv told d o)) as [|]; [|done|lia]. apply (do_prefix _ _ _ Hd). lia.
Qed.

Lemma held_prefix d o o' : disk_ok content told d → 1 ≤ told → hold d o → told ≤ o' ≤ o → hold d o'.
Proof.
  intros Hd H1 Ho Ho'. apply below_tail_held; [done|done|].
  pose proof (held_below_tail _ _ (do_wf _ _ _ Hd) Ho). lia.
Qed.

Lemma local_tail_held s o :
  SInv content rcv told floor s → 1 ≤ told → told ≤ o < mem_tail (sv_node s) → hold (n_disk (sv_node s)) o.
Proof.
  intros [Hn _ _] H1 Ho. apply below_tail_held; [apply (ni_disk _ _ _ _ _ Hn)|done|].
  destruct (ni_le _ _ _ _ _ Hn). lia.
Qed.

Lemma reply_tail_bound s r :
  SInv content rcv told floor s → r ∈ n_replies (sv_node s) → rh_local_tail (reply_header r) ≤ u32_max.
Proof.
  intros [Hn _ _] Hr. destruct (ni_headers _ _ _ _ _ Hn _ Hr) as (Ht & _). destruct (ni_le _ _ _ _ _ Hn) as [Hl _].
  pose proof (disk_tail_bound _ (do_wf _ _ _ (ni_disk _ _ _ _ _ Hn))). lia.
Qed.

(** The server has answered that it reached [t] and was not sealed: what it is to store
    from then on does not matter to a later seal. *)
Lemma open_floor s r t :
  SInv content rcv told floor s → 1 ≤ t → r ∈ n_replies (sv_node s) →
  rh_sealed (reply_header r) = false → t ≤ rh_local_tail (reply_header r) →
  SInv content rcv told t s.
Proof.
  intros Hs H1 Hr Ho Ht. pose proof (si_node _ _ _ _ _ Hs) as Hn.
  destruct (ni_headers _ _ _ _ _ Hn _ Hr) as (Hm & _). eapply SInv_raise; [done|lia|].
  intros r' Hr' Hs'. pose proof (ni_order _ _ _ _ _ Hn _ _ Hr Hr' Hs' Ho). lia.
Qed.

(** So has a server that acknowledged a batch beyond the global tail. *)
Lemma acked_floor s rpc m :
  SInv content rcv told floor s → acked rcv told (sv_node s) rpc m → is_repair m = false →
  told ≤ store_last m → SInv content rcv told (store_last m + 1) s.
Proof.
  intros Hs [_ _ _ Hb Hf] Hrep Ht. eapply SInv_raise; [done| |].
  - pose proof (Hb Hrep). lia.
  - intros r Hr Hse. pose proof (Hf Hrep _ Hr Hse). lia.
Qed.

End Server.

(** ** A cluster *)

(** A replication property and a node set as they are built. *)
Class LogletEnvOk `{!LogletEnv} : Prop := {
  leo_replication : rp_wf (rlp_replication le_params);
  leo_nodeset : NoDup (rlp_nodeset le_params);
  leo_size : Z.of_nat (length (rlp_nodeset le_params)) ≤ u32_max }.

Section Evidence.
Context `{!LogletEnv, !LogletEnvOk} (content : Z → LogRecord).
Implicit Types (cl : Cluster).

(** The scopes that every checker of the loglet works on. *)
Definition loglet_scopes : Scopes := scopes_of nodeset le_config (rlp_replication le_params).

Lemma new_checker_good {Attr} `{Countable Attr} (P : Z → Attr → Prop) c :
  new_checker = Some c → good loglet_scopes P c.
Proof. apply good_new; [apply leo_replication|apply leo_nodeset|apply leo_size]. Qed.
Lemma new_effective_checker_good {Attr} `{Countable Attr} (P : Z → Attr → Prop) c :
  new_effective_checker = Some c → good loglet_scopes P c.
Proof. unfold new_effective_checker, effective_nodeset. rewrite NodeSetChecker_new_effective. apply new_checker_good. Qed.

(** A store that was sent to a node; a request has one number. *)
Definition sent_store cl (i : Z) (rpc : Rpc) (m : Store) : Prop :=
  ∃ k peer now, rpc = Z.of_nat k ∧ cl_sent cl !! k = Some (i, MsgStore peer now m).
Lemma sent_store_unique cl i rpc m m' : sent_store cl i rpc m → sent_store cl i rpc m' → m = m'.
Proof. intros (k & p & n & -> & Hk) (k' & p' & n' & E & Hk'). assert (k = k') as -> by lia. congruence. Qed.

Definition node_of (i : Z) cl : Node := sv_node (server_of i cl).
(** The node has the record, or had it and has trimmed it. *)
Definition holds cl (o i : Z) : Prop := hold (n_disk (node_of i cl)) o.

(** Each node has answered that
    - a batch that ends at [last] is stored;
    - it reached [t];
    - it reached [t] and is not sealed;
    - it is sealed, at [t] or before. *)
Definition ack_at cl (last i : Z) : Prop :=
  ∃ rpc h m, Stored rpc h ∈ replies_at i cl ∧ rh_status h = StOk ∧ sent_store cl i rpc m
    ∧ is_repair m = false ∧ store_last m = last.
Definition reached_at cl (t i : Z) : Prop :=
  ∃ r, r ∈ replies_at i cl ∧ t ≤ rh_local_tail (reply_header r).
Definition open_at cl (t i : Z) : Prop :=
  ∃ r, r ∈ replies_at i cl ∧ rh_sealed (reply_header r) = false ∧ t ≤ rh_local_tail (reply_header r).
Definition sealed_at cl (t i : Z) : Prop :=
  ∃ r, r ∈ replies_at i cl ∧ rh_sealed (reply_header r) = true ∧ rh_local_tail (reply_header r) ≤ t.

(** *** Nothing is lost *)

Record cl_le cl cl' : Prop := {
  le_node : ∀ i, node_le (node_of i cl) (node_of i cl');
  le_sent : cl_sent cl `prefix_of` cl_sent cl' }.

#[export] Instance cl_le_preorder : PreOrder cl_le.
Proof.
  split; [intros cl; split; [by intros i; split|done]|].
  intros a b c [A1 B1] [A2 B2]. split; [|by etrans]. intros i. destruct (A1 i), (A2 i). split; [auto|by etrans].
Qed.

Lemma replies_le cl cl' i r : cl_le cl cl' → r ∈ replies_at i cl → r ∈ replies_at i cl'.
Proof.
  intros [Hn _] Hr. destruct (Hn i) as [_ [l Hl]]. unfold replies_at, node_of in *. rewrite Hl.
  apply elem_of_app. by left.
Qed.
Lemma sent_store_le cl cl' i rpc m : cl_le cl cl' → sent_store cl i rpc m → sent_store cl' i rpc m.
Proof. intros [_ Hp] (k & p & n & -> & Hk). exists k, p, n. split; [done|]. by eapply prefix_lookup_Some. Qed.
Lemma holds_le cl cl' o i : cl_le cl cl' → holds cl o i → holds cl' o i.
Proof. intros [Hn _]. apply (Hn i). Qed.
Lemma ack_at_le cl cl' l i : cl_le cl cl' → ack_at cl l i → ack_at cl' l i.
Proof. intros Hl (rpc & h & m & A & B & C & D). exists rpc, h, m. eauto 6 using replies_le, sent_store_le. Qed.
Lemma reached_at_le cl cl' t i : cl_le cl cl' → reached_at cl t i → reached_at cl' t i.
Proof. intros Hl (r & A & B). exists r. eauto using replies_le. Qed.
Lemma open_at_le cl cl' t i : cl_le cl cl' → open_at cl t i → open_at cl' t i.
Proof. intros Hl (r & A & B). exists r. eauto using replies_le. Qed.
Lemma sealed_at_le cl cl' t i : cl_le cl cl' → sealed_at cl t i → sealed_at cl' t i.
Proof. intros Hl (r & A & B). exists r. eauto using replies_le. Qed.

(** *** Committed tails *)

Definition servers_ok (B : Z) cl : Prop :=
  ∀ i, SInv content (sent_store cl i) B 1 (server_of i cl).

(** Every record below the tail is on a write quorum. *)
Definition replicated cl (g : Z) : Prop :=
  ∀ o, 1 ≤ o < g → is_write_quorum loglet_scopes (holds cl o).

(** A write quorum of nodes from which no answer that reports a seal has a tail below [g]. *)
Definition fenced (B : Z) cl (g : Z) : Prop :=
  is_write_quorum loglet_scopes (λ i, SInv content (sent_store cl i) B g (server_of i cl)).

(** A tail that a task may use, when it knows the tails [targets] of the sealed loglet. *)
Definition committable (B : Z) cl (targets : list Z) (g : Z) : Prop :=
  g ≤ B ∨ replicated cl g ∧ ((∃ N, N ∈ targets ∧ g ≤ N) ∨ fenced B cl g).

Lemma replicated_extend B cl g (W : Z → Prop) :
  replicated cl B → is_write_quorum loglet_scopes W → (∀ i o, W i → B ≤ o < g → holds cl o i) → replicated cl g.
Proof.
  intros Hr Hw HW o Ho. destruct (decide (o < B)); [apply Hr; lia|].
  eapply write_quorum_mono; [|exact Hw]. intros i Hi. apply HW; [done|lia].
Qed.

Section Commit.
Context (B : Z) (cl : Cluster) (targets : list Z).
Context (HB : 1 ≤ B) (Hsv : servers_ok B cl) (Hrep : replicated cl B).

Lemma acked_of i rpc h m :
  Stored rpc h ∈ replies_at i cl → rh_status h = StOk → sent_store cl i rpc m →
  acked (sent_store cl i) B (node_of i cl) rpc m.
Proof.
  intros Hin Hok Hs. destruct (ni_stored _ _ _ _ _ (si_node _ _ _ _ _ (Hsv i)) _ _ Hin Hok) as [m' Ha].
  by rewrite (sent_store_unique _ _ _ _ _ Hs (ak_rcv _ _ _ _ _ Ha)).
Qed.

Lemma reached_mem i t : reached_at cl t i → t ≤ mem_tail (node_of i cl).
Proof.
  intros (r & Hr & Ht). destruct (ni_headers _ _ _ _ _ (si_node _ _ _ _ _ (Hsv i)) _ Hr) as (? & _). unfold node_of. lia.
Qed.

Lemma reached_holds i t o : reached_at cl t i → B ≤ o < t → holds cl o i.
Proof.
  intros Hr Ho. apply reached_mem in Hr. eapply local_tail_held; [apply (Hsv i)|done|]. unfold node_of in *. lia.
Qed.

(** The batch is on a write quorum. *)
Lemma acks_commit last :
  is_write_quorum loglet_scopes (ack_at cl last) → committable B cl targets (last + 1).
Proof.
  intros Hw. destruct (decide (last + 1 ≤ B)); [by left|right]. split.
  - eapply replicated_extend; [exact Hrep|exact Hw|]. intros i o (rpc & h & m & A1 & A2 & A3 & A4 & <-) Ho.
    pose proof (acked_of _ _ _ _ A1 A2 A3) as Ha.
    destruct (proj1 (safe_hold content (sent_store cl i) B (n_disk (node_of i cl)) o)); [|done|lia].
    eapply acked_prefix; [apply (si_node _ _ _ _ _ (Hsv i))|exact Ha|done|lia].
  - right. eapply write_quorum_mono; [|exact Hw]. intros i (rpc & h & m & A1 & A2 & A3 & A4 & <-).
    eapply acked_floor; [apply Hsv|by eapply acked_of|done|lia].
Qed.

(** The nodes of a write quorum are open and reached the tail. *)
Lemma open_commit t :
  is_write_quorum loglet_scopes (open_at cl t) → committable B cl targets t.
Proof.
  intros Hw. destruct (decide (t ≤ B)); [by left|right]. split.
  - eapply replicated_extend; [exact Hrep|exact Hw|]. intros i o (r & A1 & A2 & A3). apply reached_holds. by exists r.
  - right. eapply write_quorum_mono; [|exact Hw]. intros i (r & A1 & A2 & A3).
    eapply open_floor; [apply Hsv|lia|exact A1|done|done].
Qed.

(** The nodes of a write quorum reached a tail of the sealed loglet. *)
Lemma sealed_commit t :
  t ∈ targets → is_write_quorum loglet_scopes (reached_at cl t) → committable B cl targets t.
Proof.
  intros Ht Hw. right. split; [|left; eauto with lia].
  eapply replicated_extend; [exact Hrep|exact Hw|]. intros i o Hi. by apply reached_holds.
Qed.

(** The nodes of a write quorum have a record below such a tail. *)
Lemma held_commit o N :
  N ∈ targets → o < N → is_write_quorum loglet_scopes (λ i, holds cl o i ∨ o < B) →
  committable B cl targets (o + 1).
Proof.
  intros HN Ho Hw. destruct (decide (o + 1 ≤ B)); [by left|right]. split; [|left; exists N; split; [done|lia]].
  eapply replicated_extend; [exact Hrep|exact Hw|]. intros i o' [Hh|?] Ho'; [|lia].
  eapply held_prefix; [exact (sent_store cl i)|apply (ni_disk _ _ _ _ _ (si_node _ _ _ _ _ (Hsv i)))|done|exact Hh|lia].
Qed.

End Commit.

(** The bound of what is committed grows. *)
Inductive raises cl (targets : list Z) : Z → Z → Prop :=
| raises_refl B : raises cl targets B B
| raises_step B g B' : committable B cl targets g → raises cl targets (Z.max B g) B' → raises cl targets B B'.

Record committed_upto (B : Z) cl : Prop := {
  cu_pos : 1 ≤ B;
  cu_servers : servers_ok B cl;
  cu_replicated : replicated cl B }.

Lemma raises_one cl ts B g : committable B cl ts g → raises cl ts B (Z.max B g).
Proof. intros Hg. eapply raises_step; [exact Hg|]. constructor. Qed.
Lemma raises_trans cl ts B1 B2 B3 : raises cl ts B1 B2 → raises cl ts B2 B3 → raises cl ts B1 B3.
Proof. induction 1; [done|]. intros ?. eapply raises_step; eauto. Qed.
Lemma raises_le cl ts B B' : raises cl ts B B' → B ≤ B'.
Proof. induction 1; lia. Qed.

Lemma committed_raise cl ts B g : committable B cl ts g → committed_upto B cl → committed_upto (Z.max B g) cl.
Proof.
  intros Hg [H1 Hs Hr]. split; [lia| |].
  - intros i. apply (SInv_mono _ (sent_store cl i) _ B _ 1); [done|lia|done|exact (Hs i)].
  - destruct Hg as [Hg|[Hg _]].
    + by replace (Z.max B g) with B by lia.
    + destruct (Z.max_spec B g) as [[_ ->]|[_ ->]]; done.
Qed.
Lemma committed_raises cl ts B B' : raises cl ts B B' → committed_upto B cl → committed_upto B' cl.
Proof. induction 1; [done|]. intros Hc. by eapply IHraises, committed_raise. Qed.

Lemma committable_mono B cl ts ts' g : ts ⊆ ts' → committable B cl ts g → committable B cl ts' g.
Proof. intros Hts [?|[? [(N & ? & ?)|?]]]; [by left|right..]; (split; [done|]); [left; eauto|by right]. Qed.

End Evidence.
