(* ===== verification/LogletInv.v ===== *)
(** * LogletInv: the invariant of a replicated loglet

    The bound [B] of the invariant is the largest tail that anybody considers as committed.
    Everything below it is on a write quorum; and either it is at most a tail that a client
    found on an f-majority of sealed nodes, or no node of some write quorum will ever report
    a seal below it.  The tasks keep evidence (LogletEvidence.v) for what they believe. *)

From stdpp Require Import strings gmap sorting.
From S2P Require Import Prelude BTreeMap LogTypes Locality Replication LogChain NodesConfig NodeSetChecker Quorums LogServer LogServerProps ReplicatedLoglet LogletCluster LogletEvidence.

Open Scope Z_scope.

(** ** Watches *)

Lemma watch_offset_max g t : tail_offset (watch_offset g t) = Z.max (tail_offset t) g.
Proof. unfold watch_offset. rewrite tail_combine_new. apply offset_new. Qed.
Lemma watch_notify_max b g t : tail_offset (watch_notify b g t) = Z.max (tail_offset t) g.
Proof. unfold watch_notify. rewrite tail_combine_new. apply offset_new. Qed.
Lemma watch_seal_offset t : tail_offset (watch_seal t) = tail_offset t.
Proof. unfold watch_seal. rewrite tail_seal_new. apply offset_new. Qed.
#[export] Hint Rewrite watch_offset_max watch_notify_max watch_seal_offset : watch.

Lemma offset_next_le o : offset_next o ≤ o + 1.
Proof. unfold offset_next, saturating_add. lia. Qed.

Lemma elem_of_rev {A} (l : list A) y : y ∈ rev l ↔ y ∈ l.
Proof. rewrite !list_elem_of_In. symmetry. apply in_rev. Qed.

(** ** Streams *)

Section Streams.
Context (content : Z → LogRecord).
Implicit Types (s : ReadStream).

Definition entry_next (o : Z) (e : MaybeRecord) : Z :=
  match e with MrData _ => offset_next o | MrTrimGap t | MrFilteredGap t => offset_next t end.

(** The entries start at [p] without a hole, and the next one is at [q]. *)
Fixpoint chained (p : Z) (l : list (Z * MaybeRecord)) (q : Z) : Prop :=
  match l with
  | [] => p = q
  | (o, e) :: l => o = p ∧ chained (entry_next o e) l q
  end.

Lemma chained_snoc p l q e : chained p l q → chained p (l ++ [(q, e)]) (entry_next q e).
Proof.
  revert p. induction l as [|[o e'] l IH]; intros p; simpl; [by intros ->|]. intros [-> Hc]. split; [done|by apply IH].
Qed.

(** A stream that stays below the global tail delivers nothing beyond it. *)
Definition entry_ok (B : Z) (beyond : bool) (o : Z) (e : MaybeRecord) : Prop :=
  match e with
  | MrData r => r = content o ∧ (beyond = false → o < B)
  | MrTrimGap t => t < B
  | MrFilteredGap t => beyond = false → t < B
  end.

Record stream_ok (B : Z) s : Prop := {
  so_chain : ∃ p, chained p (rs_sent s) (rs_read_pointer s);
  so_pointer : 1 ≤ rs_read_pointer s;
  so_entries : ∀ o e, (o, e) ∈ rs_sent s → entry_ok B (rs_move_beyond_global_tail s) o e;
  so_tail : rs_move_beyond_global_tail s = false → rs_last_known_tail s ≤ B }.

Lemma entry_ok_mono B B' b o e : B ≤ B' → entry_ok B b o e → entry_ok B' b o e.
Proof. intros HB. destruct e; simpl; naive_solver lia. Qed.
Lemma stream_ok_mono B B' s : B ≤ B' → stream_ok B s → stream_ok B' s.
Proof.
  intros HB [A P E T]. split; [done|done| |intros Hb; specialize (T Hb); lia].
  intros o e He. by eapply entry_ok_mono, E.
Qed.

Lemma ship_ok B e next s :
  stream_ok B s → entry_ok B (rs_move_beyond_global_tail s) (rs_read_pointer s) e →
  next = entry_next (rs_read_pointer s) e → 1 ≤ next → stream_ok B (rs_ship e next s).
Proof.
  intros [[p Hc] HP HE HT] He -> Hn. split; simpl; [exists p; by apply chained_snoc|done| |done].
  intros o e' [Hin|Hin]%elem_of_app; [by apply HE|]. apply list_elem_of_singleton in Hin. by simplify_eq.
Qed.

Lemma offset_next_pos o : 0 ≤ o → 1 ≤ offset_next o.
Proof. unfold offset_next, saturating_add. lia. Qed.

Lemma trim_gap_ok B t s : t < B → stream_ok B s → stream_ok B (rs_trim_gap t s).
Proof.
  intros Ht Hs. unfold rs_trim_gap. destruct (Z.leb_spec (rs_read_pointer s) t); [|done].
  apply ship_ok; try done. apply offset_next_pos. pose proof (so_pointer _ _ Hs). lia.
Qed.

Lemma from_cache_ok B r s :
  r = content (rs_read_pointer s) → stream_ok B s → stream_ok B (rs_from_cache r s).
Proof.
  intros -> Hs. unfold rs_from_cache. destruct (rs_can_advance s) eqn:Ha; simpl; [|done].
  unfold rs_can_advance in Ha. apply andb_true_iff in Ha as [Ha%Z.ltb_lt _]. pose proof (so_pointer _ _ Hs).
  assert (rs_move_beyond_global_tail s = false → rs_read_pointer s < B) as Hb.
  { intros Hb. pose proof (so_tail _ _ Hs Hb). lia. }
  destruct (matches_key_query _ _); apply ship_ok; try done; apply offset_next_pos; lia.
Qed.

Lemma tail_changed_ok B g s :
  g ≤ B → rs_move_beyond_global_tail s = false → stream_ok B s → stream_ok B (rs_tail_changed g s).
Proof. intros Hg Hb [A P E T]. by split. Qed.

Lemma on_records_ok B records : ∀ cache s,
  (∀ o r, (o, MrData r) ∈ records → r = content o) → (∀ o t, (o, MrTrimGap t) ∈ records → 0 ≤ t < B) →
  (∀ o r, cache !! o = Some r → r = content o) → stream_ok B s →
  (∀ o r, (rs_on_records records cache s).1 !! o = Some r → r = content o)
  ∧ stream_ok B (rs_on_records records cache s).2.
Proof.
  induction records as [|[offset e] records IH]; intros cache s Hd Ht Hc Hs; simpl; [done|].
  assert (∀ o r, (o, MrData r) ∈ records → r = content o) as Hd' by (intros; apply Hd; by right).
  assert (∀ o t, (o, MrTrimGap t) ∈ records → 0 ≤ t < B) as Ht' by (intros o t ?; apply (Ht o); by right).
  pose proof (so_pointer _ _ Hs) as Hp.
  destruct ((rs_last_known_tail s <=? offset) || (rs_read_pointer s <? offset)) eqn:E1.
  { apply IH; [done|done| |done]. destruct e; try done. intros o r0.
    rewrite lookup_insert_Some. intros [[<- <-]|[_ ?]]; [apply Hd; left|by eapply Hc]. }
  apply orb_false_iff in E1 as [E1%Z.leb_gt E2%Z.ltb_ge].
  destruct (Z.eqb_spec offset (rs_read_pointer s)) as [->|]; [|by apply IH].
  assert (rs_move_beyond_global_tail s = false → rs_read_pointer s < B) as Hb.
  { intros Hb. pose proof (so_tail _ _ Hs Hb). lia. }
  destruct e as [to_|to_|r]; (apply IH; [done..|]; apply ship_ok; try done).
  - destruct (Ht (rs_read_pointer s) to_); [left|]. simpl. lia.
  - apply offset_next_pos. destruct (Ht (rs_read_pointer s) to_); [left|lia].
  - simpl. intros Hb'. pose proof (so_tail _ _ Hs Hb').
    unfold offset_prev, saturating_sub, LogletOffset_OLDEST. lia.
  - apply offset_next_pos. unfold offset_prev, LogletOffset_OLDEST. lia.
  - split; [apply Hd; left|done].
  - apply offset_next_pos; lia.
Qed.

End Streams.

(** ** Finding the tail *)

Section Loglet.
Context `{!LogletEnv, !LogletEnvOk} (content : Z → LogRecord).
Implicit Types (cl : Cluster) (x : Client).

Definition tail_evidence cl (i : Z) (st : NodeTailStatus) : Prop :=
  match st with
  | NtUnknown => True
  | NtKnown t sealed => reached_at cl t i ∧ if sealed then sealed_at cl t i else open_at cl t i
  end.

Lemma tail_evidence_le cl cl' i st : cl_le cl cl' → tail_evidence cl i st → tail_evidence cl' i st.
Proof.
  intros Hl. destruct st as [|t []]; [done|..]; intros [? ?];
    split; eauto using reached_at_le, sealed_at_le, open_at_le.
Qed.

Lemma tail_evidence_of cl i r :
  r ∈ replies_at i cl → tail_evidence cl i (tail_status (reply_header r)).
Proof.
  intros Hr. unfold tail_status. destruct (rh_status _); try done;
    (split; [by exists r|]; destruct (rh_sealed _) eqn:E; exists r; done).
Qed.

Lemma tail_evidence_merge cl i a b :
  tail_evidence cl i a → tail_evidence cl i b → tail_evidence cl i (nt_merge a b).1.
Proof.
  assert (∀ t t', t ≤ t' → sealed_at cl t i → sealed_at cl t' i) as Hs.
  { intros t t' Ht (r & ? & ? & ?). exists r. split_and!; [done|done|lia]. }
  destruct a as [|t1 s1], b as [|t2 s2]; simpl; try done. intros [R1 S1] [R2 S2].
  split; [destruct (Z.max_spec t1 t2) as [[_ ->]|[_ ->]]; done|].
  destruct s1; simpl; [by eapply Hs, S1; lia|]. destruct s2; [by eapply Hs, S2; lia|].
  destruct (Z.max_spec t1 t2) as [[_ ->]|[_ ->]]; done.
Qed.

Lemma tail_evidence_known cl i r c :
  r ∈ replies_at i cl → good loglet_scopes (tail_evidence cl) c →
  good loglet_scopes (tail_evidence cl) (merge_attribute i (tail_status (reply_header r)) c).
Proof.
  intros Hr. apply good_merge.
  - apply (tail_evidence_merge _ _ NtUnknown); [done|by apply tail_evidence_of].
  - intros b Hb. apply (tail_evidence_merge _ _ b); [done|by apply tail_evidence_of].
Qed.

Lemma max_local_tail_spec p (c : TailChecker) t :
  max_local_tail p c = Some t →
  (∀ i a u, node_to_attr c !! i = Some a → p a = true → nt_local_tail a = Some u → u ≤ t)
  ∧ ∃ i a, node_to_attr c !! i = Some a ∧ p a = true ∧ nt_local_tail a = Some t.
Proof.
  unfold max_local_tail. assert (∀ i a, (i, a) ∈ checker_filter p c ↔ p a = true ∧ node_to_attr c !! i = Some a) as Hin.
  { intros i a. unfold checker_filter. rewrite list_elem_of_filter, elem_of_map_to_list. done. }
  intros Ht. cut ((∀ i a u, (i, a) ∈ checker_filter p c → nt_local_tail a = Some u → u ≤ t)
    ∧ ∃ i a, (i, a) ∈ checker_filter p c ∧ nt_local_tail a = Some t).
  { intros [A (i & a & B1 & B2)]. split; [intros j b u Hj Hp; by apply (A j), Hin|].
    exists i, a. apply Hin in B1 as [? ?]. done. }
  clear Hin. revert t Ht. induction (checker_filter p c) as [|[i a] l IH]; intros t; simpl; [done|].
  set (m := foldr _ None l) in *. destruct (nt_local_tail a) as [v|] eqn:Ev.
  - destruct m as [w|] eqn:Em; intros [= <-].
    + destruct (IH w eq_refl) as [A (j & b & B1 & B2)]. split.
      * intros k b' u [?|Hk]%elem_of_cons Hu; [simplify_eq; lia|]. pose proof (A _ _ _ Hk Hu). lia.
      * destruct (Z.max_spec v w) as [[_ ->]|[_ ->]]; [exists j, b; split; [by right|done]|exists i, a; split; [by left|done]].
    + split; [|exists i, a; split; [by left|done]]. intros k b' u [?|Hk]%elem_of_cons Hu; [by simplify_eq|].
      exfalso. clear IH Ev. subst m. induction l as [|[k' b''] l IHl]; [by apply elem_of_nil in Hk|].
      simpl in Em. destruct (nt_local_tail b'') eqn:E'; [by destruct (foldr _ _ l)|].
      apply elem_of_cons in Hk as [?|Hk]; [simplify_eq; congruence|by apply IHl].
  - intros Em. destruct (IH t Em) as [A (j & b & B1 & B2)]. split; [|exists j, b; split; [by right|done]].
    intros k b' u [?|Hk]%elem_of_cons Hu; [simplify_eq; congruence|by eapply A].
Qed.

(** What is true when the task decides. *)
Definition decision_ok (B : Z) cl (targets : list Z) (dec : TailDecision) : Prop :=
  match dec with
  | DcReturn (FtOpen g) => committable content B cl targets g
  | DcReturn (FtSealed g) =>
      1 ≤ g ≤ u32_max ∧ is_fmajority loglet_scopes (sealed_at cl g) ∧ committable content B cl (targets ++ [g]) g
  | DcRepair start target =>
      1 ≤ start ≤ B ∧ 1 ≤ target ≤ u32_max ∧ is_fmajority loglet_scopes (sealed_at cl target)
  | _ => True
  end.

Section Decide.
Context (B : Z) (cl : Cluster) (targets : list Z) (known : Z).
Context (HB : 1 ≤ known ≤ B) (Hsv : servers_ok content B cl) (Hrep : replicated cl B).

Lemma quorum_reached c t :
  good loglet_scopes (tail_evidence cl) c → check_write_quorum (reached t) c = true →
  is_write_quorum loglet_scopes (reached_at cl t).
Proof.
  intros Hc Hw. eapply write_quorum_mono; [|by eapply good_write_quorum].
  intros i ([|u s] & Hr & He); [done|]. apply Z.leb_le in Hr. destruct He as [(r & ? & ?) _].
  exists r. split; [done|lia].
Qed.

Lemma quorum_open c t :
  good loglet_scopes (tail_evidence cl) c → check_write_quorum (reached_open t) c = true →
  is_write_quorum loglet_scopes (open_at cl t).
Proof.
  intros Hc Hw. eapply write_quorum_mono; [|by eapply good_write_quorum].
  intros i ([|u []] & Hr & He); [done|done|]. apply Z.leb_le in Hr. destruct He as [_ (r & ? & ? & ?)].
  exists r. split_and!; [done|done|lia].
Qed.

Lemma sealed_fmajority c t r :
  good loglet_scopes (tail_evidence cl) c → check_fmajority nt_is_known_sealed c = Some r → fm_passed r = true →
  max_local_tail nt_is_known_sealed c = Some t →
  1 ≤ t ≤ u32_max ∧ is_fmajority loglet_scopes (sealed_at cl t).
Proof.
  intros Hc Hr Hp [Hmax (i & a & Ha & Hsl & Hat)]%max_local_tail_spec. split.
  - destruct a as [|u []]; simplify_eq/=.
    destruct (go_attrs _ _ _ Hc _ _ Ha) as [(rp & Hin & Ht) (rp' & Hin' & Hs' & Ht')].
    pose proof (reply_tail_bound _ _ _ _ _ _ (Hsv i) Hin).
    destruct (ni_floor _ _ _ _ _ (si_node _ _ _ _ _ (Hsv i))) as [_ Hf]. pose proof (Hf _ Hin' Hs'). lia.
  - assert (good loglet_scopes (λ i a, tail_evidence cl i a ∧ (nt_is_known_sealed a = true →
      ∀ u, nt_local_tail a = Some u → u ≤ t)) c) as Hc'.
    { destruct Hc as [C1 C2 C3]. split; [done|done|]. intros j b Hb. split; [by apply C3|]. eauto. }
    eapply fmajority_mono; [|by eapply good_fmajority].
    intros j (b & Hb & He & Hle). specialize (Hle Hb). destruct b as [|u []]; try done.
    destruct He as [_ (rp & ? & ? & ?)]. exists rp. pose proof (Hle _ eq_refl). split_and!; [done|done|lia].
Qed.

Lemma check_nodeset_ok c dec :
  good loglet_scopes (tail_evidence cl) c → check_nodeset known c = Some dec → decision_ok B cl targets dec.
Proof.
  intros Hc. unfold check_nodeset. destruct (check_fmajority nt_is_known c) as [k|]; [|done]. simpl.
  destruct (fm_passed k); simpl; [|by intros [= <-]].
  destruct (check_fmajority nt_is_known_sealed c) as [sl|] eqn:Esl; [|done]. simpl.
  destruct (fm_passed sl) eqn:Ep.
  - destruct (max_local_tail nt_is_known_sealed c) as [t|] eqn:Et; [|done]. simpl.
    destruct (sealed_fmajority _ _ _ Hc Esl Ep Et) as [Hb Hf].
    destruct (t <? known); [by intros [= <-]|].
    destruct ((t =? known) || _) eqn:E.
    + intros [= <-]. split; [done|]. split; [done|]. apply orb_true_iff in E as [E%Z.eqb_eq|E]; [left; lia|].
      apply sealed_commit; [lia|done|done|set_solver|by eapply quorum_reached].
    + destruct (check_write_quorum nt_is_known c); intros [= <-]; done.
  - destruct (checker_any _ c); [by intros [= <-]|].
    destruct (max_local_tail nt_is_known c) as [t|]; [|done]. simpl.
    destruct (check_write_quorum (reached_open t) c) eqn:Eo.
    { intros [= <-]. apply open_commit; [lia|done|done|by eapply quorum_open]. }
    destruct (t <=? known); intros [= <-]; [left; lia|done].
Qed.

Lemma watch_nodeset_ok t gone nothing c dec :
  good loglet_scopes (tail_evidence cl) c → watch_nodeset t known gone nothing c = Some dec →
  decision_ok B cl targets dec.
Proof.
  intros Hc. unfold watch_nodeset. destruct (checker_any _ c); [by apply check_nodeset_ok|].
  destruct (check_write_quorum (reached_open t) c) eqn:Eo.
  { intros [= <-]. apply open_commit; [lia|done|done|by eapply quorum_open]. }
  destruct (t <=? known); [intros [= <-]; left; lia|]. repeat case_match; by intros [= <-].
Qed.

End Decide.

(** ** Repairing the tail *)

Record digests_ok (B : Z) cl (targets : list Z) (d : Digests) : Prop := {
  dk_start : dg_start_offset d ≤ B;
  dk_target : dg_target_tail d ∈ targets;
  dk_offsets : ∀ o ns, (o, ns) ∈ dg_offsets_under_repair d →
    1 ≤ o < dg_target_tail d ∧ ∀ i, i ∈ ns → holds cl o i }.

Lemma digests_ok_mono B B' cl cl' ts ts' d :
  B ≤ B' → cl_le cl cl' → ts ⊆ ts' → digests_ok B cl ts d → digests_ok B' cl' ts' d.
Proof.
  intros HB Hl Hts [A1 A2 A3]. split; [lia|by apply Hts|]. intros o ns Hin. destruct (A3 _ _ Hin) as [? Hh].
  split; [done|]. intros i Hi. eapply holds_le; [done|by apply Hh].
Qed.

Lemma digests_new_ok B cl ts start target :
  1 ≤ start ≤ B → target ∈ ts → digests_ok B cl ts (digests_new start target).
Proof.
  intros Hs Ht. split; simpl; [lia|done|]. intros o ns. destruct (Z.leb_spec target start); [by intros ?%elem_of_nil|].
  intros (k & [= -> ->] & Hk%elem_of_seq)%list_elem_of_fmap. split; [lia|set_solver].
Qed.

Lemma update_start_ok B cl ts new d :
  new ≤ B → digests_ok B cl ts d → digests_ok B cl ts (update_start_offset new d).
Proof.
  intros Hn [A1 A2 A3]. unfold update_start_offset. destruct (_ =? _); [split; simpl; [lia|done|done]|].
  split; simpl; [lia|done|]. intros o ns. case_match; [by intros ?%elem_of_nil|].
  intros [_ ?]%list_elem_of_filter. by apply A3.
Qed.

Lemma add_copies_ok cl i from to_ l (P : Z → Prop) :
  (∀ o, from ≤ o ≤ to_ → holds cl o i) →
  (∀ o ns, (o, ns) ∈ l → P o ∧ ∀ j, j ∈ ns → holds cl o j) →
  ∀ o ns, (o, ns) ∈ add_copies i from to_ l → P o ∧ ∀ j, j ∈ ns → holds cl o j.
Proof.
  intros Hh Hl o ns ([o' ns'] & E & Hin)%list_elem_of_fmap. destruct (Hl _ _ Hin) as [Hp Hc]. simpl in E.
  destruct ((from <=? o') && (o' <=? to_)) eqn:Ei; simplify_eq; [|done].
  apply andb_true_iff in Ei as [?%Z.leb_le ?%Z.leb_le]. split; [done|].
  intros j [?|Hj%elem_of_singleton]%elem_of_union; [by apply Hc|subst; by apply Hh].
Qed.

Lemma add_entries_ok cl i entries (P : Z → Prop) : ∀ l,
  (∀ e o, e ∈ entries → de_status e = RsExists → de_from_offset e ≤ o ≤ de_to_offset e → holds cl o i) →
  (∀ o ns, (o, ns) ∈ l → P o ∧ ∀ j, j ∈ ns → holds cl o j) →
  ∀ o ns, (o, ns) ∈ foldl (λ l e, match de_status e with
                                  | RsExists => add_copies i (de_from_offset e) (de_to_offset e) l
                                  | _ => l
                                  end) l entries → P o ∧ ∀ j, j ∈ ns → holds cl o j.
Proof.
  induction entries as [|e entries IH]; intros l He Hl; simpl; [done|].
  apply IH; [intros; eapply He; [by right|done..]|].
  destruct (de_status e) eqn:Es; try done. apply add_copies_ok; [|done]. intros o Ho. eapply He; [by left|done..].
Qed.

Lemma on_digest_message_ok B cl ts i h entries w d :
  rh_known_global_tail h ≤ B → tail_offset w ≤ B →
  (∀ e o, e ∈ entries → de_status e = RsExists → de_from_offset e ≤ o ≤ de_to_offset e → holds cl o i) →
  digests_ok B cl ts d →
  tail_offset w ≤ tail_offset (on_digest_message i h entries w d).1 ≤ B
  ∧ digests_ok B cl ts (on_digest_message i h entries w d).2.
Proof.
  intros Hg Hw He Hd. unfold on_digest_message.
  pose proof (watch_offset_max (rh_known_global_tail h) w) as Ew.
  set (w' := watch_offset _ w) in *. assert (tail_offset w ≤ tail_offset w' ≤ B) as Hw' by lia.
  pose proof (update_start_ok B cl ts (tail_offset w') d ltac:(lia) Hd) as Hd'.
  set (d' := update_start_offset _ d) in *. repeat (case_match; [done|]). destruct Hd' as [A1 A2 A3].
  case_match; [done|]. split; [done|]. split; simpl; [done|done|]. by apply add_entries_ok.
Qed.

Lemma copies_good cl o nodes c P :
  copies_checker nodes = Some c → (∀ i, i ∈ nodes → holds cl o i) → (∀ i, holds cl o i → P i true) →
  good loglet_scopes P c.
Proof.
  unfold copies_checker. destruct new_checker as [c0|] eqn:E; [|done]. simpl. intros [= <-] Hn HP.
  apply good_each; [|by apply new_checker_good]. intros i Hi%elem_of_elements. auto.
Qed.

Lemma last_replicated_ok cl l : ∀ c P o,
  good loglet_scopes P c → (∀ o ns, (o, ns) ∈ l → ∀ i, i ∈ ns → holds cl o i) →
  last_replicated l c = Some o →
  o ∈ l.*1 ∧ is_write_quorum loglet_scopes (holds cl o).
Proof.
  induction l as [|[o1 ns1] l IH]; intros c P o Hc Hl; simpl; [done|].
  assert (good loglet_scopes (λ i (a : bool), a = true → holds cl o1 i)
    (set_attribute_on_each (elements ns1) true (fill_with false c))) as Hc'.
  { apply good_each; [|by eapply good_fill; [|exact Hc]].
    intros i Hi%elem_of_elements _. by eapply Hl; [left|]. }
  destruct (check_write_quorum _ _) eqn:Eq.
  - intros [= <-]. split; [by left|]. eapply write_quorum_mono; [|by eapply good_write_quorum].
    intros i ([] & ? & Hi); [by apply Hi|done].
  - intros Ho. destruct (IH _ _ _ Hc' ltac:(intros; eapply Hl; [by right|done]) Ho) as [? ?]. split; [by right|done].
Qed.

Section Advance.
Context (B : Z) (cl : Cluster) (targets : list Z).
Context (HB : 1 ≤ B) (Hsv : servers_ok content B cl) (Hrep : replicated cl B).

Lemma advance_ok d d' b :
  digests_ok B cl targets d → advance d = Some (d', b) →
  ∃ g, committable content B cl targets g ∧ digests_ok (Z.max B g) cl targets d'.
Proof.
  intros Hd. unfold advance. destruct (can_repair d) as [ok|]; [|done]. simpl.
  assert (d = d' → ∃ g, committable content B cl targets g ∧ digests_ok (Z.max B g) cl targets d') as Hsame.
  { intros <-. exists B. split; [left; lia|]. by replace (Z.max B B) with B by lia. }
  destruct ok; simpl; [|intros [= -> _]; by apply Hsame].
  destruct new_checker as [c|] eqn:Ec; [|done]. simpl.
  destruct (last_replicated _ c) as [o|] eqn:El.
  - intros [= <- _]. pose proof Hd as [A1 A2 A3].
    destruct (last_replicated_ok cl _ _ (λ _ _, True) _ (new_checker_good _ _ Ec)
      ltac:(intros o' ns Hin; apply (A3 o' ns); by apply elem_of_rev) El) as [Hin Hw].
    apply list_elem_of_fmap in Hin as ([o' ns] & -> & Hin). rewrite elem_of_rev in Hin.
    destruct (A3 _ _ Hin) as [Ho _]. exists (o' + 1). split.
    + eapply held_commit; [done..|apply A2|lia|]. eapply write_quorum_mono; [|exact Hw]. simpl. auto.
    + apply update_start_ok; [simpl; pose proof (offset_next_le o'); lia|]. eapply digests_ok_mono; [|done..]. lia.
  - destruct (digests_finished d); [intros [= -> _]; by apply Hsame|].
    destruct (dg_offsets_under_repair d) as [|[o1 ns1] l]; [done|]. intros [= -> _]. by apply Hsame.
Qed.

End Advance.
End Loglet.
