(* ===== verification/LogletClients.v ===== *)
(** * LogletClients: the clients of a replicated loglet keep their invariant

    What a client believes (LogletCluster.v) is backed by evidence: its watch and its
    results are committed tails, the tails of its finished seals were reported by an
    f-majority of sealed nodes, a running task has evidence for its attributes, streams
    and caches have the records of the loglet.  Each step of a client keeps this; a step
    that finds a larger tail shows that it may be committed. *)

From stdpp Require Import strings gmap sorting.
From S2P Require Import Prelude BTreeMap LogTypes Locality Replication LogChain NodesConfig NodeSetChecker Quorums LogServer LogServerProps ReplicatedLoglet LogletCluster LogletEvidence LogletInv.

Open Scope Z_scope.

Section Clients.
Context `{!LogletEnv, !LogletEnvOk} (content : Z → LogRecord).
Implicit Types (cl : Cluster) (x : Client) (targets : list Z).

Definition task_ok (B : Z) cl targets (t : ClientTask) : Prop :=
  match t with
  | TkIdle | TkSeal _ _ => True
  | TkFind c | TkWatch c _ => good loglet_scopes (tail_evidence cl) c
  | TkRepair d RpDigest => digests_ok B cl targets d
  | TkRepair d (RpReplicating s _) => digests_ok B cl targets d ∧ stream_ok content B s
  | TkRepair d (RpStoring s _ o c rpcs) =>
      digests_ok B cl targets d ∧ stream_ok content B s ∧ o < dg_target_tail d
      ∧ good loglet_scopes (λ i (a : bool), a = true → holds cl o i ∨ o < B) c
      ∧ ∀ i rpc, (i, rpc) ∈ rpcs → ∃ m, sent_store cl i rpc m ∧ sto_first_offset m = o ∧ store_last m = o
  end.

Definition result_ok (B : Z) targets (r : FindTailResult) : Prop :=
  match r with FtOpen g => g ≤ B | FtSealed g => g ≤ B ∧ g ∈ targets | FtError => True end.

Record client_ok (B : Z) cl x : Prop := {
  co_watch : 1 ≤ c_global x ≤ B;
  co_results : ∀ r, r ∈ c_results x → result_ok B (c_targets x) r;
  co_targets : ∀ N, N ∈ c_targets x → 1 ≤ N ≤ u32_max ∧ is_fmajority loglet_scopes (sealed_at cl N);
  co_task : task_ok B cl (c_targets x) (c_task x);
  co_reader : ∀ s, c_reader x = Some s → rs_move_beyond_global_tail s = false ∧ stream_ok content B s;
  co_cache : ∀ o r, c_cache x !! o = Some r → r = content o }.

(** *** More evidence, more targets, a larger bound *)

Lemma task_ok_mono B B' cl cl' ts ts' t :
  B ≤ B' → cl_le cl cl' → ts ⊆ ts' → task_ok B cl ts t → task_ok B' cl' ts' t.
Proof.
  intros HB Hl Hts. destruct t as [|c|c m|tf st|d [|s k|s k o c rpcs]]; simpl; try done.
  - apply good_mono. intros i a. by apply tail_evidence_le.
  - apply good_mono. intros i a. by apply tail_evidence_le.
  - by apply digests_ok_mono.
  - intros [? ?]. split; [by eapply digests_ok_mono|by eapply stream_ok_mono].
  - intros (? & ? & ? & Hc & Hr). split_and!; [by eapply digests_ok_mono|by eapply stream_ok_mono|done| |].
    + eapply good_mono; [|exact Hc]. intros i a Hi Ha. destruct (Hi Ha); [left; by eapply holds_le|right; lia].
    + intros i rpc Hin. destruct (Hr _ _ Hin) as (m & ? & ?). exists m. eauto using sent_store_le.
Qed.

Lemma result_ok_mono B B' ts ts' r : B ≤ B' → ts ⊆ ts' → result_ok B ts r → result_ok B' ts' r.
Proof. intros HB Hts. destruct r; simpl; [lia| |done]. intros [? ?]. split; [lia|by apply Hts]. Qed.

Lemma client_ok_mono B B' cl cl' x : B ≤ B' → cl_le cl cl' → client_ok B cl x → client_ok B' cl' x.
Proof.
  intros HB Hl [W R T K D C]. split; [lia| | |by eapply task_ok_mono| |done].
  - intros r Hr. eapply result_ok_mono; [done|done|by apply R].
  - intros N HN. destruct (T _ HN) as [? Hf]. split; [done|]. eapply fmajority_mono; [|exact Hf].
    intros i. by apply sealed_at_le.
  - intros s Hs. destruct (D _ Hs). split; [done|by eapply stream_ok_mono].
Qed.

Lemma client_new_ok B cl : 1 ≤ B → client_ok B cl client_new.
Proof. intros HB. split; simpl; try done; try (by intros ? ?%elem_of_nil). Qed.

(** *** Steps *)

(** A step keeps the invariant, perhaps with a larger tail that is committed. *)
Definition client_moves (B : Z) cl x x' : Prop :=
  c_targets x ⊆ c_targets x' ∧
  ∃ B', raises content cl (c_targets x') B B' ∧ client_ok B' cl x'.

Section Steps.
Context (cl : Cluster).

Lemma client_same B x x' : c_targets x ⊆ c_targets x' → client_ok B cl x' → client_moves B cl x x'.
Proof. intros Ht Hx. split; [done|]. exists B. split; [constructor|done]. Qed.

Lemma client_raise B x x' g :
  c_targets x ⊆ c_targets x' → committable content B cl (c_targets x') g → client_ok (Z.max B g) cl x' →
  client_moves B cl x x'.
Proof. intros Ht Hg Hx. split; [done|]. exists (Z.max B g). split; [by apply raises_one|done]. Qed.

(** The larger tail first, then the rest of the step. *)
Lemma client_after B g x x' :
  committable content B cl (c_targets x) g → client_moves (Z.max B g) cl x x' → client_moves B cl x x'.
Proof.
  intros Hg [Ht (B' & Hr & Hx)]. split; [done|]. exists B'. split; [|done].
  eapply raises_step; [|exact Hr]. by eapply committable_mono.
Qed.

Lemma set_task_ok B' t x : client_ok B' cl x → task_ok B' cl (c_targets x) t → client_ok B' cl (c_set_task t x).
Proof. intros [W R T K D C] Ht. by split. Qed.

Lemma set_watch_ok B' w x : client_ok B' cl x → 1 ≤ tail_offset w ≤ B' → client_ok B' cl (c_set_watch w x).
Proof. intros [W R T K D C] Hw. by split. Qed.

Lemma learn_ok B' g x : client_ok B' cl x → g ≤ B' → client_ok B' cl (c_learn g x).
Proof.
  intros Hx Hg. apply set_watch_ok; [done|]. rewrite watch_offset_max.
  pose proof (co_watch _ _ _ Hx). unfold c_global in *. lia.
Qed.

Lemma set_stream_ok B' r cache x :
  client_ok B' cl x → (∀ s, r = Some s → rs_move_beyond_global_tail s = false ∧ stream_ok content B' s) →
  (∀ o r, cache !! o = Some r → r = content o) → client_ok B' cl (c_set_stream r cache x).
Proof. intros [W R T K D C] Hr Hc. by split. Qed.

Lemma found_ok B' N x :
  client_ok B' cl x → 1 ≤ N ≤ u32_max → is_fmajority loglet_scopes (sealed_at cl N) → client_ok B' cl (c_found N x).
Proof.
  intros [W R T K D C] HN Hf. split; try done; simpl.
  - intros r Hr. eapply result_ok_mono; [done| |by apply R]. set_solver.
  - intros N' [?|HN'%list_elem_of_singleton]%elem_of_app; [by apply T|by subst].
  - eapply task_ok_mono; [done|done| |exact K]. set_solver.
Qed.

Lemma find_done_ok B' r x : client_ok B' cl x → result_ok B' (c_targets x) r → client_ok B' cl (find_done r x).
Proof.
  intros [W R T K D C] Hr. split; try done; simpl.
  - unfold c_global in *. destruct r; simpl in *; rewrite ?watch_offset_max, ?watch_notify_max; lia.
  - intros r' [?|Hr'%list_elem_of_singleton]%elem_of_app; [by apply R|by subst].
Qed.

Lemma find_restart_ok B' x x' : client_ok B' cl x → find_restart x = Some x' → client_ok B' cl x' ∧ c_targets x' = c_targets x.
Proof.
  intros Hx. unfold find_restart. destruct new_effective_checker as [c|] eqn:E; [|done]. simpl. intros [= <-].
  split; [|done]. apply set_task_ok; [done|]. by apply new_effective_checker_good.
Qed.

Context (B : Z) (HB : committed_upto content B cl).

Lemma find_start_ok x x' : client_ok B cl x → find_start x = Some x' → client_moves B cl x x'.
Proof.
  intros Hx. unfold find_start. destruct (all_provisioning _ _).
  - intros [= <-]. apply client_same; [done|]. apply find_done_ok; [done|].
    pose proof (cu_pos _ _ _ HB). simpl. unfold LogletOffset_OLDEST. lia.
  - intros Hx'. destruct (find_restart_ok _ _ _ Hx Hx') as [? E]. apply client_same; [by rewrite E|done].
Qed.

Lemma start_seal_ok tf x x' : client_ok B cl x → start_seal tf x = Some x' → client_ok B cl x' ∧ c_targets x' = c_targets x.
Proof.
  intros Hx. unfold start_seal. destruct seal_start as [[t|]|]; [..|done]; simpl.
  - intros [= <-]. split; [by apply set_task_ok|done].
  - intros [= <-]. destruct tf; (split; [|done]); [by apply find_done_ok|by apply set_task_ok].
Qed.

Lemma act_ok dec c x x' :
  client_ok B cl x → good loglet_scopes (tail_evidence cl) c → decision_ok content B cl (c_targets x) dec →
  act dec c x = Some x' → client_moves B cl x x'.
Proof.
  intros Hx Hc Hdec. destruct dec as [| |r|start target| |t]; simpl in *.
  - intros [= <-]. apply client_same; [done|]. by apply set_task_ok.
  - intros Hx'. destruct (find_restart_ok _ _ _ Hx Hx') as [? E]. apply client_same; [by rewrite E|done].
  - destruct r as [g|g|]; intros [= <-].
    + eapply client_raise; [done|exact Hdec|]. apply find_done_ok; [|simpl; lia].
      eapply client_ok_mono; [|done..]. lia.
    + destruct Hdec as (Hb & Hf & Hg). eapply client_raise; [simpl; set_solver|exact Hg|].
      apply find_done_ok; [|simpl; split; [lia|set_solver]]. apply found_ok; [|done..].
      eapply client_ok_mono; [|done..]. lia.
    + apply client_same; [done|]. by apply find_done_ok.
  - destruct Hdec as (Hs & Hb & Hf). intros [= <-]. unfold start_repair.
    pose proof (found_ok _ _ _ Hx Hb Hf) as Hx'. destruct (digests_finished _) eqn:E.
    + apply client_same; [simpl; set_solver|]. apply find_done_ok; [done|]. apply Z.leb_le in E. simpl in *.
      split; [lia|set_solver].
    + apply client_same; [simpl; set_solver|]. apply set_task_ok; [done|]. apply digests_new_ok; [done|simpl; set_solver].
  - intros Hx'. destruct (start_seal_ok _ _ _ Hx Hx') as [? E]. apply client_same; [by rewrite E|done].
  - intros [= <-]. apply client_same; [done|]. by apply set_task_ok.
Qed.

Lemma decide_find_ok gone nothing x x' :
  client_ok B cl x → decide_find gone nothing x = Some x' → client_moves B cl x x'.
Proof.
  intros Hx. unfold decide_find. pose proof (co_task _ _ _ Hx) as Ht. pose proof (co_watch _ _ _ Hx) as Hw.
  destruct (c_task x) as [|c|c m|tf st|d ph]; simpl in Ht; try (intros [= <-]; by apply client_same).
  - destruct (check_nodeset _ c) as [dec|] eqn:E; [|done]. simpl. apply act_ok; [done|done|].
    eapply check_nodeset_ok; [done|by apply HB|by apply HB|done|done].
  - destruct (watch_nodeset _ _ _ _ c) as [dec|] eqn:E; [|done]. simpl. apply act_ok; [done|done|].
    eapply watch_nodeset_ok; [done|by apply HB|by apply HB|done|done].
Qed.

(** The header of an answer. *)
Lemma reply_global i r : r ∈ replies_at i cl → rh_known_global_tail (reply_header r) ≤ B.
Proof. intros Hr. destruct (ni_headers _ _ _ _ _ (si_node _ _ _ _ _ (cu_servers _ _ _ HB i)) _ Hr) as (_ & _ & ? & _). done. Qed.
Lemma reply_says i r : r ∈ replies_at i cl → reply_data content B (n_disk (node_of i cl)) r.
Proof. intros Hr. by destruct (ni_headers _ _ _ _ _ (si_node _ _ _ _ _ (cu_servers _ _ _ HB i)) _ Hr) as (_ & _ & _ & ?). Qed.

Lemma on_info_ok i r x : r ∈ replies_at i cl → client_ok B cl x → client_ok B cl (on_info i (reply_header r) x).
Proof.
  intros Hr Hx. unfold on_info. pose proof (learn_ok _ _ _ Hx (reply_global _ _ Hr)) as Hl.
  pose proof (co_task _ _ _ Hx) as Ht. simpl. destruct (c_task x); try done; simpl in Ht;
    (apply set_task_ok; [done|]; by apply tail_evidence_known).
Qed.

Lemma on_seal_answer_ok i h x x' :
  (∀ h', h = Some h' → rh_known_global_tail h' ≤ B) → client_ok B cl x → on_seal_answer i h x = Some x' →
  client_moves B cl x x'.
Proof.
  intros Hh Hx. unfold on_seal_answer. destruct (c_task x) as [| | |tf t|]; try (intros [= <-]; by apply client_same).
  destruct (seal_answer i h (c_watch x) t) as [[[w t'] r]|] eqn:E; [|done]. simpl.
  assert (client_ok B cl (c_set_watch w x)) as Hw.
  { unfold seal_answer in E. destruct h as [h|]; [|simplify_eq; apply set_watch_ok; [done|apply (co_watch _ _ _ Hx)]].
    assert (w = watch_offset (rh_known_global_tail h) (c_watch x)) as ->.
    { destruct (on_seal_response h); [|by simplify_eq]. by destruct (check_fmajority _ _); simplify_eq/=. }
    apply (learn_ok B _ x); [done|by apply Hh]. }
  destruct r as [[m|]|]; [destruct tf|..].
  - intros Hx'. destruct (find_restart_ok _ _ _ Hw Hx') as [? E']. apply client_same; [by rewrite E'|done].
  - intros [= <-]. apply client_same; [done|]. destruct Hw as [W R T K D C]. by split.
  - intros [= <-]. apply client_same; [done|]. by apply set_task_ok.
  - intros [= <-]. apply client_same; [done|]. by apply set_task_ok.
Qed.

Lemma abandon_ok x x' : client_ok B cl x → abandon x = Some x' → client_moves B cl x x'.
Proof.
  intros Hx. unfold abandon. destruct (c_task x) as [| | |tf t|].
  1-3: intros [= <-]; apply client_same; [done|]; try done; by apply find_done_ok.
  - intros [= <-]. apply client_same; [by destruct tf|]. destruct tf; [by apply find_done_ok|by apply set_task_ok].
  - intros Hx'. destruct (find_restart_ok _ _ _ Hx Hx') as [? E]. apply client_same; [by rewrite E|done].
Qed.

End Steps.

(** *** Repairs *)

Section Repairs.
Context (cl : Cluster).

Lemma read_stream_start_ok B from to_ known s :
  read_stream_start FilterAny from (Some to_) known true = Some s → stream_ok content B s.
Proof.
  simpl. intros [= <-]. split; simpl; [by eexists|unfold LogletOffset_OLDEST; lia|by intros ? ? ?%elem_of_nil|done].
Qed.

Lemma repair_done_ok B d x :
  digests_ok B cl (c_targets x) d → digests_finished d = true → client_ok B cl x →
  client_ok B cl (repair_done d x) ∧ c_targets (repair_done d x) = c_targets x.
Proof.
  intros Hd Hf%Z.leb_le Hx. split; [|done]. apply find_done_ok; [done|]. destruct Hd as [? ? _]. simpl. split; [lia|done].
Qed.

Lemma after_digests_ok B d x x' :
  committed_upto content B cl → client_ok B cl x → digests_ok B cl (c_targets x) d → after_digests d x = Some x' →
  client_moves B cl x x'.
Proof.
  intros Hcu Hx Hd. unfold after_digests. destruct (digests_finished d) eqn:Ef.
  { intros [= <-]. destruct (repair_done_ok B d x Hd Ef Hx) as [? E]. apply client_same; [by rewrite E|done]. }
  destruct (can_repair d) as [ok|]; [|done]. simpl. destruct ok; simpl.
  2: { intros Hx'. destruct (find_restart_ok _ _ _ _ Hx Hx') as [? E]. apply client_same; [by rewrite E|done]. }
  destruct (advance d) as [[d' b]|] eqn:Ea; [|done].
  destruct (advance_ok content B cl (c_targets x) (cu_pos _ _ _ Hcu) (cu_servers _ _ _ Hcu)
    (cu_replicated _ _ _ Hcu) _ _ _ Hd Ea) as (g & Hg & Hd').
  assert (client_ok (Z.max B g) cl x) as Hx1 by (eapply client_ok_mono; [|done..]; lia).
  simpl. destruct b; simpl.
  2: { intros Hx'. destruct (find_restart_ok _ _ _ _ Hx Hx') as [? E]. apply client_same; [by rewrite E|done]. }
  intros [= <-]. eapply client_raise; [done|exact Hg|]. apply set_task_ok; [done|].
  split; [done|]. by eapply (read_stream_start_ok _ (dg_start_offset d') (offset_prev (dg_target_tail d')) 0).
Qed.

(** A digest arrives, and the digests advance. *)
Lemma digest_advance_ok B i rpc h entries x d w d1 d2 ready :
  committed_upto content B cl → client_ok B cl x → Digest rpc h entries ∈ replies_at i cl →
  digests_ok B cl (c_targets x) d → on_digest_message i h entries (c_watch x) d = (w, d1) →
  advance d1 = Some (d2, ready) →
  ∃ g, committable content B cl (c_targets x) g ∧ digests_ok (Z.max B g) cl (c_targets x) d2
    ∧ client_ok (Z.max B g) cl (c_set_watch w x).
Proof.
  intros Hcu Hx Hr Hd E Ea. pose proof (co_watch _ _ _ Hx) as Hw.
  pose proof (reply_global cl B Hcu i _ Hr) as Hg. pose proof (reply_says cl B Hcu i _ Hr) as Hs. simpl in Hg, Hs.
  pose proof (on_digest_message_ok B cl (c_targets x) i h entries (c_watch x) d Hg (proj2 Hw) Hs Hd) as [Hw1 Hd1].
  rewrite E in Hw1, Hd1. simpl in Hw1, Hd1. unfold c_global in Hw.
  destruct (advance_ok content B cl (c_targets x) (cu_pos _ _ _ Hcu) (cu_servers _ _ _ Hcu)
    (cu_replicated _ _ _ Hcu) _ _ _ Hd1 Ea) as (g & Hcg & Hd2).
  exists g. split_and!; [done|done|]. apply set_watch_ok; [eapply client_ok_mono; [|done..]; lia|lia].
Qed.

Lemma on_digest_ok B i rpc h entries x x' :
  committed_upto content B cl → client_ok B cl x → Digest rpc h entries ∈ replies_at i cl →
  on_digest i h entries x = Some x' → client_moves B cl x x'.
Proof.
  intros Hcu Hx Hr. unfold on_digest. pose proof (co_task _ _ _ Hx) as Ht.
  destruct (c_task x) as [| | | |d [|s k|]]; try (intros [= <-]; by apply client_same).
  - destruct (on_digest_message i h entries (c_watch x) d) as [w d1] eqn:E.
    destruct (advance d1) as [[d2 ready]|] eqn:Ea; [|done]. simpl.
    destruct (digest_advance_ok _ _ _ _ _ _ _ _ _ _ _ Hcu Hx Hr Ht E Ea) as (g & Hcg & Hd2 & Hx2).
    destruct ready.
    + intros Hx'. change (c_targets x) with (c_targets (c_set_watch w x)) in Hcg.
      pose proof (after_digests_ok (Z.max B g) d2 _ _ (committed_raise _ _ _ _ _ Hcg Hcu) Hx2 Hd2 Hx') as Hm.
      pose proof (client_after _ _ _ _ _ Hcg Hm) as [? ?]. by split.
    + intros [= <-]. eapply client_raise; [done|exact Hcg|]. by apply set_task_ok.
  - destruct Ht as [Hd Hst]. destruct (on_digest_message i h entries (c_watch x) d) as [w d1] eqn:E.
    destruct (advance d1) as [[d2 ready]|] eqn:Ea; [|done]. simpl.
    destruct (digest_advance_ok _ _ _ _ _ _ _ _ _ _ _ Hcu Hx Hr Hd E Ea) as (g & Hcg & Hd2 & Hx2).
    intros [= <-]. eapply client_raise; [done|exact Hcg|].
    apply set_task_ok; [done|]. split; [done|]. eapply stream_ok_mono; [|done]. lia.
Qed.

Lemma digests_end_ok B x x' :
  committed_upto content B cl → client_ok B cl x → digests_end x = Some x' → client_moves B cl x x'.
Proof.
  intros Hcu Hx. unfold digests_end. pose proof (co_task _ _ _ Hx) as Ht.
  destruct (c_task x) as [| | | |d []]; try (intros [= <-]; by apply client_same). by apply after_digests_ok.
Qed.

(** The record that is being repaired is on a write quorum. *)
Lemma repair_poll_ok B x :
  committed_upto content B cl → client_ok B cl x → client_moves B cl x (repair_poll x).
Proof.
  intros Hcu Hx. unfold repair_poll. pose proof (co_task _ _ _ Hx) as Ht.
  destruct (c_task x) as [| | | |d [|s k|s k o c rpcs]]; try by apply client_same.
  destruct (check_write_quorum _ c) eqn:Eq; [|by apply client_same].
  destruct Ht as (Hd & Hs & Ho & Hc & _).
  assert (committable content B cl (c_targets x) (o + 1)) as Hg.
  { eapply held_commit; [apply Hcu..|apply (dk_target _ _ _ _ Hd)|done|].
    eapply write_quorum_mono; [|by eapply good_write_quorum]. intros i ([] & ? & Hi); [by apply Hi|done]. }
  eapply client_raise; [done|exact Hg|].
  apply set_task_ok; [eapply client_ok_mono; [|done..]; lia|]. split; [|eapply stream_ok_mono; [|done]; lia].
  apply update_start_ok; [pose proof (offset_next_le o); lia|].
  destruct Hd as [D1 D2 D3]. split; simpl; [lia|done|done].
Qed.

Lemma on_repair_stored_ok B i rpc h x :
  committed_upto content B cl → client_ok B cl x → Stored rpc h ∈ replies_at i cl →
  client_moves B cl x (on_repair_stored i rpc h x).
Proof.
  intros Hcu Hx Hr. unfold on_repair_stored. pose proof (co_task _ _ _ Hx) as Ht.
  destruct (c_task x) as [| | | |d [|s k|s k o c rpcs]]; try by apply client_same.
  destruct (bool_decide ((i, rpc) ∈ rpcs) && _) eqn:E; [|by apply client_same].
  apply andb_true_iff in E as [Hin%bool_decide_eq_true Hok%bool_decide_eq_true].
  destruct Ht as (Hd & Hs & Ho & Hc & Hrpcs). destruct (Hrpcs _ _ Hin) as (m & Hm & Hf & Hl).
  apply (repair_poll_ok B (c_set_task _ x) Hcu). apply set_task_ok; [done|]. split_and!; [done..| |done].
  apply good_set; [|done]. intros _. pose proof (acked_of content B cl (cu_servers _ _ _ Hcu) _ _ _ _ Hr Hok Hm) as Ha.
  apply (safe_hold content (sent_store cl i) B), (ak_durable _ _ _ _ _ Ha). lia.
Qed.

(** *** Streams *)

Lemma on_stream_ok B rep f x :
  client_ok B cl x →
  (∀ s, get_stream rep x = Some s → stream_ok content B s → stream_ok content B (f s)
     ∧ rs_move_beyond_global_tail (f s) = rs_move_beyond_global_tail s) →
  client_ok B cl (on_stream rep f x) ∧ c_targets (on_stream rep f x) = c_targets x.
Proof.
  intros Hx Hf. unfold on_stream, put_stream, get_stream in *. pose proof (co_task _ _ _ Hx) as Ht.
  destruct rep.
  - destruct (c_task x) as [| | | |d [|s k|s k o c rpcs]]; try done; simpl in Ht.
    + destruct Ht as [Hd Hs]. destruct (Hf s eq_refl Hs) as [? _]. split; [|done]. by apply set_task_ok.
    + destruct Ht as (Hd & Hs & ?). destruct (Hf s eq_refl Hs) as [? _]. split; [|done]. by apply set_task_ok.
  - destruct (c_reader x) as [s|] eqn:E; [|done]. destruct (co_reader _ _ _ Hx _ E) as [Hb Hs].
    destruct (Hf s eq_refl Hs) as [? E']. split; [|done]. apply set_stream_ok; [done| |apply (co_cache _ _ _ Hx)].
    intros s' [= <-]. split; [congruence|done].
Qed.

Lemma rs_on_records_beyond records : ∀ cache s,
  rs_move_beyond_global_tail (rs_on_records records cache s).2 = rs_move_beyond_global_tail s.
Proof.
  induction records as [|[o e] records IH]; intros cache s; simpl; [done|].
  repeat case_match; rewrite ?IH; done.
Qed.

Lemma get_stream_ok B rep x s : client_ok B cl x → get_stream rep x = Some s → stream_ok content B s.
Proof.
  intros Hx. unfold get_stream. pose proof (co_task _ _ _ Hx) as Ht. destruct rep.
  - destruct (c_task x) as [| | | |d [|s' k|s' k o c rpcs]]; try done; simpl in Ht; intros [= <-]; apply Ht.
  - intros Hs. by apply (co_reader _ _ _ Hx).
Qed.

Lemma on_records_step_ok B rep i rpc h next records x :
  committed_upto content B cl → client_ok B cl x → Records rpc h next records ∈ replies_at i cl →
  client_ok B cl (on_records rep h records x) ∧ c_targets (on_records rep h records x) = c_targets x.
Proof.
  intros Hcu Hx Hr. pose proof (reply_global cl B Hcu i _ Hr) as Hg.
  destruct (reply_says cl B Hcu i _ Hr) as [Hd Ht]. simpl in Hg. unfold on_records.
  pose proof (learn_ok _ _ _ _ Hx Hg) as Hx1. set (x1 := c_learn _ x) in *.
  change (c_targets x) with (c_targets x1).
  destruct (get_stream rep x1) as [s|] eqn:Es; [|done].
  pose proof (get_stream_ok _ _ _ _ Hx1 Es) as Hs.
  pose proof (on_records_ok content B records (c_cache x1) s Hd Ht (co_cache _ _ _ Hx1) Hs) as [Hc Hs'].
  pose proof (rs_on_records_beyond records (c_cache x1) s) as Hb.
  destruct (rs_on_records records (c_cache x1) s) as [cache s']. simpl in Hc, Hs', Hb.
  assert (client_ok B cl (c_set_stream (c_reader x1) cache x1)) as Hx2.
  { apply set_stream_ok; [done|apply (co_reader _ _ _ Hx1)|done]. }
  pose proof (on_stream_ok B rep (λ _, s') (c_set_stream (c_reader x1) cache x1) Hx2) as Hon.
  unfold on_stream in Hon. assert (get_stream rep (c_set_stream (c_reader x1) cache x1) = Some s) as Es'.
  { unfold get_stream in *. by destruct rep. }
  rewrite Es' in Hon. apply Hon. intros s0 [= <-]. done.
Qed.

End Repairs.
End Clients.
