(* ===== verification/LogletSequencer.v ===== *)
(** * LogletSequencer: the sequencer of a replicated loglet keeps its invariant

    An appender counts a node as committed only on the answer of that node to a store of
    its batch, so that the batch is on a write quorum when the writer is told. *)

From stdpp Require Import strings gmap sorting.
From S2P Require Import Prelude BTreeMap LogTypes Locality Replication LogChain NodesConfig NodeSetChecker Quorums LogServer LogServerProps ReplicatedLoglet LogletCluster LogletEvidence LogletInv.

Open Scope Z_scope.

Section Sequencer.
Context `{!LogletEnv, !LogletEnvOk} (content : Z → LogRecord).
Implicit Types (cl : Cluster) (a : Appender) (sh : SharedState).

Definition ap_last a : Z := ap_first_offset a + Z.of_nat (length (ap_records a)) - 1.

Record appender_ok (B : Z) cl a : Prop := {
  ao_first : 1 ≤ ap_first_offset a;
  ao_last : ap_first_offset a ≤ ap_last a < u32_max;
  ao_content : ∀ i r, ap_records a !! i = Some r → r = content (ap_first_offset a + Z.of_nat i);
  ao_checker : good loglet_scopes (λ i at_, na_committed at_ = true → ack_at cl (ap_last a) i) (ap_checker a);
  ao_tasks : ∀ i rpc, ap_tasks a !! i = Some (StSending rpc) →
    ∃ m, sent_store cl i rpc m ∧ is_repair m = false ∧ store_last m = ap_last a;
  ao_result : ∀ l, ap_result a = Some (CrOffset l) → l = ap_last a ∧ l + 1 ≤ B }.

Lemma appender_ok_mono B B' cl cl' a : B ≤ B' → cl_le cl cl' → appender_ok B cl a → appender_ok B' cl' a.
Proof.
  intros HB Hl [A1 A2 A3 A4 A5 A6]. split; [done|done|done| | |].
  - eapply good_mono; [|exact A4]. intros i b Hb ?. eapply ack_at_le; [done|by apply Hb].
  - intros i rpc Hi. destruct (A5 _ _ Hi) as (m & ? & ?). exists m. eauto using sent_store_le.
  - intros l Hr. destruct (A6 _ Hr). split; [done|lia].
Qed.

Lemma ap_last_spec B cl a : appender_ok B cl a → ap_last_offset a = Some (ap_last a).
Proof.
  intros [A1 A2 _ _ _ _]. unfold ap_last_offset, records_last_offset, ap_last in *.
  destruct (Z.ltb_spec u32_max (Z.of_nat (length (ap_records a)))); [lia|].
  unfold as_u32, checked_add. rewrite wrap_small by (unfold in_u; lia).
  destruct (Z.leb_spec (ap_first_offset a + (Z.of_nat (length (ap_records a)) - 1)) u32_max); [f_equal; lia|lia].
Qed.

(** A step of an appender, with the state that it shares. *)
Definition appender_moves (B : Z) cl (a' : Appender) sh' : Prop :=
  ∃ B', raises content cl [] B B' ∧ appender_ok B' cl a' ∧ tail_offset (sh_known_global_tail sh') ≤ B'.

Section Steps.
Context (B : Z) (cl : Cluster).

Lemma appender_same a sh :
  appender_ok B cl a → tail_offset (sh_known_global_tail sh) ≤ B → appender_moves B cl a sh.
Proof. intros Ha Hs. exists B. split_and!; [constructor|done|done]. Qed.

Lemma set_checker_ok c a :
  appender_ok B cl a → good loglet_scopes (λ i at_, na_committed at_ = true → ack_at cl (ap_last a) i) c →
  appender_ok B cl (ap_set_checker c a).
Proof. intros [A1 A2 A3 A4 A5 A6] Hc. by split. Qed.
Lemma set_attr_ok i at_ a :
  appender_ok B cl a → (na_committed at_ = true → ack_at cl (ap_last a) i) →
  appender_ok B cl (ap_set_checker (set_attribute i at_ (ap_checker a)) a).
Proof. intros Ha Hc. apply set_checker_ok; [done|]. apply good_set; [done|]. apply (ao_checker _ _ _ Ha). Qed.
Lemma set_graylist_ok g a : appender_ok B cl a → appender_ok B cl (ap_set_graylist g a).
Proof. intros [A1 A2 A3 A4 A5 A6]. by split. Qed.
Lemma set_state_ok s a : appender_ok B cl a → appender_ok B cl (ap_set_state s a).
Proof. intros [A1 A2 A3 A4 A5 A6]. by split. Qed.
Lemma merge_status_ok i s a : appender_ok B cl a → appender_ok B cl (ap_merge_status i s a).
Proof. intros [A1 A2 A3 A4 A5 A6]. by split. Qed.
Lemma next_wave_ok a : appender_ok B cl a → appender_ok B cl (ap_next_wave a).
Proof. intros [A1 A2 A3 A4 A5 A6]. by split. Qed.
Lemma set_tasks_ok t a :
  appender_ok B cl a →
  (∀ i rpc, t !! i = Some (StSending rpc) →
     ∃ m, sent_store cl i rpc m ∧ is_repair m = false ∧ store_last m = ap_last a) →
  appender_ok B cl (ap_set_tasks t a).
Proof. intros [A1 A2 A3 A4 A5 A6] Ht. by split. Qed.
Lemma no_tasks_ok a : appender_ok B cl a → appender_ok B cl (ap_set_tasks ∅ a).
Proof. intros Ha. apply set_tasks_ok; [done|]. intros i rpc. by rewrite lookup_empty. Qed.
Lemma delete_task_ok i a : appender_ok B cl a → appender_ok B cl (ap_set_tasks (delete i (ap_tasks a)) a).
Proof.
  intros Ha. apply set_tasks_ok; [done|]. intros j rpc [_ Hj]%lookup_delete_Some. by apply (ao_tasks _ _ _ Ha).
Qed.

Lemma start_wave_ok alive a a' : appender_ok B cl a → start_wave alive a = Some a' → appender_ok B cl a'.
Proof.
  intros Ha. unfold start_wave. pose proof (next_wave_ok _ Ha) as Ha1. set (a1 := ap_next_wave a) in *.
  destruct (generate_spread alive a1) as [[a2 spread]|] eqn:E; [|done]. simpl.
  assert (appender_ok B cl a2) as Ha2.
  { unfold generate_spread in E. cbv zeta in E. destruct (select (ap_graylist (ap_set_graylist _ a1))) as [[sp|]|]; [| |discriminate E]; simpl in E.
    - simplify_eq. by apply set_graylist_ok.
    - destruct (select _) as [?|]; [|discriminate E]. simpl in E. simplify_eq. by apply set_graylist_ok, set_graylist_ok. }
  destruct spread as [spread|]; intros [= <-]; [|by apply set_state_ok].
  apply set_state_ok, set_tasks_ok; [done|]. intros i rpc Hi. apply elem_of_list_to_map_2 in Hi.
  apply list_elem_of_fmap in Hi as (? & [=] & _).
Qed.

Lemma end_wave_ok a a' : appender_ok B cl a → end_wave a = Some a' → appender_ok B cl a'.
Proof. intros Ha. unfold end_wave. destruct (check_fmajority _ _); [|done]. simpl. intros [= <-]. by apply set_state_ok. Qed.

Lemma ap_finish_ok a : appender_ok B cl a → appender_ok B cl (ap_finish a).
Proof.
  intros [A1 A2 A3 A4 A5 A6]. split; simpl; try done. intros l Hl. apply A6.
  destruct (ap_resolver a); [|done]. by destruct (ap_state a).
Qed.

(** The writer is told: the batch is committed. *)
Lemma commit_batch_ok a sh a' sh' :
  committed_upto content B cl → appender_ok B cl a → tail_offset (sh_known_global_tail sh) ≤ B →
  check_write_quorum na_committed (ap_checker a) = true →
  commit_batch a sh = Some (a', sh') → appender_moves B cl a' sh'.
Proof.
  intros Hcu Ha Hsh Hw. unfold commit_batch. rewrite (ap_last_spec _ _ _ Ha). simpl.
  assert (committable content B cl [] (ap_last a + 1)) as Hg.
  { apply acks_commit; [apply Hcu..|]. eapply write_quorum_mono; [|eapply good_write_quorum; [apply (ao_checker _ _ _ Ha)|exact Hw]].
    intros i (at_ & ? & Hi). by apply Hi. }
  destruct Ha as [A1 A2 A3 A4 A5 A6]. destruct (ap_resolver a).
  - intros [= <- <-]. exists (Z.max B (ap_last a + 1)). split_and!; [by apply raises_one| |].
    + split; try done; simpl. intros l [= <-]. split; [done|lia].
    + simpl. rewrite watch_offset_max. pose proof (offset_next_le (ap_last a)). lia.
  - intros [= <- <-]. apply appender_same; [|done]. by split.
Qed.

Lemma on_store_result_ok i r a sh a' sh' :
  committed_upto content B cl → appender_ok B cl a → tail_offset (sh_known_global_tail sh) ≤ B →
  (∀ h, r = StsStored h → rh_status h = StOk → ack_at cl (ap_last a) i) →
  on_store_result i r a sh = Some (a', sh') → appender_moves B cl a' sh'.
Proof.
  intros Hcu Ha Hsh Hack. unfold on_store_result. pose proof (delete_task_ok i a Ha) as Hd.
  set (a1 := ap_set_tasks (delete i (ap_tasks a)) a) in *.
  assert (∀ a2 a3 sh3, appender_ok B cl a2 →
    (if check_write_quorum na_committed (ap_checker a2) then commit_batch a2 sh else Some (a2, sh)) = Some (a3, sh3) →
    appender_moves B cl a3 sh3) as Hcheck.
  { intros a2 a3 sh3 Ha2. destruct (check_write_quorum _ _) eqn:E; [by apply commit_batch_ok|].
    intros [= <- <-]. by apply appender_same. }
  destruct (tail_is_sealed _).
  { intros [= <- <-]. apply appender_same; [|done]. by apply set_state_ok, no_tasks_ok. }
  destruct r as [|h| |].
  - intros [= <- <-]. apply appender_same; [|done]. apply merge_status_ok. by apply (set_attr_ok i attr_sealed a1).
  - destruct (rh_status h) eqn:Es; intros Hx; eapply Hcheck; try exact Hx.
    all: try (by apply set_graylist_ok, merge_status_ok).
    all: try (apply set_graylist_ok, merge_status_ok; by apply (set_attr_ok i attr_sealed a1)).
    apply merge_status_ok, (set_attr_ok i attr_committed a1); [done|]. intros _. by eapply Hack.
  - intros [= <- <-]. apply appender_same; [|done]. by apply set_graylist_ok, merge_status_ok.
  - intros [= <- <-]. apply appender_same; [|done]. by apply set_state_ok, no_tasks_ok.
Qed.

End Steps.
End Sequencer.
