(* ===== verification/LogletSteps.v ===== *)
(** * LogletSteps: the steps of a replicated loglet keep its invariant

    The invariant of the whole cluster (LogletCluster.v), made of the invariants of the
    servers, the sequencer and the clients, and that every step keeps it. *)

From stdpp Require Import strings gmap sorting.
From S2P Require Import Prelude BTreeMap LogTypes Locality Replication LogChain NodesConfig NodeSetChecker Quorums LogServer LogServerProps ReplicatedLoglet LogletCluster LogletEvidence LogletInv LogletClients LogletSequencer.

Open Scope Z_scope.

Section Steps.
Context `{!LogletEnv, !LogletEnvOk} (content : Z → LogRecord).
Implicit Types (cl : Cluster).

Definition msg_ok (B : Z) (m : Message) : Prop :=
  msg_told m ≤ B ∧ ∀ peer now sto, m = MsgStore peer now sto → carries content sto.

Record seq_ok (B : Z) cl (s : Sequencer) : Prop := {
  so_next : 1 ≤ sq_next_write_offset s;
  so_known : tail_offset (sh_known_global_tail (sq_shared s)) ≤ B;
  so_appenders : ∀ a, a ∈ sq_appenders s → appender_ok content B cl a }.

(** The bound is at most a tail of the sealed loglet, or a write quorum is fenced at it. *)
Definition level (B : Z) cl : Prop :=
  B ≤ 1 ∨ (∃ c N, N ∈ c_targets (client_of c cl) ∧ B ≤ N) ∨ fenced content B cl B.

Record CInv (B : Z) cl : Prop := {
  cv_upto : committed_upto content B cl;
  cv_sent : ∀ k i m, cl_sent cl !! k = Some (i, m) → msg_ok B m;
  cv_seq : seq_ok B cl (cl_seq cl);
  cv_clients : ∀ c, client_ok content B cl (client_of c cl);
  cv_level : level B cl }.

Lemma seq_ok_mono B B' cl cl' s : B ≤ B' → cl_le cl cl' → seq_ok B cl s → seq_ok B' cl' s.
Proof. intros HB Hl [A C D]. split; [done|lia|]. intros a Ha. by eapply appender_ok_mono, D. Qed.

(** ** Parts of the cluster that a step replaces *)

Lemma fenced_mono B B' cl g : B ≤ B' → fenced content B cl g → fenced content B' cl g.
Proof.
  intros HB. apply write_quorum_mono. intros i Hi.
  apply (SInv_mono _ (sent_store cl i) _ B _ g); [done|done|done|exact Hi].
Qed.

Lemma raise_inv B cl ts g :
  CInv B cl → committable content B cl ts g → (∀ N, N ∈ ts → ∃ c, N ∈ c_targets (client_of c cl)) →
  CInv (Z.max B g) cl.
Proof.
  intros [A1 A2 A3 A4 A5] Hg Hts. split.
  - by eapply committed_raise.
  - intros k i m Hk. destruct (A2 _ _ _ Hk). split; [lia|done].
  - eapply seq_ok_mono; [|done..]. lia.
  - intros c. eapply client_ok_mono; [|done|apply A4]. lia.
  - destruct (Z.max_spec_le B g) as [[Hle ->]|[_ ->]]; [|done]. destruct Hg as [?|[_ [(N & HN & ?)|Hf]]].
    + by replace g with B by lia.
    + destruct (Hts _ HN) as [c Hc]. right. left. eauto.
    + right. right. by eapply fenced_mono.
Qed.

Lemma raises_inv B B' cl ts :
  raises content cl ts B B' → (∀ N, N ∈ ts → ∃ c, N ∈ c_targets (client_of c cl)) → CInv B cl → CInv B' cl.
Proof. intros Hr Hts. induction Hr; [done|]. intros Hc. by eapply IHHr, raise_inv. Qed.

Lemma server_of_set i s cl j : server_of j (set_server i s cl) = if decide (i = j) then s else server_of j cl.
Proof.
  unfold server_of. simpl. destruct (decide (i = j)) as [->|Hne]; [by rewrite lookup_insert_eq|].
  by rewrite lookup_insert_ne.
Qed.

Lemma server_inv B cl i s :
  CInv B cl → node_le (node_of i cl) (sv_node s) →
  (∀ floor, SInv content (sent_store cl i) B floor (server_of i cl) → SInv content (sent_store cl i) B floor s) →
  CInv B (set_server i s cl).
Proof.
  intros [[H1 Hs Hr] A2 A3 A4 A5] Hn Hstep.
  assert (cl_le cl (set_server i s cl)) as Hl.
  { split; [|done]. intros j. unfold node_of. rewrite server_of_set. destruct (decide (i = j)) as [->|]; [done|by split]. }
  assert (∀ j floor, SInv content (sent_store cl j) B floor (server_of j cl) →
    SInv content (sent_store cl j) B floor (server_of j (set_server i s cl))) as Hkeep.
  { intros j floor Hj. rewrite server_of_set. destruct (decide (i = j)) as [<-|]; [by apply Hstep|done]. }
  split.
  - split; [done|intros j; apply Hkeep, Hs|]. intros o Ho. eapply write_quorum_mono; [|by apply Hr].
    intros j. by apply (holds_le _ _ _ _ Hl).
  - done.
  - by apply (seq_ok_mono B B cl).
  - intros c. apply (client_ok_mono content B B cl); [done|done|apply A4].
  - destruct A5 as [Hb|[Hb|Hf]]; [by left|right; left; exact Hb|right; right].
    eapply write_quorum_mono; [|exact Hf]. intros j. apply Hkeep.
Qed.

Lemma send_inv B cl msgs : CInv B cl → Forall (λ e, msg_ok B e.2) msgs → CInv B (send msgs cl).
Proof.
  intros [[H1 Hs Hr] A2 A3 A4 A5] Hm.
  assert (cl_le cl (send msgs cl)) as Hl by (split; [by intros j; split|by eexists]).
  assert (∀ j floor, SInv content (sent_store cl j) B floor (server_of j cl) →
    SInv content (sent_store (send msgs cl) j) B floor (server_of j (send msgs cl))) as Hkeep.
  { intros j floor Hj. eapply (SInv_mono _ (sent_store cl j) _ B _ floor); [|done|done|exact Hj].
    intros rpc m. by apply sent_store_le. }
  split.
  - split; [done|intros j; apply Hkeep, Hs|]. intros o Ho. eapply write_quorum_mono; [|by apply Hr].
    intros j. by apply (holds_le _ _ _ _ Hl).
  - intros k i m [Hk|[_ Hk]]%lookup_app_Some; [by eapply A2|].
    rewrite Forall_forall in Hm. apply (Hm (i, m)). by eapply list_elem_of_lookup_2.
  - by apply (seq_ok_mono B B cl).
  - intros c. apply (client_ok_mono content B B cl); [done|done|apply A4].
  - destruct A5 as [Hb|[Hb|Hf]]; [by left|right; left; exact Hb|right; right].
    eapply write_quorum_mono; [|exact Hf]. intros j. apply Hkeep.
Qed.

(** A step that leaves the servers and the requests alone. *)
Lemma upto_same B cl seq clients :
  committed_upto content B cl → committed_upto content B (mkCluster (cl_servers cl) (cl_sent cl) seq clients).
Proof. intros [H1 Hs Hr]. split; [done|exact Hs|exact Hr]. Qed.
Lemma le_same cl seq clients : cl_le cl (mkCluster (cl_servers cl) (cl_sent cl) seq clients).
Proof. split; [by intros i; split|done]. Qed.

Lemma seq_inv B cl s : CInv B cl → seq_ok B cl s → CInv B (set_seq s cl).
Proof.
  intros [A1 A2 A3 A4 A5] Hq. split; [by apply upto_same|exact A2| | |exact A5].
  - eapply seq_ok_mono; [reflexivity|apply le_same|done].
  - intros c. eapply client_ok_mono; [reflexivity|apply le_same|apply A4].
Qed.

Lemma client_of_set c x cl c' : client_of c' (set_client c x cl) = if decide (c = c') then x else client_of c' cl.
Proof.
  unfold client_of. simpl. destruct (decide (c = c')) as [->|Hne]; [by rewrite lookup_insert_eq|].
  by rewrite lookup_insert_ne.
Qed.

Lemma client_inv B cl c x :
  CInv B cl → c_targets (client_of c cl) ⊆ c_targets x → client_ok content B cl x → CInv B (set_client c x cl).
Proof.
  intros [A1 A2 A3 A4 A5] Ht Hx. split; [by apply upto_same|exact A2| | |].
  - eapply seq_ok_mono; [reflexivity|apply le_same|done].
  - intros c'. eapply client_ok_mono; [reflexivity|apply le_same|]. rewrite client_of_set.
    destruct (decide (c = c')); [done|apply A4].
  - destruct A5 as [?|[(c' & N & HN & ?)|?]]; [by left|right; left|right; right; assumption].
    exists c', N. rewrite client_of_set. destruct (decide (c = c')) as [<-|]; [split; [by apply Ht|done]|done].
Qed.

(** A client that has found a larger tail is put in place with its new targets first. *)
Lemma client_moves_inv B cl c x :
  CInv B cl → client_moves content B cl (client_of c cl) x → ∃ B', B ≤ B' ∧ CInv B' (set_client c x cl).
Proof.
  intros Hc [Ht (B' & Hr & Hx)]. exists B'. split; [by eapply raises_le|].
  set (y := mkClient (c_watch (client_of c cl)) TkIdle [] (c_targets x) false None ∅).
  assert (client_ok content B cl y) as Hy.
  { pose proof (cv_clients _ _ Hc c) as [W _ _ _ _ _]. destruct Hx as [_ _ T _ _ _].
    split; try done; simpl. by intros ? ?%elem_of_nil. }
  assert (CInv B (set_client c y cl)) as Hcy by by apply client_inv.
  assert (raises content (set_client c y cl) (c_targets x) B B') as Hr'.
  { clear -Hr. induction Hr as [|B g B' Hg _ IH]; [constructor|]. eapply raises_step; [|exact IH]. exact Hg. }
  assert (CInv B' (set_client c y cl)) as Hcy'.
  { eapply raises_inv; [exact Hr'| |done]. intros N HN. exists c. rewrite client_of_set, decide_True by done. done. }
  assert (set_client c x cl = set_client c x (set_client c y cl)) as ->.
  { unfold set_client. simpl. by rewrite insert_insert_eq. }
  apply client_inv; [done|by rewrite client_of_set, decide_True|].
  eapply client_ok_mono; [reflexivity|apply le_same|exact Hx].
Qed.

Lemma upd_client_inv B cl c f :
  CInv B cl → (∀ x', f (client_of c cl) = Some x' → client_moves content B cl (client_of c cl) x') →
  ∃ B', B ≤ B' ∧ CInv B' (upd_client c f cl).
Proof.
  intros Hc Hf. unfold upd_client. destruct (f (client_of c cl)) as [x'|] eqn:E; [|by exists B].
  apply client_moves_inv; [done|by apply Hf].
Qed.

Lemma upd_client_same B cl c f :
  CInv B cl → (∀ x, client_ok content B cl x → client_ok content B cl (f x) ∧ c_targets (f x) = c_targets x) →
  ∃ B', B ≤ B' ∧ CInv B' (upd_client c (λ x, Some (f x)) cl).
Proof.
  intros Hc Hf. apply upd_client_inv; [done|]. intros x' [= <-].
  destruct (Hf _ (cv_clients _ _ Hc c)) as [? E]. apply client_same; [by rewrite E|done].
Qed.


(** ** The sequencer *)

Definition keeps (B : Z) cl : Prop := ∃ B', B ≤ B' ∧ CInv B' cl.
Lemma keeps_same B cl : CInv B cl → keeps B cl.
Proof. intros Hc. by exists B. Qed.

Lemma put_appender_ok B cl j a a' sh s :
  seq_ok B cl s → appender_ok content B cl a' → tail_offset (sh_known_global_tail sh) ≤ B →
  seq_ok B cl (put_appender j a a' sh s).
Proof.
  intros [A C D] Ha Hs. split; simpl; [done|done|].
  intros b (k & Hk)%list_elem_of_lookup. apply list_lookup_insert_Some in Hk as [(-> & <- & _)|[_ Hk]]; [done|].
  apply D. by eapply list_elem_of_lookup_2.
Qed.

Lemma upd_appender_inv B cl j f :
  CInv B cl →
  (∀ a a' sh', appender_ok content B cl a → f a (sq_shared (cl_seq cl)) = Some (a', sh') →
     appender_moves content B cl a' sh') →
  keeps B (upd_appender j f cl).
Proof.
  intros Hc Hf. unfold upd_appender. destruct (sq_appenders (cl_seq cl) !! j) as [a|] eqn:Ej; [|by apply keeps_same].
  destruct (f a (sq_shared (cl_seq cl))) as [[a' sh']|] eqn:E; [|by apply keeps_same].
  destruct (Hf a a' sh') as (B' & Hr & Ha & Hs); [|done|].
  { apply (so_appenders _ _ _ (cv_seq _ _ Hc)). by eapply list_elem_of_lookup_2. }
  exists B'. split; [by eapply raises_le|].
  assert (CInv B' cl) as Hc' by (eapply raises_inv; [exact Hr|by intros ? ?%elem_of_nil|done]).
  apply seq_inv; [done|]. by apply put_appender_ok; [apply (cv_seq _ _ Hc')|..].
Qed.

Lemma in_state_inv B cl j st f :
  CInv B cl → (∀ a a', appender_ok content B cl a → f a = Some a' → appender_ok content B cl a') →
  keeps B (upd_appender j (in_state st f) cl).
Proof.
  intros Hc Hf. apply upd_appender_inv; [done|]. intros a a' sh' Ha. unfold in_state.
  pose proof (so_known _ _ _ (cv_seq _ _ Hc)). destruct (bool_decide _).
  - destruct (f a) as [a1|] eqn:E; [|done]. simpl. intros [= <- <-]. apply appender_same; eauto.
  - intros [= <- <-]. by apply appender_same.
Qed.

Lemma enqueue_inv B cl n : CInv B cl → keeps B (enqueue content n cl).
Proof.
  intros Hc. apply keeps_same. unfold enqueue. destruct n as [|n]; [done|].
  pose proof (cv_seq _ _ Hc) as Hq. set (ps := payloads_at content _ (S n)).
  assert (length ps = S n) as Hlen by (unfold ps, payloads_at; by rewrite length_fmap, length_seq).
  assert (∀ s, seq_ok B cl s → sq_next_write_offset s = sq_next_write_offset (cl_seq cl) →
    match enqueue_batch ps s with EqCommit _ s' | EqWaits s' => seq_ok B cl s' | EqPanics => True end) as Hbatch.
  { clear Hq Hc. intros s Hq En. unfold enqueue_batch. rewrite Hlen.
    assert (seq_ok B cl (ensure_enough_permits (Z.of_nat (S n)) s)) as Hp.
    { unfold ensure_enough_permits. destruct (_ <? _); [|done]. destruct Hq. by split. }
    assert (sq_next_write_offset (ensure_enough_permits (Z.of_nat (S n)) s) = sq_next_write_offset s) as Ep.
    { unfold ensure_enough_permits. by destruct (_ <? _). }
    set (s1 := ensure_enough_permits _ s) in *. destruct (Z.ltb_spec u32_max (Z.of_nat (S n))); [done|].
    destruct (sq_closed s1); [done|]. destruct (_ <? _); [done|].
    unfold checked_add. destruct (Z.leb_spec (sq_next_write_offset s1 + Z.of_nat (S n)) u32_max) as [Hu|Hu].
    2: { destruct Hp. by split. }
    destruct (Z.leb_spec MAX_OFFSET_SOFT (sq_next_write_offset s1 + Z.of_nat (S n))); [destruct Hp; by split|].
    unfold appender_new. destruct new_checker as [c|] eqn:Ec; [|done]. simpl.
    destruct Hp as [P1 P2 P3]. split; simpl; [lia|done|].
    intros a [Ha|Ha]%elem_of_app; [by apply P3|]. apply list_elem_of_singleton in Ha as ->.
    split; unfold ap_last; cbn [ap_first_offset ap_records ap_checker ap_tasks ap_result].
    - done.
    - rewrite Hlen. unfold MAX_OFFSET_SOFT in *. lia.
    - intros i r Hi. unfold ps, payloads_at in Hi. apply list_lookup_fmap_Some in Hi as (k & -> & [Hk _]%lookup_seq).
      by rewrite Hk, Ep, En.
    - by apply new_checker_good.
    - intros i rpc. by rewrite lookup_empty.
    - done. }
  pose proof (Hbatch (cl_seq cl) Hq eq_refl) as Hb.
  destruct (enqueue_batch ps (cl_seq cl)); [by apply seq_inv|by apply seq_inv|done].
Qed.

Lemma make_store_ok B cl g t a :
  g ≤ B → appender_ok content B cl a → msg_ok B (MsgStore (rlp_sequencer le_params) 0 (make_store g t a)).
Proof.
  intros Hg [A1 A2 A3 _ _ _]. split; [done|]. intros peer now sto [= _ _ <-].
  unfold ap_last in *. split_and!; unfold store_last; simpl; [lia|lia|done].
Qed.

Lemma store_wait_inv B cl j i local t : CInv B cl → keeps B (store_wait j i local t cl).
Proof.
  intros Hc. unfold store_wait. destruct (sq_appenders (cl_seq cl) !! j) as [a|] eqn:Ej; [|by apply keeps_same].
  pose proof (cv_seq _ _ Hc) as Hq. pose proof (so_known _ _ _ Hq) as Hk.
  assert (appender_ok content B cl a) as Ha by (apply (so_appenders _ _ _ Hq); by eapply list_elem_of_lookup_2).
  destruct (ap_state a); try by apply keeps_same. destruct (ap_tasks a !! i) as [[|]|]; try by apply keeps_same.
  destruct (wait_result _ _) as [[]|]; [| |by apply keeps_same].
  - apply upd_appender_inv; [done|]. intros b b' sh' Hb. by apply on_store_result_ok; [apply (cv_upto _ _ Hc)|..].
  - apply keeps_same. set (m := make_store _ t a).
    change (send [(i, MsgStore (rlp_sequencer le_params) 0 m)] (set_seq ?s cl))
      with (set_seq s (send [(i, MsgStore (rlp_sequencer le_params) 0 m)] cl)).
    assert (CInv B (send [(i, MsgStore (rlp_sequencer le_params) 0 m)] cl)) as Hc1.
    { apply send_inv; [done|]. apply Forall_singleton. by eapply make_store_ok. }
    assert (cl_le cl (send [(i, MsgStore (rlp_sequencer le_params) 0 m)] cl)) as Hl
      by (split; [by intros ?; split|by eexists]).
    assert (sent_store (send [(i, MsgStore (rlp_sequencer le_params) 0 m)] cl) i (next_rpc cl) m) as Hs.
    { exists (length (cl_sent cl)), (rlp_sequencer le_params), 0. split; [done|]. simpl.
      by rewrite lookup_app_r, Nat.sub_diag by done. }
    apply seq_inv; [done|]. apply put_appender_ok; [apply (cv_seq _ _ Hc1)| |done].
    apply set_tasks_ok; [by apply (appender_ok_mono content B B cl)|]. intros i' rpc. rewrite lookup_insert_Some.
    intros [[<- [= <-]]|[_ Hi]]; [by exists m|].
    destruct (ao_tasks _ _ _ _ Ha _ _ Hi) as (m' & ? & ?). exists m'. split; [by eapply sent_store_le|done].
Qed.

Lemma stored_inv B cl j i rpc h :
  CInv B cl → Stored rpc h ∈ replies_at i cl → keeps B (stored j i rpc h cl).
Proof.
  intros Hc Hr. apply upd_appender_inv; [done|]. intros a a' sh' Ha.
  pose proof (so_known _ _ _ (cv_seq _ _ Hc)) as Hk.
  assert (Some (a, sq_shared (cl_seq cl)) = Some (a', sh') → appender_moves content B cl a' sh') as Hsame.
  { intros [= <- <-]. by apply appender_same. }
  destruct (ap_state a); try done. destruct (ap_tasks a !! i) as [[|rpc']|] eqn:Ei; try done.
  destruct (bool_decide_reflect (rpc' = rpc)) as [->|]; [|done].
  destruct (store_answer i h (sq_shared (cl_seq cl))) as [sh r] eqn:E. intros Hx.
  assert (tail_offset (sh_known_global_tail sh) ≤ B ∧ (∀ h', r = StsStored h' → h' = h)) as [Hk' Hr'].
  { unfold store_answer in E. destruct (rh_status h); simplify_eq; split; try done; intros ? [= ->]; done. }
  destruct (ao_tasks _ _ _ _ Ha _ _ Ei) as (m & M1 & M2 & M3).
  eapply on_store_result_ok; [apply (cv_upto _ _ Hc)|done|done| |exact Hx].
  intros h' ->%Hr' Hok. by exists rpc, h, m.
Qed.


(** ** Repairs *)

Lemma repair_store_ok B d o :
  dg_start_offset d ≤ B → 1 ≤ o < u32_max → ∀ peer, msg_ok B (MsgStore peer 0 (repair_store d o (content o))).
Proof.
  intros Hd Ho peer. split; [done|]. intros peer' now sto [= _ _ <-].
  split_and!; unfold store_last; simpl; [lia|lia|]. intros [|i] r; simpl; [|by destruct i].
  intros [= <-]. f_equal. lia.
Qed.

Lemma send_store_sent cl peer m fixups i rpc :
  (i, rpc) ∈ imap (λ j i, (i, next_rpc cl + Z.of_nat j)) fixups →
  sent_store (send ((λ i, (i, MsgStore peer 0 m)) <$> fixups) cl) i rpc m.
Proof.
  intros (j & Hj)%list_elem_of_lookup. rewrite list_lookup_imap in Hj.
  destruct (fixups !! j) as [i'|] eqn:E; [|done]. simpl in Hj. simplify_eq.
  exists (length (cl_sent cl) + j)%nat, peer, 0. split; [unfold next_rpc; lia|]. simpl.
  rewrite lookup_app_r by lia. replace (_ + j - _)%nat with j by lia. by rewrite list_lookup_fmap, E.
Qed.

Lemma repair_entry_inv B cl c : CInv B cl → keeps B (repair_entry c cl).
Proof.
  intros Hc. unfold repair_entry. pose proof (cv_clients _ _ Hc c) as Hx. set (x := client_of c cl) in *.
  pose proof (co_task _ _ _ _ Hx) as Ht.
  destruct (c_task x) as [| | | |d [|s k|]] eqn:Ex; try by apply keeps_same. destruct Ht as [Hd Hs].
  destruct (digests_finished d) eqn:Ef.
  { destruct (repair_done_ok content cl B d x Hd Ef Hx) as [? E]. apply keeps_same, client_inv; [done|by rewrite E|done]. }
  destruct (rs_sent s !! k) as [[offset e]|] eqn:Ee; [|by apply keeps_same].
  pose proof (so_entries _ _ _ Hs offset e ltac:(by eapply list_elem_of_lookup_2)) as Hentry.
  destruct (replicate_record offset e d) as [r|] eqn:Er; [|by apply keeps_same]. unfold replicate_record in Er.
  destruct (offset <? dg_start_offset d).
  { simplify_eq. apply keeps_same, client_inv; [done|done|]. by apply set_task_ok. }
  destruct e as [to_|to_|rec]; [|done|].
  { simplify_eq. apply keeps_same, client_inv; [done|done|]. apply set_task_ok; [done|]. split; [|done].
    apply update_start_ok; [|done]. simpl in Hentry. pose proof (offset_next_le to_). lia. }
  destruct (_ !! offset) as [copies|] eqn:Ek; [|done]. simpl in Er. apply elem_of_list_to_map_2 in Ek.
  destruct (dk_offsets _ _ _ _ Hd _ _ Ek) as [Ho Hh].
  destruct (select_fixups copies ∅) as [[fixups|]|]; simpl in Er; [| |done].
  2: { simplify_eq. apply upd_client_inv; [done|]. intros x'. by apply abandon_ok. }
  destruct (copies_checker copies) as [ch|] eqn:Ec; [|done]. simpl in Er. simplify_eq.
  destruct Hentry as [-> _]. set (m := repair_store d offset (content offset)).
  set (msgs := (λ i, (i, MsgStore (Z.of_nat c, 1) 0 m)) <$> fixups).
  change (send msgs (set_client c ?y cl)) with (set_client c y (send msgs cl)).
  assert (CInv B (send msgs cl)) as Hc1.
  { apply send_inv; [done|]. apply Forall_fmap, Forall_true. intros i. apply repair_store_ok; [apply (dk_start _ _ _ _ Hd)|].
    destruct (co_targets _ _ _ _ Hx _ (dk_target _ _ _ _ Hd)). lia. }
  assert (cl_le cl (send msgs cl)) as Hl by (split; [by intros ?; split|by eexists]).
  apply client_moves_inv; [done|]. apply (repair_poll_ok content (send msgs cl) B (c_set_task _ x)); [apply (cv_upto _ _ Hc1)|].
  apply set_task_ok; [by apply (client_ok_mono content B B cl)|]. split_and!.
  - by apply (digests_ok_mono B B cl _ (c_targets x)).
  - done.
  - lia.
  - eapply copies_good; [exact Ec| |by intros i Hi _; left]. intros i Hi. eapply holds_le; [exact Hl|by apply Hh].
  - intros i rpc Hin. exists m. split; [by apply send_store_sent|]. unfold store_last. simpl. lia.
Qed.

(** ** Requests *)

Lemma request_ok B g r m : 1 ≤ g ≤ B → request_message g r = Some m → msg_ok B m.
Proof.
  intros Hg. destruct r; simpl; try (intros [= <-]; split; [simpl; lia|done]).
  unfold clip_trim_point. destruct (_ =? _) eqn:E; [done|]. simpl. intros [= <-]. split; [|done].
  simpl. unfold offset_prev_unchecked, saturating_sub. lia.
Qed.

(** ** A step *)

Lemma server_step_keeps B cl i e :
  CInv B cl →
  (∀ rpc m, e = EvMessage rpc m → msg_told m ≤ B
    ∧ ∀ peer now sto, m = MsgStore peer now sto → sent_store cl i rpc sto ∧ carries content sto) →
  CInv B (set_server i (server_step e (server_of i cl)) cl).
Proof.
  intros Hc He. pose proof (cu_servers _ _ _ (cv_upto _ _ Hc) i) as Hs. apply server_inv; [done| |].
  - by eapply server_step_le.
  - intros floor. by apply server_step_inv.
Qed.

Lemma deliver_inv B cl k now : CInv B cl → keeps B (deliver k now cl).
Proof.
  intros Hc. apply keeps_same. unfold deliver. destruct (cl_sent cl !! k) as [[i m]|] eqn:E; [|done].
  destruct (cv_sent _ _ Hc _ _ _ E) as [Ht Hst]. apply server_step_keeps; [done|].
  intros rpc m' [= <- <-]. split; [by destruct m|]. intros peer now' sto Em.
  destruct m as [peer0 now0 sto0| | | | | | |]; try discriminate Em. simpl in Em. simplify_eq. split; [|by eapply Hst].
  by exists k, peer, now0.
Qed.

Lemma reply_in i k cl r : replies_at i cl !! k = Some r → r ∈ replies_at i cl.
Proof. apply list_elem_of_lookup_2. Qed.

Lemma cache_batch_ok B cl a x :
  appender_ok content B cl a → client_ok content B cl x →
  client_ok content B cl
    (c_set_stream (c_reader x) (process_store_message (ap_first_offset a) (ap_records a) (c_cache x)) x).
Proof.
  intros Ha Hx. apply set_stream_ok; [done|apply (co_reader _ _ _ _ Hx)|].
  intros o r. destruct Ha as [A1 A2 A3 _ _ _]. unfold ap_last in A2. rewrite process_store_message_lookup by lia.
  case_bool_decide as Ho; [|apply (co_cache _ _ _ _ Hx)].
  intros ->%A3. f_equal. lia.
Qed.

Lemma client_event_inv B cl c f :
  CInv B cl → (∀ x x', client_ok content B cl x → f x = Some x' → client_moves content B cl x x') →
  keeps B (upd_client c f cl).
Proof. intros Hc Hf. apply upd_client_inv; [done|]. intros x'. apply Hf, (cv_clients _ _ Hc c). Qed.

(** The steps of a client, apart from a repair that stores a record and from requests. *)
Definition is_client_step (e : CEvent) : bool :=
  match e with
  | CLearn _ | CShare _ _ | CFind _ | CInfo _ _ _ | CDecide _ _ _ | CSeal _ | CSealAnswer _ _ _ | CGiveUp _
  | CDigest _ _ _ | CDigestsEnd _ | CRepairStored _ _ _ | CRead _ _ _ _ | CReadTail _ | CReadRecords _ _ _ _
  | CReadCache _ _ | CReadTrim _ _ _ _ | CCacheBatch _ _ => true
  | _ => false
  end.

Lemma server_side_inv B cl e : CInv B cl → is_client_step e = false → keeps B (cluster_step content e cl).
Proof.
  intros Hc Hside. pose proof (cv_upto _ _ Hc) as Hcu. pose proof (cv_seq _ _ Hc) as Hq.
  pose proof (so_known _ _ _ Hq) as Hk.
  assert (∀ c, 1 ≤ c_global (client_of c cl) ≤ B) as Hg by (intros c; apply (cv_clients _ _ Hc c)).
  destruct e as [i e|k now|n|j alive|j i local t|j i k|j i sd|j|j|j|j| |c|c|c|c c'|c i r|c|c i k|c gone nothing|c|c i k|c|c i k|c|c|c i k
    |c filt from to_|c|c rep i k|c rep|c rep i k|c j]; try discriminate Hside; simpl.
  - destruct e; try (by apply keeps_same, server_step_keeps). by apply keeps_same.
  - by apply deliver_inv.
  - by apply enqueue_inv.
  - apply in_state_inv; [done|]. intros a a'. apply start_wave_ok.
  - by apply store_wait_inv.
  - destruct (replies_at i cl !! k) as [[]|] eqn:E; try by apply keeps_same.
    eapply stored_inv; [done|by eapply reply_in].
  - apply upd_appender_inv; [done|]. intros a a' sh' Ha.
    destruct (ap_state a); try (intros [= <- <-]; by apply appender_same).
    destruct (ap_tasks a !! i); [|intros [= <- <-]; by apply appender_same].
    apply on_store_result_ok; [done|done|done|]. by destruct sd.
  - apply in_state_inv; [done|]. intros a a' Ha. destruct (bool_decide _); [by apply end_wave_ok|by intros [= <-]].
  - apply in_state_inv; [done|]. intros a a' Ha [= <-]. by apply set_state_ok.
  - destruct (sq_cancelled _); [|by apply keeps_same]. apply upd_appender_inv; [done|]. intros a a' sh' Ha [= <- <-].
    apply appender_same; [|done]. destruct (ap_is_final a); [done|]. by apply set_state_ok, no_tasks_ok.
  - apply upd_appender_inv; [done|]. intros a a' sh' Ha [= <- <-].
    apply appender_same; [|done]. destruct (ap_is_final a); [by apply ap_finish_ok|done].
  - apply keeps_same, seq_inv; [done|]. destruct Hq. by split.
  - destruct (_ && _); [|by apply keeps_same]. apply keeps_same, seq_inv; [done|]. destruct Hq. split; try done.
    simpl. by rewrite watch_seal_offset.
  - apply keeps_same, seq_inv; [done|]. destruct Hq. split; try done. simpl. rewrite watch_offset_max. pose proof (Hg c). lia.
  - destruct (request_message _ r) as [m|] eqn:E; [|by apply keeps_same]. apply keeps_same, send_inv; [done|].
    apply Forall_singleton. eapply request_ok; [apply (Hg c)|exact E].
  - by apply repair_entry_inv.
Qed.

Lemma client_side_inv B cl e : CInv B cl → is_client_step e = true → keeps B (cluster_step content e cl).
Proof.
  intros Hc Hside. pose proof (cv_upto _ _ Hc) as Hcu. pose proof (cv_seq _ _ Hc) as Hq.
  pose proof (so_known _ _ _ Hq) as Hk.
  assert (∀ c, 1 ≤ c_global (client_of c cl) ≤ B) as Hg by (intros c; apply (cv_clients _ _ Hc c)).
  destruct e as [i e|k now|n|j alive|j i local t|j i k|j i sd|j|j|j|j| |c|c|c|c c'|c i r|c|c i k|c gone nothing|c|c i k|c|c i k|c|c|c i k
    |c filt from to_|c|c rep i k|c rep|c rep i k|c j]; try discriminate Hside; simpl.
  - apply upd_client_same; [done|]. intros x Hx. split; [by apply learn_ok|done].
  - apply upd_client_same; [done|]. intros x Hx. split; [apply learn_ok; [done|apply Hg]|done].
  - apply client_event_inv; [done|]. intros x x' Hx. destruct (c_task x); try (intros [= <-]; by apply client_same).
    by apply find_start_ok.
  - destruct (replies_at i cl !! k) as [r|] eqn:E; [|by apply keeps_same]. apply reply_in in E.
    destruct r; try (by apply keeps_same); (apply upd_client_same; [done|]; intros x Hx; split;
      [eapply (on_info_ok content cl B Hcu _ _ _ E); done|unfold on_info; simpl; by destruct (c_task x)]).
  - apply client_event_inv; [done|]. intros x x' Hx. by apply decide_find_ok.
  - apply client_event_inv; [done|]. intros x x' Hx. destruct (c_task x); try (intros [= <-]; by apply client_same).
    intros Hs. destruct (start_seal_ok content cl B _ _ _ Hx Hs) as [? Et]. apply client_same; [by rewrite Et|done].
  - destruct k as [k|].
    + destruct (replies_at i cl !! k) as [[]|] eqn:E; try by apply keeps_same. apply reply_in in E.
      apply client_event_inv; [done|]. intros x x' Hx. apply on_seal_answer_ok; [|done].
      intros h' [= <-]. exact (reply_global content cl B Hcu _ _ E).
    + apply client_event_inv; [done|]. intros x x' Hx. by apply on_seal_answer_ok.
  - apply client_event_inv; [done|]. intros x x' Hx. by apply abandon_ok.
  - destruct (replies_at i cl !! k) as [[]|] eqn:E; try by apply keeps_same. apply reply_in in E.
    apply client_event_inv; [done|]. intros x x' Hx. by eapply on_digest_ok.
  - apply client_event_inv; [done|]. intros x x' Hx. by apply digests_end_ok.
  - destruct (replies_at i cl !! k) as [[]|] eqn:E; try by apply keeps_same. apply reply_in in E.
    apply client_event_inv; [done|]. intros x x' Hx [= <-]. by eapply on_repair_stored_ok.
  - apply client_event_inv; [done|]. intros x x' Hx [= <-]. apply client_same; [done|].
    apply set_stream_ok; [done| |apply (co_cache _ _ _ _ Hx)]. intros s [= <-]. split; [done|].
    split; simpl; [by eexists|unfold LogletOffset_OLDEST; lia|by intros ? ? ?%elem_of_nil|].
    intros _. apply (co_watch _ _ _ _ Hx).
  - apply upd_client_same; [done|]. intros x Hx. apply on_stream_ok; [done|]. intros s Hs Hst. split; [|done].
    apply tail_changed_ok; [apply (co_watch _ _ _ _ Hx)| |done]. by apply (co_reader _ _ _ _ Hx).
  - destruct (replies_at i cl !! k) as [[]|] eqn:E; try by apply keeps_same. apply reply_in in E.
    apply upd_client_same; [done|]. intros x Hx. by eapply on_records_step_ok.
  - apply upd_client_same; [done|]. intros x Hx. apply on_stream_ok; [done|]. intros s Hs Hst.
    destruct (c_cache x !! rs_read_pointer s) as [r|] eqn:E; [|done]. split.
    + apply from_cache_ok; [by apply (co_cache _ _ _ _ Hx)|done].
    + unfold rs_from_cache. by repeat case_match.
  - destruct (replies_at i cl !! k) as [[]|] eqn:E; try by apply keeps_same. apply reply_in in E.
    apply upd_client_same; [done|]. intros x Hx. apply on_stream_ok; [done|]. intros s Hs Hst. split.
    + apply trim_gap_ok; [|done]. exact (reply_says content cl B Hcu _ _ E).
    + unfold rs_trim_gap. by case_match.
  - destruct (sq_appenders (cl_seq cl) !! j) as [a|] eqn:E; [|by apply keeps_same].
    apply upd_client_same; [done|]. intros x Hx. split; [|done]. apply cache_batch_ok; [|done].
    apply (so_appenders _ _ _ Hq). by eapply list_elem_of_lookup_2.
Qed.

Lemma cluster_step_inv B cl e : CInv B cl → keeps B (cluster_step content e cl).
Proof. intros Hc. destruct (is_client_step e) eqn:E; [by apply client_side_inv|by apply server_side_inv]. Qed.

(** ** Runs *)

Lemma cluster_init_inv n : CInv 1 (cluster_init n).
Proof.
  split.
  - split; [done| |intros o Ho; lia]. intros i. by apply server_init_inv.
  - intros k i m. simpl. by rewrite lookup_nil.
  - split; simpl; [done|done|by intros ? ?%elem_of_nil].
  - intros c. by apply client_new_ok.
  - by left.
Qed.

Lemma cluster_run_inv n es : ∃ B, CInv B (cluster_run content n es).
Proof.
  induction es as [|e es IH] using rev_ind; [exists 1; apply cluster_init_inv|].
  destruct IH as [B IH]. unfold cluster_run in *. rewrite foldl_app. simpl.
  destruct (cluster_step_inv _ _ e IH) as (B' & _ & ?). by exists B'.
Qed.

End Steps.
