(* ===== verification/LogletSafety.v ===== *)
(** * LogletSafety: what a replicated loglet guarantees

    Statements about every run of a replicated loglet on its log servers: acknowledged
    appends, the tails that are reported, sealed tails, and readers; and a run that shows
    what is not guaranteed when two tasks find the tail of a sealed loglet at once. *)

From stdpp Require Import strings gmap sorting.
From S2P Require Import Prelude BTreeMap LogTypes Locality Replication LogChain NodesConfig NodeSetChecker Quorums LogServer LogServerProps ReplicatedLoglet LogletCluster LogletEvidence LogletInv LogletClients LogletSequencer LogletSteps.

Open Scope Z_scope.

(** The node has the record at its offset; or it has trimmed it, which it does only
    below a committed tail. *)
Definition has_record (cl : Cluster) (o : Z) (r : LogRecord) (i : Z) : Prop :=
  d_records (n_disk (node_of i cl)) !! o = Some r ∨ o ≤ disk_trim (n_disk (node_of i cl)).

(** The tails that somebody takes as committed: behind an acknowledged batch, in the
    watch of the sequencer or of a client, in a result of find-tail, or as the global
    tail or behind the trim point of a server. *)
Inductive known_tail (cl : Cluster) : Z → Prop :=
| kt_acknowledged a last : a ∈ sq_appenders (cl_seq cl) → ap_result a = Some (CrOffset last) → known_tail cl (last + 1)
| kt_sequencer : known_tail cl (tail_offset (sh_known_global_tail (sq_shared (cl_seq cl))))
| kt_client c : known_tail cl (c_global (client_of c cl))
| kt_open c g : FtOpen g ∈ c_results (client_of c cl) → known_tail cl g
| kt_sealed c g : FtSealed g ∈ c_results (client_of c cl) → known_tail cl g
| kt_server i : known_tail cl (ls_known_global_tail (n_state (node_of i cl)))
| kt_trim i : known_tail cl (disk_trim (n_disk (node_of i cl)) + 1).

(** The last offset that an entry of a stream covers. *)
Definition entry_last (o : Z) (e : MaybeRecord) : Z :=
  match e with MrData _ => o | MrTrimGap t | MrFilteredGap t => t end.

Section Safety.
Context `{!LogletEnv, !LogletEnvOk} (content : Z → LogRecord).

Lemma known_tail_bound B cl g : CInv content B cl → known_tail cl g → g ≤ B.
Proof.
  intros Hc Hg. pose proof (cv_clients _ _ _ Hc) as Hcl. pose proof (cv_seq _ _ _ Hc) as Hq.
  pose proof (cu_servers _ _ _ (cv_upto _ _ _ Hc)) as Hs.
  destruct Hg as [a last Ha Hr| |c|c g Hg|c g Hg|i|i].
  - by apply (ao_result _ _ _ _ (so_appenders _ _ _ _ Hq _ Ha)).
  - apply (so_known _ _ _ _ Hq).
  - apply (co_watch _ _ _ _ (Hcl c)).
  - apply (co_results _ _ _ _ (Hcl c) _ Hg).
  - apply (co_results _ _ _ _ (Hcl c) _ Hg).
  - apply (ni_global _ _ _ _ _ (si_node _ _ _ _ _ (Hs i))).
  - pose proof (do_trim _ _ _ (ni_disk _ _ _ _ _ (si_node _ _ _ _ _ (Hs i)))). unfold node_of. lia.
Qed.

Lemma holds_record B cl o i : CInv content B cl → holds cl o i → has_record cl o (content o) i.
Proof.
  intros Hc [[r Hr]|Ht]; [|by right]. left. rewrite Hr. f_equal.
  apply (do_content _ _ _ (ni_disk _ _ _ _ _ (si_node _ _ _ _ _ (cu_servers _ _ _ (cv_upto _ _ _ Hc) i))) _ _ Hr).
Qed.

Lemma committed_record B cl o :
  CInv content B cl → 1 ≤ o < B → is_write_quorum loglet_scopes (has_record cl o (content o)).
Proof.
  intros Hc Ho. eapply write_quorum_mono; [|by apply (cu_replicated _ _ _ (cv_upto _ _ _ Hc))].
  intros i. by eapply holds_record.
Qed.

(** C2: acknowledged appends are durable.  When the writer of a batch is told its
    offset, every record of the batch is on a write quorum of log servers (or trimmed
    there: a server that was told to trim the offset counts), so that every f-majority
    of nodes has a node with the record.  This holds in every run: whatever is
    delivered late, twice or never, whichever log servers crash and restart, and whoever
    seals, repairs or trims the loglet at the same time. *)
Theorem acknowledged_appends_durable (max_inflight : Z) (es : list CEvent) a last k r :
  a ∈ sq_appenders (cl_seq (cluster_run content max_inflight es)) →
  ap_result a = Some (CrOffset last) → ap_records a !! k = Some r →
  ap_first_offset a + Z.of_nat k ≤ last
  ∧ is_write_quorum loglet_scopes
      (has_record (cluster_run content max_inflight es) (ap_first_offset a + Z.of_nat k) r)
  ∧ ∀ F, is_fmajority loglet_scopes F →
      ∃ i, F i ∧ has_record (cluster_run content max_inflight es) (ap_first_offset a + Z.of_nat k) r i.
Proof.
  intros Ha Hr Hk. destruct (cluster_run_inv content max_inflight es) as [B Hc].
  pose proof (so_appenders _ _ _ _ (cv_seq _ _ _ Hc) _ Ha) as [A1 A2 A3 _ _ A6].
  destruct (A6 _ Hr) as [-> Hb]. pose proof (lookup_lt_Some _ _ _ Hk) as Hlt. rewrite (A3 _ _ Hk).
  assert (ap_first_offset a + Z.of_nat k ≤ ap_last a) as Hle by (unfold ap_last; lia).
  assert (is_write_quorum loglet_scopes (has_record (cluster_run content max_inflight es)
    (ap_first_offset a + Z.of_nat k) (content (ap_first_offset a + Z.of_nat k)))) as Hw
    by (eapply committed_record; [exact Hc|lia]).
  split_and!; [done|done|]. intros F HF. exact (quorums_intersect _ _ _ HF Hw).
Qed.

(** C11: every tail that is taken as committed is committed.  Below it every record is on
    a write quorum, or trimmed there, with the content that the sequencer gave to the
    offset.  In particular
    this holds for the results of find-tail on an open or a sealed loglet, with and
    without a repair, and for the global tails that log servers pass on. *)
Theorem known_tails_replicated (max_inflight : Z) (es : list CEvent) g o :
  known_tail (cluster_run content max_inflight es) g → 1 ≤ o < g →
  is_write_quorum loglet_scopes (has_record (cluster_run content max_inflight es) o (content o)).
Proof.
  intros Hg Ho. destruct (cluster_run_inv content max_inflight es) as [B Hc].
  pose proof (known_tail_bound _ _ _ Hc Hg). eapply committed_record; [exact Hc|lia].
Qed.

(** C4: a sealed tail covers what is acknowledged.  When find-tail returned that the
    loglet is sealed at [N], and no other task found a larger tail on an f-majority of
    sealed nodes, then no batch that ends at [N] or behind was or will be acknowledged,
    and nobody takes a tail above [N] as committed. *)
Theorem sealed_tail_covers (max_inflight : Z) (es : list CEvent) c N g :
  FtSealed N ∈ c_results (client_of c (cluster_run content max_inflight es)) →
  (∀ c' N', N' ∈ c_targets (client_of c' (cluster_run content max_inflight es)) → N' ≤ N) →
  known_tail (cluster_run content max_inflight es) g → g ≤ N.
Proof.
  intros HN Hmax Hg. destruct (cluster_run_inv content max_inflight es) as [B Hc].
  pose proof (known_tail_bound _ _ _ Hc Hg) as Hb. destruct (co_results _ _ _ _ (cv_clients _ _ _ Hc c) _ HN) as [_ Ht].
  destruct (co_targets _ _ _ _ (cv_clients _ _ _ Hc c) _ Ht) as [H1 Hf].
  destruct (cv_level _ _ _ Hc) as [?|[(c' & N' & HN' & ?)|Hfe]]; [lia|pose proof (Hmax _ _ HN'); lia|].
  destruct (quorums_intersect _ _ _ Hf Hfe) as (i & (r & Hr & Hs & Hle) & Hi).
  destruct (ni_floor _ _ _ _ _ (si_node _ _ _ _ _ Hi)) as [_ Hfl]. pose proof (Hfl _ Hr Hs). lia.
Qed.

(** C12: readers see the committed prefix.  What a read stream delivers has no hole: an
    entry starts where the one before ended.  A record is the one that the sequencer gave
    to the offset; and everything up to the end of an entry, records and gaps alike, is
    committed. *)
Theorem readers_see_committed (max_inflight : Z) (es : list CEvent) c s :
  c_reader (client_of c (cluster_run content max_inflight es)) = Some s →
  (∃ p, chained p (rs_sent s) (rs_read_pointer s))
  ∧ ∀ o e, (o, e) ∈ rs_sent s →
      (∀ r, e = MrData r → r = content o)
      ∧ ∀ o', 1 ≤ o' ≤ entry_last o e →
          is_write_quorum loglet_scopes (has_record (cluster_run content max_inflight es) o' (content o')).
Proof.
  intros Hs. destruct (cluster_run_inv content max_inflight es) as [B Hc].
  destruct (co_reader _ _ _ _ (cv_clients _ _ _ Hc c) _ Hs) as [Hb [S1 _ S3 _]]. split; [done|].
  intros o e He. specialize (S3 o e He). rewrite Hb in S3.
  assert (entry_last o e < B) as Hl by (destruct e; simpl in *; naive_solver).
  split; [intros r ->; by apply S3|]. intros o' Ho. eapply committed_record; [exact Hc|lia].
Qed.

End Safety.

(** ** A run with three nodes and two copies *)

Definition loglet_demo_nodes : NodesConfiguration := upsert_node (demo_node 3 "c") demo_nodes.

#[local] Instance loglet_demo_env : LogletEnv := {|
  le_params := mkRLP 5 (1, 1) demo_rp demo_nodeset;
  le_config := loglet_demo_nodes |}.

#[local] Instance loglet_demo_env_ok : LogletEnvOk.
Proof. split; [apply demo_rp_wf|apply demo_nodeset_NoDup|by vm_compute]. Qed.

Definition loglet_demo_content (o : Z) : LogRecord :=
  {| rec_created_at := o; rec_keys := KeysSingle o; rec_body := "x" |}.

(** A batch of one record is stored on node 1.  Nodes 1 and 3 are sealed, at the tails 2
    and 1; on node 2 the seal waits in the queue of the writer, and the store of the batch
    waits behind it.  Client 1 hears from node 3. *)
Definition sealing_run : list CEvent :=
  [CServer 1 EvStart; CServer 2 EvStart; CServer 3 EvStart;
   CEnqueue 1; CWave 0 [1; 2; 3]; CStoreWait 0 1 true 9; CStoreWait 0 2 true 9; CStoreWait 0 3 true 9;
   CDeliver 0 0; CServer 1 (EvCommit 5);
   CRequest 0 1 RqSeal; CRequest 0 2 RqSeal; CRequest 0 3 RqSeal;
   CDeliver 3 0; CServer 1 (EvCommit 5); CServer 1 EvLocalTail;
   CDeliver 5 0; CServer 3 (EvCommit 5); CServer 3 EvLocalTail;
   CDeliver 4 0; CDeliver 1 0;
   CFind 1; CRequest 1 3 RqInfo; CDeliver 6 0; CInfo 1 3 1].

(** Client 0 finds the tail 2 on nodes 1 and 3 and repairs the record on node 3.  Node 2
    hears of the tail and acknowledges the store that waits, so that the sequencer
    acknowledges the batch.  Client 2 reads it. *)
Definition repairing_run : list CEvent :=
  sealing_run ++
  [CFind 0; CRequest 0 1 RqInfo; CRequest 0 3 RqInfo; CDeliver 7 0; CDeliver 8 0; CInfo 0 1 2; CInfo 0 3 2;
   CDecide 0 false false;
   CRequest 0 1 (RqDigest 1 1); CRequest 0 3 (RqDigest 1 1); CDeliver 9 0; CDeliver 10 0; CDigest 0 1 3; CDigest 0 3 3;
   CRequest 0 1 (RqRecords {| gr_total_limit_in_bytes := None; gr_filter := FilterAny;
                              gr_from_offset := 1; gr_to_offset := 1 |});
   CDeliver 11 0; CReadRecords 0 true 1 4; CRepairEntry 0; CDeliver 13 0; CServer 3 (EvCommit 5); CRepairStored 0 3 4;
   CRepairEntry 0;
   CRequest 0 2 RqInfo; CDeliver 14 0; CServer 2 EvGlobalTail;
   CStored 0 1 0; CStored 0 2 1; CAppendEnd 0;
   CLearn 2; CRead 2 FilterAny 1 None;
   CRequest 2 3 (RqRecords {| gr_total_limit_in_bytes := None; gr_filter := FilterAny;
                              gr_from_offset := 1; gr_to_offset := 1 |});
   CDeliver 15 0; CReadRecords 2 false 3 5].

(** Node 2 crashes, which makes it forget the tail, and is sealed.  Client 1 hears from it. *)
Definition forgetful_run : list CEvent :=
  repairing_run ++
  [CServer 2 (EvRestart 0); CServer 2 EvStart; CDeliver 4 0; CServer 2 (EvCommit 5); CServer 2 EvLocalTail;
   CRequest 1 2 RqInfo; CDeliver 16 0; CInfo 1 2 3; CDecide 1 false false].

Abbreviation run_demo es := (cluster_run loglet_demo_content 10 es).

(** The tails that clients found on sealed nodes. *)
Definition all_targets (cl : Cluster) : list Z := concat ((λ e, c_targets e.2) <$> map_to_list (cl_clients cl)).

Lemma all_targets_spec cl c N : N ∈ c_targets (client_of c cl) → N ∈ all_targets cl.
Proof.
  unfold client_of. destruct (cl_clients cl !! c) as [x|] eqn:E; simpl; [|by intros ?%elem_of_nil].
  intros HN. apply list_elem_of_In, in_concat. exists (c_targets x). rewrite <- !list_elem_of_In. split; [|done].
  apply list_elem_of_fmap. exists (c, x). split; [done|]. by apply elem_of_map_to_list.
Qed.

(** What the run leaves. *)
Lemma repairing_run_facts :
  (λ a, (ap_result a, ap_first_offset a, ap_records a)) <$> sq_appenders (cl_seq (run_demo repairing_run)) =
    [(Some (CrOffset 1), 1, [loglet_demo_content 1])]
  ∧ c_results (client_of 0 (run_demo repairing_run)) = [FtSealed 2]
  ∧ all_targets (run_demo repairing_run) = [2]
  ∧ rs_sent <$> c_reader (client_of 2 (run_demo repairing_run)) = Some [(1, MrData (loglet_demo_content 1))].
Proof. split_and!; vm_compute; reflexivity. Qed.

Lemma acknowledged_batch :
  ∃ a, a ∈ sq_appenders (cl_seq (run_demo repairing_run)) ∧ ap_result a = Some (CrOffset 1)
    ∧ ap_first_offset a = 1 ∧ ap_records a = [loglet_demo_content 1].
Proof.
  destruct repairing_run_facts as [H _]. destruct (sq_appenders _) as [|a [|]]; try discriminate H.
  exists a. split; [by left|]. by injection H.
Qed.

Lemma acknowledged_appends_durable_witness :
  is_write_quorum loglet_scopes (has_record (run_demo repairing_run) 1 (loglet_demo_content 1)).
Proof.
  destruct acknowledged_batch as (a & Ha & Hr & Hf & Hp).
  destruct (acknowledged_appends_durable loglet_demo_content 10 repairing_run a 1 0 (loglet_demo_content 1) Ha Hr)
    as (_ & Hw & _); [by rewrite Hp|]. by rewrite Hf in Hw.
Defined.

Lemma known_tails_replicated_witness :
  known_tail (run_demo repairing_run) 2
  ∧ is_write_quorum loglet_scopes (has_record (run_demo repairing_run) 1 (loglet_demo_content 1)).
Proof.
  assert (known_tail (run_demo repairing_run) 2) as Hk.
  { apply (kt_sealed _ 0). destruct repairing_run_facts as (_ & -> & _). by left. }
  split; [exact Hk|]. apply (known_tails_replicated loglet_demo_content 10 repairing_run 2 1); [exact Hk|lia].
Defined.

Lemma sealed_tail_covers_witness :
  known_tail (run_demo repairing_run) (1 + 1) ∧ 1 + 1 ≤ 2.
Proof.
  assert (known_tail (run_demo repairing_run) (1 + 1)) as Hk.
  { destruct acknowledged_batch as (a & Ha & Hr & _). by apply (kt_acknowledged _ a). }
  split; [exact Hk|]. apply (sealed_tail_covers loglet_demo_content 10 repairing_run 0 2); [| |exact Hk].
  - destruct repairing_run_facts as (_ & -> & _). by left.
  - intros c' N' HN%all_targets_spec. destruct repairing_run_facts as (_ & _ & Ht & _).
    rewrite Ht in HN. apply list_elem_of_singleton in HN. lia.
Defined.

Lemma readers_see_committed_witness :
  is_write_quorum loglet_scopes (has_record (run_demo repairing_run) 1 (loglet_demo_content 1)).
Proof.
  destruct repairing_run_facts as (_ & _ & _ & Hr).
  destruct (c_reader (client_of 2 (run_demo repairing_run))) as [s|] eqn:E; [|discriminate Hr].
  injection Hr as Hr. destruct (readers_see_committed loglet_demo_content 10 repairing_run 2 s E) as [_ Hs].
  destruct (Hs 1 (MrData (loglet_demo_content 1))) as [_ Hw]; [rewrite Hr; by left|]. apply (Hw 1). simpl. lia.
Defined.

(** ** What is not guaranteed *)

(** The condition of [sealed_tail_covers] is needed.  The batch with the record at offset
    1 is acknowledged, and find-tail returns to client 1 that the loglet is sealed at 1:
    client 1 has the answer that node 3 gave before the repair, and the one of node 2,
    which acknowledged the store because of a global tail that it no longer knows. *)
Lemma sealed_below_acknowledged :
  ap_result <$> sq_appenders (cl_seq (run_demo forgetful_run)) = [Some (CrOffset 1)]
  ∧ c_results (client_of 1 (run_demo forgetful_run)) = [FtSealed 1]
  ∧ c_results (client_of 0 (run_demo forgetful_run)) = [FtSealed 2].
Proof. split_and!; vm_compute; reflexivity. Qed.
