(* ===== verification/UnresolvedFuture.v ===== *)
(** * UnresolvedFuture: resolution of the futures an invocation awaits

    Models crates/types/src/journal_v2/unresolved_future.rs, with the
    notification ids (notification.rs) and result variants (raw.rs) it uses.

    [resolve_inner] mutates the tree: it evicts completed children with
    [swap_remove].  Resolving a child reads only the lookup and the child, so
    the model pairs every child with its outcome first (structural recursion on
    the tree) and then runs the loops over these pairs: a child that the loop
    has visited is replaced by its mutated version, the others stay as they
    were. *)

From stdpp Require Import strings.
From S2P Require Import Prelude BTreeMap.

(** ** Notifications *)

Inductive NotificationId :=
| NCompletionId (id : Z)
| NSignalIndex (idx : Z)
| NSignalName (name : string).

#[export] Instance NotificationId_eq_dec : EqDecision NotificationId.
Proof. solve_decision. Defined.
#[export] Instance NotificationId_countable : Countable NotificationId.
Proof.
  refine (inj_countable'
    (λ n, match n with
      | NCompletionId i => inl i | NSignalIndex i => inr (inl i) | NSignalName s => inr (inr s) end)
    (λ x, match x with
      | inl i => NCompletionId i | inr (inl i) => NSignalIndex i | inr (inr s) => NSignalName s end) _).
  by intros [].
Defined.

Inductive SignalId :=
| SignalIndex (idx : Z)
| SignalName (name : string).

Definition for_signal (s : SignalId) : NotificationId :=
  match s with SignalIndex i => NSignalIndex i | SignalName n => NSignalName n end.

Inductive RawNotificationResultVariant :=
| RvUnknown | RvVoid | RvValue | RvFailure | RvInvocationId | RvStateKeys.

Definition rv_is_unknown (v : RawNotificationResultVariant) : bool :=
  match v with RvUnknown => true | _ => false end.
Definition rv_is_success (v : RawNotificationResultVariant) : bool :=
  match v with RvVoid | RvValue | RvInvocationId | RvStateKeys => true | _ => false end.

(** [trait NotificationResultVariantLookup], and its instances for a map and
    for one notification. *)
Abbreviation Lookup := (NotificationId → option RawNotificationResultVariant).

Definition lookup_map (m : gmap NotificationId RawNotificationResultVariant) : Lookup := λ n, m !! n.
Definition lookup_notification (id : NotificationId) (v : RawNotificationResultVariant) : Lookup :=
  λ n, if decide (n = id) then Some v else None.

(** ** Futures *)

Inductive CombinatorType :=
| CtUnknown | CtFirstCompleted | CtAllCompleted
| CtFirstSucceededOrAllFailed | CtAllSucceededOrFirstFailed.

#[warnings="-register-all"]
Inductive UnresolvedFuture :=
| Single (n : NotificationId)
| FirstCompleted (fs : list UnresolvedFuture)
| AllCompleted (fs : list UnresolvedFuture)
| FirstSucceededOrAllFailed (fs : list UnresolvedFuture)
| AllSucceededOrFirstFailed (fs : list UnresolvedFuture)
| UnknownCombinator (fs : list UnresolvedFuture).

Definition combinator_type (f : UnresolvedFuture) : option CombinatorType :=
  match f with
  | Single _ => None
  | FirstCompleted _ => Some CtFirstCompleted
  | AllCompleted _ => Some CtAllCompleted
  | FirstSucceededOrAllFailed _ => Some CtFirstSucceededOrAllFailed
  | AllSucceededOrFirstFailed _ => Some CtAllSucceededOrFirstFailed
  | UnknownCombinator _ => Some CtUnknown
  end.

Fixpoint future_is_empty (f : UnresolvedFuture) : bool :=
  match f with
  | Single _ => false
  | FirstCompleted fs | AllCompleted fs | FirstSucceededOrAllFailed fs
  | AllSucceededOrFirstFailed fs | UnknownCombinator fs => forallb future_is_empty fs
  end.

(** Splits the first level into notification ids and nested futures. *)
Definition split_children (fs : list UnresolvedFuture)
  : list NotificationId * list UnresolvedFuture :=
  foldl (λ '(nids, nested) f,
    match f with Single n => (nids ++ [n], nested) | f => (nids, nested ++ [f]) end) ([], []) fs.

Definition future_split (f : UnresolvedFuture)
  : CombinatorType * list NotificationId * list UnresolvedFuture :=
  let ty := default CtUnknown (combinator_type f) in
  match f with
  | Single n => (ty, [n], [])
  | FirstCompleted fs | AllCompleted fs | FirstSucceededOrAllFailed fs
  | AllSucceededOrFirstFailed fs | UnknownCombinator fs =>
      let '(nids, nested) := split_children fs in (ty, nids, nested)
  end.

Fixpoint flatten_inner (f : UnresolvedFuture) (set : gset NotificationId) : gset NotificationId :=
  match f with
  | Single n => {[ n ]} ∪ set
  | FirstCompleted fs | AllCompleted fs | FirstSucceededOrAllFailed fs
  | AllSucceededOrFirstFailed fs | UnknownCombinator fs =>
      foldl (λ acc g, flatten_inner g acc) set fs
  end.

Definition flatten (f : UnresolvedFuture) : gset NotificationId := flatten_inner f ∅.

(** ** Resolution *)

Inductive ResolveResult := Pending | SuccessOrFailure | Success | Failure.

#[export] Instance ResolveResult_eq_dec : EqDecision ResolveResult.
Proof. solve_decision. Defined.

Definition is_completed (r : ResolveResult) : bool := bool_decide (r ≠ Pending).

Definition result_of_variant (v : RawNotificationResultVariant) : ResolveResult :=
  if rv_is_success v then Success
  else if rv_is_unknown v then SuccessOrFailure
  else Failure.

(** [Result<ResolveResult, Indeterminable>]: [None] is [Err(Indeterminable)]. *)
Abbreviation Outcome := (option ResolveResult).

(** A child, its mutated version and the outcome of resolving it. *)
Abbreviation Cell := (UnresolvedFuture * (UnresolvedFuture * Outcome))%type.

(** The loop of [Unknown] and [FirstCompleted]: stops at the first completed
    child; [propagate] is what is returned for its result. *)
Fixpoint first_loop (propagate : ResolveResult → ResolveResult) (cells : list Cell)
  : list UnresolvedFuture * Outcome :=
  match cells with
  | [] => ([], Some Pending)
  | (_, (g, None)) :: rest => (g :: rest.*1, None)
  | (_, (g, Some r)) :: rest =>
      if is_completed r then (g :: rest.*1, Some (propagate r))
      else let '(fs, o) := first_loop propagate rest in (g :: fs, o)
  end.

(** [Vec::swap_remove]: the last element takes the place of the removed one. *)
Definition swap_remove {A} (i : nat) (l : list A) : list A :=
  match last l with
  | None => l
  | Some x => take (length l - 1) (<[i := x]> l)
  end.

(** What the [while] loops do with a child's result. *)
Inductive Action := Evict | Skip | Return (r : ResolveResult) | Shortcircuit.

(** How such a loop ends: by going through all children, by returning a result,
    or by short-circuiting. *)
Inductive Exit := Finished | Returned (r : ResolveResult) | Aborted.

(** Every iteration evicts a child or moves on to the next one, so as many
    iterations as there are children are enough. *)
Fixpoint while_loop (fuel : nat) (act : ResolveResult → Action) (i : nat) (cells : list Cell)
  : list UnresolvedFuture * Exit :=
  match fuel with
  | O => (cells.*1, Finished)
  | S fuel =>
      match cells !! i with
      | None => (cells.*1, Finished)
      | Some (_, (g, o)) =>
          let cells := <[i := (g, (g, o))]> cells in
          match o with
          | None => (cells.*1, Aborted)
          | Some r =>
              match act r with
              | Evict => while_loop fuel act i (swap_remove i cells)
              | Skip => while_loop fuel act (S i) cells
              | Return r' => (cells.*1, Returned r')
              | Shortcircuit => (cells.*1, Aborted)
              end
          end
      end
  end.

Definition all_completed_action (r : ResolveResult) : Action :=
  if is_completed r then Evict else Skip.

Definition first_succeeded_action (r : ResolveResult) : Action :=
  match r with
  | Success => Return Success
  | Failure => Evict
  | Pending => Skip
  | SuccessOrFailure => Shortcircuit
  end.

Definition all_succeeded_action (r : ResolveResult) : Action :=
  match r with
  | Success => Evict
  | Failure => Return Failure
  | Pending => Skip
  | SuccessOrFailure => Shortcircuit
  end.

(** The code after the loop: [when_empty] if every child was evicted. *)
Definition finish_loop (when_empty : ResolveResult) (l : list UnresolvedFuture * Exit)
  : list UnresolvedFuture * Outcome :=
  match l with
  | (fs, Returned r) => (fs, Some r)
  | (fs, Aborted) => (fs, None)
  | (fs, Finished) => (fs, Some (match fs with [] => when_empty | _ => Pending end))
  end.

Definition run_while (act : ResolveResult → Action) (when_empty : ResolveResult)
    (cells : list Cell) : list UnresolvedFuture * Outcome :=
  finish_loop when_empty (while_loop (length cells) act 0 cells).

Fixpoint resolve_inner (lookup : Lookup) (f : UnresolvedFuture) : UnresolvedFuture * Outcome :=
  let cells := map (λ g, (g, resolve_inner lookup g)) in
  match f with
  | Single n =>
      (f, Some (match lookup n with Some v => result_of_variant v | None => Pending end))
  | UnknownCombinator fs =>
      let '(fs, o) := first_loop (λ _, SuccessOrFailure) (cells fs) in (UnknownCombinator fs, o)
  | FirstCompleted fs =>
      let '(fs, o) := first_loop (λ r, r) (cells fs) in (FirstCompleted fs, o)
  | AllCompleted fs =>
      let '(fs, o) := run_while all_completed_action Success (cells fs) in (AllCompleted fs, o)
  | FirstSucceededOrAllFailed fs =>
      let '(fs, o) := run_while first_succeeded_action Failure (cells fs) in
      (FirstSucceededOrAllFailed fs, o)
  | AllSucceededOrFirstFailed fs =>
      let '(fs, o) := run_while all_succeeded_action Success (cells fs) in
      (AllSucceededOrFirstFailed fs, o)
  end.

Definition resolve (lookup : Lookup) (f : UnresolvedFuture) : UnresolvedFuture * bool :=
  let '(f, o) := resolve_inner lookup f in (f, is_completed (default Success o)).

(** ** Builder *)

Definition build_future (combinator : CombinatorType) (fs : list UnresolvedFuture)
  : option UnresolvedFuture :=
  let result := match combinator with
    | CtUnknown => UnknownCombinator fs
    | CtFirstCompleted => FirstCompleted fs
    | CtAllCompleted => AllCompleted fs
    | CtFirstSucceededOrAllFailed => FirstSucceededOrAllFailed fs
    | CtAllSucceededOrFirstFailed => AllSucceededOrFirstFailed fs
    end in
  if future_is_empty result then None else Some result.

(** ** Declarative semantics *)

Section FutureInd.
Variable P : UnresolvedFuture → Prop.
Hypothesis HSingle : ∀ n, P (Single n).
Hypothesis HFirst : ∀ fs, Forall P fs → P (FirstCompleted fs).
Hypothesis HAll : ∀ fs, Forall P fs → P (AllCompleted fs).
Hypothesis HFsaf : ∀ fs, Forall P fs → P (FirstSucceededOrAllFailed fs).
Hypothesis HAsff : ∀ fs, Forall P fs → P (AllSucceededOrFirstFailed fs).
Hypothesis HUnk : ∀ fs, Forall P fs → P (UnknownCombinator fs).

(** Induction on the tree, with the hypothesis for every child. *)
Fixpoint future_ind (f : UnresolvedFuture) : P f :=
  let go := fix go (fs : list UnresolvedFuture) : Forall P fs :=
    match fs with
    | [] => Forall_nil_2 P
    | g :: fs => Forall_cons_2 P g fs (future_ind g) (go fs)
    end in
  match f with
  | Single n => HSingle n
  | FirstCompleted fs => HFirst fs (go fs)
  | AllCompleted fs => HAll fs (go fs)
  | FirstSucceededOrAllFailed fs => HFsaf fs (go fs)
  | AllSucceededOrFirstFailed fs => HAsff fs (go fs)
  | UnknownCombinator fs => HUnk fs (go fs)
  end.
End FutureInd.

(** The state of a future, as the combinators define it. *)
Fixpoint eval_first (rs : list ResolveResult) : ResolveResult :=
  match rs with
  | [] => Pending
  | Pending :: rs => eval_first rs
  | r :: _ => r
  end.
Definition eval_all (rs : list ResolveResult) : ResolveResult :=
  if forallb is_completed rs then Success else Pending.
(** The two short-circuiting combinators: one result decides at once, the other
    only when all children have it. *)
Definition eval_short (win lose : ResolveResult) (rs : list ResolveResult) : ResolveResult :=
  if existsb (λ r, bool_decide (r = win)) rs then win
  else if forallb (λ r, bool_decide (r = lose)) rs then lose else Pending.

(** The unknown combinator completes with any child; how is for the SDK to say. *)
Definition eval_unknown (rs : list ResolveResult) : ResolveResult :=
  if bool_decide (eval_first rs = Pending) then Pending else SuccessOrFailure.

Fixpoint eval (lookup : Lookup) (f : UnresolvedFuture) : ResolveResult :=
  match f with
  | Single n => match lookup n with Some v => result_of_variant v | None => Pending end
  | FirstCompleted fs => eval_first (map (eval lookup) fs)
  | AllCompleted fs => eval_all (map (eval lookup) fs)
  | FirstSucceededOrAllFailed fs => eval_short Success Failure (map (eval lookup) fs)
  | AllSucceededOrFirstFailed fs => eval_short Failure Success (map (eval lookup) fs)
  | UnknownCombinator fs => eval_unknown (map (eval lookup) fs)
  end.

(** The children of the two short-circuiting combinators are all known to be
    pending, successful or failed. *)
Fixpoint settled (lookup : Lookup) (f : UnresolvedFuture) : bool :=
  match f with
  | Single _ => true
  | FirstCompleted fs | AllCompleted fs | UnknownCombinator fs => forallb (settled lookup) fs
  | FirstSucceededOrAllFailed fs | AllSucceededOrFirstFailed fs =>
      forallb (λ g, settled lookup g && bool_decide (eval lookup g ≠ SuccessOrFailure)) fs
  end.

(** Every stored notification says whether it succeeded. *)
Definition determinate (lookup : Lookup) : Prop := ∀ n, lookup n ≠ Some RvUnknown.

Lemma is_completed_false r : is_completed r = false ↔ r = Pending.
Proof. by destruct r. Qed.

Lemma forallb_Forall {A} (f : A → bool) l : forallb f l = true ↔ Forall (λ x, f x = true) l.
Proof. rewrite forallb_forall, Forall_forall. by setoid_rewrite <- list_elem_of_In. Qed.

Lemma eval_first_spec rs :
  (eval_first rs = Pending ↔ Forall (λ r, r = Pending) rs) ∧
  (eval_first rs ≠ Pending → eval_first rs ∈ rs).
Proof.
  induction rs as [|r rs [IH1 IH2]]; simpl; [done|]. rewrite Forall_cons, elem_of_cons.
  destruct r; [split; [tauto|auto]|split; [naive_solver|auto]..].
Qed.

(** ** The loops *)

(** A cell whose child resolved without short-circuiting. *)
Definition cell_result (c : Cell) (r : ResolveResult) : Prop := c.2.2 = Some r.

Lemma first_loop_spec propagate (cells : list Cell) (rs : list ResolveResult) :
  Forall2 cell_result cells rs →
  ∃ fs, first_loop propagate cells =
    (fs, Some (if bool_decide (eval_first rs = Pending) then Pending else propagate (eval_first rs))) ∧
  (eval_first rs = Pending → fs = (λ c : Cell, c.2.1) <$> cells).
Proof.
  induction 1 as [|[g0 [g o]] r cells rs Hr _ (fs & IH & IHfs)]; [by exists []|].
  unfold cell_result in Hr. simpl in Hr. subst o. cbn [first_loop].
  destruct r; simpl; [|by eexists..].
  rewrite IH. eexists. split; [done|]. intros Hp. by rewrite (IHfs Hp).
Qed.

(** Removing the first unvisited child permutes the others. *)
Lemma swap_remove_app {A} (l1 l2 : list A) x :
  ∃ l2', swap_remove (length l1) (l1 ++ x :: l2) = l1 ++ l2' ∧ l2' ≡ₚ l2.
Proof.
  unfold swap_remove. destruct l2 as [|y l2 _] using rev_ind.
  - rewrite last_snoc, insert_app_r_alt, Nat.sub_diag by done. simpl. exists [].
    rewrite length_app. simpl. rewrite Nat.add_sub, take_app_length. by rewrite app_nil_r.
  - rewrite app_comm_cons, app_assoc, last_snoc, <- app_assoc, <- app_comm_cons.
    rewrite insert_app_r_alt, Nat.sub_diag by done. simpl. exists (y :: l2). split.
    + replace (length (l1 ++ x :: l2 ++ [y]) - 1) with (length (l1 ++ y :: l2)).
      2: { rewrite !length_app. simpl. rewrite length_app. simpl. lia. }
      rewrite app_comm_cons, app_assoc. apply take_app_length.
    + by rewrite (Permutation_app_comm l2 [y]).
Qed.

(** The children that the loop skips. *)
Definition skipped (act : ResolveResult → Action) (c : Cell) : bool :=
  match c.2.2 with
  | Some r => match act r with Skip => true | _ => false end
  | None => false
  end.
Definition residual (act : ResolveResult → Action) (cells : list Cell) : list UnresolvedFuture :=
  (λ c : Cell, c.2.1) <$> filter (skipped act) cells.

#[local] Instance residual_perm act : Proper ((≡ₚ) ==> (≡ₚ)) (residual act).
Proof. intros l1 l2 Hl. unfold residual. by rewrite Hl. Qed.

Lemma while_loop_app act fuel (visited : list Cell) g0 g r (todo : list Cell) :
  while_loop (S fuel) act (length visited) (visited ++ (g0, (g, Some r)) :: todo) =
    let cells := visited ++ (g, (g, Some r)) :: todo in
    match act r with
    | Evict => while_loop fuel act (length visited) (swap_remove (length visited) cells)
    | Skip => while_loop fuel act (S (length visited)) cells
    | Return r' => (cells.*1, Returned r')
    | Shortcircuit => (cells.*1, Aborted)
    end.
Proof.
  cbn [while_loop]. rewrite list_lookup_middle by done.
  by rewrite insert_app_r_alt, Nat.sub_diag by done.
Qed.

(** The loop over determined results: it returns as soon as a child says so,
    and otherwise keeps, in some order, the children it skips. *)
Lemma while_loop_spec act r0 fuel : ∀ (visited todo : list Cell),
  length todo ≤ fuel →
  Forall (λ c : Cell, ∃ r, cell_result c r ∧
    (act r = Evict ∨ act r = Skip ∨ act r = Return r0)) todo →
  (Exists (λ c : Cell, ∃ r, cell_result c r ∧ act r = Return r0) todo ∧
     ∃ fs, while_loop fuel act (length visited) (visited ++ todo) = (fs, Returned r0)) ∨
  (Forall (λ c : Cell, ∃ r, cell_result c r ∧ (act r = Evict ∨ act r = Skip)) todo ∧
     ∃ kept, while_loop fuel act (length visited) (visited ++ todo) = (visited.*1 ++ kept, Finished) ∧
       kept ≡ₚ residual act todo).
Proof.
  induction fuel as [|fuel IH]; intros visited todo Hlen Hall.
  { destruct todo; simpl in *; [|lia]. right. split; [done|]. exists []. rewrite app_nil_r.
    by rewrite app_nil_r. }
  destruct todo as [|[g0 [g o]] todo].
  { right. split; [done|]. exists []. rewrite !app_nil_r. cbn [while_loop].
    by rewrite lookup_ge_None_2. }
  apply Forall_cons in Hall as [(r & Hr & Hact) Hall]. unfold cell_result in Hr. simpl in Hr. subst o.
  rewrite while_loop_app. simpl in Hlen. cbv zeta.
  destruct Hact as [Hact|[Hact|Hact]]; rewrite Hact.
  - destruct (swap_remove_app visited todo (g, (g, Some r))) as (todo' & -> & Hp).
    destruct (IH visited todo') as [[He Hfs]|[Hf (kept & Hk & Hkp)]].
    + rewrite Hp. lia.
    + by rewrite Hp.
    + left. split; [|done]. apply Exists_cons_tl. by rewrite <- Hp.
    + right. split.
      * constructor; [exists r; split; [done|by left]|]. by rewrite <- Hp.
      * exists kept. split; [done|]. rewrite Hkp, Hp. unfold residual.
        rewrite filter_cons_False; [done|]. unfold skipped. simpl. rewrite Hact. by intros [].
  - replace (S (length visited)) with (length (visited ++ [(g, (g, Some r))]))
      by (rewrite length_app; simpl; lia).
    replace (visited ++ (g, (g, Some r)) :: todo) with ((visited ++ [(g, (g, Some r))]) ++ todo)
      by (by rewrite <- app_assoc).
    destruct (IH (visited ++ [(g, (g, Some r))]) todo ltac:(lia) Hall)
      as [[He Hfs]|[Hf (kept & Hk & Hkp)]].
    + left. split; [by apply Exists_cons_tl|done].
    + right. split; [constructor; [exists r; split; [done|by right]|done]|].
      exists (g :: kept). split.
      * rewrite Hk, fmap_app, <- app_assoc. done.
      * unfold residual. rewrite filter_cons_True; [simpl; by rewrite Hkp|].
        unfold skipped. simpl. by rewrite Hact.
  - left. split; [apply Exists_cons_hd; by exists r|]. by eexists.
Qed.

Lemma run_while_spec act r0 when_empty (cells : list Cell) :
  Forall (λ c : Cell, ∃ r, cell_result c r ∧
    (act r = Evict ∨ act r = Skip ∨ act r = Return r0)) cells →
  (Exists (λ c : Cell, ∃ r, cell_result c r ∧ act r = Return r0) cells ∧
     ∃ fs, run_while act when_empty cells = (fs, Some r0)) ∨
  (Forall (λ c : Cell, ∃ r, cell_result c r ∧ (act r = Evict ∨ act r = Skip)) cells ∧
     ∃ kept, kept ≡ₚ residual act cells ∧
       run_while act when_empty cells =
         (kept, Some (match kept with [] => when_empty | _ => Pending end))).
Proof.
  intros Hall. unfold run_while.
  destruct (while_loop_spec act r0 (length cells) [] cells ltac:(done) Hall)
    as [[He (fs & Hfs)]|[Hf (kept & Hk & Hp)]]; simpl in *.
  - left. split; [done|]. rewrite Hfs. by eexists.
  - right. split; [done|]. exists kept. split; [done|]. by rewrite Hk.
Qed.

(** ** The algorithm against the semantics *)

(** The child after it was resolved. *)
Definition after (lookup : Lookup) (g : UnresolvedFuture) : UnresolvedFuture :=
  (resolve_inner lookup g).1.
Definition pending_children (lookup : Lookup) (fs : list UnresolvedFuture) : list UnresolvedFuture :=
  after lookup <$> filter (λ g, eval lookup g = Pending) fs.

(** The three loops: which results they skip, and which one makes them return. *)
Class LoopAction (act : ResolveResult → Action) (returns : option ResolveResult) := {
  la_skip r : act r ≠ Shortcircuit → act r = Skip ↔ r = Pending;
  la_return r : act r ≠ Shortcircuit →
    (act r = Evict ∨ act r = Skip) ∧ Some r ≠ returns ∨ act r = Return r ∧ Some r = returns;
}.

#[local] Instance all_completed_loop : LoopAction all_completed_action None.
Proof. split; intros []; unfold all_completed_action; simpl; naive_solver. Qed.
#[local] Instance first_succeeded_loop : LoopAction first_succeeded_action (Some Success).
Proof. split; intros []; simpl; naive_solver. Qed.
#[local] Instance all_succeeded_loop : LoopAction all_succeeded_action (Some Failure).
Proof. split; intros []; simpl; naive_solver. Qed.

Lemma cells_results lookup fs :
  Forall (λ g, (resolve_inner lookup g).2 = Some (eval lookup g)) fs →
  Forall2 cell_result (map (λ g, (g, resolve_inner lookup g)) fs) (map (eval lookup) fs).
Proof. induction 1; simpl; [apply Forall2_nil_2|by apply Forall2_cons_2]. Qed.

Section Loops.
Context (lookup : Lookup) (fs : list UnresolvedFuture).
Context (Hout : Forall (λ g, (resolve_inner lookup g).2 = Some (eval lookup g)) fs).

Let cells : list Cell := map (λ g, (g, resolve_inner lookup g)) fs.

Lemma residual_cells act returns `{!LoopAction act returns} :
  Forall (λ g, act (eval lookup g) ≠ Shortcircuit) fs →
  residual act cells = pending_children lookup fs.
Proof using Hout.
  intros Hdet. unfold residual, pending_children, cells, after. clear cells.
  induction fs as [|g fs' IH]; [done|]. apply Forall_cons in Hout as [Hg Hout'].
  apply Forall_cons in Hdet as [Hd Hdet']. cbn [map]. rewrite !filter_cons.
  assert (Is_true (skipped act (g, resolve_inner lookup g)) ↔ eval lookup g = Pending) as Hs.
  { unfold skipped. simpl. rewrite Hg. rewrite <- (la_skip _ Hd).
    destruct (act (eval lookup g)); simpl; naive_solver. }
  destruct (decide (eval lookup g = Pending)) as [Hp|Hp].
  - rewrite decide_True by (by apply Hs). rewrite !fmap_cons. by rewrite IH.
  - rewrite decide_False by (by rewrite Hs). by apply IH.
Qed.

(** A loop either meets a child with the result it returns on, or it ends with
    the pending children. *)
Lemma run_children act returns when_empty `{!LoopAction act returns} :
  Forall (λ g, act (eval lookup g) ≠ Shortcircuit) fs →
  (∃ r0, returns = Some r0 ∧ Exists (λ g, eval lookup g = r0) fs ∧
     ∃ fs', run_while act when_empty cells = (fs', Some r0)) ∨
  (Forall (λ g, Some (eval lookup g) ≠ returns) fs ∧
   ∃ kept, kept ≡ₚ pending_children lookup fs ∧
     run_while act when_empty cells = (kept, Some (match kept with [] => when_empty | _ => Pending end))).
Proof using Hout.
  intros Hdet. set (r0 := default Pending returns).
  assert (∀ g, g ∈ fs → (resolve_inner lookup g).2 = Some (eval lookup g)) as Hout'
    by (by apply Forall_forall).
  assert (∀ c : Cell, c ∈ cells → ∃ g, g ∈ fs ∧ cell_result c (eval lookup g)) as Hcell.
  { intros c Hc. unfold cells in Hc. apply list_elem_of_In, in_map_iff in Hc as (g & <- & Hg%list_elem_of_In).
    exists g. split; [done|]. by apply Hout'. }
  assert (∀ g, g ∈ fs → act (eval lookup g) ≠ Shortcircuit) as Hd by (by apply Forall_forall).
  destruct (run_while_spec act r0 when_empty cells) as [[He Hr]|[Hf (kept & Hk & Hr)]].
  - apply Forall_forall. intros c (g & Hg & Hres)%Hcell. exists (eval lookup g). split; [done|].
    destruct (la_return _ (Hd g Hg)) as [[[?|?] _]|[Ha Hret]]; [auto..|].
    right; right. subst r0. by rewrite <- Hret.
  - left. apply Exists_exists in He as (c & (g & Hg & Hres)%Hcell & r & Hcr & Hact).
    unfold cell_result in *. assert (r = eval lookup g) as -> by congruence.
    destruct (la_return _ (Hd g Hg)) as [[[?|?] _]|[Ha Hret]]; [congruence..|].
    exists r0. split_and!; [|apply Exists_exists; exists g; split; [done|congruence]|done].
    rewrite <- Hret. congruence.
  - right. split.
    + apply Forall_forall. intros g Hg. destruct (la_return _ (Hd g Hg)) as [[_ ?]|[Ha Hret]]; [done|].
      exfalso. rewrite Forall_forall in Hf.
      destruct (Hf (g, resolve_inner lookup g)) as (r & Hr' & Hact).
      { unfold cells. apply list_elem_of_In, in_map_iff. exists g. by rewrite <- list_elem_of_In. }
      unfold cell_result in Hr'. simpl in Hr'. rewrite (Hout' g Hg) in Hr'. injection Hr' as <-.
      destruct Hact; congruence.
    + exists kept. split; [|done]. by rewrite Hk, (residual_cells act returns Hdet).
Qed.

(** No child is pending exactly when the loop evicted them all. *)
Lemma kept_nil kept :
  kept ≡ₚ pending_children lookup fs →
  kept = [] ↔ Forall (λ g, eval lookup g ≠ Pending) fs.
Proof using.
  intros Hk. split.
  - intros ->. apply Permutation_nil_l in Hk. unfold pending_children in Hk. symmetry in Hk.
    apply fmap_nil_inv in Hk. apply Forall_forall. intros g Hg Hp.
    apply (not_elem_of_nil g). rewrite <- Hk. by apply list_elem_of_filter.
  - intros Hall. assert (pending_children lookup fs = []) as E.
    { unfold pending_children. clear -Hall.
      induction Hall as [|g l Hg _ IH]; [done|]. by rewrite filter_cons_False. }
    rewrite E in Hk. by apply Permutation_nil_r in Hk.
Qed.
End Loops.

Lemma existsb_result lookup fs r :
  existsb (λ x, bool_decide (x = r)) (map (eval lookup) fs) = true ↔
  Exists (λ g, eval lookup g = r) fs.
Proof.
  rewrite existsb_exists, Exists_exists. setoid_rewrite in_map_iff. setoid_rewrite <- list_elem_of_In.
  setoid_rewrite bool_decide_eq_true. naive_solver.
Qed.

Lemma forallb_result lookup fs (p : ResolveResult → bool) :
  forallb p (map (eval lookup) fs) = true ↔ Forall (λ g, p (eval lookup g) = true) fs.
Proof.
  rewrite forallb_forall, Forall_forall. setoid_rewrite in_map_iff. setoid_rewrite <- list_elem_of_In.
  naive_solver.
Qed.

(** The value of a short-circuiting combinator, from the two ways the loop can
    end. *)
Definition opposite (win lose : ResolveResult) : Prop :=
  win = Success ∧ lose = Failure ∨ win = Failure ∧ lose = Success.

Lemma eval_short_found win lose lookup fs :
  Exists (λ g, eval lookup g = win) fs → eval_short win lose (map (eval lookup) fs) = win.
Proof. intros He. unfold eval_short. by rewrite (proj2 (existsb_result lookup fs win) He). Qed.

Lemma eval_short_none win lose lookup fs :
  opposite win lose →
  Forall (λ g, eval lookup g ≠ SuccessOrFailure) fs → Forall (λ g, eval lookup g ≠ win) fs →
  eval_short win lose (map (eval lookup) fs) =
    if decide (Forall (λ g, eval lookup g ≠ Pending) fs) then lose else Pending.
Proof.
  intros Hwl Hd Hn. unfold eval_short.
  destruct (existsb _ _) eqn:E.
  { apply existsb_result, Exists_exists in E as (g & Hg & E). rewrite Forall_forall in Hn. by apply Hn in Hg. }
  destruct (forallb _ _) eqn:F; case_decide as Hp; try done.
  - exfalso. apply Hp. apply forallb_result in F. eapply Forall_impl; [exact F|]. simpl.
    intros g Hg%bool_decide_eq_true. rewrite Hg. by destruct Hwl as [[_ ->]|[_ ->]].
  - exfalso. apply not_true_iff_false in F. apply F, forallb_result.
    rewrite Forall_forall in *. intros g Hg. apply bool_decide_eq_true.
    specialize (Hd g Hg). specialize (Hn g Hg). specialize (Hp g Hg).
    destruct (eval lookup g), Hwl as [[-> ->]|[-> ->]]; done.
Qed.

Lemma eval_all_pending lookup fs :
  eval_all (map (eval lookup) fs) =
    if decide (Forall (λ g, eval lookup g ≠ Pending) fs) then Success else Pending.
Proof.
  unfold eval_all. destruct (forallb _ _) eqn:F; case_decide as Hp; try done.
  - exfalso. apply Hp. apply forallb_result in F. eapply Forall_impl; [exact F|].
    intros g Hg. by apply bool_decide_eq_true in Hg.
  - exfalso. apply not_true_iff_false in F. apply F, forallb_result.
    eapply Forall_impl; [exact Hp|]. intros g Hg. by apply bool_decide_eq_true.
Qed.

(** What is left of a pending future. *)
Definition leftover (lookup : Lookup) (f f' : UnresolvedFuture) : Prop :=
  match f with
  | Single n => f' = Single n
  | FirstCompleted fs => f' = FirstCompleted (after lookup <$> fs)
  | AllCompleted fs => ∃ kept, f' = AllCompleted kept ∧ kept ≡ₚ pending_children lookup fs
  | FirstSucceededOrAllFailed fs =>
      ∃ kept, f' = FirstSucceededOrAllFailed kept ∧ kept ≡ₚ pending_children lookup fs
  | AllSucceededOrFirstFailed fs =>
      ∃ kept, f' = AllSucceededOrFirstFailed kept ∧ kept ≡ₚ pending_children lookup fs
  | UnknownCombinator fs => f' = UnknownCombinator (after lookup <$> fs)
  end.

Lemma when_all_done (kept : list UnresolvedFuture) (P : Prop) `{Decision P} (r : ResolveResult) :
  (kept = [] ↔ P) → match kept with [] => r | _ => Pending end = if decide P then r else Pending.
Proof. intros Hk. case_decide; destruct kept; naive_solver. Qed.

(** The children that the in-order loops go through. *)
Lemma first_loop_after propagate lookup fs :
  Forall (λ g, (resolve_inner lookup g).2 = Some (eval lookup g)) fs →
  ∃ fs', first_loop propagate (map (λ g, (g, resolve_inner lookup g)) fs) =
    (fs', Some (if bool_decide (eval_first (map (eval lookup) fs) = Pending) then Pending
                else propagate (eval_first (map (eval lookup) fs)))) ∧
    (eval_first (map (eval lookup) fs) = Pending → fs' = after lookup <$> fs).
Proof.
  intros Hout. destruct (first_loop_spec propagate _ _ (cells_results lookup fs Hout)) as (fs' & E & Hfs').
  exists fs'. split; [done|]. intros Hp. rewrite (Hfs' Hp). unfold after. clear.
  induction fs as [|g fs IH]; simpl; [done|f_equal; exact IH].
Qed.

Lemma resolve_inner_settled lookup f :
  settled lookup f = true →
  (resolve_inner lookup f).2 = Some (eval lookup f) ∧
  (eval lookup f = Pending → leftover lookup f (after lookup f)).
Proof.
  induction f as [n|fs IH|fs IH|fs IH|fs IH|fs IH] using future_ind; intros Hf;
    [done|..]; cbn [settled] in Hf; apply forallb_Forall in Hf;
    assert (Forall (λ g, (resolve_inner lookup g).2 = Some (eval lookup g)) fs) as Hout
      by (rewrite Forall_forall in *; intros g Hg; apply IH; [done|]; by apply Hf in Hg;
          try apply andb_true_iff in Hg as [? _]);
    clear IH; unfold after; cbn [resolve_inner eval].
  - destruct (first_loop_after (λ r, r) lookup fs Hout) as (fs' & -> & Hfs').
    cbn [fst snd]. split; [by case_bool_decide as E; [rewrite E|]|].
    intros Hp. by rewrite (Hfs' Hp).
  - destruct (run_children lookup fs Hout all_completed_action None Success)
      as [(r0 & [=] & _)|[_ (kept & Hk & ->)]].
    { apply Forall_forall. intros g _. by unfold all_completed_action; destruct (is_completed _). }
    cbn [fst snd]. rewrite (when_all_done kept _ _ (kept_nil lookup fs kept Hk)), eval_all_pending.
    split; [done|]. intros _. by exists kept.
  - assert (Forall (λ g, eval lookup g ≠ SuccessOrFailure) fs) as Hd
      by (eapply Forall_impl; [exact Hf|]; intros g [_ Hg%bool_decide_eq_true]%andb_true_iff; done).
    destruct (run_children lookup fs Hout first_succeeded_action (Some Success) Failure)
      as [(r0 & [= <-] & He & fs' & ->)|[Hn (kept & Hk & ->)]]; cbn [fst snd].
    + eapply Forall_impl; [exact Hd|]. simpl. intros g. by destruct (eval lookup g).
    + by rewrite eval_short_found.
    + rewrite (when_all_done kept _ _ (kept_nil lookup fs kept Hk)), eval_short_none; [|by left|done|].
      * split; [done|]. intros _. by exists kept.
      * eapply Forall_impl; [exact Hn|]. simpl. congruence.
  - assert (Forall (λ g, eval lookup g ≠ SuccessOrFailure) fs) as Hd
      by (eapply Forall_impl; [exact Hf|]; intros g [_ Hg%bool_decide_eq_true]%andb_true_iff; done).
    destruct (run_children lookup fs Hout all_succeeded_action (Some Failure) Success)
      as [(r0 & [= <-] & He & fs' & ->)|[Hn (kept & Hk & ->)]]; cbn [fst snd].
    + eapply Forall_impl; [exact Hd|]. simpl. intros g. by destruct (eval lookup g).
    + by rewrite eval_short_found.
    + rewrite (when_all_done kept _ _ (kept_nil lookup fs kept Hk)), eval_short_none; [|by right|done|].
      * split; [done|]. intros _. by exists kept.
      * eapply Forall_impl; [exact Hn|]. simpl. congruence.
  - destruct (first_loop_after (λ _, SuccessOrFailure) lookup fs Hout) as (fs' & -> & Hfs').
    cbn [fst snd]. split; [done|]. unfold eval_unknown. case_bool_decide as E; [|done].
    intros _. by rewrite (Hfs' E).
Qed.

(** *** Children whose result is not known to be a success or a failure *)

Definition stops (act : ResolveResult → Action) (c : Cell) : Prop :=
  match c.2.2 with
  | None => True
  | Some r => act r = Shortcircuit ∨ ∃ r', act r = Return r'
  end.

Lemma while_loop_stops act fuel : ∀ (visited todo : list Cell),
  length todo ≤ fuel → Exists (stops act) todo →
  ∃ fs e, while_loop fuel act (length visited) (visited ++ todo) = (fs, e) ∧ e ≠ Finished ∧
    ∀ r, e = Returned r → ∃ r0, act r0 = Return r.
Proof.
  induction fuel as [|fuel IH]; intros visited todo Hlen Hex.
  { destruct todo; simpl in *; [by apply Exists_nil in Hex|lia]. }
  destruct todo as [|[g0 [g [r|]]] todo]; [by apply Exists_nil in Hex|..].
  2: { cbn [while_loop]. rewrite list_lookup_middle by done. by eexists _, Aborted. }
  rewrite while_loop_app. cbn zeta. apply Exists_cons in Hex. unfold stops at 1 in Hex. simpl in Hex, Hlen.
  destruct (act r) eqn:Hact.
  - destruct Hex as [[?|[? ?]]|Hex]; [done..|].
    destruct (swap_remove_app visited todo (g, (g, Some r))) as (todo' & -> & Hp).
    apply IH; [by rewrite Hp; lia|]. by rewrite Hp.
  - destruct Hex as [[?|[? ?]]|Hex]; [done..|].
    replace (S (length visited)) with (length (visited ++ [(g, (g, Some r))]))
      by (rewrite length_app; simpl; lia).
    replace (visited ++ (g, (g, Some r)) :: todo) with ((visited ++ [(g, (g, Some r))]) ++ todo)
      by (by rewrite <- app_assoc).
    apply IH; [lia|done].
  - eexists _, _. split; [done|]. split; [done|]. intros r' [= <-]. by exists r.
  - by eexists _, Aborted.
Qed.

(** The invocation is resumed, and the SDK has to decide. *)
Lemma short_resumes act when_empty lookup fs :
  (∀ r r', act r = Return r' → r' ≠ Pending) →
  Forall (λ g, settled lookup g = true) fs →
  Exists (λ g, act (eval lookup g) = Shortcircuit) fs →
  is_completed (default Success
    (run_while act when_empty (map (λ g, (g, resolve_inner lookup g)) fs)).2) = true.
Proof.
  intros Hact Hs Hex. unfold run_while. rewrite length_map.
  destruct (while_loop_stops act (length fs) [] (map (λ g, (g, resolve_inner lookup g)) fs))
    as (fs' & e & E & Hf & Hr).
  - by rewrite length_map.
  - apply Exists_exists in Hex as (g & Hg & Ha). apply Exists_exists.
    exists (g, resolve_inner lookup g). split.
    + apply list_elem_of_In, in_map_iff. exists g. by rewrite <- list_elem_of_In.
    + unfold stops. simpl. rewrite Forall_forall in Hs.
      rewrite (proj1 (resolve_inner_settled lookup g (Hs g Hg))). by left.
  - simpl in E. rewrite E. destruct e as [|r|]; [done| |done]. simpl.
    destruct (Hr r eq_refl) as [r0 Hr0%Hact]. unfold is_completed. by apply bool_decide_eq_true.
Qed.

(** C24. Resolution computes the combinators.  The eviction loops terminate, and where
    the children of any and all have known results they give the result that the
    combinators define, and resume the invocation exactly when the future has
    completed: a race completes with its first completed child, all-settled when all
    children completed, any with a success or when all children failed, all with a
    failure or when all children succeeded, and an unknown combinator with any child,
    in a way only the SDK knows.  When a child of any or all has completed in such a
    way, the invocation is resumed and the SDK decides. *)
Theorem resolve_correct (lookup : Lookup) (f : UnresolvedFuture) :
  (settled lookup f = true →
   (resolve_inner lookup f).2 = Some (eval lookup f) ∧
   (resolve lookup f).2 = is_completed (eval lookup f)) ∧
  (∀ fs, f = FirstSucceededOrAllFailed fs ∨ f = AllSucceededOrFirstFailed fs →
   Forall (λ g, settled lookup g = true) fs →
   Exists (λ g, eval lookup g = SuccessOrFailure) fs → (resolve lookup f).2 = true).
Proof.
  split.
  - intros Hs. destruct (resolve_inner_settled lookup f Hs) as [Ho _]. split; [done|].
    unfold resolve. destruct (resolve_inner lookup f) as [f' o]. simpl in *. by subst o.
  - intros fs Hf Hs Hex. unfold resolve.
    destruct Hf as [-> | ->]; cbn [resolve_inner];
      [pose proof (short_resumes first_succeeded_action Failure lookup fs) as H
      |pose proof (short_resumes all_succeeded_action Success lookup fs) as H];
      destruct (run_while _ _ _) as [fs' o]; simpl in *; apply H; try done;
      try (by intros [] ? [= <-]); (eapply Exists_impl; [exact Hex|]); by intros g ->.
Qed.

(** ** Leaves *)

Lemma flatten_inner_spec f : ∀ s n, n ∈ flatten_inner f s ↔ n ∈ s ∨ n ∈ flatten_inner f ∅.
Proof.
  assert (∀ fs, Forall (λ f, ∀ s n, n ∈ flatten_inner f s ↔ n ∈ s ∨ n ∈ flatten_inner f ∅) fs →
    ∀ s n, n ∈ foldl (λ acc g, flatten_inner g acc) s fs ↔
      n ∈ s ∨ n ∈ foldl (λ acc g, flatten_inner g acc) ∅ fs) as Hfold.
  { induction 1 as [|g fs Hg _ IH]; intros s n; simpl; [set_solver|].
    rewrite IH, (IH (flatten_inner g ∅)), Hg. tauto. }
  induction f as [m|fs IH|fs IH|fs IH|fs IH|fs IH] using future_ind; intros s n; simpl;
    [set_solver|by apply Hfold..].
Qed.

Lemma elem_of_flatten_children fs n :
  n ∈ foldl (λ acc g, flatten_inner g acc) ∅ fs ↔ ∃ g, g ∈ fs ∧ n ∈ flatten g.
Proof.
  induction fs as [|g fs IH]; simpl; [set_solver|].
  assert (∀ s, n ∈ foldl (λ acc g, flatten_inner g acc) s fs ↔
    n ∈ s ∨ n ∈ foldl (λ acc g, flatten_inner g acc) ∅ fs) as Hs.
  { clear. revert n. induction fs as [|g fs IH]; intros n s; simpl; [set_solver|].
    rewrite IH, (IH _ (flatten_inner g ∅)), flatten_inner_spec. tauto. }
  rewrite Hs, IH. unfold flatten. setoid_rewrite elem_of_cons. naive_solver.
Qed.

Lemma resolve_inner_ext l l' f :
  (∀ n, n ∈ flatten f → l n = l' n) → resolve_inner l f = resolve_inner l' f.
Proof.
  induction f as [m|fs IH|fs IH|fs IH|fs IH|fs IH] using future_ind; intros Hl;
    cbn [resolve_inner]; [by rewrite Hl by (unfold flatten; simpl; set_solver)|..];
    (replace (map (λ g, (g, resolve_inner l' g)) fs) with (map (λ g, (g, resolve_inner l g)) fs);
      [done|]); apply map_ext_in; intros g Hg%list_elem_of_In; f_equal;
    rewrite Forall_forall in IH; apply (IH g Hg); intros n Hn; apply Hl; unfold flatten; simpl;
    apply elem_of_flatten_children; eauto.
Qed.

Lemma future_is_empty_flatten f : future_is_empty f = true ↔ flatten f = ∅.
Proof.
  assert (∀ fs, Forall (λ f, future_is_empty f = true ↔ flatten f = ∅) fs →
    forallb future_is_empty fs = true ↔ foldl (λ acc g, flatten_inner g acc) ∅ fs = ∅) as Hc.
  { intros fs Hfs. rewrite forallb_Forall. rewrite Forall_forall in *. split.
    - intros Hall. apply set_eq. intros n. rewrite elem_of_flatten_children. split; [|set_solver].
      intros (g & Hg & Hn). apply Hall in Hg as He. apply (Hfs g Hg) in He. set_solver.
    - intros E g Hg. apply (Hfs g Hg), set_eq. intros n. split; [|set_solver]. intros Hn. rewrite <- E.
      apply elem_of_flatten_children. eauto. }
  induction f as [m|fs IH|fs IH|fs IH|fs IH|fs IH] using future_ind; simpl; [|by apply Hc..].
  unfold flatten. simpl. split; [done|set_solver].
Qed.

(** ** What is left pending

    For any lookup and any combinator: what resolution leaves of a pending future
    awaits only notifications that the lookup does not have, and stays pending
    until one of them arrives. *)

(** The loops keep exactly the pending children. *)
Lemma first_loop_pending propagate cells fs :
  (∀ r, r ≠ Pending → propagate r ≠ Pending) →
  first_loop propagate cells = (fs, Some Pending) →
  fs = (λ c : Cell, c.2.1) <$> cells ∧ Forall (λ c : Cell, c.2.2 = Some Pending) cells.
Proof.
  intros Hp. revert fs. induction cells as [|[g0 [g [r|]]] cells IH]; simpl; intros fs E.
  - by injection E as <-.
  - destruct (decide (r = Pending)) as [->|Hr].
    + simpl in E. destruct (first_loop propagate cells) as [fs1 o]. injection E as <- ->.
      destruct (IH fs1 eq_refl) as [-> Hc]. by repeat constructor.
    + unfold is_completed in E. rewrite bool_decide_true in E by done. injection E as _ E.
      by apply Hp in E.
  - discriminate.
Qed.

(** Actions that skip the pending children only, and return completed results. *)
Definition skips_pending (act : ResolveResult → Action) : Prop :=
  ∀ r, match act r with Skip => r = Pending | Return r' => r' ≠ Pending | _ => True end.

Lemma while_loop_pending act fuel (P : UnresolvedFuture → Prop) :
  skips_pending act → ∀ (visited todo : list Cell) fs,
  length todo ≤ fuel →
  while_loop fuel act (length visited) (visited ++ todo) = (fs, Finished) →
  Forall P visited.*1 → Forall (λ c : Cell, c.2.2 = Some Pending → P c.2.1) todo → Forall P fs.
Proof.
  intros Hact. induction fuel as [|fuel IH]; intros visited todo fs Hlen E Hv Ht.
  { destruct todo; simpl in *; [|lia]. injection E as <-. by rewrite app_nil_r. }
  destruct todo as [|[g0 [g [r|]]] todo].
  - simpl in E. rewrite app_nil_r, lookup_ge_None_2 in E by done. by injection E as <-.
  - rewrite while_loop_app in E. cbv zeta in E. apply Forall_cons in Ht as [Hg Ht].
    specialize (Hact r). simpl in Hlen. destruct (act r) eqn:Ha; try discriminate.
    + destruct (swap_remove_app visited todo (g, (g, Some r))) as (todo' & Es & Hperm).
      rewrite Es in E. eapply IH; [|exact E|done|by rewrite Hperm]. rewrite Hperm. lia.
    + subst r. change (visited ++ (g, (g, Some Pending)) :: todo)
        with (visited ++ [(g, (g, Some Pending))] ++ todo) in E. rewrite app_assoc in E.
      eapply (IH (visited ++ [(g, (g, Some Pending))])); [|rewrite length_app, Nat.add_comm; exact E| |done].
      * lia.
      * rewrite fmap_app, Forall_app. split; [done|]. constructor; [by apply Hg|constructor].
  - cbn [while_loop] in E. rewrite list_lookup_middle in E by done. discriminate.
Qed.

Lemma run_while_pending act when_empty (P : UnresolvedFuture → Prop) (cells : list Cell) fs :
  skips_pending act → when_empty ≠ Pending →
  run_while act when_empty cells = (fs, Some Pending) →
  Forall (λ c : Cell, c.2.2 = Some Pending → P c.2.1) cells → fs ≠ [] ∧ Forall P fs.
Proof.
  intros Hact Hwe. unfold run_while.
  destruct (while_loop _ _ _ _) as [fs1 [|r|]] eqn:E; simpl; intros [= <- Hf] Hc.
  - split; [by destruct fs1|]. by eapply (while_loop_pending act _ P Hact [] cells).
  - exfalso. clear Hc. subst r. revert E. generalize (length cells) 0. intros n. revert cells.
    induction n as [|n IH]; intros cells i; simpl; [done|].
    destruct (cells !! i) as [[g0 [g [r|]]]|]; try done. specialize (Hact r).
    destruct (act r); [apply IH|apply IH|intros [= _ ->]; done|done].
Qed.

(** A loop over pending children does not change them. *)
Lemma first_loop_idle propagate fs :
  first_loop propagate (map (λ g, (g, (g, Some Pending))) fs) = (fs, Some Pending).
Proof. induction fs as [|g fs IH]; simpl; [done|]. by rewrite IH. Qed.

Lemma while_loop_idle act fuel : act Pending = Skip → ∀ visited fs,
  length fs ≤ fuel →
  let cells := map (λ g, (g, (g, Some Pending))) in
  while_loop fuel act (length visited) (cells visited ++ cells fs) = (visited ++ fs, Finished).
Proof.
  intros Hact. assert (∀ l, (map (λ g, (g, (g, Some Pending))) l : list Cell).*1 = l) as Hfst.
  { induction l; by f_equal/=. }
  induction fuel as [|fuel IH]; intros visited fs Hlen; cbv zeta.
  - destruct fs; simpl in *; [|lia]. by rewrite !app_nil_r, Hfst.
  - destruct fs as [|g fs].
    + simpl. rewrite !app_nil_r, lookup_ge_None_2 by (by rewrite length_map). by rewrite Hfst.
    + rewrite <- (length_map (λ g, (g, (g, Some Pending))) visited). simpl map at 3.
      rewrite while_loop_app. cbv zeta. rewrite Hact, length_map. simpl in Hlen.
      specialize (IH (visited ++ [g]) fs ltac:(lia)). cbv zeta in IH.
      rewrite length_app, Nat.add_comm, map_app, <- !app_assoc in IH. exact IH.
Qed.

Lemma run_while_idle act when_empty fs :
  act Pending = Skip → fs ≠ [] →
  run_while act when_empty (map (λ g, (g, (g, Some Pending))) fs) = (fs, Some Pending).
Proof.
  intros Hact Hne. unfold run_while. rewrite length_map, (while_loop_idle act _ Hact [] fs) by done.
  by destruct fs.
Qed.

Definition stays_pending (l : Lookup) (f f' : UnresolvedFuture) : Prop :=
  (∀ n, n ∈ flatten f' → n ∈ flatten f ∧ l n = None) ∧
  (∀ l', (∀ n, n ∈ flatten f' → l' n = None) → resolve_inner l' f' = (f', Some Pending)).

Lemma resolve_inner_pending l f : ∀ f',
  resolve_inner l f = (f', Some Pending) → stays_pending l f f'.
Proof.
  assert (∀ fs fs' : list UnresolvedFuture,
    Forall (λ g', ∃ g, g ∈ fs ∧ stays_pending l g g') fs' →
    (∀ n, n ∈ foldl (λ acc g, flatten_inner g acc) ∅ fs' →
       n ∈ foldl (λ acc g, flatten_inner g acc) ∅ fs ∧ l n = None) ∧
    (∀ l', (∀ n, n ∈ foldl (λ acc g, flatten_inner g acc) ∅ fs' → l' n = None) →
       map (λ g, (g, resolve_inner l' g)) fs' = map (λ g, (g, (g, Some Pending))) fs')) as Hkids.
  { intros fs fs' Hfs. rewrite Forall_forall in Hfs. split.
    - intros n (g' & Hg' & Hn)%elem_of_flatten_children. destruct (Hfs g' Hg') as (g & Hg & Hs & _).
      destruct (Hs n Hn). split; [|done]. apply elem_of_flatten_children. eauto.
    - intros l' Hl'. apply map_ext_in. intros g' Hg'%list_elem_of_In. f_equal.
      destruct (Hfs g' Hg') as (g & _ & _ & Hs). apply Hs. intros n Hn. apply Hl'.
      apply elem_of_flatten_children. eauto. }
  assert (∀ fs, Forall (λ f, ∀ f', resolve_inner l f = (f', Some Pending) → stays_pending l f f') fs →
    Forall (λ c : Cell, c.2.2 = Some Pending → ∃ g, g ∈ fs ∧ stays_pending l g c.2.1)
      (map (λ g, (g, resolve_inner l g)) fs)) as Hcells.
  { intros fs IH. rewrite Forall_forall in IH. apply Forall_forall.
    intros c (g & <- & Hg)%list_elem_of_In%in_map_iff Hc. simpl in *. apply list_elem_of_In in Hg.
    exists g. split; [done|]. apply (IH g Hg). by destruct (resolve_inner l g); simpl in *; subst. }
  induction f as [m|fs IH|fs IH|fs IH|fs IH|fs IH] using future_ind; intros f'; cbn [resolve_inner].
  1: { intros [= <- Hm]. split; simpl.
    - intros n. unfold flatten. simpl. rewrite elem_of_union, elem_of_singleton.
      intros [->|?]; [|set_solver]. split; [set_solver|]. by destruct (l m) as [[]|].
    - intros l' Hl'. rewrite Hl'; [done|]. unfold flatten. simpl. set_solver. }
  all: specialize (Hcells fs IH).
  1,5: destruct (first_loop _ _) as [fs' o] eqn:E; intros [= <- ->]; apply first_loop_pending in E as [-> Hp];
    [|by intros []];
    match goal with |- stays_pending _ _ (_ ?fs') => destruct (Hkids fs fs') as [Hk1 Hk2] end;
    [apply Forall_fmap; eapply Forall_impl; [apply Forall_and; exact (conj Hcells Hp)|]; simpl; naive_solver
    |split; [exact Hk1|]; intros l' Hl'; cbn [resolve_inner]; rewrite (Hk2 l' Hl'), first_loop_idle; done].
  all: destruct (run_while _ _ _) as [fs' o] eqn:E; intros [= <- ->];
    apply (run_while_pending _ _ (λ g', ∃ g, g ∈ fs ∧ stays_pending l g g')) in E as [Hne Hp]; [|by intros []|done|exact Hcells];
    destruct (Hkids fs fs' Hp) as [Hk1 Hk2];
    split; [exact Hk1|]; intros l' Hl'; cbn [resolve_inner]; rewrite (Hk2 l' Hl'), run_while_idle; done.
Qed.

Lemma resolve_unresolved l f f' : resolve l f = (f', false) → stays_pending l f f'.
Proof.
  unfold resolve. destruct (resolve_inner l f) as [g [r|]] eqn:E; simpl; [|done].
  intros [= <- ->%is_completed_false]. by apply resolve_inner_pending.
Qed.

(** ** Resolving in several steps *)

(** The notifications of the first lookup, then those of the second. *)
Definition merge_lookup (l1 l2 : Lookup) : Lookup :=
  λ n, match l1 n with Some v => Some v | None => l2 n end.

(** A race completes with whichever child is seen completed first, so its
    result (not its completion) depends on how notifications are grouped, and only
    the SDK knows the result of an unknown combinator.  [stable true f]: no race and
    no unknown combinator decides the result of [f]; [stable false f]: none decides
    whether [f] has completed. *)
Fixpoint stable (result : bool) (f : UnresolvedFuture) : bool :=
  match f with
  | Single _ => true
  | FirstCompleted fs | UnknownCombinator fs => negb result && forallb (stable false) fs
  | AllCompleted fs => forallb (stable false) fs
  | FirstSucceededOrAllFailed fs | AllSucceededOrFirstFailed fs => forallb (stable true) fs
  end.

(** Equal results, or just the same completion. *)
Definition agree (result : bool) (r1 r2 : ResolveResult) : Prop :=
  if result then r1 = r2 else (r1 = Pending ↔ r2 = Pending).

Lemma stable_settled l f : determinate l → ∀ b, stable b f = true →
  settled l f = true ∧ (b = true → eval l f ≠ SuccessOrFailure).
Proof.
  intros Hd. induction f as [n|fs IH|fs IH|fs IH|fs IH|fs IH] using future_ind; intros b Hs;
    cbn [stable settled] in *; try apply andb_prop in Hs as [Hb Hs];
    try (apply forallb_Forall in Hs; rewrite Forall_forall in IH, Hs).
  - split; [done|]. intros _. cbn [eval]. specialize (Hd n). by destruct (l n) as [[]|].
  - split; [|by destruct b]. apply forallb_Forall, Forall_forall. intros g Hg. by eapply IH, Hs.
  - split; [|intros _; cbn [eval]; unfold eval_all; by case_match].
    apply forallb_Forall, Forall_forall. intros g Hg. by eapply IH, Hs.
  - split; [|intros _; cbn [eval]; unfold eval_short; by repeat case_match].
    apply forallb_Forall, Forall_forall. intros g Hg. rewrite andb_true_iff, bool_decide_eq_true.
    destruct (IH g Hg true (Hs g Hg)). auto.
  - split; [|intros _; cbn [eval]; unfold eval_short; by repeat case_match].
    apply forallb_Forall, Forall_forall. intros g Hg. rewrite andb_true_iff, bool_decide_eq_true.
    destruct (IH g Hg true (Hs g Hg)). auto.
  - split; [|by destruct b]. apply forallb_Forall, Forall_forall. intros g Hg. by eapply IH, Hs.
Qed.

Lemma eval_unknown_pending rs : eval_unknown rs = Pending ↔ eval_first rs = Pending.
Proof. unfold eval_unknown. by case_bool_decide. Qed.

Lemma existsb_elem (r : ResolveResult) l :
  existsb (λ x, bool_decide (x = r)) l = bool_decide (r ∈ l).
Proof.
  apply eq_bool_prop_intro. rewrite bool_decide_spec, Is_true_true, existsb_exists.
  setoid_rewrite <- list_elem_of_In. setoid_rewrite bool_decide_eq_true. naive_solver.
Qed.

Lemma forallb_elem (P : ResolveResult → Prop) `{!∀ x, Decision (P x)} l :
  forallb (λ x, bool_decide (P x)) l = bool_decide (Forall P l).
Proof.
  apply eq_bool_prop_intro. rewrite bool_decide_spec, Is_true_true, forallb_Forall.
  by setoid_rewrite bool_decide_eq_true.
Qed.

(** The combinators depend on the set of results only. *)
Lemma eval_short_agree win lose rs rs' :
  (win ∈ rs ↔ win ∈ rs') → (Forall (.= lose) rs ↔ Forall (.= lose) rs') →
  eval_short win lose rs = eval_short win lose rs'.
Proof.
  intros HS HF. unfold eval_short. rewrite !existsb_elem, !forallb_elem.
  by rewrite (bool_decide_ext _ _ HS), (bool_decide_ext _ _ HF).
Qed.

Lemma eval_all_agree rs rs' :
  (Forall (.≠ Pending) rs ↔ Forall (.≠ Pending) rs') → eval_all rs = eval_all rs'.
Proof.
  intros HP. unfold eval_all, is_completed. rewrite !forallb_elem.
  by rewrite (bool_decide_ext _ _ HP).
Qed.

Lemma Forall_map_iff {A B} (f : A → B) (P : B → Prop) l : Forall P (map f l) ↔ ∀ x, x ∈ l → P (f x).
Proof. change (map f l) with (f <$> l). by rewrite Forall_fmap, Forall_forall. Qed.

Lemma elem_of_map_iff {A B} (f : A → B) (y : B) l : y ∈ map f l ↔ ∃ x, x ∈ l ∧ f x = y.
Proof. change (map f l) with (f <$> l). rewrite list_elem_of_fmap. naive_solver. Qed.

Section Steps.
Context (l1 l2 : Lookup) (Hd1 : determinate l1).

(** A short-circuiting combinator over children that keep their results. *)
Lemma short_stays win lose fs :
  opposite win lose →
  (∀ g, g ∈ fs → eval l1 g ≠ Pending → eval (merge_lookup l1 l2) g = eval l1 g) →
  eval_short win lose (map (eval l1) fs) ≠ Pending →
  eval_short win lose (map (eval (merge_lookup l1 l2)) fs) = eval_short win lose (map (eval l1) fs).
Proof using.
  intros Hwl Hst Hc. assert (win ≠ Pending ∧ lose ≠ Pending ∧ win ≠ lose) as (Hw & Hl & Hne)
    by (by destruct Hwl as [[-> ->]|[-> ->]]).
  unfold eval_short in *. rewrite !existsb_elem, !forallb_elem in *.
  destruct (decide (win ∈ map (eval l1) fs)) as [Hin|Hni].
  - rewrite !bool_decide_true; [done|done|]. apply elem_of_map_iff in Hin as (g & Hg & E).
    apply elem_of_map_iff. exists g. split; [done|]. rewrite Hst; [done|done|congruence].
  - rewrite (bool_decide_false _ Hni) in *. case_bool_decide as Hall; [|done].
    rewrite Forall_map_iff in Hall.
    assert (∀ g, g ∈ fs → eval (merge_lookup l1 l2) g = lose) as Hall'
      by (intros g Hg; rewrite Hst; [by apply Hall|done|by rewrite Hall]).
    rewrite bool_decide_false, bool_decide_true; [done|by apply Forall_map_iff|].
    intros (g & Hg & E)%elem_of_map_iff. rewrite Hall' in E; done.
Qed.

Lemma first_stays fs :
  (∀ g, g ∈ fs → ∀ b, stable b g = true → eval l1 g ≠ Pending →
     agree b (eval (merge_lookup l1 l2) g) (eval l1 g)) →
  (∀ g, g ∈ fs → stable false g = true) →
  eval_first (map (eval (merge_lookup l1 l2)) fs) = Pending → eval_first (map (eval l1) fs) = Pending.
Proof using.
  intros IH Hs. rewrite !(proj1 (eval_first_spec _)), !Forall_map_iff. intros Hall g Hg.
  destruct (decide (eval l1 g = Pending)) as [|Hg1]; [done|].
  by apply (IH g Hg false (Hs g Hg) Hg1), Hall.
Qed.

(** A completed future stays completed when notifications are added. *)
Lemma completed_stays f : ∀ b,
  stable b f = true → eval l1 f ≠ Pending → agree b (eval (merge_lookup l1 l2) f) (eval l1 f).
Proof using.
  induction f as [n|fs IH|fs IH|fs IH|fs IH|fs IH] using future_ind; intros b Hs Hc;
    cbn [stable] in Hs; [|apply andb_prop in Hs as [Hb Hs]|..|apply andb_prop in Hs as [Hb Hs]].
  1: { cbn [eval] in *. unfold merge_lookup. destruct (l1 n); [by destruct b|done]. }
  all: apply forallb_Forall in Hs; rewrite Forall_forall in IH, Hs; cbn [eval] in *.
  - destruct b; [done|]. cbn [agree]. split; [by apply first_stays|done].
  - assert (eval_all (map (eval (merge_lookup l1 l2)) fs) = eval_all (map (eval l1) fs)) as ->;
      [|by destruct b].
    rewrite eval_all_pending in Hc. case_decide as Hp; [|done]. rewrite Forall_forall in Hp.
    apply eval_all_agree. rewrite !Forall_map_iff. split; [done|]. intros _ g Hg E.
    by apply (Hp g Hg), (IH g Hg false (Hs g Hg) (Hp g Hg)).
  - rewrite short_stays; [by destruct b|by left| |done]. intros g Hg. apply (IH g Hg true (Hs g Hg)).
  - rewrite short_stays; [by destruct b|by right| |done]. intros g Hg. apply (IH g Hg true (Hs g Hg)).
  - destruct b; [done|]. cbn [agree]. rewrite eval_unknown_pending in Hc. rewrite !eval_unknown_pending.
    split; [by apply first_stays|done].
Qed.

(** Results of the kept children, for any property of results. *)
Lemma Forall_kept (P : ResolveResult → Prop) fs kept :
  kept ≡ₚ pending_children l1 fs →
  Forall P (map (eval l2) kept) ↔
  ∀ g, g ∈ fs → eval l1 g = Pending → P (eval l2 (after l1 g)).
Proof using.
  intros Hk. rewrite Forall_map_iff. setoid_rewrite Hk. unfold pending_children.
  setoid_rewrite list_elem_of_fmap. setoid_rewrite list_elem_of_filter. naive_solver.
Qed.

Lemma elem_of_kept (r : ResolveResult) fs kept :
  kept ≡ₚ pending_children l1 fs →
  r ∈ map (eval l2) kept ↔ ∃ g, g ∈ fs ∧ eval l1 g = Pending ∧ eval l2 (after l1 g) = r.
Proof using.
  intros Hk. rewrite elem_of_map_iff. setoid_rewrite Hk. unfold pending_children.
  setoid_rewrite list_elem_of_fmap. setoid_rewrite list_elem_of_filter. naive_solver.
Qed.

(** A short-circuiting combinator over its pending children. *)
Lemma short_leftover win lose fs kept :
  opposite win lose → kept ≡ₚ pending_children l1 fs →
  Forall (λ g, stable true g = true) fs →
  (∀ g, g ∈ fs → eval l1 g = Pending → eval (merge_lookup l1 l2) g = eval l2 (after l1 g)) →
  eval_short win lose (map (eval l1) fs) = Pending →
  eval_short win lose (map (eval (merge_lookup l1 l2)) fs) = eval_short win lose (map (eval l2) kept).
Proof using Hd1.
  intros Hwl Hk Hs IH Hp. rewrite Forall_forall in Hs.
  assert (win ≠ Pending ∧ lose ≠ Pending ∧ win ≠ lose) as (Hw & Hl & Hne)
    by (by destruct Hwl as [[-> ->]|[-> ->]]).
  assert (∀ g, g ∈ fs → eval l1 g = Pending ∧ eval (merge_lookup l1 l2) g = eval l2 (after l1 g)
    ∨ eval l1 g = lose ∧ eval (merge_lookup l1 l2) g = lose) as Hcase.
  { intros g Hg. destruct (decide (eval l1 g = Pending)) as [Hgp|Hgc]; [by left; auto|].
    right. assert (eval l1 g = lose) as E.
    { pose proof (proj2 (stable_settled l1 g Hd1 true (Hs g Hg)) eq_refl).
      destruct (decide (eval l1 g = win)) as [E|Hnw].
      - exfalso. apply Hw. rewrite <- Hp. symmetry. apply eval_short_found, Exists_exists. eauto.
      - destruct (eval l1 g), Hwl as [[-> ->]|[-> ->]]; done. }
    split; [done|]. rewrite <- E. apply (completed_stays g true (Hs g Hg) Hgc). }
  apply eval_short_agree.
  - rewrite elem_of_map_iff, (elem_of_kept _ fs kept Hk). split.
    + intros (g & Hg & E). exists g. destruct (Hcase g Hg) as [[? ?]|[? ?]]; [|congruence].
      split_and!; [done|done|congruence].
    + intros (g & Hg & Hgp & E). exists g. destruct (Hcase g Hg) as [[? ?]|[? ?]]; [|congruence].
      split; [done|congruence].
  - rewrite Forall_map_iff, (Forall_kept _ fs kept Hk). split.
    + intros Hall g Hg Hgp. destruct (Hcase g Hg) as [[_ <-]|[? _]]; [auto|congruence].
    + intros Hall g Hg. destruct (Hcase g Hg) as [[? ->]|[? ?]]; auto.
Qed.

Lemma first_leftover fs :
  (∀ g, g ∈ fs → ∀ b, stable b g = true → eval l1 g = Pending →
     agree b (eval (merge_lookup l1 l2) g) (eval l2 (after l1 g))) →
  (∀ g, g ∈ fs → stable false g = true) → eval_first (map (eval l1) fs) = Pending →
  eval_first (map (eval (merge_lookup l1 l2)) fs) = Pending ↔
  eval_first (map (eval l2) (after l1 <$> fs)) = Pending.
Proof using.
  intros IH Hs Hp. rewrite (proj1 (eval_first_spec _)), Forall_map_iff in Hp.
  rewrite !(proj1 (eval_first_spec _)), !Forall_map_iff. setoid_rewrite list_elem_of_fmap. split.
  - intros Hall g' (g & -> & Hg). apply (IH g Hg false (Hs g Hg) (Hp g Hg)). auto.
  - intros Hall g Hg. apply (IH g Hg false (Hs g Hg) (Hp g Hg)). eauto.
Qed.

(** What is left of a pending future has, with the new notifications, the value
    the whole future has with all of them. *)
Lemma leftover_agrees f : ∀ b,
  stable b f = true → eval l1 f = Pending →
  agree b (eval (merge_lookup l1 l2) f) (eval l2 (after l1 f)).
Proof using Hd1.
  induction f as [n|fs IH|fs IH|fs IH|fs IH|fs IH] using future_ind; intros b Hs Hp;
    pose proof (proj2 (resolve_inner_settled l1 _ (proj1 (stable_settled l1 _ Hd1 b Hs))) Hp) as Hleft;
    cbn [stable leftover] in Hs, Hleft; [|apply andb_prop in Hs as [Hb Hs]|..|apply andb_prop in Hs as [Hb Hs]].
  1: { rewrite Hleft. cbn [eval] in *. unfold merge_lookup. destruct (l1 n) as [[]|]; by destruct b. }
  all: apply forallb_Forall in Hs; pose proof Hs as Hs'; rewrite Forall_forall in IH, Hs;
    cbn [eval] in Hp |- *.
  - destruct b; [done|]. rewrite Hleft. by apply first_leftover.
  - destruct Hleft as (kept & -> & Hk). cbn [eval].
    assert (eval_all (map (eval (merge_lookup l1 l2)) fs) = eval_all (map (eval l2) kept)) as ->;
      [|by destruct b].
    apply eval_all_agree. rewrite Forall_map_iff, (Forall_kept _ fs kept Hk). split.
    + intros Hall g Hg Hgp E. apply (Hall g Hg). by apply (IH g Hg false (Hs g Hg) Hgp).
    + intros Hall g Hg E. destruct (decide (eval l1 g = Pending)) as [Hgp|Hgc].
      * apply (Hall g Hg Hgp). by apply (IH g Hg false (Hs g Hg) Hgp).
      * by apply Hgc, (completed_stays g false (Hs g Hg) Hgc).
  - destruct Hleft as (kept & -> & Hk). cbn [eval].
    rewrite (short_leftover Success Failure fs kept); [by destruct b|by left|done|done| |done].
    intros g Hg. apply (IH g Hg true (Hs g Hg)).
  - destruct Hleft as (kept & -> & Hk). cbn [eval].
    rewrite (short_leftover Failure Success fs kept); [by destruct b|by right|done|done| |done].
    intros g Hg. apply (IH g Hg true (Hs g Hg)).
  - destruct b; [done|]. rewrite Hleft. cbn [eval agree]. rewrite !eval_unknown_pending in *.
    by apply first_leftover.
Qed.
End Steps.

Lemma leftover_stable l1 f : ∀ b,
  determinate l1 → stable b f = true → eval l1 f = Pending → stable b (after l1 f) = true.
Proof.
  induction f as [n|fs IH|fs IH|fs IH|fs IH|fs IH] using future_ind; intros b Hd Hs Hp;
    pose proof (proj2 (resolve_inner_settled l1 _ (proj1 (stable_settled l1 _ Hd b Hs))) Hp) as Hleft;
    cbn [stable leftover] in Hs, Hleft; [|apply andb_prop in Hs as [Hb Hs]|..|apply andb_prop in Hs as [Hb Hs]].
  1: by rewrite Hleft.
  all: apply forallb_Forall in Hs; rewrite Forall_forall in IH, Hs.
  2-4: destruct Hleft as (kept & -> & Hk); cbn [stable]; apply forallb_Forall, Forall_forall;
    intros g'; rewrite Hk; unfold pending_children; rewrite list_elem_of_fmap;
    intros (g & -> & [Hgp Hg]%list_elem_of_filter); eapply (IH g Hg); eauto.
  all: rewrite Hleft; cbn [stable eval] in *; rewrite Hb; apply forallb_Forall, Forall_forall.
  all: intros g' (g & -> & Hg)%list_elem_of_fmap; rewrite ?eval_unknown_pending in Hp;
    apply eval_first_spec in Hp; rewrite Forall_map_iff in Hp.
  all: eapply (IH g Hg); eauto.
Qed.

Lemma resolve_eval l f :
  determinate l → stable false f = true → resolve l f = (after l f, is_completed (eval l f)).
Proof.
  intros Hl Hf. destruct (resolve_inner_settled l f (proj1 (stable_settled l f Hl false Hf))) as [Ho _].
  unfold resolve, after.
  destruct (resolve_inner l f) as [f' o]. simpl in *. by subst o.
Qed.
Lemma merge_determinate l1 l2 : determinate l1 → determinate l2 → determinate (merge_lookup l1 l2).
Proof. intros H1 H2 n. unfold merge_lookup. specialize (H1 n). destruct (l1 n); auto. Qed.

Lemma resolve_steps l1 l2 f :
  determinate l1 → determinate l2 → stable false f = true → (resolve l1 f).2 = false →
  (resolve l2 (resolve l1 f).1).2 = (resolve (merge_lookup l1 l2) f).2.
Proof.
  intros Hd1 Hd2 Hs.
  rewrite !(resolve_eval _ f) by (try apply merge_determinate; done). simpl.
  intros Hp%is_completed_false.
  rewrite resolve_eval; [|done|by apply leftover_stable]. simpl.
  pose proof (leftover_agrees l1 l2 Hd1 f false Hs Hp) as Hag. simpl in Hag.
  unfold is_completed. apply bool_decide_ext. tauto.
Qed.

(** Notifications that arrive one by one, until the future is resolved ([None]). *)
Abbreviation Arrival := (NotificationId * RawNotificationResultVariant)%type.

Fixpoint arrive (ns : list Arrival) (f : UnresolvedFuture) : option UnresolvedFuture :=
  match ns with
  | [] => Some f
  | (n, v) :: ns =>
      let '(f, resolved) := resolve (lookup_notification n v) f in
      if resolved : bool then None else arrive ns f
  end.
(** All of them at once. *)
Definition lookup_all (ns : list Arrival) : Lookup :=
  foldr (λ '(n, v), merge_lookup (lookup_notification n v)) (λ _, None) ns.

Lemma lookup_one_determinate n v : v ≠ RvUnknown → determinate (lookup_notification n v).
Proof. intros Hv m. unfold lookup_notification. case_decide; congruence. Qed.
Lemma lookup_all_determinate ns : Forall (λ a, a.2 ≠ RvUnknown) ns → determinate (lookup_all ns).
Proof.
  induction 1 as [|[n v] ns Hv _ IH]; [done|]. by apply merge_determinate; [apply lookup_one_determinate|].
Qed.

Lemma arrive_resolves ns : ∀ f,
  Forall (λ a, a.2 ≠ RvUnknown) ns → stable false f = true → (resolve (λ _, None) f).2 = false →
  arrive ns f = None ↔ (resolve (lookup_all ns) f).2 = true.
Proof.
  induction ns as [|[n v] ns IH]; intros f Hns Hs Hf; cbn [arrive lookup_all foldr].
  { by rewrite Hf. }
  apply Forall_cons in Hns as [Hv Hns]. simpl in Hv. apply (lookup_one_determinate n) in Hv as Hd.
  pose proof (lookup_all_determinate ns Hns) as Hds. fold (lookup_all ns).
  destruct (resolve (lookup_notification n v) f) as [f' []] eqn:Hr.
  - split; [intros _|done].
    rewrite resolve_eval in Hr |- * by (try apply merge_determinate; done). injection Hr as _ Hc.
    simpl. unfold is_completed in *. apply bool_decide_eq_true in Hc. apply bool_decide_eq_true.
    intros E. by apply Hc, (completed_stays _ (lookup_all ns) f false Hs Hc).
  - rewrite <- resolve_steps by (try done; by rewrite Hr). rewrite Hr. apply IH; [done| |].
    + rewrite resolve_eval in Hr by done.
      injection Hr as <- Hp%is_completed_false. by apply leftover_stable.
    + apply resolve_unresolved in Hr as [_ Hp]. unfold resolve. by rewrite Hp.
Qed.

(** Resolving in steps.  When a future is not resolved by the
    notifications known so far, resolving what is left of it with the
    notifications that arrive later gives the same answer as resolving the
    whole future with all of them, unless a race or an unknown combinator decides
    whether another combinator succeeds: evicting children never loses information. *)
Theorem resolve_incremental (l1 l2 : Lookup) (f : UnresolvedFuture) :
  determinate l1 → determinate l2 → stable false f = true →
  (resolve l1 f).2 = false →
  (resolve l2 (resolve l1 f).1).2 = (resolve (merge_lookup l1 l2) f).2.
Proof. apply resolve_steps. Qed.

(** The awaited notifications.  A future that the builder accepts awaits at
    least one notification; and resolution, outcome and mutated tree, depends
    only on the notifications that [flatten] lists. *)
Theorem flatten_determines_resolution (ct : CombinatorType) (fs : list UnresolvedFuture)
    (f : UnresolvedFuture) (l l' : Lookup) :
  build_future ct fs = Some f → (∀ n, n ∈ flatten f → l n = l' n) →
  flatten f ≠ ∅ ∧ resolve l f = resolve l' f.
Proof.
  intros Hb Hl. split.
  - unfold build_future in Hb. rewrite <- future_is_empty_flatten.
    set (g := match ct with CtUnknown => _ | _ => _ end) in Hb.
    destruct (future_is_empty g) eqn:E; [done|]. injection Hb as <-. by rewrite E.
  - unfold resolve. by rewrite (resolve_inner_ext l l' f Hl).
Qed.

(** ** Instances *)

(** Notification 1 failed, notification 2 succeeded. *)
Definition demo_l1 : Lookup := lookup_notification (NCompletionId 1) RvFailure.
Definition demo_l2 : Lookup := lookup_notification (NCompletionId 2) RvValue.

(** [any(1, all(2, 3))]. *)
Definition demo_future : UnresolvedFuture :=
  FirstSucceededOrAllFailed [Single (NCompletionId 1);
    AllCompleted [Single (NCompletionId 2); Single (NCompletionId 3)]].

(** [unknown(1, any(1, all(2, 3)))] with a failure of 1. *)
Lemma resolve_correct_witness :
  (resolve_inner demo_l1 demo_future).2 = Some (eval demo_l1 demo_future) ∧
  (resolve demo_l1 (UnknownCombinator [Single (NCompletionId 1); demo_future])).2 = true ∧
  (resolve demo_l1 (AllSucceededOrFirstFailed
    [Single (NCompletionId 3); UnknownCombinator [Single (NCompletionId 1)]])).2 = true.
Proof.
  split; [apply (resolve_correct demo_l1 demo_future); reflexivity|]. split.
  - apply (resolve_correct demo_l1 (UnknownCombinator [Single (NCompletionId 1); demo_future])).
    reflexivity.
  - eapply (resolve_correct demo_l1 (AllSucceededOrFirstFailed
      [Single (NCompletionId 3); UnknownCombinator [Single (NCompletionId 1)]])).
    + right. reflexivity.
    + repeat constructor.
    + apply Exists_cons_tl, Exists_cons_hd. reflexivity.
Defined.

Lemma resolve_incremental_witness :
  (resolve demo_l1 demo_future).2 = false ∧
  (resolve demo_l2 (resolve demo_l1 demo_future).1).2 =
    (resolve (merge_lookup demo_l1 demo_l2) demo_future).2.
Proof.
  split; [reflexivity|].
  apply (resolve_incremental demo_l1 demo_l2 demo_future);
    [apply lookup_one_determinate; discriminate|apply lookup_one_determinate; discriminate|reflexivity|reflexivity].
Defined.

Lemma flatten_determines_resolution_witness :
  build_future CtFirstCompleted [demo_future] = Some (FirstCompleted [demo_future]) ∧
  resolve demo_l1 (FirstCompleted [demo_future]) =
    resolve (merge_lookup demo_l1 (lookup_notification (NSignalIndex 17) RvValue))
      (FirstCompleted [demo_future]).
Proof.
  split; [reflexivity|].
  apply (flatten_determines_resolution CtFirstCompleted [demo_future] (FirstCompleted [demo_future]));
    [reflexivity|].
  intros n Hn. unfold merge_lookup. destruct (demo_l1 n); [reflexivity|].
  unfold lookup_notification. destruct (decide (n = NSignalIndex 17)) as [->|]; [|reflexivity].
  exfalso. assert (bool_decide (NSignalIndex 17 ∈ flatten (FirstCompleted [demo_future])) = true)
    as Hb by (apply bool_decide_eq_true; exact Hn).
  vm_compute in Hb. discriminate Hb.
Defined.
