(* ===== verification/Retries.v ===== *)
(** * Retries: retry policies and their iterators

    Models crates/types/src/retries.rs ([RetryPolicy], [RetryIter],
    [WaitDuration]) and [add_jitter] of util/time/src/duration.rs.

    A [Duration] is a number of nanoseconds.  Factors are [f32] values: the
    IEEE-754 binary32 operations are those of [SpecFloat], with 24 bits of
    precision and maximal exponent 128.  The random number that the jitter
    draws is an argument.  [None] is a panic where the result type is not an
    option in the code. *)

From Stdlib Require Import SpecFloat.
From S2P Require Import Prelude.

Open Scope Z_scope.

(** ** Durations and binary32 factors *)

Definition Duration := Z.
Definition NANOS_PER_SEC : Z := 1000000000.
Definition Duration_MAX : Duration := u64_max * NANOS_PER_SEC + (NANOS_PER_SEC - 1).
Definition from_millis (ms : Z) : Duration := ms * 1000000.
Definition from_secs (s : Z) : Duration := s * NANOS_PER_SEC.

Definition f32 := spec_float.
Definition f32_mul : f32 → f32 → f32 := SFmul 24 128.
Definition f32_of_Z (z : Z) : f32 := binary_normalize 24 128 z 0 false.
(** The literal [n / d] rounded to the nearest [f32]. *)
Definition f32_ratio (n d : Z) : f32 := SFdiv 24 128 (f32_of_Z n) (f32_of_Z d).

Definition as_secs_f32 (d : Duration) : f32 :=
  SFadd 24 128 (f32_of_Z (d / NANOS_PER_SEC))
    (SFdiv 24 128 (f32_of_Z (d mod NANOS_PER_SEC)) (f32_of_Z NANOS_PER_SEC)).

(** [m * 2^e] rounded to the nearest integer, ties to even. *)
Definition round_half_even (m e : Z) : Z :=
  if 0 <=? e then m * 2 ^ e
  else
    let d := 2 ^ (- e) in
    let q := m / d in
    let r := m mod d in
    if 2 * r <? d then q
    else if d <? 2 * r then q + 1
    else if Z.even q then q else q + 1.

(** [Duration::try_from_secs_f32]: an error for negative numbers, NaN and
    numbers of [2^64] and more; nanoseconds are rounded to the nearest. *)
Definition try_from_secs_f32 (f : f32) : option Duration :=
  match f with
  | S754_zero _ => Some 0
  | S754_finite false m e =>
      if (0 <=? e) && (2 ^ 64 <=? Z.pos m * 2 ^ e) then None
      else Some (round_half_even (Z.pos m * NANOS_PER_SEC) e)
  | _ => None
  end.

(** [Duration::mul_f32] panics where [try_from_secs_f32] fails. *)
Definition mul_f32 (d : Duration) (factor : f32) : option Duration :=
  try_from_secs_f32 (f32_mul factor (as_secs_f32 d)).

Definition saturating_mul_f32 (d : Duration) (factor : f32) : Duration :=
  default Duration_MAX (try_from_secs_f32 (f32_mul (as_secs_f32 d) factor)).

(** ** Jitter *)

Definition DEFAULT_JITTER_MULTIPLIER : f32 := f32_ratio 3 10.
Definition MIN_JITTER : Duration := from_millis 3.
Definition as_micros (d : Duration) : Z := d / 1000.
Definition from_micros (us : Z) : Duration := us * 1000.

Definition duration_add (a b : Duration) : option Duration := checked_add Duration_MAX a b.

(** [rnd] is the random [u64]. *)
Definition add_jitter (d : Duration) (multiplier : f32) (rnd : Z) : option Duration :=
  let! max_jitter := mul_f32 d multiplier in
  if max_jitter <=? MIN_JITTER then duration_add d MIN_JITTER
  else
    let min := as_u64 (as_micros MIN_JITTER) in
    let max := if as_micros max_jitter <=? u64_max then as_micros max_jitter else u64_max in
    let span := max - min in
    let offset := as_u64 (Z.shiftr (as_u128 (rnd * span)) 64) in
    duration_add d (from_micros (as_u64 (min + offset))).

(** ** Policies *)

(** The [max_attempts] are [NonZeroUsize] values. *)
Inductive RetryPolicy :=
| RpNone
| FixedDelay (interval : Duration) (max_attempts : option Z)
| Exponential (initial_interval : Duration) (factor : f32) (max_attempts : option Z)
    (max_interval : option Duration).

(** [max_attempts.map(|m| NonZeroUsize::new(m).expect("non-zero"))]. *)
Definition non_zero_attempts (m : option Z) : option (option Z) :=
  match m with
  | None => Some None
  | Some n => if n =? 0 then None else Some (Some n)
  end.

Definition fixed_delay (interval : Duration) (max_attempts : option Z) : option RetryPolicy :=
  let! m := non_zero_attempts max_attempts in Some (FixedDelay interval m).

Definition exponential (initial_interval : Duration) (factor : f32) (max_attempts : option Z)
    (max_interval : option Duration) : option RetryPolicy :=
  let! m := non_zero_attempts max_attempts in
  Some (Exponential initial_interval factor m max_interval).

Definition policy_max_attempts (p : RetryPolicy) : option Z :=
  match p with
  | RpNone => None
  | FixedDelay _ m => m
  | Exponential _ _ m _ => m
  end.

(** ** Iterators *)

Record RetryIter := mkIter {
  it_policy : RetryPolicy;
  it_attempts : Z;
  it_last_retry : option Duration;
}.

Definition iter (p : RetryPolicy) : RetryIter := mkIter p 0 None.

Definition iter_max_attempts (it : RetryIter) : Z :=
  match it_policy it with
  | RpNone => 0
  | p => default u64_max (policy_max_attempts p)
  end.

Definition remaining_attempts (it : RetryIter) : Z :=
  saturating_sub (iter_max_attempts it) (it_attempts it).

Definition is_infinite (it : RetryIter) : bool :=
  match it_policy it with
  | RpNone => false
  | p => match policy_max_attempts p with None => true | Some _ => false end
  end.

(** One step of the exponential progression. *)
Definition next_interval (d : Duration) (factor : f32) (cap : Duration) : Duration :=
  Z.min (saturating_mul_f32 d factor) cap.

(** [for _ in 0..steps { d = ..; if d >= cap { break } }] *)
Fixpoint replay (steps : nat) (d : Duration) (factor : f32) (cap : Duration) : Duration :=
  match steps with
  | O => d
  | S steps =>
      let d := next_interval d factor cap in
      if cap <=? d then d else replay steps d factor cap
  end.

(** The new [last_retry] of [fast_forward]. *)
Definition replayed (it : RetryIter) (steps : Z) : option Duration :=
  match it_policy it with
  | Exponential initial_interval factor _ max_interval =>
      if 0 <? steps then
        let cap := default Duration_MAX max_interval in
        let '(d, mult_steps) :=
          match it_last_retry it with
          | None => (initial_interval, steps - 1)
          | Some last => (last, steps)
          end in
        Some (replay (Z.to_nat mult_steps) d factor cap)
      else it_last_retry it
  | _ => it_last_retry it
  end.

Definition fast_forward (n : Z) (it : RetryIter) : RetryIter :=
  if n =? 0 then it
  else
    let steps_to_replay := Z.min n (remaining_attempts it) in
    let attempts := saturating_add u64_max (it_attempts it) n in
    let attempts :=
      match policy_max_attempts (it_policy it) with
      | Some limit => Z.min attempts limit
      | None => attempts
      end in
    mkIter (it_policy it) attempts (replayed it steps_to_replay).

Definition iter_after (p : RetryPolicy) (attempts_made : Z) : RetryIter :=
  fast_forward attempts_made (iter p).

(** [max_attempts.is_some_and(|limit| attempts > limit)] *)
Definition exhausted (attempts : Z) (limit : option Z) : bool :=
  match limit with Some l => l <? attempts | None => false end.

Definition peek_next (it : RetryIter) : option Duration :=
  match it_policy it with
  | RpNone => None
  | FixedDelay interval max_attempts =>
      if exhausted (as_u64 (it_attempts it + 1)) max_attempts then None else Some interval
  | Exponential initial_interval factor max_attempts max_interval =>
      if exhausted (as_u64 (it_attempts it + 1)) max_attempts then None
      else
        match it_last_retry it with
        | Some last => Some (next_interval last factor (default Duration_MAX max_interval))
        | None => Some initial_interval
        end
  end.

(** [Iterator::next]: the iterator after the call, and the item. *)
Definition next (rnd : Z) (it : RetryIter) : option (RetryIter * option Duration) :=
  let attempts := saturating_add u64_max (it_attempts it) 1 in
  let it := mkIter (it_policy it) attempts (it_last_retry it) in
  match it_policy it with
  | RpNone => Some (it, None)
  | FixedDelay interval max_attempts =>
      if exhausted attempts max_attempts then Some (it, None)
      else
        let! d := add_jitter interval DEFAULT_JITTER_MULTIPLIER rnd in
        Some (it, Some d)
  | Exponential initial_interval factor max_attempts max_interval =>
      if exhausted attempts max_attempts then Some (it, None)
      else
        let new_retry :=
          match it_last_retry it with
          | Some last => next_interval last factor (default Duration_MAX max_interval)
          | None => initial_interval
          end in
        let! d := add_jitter new_retry DEFAULT_JITTER_MULTIPLIER rnd in
        Some (mkIter (it_policy it) attempts (Some new_retry), Some d)
  end.

Definition iter_size_hint (it : RetryIter) : Z * option Z :=
  match it_policy it with
  | RpNone => (0, Some 0)
  | p =>
      let remaining := saturating_sub (default u64_max (policy_max_attempts p)) (it_attempts it) in
      (remaining, Some remaining)
  end.

(** ** Remaining time *)

Inductive WaitDuration := WdInfinite | WdFinite (d : Duration) | WdNone.

Definition wd_subtract (w : WaitDuration) (duration : Duration) : WaitDuration :=
  match w with
  | WdFinite d => if duration <? d then WdFinite (d - duration) else WdNone
  | WdInfinite => WdInfinite
  | WdNone => WdNone
  end.

Definition wd_min (w : WaitDuration) (other : Duration) : option Duration :=
  match w with
  | WdNone => None
  | _ =>
      let remaining := match w with WdFinite d => Z.min d other | _ => other end in
      if remaining =? 0 then None else Some remaining
  end.

(** ** Retry loops

    The operation is a function from the number of the call to its result,
    the randomness one from the number of the draw; sleeping has no other
    effect.  [OutOfFuel] is a loop that has not returned yet. *)

Inductive LoopResult (A : Type) := Returned (a : A) (calls : nat) | LoopPanic | OutOfFuel.
Arguments Returned {A} a calls.
Arguments LoopPanic {A}.
Arguments OutOfFuel {A}.

Section retry_loops.
Context {T E : Type} (operation : nat → T + E) (rnd : nat → Z).

Fixpoint retry_loop (fuel : nat) (calls : nat) (it : RetryIter) : LoopResult (T + E) :=
  match fuel with
  | O => OutOfFuel
  | S fuel =>
      let r := operation calls in
      match next (rnd calls) it with
      | None => LoopPanic
      | Some (it', d) =>
          match r, d with
          | inl res, _ => Returned (inl res) (S calls)
          | inr e, None => Returned (inr e) (S calls)
          | inr _, Some _ => retry_loop fuel (S calls) it'
          end
      end
  end.

Definition retry (fuel : nat) (p : RetryPolicy) : LoopResult (T + E) :=
  retry_loop fuel 0 (iter p).

Fixpoint retry_if_loop (condition : E → bool) (fuel : nat) (calls : nat) (it : RetryIter)
  : LoopResult (T + E) :=
  match fuel with
  | O => OutOfFuel
  | S fuel =>
      match operation calls with
      | inl res => Returned (inl res) (S calls)
      | inr err =>
          if condition err then
            match next (rnd calls) it with
            | None => LoopPanic
            | Some (it', Some _) => retry_if_loop condition fuel (S calls) it'
            | Some (it', None) => Returned (inr err) (S calls)
            end
          else Returned (inr err) (S calls)
      end
  end.

Definition retry_if (condition : E → bool) (fuel : nat) (p : RetryPolicy) : LoopResult (T + E) :=
  retry_if_loop condition fuel 0 (iter p).
End retry_loops.

(** ** The delays of a policy *)

(** The number of attempts a limit allows is positive and fits a [usize]. *)
Definition policy_wf (p : RetryPolicy) : Prop :=
  match policy_max_attempts p with Some l => 1 ≤ l < u64_max | None => True end.

(** The delay before jitter of the [k]-th retry, counted from 0. *)
Definition base_delay (p : RetryPolicy) (k : nat) : Duration :=
  match p with
  | RpNone => 0
  | FixedDelay i _ => i
  | Exponential i f _ cap =>
      Nat.iter k (λ d, next_interval d f (default Duration_MAX cap)) i
  end.

(** Adding jitter to a delay of the policy does not overflow. *)
Definition jitter_safe (p : RetryPolicy) : Prop :=
  match p with
  | RpNone => True
  | _ => ∀ k rnd, is_Some (add_jitter (base_delay p k) DEFAULT_JITTER_MULTIPLIER rnd)
  end.

(** An iterator whose last delay is one of its policy's. *)
Definition iter_ok (it : RetryIter) : Prop :=
  policy_wf (it_policy it) ∧ jitter_safe (it_policy it) ∧ 0 ≤ it_attempts it ≤ u64_max ∧
  match it_policy it with
  | Exponential _ _ _ _ =>
      ∀ d, it_last_retry it = Some d → ∃ k, d = base_delay (it_policy it) k
  | _ => True
  end.

(** The exponential progression does not shrink once it is at the cap. *)
Definition cap_stable (p : RetryPolicy) : Prop :=
  match p with
  | Exponential _ f _ cap =>
      let cap := default Duration_MAX cap in cap ≤ saturating_mul_f32 cap f
  | _ => True
  end.

(** [next] called once per random number, all calls yielding a delay. *)
Fixpoint nexts (rnds : list Z) (it : RetryIter) : option (RetryIter * list Duration) :=
  match rnds with
  | [] => Some (it, [])
  | rnd :: rnds =>
      match next rnd it with
      | Some (it', Some d) => let! r := nexts rnds it' in Some (r.1, d :: r.2)
      | _ => None
      end
  end.

(** ** Jitter *)

Ltac simpl_iter := cbn [it_policy it_attempts it_last_retry] in *.

#[global] Arguments add_jitter : simpl never.
#[global] Arguments DEFAULT_JITTER_MULTIPLIER : simpl never.
#[global] Arguments saturating_mul_f32 : simpl never.
#[global] Arguments Duration_MAX : simpl never.

Lemma add_jitter_total d m rnd mj :
  mul_f32 d m = Some mj → d + from_micros u64_max ≤ Duration_MAX →
  is_Some (add_jitter d m rnd).
Proof.
  intros Hm Hd. unfold add_jitter. rewrite Hm. simpl. unfold duration_add, checked_add.
  set (off := as_u64 (as_u64 _ + _)).
  assert (0 ≤ off ≤ u64_max) by (subst off; apply wrap_range; lia).
  unfold from_micros in *.
  destruct (mj <=? MIN_JITTER); case_match; bool_to_prop; try by eexists.
  all: exfalso; unfold MIN_JITTER, from_millis in *; lia.
Qed.

Lemma fixed_delay_safe i m mj :
  mul_f32 i DEFAULT_JITTER_MULTIPLIER = Some mj → i + from_micros u64_max ≤ Duration_MAX →
  jitter_safe (FixedDelay i m).
Proof. intros. intros k rnd. simpl. by eapply add_jitter_total. Qed.

(** The jitter is at least [MIN_JITTER] and at most [multiplier] of the delay. *)
Lemma add_jitter_bounds d m rnd d' :
  in_u64 rnd → add_jitter d m rnd = Some d' →
  d + MIN_JITTER ≤ d' ∧ ∃ mj, mul_f32 d m = Some mj ∧ d' ≤ d + Z.max MIN_JITTER mj.
Proof.
  unfold add_jitter. intros Hr H. apply bind_Some in H as (mj & Hmj & H).
  rewrite Hmj. destruct (Z.leb_spec mj MIN_JITTER) as [Hle|Hgt].
  - unfold duration_add, checked_add in H. case_match; [|done]. simplify_eq.
    split; [lia|]. exists mj. split; [done|lia].
  - change (as_u64 (as_micros MIN_JITTER)) with 3000 in H.
    unfold MIN_JITTER, from_millis, as_micros in *.
    set (mx := if _ <=? u64_max then _ else _) in H.
    assert (Hmx : 3000 ≤ mx ≤ u64_max ∧ mx * 1000 ≤ mj).
    { subst mx. assert (3000 ≤ mj / 1000) by (apply Z.div_le_lower_bound; lia).
      pose proof (Z.mul_div_le mj 1000). case_match; bool_to_prop; lia. }
    assert (Hp : 0 ≤ rnd * (mx - 3000) ≤ u128_max).
    { unfold in_u in Hr. split; [nia|]. apply Z.le_trans with (u64_max * u64_max); [nia|lia]. }
    assert (Hoff : 0 ≤ rnd * (mx - 3000) / 2 ^ 64 ≤ mx - 3000).
    { unfold in_u in Hr. split; [apply Z.div_pos; lia|]. apply Z.div_le_upper_bound; nia. }
    unfold as_u128 in H. rewrite wrap_small in H by (unfold in_u; lia).
    rewrite Z.shiftr_div_pow2 in H by lia.
    unfold as_u64 in H. rewrite (wrap_small _ (_ / _)) in H by (unfold in_u; lia).
    rewrite wrap_small in H by (unfold in_u; lia).
    unfold duration_add, checked_add, from_micros in H. case_match; [|done]. simplify_eq.
    split; [lia|]. exists mj. split; [done|lia].
Qed.

(** ** One step *)

Lemma next_spec rnd it it' o :
  policy_wf (it_policy it) → 0 ≤ it_attempts it < u64_max → next rnd it = Some (it', o) →
  it_policy it' = it_policy it ∧ it_attempts it' = it_attempts it + 1 ∧
  match peek_next it with
  | None => o = None ∧ it_last_retry it' = it_last_retry it
  | Some b =>
      (∃ d, o = Some d ∧ add_jitter b DEFAULT_JITTER_MULTIPLIER rnd = Some d) ∧
      it_last_retry it' =
        match it_policy it with Exponential _ _ _ _ => Some b | _ => it_last_retry it end
  end.
Proof.
  intros Hp Ha. unfold next, peek_next. simpl_iter.
  replace (saturating_add u64_max (it_attempts it) 1) with (it_attempts it + 1)
    by (unfold saturating_add; lia).
  replace (as_u64 (it_attempts it + 1)) with (it_attempts it + 1)
    by (symmetry; apply wrap_small; unfold in_u; lia).
  destruct (it_policy it) as [|i m|i f m c]; intros H; [by simplify_eq|..];
    (destruct (exhausted _ _); [by simplify_eq|]);
    apply bind_Some in H as (d & Hd & H); simplify_eq; [by eauto 6|].
  destruct (it_last_retry it); simpl_iter; eauto 6.
Qed.

Lemma base_delay_S p k :
  base_delay p (S k) =
  match p with
  | Exponential _ f _ cap => next_interval (base_delay p k) f (default Duration_MAX cap)
  | _ => base_delay p k
  end.
Proof. by destruct p. Qed.

(** [peek_next] is a delay of the policy. *)
Lemma peek_next_base it b : iter_ok it → peek_next it = Some b → ∃ k, b = base_delay (it_policy it) k.
Proof.
  intros (_ & _ & _ & Hl) H. unfold peek_next in H.
  destruct (it_policy it) as [|i m|i f m c] eqn:Ep; [done|..]; (case_match; [done|]).
  - simplify_eq. by exists 0%nat.
  - destruct (it_last_retry it) as [last|] eqn:El; simplify_eq; [|by exists 0%nat].
    destruct (Hl last eq_refl) as [k ->]. by exists (S k).
Qed.

Lemma next_total rnd it : iter_ok it → is_Some (next rnd it).
Proof.
  intros (Hw & Hs & Ha & Hl). unfold next. simpl_iter.
  destruct (it_policy it) as [|i m|i f m c] eqn:Ep; [by eexists|..]; (case_match; [by eexists|]).
  - destruct (Hs 0%nat rnd) as [d Hd]. simpl in Hd. rewrite Hd. by eexists.
  - assert (∃ k, match it_last_retry it with
                 | Some last => next_interval last f (default Duration_MAX c)
                 | None => i end = base_delay (Exponential i f m c) k) as [k Hk].
    { destruct (it_last_retry it) as [last|]; [|by exists 0%nat].
      destruct (Hl last eq_refl) as [k ->]. by exists (S k). }
    rewrite Hk. destruct (Hs k rnd) as [d Hd]. rewrite Hd. by eexists.
Qed.

Lemma next_ok rnd it it' o : iter_ok it → next rnd it = Some (it', o) → iter_ok it'.
Proof.
  intros (Hw & Hs & Ha & Hl) H. unfold next in H. simpl_iter.
  assert (0 ≤ saturating_add u64_max (it_attempts it) 1 ≤ u64_max)
    by (unfold saturating_add; lia).
  destruct (it_policy it) as [|i m|i f m c] eqn:Ep; [simplify_eq; done|..];
    (case_match; [simplify_eq; done|]);
    apply bind_Some in H as (d & Hd & H); simplify_eq; (split; [done|]); (split; [done|]); (split; [done|]); [done|].
  simpl_iter. intros d' ?. simplify_eq. destruct (it_last_retry it) as [last|]; [|by exists 0%nat].
  destruct (Hl last eq_refl) as [k ->]. by exists (S k).
Qed.

(** ** [fast_forward] *)

Lemma iter_shift {A} (f : A → A) n x : Nat.iter n f (f x) = Nat.iter (S n) f x.
Proof. induction n as [|n IH]; [done|]. simpl in *. by rewrite IH. Qed.

(** Stopping at the cap skips only steps that stay there. *)
Lemma replay_iter steps d f cap :
  cap ≤ saturating_mul_f32 cap f →
  replay steps d f cap = Nat.iter steps (λ d, next_interval d f cap) d.
Proof.
  intros Hc. revert d. induction steps as [|n IH]; intros d; [done|]. cbn [replay].
  rewrite <- iter_shift. destruct (Z.leb_spec cap (next_interval d f cap)) as [Hle|_]; [|apply IH].
  assert (next_interval d f cap = cap) as -> by (unfold next_interval in *; lia).
  clear Hle IH. induction n as [|n IHn]; [done|]. simpl.
  rewrite <- IHn. unfold next_interval. lia.
Qed.

Lemma replay_base steps d i f m c :
  (∃ k, d = base_delay (Exponential i f m c) k) →
  ∃ k, replay steps d f (default Duration_MAX c) = base_delay (Exponential i f m c) k.
Proof.
  revert d. induction steps as [|n IH]; intros d [k ->]; [by exists k|]. cbn [replay].
  case_match; [by exists (S k)|]. apply IH. by exists (S k).
Qed.

Lemma fast_forward_ok n it : 0 ≤ n → iter_ok it → iter_ok (fast_forward n it).
Proof.
  intros Hn (Hw & Hs & Ha & Hl). unfold fast_forward. destruct (n =? 0); [done|].
  unfold iter_ok, replayed. simpl. split_and!; try done.
  - unfold policy_wf in Hw. unfold saturating_add.
    destruct (policy_max_attempts (it_policy it)); lia.
  - unfold policy_wf in Hw. unfold saturating_add.
    destruct (policy_max_attempts (it_policy it)); lia.
  - destruct (it_policy it) as [|i m|i f m c] eqn:Ep; [done..|]. intros d Hd.
    case_match; [|by apply Hl].
    destruct (it_last_retry it) as [last|] eqn:El; simplify_eq.
    + edestruct replay_base as [k Hk]; [by apply Hl|]. by exists k.
    + edestruct replay_base as [k Hk]; [by exists 0%nat|]. by exists k.
Qed.

Lemma nexts_length rnds it it' ds : nexts rnds it = Some (it', ds) → length ds = length rnds.
Proof.
  revert it ds. induction rnds as [|r rnds IH]; intros it ds H; cbn [nexts] in H; [by simplify_eq|].
  destruct (next r it) as [[it1 [d|]]|]; [|done..].
  apply bind_Some in H as ([it2 ds2] & H2 & H). simplify_eq. simpl. f_equal. by eapply IH.
Qed.

(** The state after [n] yielding calls, in closed form. *)
Lemma nexts_state rnds it it' ds :
  policy_wf (it_policy it) → 0 ≤ it_attempts it →
  it_attempts it + Z.of_nat (length rnds) ≤ u64_max →
  nexts rnds it = Some (it', ds) →
  it_policy it' = it_policy it ∧
  it_attempts it' = it_attempts it + Z.of_nat (length rnds) ∧
  it_last_retry it' =
    match it_policy it, length rnds with
    | Exponential i f _ c, S n =>
        let step d := next_interval d f (default Duration_MAX c) in
        Some match it_last_retry it with
             | Some last => Nat.iter (S n) step last
             | None => Nat.iter n step i
             end
    | _, _ => it_last_retry it
    end.
Proof.
  intros Hw. revert it ds Hw. induction rnds as [|r rnds IH]; intros it ds Hw Ha Hb H.
  { cbn [nexts] in H. simplify_eq. simpl. split_and!; [done|lia|by destruct (it_policy it')]. }
  cbn [nexts] in H. destruct (next r it) as [[it1 [d|]]|] eqn:E; [|done..].
  apply bind_Some in H as ([it2 ds2] & H2 & H). simpl in H. simplify_eq. simpl length in *.
  apply next_spec in E as (Ep & Ea & El); [|done|lia].
  apply IH in H2 as (Hp & Ha2 & Hl2); [|rewrite ?Ep, ?Ea; done || lia..].
  rewrite Hp, Ep, Ha2, Ea. split_and!; [done|lia|]. rewrite Hl2, Ep.
  destruct (peek_next it) as [b|] eqn:Eb; [|destruct El as [? _]; done].
  destruct El as [_ El]. rewrite El. unfold peek_next in Eb.
  destruct (it_policy it) as [|i m|i f m c]; [done|done|].
  destruct (exhausted _ _); [done|]. destruct (it_last_retry it) as [last|]; simplify_eq;
    (destruct (length rnds) as [|n]; [done|]); [|done].
  exact (f_equal Some (iter_shift (λ d, next_interval d f (default Duration_MAX c)) (S n) last)).
Qed.

(** Yielding calls stay within the attempts that remain. *)
Lemma nexts_within rnds it it' ds :
  policy_wf (it_policy it) → 0 ≤ it_attempts it →
  it_attempts it + Z.of_nat (length rnds) ≤ u64_max →
  nexts rnds it = Some (it', ds) → Z.of_nat (length rnds) ≤ remaining_attempts it.
Proof.
  intros Hw. revert it ds Hw. induction rnds as [|r rnds IH]; intros it ds Hw Ha Hb H.
  { simpl. unfold remaining_attempts, saturating_sub. lia. }
  cbn [nexts] in H. destruct (next r it) as [[it1 [d|]]|] eqn:E; [|done..].
  apply bind_Some in H as ([it2 ds2] & H2 & H). simpl in H. simplify_eq. simpl length in *.
  apply next_spec in E as (Ep & Ea & El); [|done|lia].
  apply IH in H2; [|rewrite ?Ep, ?Ea; done || lia..].
  unfold remaining_attempts, iter_max_attempts, saturating_sub in *. rewrite Ep, Ea in H2.
  destruct (peek_next it) eqn:Eb; [clear El|by destruct El]. unfold peek_next in Eb.
  unfold as_u64 in Eb. rewrite wrap_small in Eb by (unfold in_u; lia).
  destruct (it_policy it) as [|i [m|]|i f [m|] c]; simpl in *; case_bool; done || lia.
Qed.

Lemma fast_forward_bounded it n :
  policy_wf (it_policy it) → 0 ≤ it_attempts it → 0 < n → it_attempts it + n ≤ u64_max →
  it_attempts (fast_forward n it) =
  match policy_max_attempts (it_policy it) with
  | Some l => Z.min (it_attempts it + n) l
  | None => it_attempts it + n
  end.
Proof.
  intros Hw Ha Hn Hb. unfold fast_forward. rewrite (proj2 (Z.eqb_neq n 0)) by lia. simpl_iter.
  unfold saturating_add. case_match; lia.
Qed.

(** Fast-forwarding is retrying.  Moving an iterator forward by [n]
    attempts gives exactly the iterator that [n] calls of [next] leave, whatever
    the jitter, as long as the progression does not shrink at its cap; and when
    a bounded policy has no attempts left after them, no delay follows. *)
Theorem fast_forward_is_iterated_next (it : RetryIter) (n : Z) :
  policy_wf (it_policy it) → cap_stable (it_policy it) → 0 ≤ it_attempts it → 0 < n →
  it_attempts it + n ≤ u64_max →
  (∀ rnds it' ds, Z.of_nat (length rnds) = n → nexts rnds it = Some (it', ds) →
     fast_forward n it = it') ∧
  (∀ limit, policy_max_attempts (it_policy it) = Some limit → limit ≤ it_attempts it + n →
     peek_next (fast_forward n it) = None).
Proof.
  intros Hw Hc Ha Hn Hb. pose proof (fast_forward_bounded it n Hw Ha Hn Hb) as Hf. split.
  - intros rnds it' ds Hlen H.
    assert (Hrem : n ≤ remaining_attempts it).
    { rewrite <- Hlen. eapply nexts_within; [done|done|lia|done]. }
    apply nexts_state in H as (Hp & Hat & Hl); [|done|lia..].
    destruct it' as [p' a' l'], it as [p a l]; simpl_iter; subst p'.
    transitivity (mkIter p (it_attempts (fast_forward n (mkIter p a l)))
                    (it_last_retry (fast_forward n (mkIter p a l)))).
    { unfold fast_forward. by destruct (n =? 0). }
    f_equal.
    + rewrite Hf, Hat. unfold remaining_attempts, iter_max_attempts, saturating_sub in Hrem.
      simpl_iter. destruct p as [|i [m|]|i f [m|] c]; simpl in *; lia.
    + rewrite Hl. unfold fast_forward. rewrite (proj2 (Z.eqb_neq n 0)) by lia. simpl_iter.
      rewrite Z.min_l by lia. unfold replayed. simpl_iter.
      destruct p as [|i m|i f m c]; [done..|]. rewrite (proj2 (Z.ltb_lt 0 n)) by lia.
      destruct (length rnds) as [|k] eqn:Ek; [lia|]. f_equal.
      destruct l as [last|]; rewrite replay_iter by done;
        [by replace (Z.to_nat n) with (S k) by lia|by replace (Z.to_nat (n - 1)) with k by lia].
  - intros limit Hlim Hle. unfold policy_wf in Hw. rewrite Hlim in *.
    unfold peek_next. rewrite Hf.
    replace (it_policy (fast_forward n it)) with (it_policy it)
      by (unfold fast_forward; by destruct (n =? 0)).
    unfold as_u64. rewrite wrap_small by (unfold in_u; lia).
    destruct (it_policy it); simpl in Hlim; simplify_eq; unfold exhausted;
      by rewrite (proj2 (Z.ltb_lt limit _)) by lia.
Qed.

Lemma fast_forward_is_iterated_next_witness :
  ∃ it ds,
    nexts [0; 7; 0; 0; 0]
      (iter (Exponential (from_millis 100) (f32_of_Z 2) (Some 5) (Some (from_secs 1))))
    = Some (it, ds) ∧
    fast_forward 5
      (iter (Exponential (from_millis 100) (f32_of_Z 2) (Some 5) (Some (from_secs 1)))) = it.
Proof.
  destruct (fast_forward_is_iterated_next
    (iter (Exponential (from_millis 100) (f32_of_Z 2) (Some 5) (Some (from_secs 1)))) 5)
    as [H1 H2]; [done|by vm_compute|done|done|done|].
  eexists _, _. split; [vm_compute; reflexivity|].
  eapply (H1 [0; 7; 0; 0; 0]); vm_compute; reflexivity.
Defined.

Example fast_forward_saturates :
  let it := iter_after (Exponential (from_millis 100) (f32_of_Z 2) None None) 1000 in
  it_last_retry it = Some Duration_MAX ∧ peek_next it = Some Duration_MAX.
Proof. vm_compute. done. Qed.

(** The saturated delay of an unbounded exponential policy overflows when the
    jitter is added to it. *)
Example saturated_delay_panics :
  next 0 (iter_after (Exponential (from_millis 100) (f32_of_Z 2) None None) 70) = None.
Proof. vm_compute. reflexivity. Qed.

(** ** Retry loops *)

(** The number of retries a policy allows. *)
Definition max_retries (p : RetryPolicy) : option nat :=
  match p with RpNone => Some 0%nat | _ => Z.to_nat <$> policy_max_attempts p end.

(** The iterator after [k] delays. *)
Definition iter_at (p : RetryPolicy) (k : nat) (it : RetryIter) : Prop :=
  it_policy it = p ∧ it_attempts it = Z.of_nat k ∧
  match p with
  | Exponential _ _ _ _ =>
      it_last_retry it = match k with O => None | S k => Some (base_delay p k) end
  | _ => True
  end.

(** The [k]-th delay is that of the policy with jitter, and the addition of the
    jitter is the only way to fail. *)
Lemma next_at p n k rnd it :
  policy_wf p → max_retries p = Some n → (k ≤ n)%nat → iter_at p k it →
  (k = n ∧ ∃ it', next rnd it = Some (it', None)) ∨
  ((k < n)%nat ∧
   match add_jitter (base_delay p k) DEFAULT_JITTER_MULTIPLIER rnd with
   | None => next rnd it = None
   | Some d => ∃ it', next rnd it = Some (it', Some d) ∧ iter_at p (S k) it'
   end).
Proof.
  intros Hw Hm Hk (Hp & Ha & Hl). destruct it as [q a l]. cbn [it_policy it_attempts it_last_retry] in *.
  subst q a. unfold next, policy_wf, max_retries in *. cbn [it_policy it_attempts it_last_retry].
  destruct p as [|i [m|]|i f [m|] c]; cbn [policy_max_attempts fmap option_fmap option_map] in *;
    try done; injection Hm as <-.
  { left. split; [lia|]. by eexists. }
  all: unfold saturating_add; rewrite (Z.min_r u64_max) by lia; unfold exhausted;
    destruct (Z.ltb_spec m (Z.of_nat k + 1)); [left; split; [lia|by eexists]|right; split; [lia|]].
  - cbn [base_delay]. destruct (add_jitter i _ rnd) as [d|]; [|done]. eexists. split; [done|].
    split_and!; [done|simpl; lia|done].
  - assert (match l with
            | Some last => next_interval last f (default Duration_MAX c)
            | None => i
            end = base_delay (Exponential i f (Some m) c) k) as -> by (subst l; by destruct k).
    destruct (add_jitter _ _ rnd) as [d|]; [|done]. eexists. split; [done|].
    split_and!; [done|simpl; lia|done].
Qed.

Section retry_loops.
Context {T E : Type} (operation : nat → T + E) (rnd : nat → Z).

(** Every call before the [n]-th failed. *)
Definition all_failed_before (n : nat) : Prop := ∀ i, (i < n)%nat → ∃ e, operation i = inr e.

Lemma retry_loop_returns p (n fuel k : nat) it :
  policy_wf p → max_retries p = Some n → (k ≤ n)%nat → (n < fuel + k)%nat → iter_at p k it →
  all_failed_before k →
  ∃ m, (k ≤ m ≤ n)%nat ∧ all_failed_before m ∧
    ((retry_loop operation rnd fuel k it = Returned (operation m) (S m) ∧
      (m = n ∨ ∃ t, operation m = inl t)) ∨
     ((m < n)%nat ∧ retry_loop operation rnd fuel k it = LoopPanic ∧
      add_jitter (base_delay p m) DEFAULT_JITTER_MULTIPLIER (rnd m) = None)).
Proof.
  intros Hw Hm. revert k it. induction fuel as [|fuel IH]; intros k it Hk Hf Hit Hb; [lia|].
  cbn [retry_loop].
  destruct (next_at p n k (rnd k) it Hw Hm Hk Hit) as [(-> & it' & ->)|[Hlt Hn]].
  { exists n. split; [lia|]. split; [done|]. left. destruct (operation n) as [t|e] eqn:Eo; by eauto. }
  destruct (add_jitter (base_delay p k) _ (rnd k)) as [d|] eqn:Ej.
  2: { exists k. split; [lia|]. split; [done|]. right. by rewrite Hn. }
  destruct Hn as (it' & -> & Hit'). destruct (operation k) as [t|e] eqn:Eo.
  { exists k. split; [lia|]. split; [done|]. left. rewrite Eo. by eauto. }
  destruct (IH (S k) it') as (m & Hr & Hb' & Hres); [lia|lia|done| |].
  { intros i Hi. destruct (decide (i = k)) as [->|]; [by eauto|]. apply Hb. lia. }
  exists m. split; [lia|done].
Qed.

(** [retry_if] that retries every error makes the same calls. *)
Lemma retry_if_always (fuel calls : nat) it :
  iter_ok it →
  retry_if_loop operation rnd (λ _, true) fuel calls it = retry_loop operation rnd fuel calls it.
Proof.
  revert calls it. induction fuel as [|fuel IH]; intros calls it Hok; [done|].
  cbn [retry_if_loop retry_loop]. destruct (next_total (rnd calls) it Hok) as [[it' o] Hn].
  rewrite Hn. destruct (operation calls); [by destruct o|]. destruct o; [|done].
  apply IH. by eapply next_ok.
Qed.

(** C37. Retrying ends.  [retry] with a policy that allows [n] retries, fewer than
    [usize::MAX], makes at most [n + 1] calls.  It returns what the last call returned,
    all calls before it failed, and it only gives up when the retries are used up.  The
    one way not to return is the panic of the addition of the jitter, when it overflows
    for the delay of one of the retries. *)
Theorem retry_bounded (p : RetryPolicy) (n fuel : nat) :
  policy_wf p → max_retries p = Some n → (n < fuel)%nat →
  ∃ m, (m ≤ n)%nat ∧ all_failed_before m ∧
    ((retry operation rnd fuel p = Returned (operation m) (S m) ∧
      (m = n ∨ ∃ t, operation m = inl t)) ∨
     ((m < n)%nat ∧ retry operation rnd fuel p = LoopPanic ∧
      add_jitter (base_delay p m) DEFAULT_JITTER_MULTIPLIER (rnd m) = None)).
Proof.
  intros Hw Hm Hf. unfold retry.
  destruct (retry_loop_returns p n fuel 0 (iter p) Hw Hm) as (m & Hr & H); [lia|lia| | |].
  - split_and!; [done|done|by destruct p].
  - intros i Hi. lia.
  - exists m. split; [lia|done].
Qed.
End retry_loops.

(** The third call succeeds. *)
Lemma retry_bounded_witness :
  retry (λ i, if (i <? 2)%nat then inr i else inl true) (λ _, 0) 11
    (FixedDelay (from_millis 100) (Some 10)) = Returned (inl true) 3 ∧
  ∃ m, (m ≤ 10)%nat ∧ all_failed_before (λ i, if (i <? 2)%nat then inr i else inl true) m ∧
    ((retry (λ i, if (i <? 2)%nat then inr i else inl true) (λ _, 0) 11
        (FixedDelay (from_millis 100) (Some 10))
      = Returned (if (m <? 2)%nat then inr m else inl true) (S m) ∧
      (m = 10%nat ∨ ∃ t, (if (m <? 2)%nat then inr m else inl true) = inl t)) ∨
     ((m < 10)%nat ∧ retry (λ i, if (i <? 2)%nat then inr i else inl true) (λ _, 0) 11
        (FixedDelay (from_millis 100) (Some 10)) = LoopPanic ∧
      add_jitter (base_delay (FixedDelay (from_millis 100) (Some 10)) m) DEFAULT_JITTER_MULTIPLIER 0 = None)).
Proof.
  split; [vm_compute; reflexivity|].
  apply (retry_bounded (λ i, if (i <? 2)%nat then inr i else inl true) (λ _, 0)
    (FixedDelay (from_millis 100) (Some 10)) 10 11); [split; vm_compute; congruence|reflexivity|].
  apply Nat.ltb_lt. reflexivity.
Defined.

(** A bounded policy whose delays saturate: adding the jitter overflows. *)
Example bounded_retry_panics :
  retry (λ _, inr tt : unit + unit) (λ _, 0) 101
    (Exponential (from_millis 100) (f32_of_Z 2) (Some 100) None) = LoopPanic.
Proof. vm_compute. reflexivity. Qed.
