(* ===== verification/InvokerError.v ===== *)
(** * InvokerError: the errors of an invocation attempt

    Models crates/invoker-impl/src/error.rs: [InvokerError], how an error
    affects retries, and its conversion to what is reported.  Payloads that are
    only printed are strings.  The text of an error and its documentation code
    come from derive macros: they are the interface [ErrorText]. *)

From stdpp Require Import strings.
From S2P Require Import Prelude Retries.

Open Scope Z_scope.

(** ** Data *)

Inductive RequestedErrorBehavior :=
| BehaviorRetry
| RetryWithIntervalOverride (interval : Duration)
| BehaviorPause
| BehaviorFail.

Definition behavior_retry (next_retry_interval_override : option Duration)
  : RequestedErrorBehavior :=
  match next_retry_interval_override with
  | Some interval => RetryWithIntervalOverride interval
  | None => BehaviorRetry
  end.

Record InvocationError := mkInvocationError {
  ie_code : Z;
  ie_message : string;
  ie_stacktrace : option string;
  ie_metadata : list (string * string);
}.

(** Error codes are HTTP status codes. *)
Definition INTERNAL : Z := 500.
Definition UNSUPPORTED_MEDIA_TYPE : Z := 415.

Definition InvocationError_new (code : Z) (message : string) : InvocationError :=
  mkInvocationError code message None [].
Definition InvocationError_internal (message : string) : InvocationError :=
  mkInvocationError INTERNAL message None [].

Inductive CommandType :=
| CtInput | CtOutput | CtGetLazyState | CtSetState | CtClearState | CtClearAllState
| CtGetLazyStateKeys | CtGetEagerState | CtGetEagerStateKeys | CtGetPromise | CtPeekPromise
| CtCompletePromise | CtSleep | CtCall | CtOneWayCall | CtSendSignal | CtRun
| CtAttachInvocation | CtGetInvocationOutput | CtCompleteAwakeable.

#[export] Instance CommandType_eq_dec : EqDecision CommandType.
Proof. solve_decision. Defined.

Inductive CompletionType :=
| CpGetLazyState | CpGetLazyStateKeys | CpGetPromise | CpPeekPromise | CpCompletePromise | CpSleep
| CpCallInvocationId | CpCall | CpRun | CpAttachInvocation | CpGetInvocationOutput.
Inductive NotificationType := NtCompletion (c : CompletionType) | NtSignal.

#[export] Instance CompletionType_eq_dec : EqDecision CompletionType.
Proof. solve_decision. Defined.
#[export] Instance NotificationType_eq_dec : EqDecision NotificationType.
Proof. solve_decision. Defined.

(** The entry types of the journal, and those of its first version. *)
Inductive EntryTypeV2 := EtCommand (c : CommandType) | EtNotification (n : NotificationType).
Inductive EntryTypeV1 :=
| EInput | EOutput | EGetState | ESetState | EClearState | EGetStateKeys | EClearAllState
| EGetPromise | EPeekPromise | ECompletePromise | ESleep | ECall | EOneWayCall | EAwakeable
| ECompleteAwakeable | ERun | ECancelInvocation | EGetCallInvocationId | EAttachInvocation
| EGetInvocationOutput | ECustom.

Record InvocationErrorRelatedEntry := mkRelated {
  related_entry_index : option Z;
  related_entry_name : option string;
  related_entry_type : option EntryTypeV1;
  entry_was_committed : bool;
}.
Definition related_default : InvocationErrorRelatedEntry := mkRelated None None None false.

Record InvocationErrorRelatedCommandV2 := mkRelatedV2 {
  related_command_index : option Z;
  related_command_name : option string;
  related_command_entry_type : option EntryTypeV2;
  command_was_committed : bool;
}.

Definition best_effort_into_v1 (r : InvocationErrorRelatedCommandV2)
  : InvocationErrorRelatedEntry :=
  mkRelated (related_command_index r) (related_command_name r)
    match related_command_entry_type r with
    | Some (EtCommand CtRun) => Some ERun
    | Some (EtCommand CtCall) => Some ECall
    | Some (EtCommand CtOneWayCall) => Some EOneWayCall
    | Some (EtCommand CtCompleteAwakeable) => Some ECompleteAwakeable
    | Some (EtCommand CtSetState) => Some ESetState
    | Some (EtCommand CtGetLazyState) => Some EGetState
    | Some (EtCommand CtGetEagerState) => Some EGetState
    | Some (EtCommand CtGetLazyStateKeys) => Some EGetStateKeys
    | Some (EtCommand CtGetEagerStateKeys) => Some EGetStateKeys
    | _ => None
    end
    (command_was_committed r).

Record SdkInvocationError := mkSdk {
  sdk_related_entry : option InvocationErrorRelatedEntry;
  sdk_next_retry_interval_override : option Duration;
  sdk_error : InvocationError;
}.

Record SdkInvocationErrorV2 := mkSdkV2 {
  sdk2_related_command : option InvocationErrorRelatedCommandV2;
  sdk2_error : InvocationError;
  sdk2_requested_error_behavior : RequestedErrorBehavior;
}.

Inductive OutOfMemoryKind := UpperBoundExceeded | PoolExhausted.
#[export] Instance OutOfMemoryKind_eq_dec : EqDecision OutOfMemoryKind.
Proof. solve_decision. Defined.

Record InvocationMemoryExhausted := mkOom {
  oom_needed : Z;
  oom_kind : OutOfMemoryKind;
  oom_context : string;
}.

Inductive InvokerError :=
| NoDeploymentForService
| UnknownDeployment (id : Z)
| UnexpectedResponse (status : Z)
| BadNegotiatedServiceProtocolVersion (version : Z)
| ContentTooLarge
| UnexpectedContentType (actual : option string) (expected : string)
| UnexpectedMessageV4 (ty : Z)
| Encoding (e : string)
| Encoder (e : string)
| RawEntryError (e : string)
| RawEntryV2Error (e : string)
| WriteAfterEndOfStream
| BadHeader (name e : string)
| EmptySuspensionMessage
| EmptyAwaitingOnMessage
| MalformedProposeRunCompletion
| JournalReader (e : string)
| NotInvoked
| StateReader (e : string)
| UnexpectedEntryCount (actual expected : Z)
| Client (e : string)
| ClientBody (e : string)
| UnexpectedClosedRequestStream
| AbortTimeoutFired (d : Duration)
| CommandPrecondition (idx : Z) (ty : EntryTypeV2) (e : string)
| Sdk (e : SdkInvocationError)
| SdkV2 (e : SdkInvocationErrorV2)
| IncompatibleServiceEndpoint (id lo hi : Z)
| ResumeWithWrongServiceProtocolVersion (version : Z)
| ServiceUnavailable (status : Z)
| RateLimited (code : Z) (retry_after : option Duration)
| DeploymentDeprecated (service : string) (id : Z)
| OutOfMemory (oom : InvocationMemoryExhausted)
| MaxFutureDepthReached (limit : Z).

(** ** What an error does to the retries *)

Definition is_transient (e : InvokerError) : bool :=
  match e with
  | NotInvoked => false
  | OutOfMemory oom => negb (bool_decide (oom_kind oom = UpperBoundExceeded))
  | _ => true
  end.

Definition should_bump_start_message_retry_count_since_last_stored_entry (e : InvokerError)
  : bool :=
  match e with
  | NotInvoked | JournalReader _ | StateReader _ | NoDeploymentForService
  | BadNegotiatedServiceProtocolVersion _ | UnknownDeployment _
  | ResumeWithWrongServiceProtocolVersion _ | IncompatibleServiceEndpoint _ _ _
  | OutOfMemory _ => false
  | _ => true
  end.

Definition requested_error_behavior (e : InvokerError) : RequestedErrorBehavior :=
  match e with
  | SdkV2 s => sdk2_requested_error_behavior s
  | Sdk s => behavior_retry (sdk_next_retry_interval_override s)
  | RateLimited _ retry_after => behavior_retry retry_after
  | MaxFutureDepthReached _ => BehaviorPause
  | DeploymentDeprecated _ _ => BehaviorFail
  | _ => BehaviorRetry
  end.

(** ** Reports *)

Record InvocationErrorReport := mkReport {
  rep_err : InvocationError;
  rep_doc_error_code : option string;
  rep_related_entry_index : option Z;
  rep_related_entry_name : option string;
  rep_related_entry_type : option EntryTypeV1;
}.

Record TransientErrorEvent := mkTransientErrorEvent {
  te_error_code : Z;
  te_error_message : string;
  te_error_stacktrace : option string;
  te_restate_doc_error_code : option string;
  te_related_command_index : option Z;
  te_related_command_name : option string;
  te_related_command_type : option CommandType;
}.

(** [to_string] and [CodedError::code]. *)
Class ErrorText := {
  error_to_string : InvokerError → string;
  error_doc_code : InvokerError → option string;
}.

Section reports.
Context `{ErrorText}.

Definition into_invocation_error (e : InvokerError) : InvocationError :=
  match e with
  | Sdk s => sdk_error s
  | SdkV2 s => sdk2_error s
  | BadNegotiatedServiceProtocolVersion _ =>
      InvocationError_new UNSUPPORTED_MEDIA_TYPE (error_to_string e)
  | _ => InvocationError_internal (error_to_string e)
  end.

Definition into_invocation_error_report (e : InvokerError) : InvocationErrorReport :=
  let related :=
    default related_default
      match e with
      | Sdk s => sdk_related_entry s
      | SdkV2 s => best_effort_into_v1 <$> sdk2_related_command s
      | _ => None
      end in
  mkReport (into_invocation_error e) (error_doc_code e) (related_entry_index related)
    (related_entry_name related) (related_entry_type related).

(** The command type the service related the error to. *)
Definition journal_v2_related_command_type (e : InvokerError) : option CommandType :=
  match e with
  | SdkV2 s =>
      let! r := sdk2_related_command s in
      let! t := related_command_entry_type r in
      match t with EtCommand c => Some c | EtNotification _ => None end
  | _ => None
  end.

(** The event built from an error, the same on every path that reports one. *)
Definition transient_error_event (e : InvokerError) : TransientErrorEvent :=
  let report := into_invocation_error_report e in
  mkTransientErrorEvent (ie_code (rep_err report)) (ie_message (rep_err report))
    (ie_stacktrace (rep_err report)) (rep_doc_error_code report)
    (rep_related_entry_index report) (rep_related_entry_name report)
    (journal_v2_related_command_type e).
End reports.
