(* ===== verification/InvocationStateMachine.v ===== *)
(** * InvocationStateMachine: the attempts of one invocation

    Models crates/invoker-impl/src/invocation_state_machine.rs, with the memory
    budget of crates/memory/src/local_pool.rs as far as it is handed around.

    Handles to other tasks are names: an [AbortHandle] is the number of the
    task it aborts, a notification sender the number of the channel.  Sending
    on a channel succeeds exactly while its receiver is alive ([alive]); the
    messages that were sent are returned.  A [debug_assert!] is checked
    ([None] when it fails), integer arithmetic wraps around. *)

From stdpp Require Import strings.
From S2P Require Import Prelude Retries InvokerError UnresolvedFuture.

Open Scope Z_scope.

(** ** Data *)

Inductive Notification :=
| NfEntry (entry_index : Z)
| NfCommandAck (command_index : Z)
| NfProposeRunCompletionAck (completion_id : Z).

(** Protocol versions are ordered by their number. *)
Definition V7 : Z := 7.

Record PinnedDeployment := mkPinned {
  pd_deployment_id : Z;
  pd_service_protocol_version : Z;
}.

#[export] Instance PinnedDeployment_eq_dec : EqDecision PinnedDeployment.
Proof. solve_decision. Defined.

Record LocalMemoryPool := mkPool {
  lp_local_capacity : Z;
  lp_min_reserved : Z;
  lp_upper_bound : Z;
  lp_in_flight : Z;
}.

Definition release_excess (p : LocalMemoryPool) : LocalMemoryPool :=
  let floor := Z.max (lp_min_reserved p) (lp_in_flight p) in
  if floor <? lp_local_capacity p
  then mkPool (lp_local_capacity p - (lp_local_capacity p - floor)) (lp_min_reserved p)
         (lp_upper_bound p) (lp_in_flight p)
  else p.

(** The permit of the scheduler: the metadata of the entry and the memory
    lease that comes with it. *)
Record ReservedResources := mkResources {
  rr_retry_attempts : Z;
  rr_retry_count_since_last_stored_command : Z;
  rr_memory_lease : Z;
}.

Inductive OnMaxAttempts := OmaPause | OmaKill.

Record RetryPolicyState := mkRps {
  rps_selected_from_deployment_id : option Z;
  rps_retry_iter : RetryIter;
  rps_on_max_attempts : OnMaxAttempts;
}.

(** ** The journal tracker *)

Record JournalTracker := mkTracker {
  last_acked_command : option Z;
  last_command_sent : option Z;
  last_acked_notifications : gset NotificationId;
  last_notifications_proposed : gset NotificationId;
}.
Definition tracker_default : JournalTracker := mkTracker None None ∅ ∅.

(** [cmp::max(Some(idx), o)]: [None] is below every [Some]. *)
Definition max_some (idx : Z) (o : option Z) : option Z :=
  match o with Some i => Some (Z.max idx i) | None => Some idx end.

Definition notify_acked_command_from_partition_processor (idx : Z) (t : JournalTracker) :=
  mkTracker (max_some idx (last_acked_command t)) (last_command_sent t)
    (last_acked_notifications t) (last_notifications_proposed t).
Definition notify_command_sent_to_partition_processor (idx : Z) (t : JournalTracker) :=
  mkTracker (last_acked_command t) (max_some idx (last_command_sent t))
    (last_acked_notifications t) (last_notifications_proposed t).
Definition notify_acked_notification_from_partition_processor (id : NotificationId)
    (t : JournalTracker) :=
  mkTracker (last_acked_command t) (last_command_sent t)
    ({[id]} ∪ last_acked_notifications t) (last_notifications_proposed t).
Definition notify_notification_proposed_to_partition_processor (id : NotificationId)
    (t : JournalTracker) :=
  mkTracker (last_acked_command t) (last_command_sent t)
    (last_acked_notifications t) ({[id]} ∪ last_notifications_proposed t).

Definition can_retry (t : JournalTracker) : bool :=
  let commands_condition :=
    match last_acked_command t, last_command_sent t with
    | _, None => true
    | Some last_acked, Some last_proposed => last_proposed <=? last_acked
    | None, Some _ => false
    end in
  if negb commands_condition then false
  else commands_condition &&
       bool_decide (last_notifications_proposed t ⊆ last_acked_notifications t).

(** ** The state machine *)

Record InFlightState := mkFlight {
  fl_notifications_tx : option nat;
  fl_journal_tracker : JournalTracker;
  fl_abort_handle : nat;
  fl_command_acks_to_propagate : gset Z;
  fl_run_completion_proposals_to_ack : gset Z;
  fl_using_deployment : option PinnedDeployment;
  fl_should_notify_pinned_deployment : bool;
}.

Inductive AttemptState :=
| New
| InFlight (fl : InFlightState)
| WaitingRetry (timer_fired : bool) (journal_tracker : JournalTracker) (retry_timer_key : Z).

Record InvocationStateMachine := mkIsm {
  ism_qid : string;
  ism_permit : ReservedResources;
  ism_fencing_token : Z;
  ism_invocation_target : string;
  ism_limit_key : string;
  ism_idempotency_key : option string;
  ism_last_transient_error_event : option TransientErrorEvent;
  ism_state : AttemptState;
  ism_retry_policy_state : RetryPolicyState;
  ism_start_message_retry_count : Z;
  ism_requested_pause : bool;
  ism_budget : option LocalMemoryPool;
}.

(** Field updates. *)
Definition ism_core (m : InvocationStateMachine) (st : AttemptState) (rps : RetryPolicyState)
    (ev : option TransientErrorEvent) (count : Z) (pause : bool) (b : option LocalMemoryPool) :=
  mkIsm (ism_qid m) (ism_permit m) (ism_fencing_token m) (ism_invocation_target m)
    (ism_limit_key m) (ism_idempotency_key m) ev st rps count pause b.
Definition set_state (st : AttemptState) (m : InvocationStateMachine) :=
  ism_core m st (ism_retry_policy_state m) (ism_last_transient_error_event m)
    (ism_start_message_retry_count m) (ism_requested_pause m) (ism_budget m).
Definition set_rps (rps : RetryPolicyState) (m : InvocationStateMachine) :=
  ism_core m (ism_state m) rps (ism_last_transient_error_event m)
    (ism_start_message_retry_count m) (ism_requested_pause m) (ism_budget m).
Definition set_event (ev : option TransientErrorEvent) (m : InvocationStateMachine) :=
  ism_core m (ism_state m) (ism_retry_policy_state m) ev
    (ism_start_message_retry_count m) (ism_requested_pause m) (ism_budget m).
Definition set_count (count : Z) (m : InvocationStateMachine) :=
  ism_core m (ism_state m) (ism_retry_policy_state m) (ism_last_transient_error_event m)
    count (ism_requested_pause m) (ism_budget m).
Definition set_pause (pause : bool) (m : InvocationStateMachine) :=
  ism_core m (ism_state m) (ism_retry_policy_state m) (ism_last_transient_error_event m)
    (ism_start_message_retry_count m) pause (ism_budget m).
Definition set_budget (b : option LocalMemoryPool) (m : InvocationStateMachine) :=
  ism_core m (ism_state m) (ism_retry_policy_state m) (ism_last_transient_error_event m)
    (ism_start_message_retry_count m) (ism_requested_pause m) b.
Definition set_tracker (t : JournalTracker) (fl : InFlightState) :=
  mkFlight (fl_notifications_tx fl) t (fl_abort_handle fl) (fl_command_acks_to_propagate fl)
    (fl_run_completion_proposals_to_ack fl) (fl_using_deployment fl)
    (fl_should_notify_pinned_deployment fl).

(** [if let AttemptState::InFlight { .. } = &mut self.invocation_state { .. }] *)
Definition update_flight (f : InFlightState → InFlightState) (m : InvocationStateMachine) :=
  match ism_state m with
  | InFlight fl => set_state (InFlight (f fl)) m
  | _ => m
  end.

Definition is_in_flight (m : InvocationStateMachine) : bool :=
  match ism_state m with InFlight _ => true | _ => false end.

(** [debug_assert!(c)] *)
Definition debug_assert (c : bool) : option unit := if c then Some tt else None.

Definition create (qid : string) (permit : ReservedResources) (fencing_token : Z)
    (invocation_target limit_key : string) (idempotency_key : option string)
    (retry_iter : RetryIter) (on_max_attempts : OnMaxAttempts) : InvocationStateMachine :=
  mkIsm qid permit fencing_token invocation_target limit_key idempotency_key None New
    (mkRps None retry_iter on_max_attempts) (rr_retry_count_since_last_stored_command permit)
    false None.

Definition start (abort_handle : nat) (notifications_tx : nat) (m : InvocationStateMachine)
  : option InvocationStateMachine :=
  let! _ := debug_assert (negb (is_in_flight m)) in
  Some (set_state (InFlight (mkFlight (Some notifications_tx) tracker_default abort_handle ∅ ∅
                               None false)) m).

Definition retry_attempts (m : InvocationStateMachine) : Z :=
  it_attempts (rps_retry_iter (ism_retry_policy_state m)).

(** The task to abort. *)
Definition abort (m : InvocationStateMachine) : option nat :=
  match ism_state m with InFlight fl => Some (fl_abort_handle fl) | _ => None end.

(** [InvocationTargetResolver::resolve_invocation_retry_policy]. *)
Abbreviation Resolver := (option Z → string → RetryIter * OnMaxAttempts).

Definition update_retry_policy_if_needed (selected_deployment_id : Z) (resolver : Resolver)
    (m : InvocationStateMachine) : InvocationStateMachine :=
  let rps := ism_retry_policy_state m in
  if bool_decide (rps_selected_from_deployment_id rps = Some selected_deployment_id) then m
  else
    let '(retry_iter, on_max_attempts) :=
      resolver (Some selected_deployment_id) (ism_invocation_target m) in
    let retry_iter := fast_forward (it_attempts (rps_retry_iter rps)) retry_iter in
    set_rps (mkRps (Some selected_deployment_id) retry_iter on_max_attempts) m.

Definition notify_pinned_deployment (deployment : PinnedDeployment) (has_changed : bool)
    (m : InvocationStateMachine) : option InvocationStateMachine :=
  let! _ := debug_assert match ism_state m with
                         | InFlight fl => bool_decide (fl_using_deployment fl = None)
                         | _ => false
                         end in
  Some (update_flight (λ fl,
    mkFlight (fl_notifications_tx fl) (fl_journal_tracker fl) (fl_abort_handle fl)
      (fl_command_acks_to_propagate fl) (fl_run_completion_proposals_to_ack fl)
      (Some deployment) has_changed) m).

Definition pinned_deployment_to_notify (m : InvocationStateMachine)
  : option (InvocationStateMachine * option PinnedDeployment) :=
  let! _ := debug_assert (is_in_flight m) in
  match ism_state m with
  | InFlight fl =>
      match fl_should_notify_pinned_deployment fl, fl_using_deployment fl with
      | true, Some pd =>
          Some (set_state (InFlight
                  (mkFlight (fl_notifications_tx fl) (fl_journal_tracker fl) (fl_abort_handle fl)
                     (fl_command_acks_to_propagate fl) (fl_run_completion_proposals_to_ack fl)
                     (fl_using_deployment fl) false)) m, Some pd)
      | _, _ => Some (m, None)
      end
  | _ => Some (m, None)
  end.

Definition notify_new_command (command_index : Z) (requested_ack : bool)
    (m : InvocationStateMachine) : option InvocationStateMachine :=
  let! _ := debug_assert (is_in_flight m) in
  let m := set_event None (set_count 0 m) in
  Some (update_flight (λ fl,
    mkFlight (fl_notifications_tx fl)
      (notify_command_sent_to_partition_processor command_index (fl_journal_tracker fl))
      (fl_abort_handle fl)
      (if requested_ack then {[command_index]} ∪ fl_command_acks_to_propagate fl
       else fl_command_acks_to_propagate fl)
      (fl_run_completion_proposals_to_ack fl) (fl_using_deployment fl)
      (fl_should_notify_pinned_deployment fl)) m).

Definition notify_new_notification_proposal (ty : NotificationType) (id : NotificationId)
    (requested_ack : bool) (m : InvocationStateMachine) : option InvocationStateMachine :=
  let! _ := debug_assert (is_in_flight m) in
  let! _ := debug_assert (bool_decide (ty = NtCompletion CpRun)) in
  let! completion_id := match id with NCompletionId c => Some c | _ => None end in
  Some (update_flight (λ fl,
    let acks :=
      match fl_using_deployment fl with
      | Some pd =>
          if requested_ack && (V7 <=? pd_service_protocol_version pd)
          then {[completion_id]} ∪ fl_run_completion_proposals_to_ack fl
          else fl_run_completion_proposals_to_ack fl
      | None => fl_run_completion_proposals_to_ack fl
      end in
    mkFlight (fl_notifications_tx fl)
      (notify_notification_proposed_to_partition_processor id (fl_journal_tracker fl))
      (fl_abort_handle fl) (fl_command_acks_to_propagate fl) acks (fl_using_deployment fl)
      (fl_should_notify_pinned_deployment fl)) m).

(** What was sent: the channel and the message. *)
Abbreviation Sent := (list (nat * Notification)).

Definition try_send_notification (alive : nat → bool) (tx : option nat) (n : Notification)
  : option nat * Sent :=
  match tx with
  | Some c => if alive c then (Some c, [(c, n)]) else (None, [])
  | None => (None, [])
  end.

Definition notify_stored_ack (alive : nat → bool) (command_index : Z)
    (m : InvocationStateMachine) : InvocationStateMachine * Sent :=
  match ism_state m with
  | InFlight fl =>
      let '(tx, acks, sent) :=
        if bool_decide (command_index ∈ fl_command_acks_to_propagate fl)
        then
          let '(tx, sent) :=
            try_send_notification alive (fl_notifications_tx fl) (NfCommandAck command_index) in
          (tx, fl_command_acks_to_propagate fl ∖ {[command_index]}, sent)
        else (fl_notifications_tx fl, fl_command_acks_to_propagate fl, []) in
      (set_state (InFlight
         (mkFlight tx
            (notify_acked_command_from_partition_processor command_index (fl_journal_tracker fl))
            (fl_abort_handle fl) acks (fl_run_completion_proposals_to_ack fl)
            (fl_using_deployment fl) (fl_should_notify_pinned_deployment fl))) m, sent)
  | WaitingRetry fired t k =>
      (set_state (WaitingRetry fired
         (notify_acked_command_from_partition_processor command_index t) k) m, [])
  | New => (m, [])
  end.

Definition notify_entry (alive : nat → bool) (entry_index : Z) (id : NotificationId)
    (m : InvocationStateMachine) : InvocationStateMachine * Sent :=
  match ism_state m with
  | InFlight fl =>
      let '(to_send, acks) :=
        match id with
        | NCompletionId c =>
            if bool_decide (c ∈ fl_run_completion_proposals_to_ack fl)
            then (NfProposeRunCompletionAck c, fl_run_completion_proposals_to_ack fl ∖ {[c]})
            else (NfEntry entry_index, fl_run_completion_proposals_to_ack fl)
        | _ => (NfEntry entry_index, fl_run_completion_proposals_to_ack fl)
        end in
      let '(tx, sent) := try_send_notification alive (fl_notifications_tx fl) to_send in
      (set_state (InFlight
         (mkFlight tx
            (notify_acked_notification_from_partition_processor id (fl_journal_tracker fl))
            (fl_abort_handle fl) (fl_command_acks_to_propagate fl) acks
            (fl_using_deployment fl) (fl_should_notify_pinned_deployment fl))) m, sent)
  | WaitingRetry fired t k =>
      (set_state (WaitingRetry fired
         (notify_acked_notification_from_partition_processor id t) k) m, [])
  | New => (m, [])
  end.

Definition notify_retry_timer_fired (fired_key : Z) (m : InvocationStateMachine)
  : InvocationStateMachine :=
  match ism_state m with
  | WaitingRetry fired t k =>
      if k =? fired_key then set_state (WaitingRetry true t k) m else m
  | _ => m
  end.

Definition take_retry_timer_key (m : InvocationStateMachine) : option Z :=
  match ism_state m with WaitingRetry _ _ k => Some k | _ => None end.

Inductive OnTaskError :=
| RetryViaScheduler (retry_after : Duration) (retry_attempts : Z)
    (retry_count_since_last_stored_command : Z)
| Retrying (d : Duration)
| OtePause
| OteFail.

Section handle_task_error.
Context {Q : Type} (register_timer : Duration → Q → Z * Q).

(** [self.retry_policy_state.retry_iter.next()] *)
Definition next_retry (rnd : Z) (m : InvocationStateMachine)
  : option (InvocationStateMachine * option Duration) :=
  let rps := ism_retry_policy_state m in
  let! r := next rnd (rps_retry_iter rps) in
  Some (set_rps (mkRps (rps_selected_from_deployment_id rps) r.1 (rps_on_max_attempts rps)) m, r.2).

(** [q] is the timer queue that [register_timer] changes. *)
Definition handle_task_error (rnd yield_threshold : Z) (error_is_transient : bool)
    (behavior : RequestedErrorBehavior) (should_bump : bool) (m : InvocationStateMachine) (q : Q)
  : option (InvocationStateMachine * Q * OnTaskError) :=
  if ism_requested_pause m then Some (m, q, OtePause)
  else
    let! tracker :=
      match ism_state m with
      | InFlight fl => Some (Some (fl_journal_tracker fl))
      | New => Some None
      | WaitingRetry timer_fired t _ => if timer_fired then Some (Some t) else None
      end in
    match behavior with
    | BehaviorPause => Some (m, q, OtePause)
    | BehaviorFail => Some (m, q, OteFail)
    | BehaviorRetry | RetryWithIntervalOverride _ =>
        let! r :=
          if error_is_transient then
            match behavior with
            | RetryWithIntervalOverride interval => Some (m, Some interval)
            | _ => next_retry rnd m
            end
          else Some (m, None) in
        match r with
        | (m, Some next_timer) =>
            let m :=
              if should_bump then set_count (as_u32 (ism_start_message_retry_count m + 1)) m
              else m in
            if yield_threshold <=? next_timer then
              Some (m, q, RetryViaScheduler next_timer (Z.min (retry_attempts m) u32_max)
                            (ism_start_message_retry_count m))
            else
              let '(retry_timer_key, q) := register_timer next_timer q in
              Some (set_state (WaitingRetry false (default tracker_default tracker)
                                 retry_timer_key) m, q, Retrying next_timer)
        | (m, None) =>
            Some (m, q, match rps_on_max_attempts (ism_retry_policy_state m) with
                        | OmaPause => OtePause
                        | OmaKill => OteFail
                        end)
        end
    end.
End handle_task_error.

Definition is_ready_to_retry (m : InvocationStateMachine) : bool :=
  match ism_state m with
  | WaitingRetry timer_fired t _ => timer_fired && can_retry t
  | _ => false
  end.

Definition attempt_deployment_id (m : InvocationStateMachine) : option Z :=
  match ism_state m with
  | InFlight fl => pd_deployment_id <$> fl_using_deployment fl
  | _ => None
  end.

(** [true] when the invocation can be paused now. *)
Definition notify_pause (m : InvocationStateMachine) : InvocationStateMachine * bool :=
  let m := set_pause true m in
  match ism_state m with
  | InFlight fl =>
      (set_state (InFlight
         (mkFlight None (fl_journal_tracker fl) (fl_abort_handle fl)
            (fl_command_acks_to_propagate fl) (fl_run_completion_proposals_to_ack fl)
            (fl_using_deployment fl) (fl_should_notify_pinned_deployment fl))) m, false)
  | _ => (m, true)
  end.

Definition same_error (a b : TransientErrorEvent) : bool :=
  (te_error_code a =? te_error_code b)
  && bool_decide (te_error_message a = te_error_message b)
  && bool_decide (te_related_command_index a = te_related_command_index b)
  && bool_decide (te_related_command_type a = te_related_command_type b)
  && bool_decide (te_related_command_name a = te_related_command_name b).

Definition should_emit_transient_error_event (new_error_event : TransientErrorEvent)
    (m : InvocationStateMachine) : InvocationStateMachine * bool :=
  match ism_last_transient_error_event m with
  | None => (set_event (Some new_error_event) m, true)
  | Some old_error_event =>
      let should_emit := negb (same_error old_error_event new_error_event) in
      (if should_emit then set_event (Some new_error_event) m else m, should_emit)
  end.
