(* ===== verification/Invoker.v ===== *)
(** * Invoker: the service that runs invocation attempts

    Models crates/invoker-impl/src/lib.rs ([ServiceInner], its event handlers
    and [step]), state_machine_manager.rs and status_store.rs, the effects of
    crates/worker-api/src/invoker/effects.rs, and what a task may send
    (invocation_task/mod.rs).

    A handler is a function from the service state to the new state and the
    list of what it does to the outside: effects for the partition processor,
    tasks started and aborted, notifications to tasks.  [None] is a panic.
    What a handler reads from outside (clock, random numbers, configuration,
    schemas, liveness of the receivers) is an [Env].  Logging and metrics are
    left out.  The retry timers are a [DelayQueue] of the tokio_util package:
    the class states what the service uses of it. *)

From stdpp Require Import strings.
From S2P Require Import Prelude Clock Retries InvokerError UnresolvedFuture.
From S2P Require Import InvocationStateMachine.

Open Scope Z_scope.

(** ** Timers

    [dq_items] are the pending timers: a key and the value given on insertion. *)
Class DelayQueue (Q : Type) := {
  dq_empty : Q;
  dq_insert : Z → Duration → Q → Z * Q;
  dq_try_remove : Z → Q → Q;
  dq_items : Q → gmap Z Z;
}.

Class DelayQueueLaws (Q : Type) `{DelayQueue Q} := {
  dq_empty_items : dq_items dq_empty = ∅;
  dq_insert_fresh v d q k q' : dq_insert v d q = (k, q') → dq_items q !! k = None;
  dq_insert_items v d q k q' : dq_insert v d q = (k, q') → dq_items q' = <[k := v]> (dq_items q);
  dq_try_remove_items k q : dq_items (dq_try_remove k q) = delete k (dq_items q);
}.

(** ** Effects *)

Record RawNotification := mkRawNotification {
  rn_ty : NotificationType;
  rn_id : NotificationId;
  rn_payload : string;
}.
Record RawCommand := mkRawCommand { rc_ty : CommandType; rc_payload : string }.
Inductive RawEntry := ReCommand (c : RawCommand) | ReNotification (n : RawNotification).

Inductive YieldReason :=
| PartitionLeaderChange
| ExhaustedMemoryBudget (needed_memory : Z)
| YieldTransientError (retry_attempts retry_count_since_last_stored_command : Z)
| InvokerLoadShedding
| YieldUnknown.

Inductive EffectKind :=
| EkPinnedDeployment (pd : PinnedDeployment)
| EkJournalEntry (entry_index : Z) (entry : string)
| EkSuspended (waiting_for_completed_entries : gset Z)
| EkJournalEntryV2 (entry : string) (command_index_to_ack : option Z)
| EkJournalEvent (event : TransientErrorEvent)
| EkSuspendedV2 (waiting_for_notifications : gset NotificationId)
| EkSuspendedV3 (awaiting_on : UnresolvedFuture)
| EkPaused (last_failure : option TransientErrorEvent)
| EkYield (reason : YieldReason) (error_event : option TransientErrorEvent) (resume_at : option Z)
| EkEnd
| EkFailed (e : InvocationError)
| EkJournalEntryV2RawEntry (command_index_to_ack : option Z) (raw_entry : RawEntry).

Definition journal_entry (raw_entry : RawEntry) (command_index_to_ack : option Z) : EffectKind :=
  EkJournalEntryV2RawEntry command_index_to_ack raw_entry.

Definition is_terminal (k : EffectKind) : bool :=
  match k with
  | EkSuspended _ | EkSuspendedV2 _ | EkSuspendedV3 _ | EkPaused _ | EkYield _ _ _ | EkEnd
  | EkFailed _ => true
  | EkPinnedDeployment _ | EkJournalEntry _ _ | EkJournalEntryV2 _ _ | EkJournalEvent _
  | EkJournalEntryV2RawEntry _ _ => false
  end.

Record FencedEffect := mkFenced {
  fe_fencing_token : Z;
  fe_invocation_id : Z;
  fe_kind : EffectKind;
}.
Definition fence (token : Z) (id : Z) (kind : EffectKind) : FencedEffect := mkFenced token id kind.

(** What the service does to its surroundings. *)
Inductive ServiceAction :=
| AEffect (e : FencedEffect)
| ASpawn (task : nat) (id token retry_count : Z) (budget : LocalMemoryPool)
| AAbort (task : nat)
| ASend (chan : nat) (n : Notification).

(** ** Messages *)

Record VQueueInvokeCommand := mkInvoke {
  iv_qid : string;
  iv_permit : ReservedResources;
  iv_invocation_id : Z;
  iv_fencing_token : Z;
  iv_invocation_target : string;
  iv_limit_key : string;
  iv_idempotency_key : option string;
}.

Inductive TaskOutputInner :=
| ToPinnedDeployment (pd : PinnedDeployment) (has_changed : bool)
| ToServerHeaderReceived (h : string)
| ToNewCommand (command_index : Z) (command : RawCommand) (requested_ack : bool)
| ToNewNotificationProposal (notification : RawNotification) (requested_ack : bool)
| ToAwaitingOn (f : UnresolvedFuture)
| ToClosed
| ToSuspendedV2 (ns : gset NotificationId)
| ToSuspendedV3 (f : UnresolvedFuture)
| ToFailed (e : InvokerError) (budget : LocalMemoryPool)
| ToShouldYield (oom : InvocationMemoryExhausted) (budget : LocalMemoryPool).

Inductive Event :=
| EvInvoke (c : VQueueInvokeCommand)
| EvNotification (id entry_index : Z) (n : NotificationId)
| EvStoredCommandAck (id command_index : Z)
| EvAbort (id : Z)
| EvPause (id : Z)
| EvAbortAll
| EvTask (id token : Z) (o : TaskOutputInner)
| EvTimer (key : Z).

Record Env := mkEnv {
  env_rnd : Z;
  (** nanoseconds since the Unix epoch *)
  env_now : Z;
  env_alive : nat → bool;
  env_resolver : Resolver;
  env_yield_threshold : Duration;
  env_per_invocation_memory_limit : Z;
}.

(** ** The status store *)

Record StatusReport := mkStatus {
  st_in_flight : bool;
  st_start_count : Z;
  st_last_start_at : Z;
  st_last_retry_attempt_failure : option InvocationErrorReport;
  st_last_awaiting_on : option UnresolvedFuture;
  st_next_retry_at : option Z;
  st_last_attempt_deployment_id : option Z;
  st_last_attempt_protocol_version : option Z;
  st_last_attempt_server : option string;
}.
Definition status_default (now : Z) : StatusReport :=
  mkStatus false 0 now None None None None None None.

Abbreviation StatusStore := (gmap Z StatusReport).

Definition on_start (now id : Z) (s : StatusStore) : StatusStore :=
  let r := default (status_default now) (s !! id) in
  <[id := mkStatus true (as_u64 (st_start_count r + 1)) now (st_last_retry_attempt_failure r)
            (st_last_awaiting_on r) None (st_last_attempt_deployment_id r)
            (st_last_attempt_protocol_version r) (st_last_attempt_server r)]> s.
Definition on_progress_made (id : Z) (s : StatusStore) : StatusStore :=
  alter (λ r, mkStatus (st_in_flight r) (st_start_count r) (st_last_start_at r) None None
                (st_next_retry_at r) (st_last_attempt_deployment_id r)
                (st_last_attempt_protocol_version r) (st_last_attempt_server r)) id s.
Definition on_deployment_chosen (id dp version : Z) (s : StatusStore) : StatusStore :=
  alter (λ r, mkStatus (st_in_flight r) (st_start_count r) (st_last_start_at r)
                (st_last_retry_attempt_failure r) (st_last_awaiting_on r) (st_next_retry_at r)
                (Some dp) (Some version) (st_last_attempt_server r)) id s.
Definition on_server_header_receiver (id : Z) (h : string) (s : StatusStore) : StatusStore :=
  alter (λ r, mkStatus (st_in_flight r) (st_start_count r) (st_last_start_at r)
                (st_last_retry_attempt_failure r) (st_last_awaiting_on r) (st_next_retry_at r)
                (st_last_attempt_deployment_id r) (st_last_attempt_protocol_version r)
                (Some h)) id s.
Definition on_awaiting_on (id : Z) (f : UnresolvedFuture) (s : StatusStore) : StatusStore :=
  alter (λ r, mkStatus (st_in_flight r) (st_start_count r) (st_last_start_at r)
                (st_last_retry_attempt_failure r) (Some f) (st_next_retry_at r)
                (st_last_attempt_deployment_id r) (st_last_attempt_protocol_version r)
                (st_last_attempt_server r)) id s.
Definition on_end (id : Z) (s : StatusStore) : StatusStore := delete id s.
Definition on_failure (now id : Z) (reason : InvocationErrorReport) (next_retry_at : option Z)
    (s : StatusStore) : StatusStore :=
  let r := default (status_default now) (s !! id) in
  <[id := mkStatus false (st_start_count r) (st_last_start_at r) (Some reason)
            (st_last_awaiting_on r) next_retry_at (st_last_attempt_deployment_id r)
            (st_last_attempt_protocol_version r) (st_last_attempt_server r)]> s.

(** ** Time *)

(** [MillisSinceEpoch::now() + retry_after] *)
Definition millis_add (millis : Z) (d : Duration) : Z :=
  let ms := d / 1000000 in
  saturating_add u64_max millis (if ms <=? u64_max then ms else u64_max).

(** [RoughTimestamp::from_unix_millis_ceil], as seconds since the Restate epoch. *)
Definition from_unix_millis_ceil (ms : Z) : Z :=
  let unix_secs := ms / 1000 in
  let rounded := if ms mod 1000 =? 0 then unix_secs else as_u64 (unix_secs + 1) in
  let since_restate_epoch := saturating_sub rounded (RESTATE_EPOCH / 1000) in
  let clamped := if u32_max <? since_restate_epoch then u32_max else since_restate_epoch in
  saturating_add u32_max clamped 1 - 1.

(** ** The service *)

Record Service (Q : Type) := mkService {
  sv_isms : gmap Z InvocationStateMachine;
  sv_status : StatusStore;
  sv_timers : Q;
  (** the number of tasks started so far: the name of the next task *)
  sv_next_task : nat;
}.
Arguments mkService {Q} _ _ _ _.
Arguments sv_isms {Q} _.
Arguments sv_status {Q} _.
Arguments sv_timers {Q} _.
Arguments sv_next_task {Q} _.

Section service.
Context {Q : Type} `{DelayQueue Q} `{ErrorText}.
Implicit Types (s : Service Q) (e : Env) (m : InvocationStateMachine) (id token : Z).

Definition Handled : Type := option (Service Q * list ServiceAction).

Definition service_init : Service Q := mkService ∅ ∅ dq_empty 0.

Definition set_isms isms s := mkService isms (sv_status s) (sv_timers s) (sv_next_task s).
Definition map_status (f : StatusStore → StatusStore) s :=
  mkService (sv_isms s) (f (sv_status s)) (sv_timers s) (sv_next_task s).
Definition map_timers (f : Q → Q) s :=
  mkService (sv_isms s) (sv_status s) (f (sv_timers s)) (sv_next_task s).

(** [InvocationStateMachineManager]. *)
Definition register_invocation id m s : Service Q := set_isms (<[id := m]> (sv_isms s)) s.
Definition remove_invocation id s : option (InvocationStateMachine * Service Q) :=
  let! m := sv_isms s !! id in Some (m, set_isms (delete id (sv_isms s)) s).
Definition is_stale_fencing_token id token s : bool :=
  match sv_isms s !! id with
  | Some m => negb (ism_fencing_token m =? token)
  | None => false
  end.

(** [if let Some(timer_key) = ism.take_retry_timer_key() { retry_timers.try_remove(..) }] *)
Definition cancel_timer m s : Service Q :=
  match take_retry_timer_key m with
  | Some k => map_timers (dq_try_remove k) s
  | None => s
  end.

Definition abort_action m : list ServiceAction :=
  match abort m with Some t => [AAbort t] | None => [] end.

Definition create_outbound_budget e (initial_memory_lease : Z) : LocalMemoryPool :=
  mkPool initial_memory_lease initial_memory_lease (env_per_invocation_memory_limit e) 0.

Definition start_invocation_task e id m (budget : LocalMemoryPool) s : Handled :=
  let '(s, aborts) :=
    match remove_invocation id s with
    | Some (old, s) => (cancel_timer old s, abort_action old)
    | None => (s, [])
    end in
  let task := sv_next_task s in
  let s := mkService (sv_isms s) (on_start (env_now e) id (sv_status s)) (sv_timers s) (S task) in
  let! m' := start task task m in
  Some (register_invocation id m' s,
        aborts ++ [ASpawn task id (ism_fencing_token m) (ism_start_message_retry_count m) budget]).

Definition handle_vqueue_invoke e (c : VQueueInvokeCommand) s : Handled :=
  let '(retry_iter, on_max_attempts) := env_resolver e None (iv_invocation_target c) in
  let retry_iter := fast_forward (rr_retry_attempts (iv_permit c)) retry_iter in
  let budget := create_outbound_budget e (rr_memory_lease (iv_permit c)) in
  let permit :=
    mkResources (rr_retry_attempts (iv_permit c))
      (rr_retry_count_since_last_stored_command (iv_permit c)) 0 in
  start_invocation_task e (iv_invocation_id c)
    (create (iv_qid c) permit (iv_fencing_token c) (iv_invocation_target c) (iv_limit_key c)
       (iv_idempotency_key c) retry_iter on_max_attempts) budget s.

Definition sends (l : Sent) : list ServiceAction := (λ x, ASend x.1 x.2) <$> l.

Definition handle_retry_event e id (f : InvocationStateMachine → InvocationStateMachine * Sent) s
  : Handled :=
  match remove_invocation id s with
  | Some (m, s) =>
      let '(m, sent) := f m in
      if is_ready_to_retry m then
        let! budget := ism_budget m in
        let! r := start_invocation_task e id (set_budget None m) budget s in
        Some (r.1, sends sent ++ r.2)
      else Some (register_invocation id m s, sends sent)
  | None => Some (s, [])
  end.

Definition handle_retry_timer_fired e id (key : Z) s : Handled :=
  handle_retry_event e id (λ m, (notify_retry_timer_fired key m, [])) s.
Definition handle_stored_command_ack e id (command_index : Z) s : Handled :=
  handle_retry_event e id (notify_stored_ack (env_alive e) command_index) s.
Definition handle_notification e id (entry_index : Z) (n : NotificationId) s : Handled :=
  handle_retry_event e id (notify_entry (env_alive e) entry_index n) s.

(** [handle_for_invocation]: an update in place. *)
Definition handle_for_invocation id (f : InvocationStateMachine → option InvocationStateMachine)
    (st : StatusStore → StatusStore) s : Handled :=
  match sv_isms s !! id with
  | Some m => let! m' := f m in Some (map_status st (register_invocation id m' s), [])
  | None => Some (s, [])
  end.

Definition handle_pinned_deployment e id (pd : PinnedDeployment) (has_changed : bool) s : Handled :=
  handle_for_invocation id
    (λ m, notify_pinned_deployment pd has_changed
            (update_retry_policy_if_needed (pd_deployment_id pd) (env_resolver e) m))
    (on_deployment_chosen id (pd_deployment_id pd) (pd_service_protocol_version pd)) s.

Definition handle_server_header_received id (h : string) s : Handled :=
  handle_for_invocation id Some (on_server_header_receiver id h) s.

Definition handle_awaiting_on id (f : UnresolvedFuture) s : Handled :=
  handle_for_invocation id Some (on_awaiting_on id f) s.

(** A new entry: the pinned deployment goes first when it has to be notified. *)
Definition emit_entry id m (kind : EffectKind) s : Handled :=
  let! r := pinned_deployment_to_notify m in
  let '(m, pd) := r in
  Some (map_status (on_progress_made id) (register_invocation id m s),
        match pd with
        | Some pd => [AEffect (fence (ism_fencing_token m) id (EkPinnedDeployment pd))]
        | None => []
        end ++ [AEffect (fence (ism_fencing_token m) id kind)]).

Definition handle_new_notification_proposal id (n : RawNotification) (requested_ack : bool) s
  : Handled :=
  match sv_isms s !! id with
  | Some m =>
      let! m := notify_new_notification_proposal (rn_ty n) (rn_id n) requested_ack m in
      emit_entry id m (journal_entry (ReNotification n) None) s
  | None => Some (s, [])
  end.

Definition handle_new_command id (command_index : Z) (c : RawCommand) (requested_ack : bool) s
  : Handled :=
  match sv_isms s !! id with
  | Some m =>
      let! m := notify_new_command command_index requested_ack m in
      emit_entry id m (journal_entry (ReCommand c) (Some command_index)) s
  | None => Some (s, [])
  end.

(** The attempt ended: the state machine is gone and one effect says why. *)
Definition end_attempt id (kind : InvocationStateMachine → EffectKind) s : Handled :=
  match remove_invocation id s with
  | Some (m, s) =>
      Some (map_status (on_end id) s, [AEffect (fence (ism_fencing_token m) id (kind m))])
  | None => Some (s, [])
  end.

Definition handle_invocation_task_closed id s : Handled := end_attempt id (λ _, EkEnd) s.

Definition handle_invocation_task_suspended_v2 id (ns : gset NotificationId) s : Handled :=
  end_attempt id (λ m, if ism_requested_pause m then EkPaused None else EkSuspendedV2 ns) s.

Definition handle_invocation_task_suspended_v3 id (f : UnresolvedFuture) s : Handled :=
  end_attempt id (λ m, if ism_requested_pause m then EkPaused None else EkSuspendedV3 f) s.

Definition handle_error_event e id (error : InvokerError) m s : Handled :=
  let! r :=
    handle_task_error (dq_insert id) (env_rnd e) (env_yield_threshold e)
      (is_transient error) (requested_error_behavior error)
      (should_bump_start_message_retry_count_since_last_stored_entry error) m (sv_timers s) in
  let '(m, timers, result) := r in
  let s := map_timers (λ _, timers) s in
  let event := transient_error_event error in
  match result with
  | Retrying next_retry_timer_duration =>
      let '(m, emit) := should_emit_transient_error_event event m in
      Some (register_invocation id m
              (map_status (on_failure (env_now e) id (into_invocation_error_report error)
                             (Some (env_now e + next_retry_timer_duration))) s),
            if emit then [AEffect (fence (ism_fencing_token m) id (EkJournalEvent event))] else [])
  | RetryViaScheduler retry_after attempts count =>
      let '(m, emit) := should_emit_transient_error_event event m in
      Some (map_status (on_end id) s,
            [AEffect (fence (ism_fencing_token m) id
               (EkYield (YieldTransientError attempts count) (if emit then Some event else None)
                  (Some (from_unix_millis_ceil
                           (millis_add (env_now e / 1000000) retry_after)))))])
  | OtePause =>
      Some (map_status (on_end id) s,
            [AEffect (fence (ism_fencing_token m) id (EkPaused (Some event)))])
  | OteFail =>
      Some (map_status (on_end id) s,
            [AEffect (fence (ism_fencing_token m) id (EkFailed (into_invocation_error error)))])
  end.

Definition handle_invocation_task_failed e id (error : InvokerError)
    (returned_budget : LocalMemoryPool) s : Handled :=
  match remove_invocation id s with
  | Some (m, s) => handle_error_event e id error (set_budget (Some returned_budget) m) s
  | None => Some (s, [])
  end.

Definition handle_invocation_task_should_yield e id (oom : InvocationMemoryExhausted)
    (budget : LocalMemoryPool) s : Handled :=
  match remove_invocation id s with
  | Some (m, s) =>
      match oom_kind oom with
      | UpperBoundExceeded =>
          handle_error_event e id (OutOfMemory oom)
            (set_budget (Some (release_excess budget)) m) s
      | PoolExhausted =>
          Some (map_status (on_end id) s,
                abort_action m ++
                [AEffect (fence (ism_fencing_token m) id
                   (EkYield (ExhaustedMemoryBudget (oom_needed oom)) None None))])
      end
  | None => Some (s, [])
  end.

Definition handle_abort_invocation id s : Handled :=
  match remove_invocation id s with
  | Some (m, s) => Some (map_status (on_end id) (cancel_timer m s), abort_action m)
  | None => Some (s, [])
  end.

Definition handle_pause_invocation id s : Handled :=
  match remove_invocation id s with
  | Some (m, s) =>
      let s := cancel_timer m s in
      let '(m, now) := notify_pause m in
      if now
      then Some (s, [AEffect (fence (ism_fencing_token m) id
                       (EkPaused (ism_last_transient_error_event m)))])
      else Some (register_invocation id m s, [])
  | None => Some (s, [])
  end.

(** The loop over the drained map. *)
Fixpoint abort_loop (l : list (Z * InvocationStateMachine)) s : Service Q * list ServiceAction :=
  match l with
  | [] => (s, [])
  | (id, m) :: l =>
      let '(s, acts) := abort_loop l (map_status (on_end id) (cancel_timer m s)) in
      (s, abort_action m ++ acts)
  end.

Definition handle_abort_all s : Handled :=
  Some (abort_loop (map_to_list (sv_isms s)) (set_isms ∅ s)).

Definition handle_task_output e id (o : TaskOutputInner) s : Handled :=
  match o with
  | ToPinnedDeployment pd has_changed => handle_pinned_deployment e id pd has_changed s
  | ToServerHeaderReceived h => handle_server_header_received id h s
  | ToNewNotificationProposal n requested_ack =>
      handle_new_notification_proposal id n requested_ack s
  | ToAwaitingOn f => handle_awaiting_on id f s
  | ToClosed => handle_invocation_task_closed id s
  | ToFailed error budget => handle_invocation_task_failed e id error budget s
  | ToNewCommand command_index c requested_ack =>
      handle_new_command id command_index c requested_ack s
  | ToSuspendedV2 ns => handle_invocation_task_suspended_v2 id ns s
  | ToSuspendedV3 f => handle_invocation_task_suspended_v3 id f s
  | ToShouldYield oom budget => handle_invocation_task_should_yield e id oom budget s
  end.

(** One turn of the service's event loop. *)
Definition step e (ev : Event) s : Handled :=
  match ev with
  | EvInvoke c => handle_vqueue_invoke e c s
  | EvAbort id => handle_abort_invocation id s
  | EvPause id => handle_pause_invocation id s
  | EvAbortAll => handle_abort_all s
  | EvNotification id entry_index n => handle_notification e id entry_index n s
  | EvStoredCommandAck id command_index => handle_stored_command_ack e id command_index s
  | EvTask id token o =>
      if is_stale_fencing_token id token s then Some (s, []) else handle_task_output e id o s
  | EvTimer key =>
      (* an expired timer is taken out of the queue *)
      match dq_items (sv_timers s) !! key with
      | Some id => handle_retry_timer_fired e id key (map_timers (dq_try_remove key) s)
      | None => Some (s, [])
      end
  end.
End service.
