(* ===== verification/InvokerSystem.v ===== *)
(** * InvokerSystem: the invoker together with its tasks

    The service of [Invoker] composed with the tasks it starts and with the
    partition processor that sends it commands, as a step relation over what
    can happen in any order.  [moved] says what one turn of the service does to
    one invocation; the invariants are proved from it. *)

From stdpp Require Import strings.
From S2P Require Import Prelude Retries InvokerError UnresolvedFuture InvocationStateMachine.
From S2P Require Import Invoker.

Open Scope Z_scope.

(** ** The service and its tasks

    A task is what it will still send, in order: messages of different tasks
    interleave freely in the channel, those of one task do not.  An aborted
    task may still send.  [sy_tokens] are the pairs of invocation and fencing
    token that were used, [sy_log] everything the service did, and [sy_acked]
    and [sy_acked_notifications] the acknowledgements that reached a state
    machine, with its token. *)

Record Task := mkTask {
  tk_id : Z;
  tk_token : Z;
  tk_outputs : list TaskOutputInner;
}.

Definition ends_task (o : TaskOutputInner) : bool :=
  match o with
  | ToClosed | ToSuspendedV2 _ | ToSuspendedV3 _ | ToFailed _ _ | ToShouldYield _ _ => true
  | _ => false
  end.

(** What a task sends: its deployment at most once ([pinned] when it has been
    sent), run completions as proposals, and nothing after a final message. *)
Fixpoint conforming (pinned : bool) (l : list TaskOutputInner) : bool :=
  match l with
  | [] => true
  | o :: l =>
      if ends_task o then match l with [] => true | _ => false end
      else
        match o with
        | ToPinnedDeployment _ _ => negb pinned && conforming true l
        | ToNewNotificationProposal n _ =>
            bool_decide (rn_ty n = NtCompletion CpRun)
            && match rn_id n with NCompletionId _ => true | _ => false end
            && conforming pinned l
        | _ => conforming pinned l
        end
  end.

Record Sys (Q : Type) := mkSys {
  sy_service : Service Q;
  sy_tasks : gmap nat Task;
  sy_tokens : gset (Z * Z);
  sy_log : list ServiceAction;
  sy_acked : gset (Z * Z * Z);
  sy_acked_notifications : gset (Z * Z * NotificationId);
}.
Arguments mkSys {Q} _ _ _ _ _ _.
Arguments sy_service {Q} _.
Arguments sy_tasks {Q} _.
Arguments sy_tokens {Q} _.
Arguments sy_log {Q} _.
Arguments sy_acked {Q} _.
Arguments sy_acked_notifications {Q} _.

Section system.
Context {Q : Type} `{DelayQueue Q} `{ErrorText}.
Implicit Types (s : Service Q) (y : Sys Q) (e : Env) (m : InvocationStateMachine) (ev : Event).

Definition sys_init : Sys Q := mkSys service_init ∅ ∅ [] ∅ ∅.

(** The events that can be delivered, with the tasks after taking a message. *)
Inductive delivered y : Event → gmap nat Task → Prop :=
| del_invoke c :
    (iv_invocation_id c, iv_fencing_token c) ∉ sy_tokens y →
    0 ≤ rr_retry_attempts (iv_permit c) →
    delivered y (EvInvoke c) (sy_tasks y)
| del_input ev :
    match ev with
    | EvInvoke _ | EvTask _ _ _ => False
    | EvTimer k => is_Some (dq_items (sv_timers (sy_service y)) !! k)
    | _ => True
    end →
    delivered y ev (sy_tasks y)
| del_output t tk o rest :
    sy_tasks y !! t = Some tk → tk_outputs tk = o :: rest →
    delivered y (EvTask (tk_id tk) (tk_token tk) o)
      (<[t := mkTask (tk_id tk) (tk_token tk) rest]> (sy_tasks y)).

Definition used_tokens ev : gset (Z * Z) :=
  match ev with EvInvoke c => {[(iv_invocation_id c, iv_fencing_token c)]} | _ => ∅ end.

Definition acks_of ev s : gset (Z * Z * Z) :=
  match ev with
  | EvStoredCommandAck id j =>
      match sv_isms s !! id with Some m => {[(id, ism_fencing_token m, j)]} | None => ∅ end
  | _ => ∅
  end.
Definition notification_acks_of ev s : gset (Z * Z * NotificationId) :=
  match ev with
  | EvNotification id _ n =>
      match sv_isms s !! id with Some m => {[(id, ism_fencing_token m, n)]} | None => ∅ end
  | _ => ∅
  end.

(** The tasks that were started, with what they will send. *)
Fixpoint spawn_tasks (outputs : nat → list TaskOutputInner) (acts : list ServiceAction)
    (tasks : gmap nat Task) : gmap nat Task :=
  match acts with
  | [] => tasks
  | ASpawn t id token _ _ :: acts =>
      spawn_tasks outputs acts (<[t := mkTask id token (outputs t)]> tasks)
  | _ :: acts => spawn_tasks outputs acts tasks
  end.

Inductive sys_step y : Sys Q → Prop :=
| sys_step_intro e ev tasks outputs s' acts :
    delivered y ev tasks → (∀ t, conforming false (outputs t) = true) →
    step e ev (sy_service y) = Some (s', acts) →
    sys_step y
      (mkSys s' (spawn_tasks outputs acts tasks) (used_tokens ev ∪ sy_tokens y)
         (sy_log y ++ acts) (acks_of ev (sy_service y) ∪ sy_acked y)
         (notification_acks_of ev (sy_service y) ∪ sy_acked_notifications y)).

(** ** The invariant *)

Definition pinned (fl : InFlightState) : bool :=
  match fl_using_deployment fl with Some _ => true | None => false end.

(** The messages still to come from the attempts with this token. *)
Definition to_come (tasks : gmap nat Task) (id token : Z) (P : nat → list TaskOutputInner → Prop) :=
  ∀ t tk, tasks !! t = Some tk → tk_id tk = id → tk_token tk = token →
    tk_outputs tk ≠ [] → P t (tk_outputs tk).

(** A registered state machine is in flight, and what still comes with its
    token comes from its own task and conforms; or it waits to retry with its
    budget put aside, and nothing comes any more. *)
Definition ism_ok (tokens : gset (Z * Z)) (tasks : gmap nat Task) (id : Z) m : Prop :=
  (id, ism_fencing_token m) ∈ tokens ∧
  match ism_state m with
  | New => False
  | InFlight fl =>
      to_come tasks id (ism_fencing_token m)
        (λ t l, t = fl_abort_handle fl ∧ conforming (pinned fl) l = true)
  | WaitingRetry _ _ _ =>
      is_Some (ism_budget m) ∧ to_come tasks id (ism_fencing_token m) (λ _ _, False)
  end.

Definition tasks_ok (tokens : gset (Z * Z)) (tasks : gmap nat Task) (next : nat) : Prop :=
  ∀ t tk, tasks !! t = Some tk → (t < next)%nat ∧ (tk_id tk, tk_token tk) ∈ tokens.

Definition inv (tokens : gset (Z * Z)) (tasks : gmap nat Task) s : Prop :=
  tasks_ok tokens tasks (sv_next_task s) ∧
  ∀ id m, sv_isms s !! id = Some m → ism_ok tokens tasks id m.

(** ** What a step does *)

Fixpoint effects (acts : list ServiceAction) : list FencedEffect :=
  match acts with
  | [] => []
  | AEffect x :: acts => x :: effects acts
  | _ :: acts => effects acts
  end.

Fixpoint spawns (acts : list ServiceAction) : list (nat * Z * Z) :=
  match acts with
  | [] => []
  | ASpawn t id token _ _ :: acts => (t, id, token) :: spawns acts
  | _ :: acts => spawns acts
  end.

Definition tracker_after ev (t : JournalTracker) : JournalTracker :=
  match ev with
  | EvStoredCommandAck _ j => notify_acked_command_from_partition_processor j t
  | EvNotification _ _ n => notify_acked_notification_from_partition_processor n t
  | EvTask _ _ (ToNewCommand i _ _) => notify_command_sent_to_partition_processor i t
  | EvTask _ _ (ToNewNotificationProposal n _) =>
      notify_notification_proposed_to_partition_processor (rn_id n) t
  | _ => t
  end.

(** The timers once the timer of the event has been taken out. *)
Definition expired ev (q : Q) : Q :=
  match ev with EvTimer k => dq_try_remove k q | _ => q end.

Definition cancelled m (q : Q) : Q :=
  match take_retry_timer_key m with Some k => dq_try_remove k q | None => q end.

(** The invocation an event is about. *)
Definition event_id ev s : option Z :=
  match ev with
  | EvInvoke c => Some (iv_invocation_id c)
  | EvNotification id _ _ | EvStoredCommandAck id _ | EvAbort id | EvPause id | EvTask id _ _ =>
      Some id
  | EvTimer k => dq_items (sv_timers s) !! k
  | EvAbortAll => None
  end.

(** The effects of a message that does not end the attempt. *)
Definition entry_effects ev (id token : Z) (l : list FencedEffect) : Prop :=
  ∀ x, x ∈ l → fe_invocation_id x = id ∧ fe_fencing_token x = token ∧
    is_terminal (fe_kind x) = false ∧
    match fe_kind x with
    | EkJournalEntryV2RawEntry (Some i) _ => ∃ c a, ev = EvTask id token (ToNewCommand i c a)
    | EkJournalEntryV2RawEntry None (ReNotification n) =>
        ∃ a, ev = EvTask id token (ToNewNotificationProposal n a)
    | _ => True
    end.

Inductive moved ev s s' (acts : list ServiceAction) : Prop :=
| mv_idle :
    sv_isms s' = sv_isms s → sv_next_task s' = sv_next_task s →
    sv_timers s' = expired ev (sv_timers s) →
    (∀ id m, event_id ev s = Some id → sv_isms s !! id = Some m →
       ∃ token o, ev = EvTask id token o ∧ token ≠ ism_fencing_token m) →
    effects acts = [] → spawns acts = [] →
    moved ev s s' acts
| mv_keep id m m' :
    event_id ev s = Some id → sv_isms s !! id = Some m →
    sv_isms s' = <[id := m']> (sv_isms s) → sv_next_task s' = sv_next_task s →
    ism_fencing_token m' = ism_fencing_token m →
    (∀ token o, ev = EvTask id token o → token = ism_fencing_token m) →
    entry_effects ev id (ism_fencing_token m) (effects acts) → spawns acts = [] →
    match ism_state m, ism_state m' with
    | InFlight fl, InFlight fl' =>
        fl_abort_handle fl' = fl_abort_handle fl ∧
        fl_journal_tracker fl' = tracker_after ev (fl_journal_tracker fl) ∧
        sv_timers s' = expired ev (sv_timers s) ∧
        (∀ token o, ev = EvTask id token o → ends_task o = false) ∧
        pinned fl' = match ev with EvTask _ _ (ToPinnedDeployment _ _) => true | _ => pinned fl end
    | InFlight fl, WaitingRetry fired t k =>
        fired = false ∧ t = fl_journal_tracker fl ∧ is_Some (ism_budget m') ∧
        (∃ token o, ev = EvTask id token o ∧ ends_task o = true) ∧
        ∃ d, dq_insert id d (sv_timers s) = (k, sv_timers s')
    | WaitingRetry fired t k, WaitingRetry fired' t' k' =>
        k' = k ∧ t' = tracker_after ev t ∧ ism_budget m' = ism_budget m ∧
        sv_timers s' = expired ev (sv_timers s) ∧
        fired' = match ev with EvTimer k0 => if k =? k0 then true else fired | _ => fired end ∧
        (∀ token o, ev ≠ EvTask id token o)
    | _, _ => False
    end →
    moved ev s s' acts
| mv_drop id m :
    event_id ev s = Some id → sv_isms s !! id = Some m →
    sv_isms s' = delete id (sv_isms s) → sv_next_task s' = sv_next_task s →
    sv_timers s' = cancelled m (sv_timers s) →
    (∀ k, ev ≠ EvTimer k) →
    (∀ token o, ev = EvTask id token o → token = ism_fencing_token m) →
    (effects acts = [] ∨ ∃ x, effects acts = [x] ∧ is_terminal (fe_kind x) = true ∧
       fe_invocation_id x = id ∧ fe_fencing_token x = ism_fencing_token m) →
    spawns acts = [] →
    moved ev s s' acts
| mv_retry id m m' fired t k :
    event_id ev s = Some id → sv_isms s !! id = Some m →
    ism_state m = WaitingRetry fired t k → can_retry (tracker_after ev t) = true →
    fired = true ∨ ev = EvTimer k →
    sv_isms s' = <[id := m']> (sv_isms s) → sv_next_task s' = S (sv_next_task s) →
    sv_timers s' = expired ev (sv_timers s) →
    ism_fencing_token m' = ism_fencing_token m →
    ism_state m' = InFlight (mkFlight (Some (sv_next_task s)) tracker_default (sv_next_task s)
                               ∅ ∅ None false) →
    (∀ c, ev ≠ EvInvoke c) → (∀ i token o, ev ≠ EvTask i token o) →
    effects acts = [] → spawns acts = [(sv_next_task s, id, ism_fencing_token m)] →
    moved ev s s' acts
| mv_invoke c m' :
    ev = EvInvoke c →
    sv_isms s' = <[iv_invocation_id c := m']> (sv_isms s) →
    sv_next_task s' = S (sv_next_task s) →
    sv_timers s' = match sv_isms s !! iv_invocation_id c with
                   | Some m => cancelled m (sv_timers s)
                   | None => sv_timers s
                   end →
    ism_fencing_token m' = iv_fencing_token c →
    ism_state m' = InFlight (mkFlight (Some (sv_next_task s)) tracker_default (sv_next_task s)
                               ∅ ∅ None false) →
    effects acts = [] →
    spawns acts = [(sv_next_task s, iv_invocation_id c, iv_fencing_token c)] →
    moved ev s s' acts
| mv_all :
    ev = EvAbortAll → sv_isms s' = ∅ → sv_next_task s' = sv_next_task s →
    sv_timers s' = foldl (λ q x, cancelled x.2 q) (sv_timers s) (map_to_list (sv_isms s)) →
    effects acts = [] → spawns acts = [] →
    moved ev s s' acts.

(** *** Handlers *)

Lemma effects_app a b : effects (a ++ b) = effects a ++ effects b.
Proof. induction a as [|[] a IH]; simpl; by rewrite ?IH. Qed.
Lemma spawns_app a b : spawns (a ++ b) = spawns a ++ spawns b.
Proof. induction a as [|[] a IH]; simpl; by rewrite ?IH. Qed.
Lemma effects_sends l : effects (sends l) = [].
Proof. induction l; simpl; done. Qed.
Lemma spawns_sends l : spawns (sends l) = [].
Proof. induction l; simpl; done. Qed.
Lemma effects_abort m : effects (abort_action m) = [].
Proof. unfold abort_action. by destruct (abort m). Qed.
Lemma spawns_abort m : spawns (abort_action m) = [].
Proof. unfold abort_action. by destruct (abort m). Qed.
Hint Rewrite effects_app spawns_app effects_sends spawns_sends effects_abort spawns_abort : restate.

Lemma remove_lookup id m s :
  sv_isms s !! id = Some m → remove_invocation id s = Some (m, set_isms (delete id (sv_isms s)) s).
Proof. unfold remove_invocation. by intros ->. Qed.
Lemma remove_lookup_none id s : sv_isms s !! id = None → remove_invocation id s = None.
Proof. unfold remove_invocation. by intros ->. Qed.

Lemma cancel_timer_fields m s :
  sv_isms (cancel_timer m s) = sv_isms s ∧ sv_next_task (cancel_timer m s) = sv_next_task s ∧
  sv_timers (cancel_timer m s) = cancelled m (sv_timers s).
Proof. unfold cancel_timer, cancelled. by destruct (take_retry_timer_key m). Qed.

(** Starting a task for a state machine that is not in flight. *)
Lemma start_invocation_task_spec e id m b s :
  is_in_flight m = false →
  ∃ s' acts, start_invocation_task e id m b s = Some (s', acts) ∧
    sv_isms s' = <[id := set_state (InFlight (mkFlight (Some (sv_next_task s)) tracker_default
                            (sv_next_task s) ∅ ∅ None false)) m]> (sv_isms s) ∧
    sv_next_task s' = S (sv_next_task s) ∧
    sv_timers s' = match sv_isms s !! id with
                   | Some old => cancelled old (sv_timers s)
                   | None => sv_timers s
                   end ∧
    effects acts = [] ∧ spawns acts = [(sv_next_task s, id, ism_fencing_token m)].
Proof.
  intros Hm. unfold start_invocation_task, start. rewrite Hm. simpl.
  destruct (sv_isms s !! id) as [old|] eqn:E.
  - rewrite (remove_lookup _ _ _ E).
    destruct (cancel_timer_fields old (set_isms (delete id (sv_isms s)) s)) as (H1 & H2 & H3).
    eexists _, _. split; [reflexivity|]. simpl in *. rewrite H1, H2, H3.
    autorewrite with restate. simpl. by rewrite insert_delete_eq.
  - rewrite (remove_lookup_none _ _ E). eexists _, _. split; [reflexivity|]. done.
Qed.

(** How an acknowledgement or a timer changes a state machine. *)
Definition retry_update ev m m' : Prop :=
  ism_fencing_token m' = ism_fencing_token m ∧
  ism_budget m' = ism_budget m ∧
  match ism_state m, ism_state m' with
  | InFlight fl, InFlight fl' =>
      fl_abort_handle fl' = fl_abort_handle fl ∧ pinned fl' = pinned fl ∧
      fl_journal_tracker fl' = tracker_after ev (fl_journal_tracker fl)
  | WaitingRetry fired t k, WaitingRetry fired' t' k' =>
      k' = k ∧ t' = tracker_after ev t ∧
      fired' = match ev with EvTimer k0 => if k =? k0 then true else fired | _ => fired end
  | _, _ => False
  end.

Definition is_retry_event ev : Prop :=
  match ev with EvTimer _ | EvNotification _ _ _ | EvStoredCommandAck _ _ => True | _ => False end.

Lemma handle_retry_event_moved e ev id f tokens tasks s :
  inv tokens tasks s → is_retry_event ev → event_id ev s = Some id →
  (∀ m, sv_isms s !! id = Some m → ism_state m ≠ New → retry_update ev m (f m).1) →
  ∃ s' acts, handle_retry_event e id f (map_timers (expired ev) s) = Some (s', acts) ∧
    moved ev s s' acts.
Proof.
  intros [_ Hi] Hev Hid Hf. unfold handle_retry_event.
  destruct (sv_isms s !! id) as [m|] eqn:E.
  2: { rewrite remove_lookup_none by done. eexists _, _. split; [reflexivity|].
       apply mv_idle; try done. intros. simplify_eq. }
  destruct (Hi _ _ E) as (_ & Hst).
  rewrite (remove_lookup _ m) by done.
  assert (Hne : ism_state m ≠ New) by (intros Hn; by rewrite Hn in Hst).
  specialize (Hf m eq_refl Hne). destruct (f m) as [m' sent]. simpl in Hf.
  destruct Hf as (Ht & Hb & Hs).
  destruct (is_ready_to_retry m') eqn:Hready.
  - unfold is_ready_to_retry in Hready.
    destruct (ism_state m') as [|fl'|fired' t' k'] eqn:E'; [done|done|].
    destruct (ism_state m) as [|fl|fired t k] eqn:Em; [done|done|].
    destruct Hs as (-> & -> & ->). apply andb_prop in Hready as [Hfired Hcan].
    destruct Hst as [[b Hbud] _]. rewrite Hb, Hbud. simpl.
    edestruct (start_invocation_task_spec e id (set_budget None m') b
      (set_isms (delete id (sv_isms s)) (map_timers (expired ev) s)))
      as (s' & acts & Hstart & His & Hnt & Htm & He & Hsp).
    { unfold is_in_flight. simpl. by rewrite E'. }
    simpl in *. rewrite lookup_delete_eq in Htm. rewrite insert_delete_eq in His.
    unfold map_timers, set_isms in *. simpl in *. rewrite Hstart. simpl.
    eexists _, _. split; [reflexivity|].
    eapply mv_retry with (id := id) (m := m) (fired := fired) (t := t) (k := k); try done.
    + destruct ev; try (by left). destruct (Z.eqb_spec k key); [subst; by right|by left].
    + by destruct ev.
    + by destruct ev.
    + autorewrite with restate. by rewrite He.
    + autorewrite with restate. rewrite Hsp. simpl. by rewrite Ht.
  - eexists _, _. split; [reflexivity|].
    eapply mv_keep with (id := id) (m := m) (m' := m'); try done.
    + simpl. by rewrite insert_delete_eq.
    + by destruct ev.
    + autorewrite with restate. intros x Hx. by apply elem_of_nil in Hx.
    + by autorewrite with restate.
    + destruct (ism_state m) as [|fl|fired t k], (ism_state m') as [|fl'|fired' t' k']; try done.
      * destruct Hs as (? & ? & ?). split_and!; try done; by destruct ev.
      * destruct Hs as (? & ? & ?). split_and!; try done. by destruct ev.
Qed.

Lemma timer_update key m :
  ism_state m ≠ New → retry_update (EvTimer key) m (notify_retry_timer_fired key m).
Proof.
  unfold retry_update, notify_retry_timer_fired. destruct (ism_state m) as [|fl|fired t k] eqn:E.
  - done.
  - by rewrite E.
  - intros _. destruct (k =? key) eqn:Ek; simpl; rewrite ?E; by rewrite ?Ek.
Qed.

Lemma ack_update alive id j m :
  ism_state m ≠ New → retry_update (EvStoredCommandAck id j) m (notify_stored_ack alive j m).1.
Proof.
  unfold retry_update, notify_stored_ack. destruct (ism_state m) as [|fl|fired t k] eqn:E; [done|..];
    intros _; [|done].
  case_bool_decide; [|done]. unfold try_send_notification.
  destruct (fl_notifications_tx fl) as [c|]; [destruct (alive c)|]; done.
Qed.

Lemma entry_update alive id i n m :
  ism_state m ≠ New → retry_update (EvNotification id i n) m (notify_entry alive i n m).1.
Proof.
  unfold retry_update, notify_entry. destruct (ism_state m) as [|fl|fired t k] eqn:E; [done|..];
    intros _; [|done].
  set (x := match n with NCompletionId _ => _ | _ => _ end). destruct x as [to_send acks].
  unfold try_send_notification.
  destruct (fl_notifications_tx fl) as [c|]; [destruct (alive c)|]; done.
Qed.

(** Entries: the deployment is notified first when it is due. *)
Lemma emit_entry_moved ev id m0 m1 fl0 fl1 kind s :
  event_id ev s = Some id → sv_isms s !! id = Some m0 → ism_state m0 = InFlight fl0 →
  ism_state m1 = InFlight fl1 → ism_fencing_token m1 = ism_fencing_token m0 →
  fl_abort_handle fl1 = fl_abort_handle fl0 → pinned fl1 = pinned fl0 →
  fl_journal_tracker fl1 = tracker_after ev (fl_journal_tracker fl0) →
  (∃ o, ev = EvTask id (ism_fencing_token m0) o ∧ ends_task o = false ∧
     ∀ pd b, o ≠ ToPinnedDeployment pd b) →
  entry_effects ev id (ism_fencing_token m0) [fence (ism_fencing_token m0) id kind] →
  ∃ s' acts, emit_entry id m1 kind s = Some (s', acts) ∧ moved ev s s' acts.
Proof.
  intros Hid Hm0 Hf0 Hf1 Htok Hab Hpin Htr (o & -> & Ho & Hnp) Heff.
  unfold emit_entry, pinned_deployment_to_notify, is_in_flight. rewrite Hf1. simpl.
  assert (Hx : ∃ m2 pd fl2,
    match fl_should_notify_pinned_deployment fl1, fl_using_deployment fl1 with
    | true, Some pd =>
        Some (set_state (InFlight
                (mkFlight (fl_notifications_tx fl1) (fl_journal_tracker fl1) (fl_abort_handle fl1)
                   (fl_command_acks_to_propagate fl1) (fl_run_completion_proposals_to_ack fl1)
                   (fl_using_deployment fl1) false)) m1, Some pd)
    | _, _ => Some (m1, None)
    end = Some (m2, pd) ∧ ism_state m2 = InFlight fl2 ∧
    ism_fencing_token m2 = ism_fencing_token m1 ∧
    fl_abort_handle fl2 = fl_abort_handle fl1 ∧ pinned fl2 = pinned fl1 ∧
    fl_journal_tracker fl2 = fl_journal_tracker fl1).
  { destruct (fl_should_notify_pinned_deployment fl1), (fl_using_deployment fl1) as [pd|] eqn:Eu;
      try (by eexists _, _, fl1).
    eexists _, (Some pd), _. split_and!; [reflexivity|reflexivity|..]; try done.
    unfold pinned. simpl. by rewrite Eu. }
  destruct Hx as (m2 & pd & fl2 & -> & Hf2 & Ht2 & Ha2 & Hp2 & Hj2). simpl.
  eexists _, _. split; [reflexivity|].
  eapply mv_keep with (id := id) (m := m0) (m' := m2); try done.
  - by rewrite Ht2.
  - intros ? ? ?. by simplify_eq.
  - rewrite Ht2, Htok. autorewrite with restate. intros x Hx. apply elem_of_app in Hx as [Hx|Hx].
    + destruct pd; simpl in Hx; [|by apply elem_of_nil in Hx].
      apply list_elem_of_singleton in Hx as ->. done.
    + simpl in Hx. by apply Heff.
  - autorewrite with restate. by destruct pd.
  - rewrite Hf0, Hf2. split_and!.
    + congruence.
    + by rewrite Hj2, Htr.
    + done.
    + intros ? ? ?. by simplify_eq.
    + rewrite Hp2, Hpin. destruct o; try done. by destruct (Hnp pd0 has_changed).
Qed.

Lemma end_attempt_moved ev id m fl kind s :
  event_id ev s = Some id → sv_isms s !! id = Some m → ism_state m = InFlight fl →
  (∃ o, ev = EvTask id (ism_fencing_token m) o) →
  is_terminal (kind m) = true →
  ∃ s' acts, end_attempt id kind s = Some (s', acts) ∧ moved ev s s' acts.
Proof.
  intros Hid Hm Hfl [o ->] Hk. unfold end_attempt. rewrite (remove_lookup _ _ _ Hm).
  eexists _, _. split; [reflexivity|].
  eapply mv_drop with (id := id) (m := m); try done.
  - unfold cancelled, take_retry_timer_key. by rewrite Hfl.
  - intros ? ? ?. by simplify_eq.
  - right. eexists. by split.
Qed.

#[local] Arguments next_retry : simpl never.

(** Rewrites the bound computation of the goal with [H], up to conversion. *)
Ltac replace_bind H :=
  lazymatch type of H with
  | _ = ?v =>
      match goal with
      | |- context [mbind _ ?x] => replace x with v by (symmetry; exact H)
      end
  end.

(** The delay, without jitter, that an iterator is about to give. *)
Definition due_delay (it : RetryIter) : option Duration :=
  let attempts := saturating_add u64_max (it_attempts it) 1 in
  match it_policy it with
  | RpNone => None
  | FixedDelay interval max_attempts => if exhausted attempts max_attempts then None else Some interval
  | Exponential initial_interval factor max_attempts max_interval =>
      if exhausted attempts max_attempts then None
      else Some match it_last_retry it with
                | Some last => next_interval last factor (default Duration_MAX max_interval)
                | None => initial_interval
                end
  end.

Lemma next_None rnd it :
  next rnd it = None ↔
  ∃ d, due_delay it = Some d ∧ add_jitter d DEFAULT_JITTER_MULTIPLIER rnd = None.
Proof.
  unfold next, due_delay. simpl.
  destruct (it_policy it); [naive_solver|..]; (case_match; [naive_solver|]);
    rewrite bind_None; naive_solver.
Qed.

(** A failure whose retry is not representable. *)
Definition error_overflows e (error : InvokerError) m : Prop :=
  ism_requested_pause m = false ∧ is_transient error = true ∧
  requested_error_behavior error = BehaviorRetry ∧
  ∃ d, due_delay (rps_retry_iter (ism_retry_policy_state m)) = Some d ∧
    add_jitter d DEFAULT_JITTER_MULTIPLIER (env_rnd e) = None.

(** The event is such a failure, of the attempt that is in flight. *)
Definition retry_overflows e ev s : Prop :=
  ∃ id token o m error, ev = EvTask id token o ∧ sv_isms s !! id = Some m ∧
    ism_fencing_token m = token ∧ error_overflows e error m ∧
    match o with
    | ToFailed error' _ => error = error'
    | ToShouldYield oom _ => oom_kind oom = UpperBoundExceeded ∧ error = OutOfMemory oom
    | _ => False
    end.

(** The outcome of [handle_task_error] for an attempt in flight. *)
Lemma handle_task_error_in_flight (reg : Duration → Q → Z * Q) rnd thr tr beh bump m q fl :
  ism_state m = InFlight fl →
  (ism_requested_pause m = false ∧ tr = true ∧ beh = BehaviorRetry ∧
   (∃ d, due_delay (rps_retry_iter (ism_retry_policy_state m)) = Some d ∧
      add_jitter d DEFAULT_JITTER_MULTIPLIER rnd = None) ∧
   handle_task_error reg rnd thr tr beh bump m q = None) ∨
  ∃ m' q' r, handle_task_error reg rnd thr tr beh bump m q = Some (m', q', r) ∧
    ism_fencing_token m' = ism_fencing_token m ∧ ism_budget m' = ism_budget m ∧
    match r with
    | Retrying d =>
        ∃ k, ism_state m' = WaitingRetry false (fl_journal_tracker fl) k ∧ reg d q = (k, q')
    | _ => q' = q
    end.
Proof.
  intros Hfl. unfold handle_task_error. rewrite Hfl. simpl.
  destruct (ism_requested_pause m); [right; by eexists _, _, _|].
  assert (Hn : (tr = true ∧ beh = BehaviorRetry ∧
      next rnd (rps_retry_iter (ism_retry_policy_state m)) = None ∧ next_retry rnd m = None) ∨
    match beh with BehaviorPause | BehaviorFail => True | _ => ∃ m1 o,
    (if tr then match beh with
                | RetryWithIntervalOverride interval => Some (m, Some interval)
                | _ => next_retry rnd m
                end else Some (m, None)) = Some (m1, o) ∧
    ism_fencing_token m1 = ism_fencing_token m ∧ ism_budget m1 = ism_budget m end).
  { destruct tr; [|right; destruct beh; try done; by eexists _, _]. unfold next_retry.
    destruct beh; try (by right); [|right; by eexists _, _].
    destruct (next rnd _) as [[it' o]|] eqn:Hn; [right|by left].
    eexists _, _. split; [reflexivity|done]. }
  destruct Hn as [(-> & -> & Hn & Hnr)|Hn]; [left; rewrite Hnr; by apply next_None in Hn|right].
  destruct beh; try (by eexists _, _, _); destruct Hn as (m1 & o & Hn & Ht & Hb);
    replace_bind Hn; simpl.
  all: destruct o as [d|]; [|by destruct (rps_on_max_attempts _); eexists _, _, _].
  all: destruct bump; (destruct (thr <=? d); [eexists _, _, _; split; [reflexivity|done]|]);
    destruct (reg d q) as [k q'] eqn:Er; eexists _, _, _; (split; [reflexivity|]); simpl; eauto 8.
Qed.

Lemma handle_error_event_moved e id token o error m fl b s :
  sv_isms s !! id = Some m → ism_state m = InFlight fl → token = ism_fencing_token m →
  ends_task o = true →
  let r := handle_error_event e id error (set_budget (Some b) m) (set_isms (delete id (sv_isms s)) s) in
  (error_overflows e error m ∧ r = None) ∨
  ∃ s' acts, r = Some (s', acts) ∧ moved (EvTask id token o) s s' acts.
Proof.
  intros Hm Hfl -> Ho. unfold handle_error_event.
  edestruct (handle_task_error_in_flight (dq_insert id) (env_rnd e) (env_yield_threshold e)
    (is_transient error) (requested_error_behavior error)
    (should_bump_start_message_retry_count_since_last_stored_entry error)
    (set_budget (Some b) m) (sv_timers s)) as [(? & ? & ? & ? & Hr)|(m' & q' & r & Hr & Ht & Hb & Hcase)];
    [done| |]; simpl; rewrite Hr; simpl; [by left|right]. simpl in Ht, Hb.
  assert (Hdrop : ∀ s' x, sv_isms s' = delete id (sv_isms s) → sv_next_task s' = sv_next_task s →
    sv_timers s' = sv_timers s → is_terminal (fe_kind x) = true → fe_invocation_id x = id →
    fe_fencing_token x = ism_fencing_token m →
    moved (EvTask id (ism_fencing_token m) o) s s' [AEffect x]).
  { intros. eapply mv_drop with (id := id) (m := m); try done.
    - unfold cancelled, take_retry_timer_key. by rewrite Hfl.
    - intros ? ? ?. by simplify_eq.
    - right. by eexists. }
  unfold should_emit_transient_error_event.
  destruct r as [after n c|d| |].
  2: {
    destruct Hcase as (k & Hst & Hreg).
    set (ev' := transient_error_event error).
    assert (Hx : ∃ m2 emit,
      match ism_last_transient_error_event m' with
      | Some old => (if negb (same_error old ev') then set_event (Some ev') m' else m',
                     negb (same_error old ev'))
      | None => (set_event (Some ev') m', true)
      end = (m2, emit) ∧ ism_state m2 = ism_state m' ∧
      ism_fencing_token m2 = ism_fencing_token m' ∧ ism_budget m2 = ism_budget m').
    { destruct (ism_last_transient_error_event m') as [old|]; [|by eexists _, _].
      by destruct (same_error old ev'); eexists _, _. }
    destruct Hx as (m2 & emit & -> & H1 & H2 & H4).
    eexists _, _. split; [reflexivity|].
    eapply mv_keep with (id := id) (m := m) (m' := m2); try done.
    - simpl. by rewrite insert_delete_eq.
    - by rewrite H2.
    - intros ? ? ?. by simplify_eq.
    - intros x Hx. destruct emit; simpl in Hx; [|by apply elem_of_nil in Hx].
      apply list_elem_of_singleton in Hx as ->. rewrite H2, Ht. done.
    - by destruct emit.
    - rewrite Hfl, H1, Hst. split_and!; try done; [|by eexists _, _|by exists d].
      rewrite H4, Hb. by eexists. }
  all: subst q'; try (eexists _, _; split; [reflexivity|]; by apply Hdrop).
  destruct (ism_last_transient_error_event m') as [old|];
    [destruct (same_error old _)|]; eexists _, _; (split; [reflexivity|]); by apply Hdrop.
Qed.

Lemma update_flight_in_flight f m fl :
  ism_state m = InFlight fl → update_flight f m = set_state (InFlight (f fl)) m.
Proof. unfold update_flight. by intros ->. Qed.

(** An update in place of an attempt in flight. *)
Lemma handle_for_invocation_moved ev id f st m fl m' fl' s o :
  sv_isms s !! id = Some m → ism_state m = InFlight fl →
  ev = EvTask id (ism_fencing_token m) o → ends_task o = false →
  (∀ i c a, o ≠ ToNewCommand i c a) → (∀ n a, o ≠ ToNewNotificationProposal n a) →
  f m = Some m' → ism_state m' = InFlight fl' → ism_fencing_token m' = ism_fencing_token m →
  fl_abort_handle fl' = fl_abort_handle fl → fl_journal_tracker fl' = fl_journal_tracker fl →
  pinned fl' = match o with ToPinnedDeployment _ _ => true | _ => pinned fl end →
  ∃ s' acts, handle_for_invocation id f st s = Some (s', acts) ∧ moved ev s s' acts.
Proof.
  intros Hm Hfl -> Ho Hnc Hnn Hf Hfl' Ht Ha Hj Hp. unfold handle_for_invocation.
  rewrite Hm, Hf. simpl. eexists _, _. split; [reflexivity|].
  eapply mv_keep with (id := id) (m := m) (m' := m'); try done.
  - intros ? ? ?. by simplify_eq.
  - intros x Hx. by apply elem_of_nil in Hx.
  - rewrite Hfl, Hfl'. split_and!; try done.
    + rewrite Hj. destruct o; try done; [by destruct (Hnc command_index command requested_ack)|
        by destruct (Hnn notification requested_ack)].
    + intros ? ? ?. by simplify_eq.
Qed.

Lemma update_retry_policy_fields dp e m :
  let m' := update_retry_policy_if_needed dp (env_resolver e) m in
  ism_state m' = ism_state m ∧ ism_fencing_token m' = ism_fencing_token m.
Proof.
  unfold update_retry_policy_if_needed. case_bool_decide; [done|].
  by destruct (env_resolver e (Some dp) (ism_invocation_target m)).
Qed.

Lemma handle_task_output_moved e id m fl o rest s :
  sv_isms s !! id = Some m → ism_state m = InFlight fl →
  conforming (pinned fl) (o :: rest) = true →
  (retry_overflows e (EvTask id (ism_fencing_token m) o) s ∧ handle_task_output e id o s = None) ∨
  ∃ s' acts, handle_task_output e id o s = Some (s', acts) ∧
    moved (EvTask id (ism_fencing_token m) o) s s' acts.
Proof.
  intros Hm Hfl Hc.
  assert (Herr : ∀ error b, ends_task o = true →
    match o with
    | ToFailed error' _ => error = error'
    | ToShouldYield oom _ => oom_kind oom = UpperBoundExceeded ∧ error = OutOfMemory oom
    | _ => False
    end →
    let r := handle_error_event e id error (set_budget (Some b) m) (set_isms (delete id (sv_isms s)) s) in
    (retry_overflows e (EvTask id (ism_fencing_token m) o) s ∧ r = None) ∨
    ∃ s' acts, r = Some (s', acts) ∧ moved (EvTask id (ism_fencing_token m) o) s s' acts).
  { intros error b Ho Hm'.
    destruct (handle_error_event_moved e id _ o error m fl b s Hm Hfl eq_refl Ho) as [[Hov Hr]|];
      [left|by right]. split; [|done]. by eexists id, _, o, m, error. }
  destruct o as [pd ch|h|i c a|n a|f| |ns|f|err b|oom b]; simpl in Hc |- *.
  - apply andb_prop in Hc as [Hc _].
    destruct (update_retry_policy_fields (pd_deployment_id pd) e m) as (Hst & Ht).
    unfold handle_pinned_deployment.
    set (m1 := update_retry_policy_if_needed _ _ m) in *.
    assert (Hf : ∃ fl', notify_pinned_deployment pd ch m1 = Some (set_state (InFlight fl') m1) ∧
      fl_abort_handle fl' = fl_abort_handle fl ∧
      fl_journal_tracker fl' = fl_journal_tracker fl ∧ pinned fl' = true).
    { unfold notify_pinned_deployment. rewrite Hst, Hfl. unfold pinned in Hc.
      destruct (fl_using_deployment fl); [done|]. simpl.
      rewrite (update_flight_in_flight _ _ fl) by (by rewrite Hst). by eexists. }
    destruct Hf as (fl' & Hf & ? & ? & ?).
    right. by eapply (handle_for_invocation_moved _ id _ _ m fl
                 (set_state (InFlight fl') m1) fl' s _ Hm Hfl eq_refl).
  - right. by eapply (handle_for_invocation_moved _ id _ _ m fl m fl s _ Hm Hfl eq_refl).
  - unfold handle_new_command. rewrite Hm. unfold notify_new_command, is_in_flight. rewrite Hfl. simpl.
    rewrite (update_flight_in_flight _ _ fl) by done.
    right. eapply emit_entry_moved; try done.
    + eexists. by split.
    + intros x Hx. apply list_elem_of_singleton in Hx as ->. simpl. eauto 6.
  - apply andb_prop in Hc as [Hc _]. apply andb_prop in Hc as [Hty Hn].
    apply bool_decide_eq_true in Hty. destruct (rn_id n) as [cid|?|?] eqn:Ern; try done.
    unfold handle_new_notification_proposal. rewrite Hm.
    unfold notify_new_notification_proposal, is_in_flight. rewrite Hfl, Ern, bool_decide_true by done.
    simpl. rewrite (update_flight_in_flight _ _ fl) by done.
    right. eapply emit_entry_moved; try done.
    + simpl. by rewrite Ern.
    + eexists. by split.
    + intros x Hx. apply list_elem_of_singleton in Hx as ->. simpl. eauto 6.
  - right. by eapply (handle_for_invocation_moved _ id _ _ m fl m fl s _ Hm Hfl eq_refl).
  - right. eapply end_attempt_moved; try done. by eexists.
  - right. eapply end_attempt_moved; try done; [by eexists|]. by destruct (ism_requested_pause m).
  - right. eapply end_attempt_moved; try done; [by eexists|]. by destruct (ism_requested_pause m).
  - unfold handle_invocation_task_failed. rewrite (remove_lookup _ _ _ Hm).
    by apply Herr.
  - unfold handle_invocation_task_should_yield. rewrite (remove_lookup _ _ _ Hm).
    destruct (oom_kind oom) eqn:Ek; [by apply Herr|].
    right. eexists _, _. split; [reflexivity|].
    eapply mv_drop with (id := id) (m := m); try done.
    + unfold cancelled, take_retry_timer_key. by rewrite Hfl.
    + intros ? ? ?. by simplify_eq.
    + right. autorewrite with restate. simpl. by eexists.
    + autorewrite with restate. done.
Qed.

Lemma retry_overflows_panics e ev s : retry_overflows e ev s → step e ev s = None.
Proof.
  intros (id & token & o & m & error & -> & Hm & <- & (Hp & Htr & Hbeh & Hn%next_None) & Ho).
  assert (Herr : ∀ b s', handle_error_event e id error (set_budget (Some b) m) s' = None).
  { intros b s'. unfold handle_error_event, handle_task_error. simpl. rewrite Hp, Htr, Hbeh.
    assert (next_retry (env_rnd e) (set_budget (Some b) m) = None) as ->
      by (unfold next_retry; simpl; by rewrite Hn).
    by destruct (ism_state m) as [| |[]]. }
  simpl. unfold is_stale_fencing_token. rewrite Hm, Z.eqb_refl. simpl.
  destruct o; try done; simpl in *.
  - subst. unfold handle_invocation_task_failed. by rewrite (remove_lookup _ _ _ Hm).
  - destruct Ho as [Hk ->]. unfold handle_invocation_task_should_yield.
    by rewrite (remove_lookup _ _ _ Hm), Hk.
Qed.

Lemma abort_loop_spec l s :
  let r := abort_loop l s in
  sv_isms r.1 = sv_isms s ∧ sv_next_task r.1 = sv_next_task s ∧
  sv_timers r.1 = foldl (λ q x, cancelled x.2 q) (sv_timers s) l ∧
  effects r.2 = [] ∧ spawns r.2 = [].
Proof.
  revert s. induction l as [|[id m] l IH]; intros s; simpl; [done|].
  specialize (IH (map_status (on_end id) (cancel_timer m s))).
  destruct (abort_loop l _) as [s' acts]. simpl in *.
  destruct (cancel_timer_fields m s) as (H1 & H2 & H3). rewrite H1, H2, H3 in IH.
  destruct IH as (? & ? & ? & He & Hs). split_and!; try done; autorewrite with restate;
    by rewrite ?He, ?Hs.
Qed.

(** Every event that can be delivered is handled, or is a failure whose retry
    overflows. *)
Lemma step_moved e ev y tasks' :
  inv (sy_tokens y) (sy_tasks y) (sy_service y) → delivered y ev tasks' →
  (retry_overflows e ev (sy_service y) ∧ step e ev (sy_service y) = None) ∨
  ∃ s' acts, step e ev (sy_service y) = Some (s', acts) ∧ moved ev (sy_service y) s' acts.
Proof.
  intros Hinv Hd. pose proof Hinv as [_ Hi]. set (s := sy_service y) in *.
  destruct Hd as [c Hfresh Hatt|ev Hev|t tk o rest Htk Ho].
  - (* invoke *)
    right. simpl. unfold handle_vqueue_invoke.
    destruct (env_resolver e None (iv_invocation_target c)) as [it on_max].
    match goal with |- context [start_invocation_task e ?id ?m ?b s] =>
      destruct (start_invocation_task_spec e id m b s)
        as (s' & acts & Hs & H1 & H2 & H3 & H4 & H5); [done|] end.
    rewrite Hs. eexists _, _. split; [reflexivity|].
    by eapply mv_invoke.
  - right. destruct ev as [c|id i n|id j|id|id| |id token o|k]; try done; simpl.
    + edestruct (handle_retry_event_moved e (EvNotification id i n) id
        (notify_entry (env_alive e) i n)) as (s' & acts & H1 & H2); try done.
      { intros. by apply entry_update. }
      exists s', acts. split; [|done]. rewrite <- H1. by destruct s.
    + edestruct (handle_retry_event_moved e (EvStoredCommandAck id j) id
        (notify_stored_ack (env_alive e) j)) as (s' & acts & H1 & H2); try done.
      { intros. by apply ack_update. }
      exists s', acts. split; [|done]. rewrite <- H1. by destruct s.
    + unfold handle_abort_invocation. destruct (sv_isms s !! id) as [m|] eqn:E.
      * rewrite (remove_lookup _ _ _ E). eexists _, _. split; [reflexivity|].
        destruct (cancel_timer_fields m (set_isms (delete id (sv_isms s)) s)) as (H1 & H2 & H3).
        eapply mv_drop with (id := id) (m := m); simpl; autorewrite with restate; try done.
        by left.
      * rewrite remove_lookup_none by done. eexists _, _. split; [reflexivity|].
        apply mv_idle; try done. intros. simplify_eq/=.
    + unfold handle_pause_invocation. destruct (sv_isms s !! id) as [m|] eqn:E.
      * rewrite (remove_lookup _ _ _ E).
        destruct (cancel_timer_fields m (set_isms (delete id (sv_isms s)) s)) as (H1 & H2 & H3).
        destruct (Hi _ _ E) as (Htok & Hst).
        unfold notify_pause. simpl. destruct (ism_state m) as [|fl|fired tr k] eqn:Em; [done|..].
        -- eexists _, _. split; [reflexivity|].
           eapply mv_keep with (id := id) (m := m);
             [done|done|simpl; rewrite H1; simpl; by rewrite insert_delete_eq|done|done|done| |
              done|].
           { intros x Hx. by apply elem_of_nil in Hx. }
           rewrite Em. simpl. split_and!; try done. rewrite H3. simpl.
           unfold cancelled, take_retry_timer_key. by rewrite Em.
        -- eexists _, _. split; [reflexivity|].
           eapply mv_drop with (id := id) (m := m); try done. right. by eexists.
      * rewrite remove_lookup_none by done. eexists _, _. split; [reflexivity|].
        apply mv_idle; try done. intros. simplify_eq/=.
    + unfold handle_abort_all.
      destruct (abort_loop_spec (map_to_list (sv_isms s)) (set_isms ∅ s)) as (H1 & H2 & H3 & H4 & H5).
      destruct (abort_loop _ _) as [s' acts]. eexists _, _. split; [reflexivity|].
      by apply mv_all.
    + destruct Hev as [id Ek]. fold s in Ek. rewrite Ek.
      edestruct (handle_retry_event_moved e (EvTimer k) id
        (λ m, (notify_retry_timer_fired k m, []))) as (s' & acts & H1 & H2); try done.
      { intros. by apply timer_update. }
      by exists s', acts.
  - simpl. unfold is_stale_fencing_token.
    destruct (sv_isms s !! tk_id tk) as [m|] eqn:E.
    + destruct (Z.eqb_spec (ism_fencing_token m) (tk_token tk)) as [Heq|Hne]; simpl.
      * destruct (Hi _ _ E) as (Htok & Hst). rewrite <- Heq.
        destruct (ism_state m) as [|fl|fired tr k] eqn:Em; [done|..].
        -- destruct (Hst t tk Htk) as [_ Hc]; [done|done|by rewrite Ho|]. rewrite Ho in Hc.
           by eapply handle_task_output_moved.
        -- destruct Hst as [_ Hst]. by destruct (Hst t tk Htk); [..|rewrite Ho].
      * right. eexists _, _. split; [reflexivity|]. apply mv_idle; try done.
        intros id m' Hid Hm. simplify_eq/=. eauto.
    + right. assert (Hnone : handle_task_output e (tk_id tk) o s = Some (s, [])).
      { destruct o; simpl;
          unfold handle_pinned_deployment, handle_server_header_received, handle_awaiting_on,
            handle_for_invocation, handle_new_command, handle_new_notification_proposal,
            handle_invocation_task_closed, handle_invocation_task_suspended_v2,
            handle_invocation_task_suspended_v3, end_attempt, handle_invocation_task_failed,
            handle_invocation_task_should_yield;
          rewrite ?(remove_lookup_none _ _ E), ?E; done. }
      rewrite Hnone. eexists _, _. split; [reflexivity|]. apply mv_idle; try done.
      intros id m' Hid Hm. simplify_eq/=.
Qed.

(** *** The invariant is kept *)

Lemma spawn_tasks_none outputs acts tasks :
  spawns acts = [] → spawn_tasks outputs acts tasks = tasks.
Proof. revert tasks. induction acts as [|[] acts IH]; intros; simpl in *; eauto; done. Qed.
Lemma spawn_tasks_one outputs acts tasks t id token :
  spawns acts = [(t, id, token)] →
  spawn_tasks outputs acts tasks = <[t := mkTask id token (outputs t)]> tasks.
Proof.
  revert tasks. induction acts as [|[] acts IH]; intros; simpl in *; eauto; simplify_eq.
  by apply spawn_tasks_none.
Qed.

Lemma to_come_impl tasks id token (P P' : nat → list TaskOutputInner → Prop) :
  (∀ t l, P t l → P' t l) → to_come tasks id token P → to_come tasks id token P'.
Proof. intros HP Hc t tk ????. apply HP. by eapply Hc. Qed.

Lemma to_come_insert tasks id token P t0 tk0 :
  to_come tasks id token P →
  (tk_id tk0 = id → tk_token tk0 = token → tk_outputs tk0 ≠ [] → P t0 (tk_outputs tk0)) →
  to_come (<[t0 := tk0]> tasks) id token P.
Proof.
  intros Hc H0' t tk Ht. destruct (decide (t = t0)) as [->|].
  - rewrite lookup_insert_eq in Ht. by simplify_eq.
  - rewrite lookup_insert_ne in Ht by done. by apply Hc.
Qed.

(** Taking a message does not touch what comes with another token. *)
Lemma delivered_to_come y ev tasks' id token P :
  delivered y ev tasks' → (∀ o, ev ≠ EvTask id token o) →
  to_come (sy_tasks y) id token P → to_come tasks' id token P.
Proof.
  intros Hd Hev Hc. destruct Hd as [| |t tk o rest Htk Ho]; [done..|].
  apply to_come_insert; [done|]. intros <- <-. by destruct (Hev o).
Qed.

(** After a message of the attempt in flight, the rest of its task comes. *)
Lemma delivered_rest y id token o tasks' t0 p :
  delivered y (EvTask id token o) tasks' →
  to_come (sy_tasks y) id token (λ t l, t = t0 ∧ conforming p l = true) →
  ∃ rest, conforming p (o :: rest) = true ∧
    to_come tasks' id token (λ t l, t = t0 ∧ l = rest).
Proof.
  intros Hd Hc. inversion Hd as [|? Hf|t tk o' rest Htk Ho]; [done|]. subst.
  exists rest. destruct (Hc t tk Htk) as [-> Hcf]; [done|done|by rewrite Ho|].
  split; [by rewrite <- Ho|]. intros t1 tk1 Ht1 Hi1 Hk1 Hl1.
  destruct (decide (t1 = t0)) as [->|Hne].
  - rewrite lookup_insert_eq in Ht1. by simplify_eq.
  - rewrite lookup_insert_ne in Ht1 by done. by destruct (Hc t1 tk1 Ht1) as [-> _].
Qed.

Lemma delivered_tasks_ok y ev tasks' next tokens :
  delivered y ev tasks' → tasks_ok tokens (sy_tasks y) next → tasks_ok tokens tasks' next.
Proof.
  intros Hd Hok. destruct Hd as [| |t tk o rest Htk Ho]; [done..|].
  intros t' tk' Ht'. destruct (decide (t' = t)) as [->|].
  - rewrite lookup_insert_eq in Ht'. simplify_eq. simpl. by apply (Hok t).
  - rewrite lookup_insert_ne in Ht' by done. by apply Hok.
Qed.

Lemma tasks_ok_mono tokens tokens' tasks next next' :
  tokens ⊆ tokens' → (next ≤ next')%nat → tasks_ok tokens tasks next → tasks_ok tokens' tasks next'.
Proof. intros Ht Hn Hok t tk Htk. destruct (Hok t tk Htk). split; [lia|set_solver]. Qed.

Lemma tasks_ok_insert tokens tasks next id token l :
  (id, token) ∈ tokens → tasks_ok tokens tasks next →
  tasks_ok tokens (<[next := mkTask id token l]> tasks) (S next).
Proof.
  intros Hin Hok t tk Ht. destruct (decide (t = next)) as [->|].
  - rewrite lookup_insert_eq in Ht. simplify_eq. split; [lia|done].
  - rewrite lookup_insert_ne in Ht by done. destruct (Hok t tk Ht). split; [lia|done].
Qed.

Lemma ism_ok_frame tokens tokens' tasks tasks' id m :
  tokens ⊆ tokens' →
  (∀ P, to_come tasks id (ism_fencing_token m) P → to_come tasks' id (ism_fencing_token m) P) →
  ism_ok tokens tasks id m → ism_ok tokens' tasks' id m.
Proof.
  intros Ht Hc (Hin & Hst). split; [set_solver|].
  destruct (ism_state m); [done|by apply Hc|]. destruct Hst. split; [done|by apply Hc].
Qed.

(** What still comes for a new task. *)
Lemma to_come_spawned tasks id token next l :
  to_come tasks id token (λ _ _, False) → conforming false l = true →
  to_come (<[next := mkTask id token l]> tasks) id token
    (λ t l, t = next ∧ conforming false l = true).
Proof.
  intros Hc Hl. apply to_come_insert; [|done]. eapply to_come_impl; [|done]. done.
Qed.

(** The state machines an event is not about keep what comes for them. *)
Lemma other_ism_ok y ev tasks' id id' m :
  delivered y ev tasks' → event_id ev (sy_service y) = Some id → id' ≠ id →
  ism_ok (sy_tokens y) (sy_tasks y) id' m →
  ism_ok (used_tokens ev ∪ sy_tokens y) tasks' id' m.
Proof.
  intros Hd Hid Hne. apply ism_ok_frame; [set_solver|]. intros P. eapply delivered_to_come; [done|].
  intros o ->. simpl in Hid. by simplify_eq.
Qed.

Lemma kept_ism_ok y ev tasks' id m m' s' acts :
  delivered y ev tasks' → moved ev (sy_service y) s' acts →
  sv_isms (sy_service y) !! id = Some m → sv_isms s' !! id = Some m' → spawns acts = [] →
  ism_ok (sy_tokens y) (sy_tasks y) id m → ism_ok (used_tokens ev ∪ sy_tokens y) tasks' id m'.
Proof.
  intros Hd Hm Em Em' Hsp Hok. destruct Hm as
    [His _ _ Hidle _ _|i0 m0 m1 Hid Hm0 His _ Ht Htok Heff _ Hst|i0 m0 Hid Hm0 His|
     i0 ? ? ? ? ? ? ? ? ? ? ? ? ? ? ? ? ? ? Hsp'|c ? ? ? ? ? ? ? ? Hsp'|? His]; try congruence.
  - rewrite His, Em in Em'. simplify_eq. eapply ism_ok_frame; [|..|done]; [set_solver|].
    intros P. eapply delivered_to_come; [done|]. intros o ->.
    destruct (Hidle id m') as (token & o' & Heq & Hne); [done|done|]. by simplify_eq.
  - rewrite His in Em'. destruct (decide (id = i0)) as [->|Hne].
    2: { rewrite lookup_insert_ne in Em' by done. rewrite Em in Em'. simplify_eq.
         by eapply other_ism_ok. }
    rewrite lookup_insert_eq in Em'. assert (m0 = m) by congruence. assert (m1 = m') by congruence.
    subst m0 m1. destruct Hok as (Hin & Hst0).
    split; [rewrite Ht; set_solver|]. rewrite Ht.
    destruct (ism_state m) as [|fl|fired t k], (ism_state m') as [|fl'|fired' t' k']; try done.
    + destruct Hst as (Hab & _ & _ & Hnt & Hp). rewrite Hab.
      assert (Hcase : (∃ o, ev = EvTask i0 (ism_fencing_token m) o) ∨
                      ∀ id token o, ev ≠ EvTask id token o).
      { destruct ev; try (by right). left. simpl in Hid. simplify_eq.
        exists o. by rewrite (Htok _ _ eq_refl). }
      destruct Hcase as [[o ->]|Hno].
      * destruct (delivered_rest _ _ _ _ _ _ _ Hd Hst0) as (rest & Hc & Hcome).
        eapply to_come_impl; [|done]. intros t1 l [-> ->]. split; [done|]. rewrite Hp.
        specialize (Hnt _ _ eq_refl). simpl in Hc. rewrite Hnt in Hc.
        destruct o; try done; by apply andb_prop in Hc as [_ Hc].
      * assert (Hp' : pinned fl' = pinned fl).
        { rewrite Hp. destruct ev; try done. by destruct (Hno id token o). }
        rewrite Hp'. eapply delivered_to_come; eauto.
    + destruct Hst as (_ & _ & Hb & (token & o & -> & Ho) & _). split; [done|].
      rewrite (Htok _ _ eq_refl) in Hd.
      destruct (delivered_rest _ _ _ _ _ _ _ Hd Hst0) as (rest & Hc & Hcome).
      simpl in Hc. rewrite Ho in Hc. destruct rest; [|done].
      intros t1 tk1 ? ? ? Hl. by destruct (Hcome t1 tk1) as [_ ?].
    + destruct Hst as (_ & _ & Hb & _ & _ & Hno). rewrite Hb. destruct Hst0 as [? Hc].
      split; [done|]. eapply delivered_to_come; eauto.
  - rewrite His in Em'. apply lookup_delete_Some in Em' as [Hne Em'].
    rewrite Em in Em'. simplify_eq. by eapply other_ism_ok.
  - rewrite His in Em'. done.
Qed.

Lemma moved_inv y ev tasks' s' acts outputs :
  inv (sy_tokens y) (sy_tasks y) (sy_service y) → delivered y ev tasks' →
  moved ev (sy_service y) s' acts → (∀ t, conforming false (outputs t) = true) →
  inv (used_tokens ev ∪ sy_tokens y) (spawn_tasks outputs acts tasks') s'.
Proof.
  intros [Hts Hi] Hd Hm Hout. pose proof (delivered_tasks_ok _ _ _ _ _ Hd Hts) as Hts'.
  assert (Hnext : spawns acts = [] → sv_next_task s' = sv_next_task (sy_service y) →
    (∀ id m', sv_isms s' !! id = Some m' → is_Some (sv_isms (sy_service y) !! id)) →
    inv (used_tokens ev ∪ sy_tokens y) (spawn_tasks outputs acts tasks') s').
  { intros Hsp Hn Hdom. rewrite spawn_tasks_none by done. split.
    - rewrite Hn. eapply tasks_ok_mono; [|done|done]. set_solver.
    - intros id m' Em'. destruct (Hdom id m' Em') as [m Em]. eapply kept_ism_ok; eauto. }
  destruct Hm as
    [His Hn _ _ _ Hsp|i0 m0 m1 Hid Hm0 His Hn _ _ _ Hsp _|i0 m0 Hid Hm0 His Hn _ _ _ _ Hsp|
     i0 m0 m1 fired t k Hid Hm0 Hst _ _ His Hn _ Ht Hst' _ Hno _ Hsp|
     c m1 -> His Hn _ Ht Hst' _ Hsp|_ His Hn _ _ Hsp].
  - apply Hnext; [done..|]. intros. rewrite His in *. by eexists.
  - apply Hnext; [done..|]. intros id m'. rewrite His. intros [[<- _]|[_ ?]]%lookup_insert_Some; eauto.
  - apply Hnext; [done..|]. intros id m'. rewrite His. intros [_ ?]%lookup_delete_Some; eauto.
  - destruct (Hi _ _ Hm0) as (Hin & Hst0). rewrite Hst in Hst0. destruct Hst0 as [_ Hc].
    rewrite (spawn_tasks_one _ _ _ _ _ _ Hsp). split.
    + rewrite Hn. apply tasks_ok_insert; [set_solver|].
      eapply tasks_ok_mono; [|done|done]. set_solver.
    + intros id m'. rewrite His. intros [[<- <-]|[Hne Em]]%lookup_insert_Some.
      * split; [rewrite Ht; set_solver|]. rewrite Hst', Ht.
        apply to_come_spawned; [|done]. eapply delivered_to_come; eauto.
      * eapply ism_ok_frame; [reflexivity| |by eapply other_ism_ok, Hi].
        intros P. intros HP. apply to_come_insert; [done|]. intros Heq. by simpl in Heq.
  - rewrite (spawn_tasks_one _ _ _ _ _ _ Hsp). split.
    + rewrite Hn. apply tasks_ok_insert; [set_solver|].
      eapply tasks_ok_mono; [|done|done]. set_solver.
    + intros id m'. rewrite His. intros [[<- <-]|[Hne Em]]%lookup_insert_Some.
      * split; [rewrite Ht; set_solver|]. rewrite Hst', Ht.
        apply to_come_spawned; [|done]. inversion Hd as [? Hf|? Hf|]; [|done].
        intros t1 tk1 Ht1 E1 E2 _. destruct (Hts _ _ Ht1) as [_ Hin]. rewrite E1, E2 in Hin. done.
      * eapply ism_ok_frame; [reflexivity| |by eapply other_ism_ok, Hi].
        intros P. intros HP. apply to_come_insert; [done|]. intros Heq. by simpl in Heq.
  - apply Hnext; [done..|]. intros id m'. by rewrite His.
Qed.

Definition sys_inv y : Prop := inv (sy_tokens y) (sy_tasks y) (sy_service y).

Lemma sys_inv_init : sys_inv sys_init.
Proof. split; [intros t tk|intros id m]; simpl; by rewrite lookup_empty. Qed.

Lemma step_moved_eq e ev y tasks' s' acts :
  sys_inv y → delivered y ev tasks' →
  step e ev (sy_service y) = Some (s', acts) → moved ev (sy_service y) s' acts.
Proof.
  intros Hi Hd Hs. destruct (step_moved e ev y tasks' Hi Hd) as [[_ H1]|(s1 & a1 & H1 & H2)];
    by simplify_eq.
Qed.

Lemma sys_inv_step y y' : sys_inv y → sys_step y y' → sys_inv y'.
Proof.
  intros Hi [e ev tasks' outputs s' acts Hd Ho Hs]. unfold sys_inv. simpl.
  eapply moved_inv; eauto. by eapply step_moved_eq.
Qed.

(** An induction principle for reachable states: the step comes with what it
    does, and the invariant is at hand. *)
Lemma reachable_ind (P : Sys Q → Prop) :
  P sys_init →
  (∀ y ev tasks' tasks'' s' acts,
     sys_inv y → P y → delivered y ev tasks' → moved ev (sy_service y) s' acts →
     P (mkSys s' tasks'' (used_tokens ev ∪ sy_tokens y) (sy_log y ++ acts)
          (acks_of ev (sy_service y) ∪ sy_acked y)
          (notification_acks_of ev (sy_service y) ∪ sy_acked_notifications y))) →
  ∀ y, rtc sys_step sys_init y → sys_inv y ∧ P y.
Proof.
  intros H0' HS. apply rtc_ind_r; [by split; [apply sys_inv_init|]|].
  intros y y' _ Hst [Hi HP]. split; [by eapply sys_inv_step|].
  destruct Hst as [e ev tasks' outputs s' acts Hd Ho Hs]. eapply HS; eauto.
  by eapply step_moved_eq.
Qed.

(** *** Effects *)

Lemma moved_effects ev s s' acts :
  moved ev s s' acts →
  effects acts = [] ∨
  ∃ id m, sv_isms s !! id = Some m ∧
    (∀ token o, ev = EvTask id token o → token = ism_fencing_token m) ∧
    event_id ev s = Some id ∧
    (∀ x, x ∈ effects acts → fe_invocation_id x = id ∧ fe_fencing_token x = ism_fencing_token m) ∧
    ((∀ x, x ∈ effects acts → is_terminal (fe_kind x) = false) ∨
     ((∃ x, effects acts = [x]) ∧ sv_isms s' !! id = None)).
Proof.
  destruct 1 as
    [? ? ? ? He ?|i0 m0 m1 Hid Hm0 His _ _ Htok Heff _ _|
     i0 m0 Hid Hm0 His _ _ _ Htok [He|(x & Hx & Ht & E1 & E2)] _| | |]; try (by left); right.
  - exists i0, m0. split_and!; try done; [|left]; intros x Hx; destruct (Heff x Hx) as (? & ? & ? & _); done.
  - exists i0, m0. split_and!; try done.
    + rewrite Hx. by intros ? ->%list_elem_of_singleton.
    + right. split; [by eexists|]. rewrite His. by rewrite lookup_delete_eq.
Qed.

Lemma moved_token ev s s' acts id m' :
  moved ev s s' acts → sv_isms s' !! id = Some m' →
  (∃ m, sv_isms s !! id = Some m ∧ ism_fencing_token m = ism_fencing_token m') ∨
  (∃ c, ev = EvInvoke c ∧ id = iv_invocation_id c ∧ ism_fencing_token m' = iv_fencing_token c).
Proof.
  intros Hm Em'. destruct Hm as
    [His|i0 m0 m1 Hid Hm0 His _ Ht|i0 m0 Hid Hm0 His|
     i0 m0 m1 fired t k Hid Hm0 _ _ _ His _ _ Ht|c m1 -> His _ _ Ht|_ His];
    rewrite His in Em'.
  - left. eauto.
  - apply lookup_insert_Some in Em' as [[<- <-]|[_ ?]]; left; eauto.
  - apply lookup_delete_Some in Em' as [_ ?]. left. eauto.
  - apply lookup_insert_Some in Em' as [[<- <-]|[_ ?]]; left; eauto.
  - apply lookup_insert_Some in Em' as [[<- <-]|[_ ?]]; [right|left]; eauto.
  - done.
Qed.

(** The attempt an effect belongs to. *)
Definition attempt_of (x : FencedEffect) : Z * Z := (fe_invocation_id x, fe_fencing_token x).

Definition log_ok y : Prop :=
  (∀ x, x ∈ effects (sy_log y) → attempt_of x ∈ sy_tokens y) ∧
  (∀ x m, x ∈ effects (sy_log y) → is_terminal (fe_kind x) = true →
     sv_isms (sy_service y) !! fe_invocation_id x = Some m →
     ism_fencing_token m ≠ fe_fencing_token x) ∧
  (∀ l1 x l2, effects (sy_log y) = l1 ++ x :: l2 → is_terminal (fe_kind x) = true →
     ∀ x', x' ∈ l2 → attempt_of x' ≠ attempt_of x).

Lemma log_ok_step y ev tasks' tasks'' s' acts :
  sys_inv y → log_ok y → delivered y ev tasks' → moved ev (sy_service y) s' acts →
  log_ok (mkSys s' tasks'' (used_tokens ev ∪ sy_tokens y) (sy_log y ++ acts)
            (acks_of ev (sy_service y) ∪ sy_acked y)
            (notification_acks_of ev (sy_service y) ∪ sy_acked_notifications y)).
Proof.
  intros [_ Hi] (Hin & Hterm & Hlast) Hd Hm. pose proof (moved_effects _ _ _ _ Hm) as Heff.
  pose proof (λ id m', moved_token _ _ _ _ id m' Hm) as Htok.
  unfold log_ok. simpl. rewrite effects_app.
  (* a state machine that is still there never had a terminal effect *)
  assert (Hold : ∀ x m', x ∈ effects (sy_log y) → is_terminal (fe_kind x) = true →
    sv_isms s' !! fe_invocation_id x = Some m' → ism_fencing_token m' ≠ fe_fencing_token x).
  { intros x m' Hx Ht Em' Heq. destruct (Htok _ _ Em') as [(m & Em & E)|(c & -> & E1 & E2)].
    - apply (Hterm x m); [done|done|done|congruence].
    - inversion Hd as [? Hfresh|? Hf|]; [|done]. apply Hfresh. rewrite <- E1, <- E2, Heq.
      by apply Hin. }
  destruct Heff as [->|(id & m & Em & _ & _ & Hx & Hcase)].
  { rewrite app_nil_r. split_and!; [|done|done]. intros x Hx. apply Hin in Hx. set_solver. }
  assert (Hnew : ∀ x, x ∈ effects acts → attempt_of x = (id, ism_fencing_token m)).
  { intros x Hx'. destruct (Hx x Hx') as [E1 E2]. unfold attempt_of. by rewrite E1, E2. }
  assert (Hfirst : ∀ x x', x ∈ effects (sy_log y) → is_terminal (fe_kind x) = true →
    x' ∈ effects acts → attempt_of x' ≠ attempt_of x).
  { intros x x' Hx1 Ht Hx2 Heq. rewrite (Hnew x' Hx2) in Heq. unfold attempt_of in Heq. simplify_eq.
    by apply (Hterm x m). }
  split_and!.
  - intros x [Hx1|Hx1]%elem_of_app; [apply Hin in Hx1; set_solver|].
    rewrite (Hnew x Hx1). destruct (Hi _ _ Em) as [? _]. set_solver.
  - intros x m' [Hx1|Hx1]%elem_of_app Ht Em'; [by apply Hold|].
    destruct Hcase as [Hnt|[_ Hnone]]; [by rewrite Hnt in Ht|].
    destruct (Hx x Hx1) as [E1 _]. by rewrite E1, Hnone in Em'.
  - intros l1 x l2 Heq Ht x' Hx'. apply app_eq_inv in Heq as [(k & E1 & E2)|(k & E1 & E2)].
    + destruct k as [|x0 k]; simplify_eq/=.
      * (* the terminal effect is the first new one *)
        destruct Hcase as [Hnt|[[x1 Hx1] _]].
        { rewrite Hnt in Ht; [done|]. rewrite <- E2. by apply elem_of_cons; left. }
        rewrite Hx1 in E2. simplify_eq. by apply elem_of_nil in Hx'.
      * apply elem_of_app in Hx' as [Hx'|Hx']; [by eapply Hlast|].
        apply Hfirst; [|done|done]. rewrite E1. set_solver.
    + destruct Hcase as [Hnt|[[x1 Hx1] _]].
      { rewrite Hnt in Ht; [done|]. rewrite E2. set_solver. }
      rewrite Hx1 in E2. destruct k as [|? [|??]]; simplify_eq/=. by apply elem_of_nil in Hx'.
Qed.

Lemma log_ok_reachable y : rtc sys_step sys_init y → sys_inv y ∧ log_ok y.
Proof.
  apply reachable_ind.
  - split_and!; simpl.
    + intros x Hx. by apply elem_of_nil in Hx.
    + intros x m Hx. by apply elem_of_nil in Hx.
    + intros l1 x l2 Hx. by destruct l1.
  - intros. by eapply log_ok_step.
Qed.

(** *** What the journal tracker knows *)

Definition command_effect (id token i : Z) (r : RawEntry) : FencedEffect :=
  mkFenced token id (EkJournalEntryV2RawEntry (Some i) r).
Definition notification_effect (id token : Z) (n : RawNotification) : FencedEffect :=
  mkFenced token id (EkJournalEntryV2RawEntry None (ReNotification n)).

(** Every command and proposal that was emitted is acknowledged, or the
    tracker still waits for it; and it records acknowledgements only. *)
Definition tracks (l : list FencedEffect) (acked : gset (Z * Z * Z))
    (nacked : gset (Z * Z * NotificationId)) (id token : Z) (t : JournalTracker) : Prop :=
  (∀ i r, command_effect id token i r ∈ l →
     (∃ j, i ≤ j ∧ (id, token, j) ∈ acked) ∨ ∃ j, last_command_sent t = Some j ∧ i ≤ j) ∧
  (∀ j, last_acked_command t = Some j → (id, token, j) ∈ acked) ∧
  (∀ n, notification_effect id token n ∈ l →
     (id, token, rn_id n) ∈ nacked ∨ rn_id n ∈ last_notifications_proposed t) ∧
  (∀ n, n ∈ last_acked_notifications t → (id, token, n) ∈ nacked).

Definition all_stored (l : list FencedEffect) (acked : gset (Z * Z * Z))
    (nacked : gset (Z * Z * NotificationId)) (id token : Z) : Prop :=
  (∀ i r, command_effect id token i r ∈ l → ∃ j, i ≤ j ∧ (id, token, j) ∈ acked) ∧
  (∀ n, notification_effect id token n ∈ l → (id, token, rn_id n) ∈ nacked).

Lemma can_retry_true t :
  can_retry t = true →
  (∀ j, last_command_sent t = Some j → ∃ a, last_acked_command t = Some a ∧ j ≤ a) ∧
  last_notifications_proposed t ⊆ last_acked_notifications t.
Proof.
  unfold can_retry.
  destruct (last_acked_command t) as [a|], (last_command_sent t) as [j|]; simpl; try done.
  - destruct (Z.leb_spec j a); simpl; [|done]. intros ?%bool_decide_eq_true. split; [|done].
    intros ? ?. simplify_eq. eauto.
  - by intros ?%bool_decide_eq_true.
  - by intros ?%bool_decide_eq_true.
Qed.

Lemma can_retry_stored l acked nacked id token t :
  tracks l acked nacked id token t → can_retry t = true → all_stored l acked nacked id token.
Proof.
  intros (Hc & Ha & Hn & Hna) [Hcmd Hsub]%can_retry_true. split.
  - intros i r Hi. destruct (Hc i r Hi) as [?|(j & Hj & Hle)]; [done|].
    destruct (Hcmd j Hj) as (a & Ea & ?). exists a. split; [lia|by apply Ha].
  - intros n Hi. destruct (Hn n Hi) as [?|Hp]; [done|]. apply Hna. set_solver.
Qed.

Lemma tracks_mono l acked acked' nacked nacked' id token t :
  acked ⊆ acked' → nacked ⊆ nacked' →
  tracks l acked nacked id token t → tracks l acked' nacked' id token t.
Proof.
  intros H1 H2 (Hc & Ha & Hn & Hna). split_and!.
  - intros i r Hi. destruct (Hc i r Hi) as [(j & ? & ?)|?]; [left; exists j; set_solver|by right].
  - intros j Hj. apply Ha in Hj. set_solver.
  - intros n Hi. destruct (Hn n Hi); [left; set_solver|by right].
  - intros n Hi. apply Hna in Hi. set_solver.
Qed.

Lemma max_some_ge i o j : o = Some j → ∃ k, max_some i o = Some k ∧ j ≤ k.
Proof. intros ->. simpl. eexists. split; [done|lia]. Qed.
Lemma max_some_self i o : ∃ k, max_some i o = Some k ∧ i ≤ k.
Proof. destruct o; simpl; eexists; (split; [done|lia]). Qed.
Lemma max_some_inv i o j : max_some i o = Some j → j = i ∨ o = Some j.
Proof. destruct o as [k|]; simpl; intros; simplify_eq; [|by left]. destruct (Z.max_spec i k) as [[? ->]|[? ->]]; auto. Qed.

(** The tracker after an event knows the effects of the event. *)
Lemma tracks_after l l' acked nacked ev id m s :
  sv_isms s !! id = Some m → event_id ev s = Some id →
  entry_effects ev id (ism_fencing_token m) l' →
  ∀ t, tracks l acked nacked id (ism_fencing_token m) t →
    tracks (l ++ l') (acks_of ev s ∪ acked) (notification_acks_of ev s ∪ nacked) id
      (ism_fencing_token m) (tracker_after ev t).
Proof.
  intros Hm Hid Heff t Ht.
  assert (Hmono : tracks l (acks_of ev s ∪ acked) (notification_acks_of ev s ∪ nacked) id
    (ism_fencing_token m) t) by (eapply tracks_mono; [| |done]; set_solver).
  destruct Hmono as (Hc & Ha & Hn & Hna).
  assert (Hcmd : ∀ i r, command_effect id (ism_fencing_token m) i r ∈ l' →
    ∃ j, last_command_sent (tracker_after ev t) = Some j ∧ i ≤ j).
  { intros i r Hi. destruct (Heff _ Hi) as (_ & _ & _ & Hk). simpl in Hk.
    destruct Hk as (c & a & ->). simpl. apply max_some_self. }
  assert (Hprop : ∀ n, notification_effect id (ism_fencing_token m) n ∈ l' →
    rn_id n ∈ last_notifications_proposed (tracker_after ev t)).
  { intros n Hi. destruct (Heff _ Hi) as (_ & _ & _ & Hk). simpl in Hk.
    destruct Hk as (a & ->). simpl. set_solver. }
  assert (Hkeep : ∀ j, last_command_sent t = Some j →
    ∃ k, last_command_sent (tracker_after ev t) = Some k ∧ j ≤ k).
  { intros j Hj. destruct ev as [| | | | | |? ? []|]; simpl; eauto using max_some_ge with lia. }
  split_and!.
  - intros i r [Hi|Hi]%elem_of_app; [|right; by eapply Hcmd].
    destruct (Hc i r Hi) as [?|(j & Hj & Hle)]; [by left|right].
    destruct (Hkeep j Hj) as (k & Hk & ?). exists k. split; [done|lia].
  - intros j Hj. destruct ev as [|?|id' j'| | | |? ? []|]; simpl in *; try (by apply Ha).
    simplify_eq. rewrite Hm in *. apply max_some_inv in Hj as [->|Hj]; [set_solver|by apply Ha].
  - intros n [Hi|Hi]%elem_of_app; [|right; by eapply Hprop].
    destruct (Hn n Hi) as [?|?]; [by left|right].
    destruct ev as [| | | | | |? ? []|]; simpl; set_solver.
  - intros n Hi. destruct ev as [|id' i' n'| | | | |? ? []|]; simpl in *; try (by apply Hna).
    simplify_eq. rewrite Hm in *. apply elem_of_union in Hi as [Hi|Hi]; [set_solver|by apply Hna].
Qed.

Definition tracker_of m : option JournalTracker :=
  match ism_state m with
  | New => None
  | InFlight fl => Some (fl_journal_tracker fl)
  | WaitingRetry _ t _ => Some t
  end.

Definition tracked y : Prop := ∀ id m t,
  sv_isms (sy_service y) !! id = Some m → tracker_of m = Some t →
  tracks (effects (sy_log y)) (sy_acked y) (sy_acked_notifications y) id (ism_fencing_token m) t.

Lemma tracks_app_other l l' acked nacked id token t :
  (∀ x, x ∈ l' → fe_invocation_id x ≠ id) → tracks l acked nacked id token t →
  tracks (l ++ l') acked nacked id token t.
Proof.
  intros Ho (Hc & Ha & Hn & Hna). split_and!; try done.
  - intros i r [Hi|Hi]%elem_of_app; [by eapply Hc|]. by destruct (Ho _ Hi).
  - intros n [Hi|Hi]%elem_of_app; [by apply Hn|]. by destruct (Ho _ Hi).
Qed.

Lemma tracks_stored l acked nacked id token :
  all_stored l acked nacked id token → tracks l acked nacked id token tracker_default.
Proof. intros [Hc Hn]. split_and!; simpl; try done; eauto. Qed.

(** The tracker of a state machine before a retry, with the event counted in. *)
Lemma retry_stored y ev s' acts id m fired t k :
  tracked y → moved ev (sy_service y) s' acts → event_id ev (sy_service y) = Some id →
  sv_isms (sy_service y) !! id = Some m → ism_state m = WaitingRetry fired t k →
  can_retry (tracker_after ev t) = true →
  all_stored (effects (sy_log y)) (acks_of ev (sy_service y) ∪ sy_acked y)
    (notification_acks_of ev (sy_service y) ∪ sy_acked_notifications y) id (ism_fencing_token m).
Proof.
  intros Htr Hm Hid Em Est Hcan. eapply can_retry_stored; [|done].
  assert (Hx : entry_effects ev id (ism_fencing_token m) []) by (intros x Hx; by apply elem_of_nil in Hx).
  rewrite <- (app_nil_r (effects (sy_log y))). eapply tracks_after; [done|done|done|].
  eapply Htr; [done|]. unfold tracker_of. by rewrite Est.
Qed.

Lemma tracked_step y ev tasks' tasks'' s' acts :
  log_ok y → tracked y → delivered y ev tasks' → moved ev (sy_service y) s' acts →
  tracked (mkSys s' tasks'' (used_tokens ev ∪ sy_tokens y) (sy_log y ++ acts)
             (acks_of ev (sy_service y) ∪ sy_acked y)
             (notification_acks_of ev (sy_service y) ∪ sy_acked_notifications y)).
Proof.
  intros Hlog Htr Hd Hm id m' t' Em' Et'. simpl in *. rewrite effects_app.
  assert (Hother : ∀ m, sv_isms (sy_service y) !! id = Some m → m' = m →
    (∀ x, x ∈ effects acts → fe_invocation_id x ≠ id) →
    tracks (effects (sy_log y) ++ effects acts) (acks_of ev (sy_service y) ∪ sy_acked y)
      (notification_acks_of ev (sy_service y) ∪ sy_acked_notifications y) id
      (ism_fencing_token m') t').
  { intros m Em -> Hx. apply tracks_app_other; [done|].
    eapply tracks_mono; [..|by eapply Htr]; set_solver. }
  destruct Hm as
    [His _ _ _ He _|i0 m0 m1 Hid Hm0 His _ Ht Htok Heff _ Hst|i0 m0 Hid Hm0 His _ _ _ _ Heff _|
     i0 m0 m1 fired t k Hid Hm0 Hst Hcan Hf His Hn Hti Ht Hst' Hni Hno He Hsp|
     c m1 -> His _ _ Ht Hst' He _|_ His]; rewrite His in Em'.
  - eapply Hother; [done|done|]. rewrite He. intros x Hx. by apply elem_of_nil in Hx.
  - apply lookup_insert_Some in Em' as [[<- <-]|[Hne Em]].
    2: { eapply Hother; [done|done|]. intros x Hx. destruct (Heff x Hx) as [-> _]. done. }
    rewrite Ht. assert (Hx : ∃ t0, tracker_of m0 = Some t0 ∧ t' = tracker_after ev t0).
    { unfold tracker_of in *. destruct (ism_state m0), (ism_state m1); try done; simplify_eq/=.
      - destruct Hst as (_ & -> & _). eauto.
      - destruct Hst as (_ & -> & _ & (token & o & -> & Ho) & _). eexists. split; [done|].
        by destruct o.
      - destruct Hst as (_ & -> & _). eauto. }
    destruct Hx as (t0 & Ht0 & ->). eapply tracks_after; try done. by eapply Htr.
  - apply lookup_delete_Some in Em' as [Hne Em]. eapply Hother; [done|done|].
    destruct Heff as [->|(x & -> & _ & E & _)]; intros x' Hx'; [by apply elem_of_nil in Hx'|].
    apply list_elem_of_singleton in Hx' as ->. congruence.
  - rewrite He in *. apply lookup_insert_Some in Em' as [[<- <-]|[Hne Em]].
    2: { eapply Hother; [done|done|]. intros x Hx. by apply elem_of_nil in Hx. }
    unfold tracker_of in Et'. rewrite Hst' in Et'. simplify_eq. simpl. rewrite app_nil_r, Ht.
    apply tracks_stored. eapply (retry_stored y ev s' acts); try done.
    by eapply (mv_retry _ _ _ _ i0 m0 m1).
  - rewrite He in *. apply lookup_insert_Some in Em' as [[<- <-]|[Hne Em]].
    2: { eapply Hother; [done|done|]. intros x Hx. by apply elem_of_nil in Hx. }
    unfold tracker_of in Et'. rewrite Hst' in Et'. simplify_eq. simpl. rewrite app_nil_r, Ht.
    apply tracks_stored. inversion Hd as [? Hfresh|? Hf|]; [|done]. destruct Hlog as [Hin _].
    split; [intros i r Hi|intros n Hi]; by apply Hin in Hi.
  - done.
Qed.

Lemma tracked_reachable y : rtc sys_step sys_init y → sys_inv y ∧ log_ok y ∧ tracked y.
Proof.
  intros Hr. pose proof Hr as [Hi [Hl Ht]]%(reachable_ind (λ y, log_ok y ∧ tracked y)).
  - done.
  - split; [apply (log_ok_reachable sys_init); reflexivity|]. intros id m t. simpl.
    by rewrite lookup_empty.
  - intros y' ev tasks' tasks'' s' acts Hi [Hl Ht] Hd Hm.
    split; [by eapply log_ok_step|by eapply tracked_step].
Qed.

(** ** Theorems *)


(** C26. Fencing.  In a reachable state, an effect that a message of a task
    causes carries the fencing token of that task; and a terminal effect of an
    attempt (suspension, pause, yield, end or failure) is the last effect with
    its invocation and token, for ever. *)
Theorem terminal_effect_is_final (y : Sys Q) :
  rtc sys_step sys_init y →
  (∀ e id token o tasks' s' acts x,
     delivered y (EvTask id token o) tasks' →
     step e (EvTask id token o) (sy_service y) = Some (s', acts) → x ∈ effects acts →
     fe_invocation_id x = id ∧ fe_fencing_token x = token) ∧
  (∀ l1 x l2, effects (sy_log y) = l1 ++ x :: l2 → is_terminal (fe_kind x) = true →
     ∀ x', x' ∈ l2 → attempt_of x' ≠ attempt_of x).
Proof.
  intros [Hi (_ & _ & Hlast)]%log_ok_reachable. split; [|done].
  intros e id token o tasks' s' acts x Hd Hs Hx.
  apply step_moved_eq with (tasks' := tasks') in Hs; [|done..].
  destruct (moved_effects _ _ _ _ Hs) as [Hn|(id' & m & _ & Htok & Hid & Hall & _)].
  { rewrite Hn in Hx. by apply elem_of_nil in Hx. }
  simpl in Hid. simplify_eq. destruct (Hall x Hx) as [-> ->]. split; [done|].
  symmetry. by eapply Htok.
Qed.

(** C25. No retry before everything is stored.  When a task is started again
    for an attempt, every command that the attempt emitted has been covered by
    an acknowledgement of the same or a higher index, and every notification it
    proposed has come back from the partition processor. *)
Theorem retry_only_when_stored (y : Sys Q) e ev tasks' s' acts t id token :
  rtc sys_step sys_init y → delivered y ev tasks' →
  step e ev (sy_service y) = Some (s', acts) → (t, id, token) ∈ spawns acts →
  (∀ c, ev ≠ EvInvoke c) →
  all_stored (effects (sy_log y)) (acks_of ev (sy_service y) ∪ sy_acked y)
    (notification_acks_of ev (sy_service y) ∪ sy_acked_notifications y) id token.
Proof.
  intros (Hi & _ & Htr)%tracked_reachable Hd Hs Hsp Hni.
  apply step_moved_eq with (tasks' := tasks') in Hs; [|done..].
  pose proof Hs as Hm. destruct Hs as
    [? ? ? ? ? Hn|? ? ? ? ? ? ? ? ? ? Hn ?|? ? ? ? ? ? ? ? ? ? Hn|
     i0 m0 m1 fired t0 k Hid Hm0 Hst Hcan Hf His Hnt Hti Ht Hst' _ Hno Hne Hn|c ? -> |? ? ? ? ? Hn];
    try (rewrite Hn in Hsp; by apply elem_of_nil in Hsp); [|by destruct (Hni c)].
  rewrite Hn in Hsp. apply list_elem_of_singleton in Hsp. simplify_eq.
  by eapply retry_stored.
Qed.
End system.

(** ** Runs

    An executable driver of the system: it delivers the given events, as far as
    they can be delivered, and lets the given tasks send their next message. *)

Section runs.
Context {Q : Type} `{DelayQueue Q} `{ErrorText}.
Implicit Types (y : Sys Q) (e : Env).

Inductive Move := MInput (ev : Event) | MOutput (t : nat).

Definition deliver (outputs : nat → list TaskOutputInner) e (ev : Event) (tasks : gmap nat Task) y
  : option (Sys Q) :=
  let! r := step e ev (sy_service y) in
  Some (mkSys r.1 (spawn_tasks outputs r.2 tasks) (used_tokens ev ∪ sy_tokens y)
          (sy_log y ++ r.2) (acks_of ev (sy_service y) ∪ sy_acked y)
          (notification_acks_of ev (sy_service y) ∪ sy_acked_notifications y)).

Definition run_move (outputs : nat → list TaskOutputInner) e (mv : Move) y : option (Sys Q) :=
  match mv with
  | MInput ev =>
      let can :=
        match ev with
        | EvInvoke c =>
            bool_decide ((iv_invocation_id c, iv_fencing_token c) ∉ sy_tokens y)
            && (0 <=? rr_retry_attempts (iv_permit c))
        | EvTask _ _ _ => false
        | EvTimer k => bool_decide (is_Some (dq_items (sv_timers (sy_service y)) !! k))
        | _ => true
        end in
      if can then deliver outputs e ev (sy_tasks y) y else None
  | MOutput t =>
      let! tk := sy_tasks y !! t in
      match tk_outputs tk with
      | [] => None
      | o :: rest =>
          deliver outputs e (EvTask (tk_id tk) (tk_token tk) o)
            (<[t := mkTask (tk_id tk) (tk_token tk) rest]> (sy_tasks y)) y
      end
  end.

Fixpoint run (outputs : nat → list TaskOutputInner) e (mvs : list Move) y : option (Sys Q) :=
  match mvs with
  | [] => Some y
  | mv :: mvs => let! y' := run_move outputs e mv y in run outputs e mvs y'
  end.

Lemma deliver_step outputs e ev tasks y y' :
  (∀ t, conforming false (outputs t) = true) → delivered y ev tasks →
  deliver outputs e ev tasks y = Some y' → sys_step y y'.
Proof.
  intros Ho Hd Hy. unfold deliver in Hy. apply bind_Some in Hy as ([s' acts] & Hs & Hy).
  simplify_eq/=. by econstructor.
Qed.

Lemma run_reaches outputs e mvs y y' :
  (∀ t, conforming false (outputs t) = true) →
  run outputs e mvs y = Some y' → rtc sys_step y y'.
Proof.
  intros Ho. revert y. induction mvs as [|mv mvs IH]; intros y Hr; simpl in Hr.
  { by simplify_eq. }
  apply bind_Some in Hr as (y1 & Hm & Hr). eapply rtc_l; [|by eapply IH].
  destruct mv as [ev|t]; simpl in Hm.
  - destruct ev; try (case_bool_decide; simpl in Hm); case_bool; try done;
      (eapply deliver_step; [done|..|done]); constructor; done.
  - apply bind_Some in Hm as (tk & Htk & Hm). destruct (tk_outputs tk) as [|o rest] eqn:Eo; [done|].
    eapply deliver_step; [done|..|done]. by econstructor.
Qed.
End runs.

(** ** Timers

    A queue that never gives out a key twice: [dq_used] are the keys given out
    so far. *)

Class UniqueKeys (Q : Type) `{DelayQueue Q} := {
  dq_used : Q → Z → Prop;
  dq_unique_insert v d q k q' :
    dq_insert v d q = (k, q') → ¬ dq_used q k ∧ ∀ k', dq_used q' k' ↔ k' = k ∨ dq_used q k';
  dq_unique_remove k q k' : dq_used (dq_try_remove k q) k' ↔ dq_used q k';
}.

Section timers.
Context {Q : Type} `{DelayQueue Q} `{ErrorText} `{!DelayQueueLaws Q} `{!UniqueKeys Q}.
Implicit Types (s : Service Q) (y : Sys Q) (m : InvocationStateMachine) (q : Q).

(** The invocation waits for the timer with this key. *)
Definition waits (isms : gmap Z InvocationStateMachine) (id k : Z) (fired : bool) : Prop :=
  ∃ m t, isms !! id = Some m ∧ ism_state m = WaitingRetry fired t k.

Definition timers_ok s : Prop :=
  (∀ id k b, waits (sv_isms s) id k b → dq_used (sv_timers s) k) ∧
  (∀ id id' k b b', waits (sv_isms s) id k b → waits (sv_isms s) id' k b' → id = id') ∧
  (∀ k id, dq_items (sv_timers s) !! k = Some id ↔ waits (sv_isms s) id k false).

Lemma waits_fun isms id k k' b b' : waits isms id k b → waits isms id k' b' → k = k' ∧ b = b'.
Proof.
  intros (m & t & E & Es) (m' & t' & E' & Es'). rewrite E in E'. injection E' as <-.
  rewrite Es in Es'. by injection Es'.
Qed.

Lemma waits_insert isms id m id' k b :
  waits (<[id := m]> isms) id' k b ↔
  (id' = id ∧ ∃ t, ism_state m = WaitingRetry b t k) ∨ (id' ≠ id ∧ waits isms id' k b).
Proof.
  unfold waits. split.
  - intros (m' & t & [[<- <-]|[Hne E]]%lookup_insert_Some & Es); [left|right]; eauto.
  - intros [[-> [t Ht]]|(Hne & m' & t & E & Es)]; eexists _, _; (split; [|done]).
    + by rewrite lookup_insert_eq.
    + by rewrite lookup_insert_ne.
Qed.

Lemma waits_delete isms id id' k b :
  waits (delete id isms) id' k b ↔ id' ≠ id ∧ waits isms id' k b.
Proof.
  unfold waits. split.
  - intros (m' & t & [Hne E]%lookup_delete_Some & Es). eauto 6.
  - intros (Hne & m' & t & E & Es). eexists _, _. split; [|done]. by rewrite lookup_delete_ne.
Qed.

Lemma cancelled_used m q k : dq_used (cancelled m q) k ↔ dq_used q k.
Proof. unfold cancelled. destruct (take_retry_timer_key m); [apply dq_unique_remove|done]. Qed.

Lemma cancelled_items m q k v :
  dq_items (cancelled m q) !! k = Some v ↔
  take_retry_timer_key m ≠ Some k ∧ dq_items q !! k = Some v.
Proof.
  unfold cancelled. destruct (take_retry_timer_key m) as [k'|].
  - rewrite dq_try_remove_items, lookup_delete_Some. naive_solver.
  - naive_solver.
Qed.

(** The timer of another invocation survives when this one's is cancelled. *)
Lemma timers_ok_drop s s' id m :
  timers_ok s → sv_isms s !! id = Some m →
  (∀ id' k b, waits (sv_isms s') id' k b ↔ id' ≠ id ∧ waits (sv_isms s) id' k b) →
  sv_timers s' = cancelled m (sv_timers s) → timers_ok s'.
Proof.
  intros (H1 & H2 & H3) Em Hw Ht. unfold timers_ok. rewrite Ht. split_and!.
  - intros id' k b [_ Hx]%Hw. rewrite cancelled_used. by eapply H1.
  - intros i1 i2 k b b' [_ Hx1]%Hw [_ Hx2]%Hw. by eapply H2.
  - intros k id'. rewrite cancelled_items, Hw, H3. split.
    + intros [Hk Hx]. split; [|done]. intros ->. destruct Hx as (m' & t & E & Es). simplify_eq.
      apply Hk. unfold take_retry_timer_key. by rewrite Es.
    + intros [Hne Hx]. split; [|done]. intros Hk. apply Hne.
      unfold take_retry_timer_key in Hk. destruct (ism_state m) as [| |f t k'] eqn:Es; simplify_eq.
      apply (H2 id' id k false f Hx). by exists m, t.
Qed.

Lemma timers_ok_same s s' :
  timers_ok s → (∀ id k b, waits (sv_isms s') id k b ↔ waits (sv_isms s) id k b) →
  sv_timers s' = sv_timers s → timers_ok s'.
Proof.
  intros (H1 & H2 & H3) Hw Ht. unfold timers_ok. rewrite Ht. split_and!.
  - intros id k b Hx%Hw. by eapply H1.
  - intros i1 i2 k b b' Hx1%Hw Hx2%Hw. by eapply H2.
  - intros k id. by rewrite Hw, H3.
Qed.

(** The timer [k] of [id] is taken out, and [id] does not wait for it any more. *)
Lemma timers_ok_fired s s' id k :
  timers_ok s → waits (sv_isms s) id k false →
  (∀ id' k' b, id' ≠ id → waits (sv_isms s') id' k' b ↔ waits (sv_isms s) id' k' b) →
  (∀ k' b, waits (sv_isms s') id k' b → k' = k ∧ b = true) →
  sv_timers s' = dq_try_remove k (sv_timers s) → timers_ok s'.
Proof.
  intros (H1 & H2 & H3) Hk Hw Hid Ht. unfold timers_ok. rewrite Ht.
  assert (Hold : ∀ id' k' b, waits (sv_isms s') id' k' b → ∃ b', waits (sv_isms s) id' k' b').
  { intros id' k' b Hx. destruct (decide (id' = id)) as [->|Hne].
    - destruct (Hid _ _ Hx) as [-> _]. eauto.
    - exists b. by apply Hw. }
  split_and!.
  - intros id' k' b (b' & Hx)%Hold. rewrite dq_unique_remove. by eapply H1.
  - intros i1 i2 k' b b' (b1 & Hx1)%Hold (b2 & Hx2)%Hold. by eapply H2.
  - intros k' id'. rewrite dq_try_remove_items, lookup_delete_Some, H3. split.
    + intros [Hne Hx]. apply Hw; [|done]. intros ->. by destruct (waits_fun _ _ _ _ _ _ Hk Hx).
    + intros Hx. destruct (decide (id' = id)) as [->|Hne]; [by destruct (Hid _ _ Hx)|].
      apply Hw in Hx; [|done]. split; [|done]. intros <-. apply Hne. by eapply H2.
Qed.

(** A new timer for an invocation that did not wait. *)
Lemma timers_ok_insert s s' id k d :
  timers_ok s → (∀ k' b, ¬ waits (sv_isms s) id k' b) →
  dq_insert id d (sv_timers s) = (k, sv_timers s') →
  (∀ id' k' b, waits (sv_isms s') id' k' b ↔
     (id' = id ∧ k' = k ∧ b = false) ∨ (id' ≠ id ∧ waits (sv_isms s) id' k' b)) →
  timers_ok s'.
Proof.
  intros (H1 & H2 & H3) Hno Hins Hw.
  destruct (dq_unique_insert _ _ _ _ _ Hins) as [Hfresh Hused].
  pose proof (dq_insert_items _ _ _ _ _ Hins) as Hitems. split_and!.
  - intros id' k' b [(_ & -> & _)|[_ Hx]]%Hw; apply Hused; [by left|right]. by eapply H1.
  - intros i1 i2 k' b b' [(-> & -> & _)|[_ Hx1]]%Hw [(-> & Hk & _)|[_ Hx2]]%Hw; try done.
    + apply H1 in Hx2. done.
    + subst. apply H1 in Hx1. done.
    + by eapply H2.
  - intros k' id'. rewrite Hitems, lookup_insert_Some, Hw, H3. split.
    + intros [[-> ->]|[Hne Hx]]; [by left|right]. split; [|done]. intros ->. by eapply Hno.
    + intros [(-> & -> & _)|[Hne Hx]]; [by left|right]. split; [|done]. intros <-.
      apply H1 in Hx. done.
Qed.

Lemma foldl_cancelled_items (l : list (Z * InvocationStateMachine)) q k v :
  dq_items (foldl (λ q x, cancelled x.2 q) q l) !! k = Some v ↔
  (∀ x, x ∈ l → take_retry_timer_key x.2 ≠ Some k) ∧ dq_items q !! k = Some v.
Proof.
  revert q. induction l as [|x l IH]; intros q; simpl.
  - split; [|by intros [_ ?]]. intros ?. split; [|done]. intros x Hx. by apply elem_of_nil in Hx.
  - rewrite IH, cancelled_items. split.
    + intros (H1 & H2 & H3). split; [|done]. intros x' [->|?]%elem_of_cons; auto.
    + intros (H1 & H2). split_and!; [|apply H1; set_solver|done]. intros. apply H1. set_solver.
Qed.

Lemma timers_ok_step y ev tasks' s' acts :
  timers_ok (sy_service y) → delivered y ev tasks' → moved ev (sy_service y) s' acts → timers_ok s'.
Proof.
  intros Hok Hd Hm. set (s := sy_service y) in *. pose proof Hok as (_ & H2 & H3).
  (* a delivered timer belongs to an invocation that waits for it *)
  assert (Htimer : ∀ k id, ev = EvTimer k → event_id ev s = Some id → waits (sv_isms s) id k false).
  { intros k id -> Hid. by apply H3. }
  destruct Hm as
    [His _ Ht Hidle _ _|i0 m0 m1 Hid Em His _ _ _ _ _ Hst|i0 m0 Hid Em His _ Ht Hne _ _ _|
     i0 m0 m1 fired t k Hid Em Hst _ Hf His _ Ht _ Hst' _ _ _ _|
     c m1 -> His _ Ht _ Hst' _ _|_ His _ Ht _ _].
  - destruct ev; try (eapply timers_ok_same; [done|by rewrite His|done]).
    exfalso. inversion Hd as [|? Hk|]; subst. destruct Hk as [id Hk]. fold s in Hk.
    destruct (proj1 (H3 _ _) Hk) as (m & t & E & _). by destruct (Hidle id m) as (? & ? & ? & _).
  - destruct (ism_state m0) as [|fl|fired t k] eqn:E0, (ism_state m1) as [|fl'|fired' t' k'] eqn:E1;
      try done.
    + destruct Hst as (_ & _ & Ht & _). eapply timers_ok_same; [done| |].
      * intros id k b. rewrite His, waits_insert, E1. split.
        { intros [[-> [? ?]]|[_ ?]]; done. }
        intros Hx. right. split; [|done]. intros ->. destruct Hx as (? & ? & ? & ?). congruence.
      * rewrite Ht. destruct ev; try done. exfalso.
        destruct (Htimer key i0 eq_refl Hid) as (? & ? & ? & ?). congruence.
    + destruct Hst as (-> & -> & _ & _ & d & Hins). eapply timers_ok_insert; [done| |done|].
      * intros k1 b (? & ? & ? & ?). congruence.
      * intros id k1 b. rewrite His, waits_insert, E1. split.
        { intros [[-> [t Hx]]|?]; [left; by simplify_eq|by right]. }
        intros [(-> & -> & ->)|?]; [left; eauto|by right].
    + destruct Hst as (-> & -> & _ & Ht & Hfired & _).
      assert (Hw : ∀ id k1 b, waits (sv_isms s') id k1 b ↔
        (id = i0 ∧ k1 = k ∧ b = fired') ∨ (id ≠ i0 ∧ waits (sv_isms s) id k1 b)).
      { intros id k1 b. rewrite His, waits_insert, E1. split.
        - intros [[-> [t' Hx]]|?]; [left; by simplify_eq|by right].
        - intros [(-> & -> & ->)|?]; [left; eauto|by right]. }
      assert (Hself : waits (sv_isms s) i0 k fired) by (exists m0, t; done).
      assert (Hsame : fired' = fired → sv_timers s' = sv_timers s → timers_ok s').
      { intros -> Hts. eapply timers_ok_same; [done| |done]. intros id k1 b. rewrite Hw.
        split; [by intros [(-> & -> & ->)|[_ ?]]|]. intros Hx.
        destruct (decide (id = i0)) as [->|]; [left|by right].
        by destruct (waits_fun _ _ _ _ _ _ Hself Hx) as [<- <-]. }
      destruct ev as [c|? ? ?|? ?|?|?| |? ? ?|k0]; try (by apply Hsame).
      pose proof (Htimer k0 i0 eq_refl Hid) as Hk.
      destruct (waits_fun _ _ _ _ _ _ Hself Hk) as [-> ->]. rewrite Z.eqb_refl in Hfired.
      eapply timers_ok_fired; [done|done| | |done].
      * intros id k1 b Hne. rewrite Hw. naive_solver.
      * intros k1 b [(_ & -> & ->)|[? _]]%Hw; done.
  - eapply timers_ok_drop; [done|done| |done]. intros id k b. rewrite His. apply waits_delete.
  - assert (Hw : ∀ id k1 b, waits (sv_isms s') id k1 b ↔ id ≠ i0 ∧ waits (sv_isms s) id k1 b).
    { intros id k1 b. rewrite His, waits_insert, Hst'. naive_solver. }
    assert (Hself : waits (sv_isms s) i0 k fired) by (exists m0, t; done).
    destruct Hf as [Hf | Hf]; [subst fired|subst ev].
    2: { eapply timers_ok_fired; [done|by apply Htimer| | |done].
      * intros. rewrite Hw. naive_solver.
      * intros k1 b [? _]%Hw. done. }
    + assert (Hexp : expired ev (sv_timers s) = sv_timers s).
      { destruct ev; try done. exfalso. pose proof (Htimer key i0 eq_refl Hid) as Hk.
        by destruct (waits_fun _ _ _ _ _ _ Hself Hk). }
      rewrite Hexp in Ht. destruct Hok as (H1 & _ & _). unfold timers_ok. rewrite Ht. split_and!.
      * intros id k1 b [_ Hx]%Hw. by eapply H1.
      * intros i1 i2 k1 b b' [_ Hx1]%Hw [_ Hx2]%Hw. by eapply H2.
      * intros k1 id. rewrite Hw, H3. split; [|by intros [_ ?]]. intros Hx. split; [|done].
        intros ->. by destruct (waits_fun _ _ _ _ _ _ Hself Hx).
  - assert (Hw : ∀ id k1 b, waits (sv_isms s') id k1 b ↔
      id ≠ iv_invocation_id c ∧ waits (sv_isms s) id k1 b).
    { intros id k1 b. rewrite His, waits_insert, Hst'. naive_solver. }
    destruct (sv_isms s !! iv_invocation_id c) as [m|] eqn:Em.
    + by eapply timers_ok_drop.
    + eapply timers_ok_same; [done| |done]. intros id k1 b. rewrite Hw. split; [by intros [_ ?]|].
      intros Hx. split; [|done]. intros ->. destruct Hx as (? & ? & ? & _). congruence.
  - assert (Hno : ∀ id k b, ¬ waits (sv_isms s') id k b).
    { intros id k b (m & t & E & _). by rewrite His in E. }
    split_and!; [intros id k b Hx; by destruct (Hno id k b)|
                 intros id id' k b b' Hx; by destruct (Hno id k b)|].
    intros k id. split; [|intros Hx; by destruct (Hno id k false)].
    rewrite Ht, foldl_cancelled_items. intros [Hk (m & t & E & Es)%H3]. exfalso.
    apply (Hk (id, m)); [by apply elem_of_map_to_list|]. unfold take_retry_timer_key. simpl.
    by rewrite Es.
Qed.

(** No lost and no orphaned retry timer.  With a timer queue that does not
    give out a key twice, the pending timers of a reachable state are exactly
    those the invocations that wait for their timer are registered under: each
    of them will be woken up, and no timer is left behind. *)
Theorem retry_timers_match (y : Sys Q) :
  rtc sys_step sys_init y →
  ∀ k id, dq_items (sv_timers (sy_service y)) !! k = Some id ↔
    ∃ m t, sv_isms (sy_service y) !! id = Some m ∧ ism_state m = WaitingRetry false t k.
Proof.
  intros Hr. pose proof Hr as [_ Hok]%(reachable_ind (λ y, timers_ok (sy_service y))).
  - apply Hok.
  - split_and!.
    + intros id k b (m & t & E & _). done.
    + intros id id' k b b' (m & t & E & _). done.
    + intros k id. simpl. rewrite dq_empty_items, lookup_empty. split; [done|].
      intros (m & t & E & _). done.
  - intros. by eapply timers_ok_step.
Qed.
End timers.

(** ** Concrete queues and runs *)

#[export] Instance demo_text : ErrorText := {|
  error_to_string := λ _, "error"%string;
  error_doc_code := λ _, None;
|}.

(** A number above all elements. *)
Definition above (l : list Z) : Z := foldr (λ x a, Z.max (x + 1) a) 0 l.
Lemma above_spec l x : x ∈ l → x < above l.
Proof.
  induction l as [|y l IH]; intros Hx; [by apply elem_of_nil in Hx|].
  apply elem_of_cons in Hx as [->|Hx]; simpl; [lia|]. apply IH in Hx. lia.
Qed.

Lemma above_fresh (m : gmap Z Z) (k : Z) : above (map_to_list m).*1 ≤ k → m !! k = None.
Proof.
  intros Hk. destruct (m !! k) as [v|] eqn:E; [|done]. exfalso.
  assert (k ∈ (map_to_list m).*1) as Hin%above_spec; [|lia].
  apply list_elem_of_fmap. exists (k, v). split; [done|]. by apply elem_of_map_to_list.
Qed.

(** A queue that remembers the keys it gave out. *)
Record CountingQueue := mkCq { cq_items : gmap Z Z; cq_given : list Z }.

#[export] Instance counting_queue : DelayQueue CountingQueue := {|
  dq_empty := mkCq ∅ [];
  dq_insert v _ q :=
    let k := Z.max (above (cq_given q)) (above (map_to_list (cq_items q)).*1) in
    (k, mkCq (<[k := v]> (cq_items q)) (k :: cq_given q));
  dq_try_remove k q :=
    mkCq (delete k (cq_items q))
      match cq_items q !! k with Some _ => k :: cq_given q | None => cq_given q end;
  dq_items := cq_items;
|}.

#[export] Instance counting_queue_laws : DelayQueueLaws CountingQueue.
Proof.
  split; try done; simpl; intros; simplify_eq; try done. apply above_fresh. lia.
Qed.

#[export] Instance counting_queue_unique : UniqueKeys CountingQueue.
Proof.
  refine {| dq_used q k := k ∈ cq_given q ∨ is_Some (cq_items q !! k) |}.
  - simpl. intros v d q k q' Hq. simplify_eq. set (k := Z.max _ _). split.
    + intros [Hx%above_spec|[w Hw]]; [lia|]. rewrite above_fresh in Hw; [done|lia].
    + intros k'. simpl. rewrite elem_of_cons, lookup_insert_is_Some'. naive_solver.
  - simpl. intros k q k'. rewrite lookup_delete_is_Some.
    destruct (cq_items q !! k) as [v|] eqn:E.
    + rewrite elem_of_cons. destruct (decide (k' = k)) as [->|]; [|naive_solver].
      rewrite E. split; [right; by eexists|by left; left].
    + destruct (decide (k' = k)) as [->|]; [|naive_solver]. rewrite E. naive_solver.
Defined.

(** A queue that gives out the key of an expired or removed timer again, as an
    arena of slots does. *)
Definition SlotQueue := gmap Z Z.
#[export] Instance slot_queue : DelayQueue SlotQueue := {|
  dq_empty := (∅ : gmap Z Z);
  dq_insert v _ q :=
    let k := match (q : gmap Z Z) !! 0 with
             | None => 0
             | Some _ => above (map_to_list (q : gmap Z Z)).*1
             end in
    (k, <[k := v]> (q : gmap Z Z));
  dq_try_remove k q := delete k (q : gmap Z Z);
  dq_items q := q;
|}.

#[export] Instance slot_queue_laws : DelayQueueLaws SlotQueue.
Proof.
  split; try done; simpl; intros; simplify_eq; try done.
  destruct ((q : gmap Z Z) !! 0) eqn:E; [|done]. apply above_fresh. lia.
Qed.

Definition demo_policy : RetryPolicy := FixedDelay (from_millis 100) (Some 10).
Definition demo_env : Env :=
  mkEnv 0 1700000000000000000 (λ _, true) (λ _ _, (iter demo_policy, OmaKill)) (from_secs 2) 1000.
Definition demo_invoke (id token : Z) : VQueueInvokeCommand :=
  mkInvoke "q" (mkResources 0 0 10) id token "Greeter/greet" "" None.
Definition demo_pool : LocalMemoryPool := mkPool 10 10 1000 0.
Definition demo_command : TaskOutputInner := ToNewCommand 1 (mkRawCommand CtRun "run") true.

(** Task 0 stores a command and fails; the second attempt ends. *)
Definition demo_outputs (t : nat) : list TaskOutputInner :=
  match t with
  | O => [ToPinnedDeployment (mkPinned 1 7) true; demo_command;
          ToFailed UnexpectedClosedRequestStream demo_pool]
  | _ => [ToFailed UnexpectedClosedRequestStream demo_pool]
  end.
Lemma demo_outputs_ok t : conforming false (demo_outputs t) = true.
Proof. by destruct t. Qed.

(** Up to the moment the timer of the first retry is pending. *)
Definition demo_moves : list Move :=
  [MInput (EvInvoke (demo_invoke 1 0)); MOutput 0; MOutput 0; MOutput 0;
   MInput (EvStoredCommandAck 1 1)].

(** A policy whose delay is the longest a [Duration] can hold. *)
Definition overflow_env : Env :=
  mkEnv 0 1700000000000000000 (λ _, true)
    (λ _ _, (mkIter (FixedDelay Duration_MAX None) 0 None, OmaKill)) (Duration_MAX + 1) 1000.


Lemma terminal_effect_is_final_witness :
  ∃ y : Sys CountingQueue,
    run (λ _, [ToClosed]) demo_env
      [MInput (EvInvoke (demo_invoke 1 0)); MOutput 0; MInput (EvInvoke (demo_invoke 1 1));
       MOutput 1] sys_init = Some y ∧
    effects (sy_log y) = [mkFenced 0 1 EkEnd; mkFenced 1 1 EkEnd] ∧
    ∀ x', x' ∈ [mkFenced 1 1 EkEnd] → attempt_of x' ≠ attempt_of (mkFenced 0 1 EkEnd).
Proof.
  eexists. split; [vm_compute; reflexivity|]. split; [vm_compute; reflexivity|].
  eapply terminal_effect_is_final with (l1 := []).
  - eapply (run_reaches (λ _, [ToClosed]) demo_env
      [MInput (EvInvoke (demo_invoke 1 0)); MOutput 0; MInput (EvInvoke (demo_invoke 1 1));
       MOutput 1]); [done|vm_compute; reflexivity].
  - vm_compute. reflexivity.
  - reflexivity.
Defined.

Lemma retry_only_when_stored_witness :
  ∃ (y : Sys CountingQueue) s' acts, run demo_outputs demo_env demo_moves sys_init = Some y ∧
    step demo_env (EvTimer 0) (sy_service y) = Some (s', acts) ∧ (1%nat, 1, 0) ∈ spawns acts ∧
    all_stored (effects (sy_log y)) (acks_of (EvTimer 0) (sy_service y) ∪ sy_acked y)
      (notification_acks_of (EvTimer 0) (sy_service y) ∪ sy_acked_notifications y) 1 0.
Proof.
  eexists _, _, _. split; [vm_compute; reflexivity|]. split; [vm_compute; reflexivity|].
  split; [vm_compute; by left|].
  eapply retry_only_when_stored with (e := demo_env) (t := 1%nat).
  - eapply (run_reaches demo_outputs demo_env demo_moves);
      [apply demo_outputs_ok|vm_compute; reflexivity].
  - apply del_input. vm_compute. by eexists.
  - vm_compute. reflexivity.
  - vm_compute. by left.
  - done.
Defined.

Lemma retry_timers_match_witness :
  ∃ y : Sys CountingQueue, run demo_outputs demo_env demo_moves sys_init = Some y ∧
    ∃ m t, sv_isms (sy_service y) !! 1 = Some m ∧ ism_state m = WaitingRetry false t 0.
Proof.
  eexists. split; [vm_compute; reflexivity|].
  eapply (retry_timers_match _).
  - eapply (run_reaches demo_outputs demo_env demo_moves);
      [apply demo_outputs_ok|vm_compute; reflexivity].
  - vm_compute. reflexivity.
Defined.

(** Keys that are given out again lose timers.  With a queue that reuses
    the key of an expired timer, an invocation that waits for its timer can be
    left without one: another invocation, whose timer has fired with the same
    key and which still waits for acknowledgements, is aborted, and the abort
    removes the timer under the key it remembers. *)
Theorem abort_can_cancel_another_timer :
  ∃ (y : Sys SlotQueue) m t k, rtc sys_step sys_init y ∧
    sv_isms (sy_service y) !! 2 = Some m ∧ ism_state m = WaitingRetry false t k ∧
    dq_items (sv_timers (sy_service y)) = ∅.
Proof.
  eexists _, _, _, _. split.
  - eapply (run_reaches demo_outputs demo_env
      [MInput (EvInvoke (demo_invoke 1 0)); MOutput 0; MOutput 0; MOutput 0; MInput (EvTimer 0);
       MInput (EvInvoke (demo_invoke 2 0)); MOutput 1; MInput (EvAbort 1)]);
      [apply demo_outputs_ok|vm_compute; reflexivity].
  - split; [vm_compute; reflexivity|]. split; [vm_compute; reflexivity|]. vm_compute. reflexivity.
Qed.

(** Pausing a waiting invocation leaves its status behind.  The state
    machine is gone and the pause is reported, but the status store keeps its
    entry; an abort in the same state removes it. *)
Theorem pause_keeps_status_entry {Q} `{DelayQueue Q} `{ErrorText} (s : Service Q) e id m fired t k r :
  sv_isms s !! id = Some m → ism_state m = WaitingRetry fired t k → sv_status s !! id = Some r →
  (∃ s', step e (EvPause id) s =
     Some (s', [AEffect (fence (ism_fencing_token m) id
                           (EkPaused (ism_last_transient_error_event m)))]) ∧
     sv_isms s' !! id = None ∧ sv_status s' !! id = Some r) ∧
  (∃ s' acts, step e (EvAbort id) s = Some (s', acts) ∧
     sv_isms s' !! id = None ∧ sv_status s' !! id = None).
Proof.
  intros Em Est Er. simpl. unfold handle_pause_invocation, handle_abort_invocation.
  rewrite (remove_lookup _ _ _ Em).
  unfold notify_pause, cancel_timer, take_retry_timer_key, on_end. simpl. rewrite Est.
  split; eexists _; [|eexists _]; (split; [reflexivity|]); simpl; by rewrite !lookup_delete_eq.
Qed.

Lemma pause_keeps_status_entry_witness :
  ∃ y : Sys CountingQueue, run demo_outputs demo_env demo_moves sys_init = Some y ∧
    ∃ s' acts, step demo_env (EvPause 1) (sy_service y) = Some (s', acts) ∧
      is_Some (sv_status s' !! 1).
Proof.
  eexists. split; [vm_compute; reflexivity|].
  match goal with |- context [step _ _ (sy_service ?y)] =>
    edestruct (pause_keeps_status_entry (sy_service y) demo_env 1) as [(s' & Hs & _ & Hr) _];
      [vm_compute; reflexivity..|]
  end.
  eexists _, _. split; [exact Hs|]. by eexists.
Defined.
