(* ===== verification/Invocation.v ===== *)
(** * Invocations: identifiers, targets, requests and journal entries

    The data that the partition processor keeps about invocations:
    identifiers ([types/src/identifiers.rs]), invocation targets and requests
    ([types/src/invocation/mod.rs]), journal entries of the second journal
    format ([types/src/journal_v2]), and the invocation status with its
    constructors ([storage-api/src/invocation_status_table/mod.rs]).

    Byte strings are [string]s; times are milliseconds since the epoch in [Z];
    a [HashSet] of response sinks is a [gset].  The digests ([Sha256], the
    partition-key hash) and the OpenTelemetry span context come from code
    outside the repository: they are the operations of the class [Digests]. *)

From stdpp Require Import strings.
From S2P Require Import Prelude UnresolvedFuture.

Open Scope Z_scope.

(** ** Identifiers *)

Record InvocationId := { inv_partition_key : Z; inv_uuid : Z }.

#[export] Instance InvocationId_eq_dec : EqDecision InvocationId.
Proof. solve_decision. Defined.
#[export] Instance InvocationId_countable : Countable InvocationId.
Proof.
  refine (inj_countable' (λ i, (inv_partition_key i, inv_uuid i))
                         (λ p, {| inv_partition_key := p.1; inv_uuid := p.2 |}) _).
  by intros [].
Defined.

Record ServiceId :=
  { sid_scope : option string; sid_service_name : string; sid_key : string;
    sid_partition_key : Z }.

#[export] Instance ServiceId_eq_dec : EqDecision ServiceId.
Proof. solve_decision. Defined.
#[export] Instance ServiceId_countable : Countable ServiceId.
Proof.
  refine (inj_countable'
    (λ i, (sid_scope i, sid_service_name i, sid_key i, sid_partition_key i))
    (λ '(a, b, c, d), {| sid_scope := a; sid_service_name := b; sid_key := c;
                         sid_partition_key := d |}) _).
  by intros [].
Defined.

Record IdempotencyId :=
  { iid_service_name : string; iid_service_key : option string; iid_service_handler : string;
    iid_idempotency_key : string; iid_scope : option string; iid_partition_key : Z }.

Record VQueueId := { vq_partition_key : Z; vq_digest : list Z }.

#[export] Instance VQueueId_eq_dec : EqDecision VQueueId.
Proof. solve_decision. Defined.
#[export] Instance VQueueId_countable : Countable VQueueId.
Proof.
  refine (inj_countable' (λ i, (vq_partition_key i, vq_digest i))
                         (λ p, {| vq_partition_key := p.1; vq_digest := p.2 |}) _).
  by intros [].
Defined.

(** The serialized OpenTelemetry context of an invocation. *)
Definition SpanContext := string.

(** What the state machine takes from hash functions, text encodings and the
    span context: [Sha256], [HashPartitioner::compute_partition_key],
    [ServiceInvocationSpanContext::start] with a linked span, base64. *)
Class Digests := {
  sha256 : list Z → list Z;
  compute_partition_key : string → Z;
  (** [compute_partition_key] of the tuple (service, "unscoped/service", bucket) *)
  bucket_partition_key : string → Z → Z;
  (** the process-wide switch [CONTROLLED_IDEMPOTENT_SHARDING] *)
  controlled_idempotent_sharding : bool;
  span_start_linked : InvocationId → SpanContext → SpanContext;
  (** the URL-safe base64 text of a digest *)
  base64_url_safe : list Z → string;
}.

(** A name of a virtual-object lock: service and key. *)
Record LockName := { ln_service : string; ln_key : string }.

#[export] Instance LockName_eq_dec : EqDecision LockName.
Proof. solve_decision. Defined.
#[export] Instance LockName_countable : Countable LockName.
Proof.
  refine (inj_countable' (λ i, (ln_service i, ln_key i))
                         (λ p, {| ln_service := p.1; ln_key := p.2 |}) _).
  by intros [].
Defined.

Inductive LimitKey :=
| LimitNone
| LimitL1 (l1 : string)
| LimitL2 (l1 l2 : string).

#[export] Instance LimitKey_eq_dec : EqDecision LimitKey.
Proof. solve_decision. Defined.

(** ** Invocation targets *)

Inductive VirtualObjectHandlerType := VoExclusive | VoShared.
Inductive WorkflowHandlerType := WfWorkflow | WfShared.

#[export] Instance VirtualObjectHandlerType_eq_dec : EqDecision VirtualObjectHandlerType.
Proof. solve_decision. Defined.
#[export] Instance WorkflowHandlerType_eq_dec : EqDecision WorkflowHandlerType.
Proof. solve_decision. Defined.

Inductive InvocationTargetType :=
| TyService
| TyVirtualObject (h : VirtualObjectHandlerType)
| TyWorkflow (h : WorkflowHandlerType).

#[export] Instance InvocationTargetType_eq_dec : EqDecision InvocationTargetType.
Proof. solve_decision. Defined.

Inductive InvocationTarget :=
| Service (name handler : string) (scope : option string)
| VirtualObject (name key handler : string) (handler_ty : VirtualObjectHandlerType)
    (scope : option string)
| Workflow (name key handler : string) (handler_ty : WorkflowHandlerType)
    (scope : option string).

#[export] Instance InvocationTarget_eq_dec : EqDecision InvocationTarget.
Proof. solve_decision. Defined.

Definition target_scope (t : InvocationTarget) : option string :=
  match t with
  | Service _ _ sc | VirtualObject _ _ _ _ sc | Workflow _ _ _ _ sc => sc
  end.

Definition target_with_scope (t : InvocationTarget) (sc : option string) : InvocationTarget :=
  match t with
  | Service n h _ => Service n h sc
  | VirtualObject n k h ty _ => VirtualObject n k h ty sc
  | Workflow n k h ty _ => Workflow n k h ty sc
  end.

Definition service_name (t : InvocationTarget) : string :=
  match t with
  | Service n _ _ | VirtualObject n _ _ _ _ | Workflow n _ _ _ _ => n
  end.

Definition handler_name (t : InvocationTarget) : string :=
  match t with
  | Service _ h _ | VirtualObject _ _ h _ _ | Workflow _ _ h _ _ => h
  end.

Definition target_key (t : InvocationTarget) : option string :=
  match t with
  | Service _ _ _ => None
  | VirtualObject _ k _ _ _ | Workflow _ k _ _ _ => Some k
  end.

Definition target_lock_name (t : InvocationTarget) : option LockName :=
  match t with
  | VirtualObject n k _ VoExclusive _ => Some {| ln_service := n; ln_key := k |}
  | _ => None
  end.

Definition invocation_target_ty (t : InvocationTarget) : InvocationTargetType :=
  match t with
  | Service _ _ _ => TyService
  | VirtualObject _ _ _ ty _ => TyVirtualObject ty
  | Workflow _ _ _ ty _ => TyWorkflow ty
  end.

(** [InvocationUuid::is_deterministic]: a later invocation may get the same id. *)
Definition is_deterministic (t : InvocationTarget) (idempotency_key : option string) : bool :=
  bool_decide (is_Some idempotency_key)
  || bool_decide (invocation_target_ty t = TyWorkflow WfWorkflow).

(** ** Bytes *)

Fixpoint bytes_of (s : string) : list Z :=
  match s with
  | EmptyString => []
  | String a s' => Z.of_N (Ascii.N_of_ascii a) :: bytes_of s'
  end.

(** [from_be_bytes] of the first bytes of a digest. *)
Definition from_be_bytes (bs : list Z) : Z := foldl (λ acc b, acc * 256 + b) 0 bs.

(** [to_le_bytes] of an [n]-byte integer. *)
Fixpoint to_le_bytes (n : nat) (x : Z) : list Z :=
  match n with
  | O => []
  | S n' => x mod 256 :: to_le_bytes n' (x / 256)
  end.

Section identifiers.
Context `{!Digests}.

Definition scope_partition_key (scope : string) : Z := compute_partition_key scope.

(** [ServiceId::new]. *)
Definition service_id_new (scope : option string) (name key : string) : ServiceId :=
  {| sid_service_name := name; sid_key := key;
     sid_partition_key := match scope with
                          | Some sc => scope_partition_key sc
                          | None => compute_partition_key key
                          end;
     sid_scope := scope |}.

Definition as_keyed_service_id (t : InvocationTarget) : option ServiceId :=
  match t with
  | Service _ _ _ => None
  | VirtualObject n k _ _ sc | Workflow n k _ _ sc => Some (service_id_new sc n k)
  end.

Definition unscoped_idempotent_service_partition_key (name idempotency_key : string) : Z :=
  bucket_partition_key name (compute_partition_key idempotency_key mod 512).

Definition deterministic_partition_key (name : string)
    (service_key idempotency_key : option string) : option Z :=
  match service_key, idempotency_key with
  | Some k, _ => Some (compute_partition_key k)
  | None, Some ik =>
      Some (if controlled_idempotent_sharding
            then unscoped_idempotent_service_partition_key name ik
            else compute_partition_key ik)
  | None, None => None
  end.

Definition hash_sep : list Z := [44].

Definition opt_part (o : option string) : list Z :=
  match o with Some s => hash_sep ++ bytes_of s | None => [] end.

(** The bytes that [InvocationUuid::generate] feeds to the digest; [None] is
    the random id of a regular invocation. *)
Definition uuid_preimage (t : InvocationTarget) (idempotency_key : option string)
    : option (list Z) :=
  match idempotency_key, invocation_target_ty t with
  | _, TyWorkflow WfWorkflow =>
      Some (bytes_of "wf" ++ opt_part (target_scope t)
            ++ hash_sep ++ bytes_of (service_name t)
            ++ opt_part (target_key t))
  | Some ik, _ =>
      Some (bytes_of "ik" ++ opt_part (target_scope t)
            ++ hash_sep ++ bytes_of (service_name t)
            ++ opt_part (target_key t)
            ++ hash_sep ++ bytes_of (handler_name t)
            ++ hash_sep ++ bytes_of ik)
  | None, _ => None
  end.

(** [InvocationId::generate], for the targets whose id is deterministic. *)
Definition invocation_id_generate (t : InvocationTarget) (idempotency_key : option string)
    : option InvocationId :=
  let! preimage := uuid_preimage t idempotency_key in
  let! pk := match target_scope t with
             | Some sc => Some (scope_partition_key sc)
             | None => deterministic_partition_key (service_name t) (target_key t) idempotency_key
             end in
  Some {| inv_partition_key := pk; inv_uuid := from_be_bytes (take 16 (sha256 preimage)) |}.

End identifiers.

(** ** Requests *)

Record Header := { header_name : string; header_value : string }.

Record InvocationError :=
  { ie_code : Z; ie_message : string; ie_stacktrace : option string;
    ie_metadata : list (string * string) }.

#[export] Instance InvocationError_eq_dec : EqDecision InvocationError.
Proof. solve_decision. Defined.

Definition new_static (code : Z) (message : string) : InvocationError :=
  {| ie_code := code; ie_message := message; ie_stacktrace := None; ie_metadata := [] |}.

Module codes.
Definition NOT_FOUND : Z := 404.
Definition CONFLICT : Z := 409.
Definition ABORTED : Z := 409.
Definition NOT_READY : Z := 470.
End codes.

Definition KILLED_INVOCATION_ERROR := new_static codes.ABORTED "killed".
Definition CANCELED_INVOCATION_ERROR := new_static codes.ABORTED "canceled".
Definition NOT_FOUND_INVOCATION_ERROR := new_static codes.NOT_FOUND "not found".
Definition ALREADY_COMPLETED_INVOCATION_ERROR :=
  new_static codes.CONFLICT "promise was already completed".
Definition WORKFLOW_ALREADY_INVOKED_INVOCATION_ERROR :=
  new_static codes.CONFLICT "the workflow method was already invoked".
Definition NOT_READY_INVOCATION_ERROR :=
  new_static codes.NOT_READY "the response is not ready yet".

Inductive ResponseResult :=
| ResponseSuccess (value : string)
| ResponseFailure (err : InvocationError).

Record JournalCompletionTarget := { caller_id : InvocationId; caller_completion_id : Z }.

#[export] Instance JournalCompletionTarget_eq_dec : EqDecision JournalCompletionTarget.
Proof. solve_decision. Defined.

Inductive ServiceInvocationResponseSink :=
| SinkPartitionProcessor (target : JournalCompletionTarget)
| SinkIngress (request_id : Z).

#[export] Instance Sink_eq_dec : EqDecision ServiceInvocationResponseSink.
Proof. solve_decision. Defined.
#[export] Instance Sink_countable : Countable ServiceInvocationResponseSink.
Proof.
  refine (inj_countable'
    (λ s, match s with
          | SinkPartitionProcessor t => inl (caller_id t, caller_completion_id t)
          | SinkIngress r => inr r end)
    (λ x, match x with
          | inl (i, c) => SinkPartitionProcessor {| caller_id := i; caller_completion_id := c |}
          | inr r => SinkIngress r end) _).
  by intros [[]|].
Defined.

Inductive Source :=
| SourceIngress (request_id : Z)
| SourceSubscription (subscription_id : Z)
| SourceService (id : InvocationId) (target : InvocationTarget)
| SourceRestartAsNew (id : InvocationId)
| SourceIngestion
| SourceInternal.

#[export] Instance Source_eq_dec : EqDecision Source.
Proof. solve_decision. Defined.

(** [SubmitNotificationSink::Ingress] and [InvocationMutationResponseSink::Ingress]
    both carry only the id of the RPC to answer. *)
Definition SubmitNotificationSink := Z.
Definition InvocationMutationResponseSink := Z.

Record ServiceInvocation := {
  si_invocation_id : InvocationId;
  si_invocation_target : InvocationTarget;
  si_argument : string;
  si_source : Source;
  si_span_context : SpanContext;
  si_headers : list Header;
  si_execution_time : option Z;
  si_completion_retention_duration : Z;
  si_journal_retention_duration : Z;
  si_idempotency_key : option string;
  si_limit_key : LimitKey;
  si_response_sink : option ServiceInvocationResponseSink;
  si_submit_notification_sink : option SubmitNotificationSink;
  si_restate_version : string }.

Inductive InvocationQuery :=
| QueryInvocation (id : InvocationId)
| QueryWorkflow (id : ServiceId)
| QueryIdempotencyId (id : IdempotencyId).

(** [InvocationQuery::to_invocation_id]; the targets it builds are
    deterministic, so the id exists (lemma [to_invocation_id_total]). *)
Definition query_target (q : InvocationQuery) : option (InvocationTarget * option string) :=
  match q with
  | QueryInvocation _ => None
  | QueryWorkflow w =>
      Some (Workflow (sid_service_name w) (sid_key w) "" WfWorkflow (sid_scope w), None)
  | QueryIdempotencyId i =>
      Some (target_with_scope
              (match iid_service_key i with
               | None => Service (iid_service_name i) (iid_service_handler i) None
               | Some k => VirtualObject (iid_service_name i) k (iid_service_handler i)
                             VoExclusive None
               end) (iid_scope i),
            Some (iid_idempotency_key i))
  end.

Definition to_invocation_id `{!Digests} (q : InvocationQuery) : option InvocationId :=
  match q with
  | QueryInvocation id => Some id
  | _ => let! tk := query_target q in invocation_id_generate tk.1 tk.2
  end.

Lemma to_invocation_id_total `{!Digests} q : is_Some (to_invocation_id q).
Proof.
  destruct q as [id|[sc n k pk]|[n sk h ik sc pk]]; [by eexists| |];
    destruct sc; try destruct sk; by eexists.
Qed.

Record AttachInvocationRequest := {
  ar_invocation_query : InvocationQuery;
  ar_block_on_inflight : bool;
  ar_response_sink : ServiceInvocationResponseSink }.

Inductive TerminationFlavor := Kill | Cancel.

(** ** Journal entries (second format) *)

Record EntryFailure := { ef_code : Z; ef_message : string; ef_metadata : list (string * string) }.

(** [From<Failure> for InvocationError] and back. *)
Definition error_of_failure (f : EntryFailure) : InvocationError :=
  {| ie_code := ef_code f; ie_message := ef_message f; ie_stacktrace := None;
     ie_metadata := ef_metadata f |}.
Definition failure_of_error (e : InvocationError) : EntryFailure :=
  {| ef_code := ie_code e; ef_message := ie_message e; ef_metadata := ie_metadata e |}.

(** Results that are a value or a failure, and the same with "nothing". *)
Inductive ValueResult := RSuccess (value : string) | RFailure (f : EntryFailure).
Inductive OptionalResult := OVoid | OSuccess (value : string) | OFailure (f : EntryFailure).

Record CallRequest := {
  cr_invocation_id : InvocationId;
  cr_invocation_target : InvocationTarget;
  cr_span_context : SpanContext;
  cr_parameter : string;
  cr_headers : list Header;
  cr_idempotency_key : option string;
  cr_completion_retention_duration : Z;
  cr_journal_retention_duration : Z;
  cr_limit_key : LimitKey }.

Inductive AttachInvocationTarget :=
| AttachInvocationId (id : InvocationId)
| AttachIdempotentRequest (id : IdempotencyId)
| AttachWorkflow (id : ServiceId).

Definition query_of_attach (t : AttachInvocationTarget) : InvocationQuery :=
  match t with
  | AttachInvocationId i => QueryInvocation i
  | AttachIdempotentRequest i => QueryIdempotencyId i
  | AttachWorkflow w => QueryWorkflow w
  end.

(** An awakeable is completed by its old identifier (an entry of a journal) or
    by the identifier of a signal. *)
Inductive CompleteAwakeableId :=
| AwakeableOld (id : InvocationId) (entry_index : Z)
| AwakeableNew (id : InvocationId) (signal : SignalId).

Inductive Command :=
| CInput (headers : list Header) (payload name : string)
| COutput (result : ValueResult) (name : string)
| CGetLazyState (key : string) (completion_id : Z) (name : string)
| CSetState (key value name : string)
| CClearState (key name : string)
| CClearAllState (name : string)
| CGetLazyStateKeys (completion_id : Z) (name : string)
| CGetEagerState (key : string) (result : option string) (name : string)
| CGetEagerStateKeys (state_keys : list string) (name : string)
| CGetPromise (key : string) (completion_id : Z) (name : string)
| CPeekPromise (key : string) (completion_id : Z) (name : string)
| CCompletePromise (key : string) (value : ValueResult) (completion_id : Z) (name : string)
| CSleep (wake_up_time completion_id : Z) (name : string)
| CCall (request : CallRequest) (invocation_id_completion_id result_completion_id : Z)
    (name : string)
| COneWayCall (request : CallRequest) (invoke_time invocation_id_completion_id : Z)
    (name : string)
| CSendSignal (target : InvocationId) (signal_id : SignalId) (result : OptionalResult)
    (name : string)
| CRun (completion_id : Z) (name : string)
| CAttachInvocation (target : AttachInvocationTarget) (completion_id : Z) (name : string)
| CGetInvocationOutput (target : AttachInvocationTarget) (completion_id : Z) (name : string)
| CCompleteAwakeable (id : CompleteAwakeableId) (result : ValueResult) (name : string).

Inductive CommandType :=
| TInput | TOutput | TGetLazyState | TSetState | TClearState | TClearAllState
| TGetLazyStateKeys | TGetEagerState | TGetEagerStateKeys | TGetPromise | TPeekPromise
| TCompletePromise | TSleep | TCall | TOneWayCall | TSendSignal | TRun | TAttachInvocation
| TGetInvocationOutput | TCompleteAwakeable.

#[export] Instance CommandType_eq_dec : EqDecision CommandType.
Proof. solve_decision. Defined.

Definition command_ty (c : Command) : CommandType :=
  match c with
  | CInput _ _ _ => TInput | COutput _ _ => TOutput | CGetLazyState _ _ _ => TGetLazyState
  | CSetState _ _ _ => TSetState | CClearState _ _ => TClearState
  | CClearAllState _ => TClearAllState | CGetLazyStateKeys _ _ => TGetLazyStateKeys
  | CGetEagerState _ _ _ => TGetEagerState | CGetEagerStateKeys _ _ => TGetEagerStateKeys
  | CGetPromise _ _ _ => TGetPromise | CPeekPromise _ _ _ => TPeekPromise
  | CCompletePromise _ _ _ _ => TCompletePromise | CSleep _ _ _ => TSleep
  | CCall _ _ _ _ => TCall | COneWayCall _ _ _ _ => TOneWayCall
  | CSendSignal _ _ _ _ => TSendSignal | CRun _ _ => TRun
  | CAttachInvocation _ _ _ => TAttachInvocation
  | CGetInvocationOutput _ _ _ => TGetInvocationOutput
  | CCompleteAwakeable _ _ _ => TCompleteAwakeable
  end.

Definition related_completion_ids (c : Command) : list Z :=
  match c with
  | CGetLazyState _ i _ | CGetLazyStateKeys i _ | CGetPromise _ i _ | CPeekPromise _ i _
  | CCompletePromise _ _ i _ | CSleep _ i _ | CRun i _ | CAttachInvocation _ i _
  | CGetInvocationOutput _ i _ | COneWayCall _ _ i _ => [i]
  | CCall _ i r _ => [i; r]
  | _ => []
  end.

(** A command as it is stored: its type and the metadata of calls are readable
    without the codec; the payload decodes to a command of that type, or does
    not decode at all. *)
Inductive RawCommand :=
| RawDecodable (c : Command)
| RawUndecodable (ty : CommandType) (call_or_send : option InvocationId).

Definition command_type (r : RawCommand) : CommandType :=
  match r with RawDecodable c => command_ty c | RawUndecodable ty _ => ty end.

(** The callee recorded in [RawCommandSpecificMetadata::CallOrSend]. *)
Definition call_or_send_id (r : RawCommand) : option InvocationId :=
  match r with
  | RawDecodable (CCall q _ _ _) | RawDecodable (COneWayCall q _ _ _) => Some (cr_invocation_id q)
  | RawDecodable _ => None
  | RawUndecodable _ m => m
  end.

Definition decode_command (r : RawCommand) : option Command :=
  match r with RawDecodable c => Some c | RawUndecodable _ _ => None end.

Inductive Completion :=
| GetLazyStateCompletion (completion_id : Z) (result : option string)
| GetLazyStateKeysCompletion (completion_id : Z) (state_keys : list string)
| GetPromiseCompletion (completion_id : Z) (result : ValueResult)
| PeekPromiseCompletion (completion_id : Z) (result : OptionalResult)
| CompletePromiseCompletion (completion_id : Z) (result : option EntryFailure)
| SleepCompletion (completion_id : Z)
| CallInvocationIdCompletion (completion_id : Z) (invocation_id : InvocationId)
| CallCompletion (completion_id : Z) (result : ValueResult)
| RunCompletion (completion_id : Z) (result : ValueResult)
| AttachInvocationCompletion (completion_id : Z) (result : ValueResult)
| GetInvocationOutputCompletion (completion_id : Z) (result : OptionalResult).

Definition completion_id (c : Completion) : Z :=
  match c with
  | GetLazyStateCompletion i _ | GetLazyStateKeysCompletion i _ | GetPromiseCompletion i _
  | PeekPromiseCompletion i _ | CompletePromiseCompletion i _ | SleepCompletion i
  | CallInvocationIdCompletion i _ | CallCompletion i _ | RunCompletion i _
  | AttachInvocationCompletion i _ | GetInvocationOutputCompletion i _ => i
  end.

Record Signal := { sig_id : SignalId; sig_result : OptionalResult }.

Inductive Notification :=
| NCompletion (c : Completion)
| NSignal (s : Signal).

Definition CANCEL_SIGNAL_ID : SignalId := SignalIndex 1.
Definition CANCEL_SIGNAL : Notification :=
  NSignal {| sig_id := CANCEL_SIGNAL_ID; sig_result := OVoid |}.
Definition CANCEL_NOTIFICATION_ID : NotificationId := NSignalIndex 1.

#[export] Instance SignalId_eq_dec : EqDecision SignalId.
Proof. solve_decision. Defined.

Definition notification_id (n : Notification) : NotificationId :=
  match n with
  | NCompletion c => NCompletionId (completion_id c)
  | NSignal s => for_signal (sig_id s)
  end.

Definition rv_of_value (r : ValueResult) : RawNotificationResultVariant :=
  match r with RSuccess _ => RvValue | RFailure _ => RvFailure end.
Definition rv_of_optional (r : OptionalResult) : RawNotificationResultVariant :=
  match r with OVoid => RvVoid | OSuccess _ => RvValue | OFailure _ => RvFailure end.

(** The result variant that the codec stores beside an encoded notification. *)
Definition result_variant_of (n : Notification) : RawNotificationResultVariant :=
  match n with
  | NCompletion (GetLazyStateCompletion _ _) => RvValue
  | NCompletion (GetLazyStateKeysCompletion _ _) => RvStateKeys
  | NCompletion (SleepCompletion _) => RvVoid
  | NCompletion (CallInvocationIdCompletion _ _) => RvInvocationId
  | NCompletion (CompletePromiseCompletion _ None) => RvVoid
  | NCompletion (CompletePromiseCompletion _ (Some _)) => RvFailure
  | NCompletion (GetPromiseCompletion _ r) | NCompletion (CallCompletion _ r)
  | NCompletion (RunCompletion _ r) | NCompletion (AttachInvocationCompletion _ r) =>
      rv_of_value r
  | NCompletion (PeekPromiseCompletion _ r) | NCompletion (GetInvocationOutputCompletion _ r) =>
      rv_of_optional r
  | NSignal s => rv_of_optional (sig_result s)
  end.

Record RawNotification := {
  rn_id : NotificationId;
  rn_result_variant : RawNotificationResultVariant;
  rn_content : option Notification }.

Inductive RawEntry :=
| RawEntryCommand (c : RawCommand)
| RawEntryNotification (n : RawNotification).

(** [Entry::encode]. *)
Definition encode_command (c : Command) : RawEntry := RawEntryCommand (RawDecodable c).
Definition encode_notification (n : Notification) : RawEntry :=
  RawEntryNotification {| rn_id := notification_id n; rn_result_variant := result_variant_of n;
                          rn_content := Some n |}.
Definition encode_completion (c : Completion) : RawEntry := encode_notification (NCompletion c).

Definition is_command (e : RawEntry) : bool :=
  match e with RawEntryCommand _ => true | RawEntryNotification _ => false end.

(** A stored entry: the append time and the entry. *)
Record StoredRawEntry := { se_append_time : Z; se_inner : RawEntry }.
