(* ===== verification/InvocationStatus.v ===== *)
(** * Invocation status

    [storage-api/src/invocation_status_table/mod.rs]: the life cycle of an
    invocation as the partition store keeps it, with the constructors that move
    the metadata from one phase to the next, and the accessors that the state
    machine uses.  A [&mut] accessor of the source is a function that takes the
    update to apply. *)

From stdpp Require Import strings.
From S2P Require Import Prelude UnresolvedFuture Invocation.

Open Scope Z_scope.

(** ** Timestamps *)

Record StatusTimestamps := {
  creation_time : Z;
  modification_time : Z;
  inboxed_transition_time : option Z;
  scheduled_transition_time : option Z;
  running_transition_time : option Z;
  completed_transition_time : option Z }.

Definition timestamps_init (created_at : Z) : StatusTimestamps :=
  {| creation_time := created_at; modification_time := created_at;
     inboxed_transition_time := None; scheduled_transition_time := None;
     running_transition_time := None; completed_transition_time := None |}.

Definition timestamps_update (ts : Z) (t : StatusTimestamps) : StatusTimestamps :=
  {| creation_time := creation_time t; modification_time := Z.max (modification_time t) ts;
     inboxed_transition_time := inboxed_transition_time t;
     scheduled_transition_time := scheduled_transition_time t;
     running_transition_time := running_transition_time t;
     completed_transition_time := completed_transition_time t |}.

Definition record_inboxed_transition_time (ts : Z) (t : StatusTimestamps) : StatusTimestamps :=
  let t := timestamps_update ts t in
  {| creation_time := creation_time t; modification_time := modification_time t;
     inboxed_transition_time := Some (modification_time t);
     scheduled_transition_time := scheduled_transition_time t;
     running_transition_time := running_transition_time t;
     completed_transition_time := completed_transition_time t |}.

Definition record_scheduled_transition_time (ts : Z) (t : StatusTimestamps) : StatusTimestamps :=
  let t := timestamps_update ts t in
  {| creation_time := creation_time t; modification_time := modification_time t;
     inboxed_transition_time := inboxed_transition_time t;
     scheduled_transition_time := Some (modification_time t);
     running_transition_time := running_transition_time t;
     completed_transition_time := completed_transition_time t |}.

Definition record_running_transition_time (ts : Z) (t : StatusTimestamps) : StatusTimestamps :=
  let t := timestamps_update ts t in
  {| creation_time := creation_time t; modification_time := modification_time t;
     inboxed_transition_time := inboxed_transition_time t;
     scheduled_transition_time := scheduled_transition_time t;
     running_transition_time := Some (modification_time t);
     completed_transition_time := completed_transition_time t |}.

Definition record_completed_transition_time (ts : Z) (t : StatusTimestamps) : StatusTimestamps :=
  let t := timestamps_update ts t in
  {| creation_time := creation_time t; modification_time := modification_time t;
     inboxed_transition_time := inboxed_transition_time t;
     scheduled_transition_time := scheduled_transition_time t;
     running_transition_time := running_transition_time t;
     completed_transition_time := Some (modification_time t) |}.

(** ** Journal metadata and pinned deployment *)

Record JournalMetadata := { length : Z; commands : Z; span_context : SpanContext }.

Definition empty_span : SpanContext := "".

Definition journal_metadata_initialize (span : SpanContext) : JournalMetadata :=
  {| length := 0; commands := 0; span_context := span |}.

Definition journal_metadata_empty : JournalMetadata := journal_metadata_initialize empty_span.

(** The deployment chosen for the invocation, and the protocol version
    negotiated with it ([ServiceProtocolVersion] as its number). *)
Record PinnedDeployment := { deployment_id : string; service_protocol_version : Z }.

(** ** Phases *)

Record PreFlightInvocationInput := {
  pi_argument : string; pi_headers : list Header; pi_span_context : SpanContext }.

Record PreFlightInvocationJournal := {
  pj_journal_metadata : JournalMetadata; pj_pinned_deployment : option PinnedDeployment }.

Inductive PreFlightInvocationArgument :=
| PfInput (i : PreFlightInvocationInput)
| PfJournal (j : PreFlightInvocationJournal).

Definition argument_span_context (a : PreFlightInvocationArgument) : SpanContext :=
  match a with
  | PfInput i => pi_span_context i
  | PfJournal j => span_context (pj_journal_metadata j)
  end.

Definition argument_pinned_deployment (a : PreFlightInvocationArgument) : option PinnedDeployment :=
  match a with PfInput _ => None | PfJournal j => pj_pinned_deployment j end.

Record PreFlightInvocationMetadata := {
  pf_response_sinks : gset ServiceInvocationResponseSink;
  pf_timestamps : StatusTimestamps;
  pf_vqueue_id : option VQueueId;
  pf_limit_key : LimitKey;
  pf_invocation_target : InvocationTarget;
  pf_created_using_restate_version : string;
  pf_input : PreFlightInvocationArgument;
  pf_source : Source;
  pf_execution_time : option Z;
  pf_completion_retention_duration : Z;
  pf_journal_retention_duration : Z;
  pf_idempotency_key : option string;
  pf_random_seed : option Z;
  pf_creation_seq : option Z }.

Definition pf_with_sinks (f : gset ServiceInvocationResponseSink → gset ServiceInvocationResponseSink)
    (m : PreFlightInvocationMetadata) : PreFlightInvocationMetadata :=
  {| pf_response_sinks := f (pf_response_sinks m); pf_timestamps := pf_timestamps m;
     pf_vqueue_id := pf_vqueue_id m; pf_limit_key := pf_limit_key m;
     pf_invocation_target := pf_invocation_target m;
     pf_created_using_restate_version := pf_created_using_restate_version m;
     pf_input := pf_input m; pf_source := pf_source m; pf_execution_time := pf_execution_time m;
     pf_completion_retention_duration := pf_completion_retention_duration m;
     pf_journal_retention_duration := pf_journal_retention_duration m;
     pf_idempotency_key := pf_idempotency_key m; pf_random_seed := pf_random_seed m;
     pf_creation_seq := pf_creation_seq m |}.

Definition pf_with_timestamps (f : StatusTimestamps → StatusTimestamps)
    (m : PreFlightInvocationMetadata) : PreFlightInvocationMetadata :=
  {| pf_response_sinks := pf_response_sinks m; pf_timestamps := f (pf_timestamps m);
     pf_vqueue_id := pf_vqueue_id m; pf_limit_key := pf_limit_key m;
     pf_invocation_target := pf_invocation_target m;
     pf_created_using_restate_version := pf_created_using_restate_version m;
     pf_input := pf_input m; pf_source := pf_source m; pf_execution_time := pf_execution_time m;
     pf_completion_retention_duration := pf_completion_retention_duration m;
     pf_journal_retention_duration := pf_journal_retention_duration m;
     pf_idempotency_key := pf_idempotency_key m; pf_random_seed := pf_random_seed m;
     pf_creation_seq := pf_creation_seq m |}.

Definition pf_with_input (a : PreFlightInvocationArgument)
    (m : PreFlightInvocationMetadata) : PreFlightInvocationMetadata :=
  {| pf_response_sinks := pf_response_sinks m; pf_timestamps := pf_timestamps m;
     pf_vqueue_id := pf_vqueue_id m; pf_limit_key := pf_limit_key m;
     pf_invocation_target := pf_invocation_target m;
     pf_created_using_restate_version := pf_created_using_restate_version m;
     pf_input := a; pf_source := pf_source m; pf_execution_time := pf_execution_time m;
     pf_completion_retention_duration := pf_completion_retention_duration m;
     pf_journal_retention_duration := pf_journal_retention_duration m;
     pf_idempotency_key := pf_idempotency_key m; pf_random_seed := pf_random_seed m;
     pf_creation_seq := pf_creation_seq m |}.

(** [creation_seq.get_or_insert(seq)]. *)
Definition pf_backfill_creation_seq (seq : Z)
    (m : PreFlightInvocationMetadata) : PreFlightInvocationMetadata :=
  {| pf_response_sinks := pf_response_sinks m; pf_timestamps := pf_timestamps m;
     pf_vqueue_id := pf_vqueue_id m; pf_limit_key := pf_limit_key m;
     pf_invocation_target := pf_invocation_target m;
     pf_created_using_restate_version := pf_created_using_restate_version m;
     pf_input := pf_input m; pf_source := pf_source m; pf_execution_time := pf_execution_time m;
     pf_completion_retention_duration := pf_completion_retention_duration m;
     pf_journal_retention_duration := pf_journal_retention_duration m;
     pf_idempotency_key := pf_idempotency_key m; pf_random_seed := pf_random_seed m;
     pf_creation_seq := Some (default seq (pf_creation_seq m)) |}.

Definition pf_span_context (m : PreFlightInvocationMetadata) : SpanContext :=
  argument_span_context (pf_input m).

Definition from_service_invocation (created_at : Z) (si : ServiceInvocation)
    (vqueue_id : option VQueueId) (random_seed : option Z) (creation_seq : Z)
    : PreFlightInvocationMetadata :=
  {| pf_vqueue_id := vqueue_id;
     pf_limit_key := si_limit_key si;
     pf_response_sinks := match si_response_sink si with Some s => {[ s ]} | None => ∅ end;
     pf_timestamps := timestamps_init created_at;
     pf_invocation_target := si_invocation_target si;
     pf_source := si_source si;
     pf_execution_time := si_execution_time si;
     pf_completion_retention_duration := si_completion_retention_duration si;
     pf_journal_retention_duration := si_journal_retention_duration si;
     pf_idempotency_key := si_idempotency_key si;
     pf_created_using_restate_version := si_restate_version si;
     pf_random_seed := random_seed;
     pf_creation_seq := Some creation_seq;
     pf_input := PfInput {| pi_argument := si_argument si; pi_headers := si_headers si;
                            pi_span_context := si_span_context si |} |}.

Record ScheduledInvocation := { sch_metadata : PreFlightInvocationMetadata }.

Definition scheduled_from_pre_flight (m : PreFlightInvocationMetadata) (ts : Z)
    : ScheduledInvocation :=
  {| sch_metadata := pf_with_timestamps (record_scheduled_transition_time ts) m |}.

Record InboxedInvocation := {
  inb_sequence_number : Z; inb_metadata : PreFlightInvocationMetadata }.

Definition inboxed_from_pre_flight (m : PreFlightInvocationMetadata) (seq ts : Z)
    : InboxedInvocation :=
  {| inb_sequence_number := seq;
     inb_metadata := pf_with_timestamps (record_inboxed_transition_time ts) m |}.

Record InFlightInvocationMetadata := {
  if_invocation_target : InvocationTarget;
  if_vqueue_id : option VQueueId;
  if_limit_key : LimitKey;
  if_created_using_restate_version : string;
  if_journal_metadata : JournalMetadata;
  if_pinned_deployment : option PinnedDeployment;
  if_response_sinks : gset ServiceInvocationResponseSink;
  if_timestamps : StatusTimestamps;
  if_source : Source;
  if_execution_time : option Z;
  if_completion_retention_duration : Z;
  if_journal_retention_duration : Z;
  if_idempotency_key : option string;
  if_hotfix_apply_cancellation : bool;
  if_random_seed : option Z;
  if_creation_seq : option Z }.

(** One update function for the mutable fields of the in-flight metadata. *)
Record IfUpdate := {
  u_journal_metadata : JournalMetadata → JournalMetadata;
  u_pinned_deployment : option PinnedDeployment → option PinnedDeployment;
  u_response_sinks : gset ServiceInvocationResponseSink → gset ServiceInvocationResponseSink;
  u_timestamps : StatusTimestamps → StatusTimestamps;
  u_hotfix : bool → bool;
  u_creation_seq : option Z → option Z }.

Definition u_id : IfUpdate :=
  {| u_journal_metadata := id; u_pinned_deployment := id; u_response_sinks := id;
     u_timestamps := id; u_hotfix := id; u_creation_seq := id |}.

Definition if_update (u : IfUpdate) (m : InFlightInvocationMetadata) : InFlightInvocationMetadata :=
  {| if_invocation_target := if_invocation_target m; if_vqueue_id := if_vqueue_id m;
     if_limit_key := if_limit_key m;
     if_created_using_restate_version := if_created_using_restate_version m;
     if_journal_metadata := u_journal_metadata u (if_journal_metadata m);
     if_pinned_deployment := u_pinned_deployment u (if_pinned_deployment m);
     if_response_sinks := u_response_sinks u (if_response_sinks m);
     if_timestamps := u_timestamps u (if_timestamps m);
     if_source := if_source m; if_execution_time := if_execution_time m;
     if_completion_retention_duration := if_completion_retention_duration m;
     if_journal_retention_duration := if_journal_retention_duration m;
     if_idempotency_key := if_idempotency_key m;
     if_hotfix_apply_cancellation := u_hotfix u (if_hotfix_apply_cancellation m);
     if_random_seed := if_random_seed m;
     if_creation_seq := u_creation_seq u (if_creation_seq m) |}.

Definition if_with_journal_metadata (f : JournalMetadata → JournalMetadata) :=
  if_update {| u_journal_metadata := f; u_pinned_deployment := id; u_response_sinks := id;
               u_timestamps := id; u_hotfix := id; u_creation_seq := id |}.
Definition if_with_pinned_deployment (f : option PinnedDeployment → option PinnedDeployment) :=
  if_update {| u_journal_metadata := id; u_pinned_deployment := f; u_response_sinks := id;
               u_timestamps := id; u_hotfix := id; u_creation_seq := id |}.
Definition if_with_sinks
    (f : gset ServiceInvocationResponseSink → gset ServiceInvocationResponseSink) :=
  if_update {| u_journal_metadata := id; u_pinned_deployment := id; u_response_sinks := f;
               u_timestamps := id; u_hotfix := id; u_creation_seq := id |}.
Definition if_with_timestamps (f : StatusTimestamps → StatusTimestamps) :=
  if_update {| u_journal_metadata := id; u_pinned_deployment := id; u_response_sinks := id;
               u_timestamps := f; u_hotfix := id; u_creation_seq := id |}.
Definition if_with_hotfix (b : bool) :=
  if_update {| u_journal_metadata := id; u_pinned_deployment := id; u_response_sinks := id;
               u_timestamps := id; u_hotfix := λ _, b; u_creation_seq := id |}.
Definition if_backfill_creation_seq (seq : Z) :=
  if_update {| u_journal_metadata := id; u_pinned_deployment := id; u_response_sinks := id;
               u_timestamps := id; u_hotfix := id;
               u_creation_seq := λ o, Some (default seq o) |}.

Definition set_length (n : Z) (j : JournalMetadata) : JournalMetadata :=
  {| length := n; commands := commands j; span_context := span_context j |}.
Definition set_commands (n : Z) (j : JournalMetadata) : JournalMetadata :=
  {| length := length j; commands := n; span_context := span_context j |}.

Record InvocationInput := { ii_argument : string; ii_headers : list Header }.

Definition in_flight_from_pre_flight (m : PreFlightInvocationMetadata) (ts : Z)
    : InFlightInvocationMetadata * option InvocationInput :=
  let m := pf_with_timestamps (record_running_transition_time ts) m in
  let '(jm, pinned, input) :=
    match pf_input m with
    | PfInput i => (journal_metadata_initialize (pi_span_context i), None,
                    Some {| ii_argument := pi_argument i; ii_headers := pi_headers i |})
    | PfJournal j => (pj_journal_metadata j, pj_pinned_deployment j, None)
    end in
  ({| if_invocation_target := pf_invocation_target m; if_vqueue_id := pf_vqueue_id m;
      if_limit_key := pf_limit_key m;
      if_created_using_restate_version := pf_created_using_restate_version m;
      if_journal_metadata := jm; if_pinned_deployment := pinned;
      if_response_sinks := pf_response_sinks m; if_timestamps := pf_timestamps m;
      if_source := pf_source m; if_execution_time := pf_execution_time m;
      if_completion_retention_duration := pf_completion_retention_duration m;
      if_journal_retention_duration := pf_journal_retention_duration m;
      if_idempotency_key := pf_idempotency_key m;
      if_hotfix_apply_cancellation := false;
      if_random_seed := pf_random_seed m; if_creation_seq := pf_creation_seq m |}, input).

Definition in_flight_from_inboxed (i : InboxedInvocation) (ts : Z) :=
  in_flight_from_pre_flight (inb_metadata i) ts.

Definition set_pinned_deployment (pd : PinnedDeployment) (ts : Z)
    (m : InFlightInvocationMetadata) : InFlightInvocationMetadata :=
  if_with_timestamps (timestamps_update ts) (if_with_pinned_deployment (λ _, Some pd) m).

Record CompletedInvocation := {
  co_vqueue_id : option VQueueId;
  co_invocation_target : InvocationTarget;
  co_limit_key : LimitKey;
  co_created_using_restate_version : string;
  co_source : Source;
  co_execution_time : option Z;
  co_idempotency_key : option string;
  co_timestamps : StatusTimestamps;
  co_response_result : ResponseResult;
  co_completion_retention_duration : Z;
  co_journal_retention_duration : Z;
  co_journal_metadata : JournalMetadata;
  co_pinned_deployment : option PinnedDeployment;
  co_random_seed : option Z;
  co_creation_seq : option Z }.

Definition co_with_journal_metadata (jm : JournalMetadata) (m : CompletedInvocation)
    : CompletedInvocation :=
  {| co_vqueue_id := co_vqueue_id m; co_invocation_target := co_invocation_target m;
     co_limit_key := co_limit_key m;
     co_created_using_restate_version := co_created_using_restate_version m;
     co_source := co_source m; co_execution_time := co_execution_time m;
     co_idempotency_key := co_idempotency_key m; co_timestamps := co_timestamps m;
     co_response_result := co_response_result m;
     co_completion_retention_duration := co_completion_retention_duration m;
     co_journal_retention_duration := co_journal_retention_duration m;
     co_journal_metadata := jm; co_pinned_deployment := co_pinned_deployment m;
     co_random_seed := co_random_seed m; co_creation_seq := co_creation_seq m |}.

Inductive JournalRetentionPolicy := Retain | Drop.

Definition completed_from_pre_flight (m : PreFlightInvocationMetadata)
    (policy : JournalRetentionPolicy) (result : ResponseResult) (ts : Z) : CompletedInvocation :=
  let m := pf_with_timestamps (record_completed_transition_time ts) m in
  let '(jm, pinned) :=
    match pf_input m with
    | PfInput _ => (journal_metadata_empty, None)
    | PfJournal j => (match policy with
                      | Retain => pj_journal_metadata j
                      | Drop => journal_metadata_empty
                      end, pj_pinned_deployment j)
    end in
  {| co_invocation_target := pf_invocation_target m; co_vqueue_id := pf_vqueue_id m;
     co_limit_key := pf_limit_key m;
     co_created_using_restate_version := pf_created_using_restate_version m;
     co_source := pf_source m; co_execution_time := pf_execution_time m;
     co_idempotency_key := pf_idempotency_key m; co_timestamps := pf_timestamps m;
     co_response_result := result;
     co_completion_retention_duration := pf_completion_retention_duration m;
     co_journal_retention_duration := pf_journal_retention_duration m;
     co_journal_metadata := jm; co_pinned_deployment := pinned;
     co_random_seed := pf_random_seed m; co_creation_seq := pf_creation_seq m |}.

Definition completed_from_in_flight (m : InFlightInvocationMetadata)
    (policy : JournalRetentionPolicy) (result : ResponseResult) (ts : Z) : CompletedInvocation :=
  let m := if_with_timestamps (record_completed_transition_time ts) m in
  {| co_invocation_target := if_invocation_target m; co_vqueue_id := if_vqueue_id m;
     co_limit_key := if_limit_key m;
     co_created_using_restate_version := if_created_using_restate_version m;
     co_source := if_source m; co_execution_time := if_execution_time m;
     co_idempotency_key := if_idempotency_key m; co_timestamps := if_timestamps m;
     co_response_result := result;
     co_completion_retention_duration := if_completion_retention_duration m;
     co_journal_retention_duration := if_journal_retention_duration m;
     co_journal_metadata := match policy with
                            | Retain => if_journal_metadata m
                            | Drop => journal_metadata_empty
                            end;
     co_pinned_deployment := if_pinned_deployment m;
     co_random_seed := if_random_seed m; co_creation_seq := if_creation_seq m |}.

(** Expiry times; [None] when the completion time is unknown. *)
Definition completion_expiry_time (c : CompletedInvocation) : option Z :=
  (λ base, saturating_add u64_max base (co_completion_retention_duration c))
    <$> completed_transition_time (co_timestamps c).
Definition journal_expiry_time (c : CompletedInvocation) : option Z :=
  (λ base, saturating_add u64_max base (co_journal_retention_duration c))
    <$> completed_transition_time (co_timestamps c).

(** ** The status *)

Inductive InvocationStatus :=
| Scheduled (i : ScheduledInvocation)
| Inboxed (i : InboxedInvocation)
| Invoked (m : InFlightInvocationMetadata)
| Suspended (m : InFlightInvocationMetadata) (awaiting_on : UnresolvedFuture)
| Paused (m : InFlightInvocationMetadata)
| Completed (c : CompletedInvocation)
| Free.

Definition invocation_target (s : InvocationStatus) : option InvocationTarget :=
  match s with
  | Scheduled i => Some (pf_invocation_target (sch_metadata i))
  | Inboxed i => Some (pf_invocation_target (inb_metadata i))
  | Invoked m | Suspended m _ | Paused m => Some (if_invocation_target m)
  | Completed c => Some (co_invocation_target c)
  | Free => None
  end.

Definition status_source (s : InvocationStatus) : option Source :=
  match s with
  | Scheduled i => Some (pf_source (sch_metadata i))
  | Inboxed i => Some (pf_source (inb_metadata i))
  | Invoked m | Suspended m _ | Paused m => Some (if_source m)
  | Completed c => Some (co_source c)
  | Free => None
  end.

Definition execution_time (s : InvocationStatus) : option Z :=
  match s with
  | Scheduled i => pf_execution_time (sch_metadata i)
  | Inboxed i => pf_execution_time (inb_metadata i)
  | _ => None
  end.

Definition idempotency_key (s : InvocationStatus) : option string :=
  match s with
  | Scheduled i => pf_idempotency_key (sch_metadata i)
  | Inboxed i => pf_idempotency_key (inb_metadata i)
  | Invoked m | Suspended m _ | Paused m => if_idempotency_key m
  | Completed c => co_idempotency_key c
  | Free => None
  end.

Definition get_invocation_metadata (s : InvocationStatus) : option InFlightInvocationMetadata :=
  match s with
  | Invoked m | Suspended m _ | Paused m => Some m
  | _ => None
  end.

(** [get_invocation_metadata_mut] with the update to apply. *)
Definition map_invocation_metadata (f : InFlightInvocationMetadata → InFlightInvocationMetadata)
    (s : InvocationStatus) : InvocationStatus :=
  match s with
  | Invoked m => Invoked (f m)
  | Suspended m a => Suspended (f m) a
  | Paused m => Paused (f m)
  | _ => s
  end.

Definition get_journal_metadata (s : InvocationStatus) : option JournalMetadata :=
  match s with
  | Invoked m | Suspended m _ | Paused m => Some (if_journal_metadata m)
  | Completed c => Some (co_journal_metadata c)
  | _ => None
  end.

(** [get_journal_metadata_mut] with the update to apply. *)
Definition map_journal_metadata (f : JournalMetadata → JournalMetadata)
    (s : InvocationStatus) : InvocationStatus :=
  match s with
  | Completed c => Completed (co_with_journal_metadata (f (co_journal_metadata c)) c)
  | _ => map_invocation_metadata (if_with_journal_metadata f) s
  end.

Definition get_response_sinks (s : InvocationStatus)
    : option (gset ServiceInvocationResponseSink) :=
  match s with
  | Scheduled i => Some (pf_response_sinks (sch_metadata i))
  | Inboxed i => Some (pf_response_sinks (inb_metadata i))
  | Invoked m | Suspended m _ | Paused m => Some (if_response_sinks m)
  | _ => None
  end.

(** [get_response_sinks_mut] with the update to apply. *)
Definition map_response_sinks
    (f : gset ServiceInvocationResponseSink → gset ServiceInvocationResponseSink)
    (s : InvocationStatus) : InvocationStatus :=
  match s with
  | Scheduled i => Scheduled {| sch_metadata := pf_with_sinks f (sch_metadata i) |}
  | Inboxed i => Inboxed {| inb_sequence_number := inb_sequence_number i;
                            inb_metadata := pf_with_sinks f (inb_metadata i) |}
  | _ => map_invocation_metadata (if_with_sinks f) s
  end.

Definition co_with_timestamps (f : StatusTimestamps → StatusTimestamps) (m : CompletedInvocation)
    : CompletedInvocation :=
  {| co_vqueue_id := co_vqueue_id m; co_invocation_target := co_invocation_target m;
     co_limit_key := co_limit_key m;
     co_created_using_restate_version := co_created_using_restate_version m;
     co_source := co_source m; co_execution_time := co_execution_time m;
     co_idempotency_key := co_idempotency_key m; co_timestamps := f (co_timestamps m);
     co_response_result := co_response_result m;
     co_completion_retention_duration := co_completion_retention_duration m;
     co_journal_retention_duration := co_journal_retention_duration m;
     co_journal_metadata := co_journal_metadata m;
     co_pinned_deployment := co_pinned_deployment m;
     co_random_seed := co_random_seed m; co_creation_seq := co_creation_seq m |}.

(** [get_timestamps_mut] with the update to apply. *)
Definition map_timestamps (f : StatusTimestamps → StatusTimestamps)
    (s : InvocationStatus) : InvocationStatus :=
  match s with
  | Scheduled i => Scheduled {| sch_metadata := pf_with_timestamps f (sch_metadata i) |}
  | Inboxed i => Inboxed {| inb_sequence_number := inb_sequence_number i;
                            inb_metadata := pf_with_timestamps f (inb_metadata i) |}
  | Completed c => Completed (co_with_timestamps f c)
  | _ => map_invocation_metadata (if_with_timestamps f) s
  end.

Definition is_free (s : InvocationStatus) : bool :=
  match s with Free => true | _ => false end.
Definition is_in_flight (s : InvocationStatus) : bool :=
  match s with Invoked _ | Suspended _ _ | Paused _ => true | _ => false end.
Definition is_invoked (s : InvocationStatus) : bool :=
  match s with Invoked _ => true | _ => false end.
