(* ===== verification/VQueueMeta.v ===== *)
(** * Virtual queues: metadata, entries and statistics

    [storage-api/src/vqueue_table]: the per-queue counters and averages of
    [metadata.rs] with [apply_update], the entry keys of [entry.rs] with their
    order, the entry headers of [entry_status.rs] and the statistics of
    [stats.rs]; the second-granular timestamps of [clock/src/rough_ts.rs].

    Averages are [f64] computations: the IEEE-754 binary64 operations are those
    of [SpecFloat] with 53 bits of precision. *)

From Stdlib Require Import SpecFloat.
From stdpp Require Import strings.
From S2P Require Import Prelude Clock Invocation.

Open Scope Z_scope.

(** ** Rough timestamps *)

Definition RESTATE_EPOCH_SECONDS : Z := RESTATE_EPOCH / 1000.

(** [RoughTimestamp] by its [as_u32] value: seconds since the Restate epoch. *)
Definition RoughTimestamp := Z.

Definition rough_new (seconds : Z) : RoughTimestamp := saturating_add u32_max seconds 1 - 1.
Definition ROUGH_MAX : RoughTimestamp := rough_new (u32_max - 1).

Definition rough_as_unix_millis (t : RoughTimestamp) : Z :=
  Z.min u64_max ((t + RESTATE_EPOCH_SECONDS) * 1000).

Definition rough_clamp (unix_secs : Z) : RoughTimestamp :=
  let since := saturating_sub unix_secs RESTATE_EPOCH_SECONDS in
  rough_new (if u32_max <? since then u32_max else since).

Definition from_unix_millis_clamped (unix_millis : Z) : RoughTimestamp :=
  rough_clamp (unix_millis / 1000).

Definition from_unix_millis_ceil (unix_millis : Z) : RoughTimestamp :=
  let unix_secs := unix_millis / 1000 in
  rough_clamp (if unix_millis mod 1000 =? 0 then unix_secs else unix_secs + 1).

(** ** Binary64 averages *)

Definition f64 := spec_float.
Definition f64_of_Z (z : Z) : f64 := binary_normalize 53 1024 z 0 false.
Definition f64_ratio (n d : Z) : f64 := SFdiv 53 1024 (f64_of_Z n) (f64_of_Z d).

(** [f.ceil() as uN]: the least integer above, saturated to the width. *)
Definition ceil_saturated (max : Z) (f : f64) : Z :=
  match f with
  | S754_finite false m e =>
      Z.min max (if 0 <=? e then Z.pos m * 2 ^ e else div_ceil (Z.pos m) (2 ^ (- e)))
  | S754_infinity false => max
  | _ => 0
  end.

(** [VQueueStatistics::ema] and the [ema_merge!] macro of [WaitStats]: the
    average with weight 0.05 for the sample, and the sample itself while the
    average is zero. *)
Definition ema (max previous sample : Z) : Z :=
  if previous =? 0 then sample
  else ceil_saturated max
         (SFadd 53 1024 (SFmul 53 1024 (f64_of_Z previous) (f64_ratio 95 100))
                        (SFmul 53 1024 (f64_of_Z sample) (f64_ratio 5 100))).

(** ** Statistics of an entry *)

Record WaitStats := {
  ws_invoker_concurrency : Z;
  ws_throttling_rules : Z;
  ws_invoker_throttling : Z;
  ws_invoker_memory : Z;
  ws_concurrency_rules : Z;
  ws_lock : Z;
  ws_deployment_concurrency : Z }.

Definition wait_zero : WaitStats :=
  {| ws_invoker_concurrency := 0; ws_throttling_rules := 0; ws_invoker_throttling := 0;
     ws_invoker_memory := 0; ws_concurrency_rules := 0; ws_lock := 0;
     ws_deployment_concurrency := 0 |}.

Definition wait_zip (f : Z → Z → Z) (a b : WaitStats) : WaitStats :=
  {| ws_invoker_concurrency := f (ws_invoker_concurrency a) (ws_invoker_concurrency b);
     ws_throttling_rules := f (ws_throttling_rules a) (ws_throttling_rules b);
     ws_invoker_throttling := f (ws_invoker_throttling a) (ws_invoker_throttling b);
     ws_invoker_memory := f (ws_invoker_memory a) (ws_invoker_memory b);
     ws_concurrency_rules := f (ws_concurrency_rules a) (ws_concurrency_rules b);
     ws_lock := f (ws_lock a) (ws_lock b);
     ws_deployment_concurrency := f (ws_deployment_concurrency a) (ws_deployment_concurrency b) |}.

Definition ema_apply (this other : WaitStats) : WaitStats := wait_zip (ema u32_max) this other.
Definition wait_add (this other : WaitStats) : WaitStats := wait_zip (saturating_add u32_max) this other.

Record EntryStatistics := {
  es_created_at : UniqueTimestamp;
  es_transitioned_at : UniqueTimestamp;
  es_num_attempts : Z;
  es_num_paused : Z;
  es_num_suspensions : Z;
  es_num_yields : Z;
  es_num_errors : Z;
  es_first_attempt_at : option UniqueTimestamp;
  es_latest_attempt_at : option UniqueTimestamp;
  es_first_runnable_at : Z;
  es_latest_attempt_wait_stats : WaitStats;
  es_total_wait_stats : WaitStats }.

Definition entry_statistics_new (created_at : UniqueTimestamp) (original_run_at : RoughTimestamp)
    : EntryStatistics :=
  {| es_created_at := created_at; es_transitioned_at := created_at;
     es_num_attempts := 0; es_num_paused := 0; es_num_suspensions := 0; es_num_yields := 0;
     es_num_errors := 0; es_first_attempt_at := None; es_latest_attempt_at := None;
     es_first_runnable_at := Z.max (to_unix_millis created_at) (rough_as_unix_millis original_run_at);
     es_latest_attempt_wait_stats := wait_zero; es_total_wait_stats := wait_zero |}.

(** ** Entry keys *)

Inductive EntryKind := KindUnknown | KindInvocation | KindStateMutation.

(** [EntryId]: the kind and the 16-byte identifier. *)
Record EntryId := { ei_kind : EntryKind; ei_id : Z }.

(** [BaseEntryId]: an entry id with its partition key. *)
Record BaseEntryId := { be_partition_key : Z; be_entry : EntryId }.

#[export] Instance EntryKind_eq_dec : EqDecision EntryKind.
Proof. solve_decision. Defined.
#[export] Instance EntryKind_countable : Countable EntryKind.
Proof.
  refine (inj_countable'
    (λ k, match k with KindUnknown => 0 | KindInvocation => 1 | KindStateMutation => 2 end%nat)
    (λ n, match n with 0 => KindUnknown | 1 => KindInvocation | _ => KindStateMutation end%nat) _).
  by intros [].
Defined.
#[export] Instance EntryId_eq_dec : EqDecision EntryId.
Proof. solve_decision. Defined.
#[export] Instance EntryId_countable : Countable EntryId.
Proof.
  refine (inj_countable' (λ i, (ei_kind i, ei_id i))
                         (λ p, {| ei_kind := p.1; ei_id := p.2 |}) _).
  by intros [].
Defined.
#[export] Instance BaseEntryId_eq_dec : EqDecision BaseEntryId.
Proof. solve_decision. Defined.
#[export] Instance BaseEntryId_countable : Countable BaseEntryId.
Proof.
  refine (inj_countable' (λ i, (be_partition_key i, be_entry i))
                         (λ p, {| be_partition_key := p.1; be_entry := p.2 |}) _).
  by intros [].
Defined.

Definition entry_id_of_invocation (id : InvocationId) : EntryId :=
  {| ei_kind := KindInvocation; ei_id := inv_uuid id |}.
Definition base_id_of_invocation (id : InvocationId) : BaseEntryId :=
  {| be_partition_key := inv_partition_key id; be_entry := entry_id_of_invocation id |}.

(** [BaseEntryId::to_invocation_id]. *)
Definition to_invocation_id_opt (b : BaseEntryId) : option InvocationId :=
  match ei_kind (be_entry b) with
  | KindInvocation => Some {| inv_partition_key := be_partition_key b; inv_uuid := ei_id (be_entry b) |}
  | _ => None
  end.

Record EntryKey := {
  ek_has_lock : bool; ek_run_at : RoughTimestamp; ek_seq : Z; ek_entry_id : EntryId }.

#[export] Instance EntryKey_eq_dec : EqDecision EntryKey.
Proof. solve_decision. Defined.
#[export] Instance EntryKey_countable : Countable EntryKey.
Proof.
  refine (inj_countable' (λ k, (ek_has_lock k, ek_run_at k, ek_seq k, ek_entry_id k))
    (λ '(a, b, c, d), {| ek_has_lock := a; ek_run_at := b; ek_seq := c; ek_entry_id := d |}) _).
  by intros [].
Defined.

(** [EntryKey::new] panics on an entry of unknown kind. *)
Definition entry_key_new {E} (has_lock : bool) (run_at : RoughTimestamp) (seq : Z) (id : EntryId)
    : res E EntryKey :=
  match ei_kind id with
  | KindUnknown => Panic
  | _ => Ok {| ek_has_lock := has_lock; ek_run_at := run_at; ek_seq := seq; ek_entry_id := id |}
  end.

Definition acquire_lock_key (k : EntryKey) : EntryKey :=
  {| ek_has_lock := true; ek_run_at := ek_run_at k; ek_seq := ek_seq k;
     ek_entry_id := ek_entry_id k |}.
Definition release_lock_key (k : EntryKey) : EntryKey :=
  {| ek_has_lock := false; ek_run_at := ek_run_at k; ek_seq := ek_seq k;
     ek_entry_id := ek_entry_id k |}.
Definition set_run_at (run_at : option RoughTimestamp) (k : EntryKey) : EntryKey :=
  {| ek_has_lock := ek_has_lock k; ek_run_at := default (ek_run_at k) run_at; ek_seq := ek_seq k;
     ek_entry_id := ek_entry_id k |}.

Definition kind_rank (k : EntryKind) : Z :=
  match k with KindUnknown => 0 | KindInvocation => 1 | KindStateMutation => 2 end.

Definition then_with (a b : comparison) : comparison :=
  match a with Eq => b | _ => a end.

(** [Ord for EntryKey]: entries that hold a lock come first. *)
Definition entry_key_cmp (a b : EntryKey) : comparison :=
  then_with (CompOpp (Z.compare (Z.b2z (ek_has_lock a)) (Z.b2z (ek_has_lock b))))
 (then_with (Z.compare (ek_run_at a) (ek_run_at b))
 (then_with (Z.compare (ek_seq a) (ek_seq b))
 (then_with (Z.compare (kind_rank (ei_kind (ek_entry_id a))) (kind_rank (ei_kind (ek_entry_id b))))
            (Z.compare (ei_id (ek_entry_id a)) (ei_id (ek_entry_id b)))))).

(** ** Stages, statuses and headers *)

Inductive Stage := StUnknown | StInbox | StRunning | StSuspended | StPaused | StFinished.

#[export] Instance Stage_eq_dec : EqDecision Stage.
Proof. solve_decision. Defined.
#[export] Instance Stage_countable : Countable Stage.
Proof.
  refine (inj_countable'
    (λ s, match s with StUnknown => 0 | StInbox => 1 | StRunning => 2 | StSuspended => 3
                     | StPaused => 4 | StFinished => 5 end%nat)
    (λ n, match n with 0 => StUnknown | 1 => StInbox | 2 => StRunning | 3 => StSuspended
                     | 4 => StPaused | _ => StFinished end%nat) _).
  by intros [].
Defined.

Inductive Status :=
| SUnknown | SNew | SScheduled | SStarted | SBackingOff | SYielded
| SKilled | SCancelled | SFailed | SSucceeded.

#[export] Instance Status_eq_dec : EqDecision Status.
Proof. solve_decision. Defined.

Record EntryMetadata := {
  em_deployment : option string;
  em_needed_memory : option Z;
  em_retry_attempts : Z;
  em_retry_count_since_last_stored_command : Z }.

Definition entry_metadata_default : EntryMetadata :=
  {| em_deployment := None; em_needed_memory := None; em_retry_attempts := 0;
     em_retry_count_since_last_stored_command := 0 |}.

Definition em_with_deployment (d : option string) (m : EntryMetadata) : EntryMetadata :=
  {| em_deployment := d; em_needed_memory := em_needed_memory m;
     em_retry_attempts := em_retry_attempts m;
     em_retry_count_since_last_stored_command := em_retry_count_since_last_stored_command m |}.

Record EntryValue := {
  ev_status : Status; ev_metadata : EntryMetadata; ev_stats : EntryStatistics }.

(** [EntryValue::weight]. *)
Definition weight (v : EntryValue) : Z :=
  match ev_status v with SNew | SScheduled => 2 | _ => 1 end.

Record EntryStatusHeader := {
  h_qid : VQueueId;
  h_stage : Stage;
  h_entry_key : EntryKey;
  h_metadata : EntryMetadata;
  h_status : Status;
  h_stats : EntryStatistics }.

Definition h_has_lock (h : EntryStatusHeader) : bool := ek_has_lock (h_entry_key h).
Definition h_seq (h : EntryStatusHeader) : Z := ek_seq (h_entry_key h).
Definition has_started (h : EntryStatusHeader) : bool := 0 <? es_num_attempts (h_stats h).
Definition h_base_id (h : EntryStatusHeader) : BaseEntryId :=
  {| be_partition_key := vq_partition_key (h_qid h); be_entry := ek_entry_id (h_entry_key h) |}.

(** ** Queue metadata *)

Record VQueueStatistics := {
  vs_created_at : UniqueTimestamp;
  vs_avg_queue_duration_ms : Z;
  vs_last_enqueued_at : option UniqueTimestamp;
  vs_last_start_at : option UniqueTimestamp;
  vs_last_finish_at : option UniqueTimestamp;
  vs_last_attempt_at : option UniqueTimestamp;
  vs_num_inbox : Z;
  vs_num_suspended : Z;
  vs_num_paused : Z;
  vs_num_running : Z;
  vs_num_finished : Z;
  vs_avg_inbox_duration_ms : Z;
  vs_avg_run_duration_ms : Z;
  vs_avg_suspension_duration_ms : Z;
  vs_avg_end_to_end_duration_ms : Z;
  vs_avg_wait_stats : WaitStats }.

Definition vqueue_statistics_new (created_at : UniqueTimestamp) : VQueueStatistics :=
  {| vs_created_at := created_at; vs_avg_queue_duration_ms := 0; vs_last_enqueued_at := None;
     vs_last_start_at := None; vs_last_finish_at := None; vs_last_attempt_at := None;
     vs_num_inbox := 0; vs_num_suspended := 0; vs_num_paused := 0; vs_num_running := 0;
     vs_num_finished := 0; vs_avg_inbox_duration_ms := 0; vs_avg_run_duration_ms := 0;
     vs_avg_suspension_duration_ms := 0; vs_avg_end_to_end_duration_ms := 0;
     vs_avg_wait_stats := wait_zero |}.

Definition is_fully_empty (s : VQueueStatistics) : bool :=
  (vs_num_inbox s =? 0) && (vs_num_running s =? 0) && (vs_num_paused s =? 0)
  && (vs_num_suspended s =? 0) && (vs_num_finished s =? 0).

Inductive VQueueLink := LinkNone | LinkLock (l : LockName) | LinkService (service : string).

Record VQueueMeta := {
  vm_queue_is_paused : bool;
  vm_stats : VQueueStatistics;
  vm_scope : option string;
  vm_limit_key : LimitKey;
  vm_link : VQueueLink }.

Definition vqueue_meta_new (at_ : UniqueTimestamp) (scope : option string) (limit_key : LimitKey)
    (link : VQueueLink) : VQueueMeta :=
  {| vm_queue_is_paused := false; vm_stats := vqueue_statistics_new at_; vm_scope := scope;
     vm_limit_key := limit_key; vm_link := link |}.

Definition vm_lock_name (m : VQueueMeta) : option LockName :=
  match vm_link m with LinkLock l => Some l | _ => None end.

Definition vm_len (m : VQueueMeta) : Z :=
  vs_num_inbox (vm_stats m) + vs_num_running (vm_stats m) + vs_num_paused (vm_stats m)
  + vs_num_suspended (vm_stats m).

Definition is_obsolete (m : VQueueMeta) : bool :=
  negb (vm_queue_is_paused m) && is_fully_empty (vm_stats m).

Definition vm_is_active (m : VQueueMeta) : bool :=
  (0 <? vs_num_running (vm_stats m))
  || ((0 <? vs_num_inbox (vm_stats m)) && negb (vm_queue_is_paused m)).

(** [decrement_stage]. *)
Definition decrement_stage (st : Stage) (s : VQueueStatistics) : VQueueStatistics :=
  let dec x := saturating_sub x 1 in
  {| vs_created_at := vs_created_at s; vs_avg_queue_duration_ms := vs_avg_queue_duration_ms s;
     vs_last_enqueued_at := vs_last_enqueued_at s; vs_last_start_at := vs_last_start_at s;
     vs_last_finish_at := vs_last_finish_at s; vs_last_attempt_at := vs_last_attempt_at s;
     vs_num_inbox := if bool_decide (st = StInbox) then dec (vs_num_inbox s) else vs_num_inbox s;
     vs_num_suspended := if bool_decide (st = StSuspended) then dec (vs_num_suspended s)
                         else vs_num_suspended s;
     vs_num_paused := if bool_decide (st = StPaused) then dec (vs_num_paused s)
                      else vs_num_paused s;
     vs_num_running := if bool_decide (st = StRunning) then dec (vs_num_running s)
                       else vs_num_running s;
     vs_num_finished := if bool_decide (st = StFinished) then dec (vs_num_finished s)
                        else vs_num_finished s;
     vs_avg_inbox_duration_ms := vs_avg_inbox_duration_ms s;
     vs_avg_run_duration_ms := vs_avg_run_duration_ms s;
     vs_avg_suspension_duration_ms := vs_avg_suspension_duration_ms s;
     vs_avg_end_to_end_duration_ms := vs_avg_end_to_end_duration_ms s;
     vs_avg_wait_stats := vs_avg_wait_stats s |}.

(** [record_stage_exit]. *)
Definition record_stage_exit (st : Stage) (dwell_ms : Z) (s : VQueueStatistics) : VQueueStatistics :=
  let upd (b : bool) (x : Z) := if b then ema u64_max x dwell_ms else x in
  {| vs_created_at := vs_created_at s; vs_avg_queue_duration_ms := vs_avg_queue_duration_ms s;
     vs_last_enqueued_at := vs_last_enqueued_at s; vs_last_start_at := vs_last_start_at s;
     vs_last_finish_at := vs_last_finish_at s; vs_last_attempt_at := vs_last_attempt_at s;
     vs_num_inbox := vs_num_inbox s; vs_num_suspended := vs_num_suspended s;
     vs_num_paused := vs_num_paused s; vs_num_running := vs_num_running s;
     vs_num_finished := vs_num_finished s;
     vs_avg_inbox_duration_ms := upd (bool_decide (st = StInbox)) (vs_avg_inbox_duration_ms s);
     vs_avg_run_duration_ms := upd (bool_decide (st = StRunning)) (vs_avg_run_duration_ms s);
     vs_avg_suspension_duration_ms :=
       upd (bool_decide (st = StSuspended)) (vs_avg_suspension_duration_ms s);
     vs_avg_end_to_end_duration_ms := vs_avg_end_to_end_duration_ms s;
     vs_avg_wait_stats := vs_avg_wait_stats s |}.

Record MoveMetrics := {
  mm_last_transition_at : UniqueTimestamp;
  mm_has_started : bool;
  mm_first_runnable_at : Z;
  mm_scheduler_wait_stats : option WaitStats }.

Inductive UpdateAction :=
| ActUnknown
| ActMove (prev_stage : option Stage) (next_stage : Stage) (metrics : MoveMetrics)
| ActPauseVQueue
| ActResumeVQueue
| ActRemoveEntry (stage : Stage).

Record Update := { up_ts : UniqueTimestamp; up_action : UpdateAction }.

(** The effect of entering [next] on the statistics; [None] for the
    unreachable unknown stage. *)
Definition enter_stage (now : UniqueTimestamp) (prev : option Stage) (next : Stage)
    (mt : MoveMetrics) (s : VQueueStatistics) : option VQueueStatistics :=
  let now_ms := to_unix_millis now in
  let since := saturating_sub now_ms (mm_first_runnable_at mt) in
  let to_ (st : Stage) := bool_decide (next = st) in
  let first_run := to_ StRunning && negb (mm_has_started mt) in
  match next with
  | StUnknown => None
  | _ => Some
    {| vs_created_at := vs_created_at s;
       vs_avg_queue_duration_ms :=
         if first_run then ema u64_max (vs_avg_queue_duration_ms s) since
         else vs_avg_queue_duration_ms s;
       vs_last_enqueued_at :=
         if to_ StInbox && bool_decide (prev = None) then Some now else vs_last_enqueued_at s;
       vs_last_start_at := if first_run then Some now else vs_last_start_at s;
       vs_last_finish_at := if to_ StFinished then Some now else vs_last_finish_at s;
       vs_last_attempt_at := if to_ StRunning then Some now else vs_last_attempt_at s;
       vs_num_inbox := vs_num_inbox s + Z.b2z (to_ StInbox);
       vs_num_suspended := vs_num_suspended s + Z.b2z (to_ StSuspended);
       vs_num_paused := vs_num_paused s + Z.b2z (to_ StPaused);
       vs_num_running := vs_num_running s + Z.b2z (to_ StRunning);
       vs_num_finished := vs_num_finished s + Z.b2z (to_ StFinished);
       vs_avg_inbox_duration_ms := vs_avg_inbox_duration_ms s;
       vs_avg_run_duration_ms := vs_avg_run_duration_ms s;
       vs_avg_suspension_duration_ms := vs_avg_suspension_duration_ms s;
       vs_avg_end_to_end_duration_ms :=
         if to_ StFinished && bool_decide (prev = Some StRunning)
         then ema u64_max (vs_avg_end_to_end_duration_ms s) since
         else vs_avg_end_to_end_duration_ms s;
       vs_avg_wait_stats :=
         match mm_scheduler_wait_stats mt with
         | Some w => if to_ StRunning then ema_apply (vs_avg_wait_stats s) w
                     else vs_avg_wait_stats s
         | None => vs_avg_wait_stats s
         end |}
  end.

Definition vm_with_stats (s : VQueueStatistics) (m : VQueueMeta) : VQueueMeta :=
  {| vm_queue_is_paused := vm_queue_is_paused m; vm_stats := s; vm_scope := vm_scope m;
     vm_limit_key := vm_limit_key m; vm_link := vm_link m |}.
Definition vm_with_paused (b : bool) (m : VQueueMeta) : VQueueMeta :=
  {| vm_queue_is_paused := b; vm_stats := vm_stats m; vm_scope := vm_scope m;
     vm_limit_key := vm_limit_key m; vm_link := vm_link m |}.

(** [VQueueMeta::apply_update]; [None] is a panic. *)
Definition apply_update (u : Update) (m : VQueueMeta) : option VQueueMeta :=
  match up_action u with
  | ActUnknown => None
  | ActPauseVQueue => Some (vm_with_paused true m)
  | ActResumeVQueue => Some (vm_with_paused false m)
  | ActRemoveEntry st => Some (vm_with_stats (decrement_stage st (vm_stats m)) m)
  | ActMove prev next mt =>
      let s := vm_stats m in
      let s := match prev with
               | Some p =>
                   decrement_stage p
                     (record_stage_exit p
                        (ut_saturating_sub_ms (up_ts u) (mm_last_transition_at mt)) s)
               | None => s
               end in
      let! s := enter_stage (up_ts u) prev next mt s in
      Some (vm_with_stats s m)
  end.
