(* ===== verification/JournalV1.v ===== *)
(** * Journal entries, first format

    Entries of the journal of service protocols up to version 3:
    [types/src/journal/{entries,raw,enriched}.rs] and the completion of an entry
    in [service-protocol/src/codec.rs].  An enriched raw entry is its header,
    what its payload deserializes to ([None] when it does not), and the
    completion that [write_completion] appended to the payload. *)

From stdpp Require Import strings.
From S2P Require Import Prelude Invocation.

Open Scope Z_scope.

Inductive CompletionResult :=
| CrEmpty
| CrSuccess (value : string)
| CrFailure (code : Z) (message : string).

#[export] Instance CompletionResult_eq_dec : EqDecision CompletionResult.
Proof. solve_decision. Defined.

Inductive EntryResult :=
| ErSuccess (value : string)
| ErFailure (code : Z) (message : string).

Definition completion_of_error (e : InvocationError) : CompletionResult :=
  CrFailure (ie_code e) (ie_message e).

Definition completion_of_response (r : ResponseResult) : CompletionResult :=
  match r with ResponseSuccess v => CrSuccess v | ResponseFailure e => completion_of_error e end.

Definition response_of_entry_result (r : EntryResult) : ResponseResult :=
  match r with
  | ErSuccess v => ResponseSuccess v
  | ErFailure code m => ResponseFailure (new_static code m)
  end.

(** The parts of [InvokeRequest] that the state machine forwards. *)
Record InvokeRequest := {
  ir_parameter : string; ir_headers : list Header; ir_idempotency_key : option string }.

Record CallEnrichmentResult := {
  ce_invocation_id : InvocationId;
  ce_invocation_target : InvocationTarget;
  ce_completion_retention_time : option Z;
  ce_span_context : SpanContext }.

Record AwakeableEnrichmentResult := { ae_invocation_id : InvocationId; ae_entry_index : Z }.

Inductive CancelInvocationTarget :=
| CancelById (id : string)
| CancelCallEntry (call_entry_index : Z).

Inductive AttachTargetV1 :=
| AttachV1Id (id : string)
| AttachV1CallEntry (call_entry_index : Z)
| AttachV1Idempotent (id : IdempotencyId)
| AttachV1Workflow (id : ServiceId).

Inductive EntryHeader :=
| HInput | HOutput
| HGetState (is_completed : bool) | HSetState | HClearState | HClearAllState
| HGetStateKeys (is_completed : bool)
| HGetPromise (is_completed : bool) | HPeekPromise (is_completed : bool)
| HCompletePromise (is_completed : bool)
| HSleep (is_completed : bool)
| HCall (is_completed : bool) (enrichment : option CallEnrichmentResult)
| HOneWayCall (enrichment : CallEnrichmentResult)
| HAwakeable (is_completed : bool)
| HCompleteAwakeable (enrichment : AwakeableEnrichmentResult)
| HRun | HCustom (code : Z) | HCancelInvocation
| HGetCallInvocationId (is_completed : bool)
| HAttachInvocation (is_completed : bool)
| HGetInvocationOutput (is_completed : bool).

Definition header_is_completed (h : EntryHeader) : option bool :=
  match h with
  | HGetState b | HGetStateKeys b | HGetPromise b | HPeekPromise b | HCompletePromise b
  | HSleep b | HCall b _ | HAwakeable b | HGetCallInvocationId b | HAttachInvocation b
  | HGetInvocationOutput b => Some b
  | _ => None
  end.

Definition mark_completed (h : EntryHeader) : EntryHeader :=
  match h with
  | HGetState _ => HGetState true | HGetStateKeys _ => HGetStateKeys true
  | HGetPromise _ => HGetPromise true | HPeekPromise _ => HPeekPromise true
  | HCompletePromise _ => HCompletePromise true | HSleep _ => HSleep true
  | HCall _ e => HCall true e | HAwakeable _ => HAwakeable true
  | HGetCallInvocationId _ => HGetCallInvocationId true
  | HAttachInvocation _ => HAttachInvocation true
  | HGetInvocationOutput _ => HGetInvocationOutput true
  | _ => h
  end.

(** A deserialized payload ([journal::Entry]), without the result slot. *)
Inductive EntryV1 :=
| EInput (headers : list Header) (value : string)
| EOutput (result : EntryResult)
| EGetState (key : string) | ESetState (key value : string) | EClearState (key : string)
| EClearAllState | EGetStateKeys
| EGetPromise (key : string) | EPeekPromise (key : string)
| ECompletePromise (key : string) (completion : EntryResult)
| ESleep (wake_up_time : Z)
| ECall (request : InvokeRequest)
| EOneWayCall (request : InvokeRequest) (invoke_time : Z)
| EAwakeable
| ECompleteAwakeable (id : string) (result : EntryResult)
| ERun | ECustom
| ECancelInvocation (target : CancelInvocationTarget)
| EGetCallInvocationId (call_entry_index : Z)
| EAttachInvocation (target : AttachTargetV1)
| EGetInvocationOutput (target : AttachTargetV1).

Record EnrichedRawEntry := {
  er_header : EntryHeader;
  er_entry : option EntryV1;
  er_result : option CompletionResult }.

(** [ProtobufRawEntryCodec::write_completion]. *)
Definition write_completion (r : CompletionResult) (e : EnrichedRawEntry) : EnrichedRawEntry :=
  {| er_header := mark_completed (er_header e); er_entry := er_entry e; er_result := Some r |}.

(** [ProtobufRawEntryCodec::serialize_as_input_entry]. *)
Definition serialize_as_input_entry (headers : list Header) (value : string) : EnrichedRawEntry :=
  {| er_header := HInput; er_entry := Some (EInput headers value); er_result := None |}.

Inductive JournalEntry :=
| JEntry (e : EnrichedRawEntry)
| JCompletion (r : CompletionResult).

(** [JournalEntry::is_resumable]. *)
Definition is_resumable (j : JournalEntry) : bool :=
  match j with
  | JEntry e => default true (header_is_completed (er_header e))
  | JCompletion _ => false
  end.
