(* ===== verification/PartitionStore.v ===== *)
(** * The partition store

    The tables that the partition processor reads and writes in one
    transaction: the traits of [storage-api/src] with the row types they store,
    and the operations of [partition-store/src] on them.  A table is a finite
    map from its key to its row; absence of a row is the default of the table
    ([InvocationStatus::Free], [VirtualObjectStatus::Unlocked]).

    RocksDB itself, the key encodings and the serialization of rows are not
    modelled: reads return what was written, and scans by prefix return the
    rows in key order. *)

From Stdlib Require Import Ascii.
From stdpp Require Import strings.
From S2P Require Import Prelude UnresolvedFuture Clock Invocation InvocationStatus JournalV1.
From S2P Require Import VQueueMeta.

Open Scope Z_scope.

(** ** Timers ([storage-api/src/timer_table]) *)

Inductive TimerKeyKind :=
| TkInvoke (invocation_uuid : Z)
| TkNeoInvoke (invocation_uuid : Z)
| TkCompleteJournalEntry (invocation_uuid journal_index : Z)
| TkCleanInvocationStatus (invocation_uuid : Z).

Record TimerKey := { tk_timestamp : Z; tk_kind : TimerKeyKind }.

#[export] Instance TimerKeyKind_eq_dec : EqDecision TimerKeyKind.
Proof. solve_decision. Defined.
#[export] Instance TimerKey_eq_dec : EqDecision TimerKey.
Proof. solve_decision. Defined.
#[export] Instance TimerKey_countable : Countable TimerKey.
Proof.
  refine (inj_countable'
    (λ k, (tk_timestamp k,
           match tk_kind k with
           | TkInvoke u => (0, u, 0) | TkNeoInvoke u => (1, u, 0)
           | TkCompleteJournalEntry u i => (2, u, i) | TkCleanInvocationStatus u => (3, u, 0)
           end))
    (λ '(t, (n, u, i)),
      {| tk_timestamp := t;
         tk_kind := match n with
                    | 0 => TkInvoke u | 1 => TkNeoInvoke u
                    | 2 => TkCompleteJournalEntry u i | _ => TkCleanInvocationStatus u
                    end |}) _).
  by intros [? []].
Defined.

(** [Ord for TimerKeyKind] and [Ord for TimerKey]. *)
Definition timer_kind_cmp (a b : TimerKeyKind) : comparison :=
  match a, b with
  | TkInvoke u, TkInvoke v => Z.compare u v
  | TkInvoke _, _ => Lt
  | TkCompleteJournalEntry _ _, TkInvoke _ => Gt
  | TkCompleteJournalEntry u i, TkCompleteJournalEntry v j =>
      then_with (Z.compare u v) (Z.compare i j)
  | TkCompleteJournalEntry _ _, _ => Lt
  | TkCleanInvocationStatus u, TkCleanInvocationStatus v => Z.compare u v
  | TkCleanInvocationStatus _, TkNeoInvoke _ => Lt
  | TkCleanInvocationStatus _, _ => Gt
  | TkNeoInvoke u, TkNeoInvoke v => Z.compare u v
  | TkNeoInvoke _, _ => Gt
  end.

Definition timer_key_cmp (a b : TimerKey) : comparison :=
  then_with (Z.compare (tk_timestamp a) (tk_timestamp b)) (timer_kind_cmp (tk_kind a) (tk_kind b)).

Inductive Timer :=
| TimerInvoke (si : ServiceInvocation)
| TimerCompleteJournalEntry (id : InvocationId) (entry_index : Z)
| TimerCleanInvocationStatus (id : InvocationId)
| TimerNeoInvoke (id : InvocationId).

Definition complete_journal_entry_key (timestamp : Z) (id : InvocationId) (index : Z) : TimerKey :=
  {| tk_timestamp := timestamp; tk_kind := TkCompleteJournalEntry (inv_uuid id) index |}.
Definition neo_invoke_key (timestamp : Z) (id : InvocationId) : TimerKey :=
  {| tk_timestamp := timestamp; tk_kind := TkNeoInvoke (inv_uuid id) |}.

(** [wal-protocol]'s [TimerKeyValue]: a timer with its key. *)
Definition TimerKeyValue : Type := TimerKey * Timer.

(** [Timer::complete_journal_entry] and [Timer::neo_invoke]. *)
Definition timer_complete_journal_entry (timestamp : Z) (id : InvocationId) (index : Z)
    : TimerKeyValue :=
  (complete_journal_entry_key timestamp id index, TimerCompleteJournalEntry id index).
Definition timer_neo_invoke (timestamp : Z) (id : InvocationId) : TimerKeyValue :=
  (neo_invoke_key timestamp id, TimerNeoInvoke id).

(** ** State mutations, inbox, promises, locks *)

(** [ExternalStateMutation] (its id is optional) and [StateMutationInput]. *)
Record StateMutationInput := {
  sm_service_id : ServiceId; sm_version : option string; sm_state : gmap string string }.
Record ExternalStateMutation := { xm_id : option Z; xm_input : StateMutationInput }.

Inductive InboxEntry :=
| InboxInvocation (service_id : ServiceId) (id : InvocationId)
| InboxStateMutation (m : ExternalStateMutation).

Definition inbox_service_id (e : InboxEntry) : ServiceId :=
  match e with
  | InboxInvocation s _ => s
  | InboxStateMutation m => sm_service_id (xm_input m)
  end.

Inductive PromiseResult :=
| PrSuccess (value : string)
| PrFailure (f : EntryFailure).

Inductive PromiseState :=
| PsCompleted (r : PromiseResult)
| PsNotCompleted (listeners : list JournalCompletionTarget).

Definition get_promise_result (r : PromiseResult) : ValueResult :=
  match r with PrSuccess v => RSuccess v | PrFailure f => RFailure f end.
Definition peek_promise_result (r : PromiseResult) : OptionalResult :=
  match r with PrSuccess v => OSuccess v | PrFailure f => OFailure f end.
Definition promise_of_value (v : ValueResult) : PromiseResult :=
  match v with RSuccess b => PrSuccess b | RFailure f => PrFailure f end.
Definition completion_of_promise (r : PromiseResult) : CompletionResult :=
  match r with
  | PrSuccess v => CrSuccess v
  | PrFailure f => CrFailure (ef_code f) (ef_message f)
  end.
Definition promise_of_entry_result (r : EntryResult) : PromiseResult :=
  match r with
  | ErSuccess v => PrSuccess v
  | ErFailure code m => PrFailure {| ef_code := code; ef_message := m; ef_metadata := [] |}
  end.

Inductive AcquiredBy :=
| AbEmpty | AbInvocation (id : InvocationId) | AbStateMutation (pk id : Z).

Definition acquired_by_entry (b : BaseEntryId) : AcquiredBy :=
  match ei_kind (be_entry b) with
  | KindUnknown => AbEmpty
  | KindInvocation =>
      AbInvocation {| inv_partition_key := be_partition_key b; inv_uuid := ei_id (be_entry b) |}
  | KindStateMutation => AbStateMutation (be_partition_key b) (ei_id (be_entry b))
  end.

Record LockState := { ls_acquired_at : UniqueTimestamp; ls_acquired_by : AcquiredBy }.

(** ** Journal events *)

Inductive Event :=
| EvTransientError (payload : string)
| EvPaused (last_failure : option string)
| EvSuspended (awaiting_on : UnresolvedFuture)
| EvUnknown (payload : string).

Definition event_type (e : Event) : Z :=
  match e with
  | EvUnknown _ => 0 | EvTransientError _ => 1 | EvPaused _ => 2 | EvSuspended _ => 3
  end.

Record EventView := {
  evv_append_time : Z; evv_after_journal_entry_index : Z; evv_event : Event }.

(** ** The tables *)

(** The keys of the inbox and of the object status do not contain the scope. *)
Definition VoKey : Type := Z * string * string.
Definition vo_key (s : ServiceId) : VoKey := (sid_partition_key s, sid_service_name s, sid_key s).

Record Tables (OutboxMessage : Type) := mkTables {
  t_status : gmap InvocationId InvocationStatus;
  t_vo : gmap VoKey InvocationId;
  t_inbox : gmap (VoKey * Z) InboxEntry;
  t_journal1 : gmap (InvocationId * Z) JournalEntry;
  t_journal2 : gmap (InvocationId * Z) StoredRawEntry;
  t_notifications : gmap (InvocationId * NotificationId) (Z * RawNotificationResultVariant);
  t_completion_cmds : gmap (InvocationId * Z) Z;
  t_events : gmap (InvocationId * (Z * Z * Z)) EventView;
  t_timers : gmap TimerKey Timer;
  t_outbox : gmap Z OutboxMessage;
  t_state : gmap (ServiceId * string) string;
  t_promises : gmap (ServiceId * string) PromiseState;
  t_vqmeta : gmap VQueueId VQueueMeta;
  t_vqactive : gset VQueueId;
  t_vqinbox : gmap (VQueueId * Stage * EntryKey) EntryValue;
  t_vqentry : gmap BaseEntryId EntryStatusHeader;
  t_vqinput : gmap (VQueueId * Z * EntryId) StateMutationInput;
  t_locks : gmap (option string * LockName) LockState;
  t_inbox_seq : Z;
  t_outbox_tail : Z }.

Arguments mkTables {_}.
Arguments t_status {_}.
Arguments t_vo {_}.
Arguments t_inbox {_}.
Arguments t_journal1 {_}.
Arguments t_journal2 {_}.
Arguments t_notifications {_}.
Arguments t_completion_cmds {_}.
Arguments t_events {_}.
Arguments t_timers {_}.
Arguments t_outbox {_}.
Arguments t_state {_}.
Arguments t_promises {_}.
Arguments t_vqmeta {_}.
Arguments t_vqactive {_}.
Arguments t_vqinbox {_}.
Arguments t_vqentry {_}.
Arguments t_vqinput {_}.
Arguments t_locks {_}.
Arguments t_inbox_seq {_}.
Arguments t_outbox_tail {_}.

(** One update function per table. *)
Section updates.
Context {O : Type}.

Definition upd_status f (t : Tables O) : Tables O :=
  mkTables (f (t_status t)) (t_vo t) (t_inbox t) (t_journal1 t) (t_journal2 t)
    (t_notifications t) (t_completion_cmds t) (t_events t) (t_timers t) (t_outbox t) (t_state t)
    (t_promises t) (t_vqmeta t) (t_vqactive t) (t_vqinbox t) (t_vqentry t) (t_vqinput t)
    (t_locks t) (t_inbox_seq t) (t_outbox_tail t).
Definition upd_vo f (t : Tables O) : Tables O :=
  mkTables (t_status t) (f (t_vo t)) (t_inbox t) (t_journal1 t) (t_journal2 t)
    (t_notifications t) (t_completion_cmds t) (t_events t) (t_timers t) (t_outbox t) (t_state t)
    (t_promises t) (t_vqmeta t) (t_vqactive t) (t_vqinbox t) (t_vqentry t) (t_vqinput t)
    (t_locks t) (t_inbox_seq t) (t_outbox_tail t).
Definition upd_inbox f (t : Tables O) : Tables O :=
  mkTables (t_status t) (t_vo t) (f (t_inbox t)) (t_journal1 t) (t_journal2 t)
    (t_notifications t) (t_completion_cmds t) (t_events t) (t_timers t) (t_outbox t) (t_state t)
    (t_promises t) (t_vqmeta t) (t_vqactive t) (t_vqinbox t) (t_vqentry t) (t_vqinput t)
    (t_locks t) (t_inbox_seq t) (t_outbox_tail t).
Definition upd_journal1 f (t : Tables O) : Tables O :=
  mkTables (t_status t) (t_vo t) (t_inbox t) (f (t_journal1 t)) (t_journal2 t)
    (t_notifications t) (t_completion_cmds t) (t_events t) (t_timers t) (t_outbox t) (t_state t)
    (t_promises t) (t_vqmeta t) (t_vqactive t) (t_vqinbox t) (t_vqentry t) (t_vqinput t)
    (t_locks t) (t_inbox_seq t) (t_outbox_tail t).
Definition upd_journal2 f (t : Tables O) : Tables O :=
  mkTables (t_status t) (t_vo t) (t_inbox t) (t_journal1 t) (f (t_journal2 t))
    (t_notifications t) (t_completion_cmds t) (t_events t) (t_timers t) (t_outbox t) (t_state t)
    (t_promises t) (t_vqmeta t) (t_vqactive t) (t_vqinbox t) (t_vqentry t) (t_vqinput t)
    (t_locks t) (t_inbox_seq t) (t_outbox_tail t).
Definition upd_notifications f (t : Tables O) : Tables O :=
  mkTables (t_status t) (t_vo t) (t_inbox t) (t_journal1 t) (t_journal2 t)
    (f (t_notifications t)) (t_completion_cmds t) (t_events t) (t_timers t) (t_outbox t)
    (t_state t) (t_promises t) (t_vqmeta t) (t_vqactive t) (t_vqinbox t) (t_vqentry t)
    (t_vqinput t) (t_locks t) (t_inbox_seq t) (t_outbox_tail t).
Definition upd_completion_cmds f (t : Tables O) : Tables O :=
  mkTables (t_status t) (t_vo t) (t_inbox t) (t_journal1 t) (t_journal2 t) (t_notifications t)
    (f (t_completion_cmds t)) (t_events t) (t_timers t) (t_outbox t) (t_state t) (t_promises t)
    (t_vqmeta t) (t_vqactive t) (t_vqinbox t) (t_vqentry t) (t_vqinput t) (t_locks t)
    (t_inbox_seq t) (t_outbox_tail t).
Definition upd_events f (t : Tables O) : Tables O :=
  mkTables (t_status t) (t_vo t) (t_inbox t) (t_journal1 t) (t_journal2 t) (t_notifications t)
    (t_completion_cmds t) (f (t_events t)) (t_timers t) (t_outbox t) (t_state t) (t_promises t)
    (t_vqmeta t) (t_vqactive t) (t_vqinbox t) (t_vqentry t) (t_vqinput t) (t_locks t)
    (t_inbox_seq t) (t_outbox_tail t).
Definition upd_timers f (t : Tables O) : Tables O :=
  mkTables (t_status t) (t_vo t) (t_inbox t) (t_journal1 t) (t_journal2 t) (t_notifications t)
    (t_completion_cmds t) (t_events t) (f (t_timers t)) (t_outbox t) (t_state t) (t_promises t)
    (t_vqmeta t) (t_vqactive t) (t_vqinbox t) (t_vqentry t) (t_vqinput t) (t_locks t)
    (t_inbox_seq t) (t_outbox_tail t).
Definition upd_outbox f (t : Tables O) : Tables O :=
  mkTables (t_status t) (t_vo t) (t_inbox t) (t_journal1 t) (t_journal2 t) (t_notifications t)
    (t_completion_cmds t) (t_events t) (t_timers t) (f (t_outbox t)) (t_state t) (t_promises t)
    (t_vqmeta t) (t_vqactive t) (t_vqinbox t) (t_vqentry t) (t_vqinput t) (t_locks t)
    (t_inbox_seq t) (t_outbox_tail t).
Definition upd_state f (t : Tables O) : Tables O :=
  mkTables (t_status t) (t_vo t) (t_inbox t) (t_journal1 t) (t_journal2 t) (t_notifications t)
    (t_completion_cmds t) (t_events t) (t_timers t) (t_outbox t) (f (t_state t)) (t_promises t)
    (t_vqmeta t) (t_vqactive t) (t_vqinbox t) (t_vqentry t) (t_vqinput t) (t_locks t)
    (t_inbox_seq t) (t_outbox_tail t).
Definition upd_promises f (t : Tables O) : Tables O :=
  mkTables (t_status t) (t_vo t) (t_inbox t) (t_journal1 t) (t_journal2 t) (t_notifications t)
    (t_completion_cmds t) (t_events t) (t_timers t) (t_outbox t) (t_state t) (f (t_promises t))
    (t_vqmeta t) (t_vqactive t) (t_vqinbox t) (t_vqentry t) (t_vqinput t) (t_locks t)
    (t_inbox_seq t) (t_outbox_tail t).
Definition upd_vqmeta f (t : Tables O) : Tables O :=
  mkTables (t_status t) (t_vo t) (t_inbox t) (t_journal1 t) (t_journal2 t) (t_notifications t)
    (t_completion_cmds t) (t_events t) (t_timers t) (t_outbox t) (t_state t) (t_promises t)
    (f (t_vqmeta t)) (t_vqactive t) (t_vqinbox t) (t_vqentry t) (t_vqinput t) (t_locks t)
    (t_inbox_seq t) (t_outbox_tail t).
Definition upd_vqactive f (t : Tables O) : Tables O :=
  mkTables (t_status t) (t_vo t) (t_inbox t) (t_journal1 t) (t_journal2 t) (t_notifications t)
    (t_completion_cmds t) (t_events t) (t_timers t) (t_outbox t) (t_state t) (t_promises t)
    (t_vqmeta t) (f (t_vqactive t)) (t_vqinbox t) (t_vqentry t) (t_vqinput t) (t_locks t)
    (t_inbox_seq t) (t_outbox_tail t).
Definition upd_vqinbox f (t : Tables O) : Tables O :=
  mkTables (t_status t) (t_vo t) (t_inbox t) (t_journal1 t) (t_journal2 t) (t_notifications t)
    (t_completion_cmds t) (t_events t) (t_timers t) (t_outbox t) (t_state t) (t_promises t)
    (t_vqmeta t) (t_vqactive t) (f (t_vqinbox t)) (t_vqentry t) (t_vqinput t) (t_locks t)
    (t_inbox_seq t) (t_outbox_tail t).
Definition upd_vqentry f (t : Tables O) : Tables O :=
  mkTables (t_status t) (t_vo t) (t_inbox t) (t_journal1 t) (t_journal2 t) (t_notifications t)
    (t_completion_cmds t) (t_events t) (t_timers t) (t_outbox t) (t_state t) (t_promises t)
    (t_vqmeta t) (t_vqactive t) (t_vqinbox t) (f (t_vqentry t)) (t_vqinput t) (t_locks t)
    (t_inbox_seq t) (t_outbox_tail t).
Definition upd_vqinput f (t : Tables O) : Tables O :=
  mkTables (t_status t) (t_vo t) (t_inbox t) (t_journal1 t) (t_journal2 t) (t_notifications t)
    (t_completion_cmds t) (t_events t) (t_timers t) (t_outbox t) (t_state t) (t_promises t)
    (t_vqmeta t) (t_vqactive t) (t_vqinbox t) (t_vqentry t) (f (t_vqinput t)) (t_locks t)
    (t_inbox_seq t) (t_outbox_tail t).
Definition upd_locks f (t : Tables O) : Tables O :=
  mkTables (t_status t) (t_vo t) (t_inbox t) (t_journal1 t) (t_journal2 t) (t_notifications t)
    (t_completion_cmds t) (t_events t) (t_timers t) (t_outbox t) (t_state t) (t_promises t)
    (t_vqmeta t) (t_vqactive t) (t_vqinbox t) (t_vqentry t) (t_vqinput t) (f (t_locks t))
    (t_inbox_seq t) (t_outbox_tail t).
Definition upd_inbox_seq f (t : Tables O) : Tables O :=
  mkTables (t_status t) (t_vo t) (t_inbox t) (t_journal1 t) (t_journal2 t) (t_notifications t)
    (t_completion_cmds t) (t_events t) (t_timers t) (t_outbox t) (t_state t) (t_promises t)
    (t_vqmeta t) (t_vqactive t) (t_vqinbox t) (t_vqentry t) (t_vqinput t) (t_locks t)
    (f (t_inbox_seq t)) (t_outbox_tail t).
Definition upd_outbox_tail f (t : Tables O) : Tables O :=
  mkTables (t_status t) (t_vo t) (t_inbox t) (t_journal1 t) (t_journal2 t) (t_notifications t)
    (t_completion_cmds t) (t_events t) (t_timers t) (t_outbox t) (t_state t) (t_promises t)
    (t_vqmeta t) (t_vqactive t) (t_vqinbox t) (t_vqentry t) (t_vqinput t) (t_locks t)
    (t_inbox_seq t) (f (t_outbox_tail t)).
End updates.

(** ** Operations

    One function per method of the table traits.  [assert_partition_key], which
    rejects keys outside the key range of the partition, is not modelled. *)

(** The orders of scans. *)
Definition index_le {V} (a b : Z * V) : Prop := a.1 ≤ b.1.
#[export] Instance index_le_dec {V} : RelDecision (@index_le V).
Proof. intros a b. unfold index_le. apply _. Defined.
Definition bytes_key_le {V} (a b : string * V) : Prop := String.leb a.1 b.1 = true.
#[export] Instance bytes_key_le_dec {V} : RelDecision (@bytes_key_le V).
Proof. intros a b. unfold bytes_key_le. apply _. Defined.

Section tables.
Context {O : Type}.
Implicit Types (t : Tables O) (id : InvocationId) (sid : ServiceId).

(** *** Invocation status, object status, inbox *)

Definition get_invocation_status id t : InvocationStatus := default Free (t_status t !! id).
Definition put_invocation_status id (s : InvocationStatus) t : Tables O :=
  match s with
  | Free => upd_status (delete id) t
  | _ => upd_status <[ id := s ]> t
  end.
Definition delete_invocation_status id t : Tables O := upd_status (delete id) t.

(** [None] is [Unlocked], [Some id] is [Locked id]. *)
Definition get_virtual_object_status sid t : option InvocationId := t_vo t !! vo_key sid.
Definition put_virtual_object_status sid (s : option InvocationId) t : Tables O :=
  match s with
  | None => upd_vo (delete (vo_key sid)) t
  | Some id => upd_vo <[ vo_key sid := id ]> t
  end.
Definition delete_virtual_object_status sid t : Tables O := upd_vo (delete (vo_key sid)) t.

Definition put_inbox_entry (seq : Z) (e : InboxEntry) t : Tables O :=
  upd_inbox <[ (vo_key (inbox_service_id e), seq) := e ]> t.
Definition delete_inbox_entry sid (seq : Z) t : Tables O :=
  upd_inbox (delete (vo_key sid, seq)) t.

(** The rows of one service, and the one with the smallest sequence number
    (the first of the prefix scan). *)
Definition inbox_of sid t : list (Z * InboxEntry) :=
  omap (λ '((k, seq), e), if decide (k = vo_key sid) then Some (seq, e) else None)
    (map_to_list (t_inbox t)).
Definition min_seq (a b : Z * InboxEntry) : Z * InboxEntry := if a.1 <=? b.1 then a else b.
Definition peek_inbox sid t : option (Z * InboxEntry) :=
  match inbox_of sid t with
  | [] => None
  | x :: l => Some (foldl min_seq x l)
  end.
Definition pop_inbox sid t : Tables O * option (Z * InboxEntry) :=
  match peek_inbox sid t with
  | Some (seq, e) => (delete_inbox_entry sid seq t, Some (seq, e))
  | None => (t, None)
  end.

(** *** Journals *)

Definition put_journal_entry_v1 id (index : Z) (e : JournalEntry) t : Tables O :=
  upd_journal1 <[ (id, index) := e ]> t.
Definition get_journal_entry_v1 id (index : Z) t : option JournalEntry :=
  t_journal1 t !! (id, index).
Definition indices (length : Z) : list Z := seqZ 0 length.
Definition delete_journal_v1 id (length : Z) t : Tables O :=
  upd_journal1 (λ m, foldr (λ i, delete (id, i)) m (indices length)) t.

(** [put_journal_entry]: notifications and completions are indexed. *)
Definition put_journal_entry_v2 id (index : Z) (e : StoredRawEntry)
    (related_completion_ids : list Z) t : Tables O :=
  upd_journal2 <[ (id, index) := e ]>
    (match se_inner e with
     | RawEntryNotification n =>
         upd_notifications <[ (id, rn_id n) := (index, rn_result_variant n) ]> t
     | RawEntryCommand _ =>
         upd_completion_cmds
           (λ m, foldl (λ m c, <[ (id, c) := index ]> m) m related_completion_ids) t
     end).
Definition get_journal_entry_v2 id (index : Z) t : option StoredRawEntry :=
  t_journal2 t !! (id, index).

(** [get_journal]: the first [length] entries in the order of their index. *)
Definition journal_rows {V} (m : gmap (InvocationId * Z) V) id : list (Z * V) :=
  merge_sort index_le
    (omap (λ '((i, n), e), if decide (i = id) then Some (n, e) else None) (map_to_list m)).
Definition get_journal_v2 id (length : Z) t : list (Z * StoredRawEntry) :=
  take (Z.to_nat length) (journal_rows (t_journal2 t) id).
Definition get_journal_v1 id (length : Z) t : list (Z * JournalEntry) :=
  take (Z.to_nat length) (journal_rows (t_journal1 t) id).

Definition delete_journal_v2 id (length : Z) t : Tables O :=
  upd_completion_cmds (filter (λ kv, kv.1.1 ≠ id))
    (upd_notifications (filter (λ kv, kv.1.1 ≠ id))
      (upd_journal2 (λ m, foldr (λ i, delete (id, i)) m (indices length)) t)).

Definition get_notifications_index id t
    : gmap NotificationId (Z * RawNotificationResultVariant) :=
  list_to_map (omap (λ '((i, n), v), if decide (i = id) then Some (n, v) else None)
                 (map_to_list (t_notifications t))).

(** [Err] when the indexed entry is not a command. *)
Definition get_command_by_completion_id {E} (conversion : E) id (c : Z) t
    : res E (option (Z * RawCommand)) :=
  match t_completion_cmds t !! (id, c) with
  | None => Ok None
  | Some index =>
      match t_journal2 t !! (id, index) with
      | None => Ok None
      | Some e =>
          match se_inner e with
          | RawEntryCommand cmd => Ok (Some (se_append_time e, cmd))
          | RawEntryNotification _ => Err conversion
          end
      end
  end.

Definition has_completion id (c : Z) t : bool :=
  bool_decide (is_Some (t_notifications t !! (id, NCompletionId c))).

(** The key of an event has its type, time and log position. *)
Definition put_journal_event id (e : EventView) (lsn : Z) t : Tables O :=
  upd_events <[ (id, (event_type (evv_event e), evv_append_time e, lsn)) := e ]> t.
Definition delete_journal_events id t : Tables O :=
  upd_events (filter (λ kv, kv.1.1 ≠ id)) t.

(** *** Timers, outbox, state, promises, locks *)

Definition put_timer (k : TimerKey) (v : Timer) t : Tables O := upd_timers <[ k := v ]> t.
Definition delete_timer (k : TimerKey) t : Tables O := upd_timers (delete k) t.

Definition put_outbox_message (index : Z) (m : O) t : Tables O := upd_outbox <[ index := m ]> t.
Definition truncate_outbox (first last_ : Z) t : Tables O :=
  upd_outbox (λ m, foldr delete m (seqZ first (last_ - first + 1))) t.

Definition put_user_state sid (k v : string) t : Tables O := upd_state <[ (sid, k) := v ]> t.
Definition get_user_state sid (k : string) t : option string := t_state t !! (sid, k).
Definition delete_user_state sid (k : string) t : Tables O := upd_state (delete (sid, k)) t.
Definition delete_all_user_state sid t : Tables O :=
  upd_state (filter (λ kv, kv.1.1 ≠ sid)) t.

(** The state of a service in the order of its keys. *)
Definition get_all_user_states sid t : list (string * string) :=
  merge_sort bytes_key_le
    (omap (λ '((s, k), v), if decide (s = sid) then Some (k, v) else None)
       (map_to_list (t_state t))).

Definition get_promise sid (k : string) t : option PromiseState := t_promises t !! (sid, k).
Definition put_promise sid (k : string) (p : PromiseState) t : Tables O :=
  upd_promises <[ (sid, k) := p ]> t.
Definition delete_all_promises sid t : Tables O :=
  upd_promises (filter (λ kv, kv.1.1 ≠ sid)) t.

Definition acquire_lock (scope : option string) (l : LockName) (s : LockState) t : Tables O :=
  upd_locks <[ (scope, l) := s ]> t.
Definition release_lock (scope : option string) (l : LockName) t : Tables O :=
  upd_locks (delete (scope, l)) t.
End tables.
