(* ===== verification/VQueueCache.v ===== *)
(** * The cache of queue metadata

    [vqueues/src/cache.rs]: the slots of the queues that are in memory, the
    lookup by queue id, the purged slots that wait for the end of the batch,
    and the intrusive doubly-linked list of the inactive slots, from which
    compaction evicts the oldest ones.

    The slot map is the [slotmap] package: the key of a new slot is the
    parameter [slot_key] of the class [SlotKeys]; what the package documents and
    the cache relies on, that the key is not in use, is [SlotKeysLaws].

    The invariant [cache_inv] relates the links to the list of handles they
    stand for; the theorems show that each operation acts on that list as the
    operation of a queue (append, remove, evict the oldest). *)

From S2P Require Import Prelude Clock Invocation VQueueMeta.

Definition VQueueHandle := positive.

Class SlotKeys := slot_key : gset VQueueHandle → VQueueHandle.

Class SlotKeysLaws `{!SlotKeys} : Prop :=
  slot_key_fresh : ∀ used, slot_key used ∉ used.

Record InactiveLinks := { il_prev : option VQueueHandle; il_next : option VQueueHandle }.

Record Slot := {
  sl_qid : VQueueId; sl_meta : VQueueMeta; sl_inactive : option InactiveLinks }.

Definition sl_with_meta (m : VQueueMeta) (s : Slot) : Slot :=
  {| sl_qid := sl_qid s; sl_meta := m; sl_inactive := sl_inactive s |}.
Definition sl_with_inactive (l : option InactiveLinks) (s : Slot) : Slot :=
  {| sl_qid := sl_qid s; sl_meta := sl_meta s; sl_inactive := l |}.

Record VQueuesMetaCache := mkCache {
  queues : gmap VQueueId VQueueHandle;
  slab : gmap VQueueHandle Slot;
  pending_purges : list VQueueHandle;
  target_capacity : nat;
  inactive_head : option VQueueHandle;
  inactive_tail : option VQueueHandle }.

Definition set_queues f (c : VQueuesMetaCache) : VQueuesMetaCache :=
  mkCache (f (queues c)) (slab c) (pending_purges c) (target_capacity c)
    (inactive_head c) (inactive_tail c).
Definition set_slab f (c : VQueuesMetaCache) : VQueuesMetaCache :=
  mkCache (queues c) (f (slab c)) (pending_purges c) (target_capacity c)
    (inactive_head c) (inactive_tail c).
Definition set_pending f (c : VQueuesMetaCache) : VQueuesMetaCache :=
  mkCache (queues c) (slab c) (f (pending_purges c)) (target_capacity c)
    (inactive_head c) (inactive_tail c).
Definition set_head h (c : VQueuesMetaCache) : VQueuesMetaCache :=
  mkCache (queues c) (slab c) (pending_purges c) (target_capacity c) h (inactive_tail c).
Definition set_tail h (c : VQueuesMetaCache) : VQueuesMetaCache :=
  mkCache (queues c) (slab c) (pending_purges c) (target_capacity c) (inactive_head c) h.

(** [new_empty]. *)
Definition new_empty (capacity : nat) : VQueuesMetaCache := mkCache ∅ ∅ [] capacity None None.

(** ** The view *)

Definition handle_for (c : VQueuesMetaCache) (qid : VQueueId) : option VQueueHandle :=
  queues c !! qid.

Definition get_vqueue_cached (c : VQueuesMetaCache) (qid : VQueueId) : option VQueueMeta :=
  let! h := queues c !! qid in
  sl_meta <$> slab c !! h.

Definition num_active (c : VQueuesMetaCache) : nat :=
  size (filter (λ hs : VQueueHandle * Slot, vm_is_active (sl_meta hs.2) = true) (slab c)).

(** ** Operations *)

Section operations.
Context {E : Type}.
Abbreviation cm := (sm VQueuesMetaCache E).

(** [debug_assert!(c)], which is checked. *)
Definition dbg_assert (c : bool) : cm unit := if c then sm_ret tt else sm_lift Panic.

(** [self.slab.get_mut(h).expect(..)], [self.slab[h]]. *)
Definition slot_of (h : VQueueHandle) : cm Slot := λ c, (c, expect (slab c !! h)).

(** [self.slab[h].inactive.as_mut().unwrap()] with the assignment to do. *)
Definition update_links (h : VQueueHandle) (f : InactiveLinks → InactiveLinks) : cm unit :=
  let* s := slot_of h in
  let* l := sm_lift (expect (sl_inactive s)) in
  sm_modify (set_slab <[ h := sl_with_inactive (Some (f l)) s ]>).

Definition link_inactive (h : VQueueHandle) : cm unit :=
  let* s := slot_of h in
  dbg_assert (negb (vm_is_active (sl_meta s))) ;;
  dbg_assert (bool_decide (sl_inactive s = None)) ;;
  let* tail := sm_gets inactive_tail in
  sm_modify (set_slab
    <[ h := sl_with_inactive (Some {| il_prev := tail; il_next := None |}) s ]>) ;;
  match tail with
  | Some t => update_links t (λ l, {| il_prev := il_prev l; il_next := Some h |})
  | None => sm_modify (set_head (Some h))
  end ;;
  sm_modify (set_tail (Some h)).

Definition unlink_inactive (h : VQueueHandle) : cm unit :=
  let* s := slot_of h in
  match sl_inactive s with
  | None => sm_ret tt
  | Some links =>
      sm_modify (set_slab <[ h := sl_with_inactive None s ]>) ;;
      match il_prev links with
      | Some p => update_links p (λ l, {| il_prev := il_prev l; il_next := il_next links |})
      | None => sm_modify (set_head (il_next links))
      end ;;
      match il_next links with
      | Some n => update_links n (λ l, {| il_prev := il_prev links; il_next := il_next l |})
      | None => sm_modify (set_tail (il_prev links))
      end
  end.

(** [update_meta] without the closure's own effects: the new metadata is
    stored and the list follows the change of activity. *)
Definition set_meta (h : VQueueHandle) (m : VQueueMeta) : cm unit :=
  let* s := slot_of h in
  let was_active := vm_is_active (sl_meta s) in
  sm_modify (set_slab <[ h := sl_with_meta m s ]>) ;;
  if eqb was_active (vm_is_active m) then sm_ret tt
  else if vm_is_active m then unlink_inactive h else link_inactive h.

(** [self.queues.remove(qid)]. *)
Definition remove_queue (qid : VQueueId) : cm (option VQueueHandle) :=
  let* removed := sm_gets (λ c, queues c !! qid) in
  sm_modify (set_queues (delete qid)) ;;
  sm_ret removed.

Definition defer_purge (h : VQueueHandle) : cm unit :=
  unlink_inactive h ;;
  let* s := slot_of h in
  let* removed := remove_queue (sl_qid s) in
  dbg_assert (bool_decide (removed = Some h)) ;;
  sm_modify (set_pending (λ l, l ++ [h])).

(** Compaction, first loop: [pending_purges.drain(..)]. *)
Fixpoint drain_purges (can_evict : VQueueHandle → bool) (l : list VQueueHandle) (evicted : nat)
    : cm nat :=
  match l with
  | [] => sm_ret evicted
  | h :: l' =>
      dbg_assert (can_evict h) ;;
      let* present := sm_gets (λ c, bool_decide (is_Some (slab c !! h))) in
      sm_modify (set_slab (delete h)) ;;
      drain_purges can_evict l' (if present then S evicted else evicted)
  end.

(** An eviction: the slot leaves the list, the slots and the lookup by id. *)
Definition evict_slot (h : VQueueHandle) : cm unit :=
  unlink_inactive h ;;
  let* s := slot_of h in
  sm_modify (set_slab (delete h)) ;;
  dbg_assert (negb (vm_is_active (sl_meta s))) ;;
  let* removed := remove_queue (sl_qid s) in
  dbg_assert (bool_decide (removed = Some h)).

(** Compaction, second loop.  Every iteration moves the cursor along the
    list of inactive slots, so the number of slots is enough fuel. *)
Fixpoint evict_loop (fuel : nat) (can_evict : VQueueHandle → bool)
    (cursor : option VQueueHandle) (evicted : nat) : cm nat :=
  let* len := sm_gets (λ c, size (slab c)) in
  let* cap := sm_gets target_capacity in
  if decide (len ≤ cap)%nat then sm_ret evicted
  else match fuel, cursor with
  | _, None => sm_ret evicted
  | O, _ => sm_lift Panic
  | S fuel', Some h =>
      let* s := slot_of h in
      let* links := sm_lift (expect (sl_inactive s)) in
      if can_evict h then
        evict_slot h ;;
        evict_loop fuel' can_evict (il_next links) (S evicted)
      else evict_loop fuel' can_evict (il_next links) evicted
  end.

Definition try_compact (can_evict : VQueueHandle → bool) : cm nat :=
  let* purged := sm_gets pending_purges in
  sm_modify (set_pending (λ _, [])) ;;
  let* evicted := drain_purges can_evict purged 0 in
  let* fuel := sm_gets (λ c, size (slab c)) in
  let* head := sm_gets inactive_head in
  evict_loop fuel can_evict head evicted.

(** [insert]. *)
Definition cache_insert `{!SlotKeys} (qid : VQueueId) (meta : VQueueMeta) : cm VQueueHandle :=
  let* h := sm_gets (λ c, slot_key (dom (slab c))) in
  sm_modify (set_slab <[ h := {| sl_qid := qid; sl_meta := meta; sl_inactive := None |} ]>) ;;
  sm_modify (set_queues <[ qid := h ]>) ;;
  (if vm_is_active meta then sm_ret tt else link_inactive h) ;;
  sm_ret h.
End operations.

(** [create]: the cache of the active queues of the store, in the order of the
    scan; all of them are active, so nothing is linked. *)
Definition cache_create `{!SlotKeys} (capacity : nat) (active : list (VQueueId * VQueueMeta))
    : VQueuesMetaCache :=
  foldl (λ c '(qid, meta),
           let h := slot_key (dom (slab c)) in
           set_queues <[ qid := h ]>
             (set_slab <[ h := {| sl_qid := qid; sl_meta := meta; sl_inactive := None |} ]> c))
    (new_empty capacity) active.

(** ** Linked segments *)

Definition hd_or {A} (d : option A) (l : list A) : option A :=
  match l with [] => d | x :: _ => Some x end.
Definition last_or {A} (d : option A) (l : list A) : option A :=
  match last l with Some x => Some x | None => d end.

Lemma last_or_snoc {A} (d : option A) l x : last_or d (l ++ [x]) = Some x.
Proof. unfold last_or. by rewrite last_snoc. Qed.
Lemma last_or_cons {A} (d : option A) l x : last_or d (x :: l) = last_or (Some x) l.
Proof. unfold last_or. rewrite last_cons. by destruct (last l). Qed.
Lemma hd_or_app {A} (d : option A) l k : hd_or d (l ++ k) = hd_or (hd_or d k) l.
Proof. by destruct l. Qed.
Lemma last_or_app {A} (d : option A) l k : last_or d (l ++ k) = last_or (last_or d l) k.
Proof.
  destruct k as [|x k] using rev_ind; [by rewrite app_nil_r|].
  by rewrite (assoc_L app), !last_or_snoc.
Qed.

(** The slots [l] are linked in order, with [prev] before and [next] after. *)
Fixpoint dll (s : gmap VQueueHandle Slot) (prev : option VQueueHandle) (l : list VQueueHandle)
    (next : option VQueueHandle) : Prop :=
  match l with
  | [] => True
  | h :: l' =>
      (∃ sl, s !! h = Some sl ∧
             sl_inactive sl = Some {| il_prev := prev; il_next := hd_or next l' |})
      ∧ dll s (Some h) l' next
  end.

Lemma dll_app s p l k n :
  dll s p (l ++ k) n ↔ dll s p l (hd_or n k) ∧ dll s (last_or p l) k n.
Proof.
  revert p. induction l as [|h l IH]; intros p; simpl; [tauto|].
  rewrite IH, hd_or_app, last_or_cons. tauto.
Qed.

Lemma dll_frame s s' p l n :
  (∀ h, h ∈ l → s' !! h = s !! h) → dll s p l n → dll s' p l n.
Proof.
  revert p. induction l as [|h l IH]; intros p Hs; simpl; [done|].
  intros [(sl & Hsl & Hl) Hd]. split.
  - exists sl. rewrite Hs by set_solver. done.
  - apply IH; [set_solver|done].
Qed.

Lemma dll_lookup s p l n h : dll s p l n → h ∈ l → ∃ sl, s !! h = Some sl ∧ is_Some (sl_inactive sl).
Proof.
  revert p. induction l as [|x l IH]; intros p; simpl; [set_solver|].
  intros [(sl & Hsl & Hl) Hd] [->|Hin]%elem_of_cons; [|eauto].
  exists sl. rewrite Hl. eauto.
Qed.

(** Redirecting the outgoing links at the two ends of a segment. *)
Lemma dll_set_next s p l t n n' :
  NoDup (l ++ [t]) → dll s p (l ++ [t]) n →
  ∃ sl lk, s !! t = Some sl ∧ sl_inactive sl = Some lk ∧
    dll (<[ t := sl_with_inactive (Some {| il_prev := il_prev lk; il_next := n' |}) sl ]> s)
        p (l ++ [t]) n'.
Proof.
  intros (Hnd & Hd & _)%NoDup_app. rewrite dll_app. simpl. intros (Hl & (sl & Hsl & Hlk) & _).
  exists sl, {| il_prev := last_or p l; il_next := n |}. split_and!; [done..|].
  apply dll_app. simpl. split.
  - apply (dll_frame s); [|done]. intros h Hh. apply lookup_insert_ne. set_solver.
  - split; [|done]. eexists. rewrite lookup_insert_eq. done.
Qed.

Lemma dll_set_prev s p p' h l n :
  h ∉ l → dll s p (h :: l) n →
  ∃ sl lk, s !! h = Some sl ∧ sl_inactive sl = Some lk ∧
    dll (<[ h := sl_with_inactive (Some {| il_prev := p'; il_next := il_next lk |}) sl ]> s)
        p' (h :: l) n.
Proof.
  simpl. intros Hn [(sl & Hsl & Hlk) Hd].
  eexists sl, _. split_and!; [done..| |].
  - eexists. by rewrite lookup_insert_eq.
  - apply (dll_frame s); [|done]. intros k Hk. apply lookup_insert_ne. set_solver.
Qed.

(** ** The invariant *)

(** What a slot says about its queue. *)
Definition slot_core (s : Slot) : VQueueId * VQueueMeta := (sl_qid s, sl_meta s).
Definition core (c : VQueuesMetaCache) : gmap VQueueHandle (VQueueId * VQueueMeta) :=
  slot_core <$> slab c.

(** The links stand for the list [l]. *)
Record links_inv (c : VQueuesMetaCache) (l : list VQueueHandle) : Prop := {
  li_nodup : NoDup l;
  li_head : inactive_head c = hd_or None l;
  li_tail : inactive_tail c = last_or None l;
  li_dll : dll (slab c) None l None;
  li_linked : ∀ h s, slab c !! h = Some s → is_Some (sl_inactive s) → h ∈ l }.

Record cache_inv (c : VQueuesMetaCache) (l : list VQueueHandle) : Prop := {
  ci_links : links_inv c l;
  (** exactly the inactive slots that are not purged are in the list *)
  ci_inactive : ∀ h q m, core c !! h = Some (q, m) →
    (h ∈ l ↔ vm_is_active m = false ∧ h ∉ pending_purges c);
  (** the lookup by id is exact *)
  ci_queues : ∀ q h, queues c !! q = Some h ↔
    (∃ m, core c !! h = Some (q, m)) ∧ h ∉ pending_purges c;
  ci_pending : ∀ h, h ∈ pending_purges c → is_Some (core c !! h);
  ci_pending_nodup : NoDup (pending_purges c) }.

(** Only links differ. *)
Record same_core (c c' : VQueuesMetaCache) : Prop := {
  sc_core : core c' = core c;
  sc_queues : queues c' = queues c;
  sc_pending : pending_purges c' = pending_purges c;
  sc_capacity : target_capacity c' = target_capacity c }.

Lemma lookup_core c h : core c !! h = slot_core <$> slab c !! h.
Proof. apply lookup_fmap. Qed.

Lemma core_insert_links c h s lk :
  slab c !! h = Some s → slot_core <$> <[ h := sl_with_inactive lk s ]> (slab c) = core c.
Proof.
  intros Hs. unfold core. rewrite fmap_insert. apply insert_id. by rewrite lookup_fmap, Hs.
Qed.

Lemma links_in_slab c l h : links_inv c l → h ∈ l → is_Some (slab c !! h).
Proof. intros Hl Hh. destruct (dll_lookup _ _ _ _ _ (li_dll _ _ Hl) Hh) as (sl & -> & _). eauto. Qed.

Lemma unlinked_not_in c l h s :
  links_inv c l → slab c !! h = Some s → sl_inactive s = None → h ∉ l.
Proof.
  intros Hl Hs Hn Hh. destruct (dll_lookup _ _ _ _ _ (li_dll _ _ Hl) Hh) as (sl & Hsl & Hi).
  rewrite Hs in Hsl. simplify_eq. rewrite Hn in Hi. by destruct Hi.
Qed.

(** Appending to the list. *)
Lemma link_inactive_ok {E} c l h s :
  links_inv c l → slab c !! h = Some s → h ∉ l → vm_is_active (sl_meta s) = false →
  ∃ c', link_inactive (E := E) h c = (c', Ok tt) ∧ links_inv c' (l ++ [h]) ∧ same_core c c'.
Proof.
  intros Hl Hs Hh Ha. pose proof (li_nodup _ _ Hl) as Hnd. pose proof (li_dll _ _ Hl) as Hd.
  assert (sl_inactive s = None) as Hun.
  { destruct (sl_inactive s) eqn:Hi; [|done]. exfalso. apply Hh. eapply li_linked; eauto. }
  pose proof (li_tail _ _ Hl) as Ht. pose proof (li_head _ _ Hl) as Hhd.
  assert (NoDup (l ++ [h])) as Hnd' by (apply NoDup_app; set_solver by auto using NoDup_singleton).
  unfold link_inactive, slot_of, sm_bind. rewrite Hs. simpl.
  rewrite Ha, bool_decide_true by done. simpl. rewrite Ht.
  destruct l as [|t l _] using rev_ind.
  - eexists. split; [done|]. split.
    + constructor; simpl; [done..| |].
      * split; [|done]. eexists. by rewrite lookup_insert_eq.
      * intros k sk. destruct (decide (k = h)) as [->|Hk]; [set_solver|].
        rewrite lookup_insert_ne by done. intros Hsk Hi. exfalso.
        pose proof (li_linked _ _ Hl k sk Hsk Hi). set_solver.
    + constructor; simpl; try done. by apply core_insert_links.
  - rewrite last_or_snoc. unfold update_links, slot_of, sm_bind. simpl.
    set (s1 := <[h := _]> (slab c)).
    assert (dll s1 None (l ++ [t]) None) as Hd1.
    { apply (dll_frame (slab c)); [|done]. intros k Hk. apply lookup_insert_ne. set_solver. }
    destruct (dll_set_next s1 None l t None (Some h) Hnd Hd1) as (st & lk & Hst & Hlk & Hd2).
    rewrite Hst. simpl. rewrite Hlk. simpl.
    assert (t ≠ h) by set_solver.
    assert (slab c !! t = Some st) as Hst' by (unfold s1 in Hst; by rewrite lookup_insert_ne in Hst).
    eexists. split; [done|]. split.
    + constructor; simpl.
      * done.
      * by rewrite Hhd, hd_or_app, <- hd_or_app; destruct l.
      * by rewrite last_or_snoc.
      * apply dll_app. split; [exact Hd2|]. simpl. rewrite last_or_snoc. split; [|done].
        eexists. rewrite lookup_insert_ne by done. unfold s1. by rewrite lookup_insert_eq.
      * intros k sk. destruct (decide (k = t)) as [->|Hkt]; [set_solver|].
        rewrite lookup_insert_ne by done. unfold s1.
        destruct (decide (k = h)) as [->|Hkh]; [set_solver|].
        rewrite lookup_insert_ne by done. intros Hsk Hi.
        pose proof (li_linked _ _ Hl k sk Hsk Hi). set_solver.
    + constructor; simpl; try done. unfold core. simpl. rewrite fmap_insert, insert_id.
      * by apply core_insert_links.
      * unfold s1. by rewrite lookup_fmap, lookup_insert_ne, Hst' by done.
Qed.

(** A slot of the list splits it in two. *)
Lemma links_split c l h :
  links_inv c l → h ∈ l →
  ∃ l1 l2 s, l = l1 ++ h :: l2 ∧ (h ∉ l1) ∧ (h ∉ l2) ∧ slab c !! h = Some s ∧
    sl_inactive s = Some {| il_prev := last_or None l1; il_next := hd_or None l2 |} ∧
    dll (slab c) None l1 (Some h) ∧ dll (slab c) (Some h) l2 None.
Proof.
  intros Hl (l1 & l2 & ->)%list_elem_of_split.
  pose proof (li_nodup _ _ Hl) as (Hn1 & Hd & Hn2)%NoDup_app. apply NoDup_cons in Hn2 as [Hn2 _].
  pose proof (li_dll _ _ Hl) as (H1 & (s & Hs & Hi) & H2)%dll_app. simpl in *.
  exists l1, l2, s. split_and!; try done. set_solver.
Qed.

(** The list without one element. *)
Definition remove_handle (h : VQueueHandle) (l : list VQueueHandle) : list VQueueHandle :=
  filter (λ k, k ≠ h) l.

Lemma elem_of_remove_handle h k l : k ∈ remove_handle h l ↔ k ≠ h ∧ k ∈ l.
Proof. unfold remove_handle. rewrite list_elem_of_filter. tauto. Qed.
Lemma remove_absent h (l : list VQueueHandle) : h ∉ l → remove_handle h l = l.
Proof.
  unfold remove_handle. induction l as [|x l IH]; intros Hh; [done|].
  rewrite filter_cons_True by set_solver. f_equal. apply IH. set_solver.
Qed.
Lemma remove_middle h l1 l2 : h ∉ l1 → h ∉ l2 → remove_handle h (l1 ++ h :: l2) = l1 ++ l2.
Proof.
  intros H1 H2. unfold remove_handle. rewrite filter_app, filter_cons_False by tauto.
  fold (remove_handle h l1) (remove_handle h l2). by rewrite !remove_absent.
Qed.

(** The first half of [unlink_inactive]: the segment before the slot, or the
    head of the list, now points past it. *)
Lemma unlink_before {E} c l1 n :
  NoDup l1 → dll (slab c) None l1 n → ∀ n', inactive_head c = hd_or n l1 → 
  ∃ c', (match last_or None l1 with
         | Some p => update_links (E := E) p (λ l, {| il_prev := il_prev l; il_next := n' |})
         | None => sm_modify (set_head n')
         end) c = (c', Ok tt) ∧
    dll (slab c') None l1 n' ∧ inactive_head c' = hd_or n' l1 ∧
    inactive_tail c' = inactive_tail c ∧ same_core c c' ∧
    (∀ k, k ∉ l1 → slab c' !! k = slab c !! k).
Proof.
  intros Hnd Hd n' Hh. destruct l1 as [|p l1 _] using rev_ind.
  - eexists. split; [done|]. by split_and!.
  - rewrite last_or_snoc.
    destruct (dll_set_next _ _ _ _ _ n' Hnd Hd) as (sp & lk & Hsp & Hlk & Hd').
    unfold update_links, slot_of, sm_bind. rewrite Hsp. simpl. rewrite Hlk. simpl.
    eexists. split; [done|]. split_and!; simpl; try done.
    + rewrite Hh. by destruct l1.
    + constructor; try done. by apply core_insert_links.
    + intros k Hk. apply lookup_insert_ne. set_solver.
Qed.

Lemma unlink_after {E} c l2 p :
  NoDup l2 → dll (slab c) p l2 None → ∀ p', 
  ∃ c', (match hd_or None l2 with
         | Some n => update_links (E := E) n (λ l, {| il_prev := p'; il_next := il_next l |})
         | None => sm_modify (set_tail p')
         end) c = (c', Ok tt) ∧
    dll (slab c') p' l2 None ∧ inactive_head c' = inactive_head c ∧
    (inactive_tail c' = if l2 is [] then p' else inactive_tail c) ∧ same_core c c' ∧
    (∀ k, k ∉ l2 → slab c' !! k = slab c !! k).
Proof.
  intros Hnd Hd p'. destruct l2 as [|n l2]; simpl.
  - eexists. split; [done|]. by split_and!.
  - apply NoDup_cons in Hnd as [Hn _].
    destruct (dll_set_prev _ _ p' _ _ _ Hn Hd) as (sn & lk & Hsn & Hlk & Hd').
    unfold update_links, slot_of, sm_bind. rewrite Hsn. simpl. rewrite Hlk. simpl.
    eexists. split; [done|]. split_and!; simpl in *; try tauto.
    + constructor; try done. by apply core_insert_links.
    + intros k Hk. apply lookup_insert_ne. set_solver.
Qed.

Lemma same_core_refl c : same_core c c.
Proof. by constructor. Qed.

Lemma same_core_trans c1 c2 c3 : same_core c1 c2 → same_core c2 c3 → same_core c1 c3.
Proof. intros [] []. constructor; congruence. Qed.

Lemma same_core_slab c c' h s :
  same_core c c' → slab c' !! h = Some s → ∃ s0, slab c !! h = Some s0 ∧ slot_core s0 = slot_core s.
Proof.
  intros Hc Hs. pose proof (lookup_core c' h) as H1. rewrite (sc_core _ _ Hc), lookup_core, Hs in H1.
  destruct (slab c !! h) as [s0|]; simpl in H1; [|done]. exists s0. split; [done|congruence].
Qed.

Lemma same_core_slot c c' h s :
  same_core c c' → slab c !! h = Some s →
  ∃ s', slab c' !! h = Some s' ∧ sl_qid s' = sl_qid s ∧ sl_meta s' = sl_meta s.
Proof.
  intros Hc Hs. pose proof (sc_core _ _ Hc) as Hx%(f_equal (lookup h)).
  rewrite !lookup_core, Hs in Hx. destruct (slab c' !! h) as [s'|]; [|done].
  unfold slot_core in Hx. naive_solver.
Qed.

(** Removing from the list. *)
Lemma unlink_inactive_ok {E} c l h s :
  links_inv c l → slab c !! h = Some s →
  ∃ c', unlink_inactive (E := E) h c = (c', Ok tt) ∧ links_inv c' (remove_handle h l) ∧
        same_core c c'.
Proof.
  intros Hl Hs. destruct (sl_inactive s) as [lk|] eqn:Hlk; last first.
  { unfold unlink_inactive, slot_of, sm_bind. rewrite Hs. simpl. rewrite Hlk.
    rewrite remove_absent by (by eapply unlinked_not_in). eexists. split; [done|]. by split. }
  assert (h ∈ l) as Hh by (eapply li_linked; eauto).
  destruct (links_split c l h Hl Hh) as (l1 & l2 & s' & -> & H1 & H2 & Hs' & Hi & Hd1 & Hd2).
  assert (s' = s) as -> by congruence. rewrite remove_middle by done.
  pose proof (li_nodup _ _ Hl) as Hnd. apply NoDup_app in Hnd as (Hn1 & Hdis & Hn2).
  apply NoDup_cons in Hn2 as [_ Hn2].
  unfold unlink_inactive, slot_of, sm_bind. rewrite Hs. simpl. rewrite Hi. simpl.
  set (c1 := set_slab _ c).
  assert (∀ k, k ≠ h → slab c1 !! k = slab c !! k) as Hc1 by (intros; by apply lookup_insert_ne).
  destruct (unlink_before (E := E) c1 l1 (Some h) Hn1) with (n' := hd_or None l2)
    as (c2 & -> & Hd1' & Hh2 & Ht2 & Hc2 & Hf2).
  { apply (dll_frame (slab c)); [|done]. intros k Hk. apply Hc1. set_solver. }
  { simpl. rewrite (li_head _ _ Hl). by destruct l1. }
  destruct (unlink_after (E := E) c2 l2 (Some h) Hn2) with (p' := last_or None l1)
    as (c3 & -> & Hd2' & Hh3 & Ht3 & Hc3 & Hf3).
  { apply (dll_frame (slab c)); [|done]. intros k Hk. rewrite Hf2, Hc1 by set_solver. done. }
  eexists. split; [done|]. split.
  - constructor.
    + apply NoDup_app. set_solver.
    + by rewrite Hh3, Hh2, hd_or_app.
    + rewrite Ht3, Ht2. simpl. rewrite (li_tail _ _ Hl), !last_or_app, last_or_cons.
      destruct l2 as [|x l2]; [done|]. by rewrite !last_or_cons.
    + apply dll_app. split; [|done]. apply (dll_frame (slab c2)); [|done].
      intros k Hk. apply Hf3. set_solver.
    + intros k sk Hsk Hik. destruct (decide (k ∈ l1 ++ l2)) as [|Hk]; [done|].
      rewrite Hf3, Hf2 in Hsk by set_solver.
      destruct (decide (k = h)) as [->|].
      * unfold c1 in Hsk. simpl in Hsk. rewrite lookup_insert_eq in Hsk. simplify_eq. by destruct Hik.
      * rewrite Hc1 in Hsk by done. pose proof (li_linked _ _ Hl k sk Hsk Hik). set_solver.
  - apply (same_core_trans _ c1); [|by apply (same_core_trans _ c2)].
    constructor; try done. by apply core_insert_links.
Qed.

(** ** The operations preserve the invariant *)

(** The list after the metadata of a slot has changed. *)
Definition relist (h : VQueueHandle) (was now : bool) (l : list VQueueHandle)
    : list VQueueHandle :=
  if eqb was now then l else if now then remove_handle h l else l ++ [h].

Lemma core_insert_meta c h s m :
  slab c !! h = Some s →
  core (set_slab <[ h := sl_with_meta m s ]> c) = <[ h := (sl_qid s, m) ]> (core c).
Proof. intros. unfold core. simpl. by rewrite fmap_insert. Qed.

Lemma links_inv_meta c l h s m :
  links_inv c l → slab c !! h = Some s → links_inv (set_slab <[ h := sl_with_meta m s ]> c) l.
Proof.
  intros [Hn Hh Ht Hd Hl] Hs. constructor; simpl; try done.
  - clear -Hd Hs. revert Hd. generalize (None : option VQueueHandle) at 1 3 as p.
    induction l as [|x l IH]; intros p; simpl; [done|].
    intros [(sx & Hx & Hi) Hd]. split; [|by apply IH].
    destruct (decide (x = h)) as [->|]; [|exists sx; by rewrite lookup_insert_ne].
    rewrite Hs in Hx. simplify_eq. eexists. by rewrite lookup_insert_eq.
  - intros k sk. destruct (decide (k = h)) as [->|]; [|rewrite lookup_insert_ne by done; eauto].
    rewrite lookup_insert_eq. intros [= <-]. simpl. by apply Hl.
Qed.

Lemma set_meta_ok {E} c l h q m0 m :
  cache_inv c l → core c !! h = Some (q, m0) → h ∉ pending_purges c →
  ∃ c', set_meta (E := E) h m c = (c', Ok tt) ∧
    cache_inv c' (relist h (vm_is_active m0) (vm_is_active m) l) ∧
    core c' = <[ h := (q, m) ]> (core c) ∧ queues c' = queues c ∧
    pending_purges c' = pending_purges c ∧ target_capacity c' = target_capacity c.
Proof.
  intros Hi Hc Hp. rewrite lookup_core in Hc.
  destruct (slab c !! h) as [s|] eqn:Hs; [|done]. simpl in Hc. injection Hc as <- <-.
  set (c1 := set_slab <[ h := sl_with_meta m s ]> c).
  pose proof (links_inv_meta c l h s m (ci_links _ _ Hi) Hs) as Hl1. fold c1 in Hl1.
  pose proof (core_insert_meta c h s m Hs) as Hc1. fold c1 in Hc1.
  assert (slab c1 !! h = Some (sl_with_meta m s)) as Hs1 by apply lookup_insert_eq.
  pose proof (ci_inactive _ _ Hi h (sl_qid s) (sl_meta s)) as Hact.
  rewrite lookup_core, Hs in Hact. specialize (Hact eq_refl).
  assert (∃ c', (if eqb (vm_is_active (sl_meta s)) (vm_is_active m) then sm_ret (E := E) tt
                 else if vm_is_active m then unlink_inactive h else link_inactive h) c1
                = (c', Ok tt) ∧
             links_inv c' (relist h (vm_is_active (sl_meta s)) (vm_is_active m) l) ∧
             same_core c1 c') as (c' & Hr & Hl' & [Hcc Hq Hpp Hcap]).
  { unfold relist. destruct (eqb _ _) eqn:Heq; [exists c1; by split_and!; try apply same_core_refl|].
    destruct (vm_is_active m) eqn:Hm; [by eapply unlink_inactive_ok|].
    eapply link_inactive_ok; [done..| |done]. destruct (vm_is_active (sl_meta s)); naive_solver. }
  exists c'. split.
  { unfold set_meta, slot_of, sm_bind. rewrite Hs. simpl. exact Hr. }
  split; [|split_and!; [by rewrite Hcc, Hc1|by rewrite Hq|by rewrite Hpp|by rewrite Hcap]].
  constructor; [done|..].
  - intros k qk mk. rewrite Hcc, Hc1, Hpp. simpl.
    assert (k ∈ relist h (vm_is_active (sl_meta s)) (vm_is_active m) l ↔
            if decide (k = h) then vm_is_active m = false else k ∈ l) as ->.
    { unfold relist. pose proof elem_of_remove_handle.
      case_decide; subst; destruct (vm_is_active (sl_meta s)), (vm_is_active m); set_solver. }
    case_decide; subst; [rewrite lookup_insert_eq|rewrite lookup_insert_ne by done].
    + intros [= <- <-]. tauto.
    + intros Hk. apply (ci_inactive _ _ Hi _ _ _ Hk).
  - intros q k. rewrite Hcc, Hc1, Hpp, Hq. simpl. rewrite (ci_queues _ _ Hi), lookup_core.
    destruct (decide (k = h)) as [->|]; [|by rewrite lookup_insert_ne, lookup_core by done].
    rewrite lookup_insert_eq, Hs. simpl. unfold slot_core. naive_solver.
  - intros k. rewrite Hcc, Hc1, Hpp. simpl. intros Hk%(ci_pending _ _ Hi).
    rewrite lookup_insert_is_Some. destruct (decide (h = k)); auto.
  - rewrite Hpp. apply (ci_pending_nodup _ _ Hi).
Qed.

Lemma defer_purge_ok {E} c l h q m :
  cache_inv c l → core c !! h = Some (q, m) → h ∉ pending_purges c →
  ∃ c', defer_purge (E := E) h c = (c', Ok tt) ∧ cache_inv c' (remove_handle h l) ∧
    core c' = core c ∧ queues c' = delete q (queues c) ∧
    pending_purges c' = pending_purges c ++ [h] ∧ target_capacity c' = target_capacity c.
Proof.
  intros Hi Hc Hp. pose proof Hc as Hc0. rewrite lookup_core in Hc.
  destruct (slab c !! h) as [s|] eqn:Hs; [|done]. simpl in Hc. injection Hc as <- <-.
  destruct (unlink_inactive_ok (E := E) c l h s (ci_links _ _ Hi) Hs)
    as (c1 & Hu & Hl1 & Hsc). pose proof Hsc as [Hcc Hq Hpp Hcap].
  destruct (same_core_slot c c1 h s) as (s1 & Hs1 & Hsq & _); [done..|].
  assert (queues c !! sl_qid s = Some h) as Hqh by (apply (ci_queues _ _ Hi); eauto).
  exists (set_pending (λ l, l ++ [h]) (set_queues (delete (sl_qid s1)) c1)).
  split.
  { unfold defer_purge, sm_bind at 1. rewrite Hu. unfold slot_of, remove_queue, sm_bind. rewrite Hs1. simpl.
    rewrite bool_decide_true by congruence. done. }
  split; [|split_and!; [exact Hcc|simpl; congruence..]].
  constructor; simpl.
  - destruct Hl1. by constructor.
  - intros k qk mk. unfold core; simpl. fold (core c1). rewrite Hcc, Hpp. intros Hk.
    rewrite elem_of_remove_handle, (ci_inactive _ _ Hi _ _ _ Hk). set_solver.
  - intros qk k. unfold core; simpl. fold (core c1). rewrite Hcc, Hpp, Hq, Hsq.
    destruct (decide (qk = sl_qid s)) as [->|Hne].
    + rewrite lookup_delete_eq. split; [done|]. intros [Hk Hn]. exfalso.
      assert (queues c !! sl_qid s = Some k) as H1 by (apply (ci_queues _ _ Hi); set_solver).
      assert (queues c !! sl_qid s = Some h) as H2 by (apply (ci_queues _ _ Hi); eauto).
      set_solver.
    + rewrite lookup_delete_ne, (ci_queues _ _ Hi) by done. split; [|set_solver].
      intros [[mk Hk] Hn]. split; [by eauto|].
      rewrite elem_of_app, list_elem_of_singleton. intros [?| ->]; [done|]. naive_solver.
  - intros k. unfold core; simpl. fold (core c1). rewrite Hcc, Hpp.
    intros [Hk| ->%list_elem_of_singleton]%elem_of_app; [by apply (ci_pending _ _ Hi)|eauto].
  - rewrite Hpp. apply NoDup_app. split_and!.
    + apply (ci_pending_nodup _ _ Hi).
    + set_solver.
    + apply NoDup_singleton.
Qed.

Lemma cache_insert_ok {E} `{!SlotKeys, !SlotKeysLaws} c l q m :
  cache_inv c l → queues c !! q = None →
  let h := slot_key (dom (slab c)) in
  ∃ c', cache_insert (E := E) q m c = (c', Ok h) ∧ core c !! h = None ∧
    cache_inv c' (if vm_is_active m then l else l ++ [h]) ∧
    core c' = <[ h := (q, m) ]> (core c) ∧ queues c' = <[ q := h ]> (queues c) ∧
    pending_purges c' = pending_purges c ∧ target_capacity c' = target_capacity c.
Proof.
  intros Hi Hq h. pose proof (slot_key_fresh (dom (slab c))) as Hf%not_elem_of_dom. fold h in Hf.
  assert (core c !! h = None) as Hfc by (by rewrite lookup_core, Hf).
  assert (h ∉ pending_purges c) as Hnp.
  { intros Hp%(ci_pending _ _ Hi). rewrite Hfc in Hp. by destruct Hp. }
  assert (h ∉ l) as Hnl.
  { intros Hl%(links_in_slab _ _ _ (ci_links _ _ Hi)). rewrite Hf in Hl. by destruct Hl. }
  set (s := {| sl_qid := q; sl_meta := m; sl_inactive := None |}).
  set (c1 := set_queues <[ q := h ]> (set_slab <[ h := s ]> c)).
  assert (links_inv c1 l) as Hl1.
  { destruct (ci_links _ _ Hi) as [Hn Hh Ht Hd Hl]. constructor; try done.
    - apply (dll_frame (slab c)); [|done]. intros k Hk. apply lookup_insert_ne. set_solver.
    - simpl. intros k sk. destruct (decide (k = h)) as [->|]; [|rewrite lookup_insert_ne by done; eauto].
      rewrite lookup_insert_eq. intros [= <-] Hx. by destruct Hx. }
  assert (core c1 = <[ h := (q, m) ]> (core c)) as Hc1.
  { unfold core, c1. simpl. by rewrite fmap_insert. }
  assert (∃ c', (if vm_is_active m then sm_ret (E := E) tt else link_inactive h) c1 = (c', Ok tt) ∧
     links_inv c' (if vm_is_active m then l else l ++ [h]) ∧ same_core c1 c')
    as (c' & Hr & Hl' & [Hcc Hqq Hpp Hcap]).
  { destruct (vm_is_active m) eqn:Hm; [exists c1; split_and!; try done; apply same_core_refl|].
    eapply link_inactive_ok; [done|apply lookup_insert_eq|done|done]. }
  exists c'. split.
  { unfold cache_insert, sm_bind at 1 2 3. simpl. fold h s c1. unfold sm_bind. by rewrite Hr. }
  split; [done|]. split; [|split_and!; [by rewrite Hcc, Hc1|by rewrite Hqq|by rewrite Hpp|by rewrite Hcap]].
  constructor; [done|..]; rewrite ?Hcc, ?Hqq, ?Hpp, ?Hc1; simpl.
  - intros k qk mk.
    destruct (decide (k = h)) as [->|]; [rewrite lookup_insert_eq|rewrite lookup_insert_ne by done].
    + intros [= <- <-]. destruct (vm_is_active m); set_solver.
    + intros Hk. rewrite <- (ci_inactive _ _ Hi _ _ _ Hk). destruct (vm_is_active m); set_solver.
  - intros qk k.
    destruct (decide (k = h)) as [->|]; [rewrite lookup_insert_eq|rewrite (lookup_insert_ne _ h k) by done].
    + destruct (decide (qk = q)) as [->|]; [rewrite lookup_insert_eq; naive_solver|].
      rewrite lookup_insert_ne by done. split; [|naive_solver].
      intros [[mk Hk] _]%(ci_queues _ _ Hi). congruence.
    + destruct (decide (qk = q)) as [->|].
      * rewrite lookup_insert_eq. split; [naive_solver|]. intros Hk%(ci_queues _ _ Hi). congruence.
      * rewrite lookup_insert_ne by done. apply (ci_queues _ _ Hi).
  - intros k Hk%(ci_pending _ _ Hi).
    rewrite lookup_insert_is_Some. destruct (decide (h = k)); auto.
  - apply (ci_pending_nodup _ _ Hi).
Qed.

(** ** Compaction *)

(** The specification: of a queue of handles, the oldest [n] that may go. *)
Fixpoint evict_oldest (n : nat) (can_evict : VQueueHandle → bool) (l : list VQueueHandle)
    : list VQueueHandle :=
  match l, n with
  | [], _ | _, O => []
  | h :: l', S n' =>
      if can_evict h then h :: evict_oldest n' can_evict l' else evict_oldest n can_evict l'
  end.

Lemma evict_oldest_spec n can l :
  (∀ h, h ∈ evict_oldest n can l → h ∈ l ∧ can h = true) ∧
  (List.length (evict_oldest n can l) ≤ n)%nat ∧
  (List.length (evict_oldest n can l) = n ∨ ∀ h, h ∈ l → can h = true → h ∈ evict_oldest n can l).
Proof.
  revert n. induction l as [|x l IH]; intros [|n]; simpl; [set_solver by lia..|].
  destruct (can x) eqn:Hx.
  - destruct (IH n) as (H1 & H2 & H3). simpl. split_and!; [|lia|].
    + intros h [->|Hh]%elem_of_cons; [set_solver|]. destruct (H1 h Hh). set_solver.
    + destruct H3 as [->|H3]; [by left|right]. intros h [->|Hh]%elem_of_cons Hc; [set_solver|].
      apply elem_of_cons. auto.
  - destruct (IH (S n)) as (H1 & H2 & H3). split_and!; [|done|].
    + intros h Hh. destruct (H1 h Hh). set_solver.
    + destruct H3 as [H3|H3]; [by left|right]. intros h [->|Hh]%elem_of_cons Hc; [congruence|auto].
Qed.

Lemma size_core c : size (core c) = size (slab c).
Proof. apply map_size_fmap. Qed.

(** Evicting one slot of the list. *)
Lemma evict_one_ok {E} c l h s :
  cache_inv c l → h ∈ l → slab c !! h = Some s → pending_purges c = [] →
  ∃ c', evict_slot (E := E) h c = (c', Ok tt) ∧
    cache_inv c' (remove_handle h l) ∧ core c' = delete h (core c) ∧
    pending_purges c' = [] ∧ target_capacity c' = target_capacity c.
Proof.
  intros Hi Hh Hs Hp.
  destruct (unlink_inactive_ok (E := E) c l h s (ci_links _ _ Hi) Hs)
    as (c1 & Hu & Hl1 & Hsc). pose proof Hsc as [Hcc Hq Hpp Hcap].
  destruct (same_core_slot c c1 h s) as (s1 & Hs1 & Hsq & Hsm); [done..|].
  assert (core c !! h = Some (sl_qid s, sl_meta s)) as Hch by (by rewrite lookup_core, Hs).
  assert (queues c !! sl_qid s = Some h) as Hqh.
  { apply (ci_queues _ _ Hi). rewrite Hp. set_solver. }
  exists (set_queues (delete (sl_qid s)) (set_slab (delete h) c1)). split.
  { unfold evict_slot, sm_bind at 1. rewrite Hu. unfold slot_of, remove_queue, sm_bind.
    rewrite Hs1. simpl. rewrite Hsm, Hsq.
    destruct (proj1 (ci_inactive _ _ Hi _ _ _ Hch) Hh) as [-> _].
    simpl. rewrite bool_decide_true by congruence. done. }
  assert (core (set_queues (delete (sl_qid s)) (set_slab (delete h) c1)) = delete h (core c)) as Hc'.
  { transitivity (delete h (core c1)); [|by rewrite Hcc]. unfold core. simpl. apply fmap_delete. }
  split; [|split_and!; [done|simpl; congruence..]].
  constructor; rewrite ?Hc'; simpl; rewrite ?Hpp, ?Hp.
  - destruct Hl1 as [Hn Hhd Ht Hd Hl]. constructor; simpl; try done.
    + apply (dll_frame (slab c1)); [|done]. intros k Hk%elem_of_remove_handle.
      apply lookup_delete_ne. naive_solver.
    + intros k sk [_ Hk]%lookup_delete_Some. eauto.
  - intros k qk mk [Hkh Hk]%lookup_delete_Some.
    pose proof (ci_inactive _ _ Hi _ _ _ Hk) as Hx. rewrite Hp in Hx.
    rewrite elem_of_remove_handle, Hx. naive_solver.
  - intros qk k. rewrite Hq. pose proof (ci_queues _ _ Hi) as Hx. rewrite Hp in Hx.
    destruct (decide (qk = sl_qid s)) as [->|Hqk].
    + rewrite lookup_delete_eq. split; [done|]. intros [[mk [Hkh Hk]%lookup_delete_Some] _].
      assert (queues c !! sl_qid s = Some k) by (apply Hx; set_solver). congruence.
    + rewrite lookup_delete_ne, Hx by done. split.
      * intros [[mk Hk] Hn]. split; [|done]. exists mk. rewrite lookup_delete_ne; [done|].
        intros <-. rewrite lookup_core, Hs in Hk. simpl in Hk. injection Hk as <- <-. done.
      * intros [[mk [_ Hk]%lookup_delete_Some] Hn]. eauto.
  - set_solver.
  - constructor.
Qed.

(** Handles that stay. *)
Abbreviation without ev := (filter (λ h : VQueueHandle, h ∉ ev)).
Abbreviation core_without ev :=
  (filter (λ kv : VQueueHandle * (VQueueId * VQueueMeta), kv.1 ∉ ev)).

Lemma list_filter_nil (l : list VQueueHandle) : without [] l = l.
Proof. induction l; [done|]. rewrite filter_cons_True by set_solver. by f_equal. Qed.
Lemma map_filter_nil (m : gmap VQueueHandle (VQueueId * VQueueMeta)) : core_without [] m = m.
Proof. apply map_filter_id. set_solver. Qed.

Lemma without_cons h ev (l1 l2 : list VQueueHandle) :
  h ∉ l1 → h ∉ l2 → without (h :: ev) (l1 ++ h :: l2) = without ev (l1 ++ l2).
Proof.
  assert (∀ l : list VQueueHandle, h ∉ l → without (h :: ev) l = without ev l) as Hl.
  { induction l as [|x l IH]; intros Hx; [done|]. rewrite !filter_cons, IH by set_solver.
    repeat case_decide; set_solver. }
  intros H1 H2. rewrite !filter_app, filter_cons_False by set_solver. by rewrite !Hl.
Qed.
Lemma core_without_cons h ev (m : gmap VQueueHandle (VQueueId * VQueueMeta)) :
  core_without ev (delete h m) = core_without (h :: ev) m.
Proof.
  apply map_eq. intros k. apply option_eq. intros x.
  rewrite !map_lookup_filter_Some, lookup_delete_Some. simpl. set_solver.
Qed.

Lemma evict_loop_ok {E} can fuel l1 l2 c n :
  cache_inv c (l1 ++ l2) → pending_purges c = [] → (List.length l2 ≤ fuel)%nat →
  let ev := evict_oldest (size (core c) - target_capacity c) can l2 in
  ∃ c', evict_loop (E := E) fuel can (hd_or None l2) n c = (c', Ok (n + List.length ev)%nat) ∧
    cache_inv c' (without ev (l1 ++ l2)) ∧ core c' = core_without ev (core c) ∧
    pending_purges c' = [] ∧ target_capacity c' = target_capacity c.
Proof.
  revert fuel l1 c n. induction l2 as [|h l2 IH]; intros fuel l1 c n Hi Hp Hf ev.
  - exists c. split; [|split_and!; try done].
    + subst ev. simpl. rewrite Nat.add_0_r. destruct fuel; unfold evict_loop, sm_bind; simpl; by case_decide.
    + by rewrite list_filter_nil.
    + by rewrite map_filter_nil.
  - destruct fuel as [|fuel]; [simpl in Hf; lia|].
    destruct (links_in_slab c _ h (ci_links _ _ Hi)) as [s Hs]; [set_solver|].
    assert (sl_inactive s = Some {| il_prev := last_or None l1; il_next := hd_or None l2 |}) as Hlk.
    { pose proof (li_dll _ _ (ci_links _ _ Hi)) as Hd. apply dll_app in Hd as [_ [(s' & Hs' & Hd) _]].
      congruence. }
    simpl. unfold sm_bind at 1 2. simpl. subst ev. rewrite size_core.
    case_decide as Hcap.
    { replace (size (slab c) - target_capacity c)%nat with 0%nat by lia. simpl.
      exists c. split; [by rewrite Nat.add_0_r|].
      split_and!; [by rewrite list_filter_nil|by rewrite map_filter_nil|done|done]. }
    assert (∃ k, size (slab c) - target_capacity c = S k)%nat as [k Hk]
      by (exists (size (slab c) - target_capacity c - 1)%nat; lia).
    rewrite Hk. unfold slot_of, sm_bind at 1 2. rewrite Hs. simpl. rewrite Hlk. simpl.
    destruct (can h) eqn:Hcan.
    + destruct (evict_one_ok (E := E) c _ h s Hi) as (c1 & Hr & Hi1 & Hc1 & Hp1 & Hcap1);
        [set_solver|done..|].
      pose proof (li_nodup _ _ (ci_links _ _ Hi)) as (_ & Hn1 & Hn2)%NoDup_app.
      apply NoDup_cons in Hn2 as [Hn2 _].
      assert (h ∉ l1) as Hh1 by (intros Hx; apply (Hn1 h Hx); set_solver).
      rewrite remove_middle in Hi1 by done.
      assert (size (core c1) - target_capacity c1 = k)%nat as Hsz.
      { rewrite Hc1, map_size_delete_Some, size_core, Hcap1 by (rewrite lookup_core, Hs; eauto). lia. }
      destruct (IH fuel l1 c1 (S n) Hi1 Hp1) as (c2 & Hr2 & Hi2 & Hc2 & Hp2 & Hcap2);
        [simpl in Hf; lia|]. rewrite Hsz in *.
      exists c2. split.
      { unfold sm_bind. rewrite Hr, Hr2. simpl. repeat f_equal. lia. }
      split_and!; [by rewrite without_cons|by rewrite Hc2, Hc1, core_without_cons|done|congruence].
    + rewrite <- Hk, <- size_core.
      destruct (IH fuel (l1 ++ [h]) c n) as (c2 & Hr2 & Hi2 & Hc2 & Hp2 & Hcap2);
        [by rewrite <- (assoc_L app)|done|simpl in Hf; lia|].
      rewrite <- (assoc_L app) in Hi2. simpl in *. eauto 10.
Qed.

Lemma drain_purges_ok {E} can l n c :
  Forall (λ h, can h = true) l → NoDup l → (∀ h, h ∈ l → is_Some (slab c !! h)) →
  drain_purges (E := E) can l n c =
    (set_slab (filter (λ kv, kv.1 ∉ l)) c, Ok (n + List.length l)%nat).
Proof.
  intros Hcan. revert n c. induction Hcan as [|h l Hh0 Hcan IH]; intros n c Hnd Hl; simpl.
  - rewrite Nat.add_0_r. unfold set_slab, sm_ret. rewrite map_filter_id by set_solver. by destruct c.
  - apply NoDup_cons in Hnd as [Hh Hnd]. unfold sm_bind. rewrite Hh0. simpl.
    rewrite bool_decide_true by (apply Hl; set_solver). rewrite IH; [|done|].
    + f_equal; [|f_equal; lia]. unfold set_slab. simpl. f_equal.
      apply map_eq. intros k. apply option_eq. intros x.
      rewrite !map_lookup_filter_Some, lookup_delete_Some. simpl. set_solver.
    + intros k Hk. simpl. rewrite lookup_delete_ne by set_solver. apply Hl. set_solver.
Qed.

(** The slots of purged queues go. *)
Lemma drain_inv c l :
  cache_inv c l →
  let c' := set_slab (filter (λ kv, kv.1 ∉ pending_purges c)) (set_pending (λ _, []) c) in
  cache_inv c' l ∧ core c' = core_without (pending_purges c) (core c).
Proof.
  intros Hi c'.
  assert (core c' = core_without (pending_purges c) (core c)) as Hc'.
  { unfold core, c'. simpl. apply map_eq. intros k. apply option_eq. intros x.
    rewrite lookup_fmap, fmap_Some, map_lookup_filter_Some, lookup_fmap, fmap_Some.
    setoid_rewrite map_lookup_filter_Some. naive_solver. }
  split; [|done].
  assert (∀ h, h ∈ l → h ∉ pending_purges c) as Hlp.
  { intros h Hh. destruct (links_in_slab _ _ _ (ci_links _ _ Hi) Hh) as [s Hs].
    eapply (ci_inactive _ _ Hi h (sl_qid s) (sl_meta s)); [by rewrite lookup_core, Hs|done]. }
  constructor; rewrite ?Hc'; simpl.
  - destruct (ci_links _ _ Hi) as [Hn Hhd Ht Hd Hl]. constructor; simpl; try done.
    + apply (dll_frame (slab c)); [|done]. intros h Hh. apply option_eq. intros x.
      rewrite map_lookup_filter_Some. simpl. naive_solver.
    + intros k sk [Hk _]%map_lookup_filter_Some. eauto.
  - intros h q m [Hh Hp]%map_lookup_filter_Some. rewrite (ci_inactive _ _ Hi _ _ _ Hh). set_solver.
  - intros q h. rewrite (ci_queues _ _ Hi). setoid_rewrite map_lookup_filter_Some. simpl. set_solver.
  - set_solver.
  - constructor.
Qed.

(** A compaction that succeeds was allowed to drop the purged queues. *)
Lemma drain_accepts {E} can l n c :
  (∃ a, (drain_purges (E := E) can l n c).2 = Ok a) → Forall (λ h, can h = true) l.
Proof.
  revert n c. induction l as [|h l IH]; intros n c; [constructor|].
  simpl. unfold dbg_assert, sm_bind at 1. destruct (can h) eqn:Hh; simpl; [|by intros [a Ha]].
  intros Ha. constructor; [done|]. eapply IH. exact Ha.
Qed.
Lemma try_compact_accepts {E} can c :
  (∃ a, (try_compact (E := E) can c).2 = Ok a) → Forall (λ h, can h = true) (pending_purges c).
Proof.
  unfold try_compact, sm_bind at 1 2 3. simpl. intros [a Ha].
  apply (drain_accepts (E := E) can _ 0 (set_pending (λ _, []) c)).
  destruct (drain_purges _ _ _ _) as [c' [n| |]]; [by eexists|done..].
Qed.

Lemma try_compact_ok {E} can c l :
  cache_inv c l → Forall (λ h, can h = true) (pending_purges c) →
  let kept := core_without (pending_purges c) (core c) in
  let ev := evict_oldest (size kept - target_capacity c) can l in
  ∃ c', try_compact (E := E) can c
        = (c', Ok (List.length (pending_purges c) + List.length ev)%nat) ∧
    cache_inv c' (without ev l) ∧ core c' = core_without ev kept ∧
    pending_purges c' = [] ∧ target_capacity c' = target_capacity c.
Proof.
  intros Hi Hcan kept ev. destruct (drain_inv c l Hi) as [Hi1 Hc1].
  set (c1 := set_slab _ _) in *. fold kept in Hc1.
  destruct (evict_loop_ok (E := E) can (size (slab c1)) [] l c1 (List.length (pending_purges c)))
    as (c2 & Hr & Hi2 & Hc2 & Hp2 & Hcap2); [done|done| |].
  { rewrite <- size_core, <- size_dom, <- (size_list_to_set (C := gset VQueueHandle) l)
      by apply (li_nodup _ _ (ci_links _ _ Hi1)).
    apply subseteq_size. intros h Hh%elem_of_list_to_set. apply elem_of_dom.
    rewrite lookup_core. destruct (links_in_slab _ _ _ (ci_links _ _ Hi1) Hh) as [s ->]. eauto. }
  rewrite Hc1 in *. simpl in *. fold ev in Hr, Hi2, Hc2.
  exists c2. split; [|by split_and!].
  unfold try_compact, sm_bind at 1 2 3. simpl.
  rewrite drain_purges_ok; [|done|apply (ci_pending_nodup _ _ Hi)|].
  - fold c1. simpl. unfold sm_bind. simpl. rewrite <- Hr. f_equal. apply (li_head _ _ (ci_links _ _ Hi1)).
  - intros h Hh%(ci_pending _ _ Hi). rewrite lookup_core in Hh. simpl.
    destruct (slab c !! h); [eauto|by destruct Hh].
Qed.

(** ** The abstract cache *)

(** A map of the known queues, the idle ones in the order in which they became
    idle, and the purged ones that still occupy their slot. *)
Record AbsCache := mkAbs {
  a_known : gmap VQueueHandle (VQueueId * VQueueMeta);
  a_idle : list VQueueHandle;
  a_purged : list VQueueHandle;
  a_capacity : nat }.

Inductive CacheOp :=
| OpInsert (q : VQueueId) (m : VQueueMeta)
| OpSetMeta (h : VQueueHandle) (m : VQueueMeta)
| OpPurge (h : VQueueHandle)
| OpCompact (can_evict : VQueueHandle → bool).

Definition a_live (a : AbsCache) (h : VQueueHandle) : option (VQueueId * VQueueMeta) :=
  if bool_decide (h ∈ a_purged a) then None else a_known a !! h.

(** What a client may do: insert a queue that is not known, use a handle of a
    queue that is known and not purged, compact when the scheduler has let go of
    the purged queues. *)
Definition abs_step `{!SlotKeys} (a : AbsCache) (op : CacheOp) : option AbsCache :=
  match op with
  | OpInsert q m =>
      if bool_decide (map_Forall (λ h qm, qm.1 = q → h ∈ a_purged a) (a_known a)) then
        let h := slot_key (dom (a_known a)) in
        Some (mkAbs (<[ h := (q, m) ]> (a_known a))
                (if vm_is_active m then a_idle a else a_idle a ++ [h]) (a_purged a) (a_capacity a))
      else None
  | OpSetMeta h m =>
      let! qm := a_live a h in
      Some (mkAbs (<[ h := (qm.1, m) ]> (a_known a))
              (relist h (vm_is_active qm.2) (vm_is_active m) (a_idle a)) (a_purged a) (a_capacity a))
  | OpPurge h =>
      let! _ := a_live a h in
      Some (mkAbs (a_known a) (remove_handle h (a_idle a)) (a_purged a ++ [h]) (a_capacity a))
  | OpCompact can =>
      if forallb can (a_purged a) then
        let kept := core_without (a_purged a) (a_known a) in
        let evicted := evict_oldest (size kept - a_capacity a) can (a_idle a) in
        Some (mkAbs (core_without evicted kept) (without evicted (a_idle a)) [] (a_capacity a))
      else None
  end.

Definition cache_op {E} `{!SlotKeys} (op : CacheOp) : sm VQueuesMetaCache E unit :=
  match op with
  | OpInsert q m => cache_insert q m ;; sm_ret tt
  | OpSetMeta h m => set_meta h m
  | OpPurge h => defer_purge h
  | OpCompact can => try_compact can ;; sm_ret tt
  end.

Record simulates (c : VQueuesMetaCache) (a : AbsCache) : Prop := {
  sim_inv : cache_inv c (a_idle a);
  sim_known : core c = a_known a;
  sim_purged : pending_purges c = a_purged a;
  sim_capacity : target_capacity c = a_capacity a }.

Lemma new_empty_simulates n : simulates (new_empty n) (mkAbs ∅ [] [] n).
Proof.
  constructor; [|unfold core; simpl; by rewrite fmap_empty|done..]. constructor; simpl.
  - constructor; simpl; try done; [constructor].
  - intros h q m. rewrite lookup_core. done.
  - intros q h. rewrite lookup_core. simpl. rewrite lookup_empty. naive_solver.
  - set_solver.
  - constructor.
Qed.

Lemma a_live_Some a h qm : a_live a h = Some qm ↔ h ∉ a_purged a ∧ a_known a !! h = Some qm.
Proof. unfold a_live. case_bool_decide; naive_solver. Qed.

Lemma cache_op_simulates {E} `{!SlotKeys, !SlotKeysLaws} c a op a' :
  simulates c a → abs_step a op = Some a' →
  ∃ c', cache_op (E := E) op c = (c', Ok tt) ∧ simulates c' a'.
Proof.
  intros [Hi Hk Hp Hc] Ha. destruct op as [q m|h m|h|can]; simpl in *.
  - case_bool_decide as Hq; [|done]. injection Ha as <-.
    assert (queues c !! q = None) as Hnone.
    { destruct (queues c !! q) as [h|] eqn:Hh; [|done]. exfalso.
      apply (ci_queues _ _ Hi) in Hh as [[m' Hm'] Hn]. apply Hn. rewrite Hp.
      rewrite Hk in Hm'. by apply (Hq _ _ Hm'). }
    destruct (cache_insert_ok (E := E) c (a_idle a) q m Hi Hnone) as (c' & Hr & _ & Hi' & E1 & _ & E3 & E4).
    exists c'. unfold sm_bind. rewrite Hr. split; [done|].
    assert (dom (slab c) = dom (a_known a)) as Hd by (rewrite <- Hk; unfold core; by rewrite dom_fmap_L).
    rewrite Hd in Hi', E1. constructor; simpl; congruence.
  - destruct (a_live a h) as [[q m0]|] eqn:Hl; [|done]. injection Ha as <-.
    apply a_live_Some in Hl as [Hn Hl]. rewrite <- Hp in Hn. rewrite <- Hk in Hl.
    destruct (set_meta_ok (E := E) c (a_idle a) h q m0 m Hi Hl Hn) as (c' & Hr & Hi' & E1 & _ & E3 & E4).
    exists c'. split; [done|]. constructor; simpl; congruence.
  - destruct (a_live a h) as [[q m0]|] eqn:Hl; [|done]. injection Ha as <-.
    apply a_live_Some in Hl as [Hn Hl]. rewrite <- Hp in Hn. rewrite <- Hk in Hl.
    destruct (defer_purge_ok (E := E) c (a_idle a) h q m0 Hi Hl Hn) as (c' & Hr & Hi' & E1 & _ & E3 & E4).
    exists c'. split; [done|]. constructor; simpl; congruence.
  - destruct (forallb can (a_purged a)) eqn:Hcan; [|done]. injection Ha as <-.
    assert (Forall (λ h, can h = true) (pending_purges c)) as Hfa.
    { rewrite Hp. apply Forall_forall. intros h Hh. rewrite forallb_forall in Hcan.
      by apply Hcan, list_elem_of_In. }
    pose proof (try_compact_ok (E := E) can c (a_idle a) Hi Hfa) as Hx.
    rewrite Hp, Hk, Hc in Hx. destruct Hx as (c' & Hr & Hi' & E1 & E2 & E3). exists c'.
    unfold sm_bind. rewrite Hr. split; [done|]. constructor; simpl; congruence.
Qed.

Fixpoint abs_run `{!SlotKeys} (a : AbsCache) (ops : list CacheOp) : option AbsCache :=
  match ops with
  | [] => Some a
  | op :: ops => let! a' := abs_step a op in abs_run a' ops
  end.

(** C18: the metadata cache.  Any sequence of insertions, metadata updates, purges and
    compactions that respects the interface runs without a panic, and the slots, the
    lookup by queue id and the intrusive list that it leaves stand for the abstract
    cache: a compaction frees the purged slots and, of the idle queues that its
    [can_evict] accepts, the ones that have been idle longest, no more than needed to
    get back to the capacity; an idle queue that it refuses stays.  The interface:
    insert a queue that is not cached, use the handle of a cached queue that is not
    purged, and compact with a [can_evict] that accepts the purged queues; the
    assertions of the code, the debug ones included, count as panics. *)
Theorem cache_refines_idle_queue {E} `{!SlotKeys, !SlotKeysLaws} (n : nat) (ops : list CacheOp)
    (a : AbsCache) :
  abs_run (mkAbs ∅ [] [] n) ops = Some a →
  ∃ c, sm_for (E := E) cache_op ops (new_empty n) = (c, Ok tt) ∧
    links_inv c (a_idle a) ∧ core c = a_known a ∧
    (∀ q h, handle_for c q = Some h ↔ (∃ m, a_live a h = Some (q, m))).
Proof.
  intros Ha. cut (∃ c, sm_for (E := E) cache_op ops (new_empty n) = (c, Ok tt) ∧ simulates c a).
  { intros (c & Hr & [Hi Hk Hp _]). exists c. split_and!; [done|apply Hi|done|].
    intros q h. unfold handle_for. rewrite (ci_queues _ _ Hi), Hk, Hp.
    setoid_rewrite a_live_Some. naive_solver. }
  revert Ha. generalize (new_empty_simulates n). generalize (new_empty n), (mkAbs ∅ [] [] n).
  induction ops as [|op ops IH]; intros c a0 Hs Ha; simpl in *.
  - injection Ha as <-. by exists c.
  - destruct (abs_step a0 op) as [a1|] eqn:Hop; [|done].
    destruct (cache_op_simulates (E := E) c a0 op a1 Hs Hop) as (c1 & Hr & Hs1).
    unfold sm_bind. rewrite Hr. by apply (IH c1 a1).
Qed.

(** The smallest key that is not in use. *)
Definition fresh_keys : SlotKeys := λ used, fresh used.
Lemma fresh_keys_laws : @SlotKeysLaws fresh_keys.
Proof. intros used. apply is_fresh. Qed.

(** Three idle queues and room for one: the first is purged, the second may not be
    evicted, so a compaction takes the third. *)
Definition demo_queue (k : Z) : VQueueId := {| vq_partition_key := k; vq_digest := [] |}.
Definition demo_idle : VQueueMeta := vqueue_meta_new (mkUT 0) None LimitNone LinkNone.
Definition demo_ops : list CacheOp :=
  [OpInsert (demo_queue 1) demo_idle; OpInsert (demo_queue 2) demo_idle; OpInsert (demo_queue 3) demo_idle;
   OpPurge 1%positive; OpCompact (λ h, negb (Pos.eqb h 2)); OpInsert (demo_queue 4) demo_idle].

Lemma cache_refines_idle_queue_witness :
  ∃ c, sm_for (E := unit) (@cache_op _ fresh_keys) demo_ops (new_empty 1) = (c, Ok tt) ∧
    links_inv c [2%positive; 3%positive] ∧ handle_for c (demo_queue 4) = Some 3%positive.
Proof.
  assert (option_map (λ a, (a_idle a, a_live a 3%positive)) (@abs_run fresh_keys (mkAbs ∅ [] [] 1) demo_ops)
          = Some ([2%positive; 3%positive], Some (demo_queue 4, demo_idle))) as Hf by (vm_compute; reflexivity).
  destruct (@abs_run fresh_keys (mkAbs ∅ [] [] 1) demo_ops) as [a|] eqn:Ha; [|discriminate Hf].
  injection Hf as Hi Hlive.
  destruct (@cache_refines_idle_queue unit fresh_keys fresh_keys_laws 1 demo_ops a Ha)
    as (c & Hr & Hl & _ & Hq).
  exists c. split; [done|]. rewrite <- Hi. split; [done|]. apply Hq. by eexists.
Defined.
