(* ===== verification/VQueue.v ===== *)
(** * Virtual queues

    [vqueues/src/lib.rs]: the operations that move an entry between the stages
    of its queue, over the tables of [partition-store/src/vqueue_table] and
    [partition-store/src/locks_table] and the cache of [VQueueCache]; the queue
    id of an invocation ([vqueues/src/util.rs]).

    A queue value of the source borrows the transaction, the cache and the
    collector of actions; here these are the components of the state [VState],
    and a queue is its handle.  The state also has the sequence numbers that the
    processor caches ([Numbers]: the tail of [processor/outbox.rs] and the inbox number
    of [processor/fsm.rs]), which are stored as well.  The collector is present only when there is a
    scheduler to notify ([vc_collector]).  The store writes the metadata of a
    queue fully or as a merge operand, by a random sample: the sample is the
    parameter [vc_full_write], and the theorems hold for every choice. *)

From stdpp Require Import strings.
From S2P Require Import Prelude Clock Invocation InvocationStatus VQueueMeta PartitionStore.
From S2P Require Import VQueueCache.

Open Scope Z_scope.

(** ** Events for the scheduler *)

Inductive EventDetails :=
| QueuePaused
| QueueResumed
| RemovedFromInbox (key : EntryKey)
| EnqueuedToInbox (key : EntryKey) (value : EntryValue)
| LockReleased (scope : option string) (lock_name : LockName)
| VQueuePurged.

Record VQueueEvent := { ve_queue : VQueueHandle; ve_updates : list EventDetails }.

Inductive YieldReason :=
| YieldPartitionLeaderChange
| YieldExhaustedMemoryBudget (needed_memory : Z)
| YieldTransientError (retry_attempts retry_count_since_last_stored_command : Z)
| YieldInvokerLoadShedding
| YieldUnknown.

(** ** State *)

(** The numbers that the processor keeps in memory: of the next outbox message
    ([Outbox::outbox_tail_seq]) and of the next inbox entry ([Fsm::inbox_seq_number]). *)
Record Numbers := mkNumbers { outbox_tail_seq : Z; inbox_seq_number : Z }.

Record VState (O A : Type) := mkV {
  v_tables : Tables O;
  v_cache : VQueuesMetaCache;
  v_actions : list A;
  v_numbers : Numbers }.
Arguments mkV {O A}.
Arguments v_tables {O A}.
Arguments v_cache {O A}.
Arguments v_actions {O A}.
Arguments v_numbers {O A}.

Record VCtx (A : Type) := {
  vc_from_event : VQueueEvent → A;
  vc_collector : bool;
  vc_full_write : VQueueId → VQueueMeta → Update → bool }.
Arguments vc_from_event {A}.
Arguments vc_collector {A}.
Arguments vc_full_write {A}.

Definition on_tables {O A} (f : Tables O → Tables O) (s : VState O A) : VState O A :=
  mkV (f (v_tables s)) (v_cache s) (v_actions s) (v_numbers s).

(** Assertions. *)
Definition assert_ {S E} (b : bool) : sm S E unit := if b then sm_ret tt else sm_lift Panic.

(** ** The store of queues *)

Definition last_modified_at (s : VQueueStatistics) : UniqueTimestamp :=
  foldl (λ a b, if ut_as_u64 a <=? ut_as_u64 b then b else a) (vs_created_at s)
    (omap id [vs_last_enqueued_at s; vs_last_start_at s; vs_last_finish_at s;
              vs_last_attempt_at s]).

Definition HOUR_MS : Z := 60 * 60 * 1000.

Section store.
Context {O : Type}.
Implicit Types (t : Tables O) (qid : VQueueId).

Definition create_vqueue qid (m : VQueueMeta) t : Tables O := upd_vqmeta <[ qid := m ]> t.
Definition delete_vqueue qid t : Tables O := upd_vqmeta (delete qid) t.
Definition mark_vqueue_as_active qid t : Tables O := upd_vqactive ({[ qid ]} ∪.) t.
Definition mark_vqueue_as_dormant qid t : Tables O := upd_vqactive (.∖ {[ qid ]}) t.

(** A merge operand applies the update to the stored row
    ([full_merge_slices]); a row that is missing makes the merge fail. *)
Definition merge_vqueue qid (u : Update) t : option (Tables O) :=
  let! m := t_vqmeta t !! qid in
  let! m' := apply_update u m in
  Some (upd_vqmeta <[ qid := m' ]> t).

(** [update_vqueue] of the transaction: the new metadata, and whether the
    queue was purged. *)
Definition update_vqueue_row (sample : bool) qid (m : VQueueMeta) (u : Update) t
    : option (Tables O * VQueueMeta * bool) :=
  let should_write_full :=
    sample || (HOUR_MS <? ut_saturating_sub_ms (up_ts u) (last_modified_at (vm_stats m))) in
  let! m' := apply_update u m in
  let t := match vm_is_active m, vm_is_active m' with
           | false, true => mark_vqueue_as_active qid t
           | true, false => mark_vqueue_as_dormant qid t
           | _, _ => t
           end in
  if is_obsolete m' then Some (delete_vqueue qid t, m', true)
  else let! t := if should_write_full then Some (upd_vqmeta <[ qid := m' ]> t)
                 else merge_vqueue qid u t in
       Some (t, m', false).

Definition put_vqueue_inbox qid (st : Stage) (k : EntryKey) (v : EntryValue) t : Tables O :=
  upd_vqinbox <[ (qid, st, k) := v ]> t.
Definition delete_vqueue_inbox qid (st : Stage) (k : EntryKey) t : Tables O :=
  upd_vqinbox (delete (qid, st, k)) t.

(** The row of an entry; [base_entry_id] takes the partition key of the queue. *)
Definition entry_base_id qid (k : EntryKey) : BaseEntryId :=
  {| be_partition_key := vq_partition_key qid; be_entry := ek_entry_id k |}.
Definition put_entry_status qid (st : Stage) (k : EntryKey) (v : EntryValue) t : Tables O :=
  upd_vqentry <[ entry_base_id qid k :=
    {| h_qid := qid; h_stage := st; h_entry_key := k; h_metadata := ev_metadata v;
       h_status := ev_status v; h_stats := ev_stats v |} ]> t.
Definition delete_entry_status qid (k : EntryKey) t : Tables O :=
  upd_vqentry (delete (entry_base_id qid k)) t.
Definition get_vqueue_entry_status (id : BaseEntryId) t : option EntryStatusHeader :=
  t_vqentry t !! id.

Definition put_vqueue_input_payload qid (seq : Z) (id : EntryId) (item : StateMutationInput) t
    : Tables O := upd_vqinput <[ (qid, seq, id) := item ]> t.
Definition delete_vqueue_input_payload qid (seq : Z) (id : EntryId) t : Tables O :=
  upd_vqinput (delete (qid, seq, id)) t.
Definition get_vqueue_input_payload qid (seq : Z) (id : EntryId) t : option StateMutationInput :=
  t_vqinput t !! (qid, seq, id).

(** [find_inbox_state_mutation_key]: the first key of the queue's inbox with
    the same lock flag, time and sequence number, if it is a state mutation. *)
Definition entry_id_lt (a b : EntryId) : bool :=
  match then_with (Z.compare (kind_rank (ei_kind a)) (kind_rank (ei_kind b)))
                  (Z.compare (ei_id a) (ei_id b)) with
  | Lt => true | _ => false end.
Definition find_inbox_state_mutation_key qid (key : EntryKey) t : option EntryKey :=
  let same (k : EntryKey) :=
    eqb (ek_has_lock k) (ek_has_lock key) && (ek_run_at k =? ek_run_at key)
    && (ek_seq k =? ek_seq key) in
  let candidates :=
    omap (λ '((q, st, k), _),
            if bool_decide (q = qid) && bool_decide (st = StInbox) && same k
            then Some k else None) (map_to_list (t_vqinbox t)) in
  match candidates with
  | [] => None
  | k :: l =>
      let first := foldl (λ a b, if entry_id_lt (ek_entry_id b) (ek_entry_id a) then b else a) k l in
      match ei_kind (ek_entry_id first) with KindStateMutation => Some first | _ => None end
  end.
End store.

(** ** Statistics of entries *)

Definition es_update (at_ : UniqueTimestamp) (attempts paused suspensions yields errors : Z)
    (first latest : option UniqueTimestamp) (latest_wait total_wait : WaitStats)
    (s : EntryStatistics) : EntryStatistics :=
  {| es_created_at := es_created_at s; es_transitioned_at := at_; es_num_attempts := attempts;
     es_num_paused := paused; es_num_suspensions := suspensions; es_num_yields := yields;
     es_num_errors := errors; es_first_attempt_at := first; es_latest_attempt_at := latest;
     es_first_runnable_at := es_first_runnable_at s;
     es_latest_attempt_wait_stats := latest_wait; es_total_wait_stats := total_wait |}.

Definition build_move_metrics (s : EntryStatistics) (w : option WaitStats) : MoveMetrics :=
  {| mm_last_transition_at := es_transitioned_at s; mm_has_started := 0 <? es_num_attempts s;
     mm_first_runnable_at := es_first_runnable_at s; mm_scheduler_wait_stats := w |}.

Definition mark_transition (at_ : UniqueTimestamp) (s : EntryStatistics) : EntryStatistics :=
  es_update at_ (es_num_attempts s) (es_num_paused s) (es_num_suspensions s) (es_num_yields s)
    (es_num_errors s) (es_first_attempt_at s) (es_latest_attempt_at s)
    (es_latest_attempt_wait_stats s) (es_total_wait_stats s) s.

Definition inc (x : Z) : Z := saturating_add u32_max x 1.

Definition mark_run_attempt (at_ : UniqueTimestamp) (s : EntryStatistics) (w : WaitStats)
    : EntryStatistics :=
  es_update at_ (inc (es_num_attempts s)) (es_num_paused s) (es_num_suspensions s)
    (es_num_yields s) (es_num_errors s)
    (match es_first_attempt_at s with Some a => Some a | None => Some at_ end) (Some at_)
    w (wait_add (es_total_wait_stats s) w) s.

Definition mark_pause (at_ : UniqueTimestamp) (s : EntryStatistics) : EntryStatistics :=
  es_update at_ (es_num_attempts s) (inc (es_num_paused s)) (es_num_suspensions s)
    (es_num_yields s) (es_num_errors s) (es_first_attempt_at s) (es_latest_attempt_at s)
    (es_latest_attempt_wait_stats s) (es_total_wait_stats s) s.

Definition mark_suspension (at_ : UniqueTimestamp) (s : EntryStatistics) : EntryStatistics :=
  es_update at_ (es_num_attempts s) (es_num_paused s) (inc (es_num_suspensions s))
    (es_num_yields s) (es_num_errors s) (es_first_attempt_at s) (es_latest_attempt_at s)
    (es_latest_attempt_wait_stats s) (es_total_wait_stats s) s.

Definition mark_yield (at_ : UniqueTimestamp) (is_error : bool) (s : EntryStatistics)
    : EntryStatistics :=
  es_update at_ (es_num_attempts s) (es_num_paused s) (es_num_suspensions s)
    (if is_error then es_num_yields s else inc (es_num_yields s))
    (if is_error then inc (es_num_errors s) else es_num_errors s)
    (es_first_attempt_at s) (es_latest_attempt_at s)
    (es_latest_attempt_wait_stats s) (es_total_wait_stats s) s.

(** ** Queue ids *)

Section vqueue_id.
Context `{!Digests}.

Definition DIGEST_LEN : nat := 16.
Definition SEP : list Z := [255].
Definition len_prefixed (s : string) : list Z :=
  to_le_bytes 4 (as_u32 (Z.of_nat (String.length s))) ++ bytes_of s.

Definition scope_bytes (scope : option string) : list Z :=
  match scope with Some sc => len_prefixed sc | None => to_le_bytes 4 0 end.

Definition limit_key_bytes (l : LimitKey) : list Z :=
  match l with
  | LimitNone => to_le_bytes 4 0
  | LimitL1 l1 => len_prefixed l1
  | LimitL2 l1 l2 =>
      to_le_bytes 4 (as_u32 (Z.of_nat (String.length l1 + String.length l2)))
      ++ bytes_of l1 ++ bytes_of "/" ++ bytes_of l2
  end.

(** The bytes that [generate_vqueue_id] feeds to the digest. *)
Definition vqueue_id_preimage (partition_key : Z) (scope : option string) (limit_key : LimitKey)
    (is_exclusive : bool) (service_name : string) (key : option string) : list Z :=
  to_le_bytes 8 partition_key ++ [255; 48; 255]
  ++ scope_bytes scope ++ SEP
  ++ limit_key_bytes limit_key ++ SEP
  ++ (if is_exclusive then bytes_of "1" else bytes_of "0") ++ SEP
  ++ bytes_of service_name
  ++ match key with Some k => SEP ++ bytes_of k | None => [] end.

Definition generate_vqueue_id (partition_key : Z) (scope : option string) (limit_key : LimitKey)
    (is_exclusive : bool) (service_name : string) (key : option string) : VQueueId :=
  {| vq_partition_key := partition_key;
     vq_digest := take DIGEST_LEN
       (sha256 (vqueue_id_preimage partition_key scope limit_key is_exclusive
                  service_name key)) |}.

Definition infer_vqueue_id_from_invocation (partition_key : Z) (t : InvocationTarget)
    (limit_key : LimitKey) : VQueueId :=
  match t with
  | Service name _ scope => generate_vqueue_id partition_key scope limit_key false name None
  | VirtualObject name key _ VoExclusive scope =>
      generate_vqueue_id partition_key scope limit_key true name (Some key)
  | VirtualObject name _ _ VoShared scope =>
      generate_vqueue_id partition_key scope limit_key false name None
  | Workflow name _ _ _ scope =>
      generate_vqueue_id partition_key scope limit_key false name None
  end.
End vqueue_id.

(** ** Operations on a queue *)

Section operations.
Context {O A E : Type} `{!SlotKeys} (v : VCtx A).
Abbreviation vm := (sm (VState O A) E).

Definition in_cache {B} (m : sm VQueuesMetaCache E B) : vm B := λ s,
  let '(c, r) := m (v_cache s) in (mkV (v_tables s) c (v_actions s) (v_numbers s), r).
Definition tables (f : Tables O → Tables O) : vm unit := sm_modify (on_tables f).
Definition reads {B} (f : Tables O → B) : vm B := sm_gets (λ s, f (v_tables s)).

(** [if let Some(collector) = .. { collector.push(A::from(event)) }]. *)
Definition emit (h : VQueueHandle) (updates : list EventDetails) : vm unit :=
  sm_when (vc_collector v) (sm_modify (λ s, mkV (v_tables s) (v_cache s)
    (v_actions s ++ [vc_from_event v {| ve_queue := h; ve_updates := updates |}]) (v_numbers s))).

Definition queue_slot (h : VQueueHandle) : vm Slot := in_cache (slot_of h).
Definition assert_queue (h : VQueueHandle) (qid : VQueueId) : vm unit :=
  let* s := queue_slot h in assert_ (bool_decide (qid = sl_qid s)).

(** The method [update_vqueue], with the closure given to [update_meta]. *)
Definition update_vqueue (h : VQueueHandle) (u : Update) : vm unit :=
  let* s := queue_slot h in
  let* t := reads id in
  let sample := vc_full_write v (sl_qid s) (sl_meta s) u in
  let* r := sm_lift (expect (update_vqueue_row sample (sl_qid s) (sl_meta s) u t)) in
  tables (λ _, r.1.1) ;;
  in_cache (set_meta h r.1.2) ;;
  sm_when r.2 (in_cache (defer_purge h) ;; emit h [VQueuePurged]).

(** [VQueuesMetaCache::load]. *)
Definition load (qid : VQueueId) : vm (option VQueueHandle) :=
  let* cached := sm_gets (λ s, queues (v_cache s) !! qid) in
  match cached with
  | Some h => sm_ret (Some h)
  | None =>
      let* stored := reads (λ t, t_vqmeta t !! qid) in
      match stored with
      | None => sm_ret None
      | Some m => let* h := in_cache (cache_insert qid m) in sm_ret (Some h)
      end
  end.

(** [VQueue::get]. *)
Definition vqueue_get (qid : VQueueId) : vm (option VQueueHandle) := load qid.

Definition vqueue_from_invocation_target (at_ : UniqueTimestamp) (qid : VQueueId)
    (target : InvocationTarget) (limit_key : LimitKey) : vm VQueueHandle :=
  let* found := load qid in
  match found with
  | Some h => sm_ret h
  | None =>
      let link := match target_lock_name target with
                  | Some l => LinkLock l
                  | None => LinkService (service_name target)
                  end in
      let m := vqueue_meta_new at_ (target_scope target) limit_key link in
      tables (create_vqueue qid m) ;;
      in_cache (cache_insert qid m)
  end.

(** [get_or_insert_with]. *)
Definition get_or_insert_with (qid : VQueueId) (insert_fn : VQueueMeta) : vm VQueueHandle :=
  let* found := load qid in
  match found with
  | Some h => sm_ret h
  | None => tables (create_vqueue qid insert_fn) ;; in_cache (cache_insert qid insert_fn)
  end.

Definition enqueue_new (h : VQueueHandle) (created_at : UniqueTimestamp) (seq : Z)
    (run_at : option Z) (entry_id : EntryId) (metadata : EntryMetadata) : vm unit :=
  let created_at_unix := to_unix_millis created_at in
  let '(run_at, status) :=
    match run_at with
    | Some t => if created_at_unix <? t then (from_unix_millis_ceil t, SScheduled)
                else (from_unix_millis_clamped t, SNew)
    | None => (from_unix_millis_clamped created_at_unix, SNew)
    end in
  let* key := sm_lift (entry_key_new false run_at seq entry_id) in
  let stats := entry_statistics_new created_at run_at in
  update_vqueue h {| up_ts := created_at;
    up_action := ActMove None StInbox (build_move_metrics stats None) |} ;;
  let* s := queue_slot h in
  let value := {| ev_status := status; ev_stats := stats; ev_metadata := metadata |} in
  tables (put_vqueue_inbox (sl_qid s) StInbox key value) ;;
  tables (put_entry_status (sl_qid s) StInbox key value) ;;
  emit h [EnqueuedToInbox key value].

(** [update_vqueue_entry_status]: the identity of the entry cannot change. *)
Definition update_entry_status (hd : EntryStatusHeader) (st : Stage) (k : EntryKey)
    (value : EntryValue) : vm unit :=
  assert_ (bool_decide (ek_entry_id (h_entry_key hd) = ek_entry_id k)) ;;
  tables (put_entry_status (h_qid hd) st k value).

Definition run_entry (h : VQueueHandle) (at_ : UniqueTimestamp) (hd : EntryStatusHeader)
    (wait_stats : WaitStats) : vm EntryKey :=
  let qid := h_qid hd in
  assert_queue h qid ;;
  assert_ (bool_decide (h_stage hd = StInbox)) ;;
  tables (delete_vqueue_inbox qid StInbox (h_entry_key hd)) ;;
  update_vqueue h {| up_ts := at_;
    up_action := ActMove (Some StInbox) StRunning
                   (build_move_metrics (h_stats hd) (Some wait_stats)) |} ;;
  let* s := queue_slot h in
  let stats := mark_run_attempt at_ (h_stats hd) wait_stats in
  let* modified_key :=
    match vm_lock_name (sl_meta s) with
    | Some lock_name =>
        if h_has_lock hd then sm_ret (h_entry_key hd)
        else
          tables (acquire_lock (vm_scope (sl_meta s)) lock_name
            {| ls_acquired_at := at_; ls_acquired_by := acquired_by_entry (h_base_id hd) |}) ;;
          sm_ret (acquire_lock_key (h_entry_key hd))
    | None => sm_ret (h_entry_key hd)
    end in
  let new_status := if has_started hd then h_status hd else SStarted in
  let value := {| ev_status := new_status; ev_stats := stats; ev_metadata := h_metadata hd |} in
  tables (put_vqueue_inbox qid StRunning modified_key value) ;;
  update_entry_status hd StRunning modified_key value ;;
  sm_ret modified_key.

Definition wake_up (h : VQueueHandle) (at_ : UniqueTimestamp) (hd : EntryStatusHeader)
    (run_at : option RoughTimestamp) (updated_metadata : option EntryMetadata) : vm unit :=
  let qid := h_qid hd in
  assert_queue h qid ;;
  assert_ (bool_decide (h_stage hd = StPaused) || bool_decide (h_stage hd = StSuspended)) ;;
  tables (delete_vqueue_inbox qid (h_stage hd) (h_entry_key hd)) ;;
  update_vqueue h {| up_ts := at_;
    up_action := ActMove (Some (h_stage hd)) StInbox (build_move_metrics (h_stats hd) None) |} ;;
  let modified_key := set_run_at run_at (h_entry_key hd) in
  let value := {| ev_status := h_status hd; ev_stats := mark_transition at_ (h_stats hd);
                  ev_metadata := default (h_metadata hd) updated_metadata |} in
  update_entry_status hd StInbox modified_key value ;;
  tables (put_vqueue_inbox qid StInbox modified_key value) ;;
  emit h [EnqueuedToInbox modified_key value].

Definition reschedule (h : VQueueHandle) (hd : EntryStatusHeader) (run_at : RoughTimestamp)
    (pinned_deployment : option string) : vm unit :=
  let stage := h_stage hd in
  match stage with
  | StInbox | StSuspended | StPaused =>
      let qid := h_qid hd in
      assert_queue h qid ;;
      if ek_run_at (h_entry_key hd) =? run_at then sm_ret tt
      else
        tables (delete_vqueue_inbox qid stage (h_entry_key hd)) ;;
        let modified_key := set_run_at (Some run_at) (h_entry_key hd) in
        let metadata := match pinned_deployment with
                        | Some d => em_with_deployment (Some d) (h_metadata hd)
                        | None => h_metadata hd
                        end in
        let value := {| ev_status := h_status hd; ev_stats := h_stats hd;
                        ev_metadata := metadata |} in
        update_entry_status hd stage modified_key value ;;
        tables (put_vqueue_inbox qid stage modified_key value) ;;
        sm_when (bool_decide (stage = StInbox))
          (emit h [RemovedFromInbox (h_entry_key hd); EnqueuedToInbox modified_key value])
  | _ => sm_ret tt
  end.

Definition park_entry (h : VQueueHandle) (at_ : UniqueTimestamp) (hd : EntryStatusHeader)
    (next_stage : Stage) : vm unit :=
  let qid := h_qid hd in
  assert_queue h qid ;;
  assert_ (bool_decide (next_stage = StPaused) || bool_decide (next_stage = StSuspended)) ;;
  tables (delete_vqueue_inbox qid (h_stage hd) (h_entry_key hd)) ;;
  update_vqueue h {| up_ts := at_;
    up_action := ActMove (Some (h_stage hd)) next_stage
                   (build_move_metrics (h_stats hd) None) |} ;;
  let stats := if bool_decide (next_stage = StPaused) then mark_pause at_ (h_stats hd)
               else mark_suspension at_ (h_stats hd) in
  let value := {| ev_status := h_status hd; ev_stats := stats; ev_metadata := h_metadata hd |} in
  tables (put_vqueue_inbox qid next_stage (h_entry_key hd) value) ;;
  update_entry_status hd next_stage (h_entry_key hd) value ;;
  sm_when (bool_decide (h_stage hd = StInbox)) (emit h [RemovedFromInbox (h_entry_key hd)]).

Definition pause_entry (h : VQueueHandle) (at_ : UniqueTimestamp) (hd : EntryStatusHeader)
    : vm unit := park_entry h at_ hd StPaused.
Definition suspend_entry (h : VQueueHandle) (at_ : UniqueTimestamp) (hd : EntryStatusHeader)
    : vm unit := park_entry h at_ hd StSuspended.

(** The status, metadata and error flag of a yield. *)
Definition yield_outcome (hd : EntryStatusHeader) (reason : YieldReason)
    : Status * EntryMetadata * bool :=
  let m := h_metadata hd in
  match reason with
  | YieldUnknown | YieldInvokerLoadShedding | YieldPartitionLeaderChange => (SYielded, m, false)
  | YieldExhaustedMemoryBudget needed =>
      (SYielded, {| em_deployment := em_deployment m; em_needed_memory := Some needed;
                    em_retry_attempts := em_retry_attempts m;
                    em_retry_count_since_last_stored_command :=
                      em_retry_count_since_last_stored_command m |}, false)
  | YieldTransientError attempts since =>
      (SBackingOff, {| em_deployment := em_deployment m; em_needed_memory := em_needed_memory m;
                       em_retry_attempts := attempts;
                       em_retry_count_since_last_stored_command := since |}, true)
  end.

Definition yield_entry (h : VQueueHandle) (at_ : UniqueTimestamp) (hd : EntryStatusHeader)
    (run_at : option RoughTimestamp) (reason : YieldReason) : vm unit :=
  let qid := h_qid hd in
  assert_queue h qid ;;
  tables (delete_vqueue_inbox qid (h_stage hd) (h_entry_key hd)) ;;
  update_vqueue h {| up_ts := at_;
    up_action := ActMove (Some (h_stage hd)) StInbox (build_move_metrics (h_stats hd) None) |} ;;
  let modified_key := set_run_at run_at (h_entry_key hd) in
  let '(status, metadata, is_error) := yield_outcome hd reason in
  let value := {| ev_status := status; ev_stats := mark_yield at_ is_error (h_stats hd);
                  ev_metadata := metadata |} in
  update_entry_status hd StInbox modified_key value ;;
  tables (put_vqueue_inbox qid StInbox modified_key value) ;;
  emit h ((if bool_decide (h_stage hd = StInbox) then [RemovedFromInbox (h_entry_key hd)] else [])
          ++ [EnqueuedToInbox modified_key value]).

(** [VQueue::delete]; [before] is the finished state of the entry. *)
Definition vqueue_delete (h : VQueueHandle) (at_ : UniqueTimestamp) (qid : VQueueId)
    (before_stage : Stage) (entry_key : EntryKey) : vm unit :=
  assert_ (bool_decide (before_stage = StFinished)) ;;
  assert_queue h qid ;;
  tables (delete_entry_status qid entry_key) ;;
  tables (delete_vqueue_input_payload qid (ek_seq entry_key) (ek_entry_id entry_key)) ;;
  tables (delete_vqueue_inbox qid StFinished entry_key) ;;
  update_vqueue h {| up_ts := at_; up_action := ActRemoveEntry StFinished |}.

(** [VQueue::end]; durations are in milliseconds. *)
Definition vqueue_end (h : VQueueHandle) (at_ : UniqueTimestamp) (hd : EntryStatusHeader)
    (new_status : Status) (delete_after : Z) : vm unit :=
  let qid := h_qid hd in
  let* s := queue_slot h in
  assert_ (bool_decide (qid = sl_qid s)) ;;
  tables (delete_vqueue_inbox qid (h_stage hd) (h_entry_key hd)) ;;
  let* modified_key :=
    match vm_lock_name (sl_meta s) with
    | Some lock_name =>
        if h_has_lock hd then
          tables (release_lock (vm_scope (sl_meta s)) lock_name) ;;
          sm_ret (release_lock_key (h_entry_key hd))
        else sm_ret (h_entry_key hd)
    | None => sm_ret (h_entry_key hd)
    end in
  let delete_at := saturating_add u64_max (to_unix_millis at_) delete_after in
  let modified_key := set_run_at (Some (from_unix_millis_clamped delete_at)) modified_key in
  let value := {| ev_status := new_status; ev_stats := mark_transition at_ (h_stats hd);
                  ev_metadata := h_metadata hd |} in
  tables (put_vqueue_inbox qid StFinished modified_key value) ;;
  update_entry_status hd StFinished modified_key value ;;
  update_vqueue h {| up_ts := at_;
    up_action := ActMove (Some (h_stage hd)) StFinished (build_move_metrics (h_stats hd) None) |} ;;
  let* s := queue_slot h in
  let updates :=
    (match vm_lock_name (sl_meta s) with
     | Some lock => if h_has_lock hd then [LockReleased (vm_scope (sl_meta s)) lock] else []
     | None => []
     end)
    ++ (if bool_decide (h_stage hd = StInbox) then [RemovedFromInbox (h_entry_key hd)] else []) in
  match updates with [] => sm_ret tt | _ => emit h updates end ;;
  sm_when (delete_after =? 0) (vqueue_delete h at_ qid StFinished modified_key).

Definition run_then_finish (h : VQueueHandle) (at_ : UniqueTimestamp) (hd : EntryStatusHeader)
    (wait_stats : WaitStats) (status : Status) : vm unit :=
  let qid := h_qid hd in
  assert_queue h qid ;;
  assert_ (bool_decide (h_stage hd = StInbox)) ;;
  tables (delete_vqueue_inbox qid StInbox (h_entry_key hd)) ;;
  update_vqueue h {| up_ts := at_;
    up_action := ActMove (Some StInbox) StRunning
                   (build_move_metrics (h_stats hd) (Some wait_stats)) |} ;;
  let stats := mark_run_attempt at_ (h_stats hd) wait_stats in
  update_vqueue h {| up_ts := at_;
    up_action := ActMove (Some StRunning) StFinished (build_move_metrics stats None) |} ;;
  let modified_key := set_run_at (Some ROUGH_MAX) (h_entry_key hd) in
  assert_ (negb (ek_has_lock modified_key)) ;;
  let value := {| ev_status := status; ev_stats := mark_transition at_ stats;
                  ev_metadata := h_metadata hd |} in
  tables (put_vqueue_inbox qid StFinished modified_key value) ;;
  update_entry_status hd StFinished modified_key value ;;
  emit h [RemovedFromInbox (h_entry_key hd)] ;;
  vqueue_delete h at_ qid StFinished modified_key.

Definition pause_queue (h : VQueueHandle) (at_ : UniqueTimestamp) : vm unit :=
  let* s := queue_slot h in
  if vm_queue_is_paused (sl_meta s) then sm_ret tt
  else update_vqueue h {| up_ts := at_; up_action := ActPauseVQueue |} ;; emit h [QueuePaused].

Definition resume_queue (h : VQueueHandle) (at_ : UniqueTimestamp) : vm unit :=
  let* s := queue_slot h in
  if negb (vm_queue_is_paused (sl_meta s)) then sm_ret tt
  else
    update_vqueue h {| up_ts := at_; up_action := ActResumeVQueue |} ;;
    let* s := queue_slot h in
    sm_when (vm_is_active (sl_meta s)) (emit h [QueueResumed]).

Definition update_entry_metadata (hd : EntryStatusHeader) (metadata : EntryMetadata) : vm unit :=
  update_entry_status hd (h_stage hd) (h_entry_key hd)
    {| ev_status := h_status hd; ev_stats := h_stats hd; ev_metadata := metadata |}.

(** ** Migration of invocations from before virtual queues *)

(** The run time as in [enqueue_new]. *)
Definition first_run_at (created_at_unix : Z) (execution_time : option Z) : RoughTimestamp :=
  match execution_time with
  | Some t => if created_at_unix <? t then from_unix_millis_ceil t else from_unix_millis_clamped t
  | None => from_unix_millis_clamped created_at_unix
  end.

Definition pinned_metadata (p : option PinnedDeployment) : EntryMetadata :=
  match p with
  | Some pd => em_with_deployment (Some (deployment_id pd)) entry_metadata_default
  | None => entry_metadata_default
  end.

(** An entry that is added to [stage], not moved there. *)
Definition add_migrated (h : VQueueHandle) (at_ : UniqueTimestamp) (stage : Stage)
    (key : EntryKey) (value : EntryValue) : vm unit :=
  update_vqueue h {| up_ts := at_;
    up_action := ActMove None stage (build_move_metrics (ev_stats value) None) |} ;;
  let* s := queue_slot h in
  tables (put_vqueue_inbox (sl_qid s) stage key value) ;;
  tables (put_entry_status (sl_qid s) stage key value).

Definition unix_ts (ms : Z) : vm UniqueTimestamp :=
  sm_lift (expect (from_unix_millis_unchecked ms)).

(** The lock of a running or parked exclusive handler. *)
Definition migrate_lock (h : VQueueHandle) (id : InvocationId) (target : InvocationTarget)
    (acquired_at : UniqueTimestamp) : vm bool :=
  let has_lock :=
    bool_decide (invocation_target_ty target = TyVirtualObject VoExclusive) in
  let* s := queue_slot h in
  sm_when has_lock
    (let* lock_name := sm_lift (expect (vm_lock_name (sl_meta s))) in
     tables (acquire_lock None lock_name
       {| ls_acquired_at := acquired_at;
          ls_acquired_by := acquired_by_entry (base_id_of_invocation id) |})) ;;
  sm_ret has_lock.

Definition migrate_in_flight (h : VQueueHandle) (id : InvocationId)
    (m : InFlightInvocationMetadata) (stage : Stage) (paused suspensions : Z) : vm unit :=
  let ts := if_timestamps m in
  let* created_at := unix_ts (creation_time ts) in
  let* modified_at := unix_ts (modification_time ts) in
  let* ran_at := unix_ts (default (modification_time ts) (running_transition_time ts)) in
  let run_at := first_run_at (to_unix_millis created_at) (if_execution_time m) in
  let* has_lock := migrate_lock h id (if_invocation_target m) ran_at in
  let* key := sm_lift (entry_key_new has_lock run_at 0 (entry_id_of_invocation id)) in
  let s := entry_statistics_new created_at run_at in
  let stats := es_update modified_at 1 paused suspensions 0 0 None (Some modified_at)
                 (es_latest_attempt_wait_stats s) (es_total_wait_stats s) s in
  add_migrated h modified_at stage key
    {| ev_status := SStarted; ev_stats := stats;
       ev_metadata := pinned_metadata (if_pinned_deployment m) |}.

Definition migrate_invoked_invocation (h : VQueueHandle) (id : InvocationId)
    (m : InFlightInvocationMetadata) : vm unit := migrate_in_flight h id m StRunning 0 0.

Definition migrate_parked_invocation (h : VQueueHandle) (id : InvocationId)
    (m : InFlightInvocationMetadata) (stage : Stage) : vm unit :=
  if bool_decide (stage = StPaused) then migrate_in_flight h id m stage 1 0
  else migrate_in_flight h id m stage 0 1.

(** The status that a result stands for. *)
Definition migrated_status (r : ResponseResult) : Status :=
  match r with
  | ResponseSuccess _ => SSucceeded
  | ResponseFailure e =>
      if ie_code e =? codes.ABORTED then
        if bool_decide (ie_message e ∈ ["cancelled"; "Cancelled"; "canceled"; "Canceled"]%string)
        then SCancelled
        else if bool_decide (ie_message e ∈ ["killed"; "Killed"]%string) then SKilled
        else SFailed
      else SFailed
  end.

Definition migrate_completed_invocation (h : VQueueHandle) (id : InvocationId)
    (c : CompletedInvocation) : vm unit :=
  let ts := co_timestamps c in
  let* created_at := unix_ts (creation_time ts) in
  let* modified_at := unix_ts (modification_time ts) in
  let* completed_at := unix_ts (default (modification_time ts) (completed_transition_time ts)) in
  let run_at := first_run_at (to_unix_millis created_at) (co_execution_time c) in
  let delete_at :=
    saturating_add u64_max (to_unix_millis completed_at) (co_completion_retention_duration c) in
  let* key := sm_lift (entry_key_new false (from_unix_millis_clamped delete_at) 0
                         (entry_id_of_invocation id)) in
  let* latest := match running_transition_time ts with
                 | Some r => let* u := unix_ts r in sm_ret (Some u)
                 | None => sm_ret None
                 end in
  let s := entry_statistics_new created_at run_at in
  let stats := es_update modified_at 1 0 0 0 0 None latest
                 (es_latest_attempt_wait_stats s) (es_total_wait_stats s) s in
  add_migrated h completed_at StFinished key
    {| ev_status := migrated_status (co_response_result c); ev_stats := stats;
       ev_metadata := pinned_metadata (co_pinned_deployment c) |}.
End operations.
