(* ===== verification/IdText.v ===== *)
(** * Text form of identifiers

    [types/src/id_util.rs], [types/src/base62_util.rs] and the [Display] and
    [FromStr] of [InvocationId], [AwakeableIdentifier] and
    [ExternalSignalIdentifier] in [types/src/identifiers.rs].

    An id is a resource prefix, the separator [_], the version [1] and a payload.
    Integers are byte-swapped ([to_be] on a little-endian machine) and written in
    base 62 with a fixed width.  The digits come from the [base62] package and
    base64 from the [base64] package: the classes [Base62] and [Base64]. *)

From Stdlib Require Import Ascii.
From stdpp Require Import strings.
From S2P Require Import Prelude UnresolvedFuture Invocation.

Open Scope Z_scope.

Abbreviation text := (list ascii).

Definition text_of (s : string) : text := String.list_ascii_of_string s.
Definition string_of (t : text) : string := String.string_of_list_ascii t.

Inductive IdDecodeError := IdLength | IdFormat | IdUnrecognizedType | IdVersion | IdTypeMismatch | IdCodec.

Inductive Base62DecodeError := EmptyInput | OtherDecodeError.

(** [base62::encode_alternative_bytes] and [base62::decode_alternative]. *)
Class Base62 := {
  encode_alternative : Z → text;
  decode_alternative : text → res Base62DecodeError Z }.

Definition zero_char : ascii := "0"%char.

(** What the package documents of them: the shortest representation, with its
    inverse, and an error for the empty string. *)
Class Base62Laws `{!Base62} : Prop := {
  encode_length n : 0 < n ≤ u128_max →
    62 ^ (Z.of_nat (List.length (encode_alternative n)) - 1) ≤ n
    < 62 ^ Z.of_nat (List.length (encode_alternative n));
  encode_zero : encode_alternative 0 = [zero_char];
  encode_no_leading_zero n : 0 < n ≤ u128_max →
    hd zero_char (encode_alternative n) ≠ zero_char;
  decode_encode n : 0 ≤ n ≤ u128_max → decode_alternative (encode_alternative n) = Ok n;
  decode_empty : decode_alternative [] = Err EmptyInput;
  encode_ascii n : Forall (λ c, (N_of_ascii c < 128)%N) (encode_alternative n) }.

(** [restate_base64_util::URL_SAFE]: bytes that a text decodes to. *)
Class Base64 := { base64_decode : text → option (list Z) }.

(** ** Resource types *)

Inductive IdResourceType :=
| RtInvocation | RtDeployment | RtSubscription | RtAwakeable | RtSignal | RtSnapshot
| RtStateMutation | RtVQueue.

#[export] Instance IdResourceType_eq_dec : EqDecision IdResourceType.
Proof. solve_decision. Defined.

Definition resource_types : list IdResourceType :=
  [RtInvocation; RtDeployment; RtSubscription; RtAwakeable; RtSignal; RtSnapshot;
   RtStateMutation; RtVQueue].

Definition resource_prefix (r : IdResourceType) : string :=
  match r with
  | RtInvocation => "inv" | RtDeployment => "dp" | RtSubscription => "sub"
  | RtAwakeable => "prom" | RtSignal => "sign" | RtSnapshot => "snap"
  | RtStateMutation => "mut" | RtVQueue => "vq"
  end.

Record IdStrCursor := { cur_inner : text; cur_offset : nat }.

(** ** Base 62 with a fixed width *)

Definition base62_max_length (bytes : Z) : nat := Z.to_nat (div_ceil (bytes * 8) 6).

(** [THRESHOLDS]: the largest number with [i] digits; the last is [u128::MAX]. *)
Definition threshold (i : Z) : Z := if i =? 22 then u128_max else 62 ^ i - 1.

Definition digit_count (n : Z) : Z :=
  if n =? 0 then 1
  else
    let estimate := Z.shiftr (Z.log2 n * 43) 8 + 1 in
    estimate + (if threshold estimate <? n then 1 else 0).

(** [to_be] of an integer of the given size on a little-endian machine. *)
Definition swap_bytes (bytes : nat) (x : Z) : Z := from_be_bytes (to_le_bytes bytes x).

Section codec.
Context `{!Base62}.

(** The buffer is filled with ['0']; [None] is the panic of a buffer slice
    that is too short for the digits. *)
Definition base62_encode_fixed_width (bytes : nat) (x : Z) : option text :=
  let width := base62_max_length (Z.of_nat bytes) in
  let i := swap_bytes bytes x in
  let digits := Z.to_nat (digit_count i) in
  let e := encode_alternative i in
  if bool_decide (List.length e ≤ digits ≤ width)%nat
  then Some (repeat zero_char (width - digits) ++ e
             ++ repeat zero_char (digits - List.length e))
  else None.

(** ** Cursor and decoder *)

Definition is_continuation (c : ascii) : bool :=
  (128 <=? N_of_ascii c)%N && (N_of_ascii c <? 192)%N.

(** [str::is_char_boundary] of a string of valid UTF-8. *)
Definition is_char_boundary (s : text) (i : nat) : bool :=
  match drop i s with
  | [] => bool_decide (i = List.length s)
  | c :: _ => negb (is_continuation c)
  end.

(** [s.get(offset..offset + len)]. *)
Definition str_get (s : text) (offset len : nat) : option text :=
  if bool_decide (offset + len ≤ List.length s)%nat && is_char_boundary s offset
     && is_char_boundary s (offset + len)
  then Some (take len (drop offset s)) else None.

Fixpoint trim_zeros (s : text) : text :=
  match s with
  | c :: s' => if bool_decide (c = zero_char) then trim_zeros s' else s
  | [] => []
  end.

Definition decode_next (bytes : nat) (c : IdStrCursor) : res IdDecodeError (Z * IdStrCursor) :=
  let size := base62_max_length (Z.of_nat bytes) in
  match str_get (cur_inner c) (cur_offset c) size with
  | None => Err IdLength
  | Some s =>
      let decoded := match decode_alternative (trim_zeros s) with
                     | Ok n => Ok n
                     | Err EmptyInput => Ok 0
                     | Err OtherDecodeError => Err IdCodec
                     | Panic => Panic
                     end in
      let? n := decoded in
      if n <=? 256 ^ Z.of_nat bytes - 1
      then Ok (swap_bytes bytes n,
               {| cur_inner := cur_inner c; cur_offset := cur_offset c + size |})
      else Err IdCodec
  end.

Definition next_str_exact (len : nat) (c : IdStrCursor) : res IdDecodeError (text * IdStrCursor) :=
  match str_get (cur_inner c) (cur_offset c) len with
  | None => Err IdLength
  | Some s => Ok (s, {| cur_inner := cur_inner c; cur_offset := cur_offset c + len |})
  end.

Definition cur_remaining (c : IdStrCursor) : nat := List.length (cur_inner c) - cur_offset c.

Definition parse_resource_type (t : text) : option IdResourceType :=
  list_find (λ r, text_of (resource_prefix r) = t) resource_types ≫= λ p, Some p.2.

(** [str::split_once('_')]. *)
Fixpoint split_once (s : text) : option (text * text) :=
  match s with
  | [] => None
  | c :: s' => if bool_decide (c = "_"%char) then Some ([], s')
               else let! p := split_once s' in Some (c :: p.1, p.2)
  end.

(** [IdDecoder::new]. *)
Definition id_decoder_new (input : text) : res IdDecodeError (IdResourceType * IdStrCursor) :=
  match input with
  | [] => Err IdLength
  | _ =>
      match split_once input with
      | None => Err IdFormat
      | Some (prefix, id_part) =>
          match parse_resource_type prefix with
          | None => Err IdUnrecognizedType
          | Some r =>
              let? v := next_str_exact 1 {| cur_inner := id_part; cur_offset := 0 |} in
              if bool_decide (v.1 = text_of "1") then Ok (r, v.2) else Err IdVersion
          end
      end
  end.

(** [IdEncoder::new]: prefix, separator and version. *)
Definition id_encoder_new (r : IdResourceType) : text :=
  text_of (resource_prefix r) ++ text_of "_1".

(** ** Invocation ids *)

Definition invocation_id_text (id : InvocationId) : option text :=
  let! pk := base62_encode_fixed_width 8 (inv_partition_key id) in
  let! uuid := base62_encode_fixed_width 16 (inv_uuid id) in
  Some (id_encoder_new RtInvocation ++ pk ++ uuid).

Definition invocation_id_parse (input : text) : res IdDecodeError InvocationId :=
  let? d := id_decoder_new input in
  if negb (bool_decide (d.1 = RtInvocation)) then Err IdTypeMismatch
  else
    let? pk := decode_next 8 d.2 in
    let? uuid := decode_next 16 pk.2 in
    if negb (bool_decide (cur_remaining uuid.2 = 0%nat)) then Err IdLength
    else Ok {| inv_partition_key := pk.1; inv_uuid := uuid.1 |}.

(** ** Awakeable and signal ids: base64 of the invocation id and an index *)

Definition id_from_slice (bs : list Z) : InvocationId :=
  {| inv_partition_key := from_be_bytes (take 8 bs);
     inv_uuid := from_be_bytes (take 16 (drop 8 bs)) |}.

Definition indexed_id_parse `{!Base64} (r : IdResourceType) (input : text)
    : res IdDecodeError (InvocationId * Z) :=
  let? d := id_decoder_new input in
  if negb (bool_decide (d.1 = r)) then Err IdTypeMismatch
  else
    (** [take_remaining]: the offset is on a boundary *)
    match base64_decode (drop (cur_offset d.2) (cur_inner d.2)) with
    | None => Err IdCodec
    | Some bs =>
        if negb (bool_decide (List.length bs = 28%nat)) then Err IdLength
        else Ok (id_from_slice (take 24 bs), from_be_bytes (drop 24 bs))
    end.

Definition awakeable_identifier_parse `{!Base64} := indexed_id_parse RtAwakeable.
Definition external_signal_identifier_parse `{!Base64} := indexed_id_parse RtSignal.
End codec.

(** ** Bytes *)

Definition byte_list (bs : list Z) : Prop := Forall (λ b, 0 ≤ b < 256) bs.

Lemma byte_list_snoc bs b : byte_list (bs ++ [b]) → byte_list bs ∧ 0 ≤ b < 256.
Proof. unfold byte_list. rewrite Forall_app, Forall_singleton. done. Qed.

Lemma to_le_bytes_length n x : List.length (to_le_bytes n x) = n.
Proof. revert x. induction n as [|n IH]; intros x; simpl; [done|]. by rewrite IH. Qed.

Lemma to_le_bytes_bytes n x : byte_list (to_le_bytes n x).
Proof.
  revert x. induction n as [|n IH]; intros x; simpl; [by constructor|].
  constructor; [|apply IH]. apply Z.mod_pos_bound. lia.
Qed.

Lemma from_be_bytes_snoc bs b : from_be_bytes (bs ++ [b]) = from_be_bytes bs * 256 + b.
Proof. unfold from_be_bytes. by rewrite foldl_app. Qed.

Lemma pow256_succ n : 256 ^ Z.of_nat (S n) = 256 ^ Z.of_nat n * 256.
Proof. rewrite Nat2Z.inj_succ, Z.pow_succ_r; lia. Qed.

Lemma from_be_bytes_bound bs :
  byte_list bs → 0 ≤ from_be_bytes bs < 256 ^ Z.of_nat (List.length bs).
Proof.
  induction bs as [|b bs IH] using rev_ind; intros H; [done|].
  apply byte_list_snoc in H as [H1 H2]. specialize (IH H1).
  rewrite from_be_bytes_snoc, length_app. simpl List.length. rewrite Nat.add_1_r, pow256_succ.
  lia.
Qed.

(** Reading back the little-endian bytes in the reverse order. *)
Lemma from_be_bytes_rev_to_le n x :
  0 ≤ x < 256 ^ Z.of_nat n → from_be_bytes (rev (to_le_bytes n x)) = x.
Proof.
  revert x. induction n as [|n IH]; intros x Hx; cbn [to_le_bytes rev].
  - change (256 ^ Z.of_nat 0) with 1 in Hx. change (0 = x). lia.
  - rewrite pow256_succ in Hx. rewrite from_be_bytes_snoc, IH.
    + pose proof (Z.div_mod x 256). lia.
    + split; [apply Z.div_pos; lia|]. apply Z.div_lt_upper_bound; lia.
Qed.

Lemma to_le_bytes_from_be bs :
  byte_list bs → to_le_bytes (List.length bs) (from_be_bytes bs) = rev bs.
Proof.
  induction bs as [|b bs IH] using rev_ind; intros H; [done|].
  apply byte_list_snoc in H as [H1 H2].
  rewrite length_app, Nat.add_comm, rev_app_distr. simpl. rewrite from_be_bytes_snoc.
  replace (from_be_bytes bs * 256 + b) with (b + from_be_bytes bs * 256) by lia.
  rewrite Z.mod_add, Z.div_add, Z.mod_small, Z.div_small, Z.add_0_l by lia. by rewrite IH.
Qed.

Lemma swap_bytes_bound n x : 0 ≤ swap_bytes n x < 256 ^ Z.of_nat n.
Proof.
  pose proof (from_be_bytes_bound (to_le_bytes n x) (to_le_bytes_bytes n x)) as H.
  by rewrite to_le_bytes_length in H.
Qed.

Lemma swap_bytes_involutive n x : 0 ≤ x < 256 ^ Z.of_nat n → swap_bytes n (swap_bytes n x) = x.
Proof.
  intros Hx. unfold swap_bytes.
  pose proof (to_le_bytes_from_be (to_le_bytes n x) (to_le_bytes_bytes n x)) as H.
  rewrite to_le_bytes_length in H. rewrite H. by apply from_be_bytes_rev_to_le.
Qed.

(** ** The number of digits *)

(** The estimate from the binary logarithm is right or one too small. *)
Definition estimate_ok (l : Z) : bool :=
  let e := Z.shiftr (l * 43) 8 + 1 in
  (1 <=? e) && (e <=? 22) && (62 ^ (e - 1) <=? 2 ^ l) && (2 ^ (l + 1) <=? 62 ^ (e + 1)).

Lemma estimate_ok_all l : 0 ≤ l ≤ 127 → estimate_ok l = true.
Proof.
  intros Hl. assert (forallb estimate_ok (seqZ 0 128) = true) as H by (vm_compute; reflexivity).
  rewrite forallb_forall in H. apply H, list_elem_of_In, elem_of_seqZ. lia.
Qed.

Lemma digit_count_exact n :
  0 < n ≤ u128_max → 1 ≤ digit_count n ∧ 62 ^ (digit_count n - 1) ≤ n < 62 ^ digit_count n.
Proof.
  intros Hn. unfold digit_count. destruct (Z.eqb_spec n 0); [lia|].
  pose proof (Z.log2_spec n) as Hlog. rewrite <- Z.add_1_r in Hlog.
  assert (Z.log2 n ≤ 127) as Hl.
  { pose proof (Z.log2_le_mono n u128_max). change (Z.log2 u128_max) with 127 in *. lia. }
  pose proof (estimate_ok_all (Z.log2 n)) as He. unfold estimate_ok in He.
  pose proof (Z.log2_nonneg n). specialize (He ltac:(lia)).
  set (e := Z.shiftr (Z.log2 n * 43) 8 + 1) in *.
  apply andb_prop in He as [He H4]. apply andb_prop in He as [He H3].
  apply andb_prop in He as [H1 H2]. bool_to_prop.
  unfold threshold. destruct (Z.eqb_spec e 22) as [->|].
  - replace (u128_max <? n) with false by lia. change (62 ^ (22 + 0)) with (62 ^ 22).
    change (62 ^ 22) with 2707803647802660400290261537185326956544. simpl (22 + 0 - 1). lia.
  - destruct (Z.ltb_spec (62 ^ e - 1) n); rewrite ?Z.add_0_r, ?Z.add_simpl_r; lia.
Qed.

Lemma digits_unique a b n :
  1 ≤ a → 1 ≤ b → 62 ^ (a - 1) ≤ n < 62 ^ a → 62 ^ (b - 1) ≤ n < 62 ^ b → a = b.
Proof.
  intros Ha Hb H1 H2. destruct (Z.lt_trichotomy a b) as [Hlt|[->|Hgt]]; [|done|].
  - pose proof (Z.pow_le_mono_r 62 a (b - 1)). lia.
  - pose proof (Z.pow_le_mono_r 62 b (a - 1)). lia.
Qed.

Definition ascii_text (t : text) : Prop := Forall (λ c, (N_of_ascii c < 128)%N) t.

Lemma ascii_text_app a b : ascii_text (a ++ b) ↔ ascii_text a ∧ ascii_text b.
Proof. apply Forall_app. Qed.

Lemma is_char_boundary_ascii t i : ascii_text t → (i ≤ List.length t)%nat → is_char_boundary t i = true.
Proof.
  intros Ht Hi. unfold is_char_boundary. destruct (drop i t) as [|c l] eqn:E.
  - apply bool_decide_eq_true. apply (f_equal List.length) in E. rewrite length_drop in E.
    simpl in E. lia.
  - assert (N_of_ascii c < 128)%N.
    { apply (Forall_drop _ i) in Ht. rewrite E in Ht. by inversion Ht. }
    unfold is_continuation. apply negb_true_iff, andb_false_iff. left. by apply N.leb_gt.
Qed.

(** ** Round trip *)

(** The sizes for which the width is enough: [u64] and [u128]. *)
Definition fits (bytes : nat) : Prop :=
  (1 ≤ base62_max_length (Z.of_nat bytes))%nat
  ∧ 256 ^ Z.of_nat bytes - 1 ≤ u128_max
  ∧ 256 ^ Z.of_nat bytes ≤ 62 ^ Z.of_nat (base62_max_length (Z.of_nat bytes)).

Lemma fits_8 : fits 8.
Proof. repeat split; [vm_compute; lia|vm_compute; congruence..]. Qed.
Lemma fits_16 : fits 16.
Proof. repeat split; [vm_compute; lia|vm_compute; congruence..]. Qed.

Section roundtrip.
Context `{!Base62, !Base62Laws}.

Lemma encode_digit_count n :
  0 ≤ n ≤ u128_max → Z.of_nat (List.length (encode_alternative n)) = digit_count n.
Proof.
  intros Hn. destruct (decide (n = 0)) as [->|].
  - by rewrite encode_zero.
  - pose proof (encode_length n ltac:(lia)) as He.
    destruct (digit_count_exact n) as [H1 Hd]; [lia|].
    eapply digits_unique; [|exact H1|exact He|exact Hd].
    destruct (encode_alternative n); simpl in *; [|lia].
    change (62 ^ Z.of_nat 0) with 1 in He. lia.
Qed.

Lemma digit_count_width bytes n :
  fits bytes → 0 ≤ n < 256 ^ Z.of_nat bytes →
  digit_count n ≤ Z.of_nat (base62_max_length (Z.of_nat bytes)).
Proof.
  intros (H1 & Hm & Hw) Hn. destruct (decide (n = 0)) as [->|].
  - change (digit_count 0) with 1. lia.
  - set (w := Z.of_nat (base62_max_length (Z.of_nat bytes))) in *.
    destruct (digit_count_exact n) as [_ [Hlo _]]; [lia|].
    destruct (Z.le_gt_cases (digit_count n) w); [done|].
    pose proof (Z.pow_le_mono_r 62 w (digit_count n - 1)). lia.
Qed.

Lemma trim_zeros_repeat k t : trim_zeros (repeat zero_char k ++ t) = trim_zeros t.
Proof. induction k; simpl; [done|]. done. Qed.

Lemma trim_zeros_hd t : hd zero_char t ≠ zero_char → trim_zeros t = t.
Proof. destruct t as [|c t]; simpl; [done|]. intros. by rewrite bool_decide_eq_false_2. Qed.

(** The text of an integer, and what decoding its trimmed form gives. *)
Lemma fixed_width_ok bytes x :
  fits bytes → 0 ≤ x < 256 ^ Z.of_nat bytes →
  ∃ t, base62_encode_fixed_width bytes x = Some t
       ∧ List.length t = base62_max_length (Z.of_nat bytes)
       ∧ ascii_text t
       ∧ ∀ rest off, ascii_text rest → ascii_text off →
           decode_next bytes {| cur_inner := off ++ t ++ rest; cur_offset := List.length off |}
           = Ok (x, {| cur_inner := off ++ t ++ rest;
                       cur_offset := List.length (off ++ t) |}).
Proof.
  intros Hf Hx. set (i := swap_bytes bytes x).
  pose proof (swap_bytes_bound bytes x) as Hi. fold i in Hi.
  assert (0 ≤ i ≤ u128_max) as Hi' by (destruct Hf as (_ & ? & _); lia).
  pose proof (encode_digit_count i Hi') as Hd.
  pose proof (digit_count_width bytes i Hf Hi) as Hw.
  unfold base62_encode_fixed_width. fold i. rewrite <- Hd, Nat2Z.id.
  set (w := base62_max_length (Z.of_nat bytes)) in *. set (e := encode_alternative i) in *.
  rewrite bool_decide_eq_true_2 by lia. rewrite Nat.sub_diag. simpl. rewrite app_nil_r.
  set (t := repeat zero_char (w - List.length e) ++ e).
  assert (List.length t = w) as Ht by (unfold t; rewrite length_app, repeat_length; lia).
  assert (ascii_text t) as Ha.
  { apply Forall_app. split; [|apply encode_ascii]. apply Forall_forall.
    intros c Hc%list_elem_of_In%repeat_spec. by subst. }
  exists t. split_and!; [done..|]. intros rest off Hr Ho.
  assert (ascii_text (off ++ t ++ rest)) as Hall by (by rewrite !ascii_text_app).
  unfold decode_next, str_get. simpl. fold w.
  rewrite bool_decide_eq_true_2 by (rewrite !length_app; lia).
  rewrite !is_char_boundary_ascii by (first [done | rewrite !length_app; lia]). simpl.
  rewrite drop_app_length, <- Ht, take_app_length. unfold t at 1. rewrite trim_zeros_repeat.
  replace (match decode_alternative (trim_zeros e) with
           | Ok n => Ok n | Err EmptyInput => Ok 0 | Err OtherDecodeError => Err IdCodec
           | Panic => Panic end) with (@Ok IdDecodeError Z i).
  - simpl. replace (i <=? 256 ^ Z.of_nat bytes - 1) with true by lia.
    unfold i. rewrite swap_bytes_involutive by done. by rewrite length_app, Ht.
  - destruct (decide (i = 0)) as [E|].
    + unfold e. rewrite E, encode_zero. simpl. by rewrite decode_empty.
    + rewrite trim_zeros_hd by (apply encode_no_leading_zero; lia).
      unfold e. by rewrite decode_encode.
Qed.

Lemma id_decoder_new_ok rest :
  ascii_text rest →
  id_decoder_new (id_encoder_new RtInvocation ++ rest)
  = Ok (RtInvocation, {| cur_inner := text_of "1" ++ rest; cur_offset := 1 |}).
Proof.
  intros Hr. assert (ascii_text ("1"%char :: rest)) by (by constructor).
  assert (next_str_exact 1 {| cur_inner := "1"%char :: rest; cur_offset := 0 |}
          = Ok (text_of "1", {| cur_inner := "1"%char :: rest; cur_offset := 1 |})) as E.
  { unfold next_str_exact, str_get. cbn [cur_inner cur_offset].
    rewrite !is_char_boundary_ascii by (first [done | simpl; lia]).
    rewrite bool_decide_eq_true_2 by (simpl; lia). done. }
  assert (split_once (id_encoder_new RtInvocation ++ rest)
          = Some (text_of "inv", "1"%char :: rest)) as E1 by done.
  assert (parse_resource_type (text_of "inv") = Some RtInvocation) as E2 by done.
  unfold id_decoder_new. by rewrite E1, E2, E.
Qed.

(** The text of an id parses to the id. *)
Lemma invocation_id_parses id :
  in_u64 (inv_partition_key id) → in_u128 (inv_uuid id) →
  ∃ t, invocation_id_text id = Some t ∧ List.length t = 38%nat ∧ invocation_id_parse t = Ok id.
Proof.
  intros Hpk Hu. unfold in_u in *.
  destruct (fixed_width_ok 8 (inv_partition_key id)) as (t1 & E1 & L1 & A1 & D1);
    [apply fits_8|change (256 ^ Z.of_nat 8) with (u64_max + 1); lia|].
  destruct (fixed_width_ok 16 (inv_uuid id)) as (t2 & E2 & L2 & A2 & D2);
    [apply fits_16|change (256 ^ Z.of_nat 16) with (u128_max + 1); lia|].
  change (base62_max_length (Z.of_nat 8)) with 11%nat in L1.
  change (base62_max_length (Z.of_nat 16)) with 22%nat in L2.
  exists (id_encoder_new RtInvocation ++ t1 ++ t2).
  split; [unfold invocation_id_text; by rewrite E1, E2|].
  split; [by rewrite !length_app, L1, L2|].
  assert (ascii_text (text_of "1")) as A0 by (repeat constructor).
  unfold invocation_id_parse. rewrite id_decoder_new_ok by (by rewrite ascii_text_app).
  cbn [res_bind fst snd]. rewrite bool_decide_eq_true_2 by done. cbn [negb].
  specialize (D1 t2 (text_of "1") A2 A0). simpl (List.length (text_of "1")) in D1.
  rewrite D1. cbn [res_bind fst snd].
  specialize (D2 [] (text_of "1" ++ t1)). rewrite app_nil_r, <- !app_assoc in D2.
  rewrite D2 by (first [by constructor | by rewrite ascii_text_app]). cbn [res_bind fst snd].
  unfold cur_remaining. simpl cur_inner. simpl cur_offset. rewrite Nat.sub_diag. simpl.
  by destruct id.
Qed.
End roundtrip.

(** ** Digits for [Base62], with the alphabet of the package *)

Definition alphabet : list ascii :=
  text_of "0123456789abcdefghijklmnopqrstuvwxyzABCDEFGHIJKLMNOPQRSTUVWXYZ".

Definition digit (n : Z) : ascii := nth (Z.to_nat n) alphabet zero_char.
Fixpoint index_of (c : ascii) (l : list ascii) : option Z :=
  match l with
  | [] => None
  | x :: l => if Ascii.eqb c x then Some 0 else (λ n, n + 1) <$> index_of c l
  end.

Fixpoint digits (fuel : nat) (n : Z) : text :=
  match fuel with
  | O => []
  | S fuel => if n =? 0 then [] else digits fuel (n / 62) ++ [digit (n mod 62)]
  end.

Fixpoint undigits (acc : Z) (t : text) : option Z :=
  match t with
  | [] => Some acc
  | c :: t => let! d := index_of c alphabet in undigits (acc * 62 + d) t
  end.

Arguments index_of : simpl never.
Arguments digit : simpl never.

Definition demo_base62 : Base62 := {|
  encode_alternative n := if n =? 0 then [zero_char] else digits 22 n;
  decode_alternative t :=
    match t with
    | [] => Err EmptyInput
    | _ => match undigits 0 t with Some n => Ok n | None => Err OtherDecodeError end
    end |}.

Lemma digit_range (P : Z → Prop) :
  Forall P (seqZ 0 62) → ∀ n, 0 ≤ n < 62 → P n.
Proof. intros HP n Hn. rewrite Forall_forall in HP. apply HP, elem_of_seqZ. lia. Qed.

Lemma index_of_digit n : 0 ≤ n < 62 → index_of (digit n) alphabet = Some n.
Proof.
  apply (digit_range (λ n, index_of (digit n) alphabet = Some n)).
  apply (bool_decide_unpack _). vm_compute. exact I.
Qed.
Lemma digit_zero n : 0 ≤ n < 62 → digit n = zero_char → n = 0.
Proof.
  apply (digit_range (λ n, digit n = zero_char → n = 0)). vm_compute. repeat constructor; done.
Qed.
Lemma digit_ascii n : (N_of_ascii (digit n) < 128)%N.
Proof.
  unfold digit. destruct (nth_in_or_default (Z.to_nat n) alphabet zero_char) as [Hin| ->]; [|done].
  assert (Forall (λ c, (N_of_ascii c < 128)%N) alphabet) as Hf by (repeat constructor).
  rewrite Forall_forall in Hf. by apply Hf, list_elem_of_In.
Qed.

Lemma undigits_app a t1 t2 : undigits a (t1 ++ t2) = (let! b := undigits a t1 in undigits b t2).
Proof.
  revert a. induction t1 as [|c t1 IH]; intros a; simpl; [done|].
  destruct (index_of c alphabet); simpl; [apply IH|done].
Qed.

Lemma digits_ok fuel n :
  0 < n < 62 ^ Z.of_nat fuel →
  digits fuel n ≠ [] ∧ hd zero_char (digits fuel n) ≠ zero_char ∧ undigits 0 (digits fuel n) = Some n ∧
  62 ^ (Z.of_nat (List.length (digits fuel n)) - 1) ≤ n < 62 ^ Z.of_nat (List.length (digits fuel n)).
Proof.
  revert n. induction fuel as [|fuel IH]; intros n Hn; [simpl in Hn; lia|].
  rewrite Nat2Z.inj_succ, Z.pow_succ_r in Hn by lia. simpl digits.
  destruct (Z.eqb_spec n 0); [lia|].
  pose proof (Z.div_mod n 62 ltac:(done)) as Hd. pose proof (Z.mod_pos_bound n 62 ltac:(done)) as Hm.
  destruct (decide (n / 62 = 0)) as [E|E].
  - assert (digits fuel (n / 62) = []) as -> by (rewrite E; by destruct fuel). simpl.
    split_and!; try done.
    + intros H0%digit_zero; lia.
    + rewrite index_of_digit by done. simpl. f_equal. lia.
    + lia.
    + lia.
  - assert (0 < n / 62 < 62 ^ Z.of_nat fuel) as Hr by (split; [|apply Z.div_lt_upper_bound]; lia).
    destruct (IH _ Hr) as (H1 & H2 & H3 & H4 & H5). set (l := digits fuel (n / 62)) in *.
    split_and!.
    + by destruct l.
    + by destruct l.
    + rewrite undigits_app, H3. simpl. rewrite index_of_digit by done. simpl. f_equal. lia.
    + assert (62 ^ (Z.of_nat (List.length (l ++ [digit (n mod 62)])) - 1)
              = 62 * 62 ^ (Z.of_nat (List.length l) - 1)) as ->; [|nia].
      assert (0 < List.length l)%nat by (destruct l; [done|apply Nat.lt_0_succ]).
      rewrite length_app, <- Z.pow_succ_r by lia. f_equal. cbn [List.length]. lia.
    + rewrite length_app, Nat2Z.inj_add, Z.pow_add_r by lia. cbn [List.length].
      change (62 ^ Z.of_nat 1) with 62. nia.
Qed.

Lemma digits_forall fuel n : Forall (λ c, (N_of_ascii c < 128)%N) (digits fuel n).
Proof.
  revert n. induction fuel as [|fuel IH]; intros n; simpl; [constructor|].
  destruct (n =? 0); [constructor|]. apply Forall_app. split; [apply IH|].
  apply Forall_singleton, digit_ascii.
Qed.

Arguments digits : simpl never.

Lemma demo_base62_laws : @Base62Laws demo_base62.
Proof.
  assert (∀ n, 0 < n ≤ u128_max → 0 < n < 62 ^ Z.of_nat 22) as Hb.
  { intros n Hn. split; [lia|]. eapply Z.le_lt_trans; [apply Hn|]. by vm_compute. }
  constructor; cbn [encode_alternative decode_alternative demo_base62].
  - intros n Hn. destruct (Z.eqb_spec n 0); [lia|]. by apply digits_ok, Hb.
  - done.
  - intros n Hn. destruct (Z.eqb_spec n 0); [lia|]. by apply digits_ok, Hb.
  - intros n Hn. destruct (Z.eqb_spec n 0) as [->|]; [done|].
    destruct (digits_ok 22 n) as (H1 & _ & H3 & _); [apply Hb; lia|].
    destruct (digits 22 n) eqn:E; [done|]. by rewrite H3.
  - done.
  - intros n. destruct (n =? 0); [by repeat constructor|apply digits_forall].
Qed.

(** ** The theorem *)

(** C19: the text form of an invocation id, 38 characters, is one from which
    [FromStr] recovers the id, whatever the digits package does within its
    documentation: padding, byte order and the estimated digit counts included; so two
    ids never have the same text. *)
Theorem invocation_id_roundtrip (B62 : Base62) (id : InvocationId) :
  @Base62Laws B62 → in_u64 (inv_partition_key id) → in_u128 (inv_uuid id) →
  ∃ t, invocation_id_text id = Some t ∧ List.length t = 38%nat ∧ invocation_id_parse t = Ok id ∧
    ∀ id', in_u64 (inv_partition_key id') → in_u128 (inv_uuid id') →
      invocation_id_text id' = Some t → id' = id.
Proof.
  intros HB Hp Hu. destruct (invocation_id_parses id Hp Hu) as (t & E & L & P).
  exists t. split_and!; [done..|]. intros id' Hp' Hu' E'.
  destruct (invocation_id_parses id' Hp' Hu') as (t' & Et & _ & P'). congruence.
Qed.

Lemma invocation_id_roundtrip_witness :
  let id := {| inv_partition_key := u64_max; inv_uuid := 62 |} in
  ∃ t, @invocation_id_text demo_base62 id = Some t ∧
    string_of t = "inv_1lYGhA16ahyf1SZwviYzes2mjOamuMJWw0" ∧ @invocation_id_parse demo_base62 t = Ok id.
Proof.
  intros id. destruct (invocation_id_roundtrip demo_base62 id demo_base62_laws) as (t & E & L & P & _);
    [unfold in_u; simpl; lia..|].
  exists t. split_and!; [done| |done]. vm_compute in E. injection E as <-. vm_compute. reflexivity.
Defined.
