(* ===== verification/LogStoreFormat.v ===== *)
(** * LogStoreFormat: keys and values of the log server's store

    Models the keys of rocksdb_logstore/keys.rs and the record layout of
    record_format.rs (crates/log-server): the rows that LogServer.v reads as a finite
    map from offsets to records, in the order of the offsets. *)

From Stdlib Require Import Ascii.
From stdpp Require Import strings gmap sorting.
From S2P Require Import Prelude Clock LogTypes Invocation IdText LogServer.

Open Scope Z_scope.

(** ** Buffers *)

(** A [get] on a buffer that is too short panics. *)
Inductive RecordDecodeError :=
| UnsupportedFormatVersion (b : Z)
| InvalidRecordTimestamp (e : ClockError)
| UnsupportedKeyStyle (b : Z).

Definition get_bytes (n : nat) (buf : list Z) : res RecordDecodeError (list Z * list Z) :=
  if bool_decide (n ≤ List.length buf)%nat then Ok (take n buf, drop n buf) else Panic.
Definition get_uint (n : nat) (buf : list Z) : res RecordDecodeError (Z * list Z) :=
  let? p := get_bytes n buf in Ok (from_be_bytes p.1, p.2).
Definition get_uint_le (n : nat) (buf : list Z) : res RecordDecodeError (Z * list Z) :=
  let? p := get_bytes n buf in Ok (from_be_bytes (rev p.1), p.2).
Definition put_uint (n : nat) (x : Z) : list Z := rev (to_le_bytes n x).
Definition put_uint_le (n : nat) (x : Z) : list Z := to_le_bytes n x.

(** The bytes of a payload. *)
Definition body_bytes (s : string) : list Z := (λ c, Z.of_N (N_of_ascii c)) <$> String.list_ascii_of_string s.
Definition body_of_bytes (bs : list Z) : string :=
  String.string_of_list_ascii ((λ b, ascii_of_N (Z.to_N b)) <$> bs).

(** ** Records *)

Definition RecordFormat_CustomV1 : Z := 1.
Definition RecordFlags_HlcTimestamp : Z := 1.
Definition RecordFlags_ExtendedHeader : Z := 2.
Definition record_flags_contains (flags flag : Z) : bool := Z.land flags flag =? flag.

Definition read_format (buf : list Z) : res RecordDecodeError (list Z) :=
  let? p := get_uint 1 buf in
  if p.1 =? RecordFormat_CustomV1 then Ok p.2 else Err (UnsupportedFormatVersion p.1).

(** [KeyStyle]: none, one key, two keys, a range. *)
Definition read_keys (buf : list Z) : res RecordDecodeError (Keys * list Z) :=
  let? p := get_uint 1 buf in
  if p.1 =? 0 then Ok (KeysNone, p.2)
  else if p.1 =? 1 then let? k := get_uint_le 8 p.2 in Ok (KeysSingle k.1, k.2)
  else if p.1 =? 2 then
    let? k1 := get_uint_le 8 p.2 in let? k2 := get_uint_le 8 k1.2 in Ok (KeysPair k1.1 k2.1, k2.2)
  else if p.1 =? 3 then
    let? k1 := get_uint_le 8 p.2 in let? k2 := get_uint_le 8 k1.2 in Ok (KeysRangeInclusive k1.1 k2.1, k2.2)
  else Err (UnsupportedKeyStyle p.1).

(** [NanosSinceEpoch::new] and [as_u64]: the largest number is not representable. *)
Definition nanos_new (n : Z) : Z := saturating_add u64_max n 1 - 1.

Definition read_flags_and_created_at (buf : list Z) : res RecordDecodeError ((Z * Z) * list Z) :=
  let? f := get_uint_le 2 buf in
  let? t := get_uint_le 8 f.2 in
  if record_flags_contains f.1 RecordFlags_HlcTimestamp
  then match ut_try_from_u64 t.1 with
       | Ok ts => Ok ((f.1, nanos_new (to_unix_millis ts * 1000000)), t.2)
       | Err e => Err (InvalidRecordTimestamp e)
       | Panic => Panic
       end
  else Ok ((f.1, nanos_new t.1), t.2).

Record DataRecordDecoder := mkDecoder { dd_keys : Keys; dd_buffer : list Z }.

Definition DataRecordDecoder_new (buf : list Z) : res RecordDecodeError DataRecordDecoder :=
  let? b := read_format buf in
  let? k := read_keys b in
  Ok (mkDecoder k.1 k.2).

(** An extended header is skipped: its first byte is its length. *)
Definition decode (d : DataRecordDecoder) : res RecordDecodeError LogRecord :=
  let? f := read_flags_and_created_at (dd_buffer d) in
  let? body :=
    if record_flags_contains f.1.1 RecordFlags_ExtendedHeader
    then let? e := get_uint 1 f.2 in let? s := get_bytes (Z.to_nat e.1) e.2 in Ok s.2
    else Ok f.2 in
  Ok {| rec_created_at := f.1.2; rec_keys := dd_keys d; rec_body := body_of_bytes body |}.

Definition encode_keys (k : Keys) : list Z :=
  match k with
  | KeysNone => [0]
  | KeysSingle k => 1 :: put_uint_le 8 k
  | KeysPair k1 k2 => 2 :: put_uint_le 8 k1 ++ put_uint_le 8 k2
  | KeysRangeInclusive a b => 3 :: put_uint_le 8 a ++ put_uint_le 8 b
  end.

Definition encode_to_disk_format (r : LogRecord) : list Z :=
  RecordFormat_CustomV1 :: encode_keys (rec_keys r) ++ put_uint_le 2 0
    ++ put_uint_le 8 (rec_created_at r) ++ body_bytes (rec_body r).

Definition header_size (r : LogRecord) : Z :=
  let keys_size :=
    match rec_keys r with
    | KeysNone => 1
    | KeysSingle _ => 1 + 8
    | KeysPair _ _ | KeysRangeInclusive _ _ => 1 + 8 + 8
    end in
  1 + keys_size + 2 + 8.

(** ** Keys *)

(** [KeyPrefixKind]. *)
Inductive KeyPrefixKind :=
| KpDataRecord | KpLastKnownGlobalTail | KpLocalTail | KpSequencer | KpTrimPoint | KpSeal | KpInvalid.

Definition prefix_byte (k : KeyPrefixKind) : Z :=
  match k with
  | KpDataRecord => 100 | KpLastKnownGlobalTail => 103 | KpLocalTail => 108 | KpSequencer => 115
  | KpTrimPoint => 116 | KpSeal => 90 | KpInvalid => 255
  end.

Definition prefix_kind (b : Z) : option KeyPrefixKind :=
  find (λ k, prefix_byte k =? b)
    [KpDataRecord; KpLastKnownGlobalTail; KpLocalTail; KpSequencer; KpTrimPoint; KpSeal; KpInvalid].

Definition key_prefix (kind : KeyPrefixKind) (loglet_id : Z) : list Z :=
  prefix_byte kind :: put_uint 8 loglet_id.

Definition encode_exclusive_upper_bound (kind : KeyPrefixKind) (loglet_id : Z) : list Z :=
  if loglet_id =? u64_max then prefix_byte kind + 1 :: put_uint 8 0
  else prefix_byte kind :: put_uint 8 (loglet_id + 1).

(** [DataRecordKey]: the offset takes eight bytes although it has four. *)
Definition data_record_key (loglet_id offset : Z) : list Z := key_prefix KpDataRecord loglet_id ++ put_uint 8 offset.

Definition exclusive_upper_bound (loglet_id : Z) : list Z :=
  encode_exclusive_upper_bound KpDataRecord loglet_id ++ put_uint 8 0.

(** [KeyPrefix::decode]: panics on an unknown kind. *)
Definition key_prefix_decode (bs : list Z) : res RecordDecodeError ((KeyPrefixKind * Z) * list Z) :=
  let? b := get_uint 1 bs in
  match prefix_kind b.1 with
  | Some kind => let? l := get_uint 8 b.2 in Ok ((kind, l.1), l.2)
  | None => Panic
  end.

(** Panics on an offset that does not fit. *)
Definition data_record_key_from_slice (bs : list Z) : res RecordDecodeError (Z * Z) :=
  let? p := key_prefix_decode bs in
  let? o := get_uint 8 p.2 in
  if o.1 <=? u32_max then Ok (p.1.2, o.1) else Panic.

(** The order of RocksDB. *)
Fixpoint bytes_lt (a b : list Z) : Prop :=
  match a, b with
  | _, [] => False
  | [], _ :: _ => True
  | x :: a, y :: b => x < y ∨ x = y ∧ bytes_lt a b
  end.

(** ** Lemmas *)

Lemma put_uint_length n x : List.length (put_uint n x) = n.
Proof. unfold put_uint. by rewrite length_rev, to_le_bytes_length. Qed.

Lemma get_bytes_app n a b : List.length a = n → get_bytes n (a ++ b) = Ok (a, b).
Proof.
  intros <-. unfold get_bytes. rewrite bool_decide_true by (rewrite length_app; lia).
  by rewrite take_app_length, drop_app_length.
Qed.

Lemma get_put n x buf : 0 ≤ x < 256 ^ Z.of_nat n → get_uint n (put_uint n x ++ buf) = Ok (x, buf).
Proof.
  intros Hx. unfold get_uint. rewrite get_bytes_app by apply put_uint_length. simpl.
  unfold put_uint. by rewrite from_be_bytes_rev_to_le.
Qed.

Lemma get_put_le n x buf : 0 ≤ x < 256 ^ Z.of_nat n → get_uint_le n (put_uint_le n x ++ buf) = Ok (x, buf).
Proof.
  intros Hx. unfold get_uint_le. rewrite get_bytes_app by apply to_le_bytes_length. simpl.
  unfold put_uint_le. by rewrite from_be_bytes_rev_to_le.
Qed.

Lemma get_byte b buf : get_uint 1 (b :: buf) = Ok (b, buf).
Proof. reflexivity. Qed.

Lemma body_roundtrip s : body_of_bytes (body_bytes s) = s.
Proof.
  unfold body_of_bytes, body_bytes. rewrite <- list_fmap_compose.
  rewrite (list_fmap_ext _ id), list_fmap_id, String.string_of_list_ascii_of_string; [done|].
  intros i c _. simpl. by rewrite N2Z.id, ascii_N_embedding.
Qed.

Lemma body_bytes_length s : List.length (body_bytes s) = String.length s.
Proof. unfold body_bytes. rewrite length_fmap. induction s as [|c s IH]; simpl; [done|by rewrite IH]. Qed.

Definition keys_wf (k : Keys) : Prop :=
  match k with
  | KeysNone => True
  | KeysSingle k => in_u64 k
  | KeysPair a b | KeysRangeInclusive a b => in_u64 a ∧ in_u64 b
  end.

Lemma in_u64_pow x : in_u64 x → 0 ≤ x < 256 ^ Z.of_nat 8.
Proof. unfold in_u. change (256 ^ Z.of_nat 8) with (u64_max + 1). lia. Qed.

Ltac reads := cbn [app fst snd res_bind Z.eqb Pos.eqb].

Lemma read_encoded_keys k buf : keys_wf k → read_keys (encode_keys k ++ buf) = Ok (k, buf).
Proof.
  destruct k as [|x|x y|x y]; cbn [keys_wf encode_keys]; unfold read_keys; reads; rewrite get_byte; reads.
  - done.
  - intros H. by rewrite get_put_le by by apply in_u64_pow.
  - intros [H1 H2]. rewrite <- app_assoc, get_put_le by by apply in_u64_pow. reads.
    by rewrite get_put_le by by apply in_u64_pow.
  - intros [H1 H2]. rewrite <- app_assoc, get_put_le by by apply in_u64_pow. reads.
    by rewrite get_put_le by by apply in_u64_pow.
Qed.

(** C29: the record layout.  A record that is written to the store is read back: the
    decoder finds its keys first, as reads need them to filter, then the record with its
    time stamp and body; the size that reads count against their byte limit is the one of
    the bytes after the keys, and the header has the size that is reserved for it. *)
Theorem record_format_roundtrip r :
  keys_wf (rec_keys r) → 0 ≤ rec_created_at r < u64_max →
  ∃ d, DataRecordDecoder_new (encode_to_disk_format r) = Ok d
    ∧ dd_keys d = rec_keys r ∧ decode d = Ok r
    ∧ Z.of_nat (List.length (dd_buffer d)) = decoder_size r
    ∧ Z.of_nat (List.length (encode_to_disk_format r)) = header_size r + Z.of_nat (String.length (rec_body r)).
Proof.
  intros Hk Ht. unfold DataRecordDecoder_new, encode_to_disk_format, read_format, RecordFormat_CustomV1.
  rewrite get_byte. reads. rewrite read_encoded_keys by done. reads. eexists. split_and!; [done|done| | |].
  - unfold decode, read_flags_and_created_at. cbn [dd_buffer dd_keys].
    rewrite (get_put_le 2 0) by done. reads.
    rewrite get_put_le by (apply in_u64_pow; unfold in_u; lia). reads.
    change (record_flags_contains 0 RecordFlags_HlcTimestamp) with false. reads.
    change (record_flags_contains 0 RecordFlags_ExtendedHeader) with false. reads.
    rewrite body_roundtrip. replace (nanos_new _) with (rec_created_at r); [by destruct r|].
    unfold nanos_new, saturating_add. lia.
  - cbn [dd_buffer]. rewrite !length_app, body_bytes_length. unfold put_uint_le.
    rewrite !to_le_bytes_length. unfold decoder_size. lia.
  - cbn [List.length]. rewrite !length_app, body_bytes_length. unfold put_uint_le, header_size.
    rewrite !to_le_bytes_length.
    assert (List.length (encode_keys (rec_keys r)) = match rec_keys r with
      | KeysNone => 1 | KeysSingle _ => 9 | _ => 17 end)%nat as ->
      by (destruct (rec_keys r); cbn [encode_keys List.length]; unfold put_uint_le;
          rewrite ?length_app, ?to_le_bytes_length; done).
    destruct (rec_keys r); lia.
Qed.

(** ** The order of the keys *)

Lemma bytes_lt_app a b c d :
  List.length a = List.length c → bytes_lt (a ++ b) (c ++ d) ↔ bytes_lt a c ∨ a = c ∧ bytes_lt b d.
Proof.
  revert c. induction a as [|x a IH]; intros [|y c] Hl; simplify_eq/=.
  - tauto.
  - rewrite IH by done. naive_solver.
Qed.

Lemma bytes_lt_be a : ∀ b, List.length a = List.length b → byte_list a → byte_list b →
  bytes_lt a b ↔ from_be_bytes a < from_be_bytes b.
Proof.
  induction a as [|x a IH] using rev_ind; intros b Hl Ha Hb.
  - destruct b; [|done]. simpl. lia.
  - destruct b as [|y b _] using rev_ind; [rewrite length_app in Hl; simpl in Hl; lia|].
    rewrite !length_app in Hl. simpl in Hl.
    apply byte_list_snoc in Ha as [Ha Hx], Hb as [Hb Hy].
    rewrite bytes_lt_app, IH, !from_be_bytes_snoc by (done || lia). simpl.
    assert (a = b ↔ from_be_bytes a = from_be_bytes b) as ->; [|lia].
    split; [by intros ->|]. intros E. apply (f_equal (to_le_bytes (List.length a))) in E.
    rewrite to_le_bytes_from_be in E by done. replace (List.length a) with (List.length b) in E by lia.
    rewrite to_le_bytes_from_be in E by done. by apply (f_equal (@rev Z)) in E; rewrite !rev_involutive in E.
Qed.

Lemma put_uint_bytes n x : byte_list (put_uint n x).
Proof. unfold put_uint, byte_list. apply Forall_rev, to_le_bytes_bytes. Qed.

Lemma put_uint_lt n x y :
  0 ≤ x < 256 ^ Z.of_nat n → 0 ≤ y < 256 ^ Z.of_nat n → bytes_lt (put_uint n x) (put_uint n y) ↔ x < y.
Proof.
  intros Hx Hy. rewrite bytes_lt_be by (apply put_uint_bytes || by rewrite !put_uint_length).
  unfold put_uint. by rewrite !from_be_bytes_rev_to_le.
Qed.

Lemma put_uint_inj n x y :
  0 ≤ x < 256 ^ Z.of_nat n → 0 ≤ y < 256 ^ Z.of_nat n → put_uint n x = put_uint n y ↔ x = y.
Proof.
  intros Hx Hy. split; [|by intros ->]. intros E%(f_equal from_be_bytes). unfold put_uint in E.
  by rewrite !from_be_bytes_rev_to_le in E.
Qed.

(** C30: the keys of the records.  RocksDB keeps the records of a loglet together and in
    the order of their offsets: the order of the keys is the order of loglet and offset,
    every key of a loglet is below the exclusive upper bound that iterators over it use,
    every key of a later loglet is not below it, and a key is read back as it was written. *)
Theorem record_keys_ordered l o l' o' :
  in_u64 l → in_u64 l' → in_u32 o → in_u32 o' →
  (bytes_lt (data_record_key l o) (data_record_key l' o') ↔ l < l' ∨ l = l' ∧ o < o')
  ∧ (bytes_lt (data_record_key l o) (exclusive_upper_bound l') ↔ l ≤ l')
  ∧ data_record_key_from_slice (data_record_key l o) = Ok (l, o).
Proof.
  intros Hl%in_u64_pow Hl'%in_u64_pow Ho Ho'.
  assert (∀ x, in_u32 x → 0 ≤ x < 256 ^ Z.of_nat 8) as Hpow.
  { intros x. unfold in_u. change (256 ^ Z.of_nat 8) with (u64_max + 1). lia. }
  split_and!.
  - unfold data_record_key, key_prefix. cbn [app bytes_lt].
    rewrite bytes_lt_app, !put_uint_lt, put_uint_inj by (auto || by rewrite !put_uint_length). naive_solver lia.
  - unfold data_record_key, key_prefix, exclusive_upper_bound, encode_exclusive_upper_bound.
    change (256 ^ Z.of_nat 8) with (u64_max + 1) in *.
    destruct (Z.eqb_spec l' u64_max); cbn [app bytes_lt prefix_byte]; [split; [lia|by left; lia]|].
    rewrite bytes_lt_app, !put_uint_lt, put_uint_inj
      by (change (256 ^ Z.of_nat 8) with (u64_max + 1); (auto || lia || by rewrite !put_uint_length)).
    unfold in_u in *. naive_solver lia.
  - unfold data_record_key_from_slice, key_prefix_decode, data_record_key, key_prefix.
    cbn [app]. rewrite get_byte. reads. change (prefix_kind (prefix_byte KpDataRecord)) with (Some KpDataRecord).
    rewrite get_put by done. reads.
    rewrite <- (app_nil_r (put_uint 8 o)), get_put by auto. reads.
    by replace (o <=? u32_max) with true by (unfold in_u in Ho; lia).
Qed.

Definition format_demo : LogRecord :=
  {| rec_created_at := 1640995200000000000; rec_keys := KeysRangeInclusive 7 300; rec_body := "payload" |}.

Lemma record_format_roundtrip_witness :
  ∃ d, DataRecordDecoder_new (encode_to_disk_format format_demo) = Ok d
    ∧ dd_keys d = rec_keys format_demo ∧ decode d = Ok format_demo
    ∧ Z.of_nat (List.length (dd_buffer d)) = decoder_size format_demo
    ∧ Z.of_nat (List.length (encode_to_disk_format format_demo))
      = header_size format_demo + Z.of_nat (String.length (rec_body format_demo)).
Proof.
  apply (record_format_roundtrip format_demo).
  - vm_compute. repeat split; congruence.
  - vm_compute. split; congruence.
Defined.

Lemma record_keys_ordered_witness :
  (bytes_lt (data_record_key 3 255) (data_record_key 3 256) ↔ 3 < 3 ∨ 3 = 3 ∧ 255 < 256)
  ∧ (bytes_lt (data_record_key 3 255) (exclusive_upper_bound 3) ↔ 3 ≤ 3)
  ∧ data_record_key_from_slice (data_record_key 3 255) = Ok (3, 255).
Proof. apply (record_keys_ordered 3 255 3 256); vm_compute; split; congruence. Defined.
