(* ===== verification/StateMachineBase.v ===== *)
(** * The partition processor's state machine: context and effects

    [worker/src/partition/state_machine]: the actions it emits
    ([actions.rs]), its errors and its apply context, and the effects that its
    handlers share ([mod.rs], the [do_*], [reply_to_*] and [send_*] methods).

    A handler is a computation [M] over the tables, the queue cache, the
    collected actions and the cached sequence numbers.  What a record is applied with (its time, its position,
    whether this replica leads, the features of the partition) is the class
    [Ctx].  Tracing, metrics and [debug_assert!] are not modelled, and neither
    are errors of the storage engine. *)

From stdpp Require Import strings.
From S2P Require Import Prelude UnresolvedFuture Clock Invocation InvocationStatus JournalV1.
From S2P Require Import VQueueMeta PartitionStore VQueueCache VQueue.

Open Scope Z_scope.

(** ** Messages to other partitions *)

Record InvocationResponse := { resp_target : JournalCompletionTarget; resp_result : ResponseResult }.
Record InvocationTermination := {
  term_invocation_id : InvocationId; term_flavor : TerminationFlavor;
  term_response_sink : option InvocationMutationResponseSink }.
Record NotifySignalRequest := { ns_invocation_id : InvocationId; ns_signal : Signal }.

Inductive OutboxMessage :=
| OutServiceInvocation (si : ServiceInvocation)
| OutServiceResponse (r : InvocationResponse)
| OutInvocationTermination (t : InvocationTermination)
| OutAttachInvocation (a : AttachInvocationRequest)
| OutNotifySignal (s : NotifySignalRequest).

(** ** Replies and actions *)

Inductive InvocationOutputResponse :=
| OutputSuccess (target : InvocationTarget) (value : string)
| OutputFailure (err : InvocationError).

Record InvocationOutput := {
  io_request_id : Z; io_invocation_id : option InvocationId;
  io_completion_expiry_time : option Z; io_response : InvocationOutputResponse }.

Record SubmittedInvocationNotification := {
  sn_request_id : Z; sn_execution_time : option Z; sn_is_new_invocation : bool }.

Inductive KillInvocationResponse := KillOk | KillNotFound | KillAlreadyCompleted.
Inductive CancelInvocationResponse :=
| CancelDone | CancelAppended | CancelNotFound | CancelAlreadyCompleted.
Inductive PurgeInvocationResponse := PurgeOk | PurgeNotFound | PurgeNotCompleted.
Inductive PauseInvocationResponse :=
| PauseAlreadyPaused | PauseAccepted | PauseNotFound | PauseNotRunning.
Inductive ResumeInvocationResponse :=
| ResumeOk | ResumeNotFound | ResumeNotStarted | ResumeCannotChangeDeploymentId
| ResumeDeploymentNotFound
| ResumeIncompatibleDeploymentId (pinned_protocol_version : Z) (deployment_id : string)
    (supported_protocol_versions : Z * Z)
| ResumeCompleted.
Inductive RestartAsNewInvocationResponse :=
| RestartOk (new_invocation_id : InvocationId)
| RestartNotFound | RestartStillRunning | RestartUnsupported | RestartMissingInput
| RestartNotStarted | RestartJournalIndexOutOfRange | RestartJournalCopyRangeInvalid
| RestartCannotPatchDeploymentId | RestartDeploymentNotFound
| RestartIncompatibleDeploymentId (pinned_protocol_version : Z) (deployment_id : string)
    (supported_protocol_versions : Z * Z).

Inductive RpcReply :=
| ReplyOutput (o : InvocationOutput)
| ReplySubmitted (n : SubmittedInvocationNotification)
| ReplyKill (r : KillInvocationResponse)
| ReplyCancel (r : CancelInvocationResponse)
| ReplyPurgeInvocation (r : PurgeInvocationResponse)
| ReplyPurgeJournal (r : PurgeInvocationResponse)
| ReplyResume (r : ResumeInvocationResponse)
| ReplyPause (r : PauseInvocationResponse)
| ReplyRestartAsNew (r : RestartAsNewInvocationResponse).

Inductive Action :=
| VQEvent (e : VQueueEvent)
| VQInvoke (vq_handle : VQueueHandle) (key : EntryKey) (target : InvocationTarget)
    (idempotency_key : option string)
| NewOutboxMessage (seq_number : Z) (message : OutboxMessage)
| RegisterTimer (timer_value : TimerKeyValue)
| DeleteTimer (timer_key : TimerKey)
| AckStoredCommand (id : InvocationId) (command_index : Z)
| ForwardNotification (id : InvocationId) (entry_index : Z) (notification : NotificationId)
| AbortInvocation (id : InvocationId)
| ReplyRpc (request_id : Z) (reply : RpcReply)
| CleanerPurgeApplied.

(** ** Errors

    The errors that a handler raises itself. *)

Inductive Error :=
| ErrorCodec
| ErrorStorage (reason : string)
| ErrorBadEntryVariant
| ErrorApplyCommandEffect (ty : CommandType)
| ErrorEntryDecoding
| ErrorBadCommandTypeForInvocationResponse (ty : CommandType) (completion_id : Z)
| ErrorMissingCommandForInvocationResponse (completion_id : Z)
| ErrorUnknownCommandKind.

(** ** Context *)

(** [PersistedFeatures] and the switches of [PartitionFeatures] derived from it. *)
Record PersistedFeatures := {
  pf_journal_v2 : bool;
  pf_vqueues : bool;
  pf_vqueues_skip_completed : bool;
  pf_unique_random_seeds : bool;
  pf_preflight_invocation_termination_retention : bool;
  pf_inconsistent_state_mutation_cleanup : bool }.

Definition use_journal_v2_as_default (f : PersistedFeatures) : bool := pf_journal_v2 f.
Definition is_vqueues_enabled (f : PersistedFeatures) : bool :=
  pf_vqueues f || pf_vqueues_skip_completed f.

(** What the schema of the partition knows of a deployment: the range of
    protocol versions it supports. *)
Record DeploymentInfo := { di_id : string; di_supported_protocol_versions : Z * Z }.

Record Schema := {
  get_deployment : string → option DeploymentInfo;
  resolve_latest_deployment_for_service : string → option DeploymentInfo }.

Class Ctx := {
  record_created_at : Z;
  record_lsn : Z;
  is_leader : bool;
  features : PersistedFeatures;
  (** the random sample of the store that decides for a full write *)
  full_write : VQueueId → VQueueMeta → Update → bool;
  (** the iteration order of a [HashSet] of response sinks *)
  sink_order : gset ServiceInvocationResponseSink → list ServiceInvocationResponseSink;
  (** the schema that the partition has applied *)
  schema : option Schema;
  (** [RestateVersion::current()] *)
  current_restate_version : string;
}.

Definition PState := VState OutboxMessage Action.
Abbreviation M := (sm PState Error).

(** [UnresolvedFuture::unknown_from_iter] of notification ids. *)
Definition unknown_from_iter (l : list NotificationId) : UnresolvedFuture :=
  UnknownCombinator (Single <$> l).

Section effects.
Context `{!Digests, !SlotKeys, !Ctx}.

(** The collector given to queues: [self.leader.is_some().then_some(..)]. *)
Definition vctx : VCtx Action :=
  {| vc_from_event := VQEvent; vc_collector := is_leader; vc_full_write := full_write |}.

Definition push (a : Action) : M unit :=
  sm_modify (λ s, mkV (v_tables s) (v_cache s) (v_actions s ++ [a]) (v_numbers s)).

(** [UniqueTimestamp::from_unix_millis_unchecked(self.record_created_at)]. *)
Definition record_unique_ts : M UniqueTimestamp :=
  sm_lift (expect (from_unix_millis_unchecked record_created_at)).

Definition read_status (id : InvocationId) : M InvocationStatus := reads (get_invocation_status id).
Definition put_status (id : InvocationId) (s : InvocationStatus) : M unit :=
  tables (put_invocation_status id s).

(** ** Timers, notifications, replies *)

Definition register_timer (t : TimerKeyValue) : M unit :=
  tables (put_timer t.1 t.2) ;; push (RegisterTimer t).

Definition do_delete_timer (k : TimerKey) : M unit :=
  tables (delete_timer k) ;; push (DeleteTimer k).

Definition forward_notification (id : InvocationId) (entry_index : Z) (n : NotificationId)
    : M unit := push (ForwardNotification id entry_index n).

Definition send_abort_invocation_to_invoker (id : InvocationId) : M unit :=
  push (AbortInvocation id).

Definition reply (sink : option InvocationMutationResponseSink) (r : RpcReply) : M unit :=
  match sink with
  | None => sm_ret tt
  | Some request_id => push (ReplyRpc request_id r)
  end.
Definition reply_to_cancel sink r : M unit := reply sink (ReplyCancel r).
Definition reply_to_kill sink r : M unit := reply sink (ReplyKill r).
Definition reply_to_purge_invocation sink r : M unit := reply sink (ReplyPurgeInvocation r).
Definition reply_to_purge_journal sink r : M unit := reply sink (ReplyPurgeJournal r).
Definition reply_to_resume_invocation sink r : M unit := reply sink (ReplyResume r).
Definition reply_to_pause_invocation sink r : M unit := reply sink (ReplyPause r).

Definition send_submit_notification_if_needed (execution_time : option Z)
    (is_new_invocation : bool) (sink : option SubmitNotificationSink) : M unit :=
  match sink with
  | None => sm_ret tt
  | Some request_id =>
      push (ReplyRpc request_id (ReplySubmitted
        {| sn_request_id := request_id; sn_execution_time := execution_time;
           sn_is_new_invocation := is_new_invocation |}))
  end.

Definition send_ingress_response (request_id : Z) (id : option InvocationId)
    (completion_expiry : option Z) (response : InvocationOutputResponse) : M unit :=
  push (ReplyRpc request_id (ReplyOutput
    {| io_request_id := request_id; io_invocation_id := id;
       io_completion_expiry_time := completion_expiry; io_response := response |})).

(** ** Outbox and responses *)

(** [Outbox::outbox_tail]. *)
Definition outbox_tail : M Z := sm_gets (λ s, outbox_tail_seq (v_numbers s)).

(** [self.outbox_tail_seq += 1] *)
Definition advance_outbox_tail : M unit :=
  sm_modify (λ s, mkV (v_tables s) (v_cache s) (v_actions s)
    (mkNumbers (as_u64 (outbox_tail_seq (v_numbers s) + 1)) (inbox_seq_number (v_numbers s)))).

(** [Outbox::enqueue]. *)
Definition outbox_enqueue (m : OutboxMessage) : M unit :=
  let* seq_number := outbox_tail in
  tables (put_outbox_message seq_number m) ;;
  advance_outbox_tail ;;
  let* next := outbox_tail in
  tables (upd_outbox_tail (λ _, next)).

Definition do_enqueue_into_outbox (m : OutboxMessage) : M unit :=
  let* seq_number := outbox_tail in
  outbox_enqueue m ;;
  push (NewOutboxMessage seq_number m).

Definition send_response_to_sink (result : ResponseResult) (id : option InvocationId)
    (completion_expiry : option Z) (target : option InvocationTarget)
    (sink : ServiceInvocationResponseSink) : M unit :=
  match sink with
  | SinkPartitionProcessor t =>
      do_enqueue_into_outbox (OutServiceResponse {| resp_target := t; resp_result := result |})
  | SinkIngress request_id =>
      let* response :=
        match result with
        | ResponseSuccess v =>
            let* t := sm_lift (expect target) in sm_ret (OutputSuccess t v)
        | ResponseFailure e => sm_ret (OutputFailure e)
        end in
      send_ingress_response request_id id completion_expiry response
  end.

Definition send_response_to_sinks (sinks : list ServiceInvocationResponseSink)
    (result : ResponseResult) (id : option InvocationId) (completion_expiry : option Z)
    (target : option InvocationTarget) : M unit :=
  sm_for (send_response_to_sink result id completion_expiry target) sinks.

Definition do_append_response_sink (id : InvocationId) (previous : InvocationStatus)
    (sink : ServiceInvocationResponseSink) : M unit :=
  let* _ := sm_lift (expect (get_response_sinks previous)) in
  put_status id (map_timestamps (timestamps_update record_created_at)
                   (map_response_sinks (λ s, {[ sink ]} ∪ s) previous)).

(** ** State and promises *)

(** [usize::to_be_bytes]. *)
Definition to_be_bytes8 (x : Z) : list Z := rev (to_le_bytes 8 x).

(** [StateMutationVersion::from_user_state]. *)
Definition state_version_preimage (kvs : list (string * string)) : list Z :=
  concat (imap (λ i '(k, v), to_be_bytes8 (Z.of_nat i) ++ [1] ++ bytes_of k ++ [2] ++ bytes_of v
                             ++ [3]) kvs).
Definition state_version_of_user_state (kvs : list (string * string)) : string :=
  base64_url_safe (sha256 (state_version_preimage (merge_sort bytes_key_le kvs))).

Definition mutate_state (m : StateMutationInput) : M Status :=
  let sid := sm_service_id m in
  let* all_user_states := reads (get_all_user_states sid) in
  if match sm_version m with
     | Some expected => bool_decide (state_version_of_user_state all_user_states ≠ expected)
     | None => false
     end
  then sm_ret SFailed
  else
    sm_for (λ kv, sm_when (bool_decide (sm_state m !! kv.1 = None))
                    (tables (delete_user_state sid kv.1))) all_user_states ;;
    sm_for (λ kv, tables (put_user_state sid kv.1 kv.2)) (map_to_list (sm_state m)) ;;
    sm_ret SSucceeded.

Definition do_mutate_state (m : StateMutationInput) : M unit :=
  mutate_state m ;; sm_ret tt.

(** ** Inbox *)

(** [Fsm::set_inbox_seq_number]. *)
Definition set_inbox_seq_number (seq : Z) : M unit :=
  sm_modify (λ s, mkV (v_tables s) (v_cache s) (v_actions s)
    (mkNumbers (outbox_tail_seq (v_numbers s)) seq)) ;;
  tables (upd_inbox_seq (λ _, seq)).

Definition enqueue_into_inbox (e : InboxEntry) : M Z :=
  let* seq_number := sm_gets (λ s, inbox_seq_number (v_numbers s)) in
  tables (put_inbox_entry seq_number e) ;;
  set_inbox_seq_number (as_u64 (seq_number + 1)) ;;
  sm_ret seq_number.

(** ** Virtual queues *)

(** [VQueue::get(..).expect(..)]. *)
Definition vqueue_expect (qid : VQueueId) : M VQueueHandle :=
  let* h := vqueue_get qid in sm_lift (expect h).

(** The entry status of an invocation, whose absence is a panic. *)
Definition entry_status_expect (id : InvocationId) : M EntryStatusHeader :=
  let* hd := reads (get_vqueue_entry_status (base_id_of_invocation id)) in sm_lift (expect hd).

(** Returns the sequence number of the entry. *)
Definition vqueue_move_invocation_to_inbox_stage (id : InvocationId) : M Z :=
  let* hd := entry_status_expect id in
  let* h := vqueue_expect (h_qid hd) in
  let* now := record_unique_ts in
  match h_stage hd with
  | StSuspended | StPaused => wake_up vctx h now hd None None
  | StRunning => yield_entry vctx h now hd None YieldUnknown
  | StInbox => sm_ret tt
  | StFinished | StUnknown => sm_lift Panic
  end ;;
  sm_ret (h_seq hd).

(** [RoughTimestamp::from(UniqueTimestamp)]. *)
Definition rough_of_unique (t : UniqueTimestamp) : RoughTimestamp :=
  let secs := physical_raw t / 1000 in
  rough_new (if u32_max <? secs then u32_max else secs).

Definition vqueue_reschedule_invocation (id : InvocationId) (run_at : option RoughTimestamp)
    (pinned_deployment : option string) : M bool :=
  let* hd := entry_status_expect id in
  let run_at := default (rough_of_unique (es_created_at (h_stats hd))) run_at in
  let is_waiting := match h_stage hd with
                    | StInbox | StSuspended | StPaused => true
                    | _ => false
                    end in
  let* h := vqueue_expect (h_qid hd) in
  reschedule vctx h hd run_at pinned_deployment ;;
  sm_ret is_waiting.

(** The target whose queue holds the state mutations of an object. *)
Definition state_mutation_target (sid : ServiceId) : InvocationTarget :=
  VirtualObject (sid_service_name sid) (sid_key sid) "_state_mutation" VoExclusive
    (sid_scope sid).

Definition vqueue_enqueue_state_mutation (m : ExternalStateMutation) : M unit :=
  let* now := record_unique_ts in
  let input := xm_input m in
  let sid := sm_service_id input in
  let target := state_mutation_target sid in
  let pk := sid_partition_key sid in
  let entry x := {| ei_kind := KindStateMutation; ei_id := x |} in
  let* duplicate :=
    match xm_id m with
    | Some x => reads (λ t, bool_decide (is_Some (get_vqueue_entry_status
                        {| be_partition_key := pk; be_entry := entry x |} t)))
    | None => sm_ret false
    end in
  if duplicate : bool then sm_ret tt
  else
    let entry_id := entry (default record_lsn (xm_id m)) in
    let qid := infer_vqueue_id_from_invocation pk target LimitNone in
    let* h := vqueue_from_invocation_target now qid target LimitNone in
    enqueue_new vctx h now record_lsn None entry_id entry_metadata_default ;;
    tables (put_vqueue_input_payload qid record_lsn entry_id input).

(** ** Status changes *)

Definition do_resume_service (id : InvocationId) (m : InFlightInvocationMetadata) : M unit :=
  let m := if_with_timestamps (timestamps_update record_created_at) m in
  let* m := match if_vqueue_id m with
            | Some _ => let* seq := vqueue_move_invocation_to_inbox_stage id in
                        sm_ret (if_backfill_creation_seq seq m)
            | None => sm_ret m
            end in
  put_status id (Invoked m).

(** Suspension with a journal of the first format. *)
Definition do_suspend_service (id : InvocationId) (m : InFlightInvocationMetadata)
    (waiting_for_completed_entries : list Z) : M unit :=
  let m := if_with_timestamps (timestamps_update record_created_at) m in
  let* m := match if_vqueue_id m with
            | Some _ =>
                let* now := record_unique_ts in
                let* hd := entry_status_expect id in
                let* h := vqueue_expect (h_qid hd) in
                suspend_entry vctx h now hd ;;
                sm_ret (if_backfill_creation_seq (h_seq hd) m)
            | None => sm_ret m
            end in
  put_status id (Suspended m
    (unknown_from_iter (NCompletionId <$> waiting_for_completed_entries))).

Definition do_store_completed_invocation (id : InvocationId) (c : CompletedInvocation) : M unit :=
  put_status id (Completed c).
Definition do_free_invocation (id : InvocationId) : M unit :=
  tables (delete_invocation_status id).
Definition do_delete_inbox_entry (sid : ServiceId) (seq : Z) : M unit :=
  tables (delete_inbox_entry sid seq).

(** ** Journals *)

Definition V4 : Z := 4.

Definition should_use_journal_table_v2 (s : InvocationStatus) : bool :=
  match get_invocation_metadata s ≫= if_pinned_deployment with
  | Some pd => V4 <=? service_protocol_version pd
  | None => false
  end.

Definition append_journal_entry_v1 (id : InvocationId) (previous : InvocationStatus)
    (entry_index : Z) (e : JournalEntry) : M unit :=
  tables (put_journal_entry_v1 id entry_index e) ;;
  let* _ := sm_lift (expect (get_journal_metadata previous)) in
  put_status id (map_timestamps (timestamps_update record_created_at)
                   (map_journal_metadata (set_length (entry_index + 1)) previous)).

Definition do_delete_pending_sleep_timers_v1 (id : InvocationId) (journal_length : Z) : M unit :=
  let* journal := reads (get_journal_v1 id journal_length) in
  sm_for (λ '(index, e),
    match e with
    | JEntry {| er_header := HSleep false; er_entry := p |} =>
        match p with
        | None => sm_lift (Err ErrorCodec)
        | Some (ESleep wake_up_time) =>
            do_delete_timer (complete_journal_entry_key wake_up_time id index)
        | Some _ => sm_lift Panic
        end
    | _ => sm_ret tt
    end) journal.

(** The sleeps without completion: completion id and wake-up time. *)
Fixpoint pending_sleeps (entries : list (Z * StoredRawEntry)) (sleeps : gmap Z Z)
    : res Error (gmap Z Z) :=
  match entries with
  | [] => Ok sleeps
  | (_, e) :: rest =>
      match se_inner e with
      | RawEntryCommand cmd =>
          if bool_decide (command_type cmd = TSleep) then
            match decode_command cmd with
            | Some (CSleep wake_up_time c _) => pending_sleeps rest (<[ c := wake_up_time ]> sleeps)
            | _ => Err ErrorEntryDecoding
            end
          else pending_sleeps rest sleeps
      | RawEntryNotification n =>
          match rn_id n with
          | NCompletionId c => pending_sleeps rest (delete c sleeps)
          | _ => pending_sleeps rest sleeps
          end
      end
  end.

Definition do_delete_pending_sleep_timers_v2 (id : InvocationId) (journal_length : Z) : M unit :=
  let* journal := reads (get_journal_v2 id journal_length) in
  let* sleeps := sm_lift (pending_sleeps journal ∅) in
  sm_for (λ '(c, wake_up_time), do_delete_timer (complete_journal_entry_key wake_up_time id c))
    (map_to_list sleeps).

Definition do_drop_journal (id : InvocationId) (journal_length : Z)
    (pinned_protocol_version : option Z) (delete_pending_timers : bool) : M unit :=
  let is_none_or (p : Z → bool) :=
    match pinned_protocol_version with None => true | Some v => p v end in
  sm_when (is_none_or (λ v, v <? V4))
    (sm_when delete_pending_timers (do_delete_pending_sleep_timers_v1 id journal_length) ;;
     tables (delete_journal_v1 id journal_length)) ;;
  sm_when (is_none_or (λ v, V4 <=? v))
    (sm_when delete_pending_timers (do_delete_pending_sleep_timers_v2 id journal_length) ;;
     tables (delete_journal_v2 id journal_length)) ;;
  tables (delete_journal_events id).

(** Returns the completion to forward.  An entry that does not exist yet (an
    awakeable) gets the completion stored in its place. *)
Definition store_completion (id : InvocationId) (entry_index : Z) (result : CompletionResult)
    : M (option CompletionResult) :=
  let* stored := reads (get_journal_entry_v1 id entry_index) in
  match stored with
  | Some (JEntry e) =>
      if bool_decide (header_is_completed (er_header e) = Some true) then sm_ret None
      else
        let result :=
          match er_header e with
          | HGetInvocationOutput _ =>
              if bool_decide (result = completion_of_error NOT_READY_INVOCATION_ERROR)
              then CrEmpty else result
          | _ => result
          end in
        tables (put_journal_entry_v1 id entry_index (JEntry (write_completion result e))) ;;
        sm_ret (Some result)
  | _ =>
      tables (put_journal_entry_v1 id entry_index (JCompletion result)) ;; sm_ret None
  end.
End effects.
