(* ===== verification/InvocationLifecycle.v ===== *)
(** * The partition processor's state machine: begin and end of invocations

    The methods of [worker/src/partition/state_machine/mod.rs] that accept an
    invocation (deduplication, scheduling, the inbox of an exclusive handler,
    virtual queues), start it, run the decisions of the queue scheduler, and end
    it (responses, retention, the next inbox entry), and those that kill it or
    terminate it before it has started. *)

From stdpp Require Import strings.
From S2P Require Import Prelude UnresolvedFuture Clock Invocation InvocationStatus JournalV1.
From S2P Require Import VQueueMeta PartitionStore VQueueCache VQueue StateMachineBase.

Open Scope Z_scope.

(** ** Random seeds ([InvocationId::to_random_seed_with_wal_record_time]) *)

Definition rotate_left64 (x n : Z) : Z :=
  Z.lor (as_u64 (Z.shiftl x n)) (Z.shiftr x (64 - n)).

Definition to_random_seed_with_wal_record_time (id : InvocationId) (wal_record_time : Z) : Z :=
  let lo := as_u64 (inv_uuid id) in
  let hi := as_u64 (Z.shiftr (inv_uuid id) 64) in
  let mixed := Z.lxor (Z.lxor hi (rotate_left64 lo 21)) (rotate_left64 wal_record_time 43) in
  let mixed := as_u64 (Z.lxor mixed (Z.shiftr mixed 30) * 0xbf58476d1ce4e5b9) in
  let mixed := as_u64 (Z.lxor mixed (Z.shiftr mixed 27) * 0x94d049bb133111eb) in
  Z.lxor mixed (Z.shiftr mixed 31).

Section lifecycle.
Context `{!Digests, !SlotKeys, !Ctx}.

Definition is_exclusive_target (t : InvocationTarget) : bool :=
  bool_decide (invocation_target_ty t = TyVirtualObject VoExclusive).

(** ** Starting an invocation *)

(** The input entry that opens a journal of the second format. *)
Definition input_entry_v2 (headers : list Header) (argument : string) : StoredRawEntry :=
  {| se_append_time := record_created_at;
     se_inner := encode_command (CInput headers argument "") |}.

(** Returns the metadata with the length of the new journal. *)
Definition init_journal (id : InvocationId) (m : InFlightInvocationMetadata)
    (input : InvocationInput) : M InFlightInvocationMetadata :=
  let m := if_with_journal_metadata (set_length 1) m in
  (if use_journal_v2_as_default features
   then tables (put_journal_entry_v2 id 0 (input_entry_v2 (ii_headers input) (ii_argument input)) [])
   else tables (put_journal_entry_v1 id 0
                  (JEntry (serialize_as_input_entry (ii_headers input) (ii_argument input))))) ;;
  sm_ret m.

Definition init_journal_opt (id : InvocationId) (m : InFlightInvocationMetadata)
    (input : option InvocationInput) : M InFlightInvocationMetadata :=
  match input with Some i => init_journal id m i | None => sm_ret m end.

Definition init_journal_and_set_invoked (id : InvocationId) (m : InFlightInvocationMetadata)
    (input : option InvocationInput) : M unit :=
  let* m := init_journal_opt id m input in
  put_status id (Invoked m).

Definition vqueue_invoke (h : VQueueHandle) (key : EntryKey) (id : InvocationId)
    (m : InFlightInvocationMetadata) : M unit :=
  put_status id (Invoked m) ;;
  sm_when is_leader (push (VQInvoke h key (if_invocation_target m) (if_idempotency_key m))).

Definition init_journal_and_vqueue_invoke (h : VQueueHandle) (key : EntryKey) (id : InvocationId)
    (m : InFlightInvocationMetadata) (input : option InvocationInput) : M unit :=
  let* m := init_journal_opt id m input in
  vqueue_invoke h key id m.

(** ** Accepting an invocation *)

(** Returns the invocation in case it is not a duplicate. *)
Definition handle_duplicated_requests (si : ServiceInvocation) : M (option ServiceInvocation) :=
  let id := si_invocation_id si in
  let is_workflow_run :=
    bool_decide (invocation_target_ty (si_invocation_target si) = TyWorkflow WfWorkflow) in
  let* previous := read_status id in
  if is_free previous then sm_ret (Some si)
  else
    let* source := sm_lift (expect (status_source previous)) in
    send_submit_notification_if_needed (execution_time previous)
      (bool_decide (si_source si = source)) (si_submit_notification_sink si) ;;
    (** [response_sink.take()]: nothing is left for what follows. *)
    let* sink :=
      if is_workflow_run then
        send_response_to_sinks (option_list (si_response_sink si))
          (ResponseFailure WORKFLOW_ALREADY_INVOKED_INVOCATION_ERROR) (Some id) None
          (Some (si_invocation_target si)) ;;
        sm_ret None
      else sm_ret (si_response_sink si) in
    match previous with
    | Completed c =>
        send_response_to_sinks (option_list sink) (co_response_result c) (Some id)
          (completion_expiry_time c) (Some (co_invocation_target c))
    | Free => sm_lift Panic
    | _ =>
        match sink with
        | None => sm_ret tt
        | Some s =>
            let* sinks := sm_lift (expect (get_response_sinks previous)) in
            sm_when (bool_decide (s ∉ sinks)) (do_append_response_sink id previous s)
        end
    end ;;
    sm_ret None.

(** Returns the invocation in case it should run immediately. *)
Definition handle_service_invocation_execution_time (id : InvocationId)
    (m : PreFlightInvocationMetadata) : M (option PreFlightInvocationMetadata) :=
  match pf_execution_time m with
  | Some t =>
      register_timer (timer_neo_invoke t id) ;;
      put_status id (Scheduled (scheduled_from_pre_flight m record_created_at)) ;;
      sm_ret None
  | None => sm_ret (Some m)
  end.

(** Returns the invocation in case it was not put in the inbox. *)
Definition handle_service_invocation_exclusive_handler (id : InvocationId)
    (m : PreFlightInvocationMetadata) : M (option PreFlightInvocationMetadata) :=
  if is_exclusive_target (pf_invocation_target m) then
    let* sid := sm_lift (expect (as_keyed_service_id (pf_invocation_target m))) in
    let* lock := reads (get_virtual_object_status sid) in
    match lock with
    | Some _ =>
        let* seq := enqueue_into_inbox (InboxInvocation sid id) in
        put_status id (Inboxed (inboxed_from_pre_flight m seq record_created_at)) ;;
        sm_ret None
    | None =>
        tables (put_virtual_object_status sid (Some id)) ;;
        sm_ret (Some m)
    end
  else sm_ret (Some m).

Definition vqueue_enqueue (id : InvocationId) (m : PreFlightInvocationMetadata)
    (submit_sink : option SubmitNotificationSink) : M unit :=
  let* now := record_unique_ts in
  let* qid := sm_lift (expect (pf_vqueue_id m)) in
  let metadata := em_with_deployment
                    (deployment_id <$> argument_pinned_deployment (pf_input m))
                    entry_metadata_default in
  let* h := vqueue_from_invocation_target now qid (pf_invocation_target m) (pf_limit_key m) in
  enqueue_new vctx h now record_lsn (pf_execution_time m) (entry_id_of_invocation id) metadata ;;
  let status :=
    if match pf_execution_time m with Some t => record_created_at <? t | None => false end
    then Scheduled (scheduled_from_pre_flight m record_created_at)
    else Inboxed (inboxed_from_pre_flight m 1 record_created_at) in
  put_status id status ;;
  sm_when is_leader (send_submit_notification_if_needed (execution_time status) true submit_sink).

(** The journal of the second format is written when the invocation is
    accepted. *)
Definition prepare_journal (id : InvocationId) (m : PreFlightInvocationMetadata)
    : M PreFlightInvocationMetadata :=
  match use_journal_v2_as_default features, pf_input m with
  | true, PfInput i =>
      tables (put_journal_entry_v2 id 0 (input_entry_v2 (pi_headers i) (pi_argument i)) []) ;;
      sm_ret (pf_with_input (PfJournal
        {| pj_journal_metadata :=
             {| length := 1; commands := 1; span_context := pi_span_context i |};
           pj_pinned_deployment := None |}) m)
  | _, _ => sm_ret m
  end.

Definition on_pre_flight_invocation (id : InvocationId) (m : PreFlightInvocationMetadata)
    (submit_sink : option SubmitNotificationSink) : M unit :=
  let* m := prepare_journal id m in
  match pf_vqueue_id m with
  | Some _ => vqueue_enqueue id m submit_sink
  | None =>
      let execution_time := pf_execution_time m in
      let* now_ := handle_service_invocation_execution_time id m in
      match now_ with
      | None => send_submit_notification_if_needed execution_time true submit_sink
      | Some m =>
          let* unlocked := handle_service_invocation_exclusive_handler id m in
          match unlocked with
          | None => send_submit_notification_if_needed execution_time true submit_sink
          | Some m =>
              send_submit_notification_if_needed (pf_execution_time m) true submit_sink ;;
              let '(in_flight, input) := in_flight_from_pre_flight m record_created_at in
              init_journal_and_set_invoked id in_flight input
          end
      end
  end.

Definition on_service_invocation (si : ServiceInvocation) : M unit :=
  let* fresh := handle_duplicated_requests si in
  match fresh with
  | None => sm_ret tt
  | Some si =>
      let id := si_invocation_id si in
      let random_seed :=
        if pf_unique_random_seeds features
        then Some (to_random_seed_with_wal_record_time id record_created_at) else None in
      let qid :=
        if is_vqueues_enabled features
        then Some (infer_vqueue_id_from_invocation (inv_partition_key id)
                     (si_invocation_target si) (si_limit_key si))
        else None in
      on_pre_flight_invocation id
        (from_service_invocation record_created_at si qid random_seed record_lsn)
        (si_submit_notification_sink si)
  end.

(** ** State mutations from outside *)

Definition handle_external_state_mutation (m : ExternalStateMutation) : M unit :=
  if is_vqueues_enabled features then vqueue_enqueue_state_mutation m
  else
    let* lock := reads (get_virtual_object_status (sm_service_id (xm_input m))) in
    match lock with
    | Some _ => enqueue_into_inbox (InboxStateMutation m) ;; sm_ret tt
    | None => do_mutate_state (xm_input m)
    end.

(** ** Decisions of the queue scheduler *)

Definition to_base_id (pk : Z) (e : EntryId) : BaseEntryId :=
  {| be_partition_key := pk; be_entry := e |}.

(** Moves an invocation from the inbox stage to the running stage. *)
Definition run_invocation (qid : VQueueId) (key : EntryKey) (wait_stats : WaitStats) : M unit :=
  let* now := record_unique_ts in
  let base_id := to_base_id (vq_partition_key qid) (ek_entry_id key) in
  let* id := sm_lift (expect (to_invocation_id_opt base_id)) in
  let* header := reads (get_vqueue_entry_status base_id) in
  match header with
  | None => sm_ret tt
  | Some hd =>
      if negb (bool_decide (h_stage hd = StInbox)) then sm_ret tt
      else if negb (bool_decide (key = h_entry_key hd)) then sm_ret tt
      else if has_started hd then
        let* status := read_status id in
        let* h := vqueue_expect qid in
        let* target := sm_lift (expect (invocation_target status)) in
        run_entry vctx h now hd wait_stats ;;
        sm_when is_leader (push (VQInvoke h key target (idempotency_key status)))
      else
        let* status := read_status id in
        match status with
        | Scheduled {| sch_metadata := m |} | Inboxed {| inb_metadata := m |} =>
            let m := pf_backfill_creation_seq (h_seq hd) m in
            let '(in_flight, input) := in_flight_from_pre_flight m record_created_at in
            let* h := vqueue_expect qid in
            run_entry vctx h now hd wait_stats ;;
            init_journal_and_vqueue_invoke h key id in_flight input
        | _ => sm_lift Panic
        end
  end.

(** State mutations run and end at once. *)
Definition run_state_mutation (qid : VQueueId) (key : EntryKey) (wait_stats : WaitStats)
    : M unit :=
  let pk := vq_partition_key qid in
  let* header := reads (get_vqueue_entry_status (to_base_id pk (ek_entry_id key))) in
  let* local :=
    match header with
    | None => if pf_inconsistent_state_mutation_cleanup features then sm_ret None
              else reads (find_inbox_state_mutation_key qid key)
    | Some _ => sm_ret None
    end in
  let* resolved :=
    match local with
    | Some k => let* hd := reads (get_vqueue_entry_status (to_base_id pk (ek_entry_id k))) in
                sm_ret (k, hd)
    | None => sm_ret (key, header)
    end in
  let key := resolved.1 in
  match resolved.2 with
  | None => sm_ret tt
  | Some hd =>
      if negb (bool_decide (h_stage hd = StInbox)) then sm_ret tt
      else if negb (bool_decide (key = h_entry_key hd)) then sm_ret tt
      else
        let* input := reads (get_vqueue_input_payload qid (ek_seq key) (ek_entry_id key)) in
        match input with
        | None => sm_ret tt
        | Some m =>
            let* now := record_unique_ts in
            let* status := mutate_state m in
            let* h := vqueue_expect qid in
            run_then_finish vctx h now hd wait_stats status
        end
  end.

Definition attempt_to_run (qid : VQueueId) (key : EntryKey) (wait_stats : WaitStats) : M unit :=
  match ei_kind (ek_entry_id key) with
  | KindUnknown => sm_lift Panic
  | KindInvocation => run_invocation qid key wait_stats
  | KindStateMutation => run_state_mutation qid key wait_stats
  end.

(** ** Ending an invocation *)

(** The loop of [consume_inbox]: every round pops one entry. *)
Fixpoint consume_loop (fuel : nat) (sid : ServiceId) : M unit :=
  match fuel with
  | O => sm_ret tt
  | S fuel =>
      let* popped := λ s, let '(t, e) := pop_inbox sid (v_tables s) in
                          (on_tables (λ _, t) s, Ok e) in
      match popped with
      | None => tables (put_virtual_object_status sid None)
      | Some (_, InboxInvocation _ id) =>
          let* status := read_status id in
          match status with
          | Inboxed i =>
              tables (put_virtual_object_status sid (Some id)) ;;
              let '(m, input) := in_flight_from_inboxed i record_created_at in
              init_journal_and_set_invoked id m input
          | _ => sm_lift Panic
          end
      | Some (_, InboxStateMutation m) =>
          mutate_state (xm_input m) ;; consume_loop fuel sid
      end
  end.

Definition consume_inbox (target : InvocationTarget) : M unit :=
  if is_exclusive_target target then
    let* sid := sm_lift (expect (as_keyed_service_id target)) in
    let* rows := reads (inbox_of sid) in
    consume_loop (S (List.length rows)) sid
  else sm_ret tt.

Definition response_of_value (r : ValueResult) : ResponseResult :=
  match r with
  | RSuccess v => ResponseSuccess v
  | RFailure f => ResponseFailure (error_of_failure f)
  end.

(** The search for the last output entry, from index [n - 1] downwards. *)
Fixpoint last_output_v2 (id : InvocationId) (n : nat) : M (option ResponseResult) :=
  match n with
  | O => sm_ret None
  | S n =>
      let* stored := reads (get_journal_entry_v2 id (Z.of_nat n)) in
      let* e := sm_lift (expect stored) in
      match se_inner e with
      | RawEntryCommand cmd =>
          if bool_decide (command_type cmd = TOutput) then
            match decode_command cmd with
            | Some (COutput r _) => sm_ret (Some (response_of_value r))
            | _ => sm_lift (Err ErrorEntryDecoding)
            end
          else last_output_v2 id n
      | RawEntryNotification _ => last_output_v2 id n
      end
  end.

Fixpoint last_output_v1 (id : InvocationId) (n : nat) : M (option ResponseResult) :=
  match n with
  | O => sm_ret None
  | S n =>
      let* stored := reads (get_journal_entry_v1 id (Z.of_nat n)) in
      let* e := sm_lift (expect stored) in
      match e with
      | JEntry {| er_header := HOutput; er_entry := p |} =>
          match p with
          | None => sm_lift (Err ErrorCodec)
          | Some (EOutput r) => sm_ret (Some (response_of_entry_result r))
          | Some _ => sm_lift Panic
          end
      | _ => last_output_v1 id n
      end
  end.

Definition read_last_output_entry_result (id : InvocationId) (journal_length : Z)
    (service_protocol_version : Z) : M (option ResponseResult) :=
  if V4 <=? service_protocol_version then last_output_v2 id (Z.to_nat journal_length)
  else last_output_v1 id (Z.to_nat journal_length).

(** The status that a result stands for when no flavor is given. *)
Definition end_status_of (r : ResponseResult) : Status :=
  match r with
  | ResponseSuccess _ => SSucceeded
  | ResponseFailure e => if ie_code e =? codes.ABORTED then SCancelled else SFailed
  end.

Definition flavor_status (f : TerminationFlavor) : Status :=
  match f with Cancel => SCancelled | Kill => SKilled end.

Definition retention_policy (journal_retention : Z) : JournalRetentionPolicy :=
  if journal_retention =? 0 then Drop else Retain.

Definition pinned_version (p : option PinnedDeployment) : option Z :=
  service_protocol_version <$> p.

(** After the responses: cleanup, and the next entry of the queue or inbox. *)
Definition finish_invocation (id : InvocationId) (m : InFlightInvocationMetadata)
    (end_status : Status) : M unit :=
  let target := if_invocation_target m in
  sm_when (if_completion_retention_duration m =? 0) (do_free_invocation id) ;;
  sm_when (if_journal_retention_duration m =? 0)
    (do_drop_journal id (length (if_journal_metadata m)) (pinned_version (if_pinned_deployment m))
       (is_deterministic target (if_idempotency_key m))) ;;
  match if_vqueue_id m with
  | Some qid =>
      let* header := reads (get_vqueue_entry_status (base_id_of_invocation id)) in
      match header with
      | None => sm_ret tt
      | Some hd =>
          let* now := record_unique_ts in
          let* h := vqueue_expect qid in
          vqueue_end vctx h now hd end_status (if_completion_retention_duration m)
      end
  | None => consume_inbox target
  end.

Definition end_invocation (id : InvocationId) (m : InFlightInvocationMetadata)
    (flavor : option TerminationFlavor) (response_result_override : option ResponseResult)
    : M unit :=
  let retention := if_completion_retention_duration m in
  let finish status :=
    finish_invocation id m (match flavor with Some f => flavor_status f | None => status end) in
  if negb (bool_decide (if_response_sinks m = ∅)) || negb (retention =? 0) then
    let* result :=
      match response_result_override with
      | Some r => sm_ret (Some r)
      | None => read_last_output_entry_result id (length (if_journal_metadata m))
                  (default 0 (pinned_version (if_pinned_deployment m)))
      end in
    match result with
    | None => sm_ret tt
    | Some r =>
        send_response_to_sinks (sink_order (if_response_sinks m)) r (Some id) None
          (Some (if_invocation_target m)) ;;
        sm_when (negb (retention =? 0))
          (do_store_completed_invocation id
             (completed_from_in_flight m (retention_policy (if_journal_retention_duration m)) r
                record_created_at)) ;;
        finish (end_status_of r)
    end
  else finish SSucceeded.

(** ** Killing *)

Definition callees_to_kill_v2 (journal : list (Z * StoredRawEntry)) : list InvocationId :=
  omap (λ e, match se_inner e.2 with
             | RawEntryCommand cmd => call_or_send_id cmd
             | RawEntryNotification _ => None
             end) journal.
Definition callees_to_kill_v1 (journal : list (Z * JournalEntry)) : list InvocationId :=
  omap (λ e, match e.2 with
             | JEntry {| er_header := HCall false (Some en) |} => Some (ce_invocation_id en)
             | _ => None
             end) journal.

Definition terminate_message (flavor : TerminationFlavor) (id : InvocationId) : OutboxMessage :=
  OutInvocationTermination
    {| term_invocation_id := id; term_flavor := flavor; term_response_sink := None |}.

Definition kill_child_invocations (id : InvocationId) (journal_length : Z)
    (m : InFlightInvocationMetadata) : M unit :=
  let* to_kill :=
    if match if_pinned_deployment m with
       | Some pd => V4 <=? service_protocol_version pd
       | None => false
       end
    then reads (λ t, callees_to_kill_v2 (get_journal_v2 id journal_length t))
    else reads (λ t, callees_to_kill_v1 (get_journal_v1 id journal_length t)) in
  sm_for (λ i, do_enqueue_into_outbox (terminate_message Kill i)) to_kill.

Definition kill_invoked_invocation (id : InvocationId) (m : InFlightInvocationMetadata)
    : M unit :=
  kill_child_invocations id (length (if_journal_metadata m)) m ;;
  end_invocation id m (Some Kill) (Some (ResponseFailure KILLED_INVOCATION_ERROR)) ;;
  send_abort_invocation_to_invoker id.

Definition kill_suspended_or_paused_invocation (id : InvocationId)
    (m : InFlightInvocationMetadata) : M unit :=
  kill_child_invocations id (length (if_journal_metadata m)) m ;;
  end_invocation id m (Some Kill) (Some (ResponseFailure KILLED_INVOCATION_ERROR)) ;;
  send_abort_invocation_to_invoker id.

(** ** Terminating an invocation that has not started *)

Definition termination_error (f : TerminationFlavor) : InvocationError :=
  match f with Kill => KILLED_INVOCATION_ERROR | Cancel => CANCELED_INVOCATION_ERROR end.

(** What the termination of an inboxed and of a scheduled invocation have in
    common; [leave] takes the invocation out of the inbox or the timers. *)
Definition terminate_pre_flight (flavor : TerminationFlavor) (id : InvocationId)
    (m : PreFlightInvocationMetadata) (leave : M unit) : M unit :=
  let error := termination_error flavor in
  let '(completion_retention, journal_retention) :=
    if pf_preflight_invocation_termination_retention features
    then (pf_completion_retention_duration m, pf_journal_retention_duration m)
    else (0, 0) in
  let journal_to_drop :=
    match pf_input m with
    | PfJournal j =>
        if journal_retention =? 0
        then Some (length (pj_journal_metadata j), pinned_version (pj_pinned_deployment j),
                   is_deterministic (pf_invocation_target m) (pf_idempotency_key m))
        else None
    | PfInput _ => None
    end in
  send_response_to_sinks (sink_order (pf_response_sinks m)) (ResponseFailure error) (Some id) None
    (Some (pf_invocation_target m)) ;;
  let* m :=
    match pf_vqueue_id m with
    | Some qid =>
        let* header := reads (get_vqueue_entry_status (base_id_of_invocation id)) in
        match header with
        | None => sm_ret m
        | Some hd =>
            let* now := record_unique_ts in
            let* h := vqueue_expect qid in
            vqueue_end vctx h now hd (flavor_status flavor) completion_retention ;;
            sm_ret (pf_backfill_creation_seq (h_seq hd) m)
        end
    | None => leave ;; sm_ret m
    end in
  (if completion_retention =? 0 then do_free_invocation id
   else do_store_completed_invocation id
          (completed_from_pre_flight m (retention_policy journal_retention)
             (ResponseFailure error) record_created_at)) ;;
  match journal_to_drop with
  | Some (journal_length, version, delete_pending_timers) =>
      do_drop_journal id journal_length version delete_pending_timers
  | None => sm_ret tt
  end.

Definition terminate_inboxed_invocation (flavor : TerminationFlavor) (id : InvocationId)
    (i : InboxedInvocation) : M unit :=
  let m := inb_metadata i in
  terminate_pre_flight flavor id m
    (let* sid := sm_lift (expect (as_keyed_service_id (pf_invocation_target m))) in
     do_delete_inbox_entry sid (inb_sequence_number i)).

Definition terminate_scheduled_invocation (flavor : TerminationFlavor) (id : InvocationId)
    (s : ScheduledInvocation) : M unit :=
  let m := sch_metadata s in
  terminate_pre_flight flavor id m
    (match pf_execution_time m with
     | Some t => do_delete_timer (neo_invoke_key t id)
     | None => sm_ret tt
     end).

Definition on_kill_invocation (id : InvocationId) (sink : option InvocationMutationResponseSink)
    : M unit :=
  let* status := read_status id in
  match status with
  | Invoked m => kill_invoked_invocation id m ;; reply_to_kill sink KillOk
  | Suspended m _ | Paused m =>
      kill_suspended_or_paused_invocation id m ;; reply_to_kill sink KillOk
  | Inboxed i => terminate_inboxed_invocation Kill id i ;; reply_to_kill sink KillOk
  | Scheduled i => terminate_scheduled_invocation Kill id i ;; reply_to_kill sink KillOk
  | Completed _ => reply_to_kill sink KillAlreadyCompleted
  | Free => send_abort_invocation_to_invoker id ;; reply_to_kill sink KillNotFound
  end.
End lifecycle.
