(* ===== verification/JournalEntries.v ===== *)
(** * The partition processor's state machine: journal entries, suspension, pause

    [state_machine/entries/*]: the effects of the commands of a journal of the
    second format, and the loop that appends an entry together with the
    completions that its effects produce; and of [state_machine/lifecycle/*] the
    commands that suspend, pause, resume and yield an invocation, record an
    event, migrate a journal, and deliver responses, sleeps and outputs. *)

From Stdlib Require Import Ascii.
From stdpp Require Import strings.
From S2P Require Import Prelude UnresolvedFuture Clock Invocation InvocationStatus JournalV1.
From S2P Require Import VQueueMeta PartitionStore VQueueCache VQueue StateMachineBase.
From S2P Require Import InvocationLifecycle.

Open Scope Z_scope.

(** ** UTF-8 ([String::from_utf8]) *)

Definition byte_in (lo hi b : Z) : bool := (lo <=? b) && (b <=? hi).

(** The continuation bytes that follow a first byte: the range of the second
    byte, and how many more there are. *)
Definition utf8_tail (b : Z) : option (Z * Z * nat) :=
  if byte_in 0xC2 0xDF b then Some (0x80, 0xBF, 0%nat)
  else if b =? 0xE0 then Some (0xA0, 0xBF, 1%nat)
  else if byte_in 0xE1 0xEC b || byte_in 0xEE 0xEF b then Some (0x80, 0xBF, 1%nat)
  else if b =? 0xED then Some (0x80, 0x9F, 1%nat)
  else if b =? 0xF0 then Some (0x90, 0xBF, 2%nat)
  else if byte_in 0xF1 0xF3 b then Some (0x80, 0xBF, 2%nat)
  else if b =? 0xF4 then Some (0x80, 0x8F, 2%nat)
  else None.

(** [expect] is what the current character still needs. *)
Fixpoint utf8_valid_from (expect : option (Z * Z * nat)) (bs : list Z) : bool :=
  match bs, expect with
  | [], None => true
  | [], Some _ => false
  | b :: bs, Some (lo, hi, more) =>
      byte_in lo hi b
      && utf8_valid_from (match more with O => None | S n => Some (0x80, 0xBF, n) end) bs
  | b :: bs, None =>
      if b <=? 0x7F then utf8_valid_from None bs
      else match utf8_tail b with
           | Some e => utf8_valid_from (Some e) bs
           | None => false
           end
  end.

Definition from_utf8_ok (s : string) : bool := utf8_valid_from None (bytes_of s).

Section entries.
Context `{!Digests, !SlotKeys, !Ctx}.

(** ** Resume, events, migration *)

(** [ResumeInvocationCommand]: returns the new status. *)
Definition resume_invocation_command (id : InvocationId) (status : InvocationStatus)
    : M InvocationStatus :=
  match get_invocation_metadata status with
  | None => sm_ret status
  | Some m =>
      let m := if_with_timestamps (timestamps_update record_created_at) m in
      let* m := match if_vqueue_id m with
                | Some _ => let* seq := vqueue_move_invocation_to_inbox_stage id in
                            sm_ret (if_backfill_creation_seq seq m)
                | None => sm_ret m
                end in
      sm_ret (Invoked m)
  end.

Definition apply_event (id : InvocationId) (status : InvocationStatus) (event : Event) : M unit :=
  match get_journal_metadata status with
  | None => sm_ret tt
  | Some jm =>
      tables (put_journal_event id
        {| evv_append_time := record_created_at;
           evv_after_journal_entry_index := saturating_sub (length jm) 1;
           evv_event := event |} record_lsn)
  end.

(** [VerifyOrMigrateJournalTableToV2Command]: returns the metadata. *)
Definition verify_or_migrate_journal_table (id : InvocationId) (m : InFlightInvocationMetadata)
    : M InFlightInvocationMetadata :=
  let n := length (if_journal_metadata m) in
  if n =? 1 then
    let* old := reads (get_journal_entry_v1 id 0) in
    match old with
    | None => sm_ret m
    | Some (JCompletion _) => sm_lift Panic
    | Some (JEntry e) =>
        match er_entry e with
        | None => sm_lift (Err ErrorCodec)
        | Some (EInput headers value) =>
            tables (put_journal_entry_v2 id 0 (input_entry_v2 headers value) []) ;;
            tables (delete_journal_v1 id 1) ;;
            sm_ret (if_with_journal_metadata (set_commands 1) m)
        | Some _ => sm_lift Panic
        end
    end
  else if 1 <=? n then
    let* first := reads (get_journal_entry_v2 id 0) in
    assert_ (bool_decide (is_Some first)) ;; sm_ret m
  else sm_ret m.

(** ** Effects of commands

    Each returns the completions that are appended after the command. *)

Definition metadata_expect (status : InvocationStatus) : M InFlightInvocationMetadata :=
  sm_lift (expect (get_invocation_metadata status)).

(** The keyed service of the invocation, if it has one. *)
Definition keyed_service (status : InvocationStatus) : M (option ServiceId) :=
  let* m := metadata_expect status in sm_ret (as_keyed_service_id (if_invocation_target m)).

Definition apply_get_lazy_state (status : InvocationStatus) (key : string) (cid : Z)
    : M (list Completion) :=
  let* sid := keyed_service status in
  let* result := match sid with
                 | Some sid => reads (get_user_state sid key)
                 | None => sm_ret None
                 end in
  sm_ret [GetLazyStateCompletion cid result].

Definition apply_set_state (status : InvocationStatus) (key value : string)
    : M (list Completion) :=
  let* sid := keyed_service status in
  match sid with
  | Some sid => tables (put_user_state sid key value)
  | None => sm_ret tt
  end ;; sm_ret [].

Definition apply_clear_state (status : InvocationStatus) (key : string) : M (list Completion) :=
  let* sid := keyed_service status in
  match sid with
  | Some sid => tables (delete_user_state sid key)
  | None => sm_ret tt
  end ;; sm_ret [].

Definition apply_clear_all_state (status : InvocationStatus) : M (list Completion) :=
  let* sid := keyed_service status in
  match sid with
  | Some sid => tables (delete_all_user_state sid)
  | None => sm_ret tt
  end ;; sm_ret [].

Definition apply_get_lazy_state_keys (status : InvocationStatus) (cid : Z)
    : M (list Completion) :=
  let* sid := keyed_service status in
  let* keys := match sid with
               | Some sid => reads (λ t, (get_all_user_states sid t).*1)
               | None => sm_ret []
               end in
  if forallb from_utf8_ok keys then sm_ret [GetLazyStateKeysCompletion cid keys]
  else sm_lift (Err (ErrorApplyCommandEffect TGetLazyStateKeys)).

Definition apply_get_promise (id : InvocationId) (status : InvocationStatus) (key : string)
    (cid : Z) : M (list Completion) :=
  let* sid := keyed_service status in
  match sid with
  | None => sm_ret [GetPromiseCompletion cid (RSuccess "")]
  | Some sid =>
      let listener := {| caller_id := id; caller_completion_id := cid |} in
      let* p := reads (get_promise sid key) in
      match p with
      | Some (PsCompleted r) => sm_ret [GetPromiseCompletion cid (get_promise_result r)]
      | Some (PsNotCompleted v) =>
          tables (put_promise sid key (PsNotCompleted (v ++ [listener]))) ;; sm_ret []
      | None => tables (put_promise sid key (PsNotCompleted [listener])) ;; sm_ret []
      end
  end.

Definition apply_peek_promise (status : InvocationStatus) (key : string) (cid : Z)
    : M (list Completion) :=
  let* sid := keyed_service status in
  let* result :=
    match sid with
    | None => sm_ret OVoid
    | Some sid =>
        let* p := reads (get_promise sid key) in
        match p with
        | Some (PsCompleted r) => sm_ret (peek_promise_result r)
        | _ => sm_ret OVoid
        end
    end in
  sm_ret [PeekPromiseCompletion cid result].

Definition apply_complete_promise (status : InvocationStatus) (key : string)
    (value : ValueResult) (cid : Z) : M (list Completion) :=
  let* sid := keyed_service status in
  let* result :=
    match sid with
    | None => sm_ret None
    | Some sid =>
        let* p := reads (get_promise sid key) in
        match p with
        | None =>
            tables (put_promise sid key (PsCompleted (promise_of_value value))) ;; sm_ret None
        | Some (PsNotCompleted listeners) =>
            sm_for (λ l, do_enqueue_into_outbox (OutServiceResponse
                           {| resp_target := l; resp_result := response_of_value value |}))
              listeners ;;
            tables (put_promise sid key (PsCompleted (promise_of_value value))) ;; sm_ret None
        | Some (PsCompleted _) =>
            sm_ret (Some (failure_of_error ALREADY_COMPLETED_INVOCATION_ERROR))
        end
    end in
  sm_ret [CompletePromiseCompletion cid result].

Definition apply_sleep (id : InvocationId) (status : InvocationStatus) (wake_up_time cid : Z)
    : M (list Completion) :=
  let* _ := metadata_expect status in
  register_timer (timer_complete_journal_entry wake_up_time id cid) ;; sm_ret [].

(** [_ApplyCallCommand]. *)
Definition apply_call (id : InvocationId) (status : InvocationStatus) (q : CallRequest)
    (execution_time : option Z) (invocation_id_cid : Z) (result_cid : option Z)
    : M (list Completion) :=
  let* m := metadata_expect status in
  do_enqueue_into_outbox (OutServiceInvocation
    {| si_invocation_id := cr_invocation_id q;
       si_invocation_target := cr_invocation_target q;
       si_argument := cr_parameter q;
       si_source := SourceService id (if_invocation_target m);
       si_span_context := cr_span_context q;
       si_headers := cr_headers q;
       si_execution_time := execution_time;
       si_completion_retention_duration := cr_completion_retention_duration q;
       si_journal_retention_duration := cr_journal_retention_duration q;
       si_idempotency_key := cr_idempotency_key q;
       si_limit_key := cr_limit_key q;
       si_response_sink :=
         (λ c, SinkPartitionProcessor {| caller_id := id; caller_completion_id := c |})
           <$> result_cid;
       si_submit_notification_sink := None;
       si_restate_version := current_restate_version |}) ;;
  sm_ret [CallInvocationIdCompletion invocation_id_cid (cr_invocation_id q)].

Definition apply_attach (id : InvocationId) (target : AttachInvocationTarget) (cid : Z)
    (block_on_inflight : bool) : M (list Completion) :=
  do_enqueue_into_outbox (OutAttachInvocation
    {| ar_invocation_query := query_of_attach target;
       ar_block_on_inflight := block_on_inflight;
       ar_response_sink :=
         SinkPartitionProcessor {| caller_id := id; caller_completion_id := cid |} |}) ;;
  sm_ret [].

Definition optional_of_value (r : ValueResult) : OptionalResult :=
  match r with RSuccess v => OSuccess v | RFailure f => OFailure f end.

Definition apply_complete_awakeable (target : CompleteAwakeableId) (result : ValueResult)
    : M (list Completion) :=
  do_enqueue_into_outbox
    (match target with
     | AwakeableOld id entry_index =>
         OutServiceResponse
           {| resp_target := {| caller_id := id; caller_completion_id := entry_index |};
              resp_result := response_of_value result |}
     | AwakeableNew id signal =>
         OutNotifySignal {| ns_invocation_id := id;
           ns_signal := {| sig_id := signal; sig_result := optional_of_value result |} |}
     end) ;;
  sm_ret [].

Definition apply_send_signal (target : InvocationId) (signal : SignalId)
    (result : OptionalResult) : M (list Completion) :=
  do_enqueue_into_outbox (OutNotifySignal
    {| ns_invocation_id := target;
       ns_signal := {| sig_id := signal; sig_result := result |} |}) ;;
  sm_ret [].

Definition apply_command (id : InvocationId) (status : InvocationStatus) (c : Command)
    : M (list Completion) :=
  match c with
  | CInput _ _ _ | COutput _ _ | CGetEagerState _ _ _ | CGetEagerStateKeys _ _ | CRun _ _ =>
      sm_ret []
  | CGetLazyState key cid _ => apply_get_lazy_state status key cid
  | CSetState key value _ => apply_set_state status key value
  | CClearState key _ => apply_clear_state status key
  | CClearAllState _ => apply_clear_all_state status
  | CGetLazyStateKeys cid _ => apply_get_lazy_state_keys status cid
  | CGetPromise key cid _ => apply_get_promise id status key cid
  | CPeekPromise key cid _ => apply_peek_promise status key cid
  | CCompletePromise key value cid _ => apply_complete_promise status key value cid
  | CSleep wake_up_time cid _ => apply_sleep id status wake_up_time cid
  | CCall q icid rcid _ => apply_call id status q None icid (Some rcid)
  | COneWayCall q invoke_time icid _ =>
      apply_call id status q (if invoke_time =? 0 then None else Some invoke_time) icid None
  | CSendSignal target signal result _ => apply_send_signal target signal result
  | CAttachInvocation target cid _ => apply_attach id target cid true
  | CGetInvocationOutput target cid _ => apply_attach id target cid false
  | CCompleteAwakeable target result _ => apply_complete_awakeable target result
  end.

(** ** Notifications *)

(** [ApplyNotificationCommand]: returns the new status. *)
Definition apply_notification (id : InvocationId) (status : InvocationStatus)
    (n : RawNotification) (entry_index : Z) : M InvocationStatus :=
  match status with
  | Suspended m awaiting_on =>
      let '(awaiting_on, resolved) :=
        resolve (lookup_notification (rn_id n) (rn_result_variant n)) awaiting_on in
      let status := Suspended m awaiting_on in
      if resolved then resume_invocation_command id status else sm_ret status
  | Invoked _ => forward_notification id entry_index (rn_id n) ;; sm_ret status
  | Paused _ =>
      if bool_decide (rn_id n = CANCEL_NOTIFICATION_ID)
      then resume_invocation_command id status else sm_ret status
  | _ => sm_ret status
  end.

(** ** Appending entries *)

Definition journal_appended (is_cmd : bool) (jm : JournalMetadata) : JournalMetadata :=
  {| length := length jm + 1; commands := if is_cmd then commands jm + 1 else commands jm;
     span_context := span_context jm |}.

(** One round of the loop: the new status, and the completions to append. *)
Definition append_entry (id : InvocationId) (status : InvocationStatus) (entry : RawEntry)
    : M (InvocationStatus * list Completion) :=
  let* jm := sm_lift (expect (get_journal_metadata status)) in
  let entry_index := length jm in
  let* effect :=
    match entry with
    | RawEntryCommand raw =>
        match decode_command raw with
        | None => sm_lift (Err ErrorEntryDecoding)
        | Some cmd =>
            let* completions := apply_command id status cmd in
            sm_ret (status, completions, related_completion_ids cmd)
        end
    | RawEntryNotification n =>
        let* status := apply_notification id status n entry_index in
        sm_ret (status, [], [])
    end in
  let '(status, completions, related) := effect in
  let* _ := sm_lift (expect (get_journal_metadata status)) in
  tables (put_journal_entry_v2 id entry_index
            {| se_append_time := record_created_at; se_inner := entry |} related) ;;
  sm_ret (map_journal_metadata (journal_appended (is_command entry)) status, completions).

(** A command has at most one completion and a notification has none, so two
    rounds are enough ([append_entries_fuel] of [JournalProps]). *)
Fixpoint append_entries (fuel : nat) (id : InvocationId) (status : InvocationStatus)
    (entries : list RawEntry) : M InvocationStatus :=
  match entries, fuel with
  | [], _ => sm_ret status
  | _, O => sm_lift Panic
  | e :: entries, S fuel =>
      let* r := append_entry id status e in
      append_entries fuel id r.1 (entries ++ (encode_completion <$> r.2))
  end.

(** [OnJournalEntryCommand]. *)
Definition on_journal_entry_command (id : InvocationId) (status : InvocationStatus)
    (entry : RawEntry) : M unit :=
  match get_invocation_metadata status with
  | None => sm_ret tt
  | Some m =>
      let* m := match if_pinned_deployment m with
                | None => verify_or_migrate_journal_table id m
                | Some _ => sm_ret m
                end in
      let status := map_invocation_metadata (λ _, m) status in
      let* status := append_entries 2 id status [entry] in
      put_status id (map_timestamps (timestamps_update record_created_at) status)
  end.

Definition on_journal_notification (id : InvocationId) (status : InvocationStatus)
    (n : Notification) : M unit :=
  on_journal_entry_command id status (encode_notification n).

(** ** Suspension *)

(** [OnSuspendCommand]. *)
Definition on_suspend_command (id : InvocationId) (status : InvocationStatus)
    (awaiting_on : UnresolvedFuture) (emit_event : bool) : M unit :=
  let* index := reads (get_notifications_index id) in
  let '(awaiting_on, resolved) := resolve (lookup_map (snd <$> index)) awaiting_on in
  let* status :=
    if resolved : bool then resume_invocation_command id status
    else
      sm_when emit_event (apply_event id status (EvSuspended awaiting_on)) ;;
      let* m := metadata_expect status in
      let m := if_with_timestamps (timestamps_update record_created_at) m in
      let* m := match if_vqueue_id m with
                | Some _ =>
                    let* now := record_unique_ts in
                    let* hd := entry_status_expect id in
                    let* h := vqueue_expect (h_qid hd) in
                    suspend_entry vctx h now hd ;;
                    sm_ret (if_backfill_creation_seq (h_seq hd) m)
                | None => sm_ret m
                end in
      sm_ret (Suspended m awaiting_on) in
  put_status id status.

(** ** Pause *)

Definition pause_invocation (id : InvocationId) (m : InFlightInvocationMetadata)
    (paused_event : Event) : M unit :=
  let* m :=
    match if_vqueue_id m with
    | None => sm_ret (Some m)
    | Some _ =>
        let* header := reads (get_vqueue_entry_status (base_id_of_invocation id)) in
        match header with
        | None => sm_ret None
        | Some hd =>
            let* now := record_unique_ts in
            let* h := vqueue_expect (h_qid hd) in
            pause_entry vctx h now hd ;;
            sm_ret (Some (if_backfill_creation_seq (h_seq hd) m))
        end
    end in
  match m with
  | None => sm_ret tt
  | Some m =>
      let status := Paused m in
      apply_event id status paused_event ;;
      put_status id (map_timestamps (timestamps_update record_created_at) status)
  end.

(** [OnPausedCommand]. *)
Definition on_paused_command (id : InvocationId) (paused_event : Event) : M unit :=
  let* status := read_status id in
  match status with
  | Invoked m => pause_invocation id m paused_event
  | _ => sm_ret tt
  end.

(** [OnManualPauseCommand]. *)
Definition on_manual_pause_command (id : InvocationId)
    (sink : option InvocationMutationResponseSink) : M unit :=
  let* status := read_status id in
  let* response :=
    match status with
    | Invoked m =>
        pause_invocation id m (EvPaused None) ;;
        send_abort_invocation_to_invoker id ;;
        sm_ret PauseAccepted
    | Suspended m _ => pause_invocation id m (EvPaused None) ;; sm_ret PauseAccepted
    | Paused _ => sm_ret PauseAlreadyPaused
    | Scheduled _ | Inboxed _ | Completed _ => sm_ret PauseNotRunning
    | Free => sm_ret PauseNotFound
    end in
  reply_to_pause_invocation sink response.

(** ** Yield *)

(** [YieldInvocationCommand]. *)
Definition yield_invocation_command (id : InvocationId) (target : option InvocationTarget)
    (reason : YieldReason) (resume_at : option RoughTimestamp) : M unit :=
  let* now := record_unique_ts in
  let* header := reads (get_vqueue_entry_status (base_id_of_invocation id)) in
  match header with
  | None => sm_ret tt
  | Some hd =>
      if negb (bool_decide (h_stage hd = StRunning)) then sm_ret tt
      else
        let* _ := match target with
                  | Some t => sm_ret t
                  | None => let* status := read_status id in
                            sm_lift (expect (invocation_target status))
                  end in
        let* h := vqueue_expect (h_qid hd) in
        yield_entry vctx h now hd resume_at reason
  end.

(** ** Responses from other invocations *)

Definition value_of_response (r : ResponseResult) : ValueResult :=
  match r with
  | ResponseSuccess v => RSuccess v
  | ResponseFailure e => RFailure (failure_of_error e)
  end.

Definition output_of_response (r : ResponseResult) : OptionalResult :=
  match r with
  | ResponseSuccess v => OSuccess v
  | ResponseFailure e =>
      if bool_decide (e = NOT_READY_INVOCATION_ERROR) then OVoid
      else OFailure (failure_of_error e)
  end.

(** The completion that a response is for a command of the given type. *)
Definition response_completion (ty : CommandType) (cid : Z) (r : ResponseResult)
    : option Completion :=
  match ty with
  | TGetPromise => Some (GetPromiseCompletion cid (value_of_response r))
  | TSleep => Some (SleepCompletion cid)
  | TCall => Some (CallCompletion cid (value_of_response r))
  | TAttachInvocation => Some (AttachInvocationCompletion cid (value_of_response r))
  | TGetInvocationOutput => Some (GetInvocationOutputCompletion cid (output_of_response r))
  | _ => None
  end.

(** [OnNotifyInvocationResponse]. *)
Definition on_notify_invocation_response (id : InvocationId) (status : InvocationStatus)
    (cid : Z) (result : ResponseResult) : M unit :=
  let* t := reads Datatypes.id in
  let* cmd := sm_lift (get_command_by_completion_id (ErrorStorage "conversion") id cid t) in
  match cmd with
  | None => sm_lift (Err (ErrorMissingCommandForInvocationResponse cid))
  | Some (_, cmd) =>
      match response_completion (command_type cmd) cid result with
      | None => sm_lift (Err (ErrorBadCommandTypeForInvocationResponse (command_type cmd) cid))
      | Some c => on_journal_notification id status (NCompletion c)
      end
  end.

(** [OnNotifySleepCompletionCommand]. *)
Definition on_notify_sleep_completion (id : InvocationId) (status : InvocationStatus) (cid : Z)
    : M unit := on_journal_notification id status (NCompletion (SleepCompletion cid)).

(** [OnNotifyGetInvocationOutputResponse]. *)
Definition on_notify_get_invocation_output_response (target : JournalCompletionTarget)
    (result : OptionalResult) : M unit :=
  let* status := read_status (caller_id target) in
  on_journal_notification (caller_id target) status
    (NCompletion (GetInvocationOutputCompletion (caller_completion_id target) result)).
End entries.
