(* ===== verification/JournalV1Handlers.v ===== *)
(** * The partition processor's state machine: journals of the first format

    The methods of [state_machine/mod.rs] for service protocols up to version 3:
    the effects of entries ([handle_journal_entry]), completions
    ([handle_completion]), cancellation by completing the open entries
    ([cancel_journal_leaves]), and [on_cancel_invocation], which chooses between
    the two formats.  [forward_completion] does nothing: the invoker no longer
    runs these protocols. *)

From stdpp Require Import strings.
From S2P Require Import Prelude UnresolvedFuture Clock Invocation InvocationStatus JournalV1.
From S2P Require Import IdText VQueueMeta PartitionStore VQueueCache VQueue StateMachineBase.
From S2P Require Import InvocationLifecycle JournalEntries.

Open Scope Z_scope.

(** The protobuf message of [serialize_get_state_keys_completion]. *)
Class StateKeysCodec := serialize_state_keys : list string → string.

Section journal_v1.
Context `{!Digests, !SlotKeys, !Ctx, !Base62, !Base64, !StateKeysCodec}.

(** ** Completions *)

Definition handle_completion_for_suspended (id : InvocationId) (entry_index : Z)
    (result : CompletionResult) (waiting : gset Z) : M bool :=
  store_completion id entry_index result ;;
  sm_ret (bool_decide (entry_index ∈ waiting)).

Definition handle_completion_for_paused (id : InvocationId) (entry_index : Z)
    (result : CompletionResult) : M unit :=
  store_completion id entry_index result ;; sm_ret tt.

Definition handle_completion_for_invoked (id : InvocationId) (entry_index : Z)
    (result : CompletionResult) : M unit :=
  store_completion id entry_index result ;; sm_ret tt.

(** The entries that a suspended invocation waits for; a panic when it waits
    for something else. *)
Definition awaited_entries (awaiting_on : UnresolvedFuture) : M (gset Z) :=
  let ids := elements (flatten awaiting_on) in
  match mapM (λ n, match n with NCompletionId i => Some i | _ => None end) ids with
  | Some l => sm_ret (list_to_set l)
  | None => sm_lift Panic
  end.

Definition handle_completion (id : InvocationId) (status : InvocationStatus) (entry_index : Z)
    (result : CompletionResult) : M unit :=
  match status with
  | Invoked _ => handle_completion_for_invoked id entry_index result
  | Suspended m awaiting_on =>
      let* waiting := awaited_entries awaiting_on in
      let* resume := handle_completion_for_suspended id entry_index result waiting in
      sm_when resume (do_resume_service id m)
  | _ => sm_ret tt
  end.

(** ** Cancellation *)

Inductive InvocationStatusProjection :=
| ProjInvoked
| ProjPaused
| ProjSuspended (waiting : gset Z).

Definition cancel_journal_entry_with (id : InvocationId) (status : InvocationStatusProjection)
    (journal_index : Z) (result : CompletionResult) : M bool :=
  match status with
  | ProjInvoked => handle_completion_for_invoked id journal_index result ;; sm_ret false
  | ProjPaused => handle_completion_for_paused id journal_index result ;; sm_ret false
  | ProjSuspended waiting => handle_completion_for_suspended id journal_index result waiting
  end.

(** Returns whether the entry resumes the invocation. *)
Definition cancel_journal_leaf (id : InvocationId) (status : InvocationStatusProjection)
    (leaf : Z * EnrichedRawEntry) : M bool :=
  let canceled_result := completion_of_error CANCELED_INVOCATION_ERROR in
  let '(index, e) := leaf in
  match er_header e with
  | HCall _ (Some enrichment) =>
      do_enqueue_into_outbox (terminate_message Cancel (ce_invocation_id enrichment)) ;;
      sm_ret false
  | HSleep false =>
      let* resume := cancel_journal_entry_with id status index canceled_result in
      match er_entry e with
      | None => sm_lift (Err ErrorCodec)
      | Some (ESleep wake_up_time) =>
          do_delete_timer (complete_journal_entry_key wake_up_time id index) ;; sm_ret resume
      | Some _ => sm_lift Panic
      end
  | _ => cancel_journal_entry_with id status index canceled_result
  end.

Fixpoint cancel_leaves (id : InvocationId) (status : InvocationStatusProjection)
    (leaves : list (Z * EnrichedRawEntry)) (resume : bool) : M bool :=
  match leaves with
  | [] => sm_ret resume
  | l :: leaves =>
      let* r := cancel_journal_leaf id status l in
      cancel_leaves id status leaves (resume || r)
  end.

Definition open_entries (journal : list (Z * JournalEntry)) : list (Z * EnrichedRawEntry) :=
  omap (λ '(i, e), match e with
                   | JEntry e => if bool_decide (header_is_completed (er_header e) = Some false)
                                 then Some (i, e) else None
                   | JCompletion _ => None
                   end) journal.

Definition cancel_journal_leaves (id : InvocationId) (status : InvocationStatusProjection)
    (journal_length : Z) : M bool :=
  let* leaves := reads (λ t, open_entries (get_journal_v1 id journal_length t)) in
  cancel_leaves id status leaves false.

(** [OnCancelCommand]: cancellation with a journal of the second format. *)
Definition on_cancel_command (id : InvocationId) (status : InvocationStatus)
    (sink : option InvocationMutationResponseSink) : M unit :=
  match status with
  | Invoked _ | Suspended _ _ | Paused _ =>
      on_journal_notification id status CANCEL_SIGNAL ;; reply_to_cancel sink CancelAppended
  | Inboxed i => terminate_inboxed_invocation Cancel id i ;; reply_to_cancel sink CancelDone
  | Scheduled i => terminate_scheduled_invocation Cancel id i ;; reply_to_cancel sink CancelDone
  | Completed _ => reply_to_cancel sink CancelAlreadyCompleted
  | Free => send_abort_invocation_to_invoker id ;; reply_to_cancel sink CancelNotFound
  end.

(** Cancellation with a journal of the first format. *)
Definition cancel_v1 (id : InvocationId) (status : InvocationStatus)
    (sink : option InvocationMutationResponseSink) : M unit :=
  match status with
  | Invoked m =>
      cancel_journal_leaves id ProjInvoked (length (if_journal_metadata m)) ;;
      reply_to_cancel sink CancelAppended
  | Suspended m awaiting_on =>
      let* waiting := awaited_entries awaiting_on in
      let* resume := cancel_journal_leaves id (ProjSuspended waiting)
                       (length (if_journal_metadata m)) in
      sm_when resume (do_resume_service id m) ;;
      reply_to_cancel sink CancelAppended
  | Paused m =>
      cancel_journal_leaves id ProjPaused (length (if_journal_metadata m)) ;;
      do_resume_service id m ;;
      reply_to_cancel sink CancelAppended
  | Inboxed i => terminate_inboxed_invocation Cancel id i ;; reply_to_cancel sink CancelDone
  | Scheduled i => terminate_scheduled_invocation Cancel id i ;; reply_to_cancel sink CancelDone
  | Completed _ => reply_to_cancel sink CancelAlreadyCompleted
  | Free => send_abort_invocation_to_invoker id ;; reply_to_cancel sink CancelNotFound
  end.

Definition on_cancel_invocation (id : InvocationId) (sink : option InvocationMutationResponseSink)
    : M unit :=
  let* status := read_status id in
  let pinned := get_invocation_metadata status ≫= λ m, pinned_version (if_pinned_deployment m) in
  let* uses_v2 :=
    if match pinned with Some v => V4 <=? v | None => false end then sm_ret true
    else reads (λ t, bool_decide (is_Some (get_journal_entry_v2 id 0 t))) in
  if uses_v2 : bool then on_cancel_command id status sink
  else
    match pinned, status with
    | None, Invoked _ | None, Suspended _ _ =>
        put_status id (map_invocation_metadata (if_with_hotfix true) status) ;;
        reply_to_cancel sink CancelAppended
    | _, _ => cancel_v1 id status sink
    end.

Definition on_terminate_invocation (t : InvocationTermination) : M unit :=
  match term_flavor t with
  | Kill => on_kill_invocation (term_invocation_id t) (term_response_sink t)
  | Cancel => on_cancel_invocation (term_invocation_id t) (term_response_sink t)
  end.

(** [OnNotifySignalCommand]. *)
Definition on_notify_signal (r : NotifySignalRequest) : M unit :=
  let id := ns_invocation_id r in
  let* status := read_status id in
  if bool_decide (sig_id (ns_signal r) = CANCEL_SIGNAL_ID) then on_cancel_invocation id None
  else on_journal_notification id status (NSignal (ns_signal r)).

(** [OnPinnedDeploymentCommand]. *)
Definition on_pinned_deployment (id : InvocationId) (status : InvocationStatus)
    (pd : PinnedDeployment) : M unit :=
  let* m := metadata_expect status in
  let* m := if V4 <=? service_protocol_version pd then verify_or_migrate_journal_table id m
            else sm_ret m in
  let apply_hotfix := if_hotfix_apply_cancellation m in
  let m := if_with_hotfix false m in
  let* m :=
    match if_vqueue_id m with
    | None => sm_ret m
    | Some qid =>
        let* hd := entry_status_expect id in
        let metadata := em_with_deployment (Some (deployment_id pd)) (h_metadata hd) in
        let* _ := vqueue_expect qid in
        update_entry_metadata hd metadata ;;
        sm_ret (if_backfill_creation_seq (h_seq hd) m)
    end in
  put_status id (Invoked (set_pinned_deployment pd record_created_at m)) ;;
  sm_when apply_hotfix (on_cancel_invocation id None).

(** ** Effects of entries *)

(** The payload of an entry; an error when it does not deserialize. *)
Definition payload (e : EnrichedRawEntry) : M EntryV1 :=
  match er_entry e with None => sm_lift (Err ErrorCodec) | Some p => sm_ret p end.

Definition service_of (m : InFlightInvocationMetadata) : option ServiceId :=
  as_keyed_service_id (if_invocation_target m).

Definition completed_with (e : EnrichedRawEntry) (r : CompletionResult) : M EnrichedRawEntry :=
  sm_ret (write_completion r e).

Definition get_journal_entry_callee_invocation_id (id : InvocationId) (call_entry_index : Z)
    : M (option InvocationId) :=
  let* stored := reads (get_journal_entry_v1 id call_entry_index) in
  sm_ret (match stored with
          | Some (JEntry e) =>
              match er_header e with
              | HCall _ (Some en) | HOneWayCall en => Some (ce_invocation_id en)
              | _ => None
              end
          | _ => None
          end).

Definition parse_id (s : string) : option InvocationId :=
  match invocation_id_parse (text_of s) with Ok i => Some i | _ => None end.

Definition apply_cancel_invocation_journal_entry_action (id : InvocationId)
    (target : CancelInvocationTarget) : M unit :=
  let* callee :=
    match target with
    | CancelById s => sm_ret (parse_id s)
    | CancelCallEntry i => get_journal_entry_callee_invocation_id id i
    end in
  match callee with
  | Some i => do_enqueue_into_outbox (terminate_message Cancel i)
  | None => sm_ret tt
  end.

Definition get_invocation_query_from_attach_invocation_target (id : InvocationId)
    (target : AttachTargetV1) : M (option InvocationQuery) :=
  match target with
  | AttachV1Id s => sm_ret (QueryInvocation <$> parse_id s)
  | AttachV1CallEntry i =>
      let* callee := get_journal_entry_callee_invocation_id id i in
      sm_ret (QueryInvocation <$> callee)
  | AttachV1Idempotent i => sm_ret (Some (QueryIdempotencyId i))
  | AttachV1Workflow w => sm_ret (Some (QueryWorkflow w))
  end.

Definition attach_v1 (id : InvocationId) (entry_index : Z) (target : AttachTargetV1)
    (block_on_inflight : bool) : M unit :=
  let* query := get_invocation_query_from_attach_invocation_target id target in
  match query with
  | None => sm_ret tt
  | Some q =>
      do_enqueue_into_outbox (OutAttachInvocation
        {| ar_invocation_query := q; ar_block_on_inflight := block_on_inflight;
           ar_response_sink := SinkPartitionProcessor
             {| caller_id := id; caller_completion_id := entry_index |} |})
  end.

Definition call_v1 (id : InvocationId) (m : InFlightInvocationMetadata)
    (en : CallEnrichmentResult) (q : InvokeRequest) (execution_time : option Z)
    (sink : option ServiceInvocationResponseSink) : M unit :=
  do_enqueue_into_outbox (OutServiceInvocation
    {| si_invocation_id := ce_invocation_id en;
       si_invocation_target := ce_invocation_target en;
       si_argument := ir_parameter q;
       si_source := SourceService id (if_invocation_target m);
       si_span_context := ce_span_context en;
       si_headers := ir_headers q;
       si_execution_time := execution_time;
       si_completion_retention_duration := default 0 (ce_completion_retention_time en);
       si_journal_retention_duration := 0;
       si_idempotency_key := ir_idempotency_key q;
       si_limit_key := LimitNone;
       si_response_sink := sink;
       si_submit_notification_sink := None;
       si_restate_version := current_restate_version |}).

Definition signal_of_entry_result (r : EntryResult) : OptionalResult :=
  match r with
  | ErSuccess v => OSuccess v
  | ErFailure code msg => OFailure {| ef_code := code; ef_message := msg; ef_metadata := [] |}
  end.

Definition complete_awakeable_v1 (en : AwakeableEnrichmentResult) (awakeable_id : string)
    (result : EntryResult) : M unit :=
  if is_ok (awakeable_identifier_parse (text_of awakeable_id)) then
    do_enqueue_into_outbox (OutServiceResponse
      {| resp_target := {| caller_id := ae_invocation_id en;
                           caller_completion_id := ae_entry_index en |};
         resp_result := response_of_entry_result result |})
  else
    match external_signal_identifier_parse (text_of awakeable_id) with
    | Ok (target, index) =>
        do_enqueue_into_outbox (OutNotifySignal
          {| ns_invocation_id := target;
             ns_signal := {| sig_id := SignalIndex index;
                             sig_result := signal_of_entry_result result |} |})
    | _ => sm_ret tt
    end.

(** The promise entries: the completion to write, if there is one. *)
Definition get_promise_v1 (id : InvocationId) (entry_index : Z) (m : InFlightInvocationMetadata)
    (key : string) : M (option CompletionResult) :=
  match service_of m with
  | None => sm_ret (Some (CrSuccess ""))
  | Some sid =>
      let listener := {| caller_id := id; caller_completion_id := entry_index |} in
      let* p := reads (get_promise sid key) in
      match p with
      | Some (PsCompleted r) => sm_ret (Some (completion_of_promise r))
      | Some (PsNotCompleted v) =>
          tables (put_promise sid key (PsNotCompleted (v ++ [listener]))) ;; sm_ret None
      | None => tables (put_promise sid key (PsNotCompleted [listener])) ;; sm_ret None
      end
  end.

Definition peek_promise_v1 (m : InFlightInvocationMetadata) (key : string) : M CompletionResult :=
  match service_of m with
  | None => sm_ret CrEmpty
  | Some sid =>
      let* p := reads (get_promise sid key) in
      sm_ret (match p with Some (PsCompleted r) => completion_of_promise r | _ => CrEmpty end)
  end.

Definition complete_promise_v1 (m : InFlightInvocationMetadata) (key : string)
    (completion : EntryResult) : M CompletionResult :=
  match service_of m with
  | None => sm_ret CrEmpty
  | Some sid =>
      let* p := reads (get_promise sid key) in
      let put := tables (put_promise sid key (PsCompleted (promise_of_entry_result completion))) in
      match p with
      | None => put ;; sm_ret CrEmpty
      | Some (PsNotCompleted listeners) =>
          sm_for (λ l, do_enqueue_into_outbox (OutServiceResponse
            {| resp_target := l; resp_result := response_of_entry_result completion |}))
            listeners ;;
          put ;; sm_ret CrEmpty
      | Some (PsCompleted _) =>
          sm_ret (completion_of_error ALREADY_COMPLETED_INVOCATION_ERROR)
      end
  end.

Definition state_value (m : InFlightInvocationMetadata) (key : string) : M CompletionResult :=
  match service_of m with
  | Some sid => let* v := reads (get_user_state sid key) in
                sm_ret (match v with Some v => CrSuccess v | None => CrEmpty end)
  | None => sm_ret CrEmpty
  end.

Definition state_keys_v1 (m : InFlightInvocationMetadata) : M CompletionResult :=
  let* keys := match service_of m with
               | Some sid => reads (λ t, (get_all_user_states sid t).*1)
               | None => sm_ret []
               end in
  sm_ret (CrSuccess (serialize_state_keys keys)).

Definition on_service (m : InFlightInvocationMetadata) (f : ServiceId → M unit) : M unit :=
  match service_of m with Some sid => f sid | None => sm_ret tt end.

(** The effect of an entry, by its header; returns the entry to store. *)
Definition entry_effect_v1 (id : InvocationId) (index : Z) (e : EnrichedRawEntry)
    (m : InFlightInvocationMetadata) : M EnrichedRawEntry :=
  match er_header e with
  | HInput | HOutput | HRun | HCustom _ => sm_ret e
  | HGetState false =>
      let* p := payload e in
      match p with
      | EGetState key => let* r := state_value m key in completed_with e r
      | _ => sm_lift Panic
      end
  | HSetState =>
      let* p := payload e in
      match p with
      | ESetState key value => on_service m (λ s, tables (put_user_state s key value)) ;; sm_ret e
      | _ => sm_lift Panic
      end
  | HClearState =>
      let* p := payload e in
      match p with
      | EClearState key => on_service m (λ s, tables (delete_user_state s key)) ;; sm_ret e
      | _ => sm_lift Panic
      end
  | HClearAllState => on_service m (λ s, tables (delete_all_user_state s)) ;; sm_ret e
  | HGetStateKeys false => let* r := state_keys_v1 m in completed_with e r
  | HGetPromise false =>
      let* p := payload e in
      match p with
      | EGetPromise key =>
          let* r := get_promise_v1 id index m key in
          match r with Some r => completed_with e r | None => sm_ret e end
      | _ => sm_lift Panic
      end
  | HPeekPromise false =>
      let* p := payload e in
      match p with
      | EPeekPromise key => let* r := peek_promise_v1 m key in completed_with e r
      | _ => sm_lift Panic
      end
  | HCompletePromise false =>
      let* p := payload e in
      match p with
      | ECompletePromise key completion =>
          let* r := complete_promise_v1 m key completion in completed_with e r
      | _ => sm_lift Panic
      end
  | HSleep _ =>
      let* p := payload e in
      match p with
      | ESleep wake_up_time =>
          register_timer (timer_complete_journal_entry wake_up_time id index) ;; sm_ret e
      | _ => sm_lift Panic
      end
  | HCall _ (Some en) =>
      let* p := payload e in
      match p with
      | ECall q =>
          call_v1 id m en q None
            (Some (SinkPartitionProcessor {| caller_id := id; caller_completion_id := index |})) ;;
          sm_ret e
      | _ => sm_lift Panic
      end
  | HOneWayCall en =>
      let* p := payload e in
      match p with
      | EOneWayCall q invoke_time =>
          call_v1 id m en q (if invoke_time =? 0 then None else Some invoke_time) None ;; sm_ret e
      | _ => sm_lift Panic
      end
  | HAwakeable _ =>
      let* stored := reads (get_journal_entry_v1 id index) in
      match stored with
      | Some (JCompletion r) => completed_with e r
      | _ => sm_ret e
      end
  | HCompleteAwakeable en =>
      let* p := payload e in
      match p with
      | ECompleteAwakeable aid r => complete_awakeable_v1 en aid r ;; sm_ret e
      | _ => sm_lift Panic
      end
  | HCancelInvocation =>
      let* p := payload e in
      match p with
      | ECancelInvocation t => apply_cancel_invocation_journal_entry_action id t ;; sm_ret e
      | _ => sm_lift Panic
      end
  | HGetCallInvocationId false =>
      let* p := payload e in
      match p with
      | EGetCallInvocationId i =>
          let* callee := get_journal_entry_callee_invocation_id id i in
          match callee with
          | Some c => let* t := sm_lift (expect (invocation_id_text c)) in
                      completed_with e (CrSuccess (string_of t))
          | None => completed_with e CrEmpty
          end
      | _ => sm_lift Panic
      end
  | HAttachInvocation false =>
      let* p := payload e in
      match p with
      | EAttachInvocation t => attach_v1 id index t true ;; sm_ret e
      | _ => sm_lift Panic
      end
  | HGetInvocationOutput false =>
      let* p := payload e in
      match p with
      | EGetInvocationOutput t => attach_v1 id index t false ;; sm_ret e
      | _ => sm_lift Panic
      end
  | HGetState true | HGetStateKeys true | HGetPromise true | HPeekPromise true
  | HCompletePromise true | HCall _ None | HGetCallInvocationId true | HAttachInvocation true
  | HGetInvocationOutput true => sm_ret e
  end.

Definition handle_journal_entry (id : InvocationId) (index : Z) (e : EnrichedRawEntry)
    (m : InFlightInvocationMetadata) : M unit :=
  let* e := entry_effect_v1 id index e m in
  append_journal_entry_v1 id (Invoked m) index (JEntry e) ;;
  push (AckStoredCommand id index).
End journal_v1.
