(* ===== verification/StateMachine.v ===== *)
(** * The partition processor's state machine: records

    [on_apply] of [state_machine/mod.rs] with the handlers it dispatches to that
    are not in the files before: timers, effects of the invoker, attach requests,
    and from [state_machine/lifecycle] purge, manual resume and restart.

    A record is a [Record_] of its kind. *)

From stdpp Require Import strings.
From S2P Require Import Prelude UnresolvedFuture Clock Invocation InvocationStatus JournalV1.
From S2P Require Import IdText VQueueMeta PartitionStore VQueueCache VQueue StateMachineBase.
From S2P Require Import InvocationLifecycle JournalEntries JournalV1Handlers.

Open Scope Z_scope.

(** ** Records *)

Inductive PatchDeploymentId := KeepPinned | PinToLatest | PinTo (id : string).

Record ResumeRequest := {
  rr_invocation_id : InvocationId;
  rr_update_deployment_id : option PatchDeploymentId;
  rr_update_pinned_deployment_id : option string;
  rr_run_at : option RoughTimestamp;
  rr_response_sink : option InvocationMutationResponseSink }.

Record RestartRequest := {
  rs_invocation_id : InvocationId;
  rs_new_invocation_id : InvocationId;
  rs_copy_prefix_up_to_index_included : Z;
  rs_patch_deployment_id : option string;
  rs_response_sink : option InvocationMutationResponseSink;
  rs_span_context : option SpanContext }.

(** [InvokerEffectKind]. *)
Inductive EffectKind :=
| EffPinnedDeployment (pd : PinnedDeployment)
| EffJournalEntry (entry_index : Z) (entry : EnrichedRawEntry)
| EffJournalEntryV2 (command_index_to_ack : option Z) (entry : RawEntry)
| EffJournalEvent (event : Event)
| EffSuspended (waiting_for_completed_entries : list Z)
| EffSuspendedV2 (waiting_for_notifications : list NotificationId)
| EffSuspendedV3 (awaiting_on : UnresolvedFuture)
| EffPaused (paused_event : Event)
| EffEnd
| EffFailed (e : InvocationError)
| EffYield (reason : YieldReason) (error_event : option Event) (resume_at : option RoughTimestamp).

Record Effect := { eff_invocation_id : InvocationId; eff_kind : EffectKind }.

Inductive SchedulerAction :=
| ActionUnknown
| ActionRun (key : EntryKey) (wait_stats : WaitStats)
| ActionYield (key : EntryKey) (next_run_at : option RoughTimestamp) (reason : YieldReason).

Inductive Record_ :=
| CmdUnknown
| CmdPartitionWide
| CmdVQSchedulerDecisions (qids : list (VQueueId * list SchedulerAction))
| CmdInvoke (si : ServiceInvocation)
| CmdInvocationResponse (r : InvocationResponse)
| CmdProxyThrough (si : ServiceInvocation)
| CmdAttachInvocation (r : AttachInvocationRequest)
| CmdInvokerEffect (e : Effect)
| CmdTimer (t : TimerKeyValue)
| CmdTerminateInvocation (t : InvocationTermination)
| CmdPurgeInvocation (id : InvocationId) (sink : option InvocationMutationResponseSink)
    (is_self_proposal : bool)
| CmdPurgeJournal (id : InvocationId) (sink : option InvocationMutationResponseSink)
    (is_self_proposal : bool)
| CmdResumeInvocation (r : ResumeRequest)
| CmdPauseInvocation (id : InvocationId) (sink : option InvocationMutationResponseSink)
| CmdRestartAsNewInvocation (r : RestartRequest)
| CmdPatchState (m : ExternalStateMutation)
| CmdScheduleTimer (t : TimerKeyValue)
| CmdNotifySignal (r : NotifySignalRequest)
| CmdNotifyGetInvocationOutputResponse (target : JournalCompletionTarget)
    (result : OptionalResult)
| CmdVQueuesPause (qids : list VQueueId)
| CmdVQueuesResume (qids : list VQueueId).

Section state_machine.
Context `{!Digests, !SlotKeys, !Ctx, !Base62, !Base64, !StateKeysCodec}.

(** ** Purge *)

Definition protocol_of (c : CompletedInvocation) : option Z :=
  pinned_version (co_pinned_deployment c).
Definition reusable_id (c : CompletedInvocation) : bool :=
  is_deterministic (co_invocation_target c) (co_idempotency_key c).

(** [OnPurgeCommand]. *)
Definition on_purge_command (id : InvocationId) (sink : option InvocationMutationResponseSink)
    (is_cleaner_purge : bool) : M unit :=
  sm_when is_cleaner_purge (push CleanerPurgeApplied) ;;
  let* status := read_status id in
  match status with
  | Completed c =>
      match co_vqueue_id c with
      | None => sm_ret tt
      | Some qid =>
          let* hd := entry_status_expect id in
          assert_ (bool_decide (h_stage hd = StFinished)) ;;
          let* now := record_unique_ts in
          let* h := vqueue_expect qid in
          vqueue_delete vctx h now qid (h_stage hd) (h_entry_key hd)
      end ;;
      do_free_invocation id ;;
      sm_when (bool_decide (invocation_target_ty (co_invocation_target c) = TyWorkflow WfWorkflow))
        (let* sid := sm_lift (expect (as_keyed_service_id (co_invocation_target c))) in
         tables (delete_all_user_state sid) ;;
         tables (delete_all_promises sid)) ;;
      sm_when (negb (length (co_journal_metadata c) =? 0))
        (do_drop_journal id (length (co_journal_metadata c)) (protocol_of c) (reusable_id c)) ;;
      reply_to_purge_invocation sink PurgeOk
  | Free => reply_to_purge_invocation sink PurgeNotFound
  | _ => reply_to_purge_invocation sink PurgeNotCompleted
  end.

Definition journal_reset (jm : JournalMetadata) : JournalMetadata :=
  set_commands 0 (set_length 0 jm).

(** [OnPurgeJournalCommand]. *)
Definition on_purge_journal_command (id : InvocationId)
    (sink : option InvocationMutationResponseSink) (is_cleaner_purge : bool) : M unit :=
  sm_when is_cleaner_purge (push CleanerPurgeApplied) ;;
  let* status := read_status id in
  match status with
  | Completed c =>
      sm_when (negb (length (co_journal_metadata c) =? 0))
        (do_drop_journal id (length (co_journal_metadata c)) (protocol_of c) (reusable_id c)) ;;
      put_status id
        (Completed (co_with_journal_metadata (journal_reset (co_journal_metadata c)) c)) ;;
      reply_to_purge_journal sink PurgeOk
  | Free => reply_to_purge_journal sink PurgeNotFound
  | _ => reply_to_purge_journal sink PurgeNotCompleted
  end.

(** ** Manual resume *)

Definition in_versions (v : Z) (range : Z * Z) : bool := (range.1 <=? v) && (v <=? range.2).

Definition resolve_pinned_deployment (update : option PatchDeploymentId)
    (already_resolved : option string) (m : InFlightInvocationMetadata)
    : ResumeInvocationResponse + option string :=
  match already_resolved with
  | Some id => inr (Some id)
  | None =>
      match update with
      | None | Some KeepPinned => inr None
      | Some patch =>
          match schema with
          | None => inl ResumeDeploymentNotFound
          | Some sch =>
              match if_pinned_deployment m with
              | None => match patch with
                        | PinToLatest => inr None
                        | _ => inl ResumeCannotChangeDeploymentId
                        end
              | Some pd =>
                  match match patch with
                        | PinTo id => get_deployment sch id
                        | _ => resolve_latest_deployment_for_service sch
                                 (service_name (if_invocation_target m))
                        end with
                  | None => inl ResumeDeploymentNotFound
                  | Some d =>
                      if in_versions (service_protocol_version pd)
                           (di_supported_protocol_versions d)
                      then inr (Some (di_id d))
                      else inl (ResumeIncompatibleDeploymentId (service_protocol_version pd)
                                  (di_id d) (di_supported_protocol_versions d))
                  end
              end
          end
      end
  end.

Definition repin (d : string) (m : InFlightInvocationMetadata) : InFlightInvocationMetadata :=
  if_with_pinned_deployment
    (fmap (λ pd, {| deployment_id := d;
                    service_protocol_version := service_protocol_version pd |})) m.

(** [OnManualResumeCommand]. *)
Definition on_manual_resume_command (r : ResumeRequest) : M unit :=
  let id := rr_invocation_id r in
  let answer := reply_to_resume_invocation (rr_response_sink r) in
  let resolve_for :=
    resolve_pinned_deployment (rr_update_deployment_id r) (rr_update_pinned_deployment_id r) in
  let* status := read_status id in
  match status with
  | Invoked m =>
      match if_vqueue_id m with
      | None => answer ResumeOk
      | Some _ =>
          match resolve_for m with
          | inl response => answer response
          | inr resolved =>
              let* was_waiting := vqueue_reschedule_invocation id (rr_run_at r) resolved in
              match resolved with
              | None => answer ResumeOk
              | Some d =>
                  if negb was_waiting then answer ResumeCannotChangeDeploymentId
                  else
                    sm_when (bool_decide (is_Some (if_pinned_deployment m)))
                      (put_status id (Invoked (repin d m))) ;;
                    answer ResumeOk
              end
          end
      end
  | Suspended m _ | Paused m =>
      match resolve_for m with
      | inl response => answer response
      | inr resolved =>
          let status := match resolved with
                        | Some d => map_invocation_metadata (repin d) status
                        | None => status
                        end in
          let* status := resume_invocation_command id status in
          put_status id status ;;
          answer ResumeOk
      end
  | Scheduled _ | Inboxed _ => answer ResumeNotStarted
  | Completed _ => answer ResumeCompleted
  | Free => answer ResumeNotFound
  end.

(** ** Restart as new *)

Record CopyState := { cs_index : Z; cs_commands : Z; cs_missing : gset Z }.

Definition put_copy (new_id : InvocationId) (index : Z) (e : StoredRawEntry) (related : list Z)
    : M unit := tables (put_journal_entry_v2 new_id index e related).

(** The prefix: indices [i, i+1, ..] until [n] are copied or one is missing. *)
Fixpoint copy_prefix (n : nat) (id new_id : InvocationId) (i : Z) (c : CopyState) : M CopyState :=
  match n with
  | O => sm_ret c
  | S n =>
      let* stored := reads (get_journal_entry_v2 id i) in
      match stored with
      | None => sm_ret c
      | Some e =>
          let* c :=
            match se_inner e with
            | RawEntryCommand raw =>
                match decode_command raw with
                | None => sm_lift (Err ErrorEntryDecoding)
                | Some cmd =>
                    let related := related_completion_ids cmd in
                    put_copy new_id (cs_index c) e related ;;
                    sm_ret {| cs_index := cs_index c + 1; cs_commands := cs_commands c + 1;
                              cs_missing := cs_missing c ∪ list_to_set related |}
                end
            | RawEntryNotification n =>
                put_copy new_id (cs_index c) e [] ;;
                sm_ret {| cs_index := cs_index c + 1; cs_commands := cs_commands c;
                          cs_missing := match rn_id n with
                                        | NCompletionId k => cs_missing c ∖ {[ k ]}
                                        | _ => cs_missing c
                                        end |}
            end in
          copy_prefix n id new_id (i + 1) c
      end
  end.

(** The rest: only the completions that the prefix still needs. *)
Fixpoint copy_completions (n : nat) (id new_id : InvocationId) (i : Z) (c : CopyState)
    : M CopyState :=
  match n with
  | O => sm_ret c
  | S n =>
      let* stored := reads (get_journal_entry_v2 id i) in
      let* c :=
        match stored with
        | Some e =>
            match se_inner e with
            | RawEntryNotification {| rn_id := NCompletionId k |} =>
                if decide (k ∈ cs_missing c) then
                  put_copy new_id (cs_index c) e [] ;;
                  sm_ret {| cs_index := cs_index c + 1; cs_commands := cs_commands c;
                            cs_missing := cs_missing c ∖ {[ k ]} |}
                else sm_ret c
            | _ => sm_ret c
            end
        | None => sm_ret c
        end in
      if bool_decide (cs_missing c = ∅) then sm_ret c
      else copy_completions n id new_id (i + 1) c
  end.

Definition copy_journal (id new_id : InvocationId) (upto journal_length : Z) : M CopyState :=
  let* c := copy_prefix (Z.to_nat (upto + 1)) id new_id 0
              {| cs_index := 0; cs_commands := 0; cs_missing := ∅ |} in
  copy_completions (Z.to_nat (journal_length - (upto + 1))) id new_id (upto + 1) c.

Definition restarted_metadata (r : RestartRequest) (c : CompletedInvocation) (copied : CopyState)
    : PreFlightInvocationMetadata :=
  let new_id := rs_new_invocation_id r in
  let span :=
    default (span_start_linked new_id (span_context (co_journal_metadata c))) (rs_span_context r) in
  let qid :=
    match co_vqueue_id c with
    | Some q => Some q
    | None => if is_vqueues_enabled features
              then Some (infer_vqueue_id_from_invocation (inv_partition_key new_id)
                           (co_invocation_target c) (co_limit_key c))
              else None
    end in
  {| pf_response_sinks := ∅;
     pf_timestamps := timestamps_init record_created_at;
     pf_vqueue_id := qid;
     pf_limit_key := co_limit_key c;
     pf_invocation_target := co_invocation_target c;
     pf_created_using_restate_version := co_created_using_restate_version c;
     pf_input := PfJournal
       {| pj_journal_metadata := {| length := cs_index copied; commands := cs_commands copied;
                                    span_context := span |};
          pj_pinned_deployment :=
            match rs_patch_deployment_id r with
            | Some d => (λ pd, {| deployment_id := d;
                                  service_protocol_version := service_protocol_version pd |})
                          <$> co_pinned_deployment c
            | None => co_pinned_deployment c
            end |};
     pf_source := SourceRestartAsNew (rs_invocation_id r);
     pf_execution_time := None;
     pf_completion_retention_duration := co_completion_retention_duration c;
     pf_journal_retention_duration := co_journal_retention_duration c;
     pf_idempotency_key := None;
     pf_random_seed :=
       if 0 <? rs_copy_prefix_up_to_index_included r then co_random_seed c
       else if pf_unique_random_seeds features
       then Some (to_random_seed_with_wal_record_time new_id record_created_at)
       else co_random_seed c;
     pf_creation_seq := Some record_lsn |}.

(** [OnRestartAsNewInvocationCommand]. *)
Definition on_restart_as_new_command (r : RestartRequest) : M unit :=
  let answer x := reply (rs_response_sink r) (ReplyRestartAsNew x) in
  let id := rs_invocation_id r in
  let new_id := rs_new_invocation_id r in
  let* status := read_status id in
  match status with
  | Completed c =>
      let n := length (co_journal_metadata c) in
      let upto := rs_copy_prefix_up_to_index_included r in
      if n <=? upto then answer RestartJournalIndexOutOfRange
      else
        let* copied := copy_journal id new_id upto n in
        on_pre_flight_invocation new_id (restarted_metadata r c copied) None ;;
        answer (RestartOk new_id)
  | Free => answer RestartNotFound
  | Scheduled _ | Inboxed _ => answer RestartNotStarted
  | Invoked _ | Suspended _ _ | Paused _ => answer RestartStillRunning
  end.

(** ** Attach *)

Definition handle_attach_invocation_request (r : AttachInvocationRequest) : M unit :=
  let* id := sm_lift (expect (to_invocation_id (ar_invocation_query r))) in
  let sink := ar_response_sink r in
  let* status := read_status id in
  match status with
  | Free =>
      send_response_to_sinks [sink] (ResponseFailure NOT_FOUND_INVOCATION_ERROR) (Some id) None None
  | Completed c =>
      send_response_to_sinks [sink] (co_response_result c) (Some id) (completion_expiry_time c)
        (Some (co_invocation_target c))
  | _ =>
      if ar_block_on_inflight r then do_append_response_sink id status sink
      else send_response_to_sinks [sink] (ResponseFailure NOT_READY_INVOCATION_ERROR) (Some id)
             None (invocation_target status)
  end.

(** ** Timers *)

Definition on_neo_invoke_timer (id : InvocationId) : M unit :=
  let* status := read_status id in
  match status with
  | Free => sm_ret tt
  | Scheduled i =>
      let* unlocked := handle_service_invocation_exclusive_handler id (sch_metadata i) in
      match unlocked with
      | None => sm_ret tt
      | Some m =>
          let '(in_flight, input) := in_flight_from_pre_flight m record_created_at in
          init_journal_and_set_invoked id in_flight input
      end
  | _ => sm_lift Panic
  end.

Definition without_execution_time (si : ServiceInvocation) : ServiceInvocation :=
  {| si_invocation_id := si_invocation_id si; si_invocation_target := si_invocation_target si;
     si_argument := si_argument si; si_source := si_source si;
     si_span_context := si_span_context si; si_headers := si_headers si;
     si_execution_time := None;
     si_completion_retention_duration := si_completion_retention_duration si;
     si_journal_retention_duration := si_journal_retention_duration si;
     si_idempotency_key := si_idempotency_key si; si_limit_key := si_limit_key si;
     si_response_sink := si_response_sink si;
     si_submit_notification_sink := si_submit_notification_sink si;
     si_restate_version := si_restate_version si |}.

Definition on_timer (t : TimerKeyValue) : M unit :=
  do_delete_timer t.1 ;;
  match t.2 with
  | TimerCompleteJournalEntry id entry_index =>
      let* status := read_status id in
      if should_use_journal_table_v2 status then on_notify_sleep_completion id status entry_index
      else handle_completion id status entry_index CrEmpty
  | TimerInvoke si => on_service_invocation (without_execution_time si)
  | TimerCleanInvocationStatus id => on_purge_command id None false
  | TimerNeoInvoke id => on_neo_invoke_timer id
  end.

(** ** Effects of the invoker *)

Definition on_journal_entry (id : InvocationId) (status : InvocationStatus)
    (command_index_to_ack : option Z) (entry : RawEntry) : M unit :=
  on_journal_entry_command id status entry ;;
  match command_index_to_ack with
  | Some i => push (AckStoredCommand id i)
  | None => sm_ret tt
  end.

(** Whether an awaited entry of a journal of the first format is completed. *)
Fixpoint any_resumable (id : InvocationId) (entries : list Z) : M bool :=
  match entries with
  | [] => sm_ret false
  | i :: entries =>
      let* e := reads (get_journal_entry_v1 id i) in
      if default false (is_resumable <$> e) then sm_ret true else any_resumable id entries
  end.

Definition on_invoker_effect (e : Effect) (status : InvocationStatus) : M unit :=
  let id := eff_invocation_id e in
  match status with
  | Invoked m =>
      match eff_kind e with
      | EffPinnedDeployment pd => on_pinned_deployment id status pd
      | EffJournalEntry index entry => handle_journal_entry id index entry m
      | EffJournalEntryV2 ack entry => on_journal_entry id status ack entry
      | EffJournalEvent event => apply_event id status event
      | EffSuspended waiting =>
          let* any_completed := any_resumable id waiting in
          if any_completed : bool then do_resume_service id m else do_suspend_service id m waiting
      | EffSuspendedV2 waiting => on_suspend_command id status (unknown_from_iter waiting) false
      | EffSuspendedV3 awaiting_on => on_suspend_command id status awaiting_on true
      | EffPaused event => on_paused_command id event
      | EffEnd => end_invocation id m None None
      | EffFailed err => end_invocation id m None (Some (ResponseFailure err))
      | EffYield reason error_event resume_at =>
          match error_event with
          | Some event => apply_event id status event
          | None => sm_ret tt
          end ;;
          yield_invocation_command id (invocation_target status) reason resume_at
      end
  | _ => send_abort_invocation_to_invoker id
  end.

Definition try_invoker_effect (e : Effect) : M unit :=
  let* status := read_status (eff_invocation_id e) in
  on_invoker_effect e status.

(** ** Decisions of the scheduler, pause and resume of queues *)

Definition on_scheduler_action (qid : VQueueId) (a : SchedulerAction) : M unit :=
  match a with
  | ActionUnknown => sm_lift (Err (ErrorStorage "Cannot deal with unknown scheduler actions"))
  | ActionRun key wait_stats => attempt_to_run qid key wait_stats
  | ActionYield key next_run_at reason =>
      let* id := sm_lift (expect (to_invocation_id_opt
                   (to_base_id (vq_partition_key qid) (ek_entry_id key)))) in
      yield_invocation_command id None reason next_run_at
  end.

Definition on_each_queue (f : VQueueHandle → UniqueTimestamp → M unit) (qids : list VQueueId)
    : M unit :=
  let* at_ := record_unique_ts in
  sm_for (λ qid, let* h := vqueue_get qid in
                 match h with Some h => f h at_ | None => sm_ret tt end) qids.

(** ** Dispatch *)

Definition on_invocation_response (r : InvocationResponse) : M unit :=
  let id := caller_id (resp_target r) in
  let cid := caller_completion_id (resp_target r) in
  let* status := read_status id in
  if should_use_journal_table_v2 status
  then on_notify_invocation_response id status cid (resp_result r)
  else handle_completion id status cid (completion_of_response (resp_result r)).

Definition is_cleaner_purge (sink : option InvocationMutationResponseSink)
    (is_self_proposal : bool) : bool :=
  is_leader && is_self_proposal && bool_decide (sink = None).

Definition on_apply (r : Record_) : M unit :=
  match r with
  | CmdUnknown => sm_lift (Err ErrorUnknownCommandKind)
  | CmdPartitionWide => sm_lift Panic
  | CmdVQSchedulerDecisions qids =>
      sm_for (λ '(qid, actions), sm_for (on_scheduler_action qid) actions) qids
  | CmdInvoke si => on_service_invocation si
  | CmdInvocationResponse r => on_invocation_response r
  | CmdProxyThrough si => do_enqueue_into_outbox (OutServiceInvocation si)
  | CmdAttachInvocation r => handle_attach_invocation_request r
  | CmdInvokerEffect e => try_invoker_effect e
  | CmdTimer t => on_timer t
  | CmdTerminateInvocation t => on_terminate_invocation t
  | CmdPurgeInvocation id sink self => on_purge_command id sink (is_cleaner_purge sink self)
  | CmdPurgeJournal id sink self => on_purge_journal_command id sink (is_cleaner_purge sink self)
  | CmdResumeInvocation r => on_manual_resume_command r
  | CmdPauseInvocation id sink => on_manual_pause_command id sink
  | CmdRestartAsNewInvocation r => on_restart_as_new_command r
  | CmdPatchState m => handle_external_state_mutation m
  | CmdScheduleTimer t => register_timer t
  | CmdNotifySignal r => on_notify_signal r
  | CmdNotifyGetInvocationOutputResponse target result =>
      on_notify_get_invocation_output_response target result
  | CmdVQueuesPause qids => on_each_queue (pause_queue vctx) qids
  | CmdVQueuesResume qids => on_each_queue (resume_queue vctx) qids
  end.
End state_machine.
