(* ===== verification/Replicas.v ===== *)
(** * Replicas: coherence of the queue cache, and relational reasoning

    Every replica of a partition applies the same log, but each with its own
    queue cache, its own random samples of the store and its own role (leader or
    follower).  This file states when a cache agrees with the tables
    ([coherent]) and proves, for the operations on queues, that two replicas
    with equal tables and coherent caches end with equal tables, the same
    outcome and coherent caches.  The relational triples [rht] and [det] compose
    over the monad; [DeterminismProofs] uses them for the whole state machine. *)

From stdpp Require Import strings.
From S2P Require Import Prelude UnresolvedFuture Clock Invocation InvocationStatus JournalV1.
From S2P Require Import VQueueMeta PartitionStore VQueueCache VQueue StateMachineBase.

Open Scope Z_scope.

(** ** Counters *)

Definition counts_ok (m : VQueueMeta) : Prop :=
  let s := vm_stats m in
  0 ≤ vs_num_inbox s ∧ 0 ≤ vs_num_suspended s ∧ 0 ≤ vs_num_paused s ∧ 0 ≤ vs_num_running s
  ∧ 0 ≤ vs_num_finished s.

Lemma enter_stage_counts now prev next mt s s' :
  enter_stage now prev next mt s = Some s' →
  vs_num_inbox s' = vs_num_inbox s + Z.b2z (bool_decide (next = StInbox)) ∧
  vs_num_suspended s' = vs_num_suspended s + Z.b2z (bool_decide (next = StSuspended)) ∧
  vs_num_paused s' = vs_num_paused s + Z.b2z (bool_decide (next = StPaused)) ∧
  vs_num_running s' = vs_num_running s + Z.b2z (bool_decide (next = StRunning)) ∧
  vs_num_finished s' = vs_num_finished s + Z.b2z (bool_decide (next = StFinished)) ∧
  next ≠ StUnknown.
Proof. unfold enter_stage. destruct next; intros [= <-]; simpl; done. Qed.

Lemma decrement_stage_counts st s :
  0 ≤ vs_num_inbox s → 0 ≤ vs_num_suspended s → 0 ≤ vs_num_paused s → 0 ≤ vs_num_running s →
  0 ≤ vs_num_finished s →
  let s' := decrement_stage st s in
  0 ≤ vs_num_inbox s' ∧ 0 ≤ vs_num_suspended s' ∧ 0 ≤ vs_num_paused s' ∧ 0 ≤ vs_num_running s'
  ∧ 0 ≤ vs_num_finished s'.
Proof.
  intros ? ? ? ? ? s'. subst s'. unfold decrement_stage, saturating_sub. simpl.
  repeat case_bool_decide; split_and!; lia.
Qed.

Lemma apply_update_counts u m m' : counts_ok m → apply_update u m = Some m' → counts_ok m'.
Proof.
  unfold counts_ok, apply_update. destruct (up_action u) as [|p n mt| | |st]; try done.
  - intros (H1 & H2 & H3 & H4 & H5) Ha. apply bind_Some in Ha as (s' & Hs & [= <-]).
    apply enter_stage_counts in Hs as (E1 & E2 & E3 & E4 & E5 & _). simpl.
    rewrite E1, E2, E3, E4, E5.
    destruct p as [p|]; [|repeat case_bool_decide; simpl; lia].
    pose proof (decrement_stage_counts p (record_stage_exit p
      (ut_saturating_sub_ms (up_ts u) (mm_last_transition_at mt)) (vm_stats m)) H1 H2 H3 H4 H5)
      as (D1 & D2 & D3 & D4 & D5).
    repeat case_bool_decide; simpl Z.b2z; lia.
  - intros H [= <-]. done.
  - intros H [= <-]. done.
  - intros (H1 & H2 & H3 & H4 & H5) [= <-]. simpl. by apply decrement_stage_counts.
Qed.

(** An entry that enters a stage keeps its queue. *)
Lemma move_not_obsolete u p n mt m m' :
  counts_ok m → up_action u = ActMove p n mt → apply_update u m = Some m' → is_obsolete m' = false.
Proof.
  intros Hc Hu Ha. unfold apply_update in Ha. rewrite Hu in Ha.
  set (s := match p with Some _ => _ | None => _ end) in Ha.
  assert (counts_ok (vm_with_stats s m)) as (H1 & H2 & H3 & H4 & H5).
  { destruct Hc as (? & ? & ? & ? & ?). unfold s, counts_ok. simpl.
    destruct p; [by apply decrement_stage_counts|done]. }
  apply bind_Some in Ha as (s' & Hs & [= <-]).
  apply enter_stage_counts in Hs as (E1 & E2 & E3 & E4 & E5 & Hn). simpl in *.
  unfold is_obsolete, is_fully_empty. simpl. apply andb_false_iff. right.
  rewrite E1, E2, E3, E4, E5. clear E1 E2 E3 E4 E5.
  destruct n; simpl; try done; rewrite ?andb_false_iff, ?Z.eqb_neq; lia.
Qed.

(** ** Coherence *)

Abbreviation T := (Tables OutboxMessage).

(** The counters of queues are not negative, and the index of active queues has
    exactly the queues whose metadata says so. *)
Record rows_ok (t : T) : Prop := {
  ro_counts : ∀ q m, t_vqmeta t !! q = Some m → counts_ok m;
  ro_active : ∀ q, q ∈ t_vqactive t ↔ ∃ m, t_vqmeta t !! q = Some m ∧ vm_is_active m = true }.

Record coherent (t : T) (c : VQueuesMetaCache) : Prop := {
  ch_inv : ∃ l, cache_inv c l;
  ch_rows : ∀ q h, queues c !! q = Some h → ∃ m, core c !! h = Some (q, m) ∧ t_vqmeta t !! q = Some m;
  ch_rows_ok : rows_ok t }.

(** A change of the tables that leaves the rows of queues alone. *)
Definition same_rows (t t' : T) : Prop :=
  t_vqmeta t' = t_vqmeta t ∧ t_vqactive t' = t_vqactive t.
Definition keeps_rows (f : T → T) : Prop := ∀ t, same_rows t (f t).

Lemma rows_ok_frame t t' : same_rows t t' → rows_ok t → rows_ok t'.
Proof. intros [E1 E2] [? ?]. constructor; by rewrite ?E1, ?E2. Qed.

Lemma coherent_frame t t' c : same_rows t t' → coherent t c → coherent t' c.
Proof.
  intros E [Hi Hr Ho]. constructor; [done| |by eapply rows_ok_frame].
  destruct E as [-> _]. done.
Qed.

(** What [update_vqueue] does to the tables. *)
Definition row_written (q : VQueueId) (m m' : VQueueMeta) (t : T) : T :=
  let t := match vm_is_active m, vm_is_active m' with
           | false, true => mark_vqueue_as_active q t
           | true, false => mark_vqueue_as_dormant q t
           | _, _ => t
           end in
  if is_obsolete m' then delete_vqueue q t else upd_vqmeta <[ q := m' ]> t.

(** A full write and a merge operand leave the same row. *)
Lemma update_vqueue_row_ok sample q m u t :
  t_vqmeta t !! q = Some m →
  update_vqueue_row sample q m u t =
    (λ m', (row_written q m m' t, m', is_obsolete m')) <$> apply_update u m.
Proof.
  intros Hm. unfold update_vqueue_row. destruct (apply_update u m) as [m'|] eqn:Ha; [|done].
  simpl. unfold row_written. destruct (is_obsolete m'); [done|].
  set (t1 := match vm_is_active m with true => _ | false => _ end).
  assert (t_vqmeta t1 !! q = Some m) as Hm1.
  { unfold t1. destruct (vm_is_active m), (vm_is_active m'); done. }
  destruct (sample || _); [done|]. unfold merge_vqueue. rewrite Hm1. simpl. by rewrite Ha.
Qed.

Lemma row_written_meta q m m' t q' :
  t_vqmeta (row_written q m m' t) !! q' =
    if decide (q' = q) then (if is_obsolete m' then None else Some m') else t_vqmeta t !! q'.
Proof.
  unfold row_written. set (t1 := match vm_is_active m with true => _ | false => _ end).
  assert (t_vqmeta t1 = t_vqmeta t) as E by (unfold t1; by destruct (vm_is_active m), (vm_is_active m')).
  destruct (is_obsolete m'); simpl; rewrite E; case_decide; subst;
    rewrite ?lookup_delete_eq, ?lookup_insert_eq, ?lookup_delete_ne, ?lookup_insert_ne by done; done.
Qed.

Lemma row_written_active q m m' t :
  t_vqactive (row_written q m m' t) =
    match vm_is_active m, vm_is_active m' with
    | false, true => {[ q ]} ∪ t_vqactive t
    | true, false => t_vqactive t ∖ {[ q ]}
    | _, _ => t_vqactive t
    end.
Proof.
  unfold row_written. by destruct (vm_is_active m), (vm_is_active m'), (is_obsolete m').
Qed.

Lemma active_not_obsolete m : counts_ok m → vm_is_active m = true → is_obsolete m = false.
Proof.
  intros (H1 & H2 & H3 & H4 & H5) Ha. unfold vm_is_active, is_obsolete, is_fully_empty in *.
  destruct (vm_queue_is_paused m); [done|]. simpl.
  apply orb_true_iff in Ha as [Ha|Ha]; bool_to_prop;
    rewrite ?andb_false_iff, ?Z.eqb_neq; lia.
Qed.

Lemma row_written_rows_ok q u m m' t :
  rows_ok t → t_vqmeta t !! q = Some m → apply_update u m = Some m' →
  rows_ok (row_written q m m' t).
Proof.
  intros [Hc Ha] Hm Hu. assert (counts_ok m') as Hm' by (eapply apply_update_counts; eauto).
  constructor.
  - intros q2 m2. rewrite row_written_meta. case_decide; [|apply Hc].
    destruct (is_obsolete m'); [done|]. by intros [= <-].
  - intros q2. rewrite row_written_active. setoid_rewrite row_written_meta.
    destruct (decide (q2 = q)) as [->|Hne].
    + assert (q ∈ t_vqactive t ↔ vm_is_active m = true) as Hq by (rewrite Ha; naive_solver).
      transitivity (vm_is_active m' = true).
      * destruct (vm_is_active m), (vm_is_active m'); set_solver.
      * destruct (is_obsolete m') eqn:Ho; [|naive_solver].
        split; [|naive_solver]. intros Ht. by rewrite active_not_obsolete in Ho.
    + rewrite <- Ha. destruct (vm_is_active m), (vm_is_active m'); set_solver.
Qed.

Lemma create_vqueue_rows_ok q m t :
  rows_ok t → t_vqmeta t !! q = None → counts_ok m → vm_is_active m = false →
  rows_ok (create_vqueue q m t).
Proof.
  intros [Hc Ha] Hn Hm Hi. constructor; simpl.
  - intros q2 m2 [[-> <-]|[_ H2]]%lookup_insert_Some; eauto.
  - intros q2. rewrite Ha. setoid_rewrite lookup_insert_Some. split.
    + intros (m2 & H2 & Hact). exists m2. split; [right|done]. split; [congruence|done].
    + intros (m2 & [[-> <-]|[_ H2]] & Hact); [congruence|by eauto].
Qed.

Section queue.
Context `{!SlotKeys, !SlotKeysLaws} (v : VCtx Action).
Abbreviation op := (sm PState Error).

(** The queue of a handle changes as its row does. *)
Lemma update_vqueue_ok h u s q :
  coherent (v_tables s) (v_cache s) → queues (v_cache s) !! q = Some h →
  ∃ m, t_vqmeta (v_tables s) !! q = Some m ∧
    match apply_update u m with
    | None => ∃ s', (update_vqueue v h u : op unit) s = (s', Panic)
    | Some m' => ∃ c' a, (update_vqueue v h u : op unit) s
                 = (mkV (row_written q m m' (v_tables s)) c' a (v_numbers s), Ok tt) ∧
        coherent (row_written q m m' (v_tables s)) c' ∧ core c' !! h = Some (q, m') ∧
        (is_obsolete m' = false → queues c' !! q = Some h)
    end.
Proof.
  destruct s as [t c a0 k]. simpl. intros [[l Hi] Hr Hcn] Hq.
  destruct (Hr _ _ Hq) as (m & Hc & Hm). exists m. split; [done|].
  assert (h ∉ pending_purges c) as Hp by (apply (ci_queues _ _ Hi) in Hq; tauto).
  pose proof Hc as Hsl. rewrite lookup_core in Hsl.
  destruct (slab c !! h) as [sl|] eqn:Hs; [|done]. injection Hsl as Hq' Hm'.
  assert ((update_vqueue v h u : op unit) (mkV t c a0 k) =
    match apply_update u m with
    | None => (mkV t c a0 k, Panic)
    | Some m' =>
        sm_bind (in_cache (set_meta h m')) (λ _, sm_when (is_obsolete m')
          (sm_bind (in_cache (defer_purge h)) (λ _, emit v h [VQueuePurged])))
          (mkV (row_written q m m' t) c a0 k)
    end) as ->.
  { unfold update_vqueue, queue_slot, reads, sm_bind at 1, in_cache at 1, slot_of. simpl.
    rewrite Hs. simpl. rewrite Hq', Hm'. unfold sm_bind at 1. simpl.
    rewrite update_vqueue_row_ok by done. unfold sm_bind at 1, sm_lift.
    destruct (apply_update u m); done. }
  destruct (apply_update u m) as [m'|] eqn:Ha; [|by eexists].
  destruct (set_meta_ok (E := Error) c l h q m m' Hi Hc Hp)
    as (c1 & E1 & Hi1 & Hc1 & Hq1 & Hp1 & _).
  unfold sm_bind at 1, in_cache at 1. simpl. rewrite E1. simpl.
  assert (core c1 !! h = Some (q, m')) as Hch by (rewrite Hc1; apply lookup_insert_eq).
  assert (∀ q2 h2, q2 ≠ q → queues c1 !! q2 = Some h2 →
            core c1 !! h2 = core c !! h2 ∧ ∃ m2, core c !! h2 = Some (q2, m2) ∧ t_vqmeta t !! q2 = Some m2)
    as Hother.
  { intros q2 h2 Hne Hq2. rewrite Hq1 in Hq2. destruct (Hr _ _ Hq2) as (m2 & Hc2 & Hm2).
    assert (h2 ≠ h) by congruence. split; [|eauto]. rewrite Hc1. by apply lookup_insert_ne. }
  assert (rows_ok (row_written q m m' t)) as Hcn' by (by eapply row_written_rows_ok).
  destruct (is_obsolete m') eqn:Ho; simpl.
  - destruct (defer_purge_ok (E := Error) c1 _ h q m' Hi1 Hch) as (c2 & E2 & Hi2 & Hc2 & Hq2 & _);
      [by rewrite Hp1|].
    unfold sm_bind, in_cache. simpl. rewrite E2.
    exists c2, (if vc_collector v then a0 ++ [vc_from_event v
                  {| ve_queue := h; ve_updates := [VQueuePurged] |}] else a0).
    split; [unfold emit, sm_when; by destruct (vc_collector v)|].
    split; [|split; [by rewrite Hc2|done]].
    constructor; [by eexists| |done].
    intros q2 h2. rewrite Hq2. intros [Hne Hq2']%lookup_delete_Some.
    destruct (Hother q2 h2) as (E & m2 & Hc2' & Hm2); [done..|].
    exists m2. rewrite Hc2, row_written_meta, decide_False by done. by rewrite E.
  - exists c1, a0. split; [done|]. split; [|split; [done|intros _; by rewrite Hq1]].
    constructor; [by eexists| |done].
    intros q2 h2 Hq2. destruct (decide (q2 = q)) as [->|].
    + rewrite Hq1, Hq in Hq2. injection Hq2 as <-. exists m'. split; [done|].
      rewrite row_written_meta, decide_True, Ho by done. done.
    + destruct (Hother q2 h2) as (E & m2 & Hc2' & Hm2); [done..|].
      exists m2. rewrite row_written_meta, decide_False by done. by rewrite E.
Qed.

Lemma cache_insert_coherent q m s t :
  coherent (v_tables s) (v_cache s) → queues (v_cache s) !! q = None → rows_ok t →
  (∀ q2, q2 ≠ q → t_vqmeta t !! q2 = t_vqmeta (v_tables s) !! q2) → t_vqmeta t !! q = Some m →
  ∃ h c', (in_cache (cache_insert q m) : op VQueueHandle) (mkV t (v_cache s) (v_actions s) (v_numbers s))
          = (mkV t c' (v_actions s) (v_numbers s), Ok h) ∧
    coherent t c' ∧ queues c' !! q = Some h.
Proof.
  intros [[l Hi] Hr Hcn] Hq Ht Hframe Hrow.
  destruct (cache_insert_ok (E := Error) (v_cache s) l q m Hi Hq)
    as (c' & E & Hfresh & Hi' & Hc' & Hq' & _).
  set (h := slot_key _) in *. exists h, c'. unfold in_cache. simpl. rewrite E.
  split; [done|]. split; [|by rewrite Hq', lookup_insert_eq].
  constructor; [by eexists| |done].
  intros q2 h2. rewrite Hq'. destruct (decide (q2 = q)) as [->|].
  - rewrite lookup_insert_eq. intros [= <-]. exists m. by rewrite Hc', lookup_insert_eq.
  - rewrite lookup_insert_ne by done. intros Hq2. destruct (Hr _ _ Hq2) as (m2 & Hc2 & Hm2).
    exists m2. assert (h2 ≠ h) by congruence. rewrite Hc', lookup_insert_ne by done.
    by rewrite Hframe.
Qed.
End queue.

(** ** Two replicas *)

(** The states of two replicas between two records: the same tables and sequence
    numbers, and caches that agree with the tables.  The collected actions are not related: only the leader
    executes them, and they name queues by the handles of its own cache. *)
Definition replicas (s1 s2 : PState) : Prop :=
  v_tables s1 = v_tables s2 ∧ coherent (v_tables s1) (v_cache s1) ∧
  coherent (v_tables s2) (v_cache s2) ∧ v_numbers s1 = v_numbers s2.

(** The same, and the two handles are those of queue [q]; [open_queues] while the
    lookup finds them, [known_queues] also when the queue was purged. *)
Definition known_queues (q : VQueueId) (m : VQueueMeta) (h1 h2 : VQueueHandle) (s1 s2 : PState)
    : Prop :=
  replicas s1 s2 ∧ core (v_cache s1) !! h1 = Some (q, m) ∧ core (v_cache s2) !! h2 = Some (q, m).

Definition open_queues (q : VQueueId) (h1 h2 : VQueueHandle) (s1 s2 : PState) : Prop :=
  replicas s1 s2 ∧ queues (v_cache s1) !! q = Some h1 ∧ queues (v_cache s2) !! q = Some h2.

Lemma open_known q h1 h2 s1 s2 :
  open_queues q h1 h2 s1 s2 → ∃ m, known_queues q m h1 h2 s1 s2.
Proof.
  intros ((Ht & H1 & H2 & Hn) & Q1 & Q2).
  destruct (ch_rows _ _ H1 _ _ Q1) as (m & C1 & R1), (ch_rows _ _ H2 _ _ Q2) as (m2 & C2 & R2).
  exists m. unfold known_queues, replicas. rewrite Ht in R1. assert (m2 = m) as -> by congruence.
  done.
Qed.

(** ** Relational triples

    Both computations succeed, fail with the same error, or panic. *)

Definition rht {A B} (P : PState → PState → Prop) (m1 : M A) (m2 : M B)
    (Q : A → B → PState → PState → Prop) : Prop :=
  ∀ s1 s2, P s1 s2 →
    match m1 s1, m2 s2 with
    | (s1', Ok a), (s2', Ok b) => Q a b s1' s2'
    | (s1', Err e1), (s2', Err e2) => e1 = e2 ∧ replicas s1' s2'
    | (_, Panic), (_, Panic) => True
    | _, _ => False
    end.

(** Equal results, from states in [P] to states in [P']. *)
Definition keeps {A} (P P' : PState → PState → Prop) (m1 m2 : M A) : Prop :=
  rht P m1 m2 (λ a b s1 s2, a = b ∧ P' s1 s2).
Abbreviation same P := (keeps P P).

(** Relations that changes of both tables that leave the rows of queues alone
    preserve, whatever actions are collected. *)
Class Stable (P : PState → PState → Prop) : Prop := {
  stable_replicas : ∀ s1 s2, P s1 s2 → replicas s1 s2;
  stable_frame : ∀ f s1 s2 a1 a2 n, keeps_rows f → P s1 s2 →
    P (mkV (f (v_tables s1)) (v_cache s1) a1 n) (mkV (f (v_tables s2)) (v_cache s2) a2 n) }.

#[export] Instance replicas_stable : Stable replicas.
Proof.
  constructor; [done|]. intros f s1 s2 a1 a2 n Hf (Ht & H1 & H2 & Hn).
  split_and!; simpl; [by rewrite Ht|..|done]; (eapply coherent_frame; [apply Hf|done]).
Qed.
#[export] Instance open_queues_stable q h1 h2 : Stable (open_queues q h1 h2).
Proof.
  constructor; [by intros ? ? []|]. intros f s1 s2 a1 a2 n Hf (HR & Q1 & Q2). split_and!; try done.
  by apply (stable_frame f).
Qed.
#[export] Instance known_queues_stable q m h1 h2 : Stable (known_queues q m h1 h2).
Proof.
  constructor; [by intros ? ? []|]. intros f s1 s2 a1 a2 n Hf (HR & Q1 & Q2). split_and!; try done.
  by apply (stable_frame f).
Qed.

Lemma rht_weaken {A B} P P' (m1 : M A) (m2 : M B) Q Q' :
  rht P m1 m2 Q → (∀ s1 s2, P' s1 s2 → P s1 s2) →
  (∀ a b s1 s2, Q a b s1 s2 → Q' a b s1 s2) → rht P' m1 m2 Q'.
Proof.
  intros Hm HP HQ s1 s2 Hs. specialize (Hm s1 s2 (HP _ _ Hs)).
  destruct (m1 s1) as [? []], (m2 s2) as [? []]; try done. by apply HQ.
Qed.

Lemma rht_bind {A1 A2 B1 B2} P (m1 : M A1) (m2 : M A2) (k1 : A1 → M B1) (k2 : A2 → M B2) Q Q' :
  rht P m1 m2 Q → (∀ a b, rht (Q a b) (k1 a) (k2 b) Q') →
  rht P (sm_bind m1 k1) (sm_bind m2 k2) Q'.
Proof.
  intros Hm Hk s1 s2 Hs. specialize (Hm s1 s2 Hs). unfold sm_bind.
  destruct (m1 s1) as [? []], (m2 s2) as [? []]; try done. by apply Hk.
Qed.

Lemma rht_pure {A B} (φ : Prop) P (m1 : M A) (m2 : M B) Q :
  (φ → rht P m1 m2 Q) → rht (λ s1 s2, φ ∧ P s1 s2) m1 m2 Q.
Proof. intros H s1 s2 [Hφ Hs]. by apply H. Qed.

Lemma rht_exists {A B X} (P : X → PState → PState → Prop) (m1 : M A) (m2 : M B) Q :
  (∀ x, rht (P x) m1 m2 Q) → rht (λ s1 s2, ∃ x, P x s1 s2) m1 m2 Q.
Proof. intros H s1 s2 [x Hs]. by apply (H x). Qed.

Lemma same_bind {A B1 B2} P P' (m1 m2 : M A) (k1 : A → M B1) (k2 : A → M B2) Q :
  keeps P P' m1 m2 → (∀ a, rht P' (k1 a) (k2 a) Q) → rht P (sm_bind m1 k1) (sm_bind m2 k2) Q.
Proof. intros Hm Hk. eapply rht_bind; [done|]. intros a b. apply rht_pure. intros <-. apply Hk. Qed.

Lemma keeps_bind {A B} P P' P'' (m1 m2 : M A) (k1 k2 : A → M B) :
  keeps P P' m1 m2 → (∀ a, keeps P' P'' (k1 a) (k2 a)) →
  keeps P P'' (sm_bind m1 k1) (sm_bind m2 k2).
Proof. apply same_bind. Qed.

Lemma keeps_end {A} P `{!Stable P} (m1 m2 : M A) : same P m1 m2 → keeps P replicas m1 m2.
Proof.
  intros Hm. eapply rht_weaken; [done|done|]. intros a b s1 s2 [-> Hs]. split; [done|].
  by apply stable_replicas.
Qed.

Lemma same_ret {A} P (a : A) : same P (sm_ret a) (sm_ret a).
Proof. intros s1 s2 Hs. done. Qed.

Lemma same_lift {A} P `{!Stable P} (r : res Error A) : same P (sm_lift r) (sm_lift r).
Proof. intros s1 s2 Hs. unfold sm_lift. destruct r; try done. split; [done|]. by apply stable_replicas. Qed.

Lemma same_reads {A} P `{!Stable P} (f : T → A) : same P (reads f) (reads f).
Proof.
  intros s1 s2 Hs. unfold reads, sm_gets. split; [|done].
  destruct (stable_replicas _ _ Hs) as [-> _]. done.
Qed.

Lemma same_tables P `{!Stable P} (f : T → T) :
  keeps_rows f → same P (tables f) (tables f).
Proof.
  intros Hf s1 s2 Hs. split; [done|]. pose proof (stable_replicas _ _ Hs) as (_ & _ & _ & Hn).
  unfold on_tables. rewrite <- Hn. by apply (stable_frame f).
Qed.

(** Numbers that both replicas read and set. *)
Lemma same_numbers {A} P `{!Stable P} (f : Numbers → A) :
  same P (sm_gets (λ s, f (v_numbers s))) (sm_gets (λ s, f (v_numbers s))).
Proof.
  intros s1 s2 Hs. split; [|done]. by destruct (stable_replicas _ _ Hs) as (_ & _ & _ & ->).
Qed.
Lemma same_set_numbers P `{!Stable P} (f : Numbers → Numbers) :
  same P (sm_modify (λ s, mkV (v_tables s) (v_cache s) (v_actions s) (f (v_numbers s))))
         (sm_modify (λ s, mkV (v_tables s) (v_cache s) (v_actions s) (f (v_numbers s)))).
Proof.
  intros s1 s2 Hs. split; [done|]. pose proof (stable_replicas _ _ Hs) as (_ & _ & _ & <-).
  by apply (stable_frame Datatypes.id).
Qed.

(** Computations that only collect actions. *)
Definition silent (m : M unit) : Prop := ∀ s, ∃ a, m s = (mkV (v_tables s) (v_cache s) a (v_numbers s), Ok tt).

Lemma same_silent P `{!Stable P} (m1 m2 : M unit) : silent m1 → silent m2 → same P m1 m2.
Proof.
  intros H1 H2 s1 s2 Hs. destruct (H1 s1) as [a1 ->], (H2 s2) as [a2 ->]. split; [done|].
  pose proof (stable_replicas _ _ Hs) as (_ & _ & _ & <-). by apply (stable_frame Datatypes.id).
Qed.

Lemma same_silent_l {A} P `{!Stable P} (m1 : M unit) (k1 k2 : M A) :
  silent m1 → same P k1 k2 → same P (m1 ;; k1) k2.
Proof.
  intros Hm Hk s1 s2 Hs. unfold sm_bind. destruct (Hm s1) as [a1 ->].
  assert (P (mkV (v_tables s1) (v_cache s1) a1 (v_numbers s1)) s2) as Hs'; [|by apply Hk].
  pose proof (stable_replicas _ _ Hs) as (_ & _ & _ & ->).
  pose proof (stable_frame Datatypes.id s1 s2 a1 (v_actions s2) (v_numbers s2)) as Hf.
  destruct s2. by apply Hf.
Qed.
Lemma same_silent_r {A} P `{!Stable P} (m2 : M unit) (k1 k2 : M A) :
  silent m2 → same P k1 k2 → same P k1 (m2 ;; k2).
Proof.
  intros Hm Hk s1 s2 Hs. unfold sm_bind. destruct (Hm s2) as [a2 ->].
  assert (P s1 (mkV (v_tables s2) (v_cache s2) a2 (v_numbers s2))) as Hs'; [|by apply Hk].
  pose proof (stable_replicas _ _ Hs) as (_ & _ & _ & <-).
  pose proof (stable_frame Datatypes.id s1 s2 (v_actions s1) a2 (v_numbers s1)) as Hf.
  destruct s1. by apply Hf.
Qed.

Lemma silent_ret : silent (sm_ret tt).
Proof. intros s. exists (v_actions s). by destruct s. Qed.
Lemma silent_when b m : silent m → silent (sm_when b m).
Proof. intros. destruct b; [done|apply silent_ret]. Qed.
Lemma silent_push a : silent (push a).
Proof. intros s. by eexists. Qed.
Lemma silent_emit (v : VCtx Action) h u : silent (emit v h u).
Proof. apply silent_when. intros s. by eexists. Qed.

Lemma keeps_when P P' (b : bool) (m1 m2 : M unit) :
  keeps P P' m1 m2 → keeps P P' (sm_ret tt) (sm_ret tt) → keeps P P' (sm_when b m1) (sm_when b m2).
Proof. by destruct b. Qed.

Lemma same_for {A} P (f1 f2 : A → M unit) l :
  (∀ x, same P (f1 x) (f2 x)) → same P (sm_for f1 l) (sm_for f2 l).
Proof.
  intros Hf. induction l as [|x l IH]; [apply same_ret|]. simpl. eapply keeps_bind; [apply Hf|].
  intros _. apply IH.
Qed.

Lemma same_assert P `{!Stable P} b : same P (assert_ b) (assert_ b).
Proof. destruct b; [apply same_ret|by apply same_lift]. Qed.

(** ** Queues of two replicas *)

(** What loading a queue does on one replica. *)
Lemma load_ok {K : SlotKeys} `{!SlotKeysLaws} q (s : PState) :
  coherent (v_tables s) (v_cache s) →
  ∃ c' o, (load q : M _) s = (mkV (v_tables s) c' (v_actions s) (v_numbers s), Ok o) ∧ coherent (v_tables s) c' ∧
    match o with
    | Some h => queues c' !! q = Some h ∧ is_Some (t_vqmeta (v_tables s) !! q)
    | None => c' = v_cache s ∧ queues c' !! q = None ∧ t_vqmeta (v_tables s) !! q = None
    end.
Proof.
  intros Hc. unfold load, sm_bind, sm_gets, reads, sm_gets. simpl.
  destruct (queues (v_cache s) !! q) as [h|] eqn:Hq.
  - exists (v_cache s), (Some h). destruct (ch_rows _ _ Hc _ _ Hq) as (m & _ & Hm).
    split_and!; [by destruct s|done..|by eexists].
  - destruct (t_vqmeta (v_tables s) !! q) as [m|] eqn:Hm.
    + destruct (cache_insert_coherent q m s (v_tables s)) as (h & c' & E & Hc' & Hq');
        [done|done|apply Hc|done|done|].
      destruct s as [t c a k]; simpl in *. rewrite E. by exists c', (Some h).
    + exists (v_cache s), None. split_and!; try done. by destruct s.
Qed.

Lemma vqueue_meta_new_counts at_ sc lk link : counts_ok (vqueue_meta_new at_ sc lk link).
Proof. done. Qed.

Lemma from_target_ok {K : SlotKeys} `{!SlotKeysLaws} at_ q target lk (s : PState) :
  coherent (v_tables s) (v_cache s) →
  ∃ c' h, (vqueue_from_invocation_target at_ q target lk : M _) s =
    (mkV (match t_vqmeta (v_tables s) !! q with
          | Some _ => v_tables s
          | None => create_vqueue q (vqueue_meta_new at_ (target_scope target) lk
                      (match target_lock_name target with
                       | Some l => LinkLock l
                       | None => LinkService (service_name target)
                       end)) (v_tables s)
          end) c' (v_actions s) (v_numbers s), Ok h) ∧
    coherent (match t_vqmeta (v_tables s) !! q with
          | Some _ => v_tables s
          | None => create_vqueue q (vqueue_meta_new at_ (target_scope target) lk
                      (match target_lock_name target with
                       | Some l => LinkLock l
                       | None => LinkService (service_name target)
                       end)) (v_tables s)
          end) c' ∧ queues c' !! q = Some h.
Proof.
  intros Hc. unfold vqueue_from_invocation_target.
  destruct (load_ok q s Hc) as (c' & o & E & Hc' & Ho). unfold sm_bind at 1. rewrite E. clear E.
  destruct o as [h|].
  - destruct Ho as [Hq [m Hm]]. rewrite Hm. by exists c', h.
  - destruct Ho as (-> & Hq & Hm). rewrite Hm. simpl.
    set (m := vqueue_meta_new _ _ _ _).
    destruct (cache_insert_coherent q m s (create_vqueue q m (v_tables s))) as (h & c' & E & Hc2 & Hq2);
      [done|done|by apply create_vqueue_rows_ok; [apply Hc|..]| |apply lookup_insert_eq|].
    { intros q2 Hne. simpl. by rewrite lookup_insert_ne. }
    exists c', h. unfold sm_bind, tables, sm_modify, on_tables. simpl. by rewrite E.
Qed.

Definition loaded (q : VQueueId) (o1 o2 : option VQueueHandle) (s1 s2 : PState) : Prop :=
  match o1, o2 with
  | Some h1, Some h2 => open_queues q h1 h2 s1 s2
  | None, None => replicas s1 s2
  | _, _ => False
  end.

Section two_caches.
Context (K1 K2 : SlotKeys) `{!@SlotKeysLaws K1, !@SlotKeysLaws K2}.

Lemma rht_load q : rht replicas (@load _ _ _ K1 q) (@load _ _ _ K2 q) (loaded q).
Proof.
  intros s1 s2 (Ht & H1 & H2 & Hn).
  destruct (load_ok (K := K1) q s1 H1) as (c1 & o1 & -> & C1 & Q1),
    (load_ok (K := K2) q s2 H2) as (c2 & o2 & -> & C2 & Q2). rewrite <- Ht in *.
  destruct o1 as [h1|], o2 as [h2|]; simpl.
  - destruct Q1, Q2. by split_and!.
  - destruct Q1 as [_ [m Hm]], Q2 as (_ & _ & Hq). congruence.
  - destruct Q2 as [_ [m Hm]], Q1 as (_ & _ & Hq). congruence.
  - by split_and!.
Qed.

Lemma rht_vqueue_expect q :
  rht replicas (@vqueue_expect K1 q) (@vqueue_expect K2 q) (open_queues q).
Proof.
  eapply rht_bind; [apply rht_load|]. intros [h1|] [h2|] s1 s2 Hs; done.
Qed.

Lemma rht_from_target at_ q target lk :
  rht replicas (@vqueue_from_invocation_target _ _ _ K1 at_ q target lk)
    (@vqueue_from_invocation_target _ _ _ K2 at_ q target lk) (open_queues q).
Proof.
  intros s1 s2 (Ht & H1 & H2 & Hn).
  destruct (from_target_ok (K := K1) at_ q target lk s1 H1) as (c1 & h1 & -> & C1 & Q1),
    (from_target_ok (K := K2) at_ q target lk s2 H2) as (c2 & h2 & -> & C2 & Q2).
  rewrite <- Ht in *. by split_and!.
Qed.

Lemma keeps_expect {B} P' q (k1 k2 : VQueueHandle → M B) :
  (∀ h1 h2, keeps (open_queues q h1 h2) P' (k1 h1) (k2 h2)) →
  keeps replicas P' (sm_bind (@vqueue_expect K1 q) k1) (sm_bind (@vqueue_expect K2 q) k2).
Proof. intros Hk. eapply rht_bind; [apply rht_vqueue_expect|apply Hk]. Qed.

Lemma keeps_from_target {B} P' at_ q target lk (k1 k2 : VQueueHandle → M B) :
  (∀ h1 h2, keeps (open_queues q h1 h2) P' (k1 h1) (k2 h2)) →
  keeps replicas P' (sm_bind (@vqueue_from_invocation_target _ _ _ K1 at_ q target lk) k1)
    (sm_bind (@vqueue_from_invocation_target _ _ _ K2 at_ q target lk) k2).
Proof. intros Hk. eapply rht_bind; [apply rht_from_target|apply Hk]. Qed.
End two_caches.

Section two_queues.
Context (v1 v2 : VCtx Action) (q : VQueueId) (h1 h2 : VQueueHandle).

Lemma known_slots m s1 s2 :
  known_queues q m h1 h2 s1 s2 →
  ∃ a b, (queue_slot h1 : M Slot) s1 = (s1, Ok a) ∧ (queue_slot h2 : M Slot) s2 = (s2, Ok b) ∧
    slot_core a = (q, m) ∧ slot_core b = (q, m).
Proof.
  intros (_ & C1 & C2). rewrite lookup_core in C1, C2. unfold queue_slot, in_cache, slot_of, expect.
  apply fmap_Some in C1 as (a & -> & Ha), C2 as (b & -> & Hb). exists a, b. by destruct s1, s2.
Qed.

(** The slot of a queue, for code that uses its id and metadata only. *)
Lemma rht_slot_known {B1 B2} m (k1 : Slot → M B1) (k2 : Slot → M B2) Q :
  (∀ a b, sl_qid a = q → sl_qid b = q → sl_meta a = m → sl_meta b = m →
     rht (known_queues q m h1 h2) (k1 a) (k2 b) Q) →
  rht (known_queues q m h1 h2) (sm_bind (queue_slot h1) k1) (sm_bind (queue_slot h2) k2) Q.
Proof.
  intros Hk s1 s2 Hs. destruct (known_slots m s1 s2 Hs) as (a & b & Ea & Eb & Ca & Cb).
  unfold sm_bind. rewrite Ea, Eb. injection Ca as ? ?. injection Cb as ? ?. by apply Hk.
Qed.

Lemma rht_slot_open {B1 B2} (k1 : Slot → M B1) (k2 : Slot → M B2) Q :
  (∀ m a b, sl_qid a = q → sl_qid b = q → sl_meta a = m → sl_meta b = m →
     rht (open_queues q h1 h2) (k1 a) (k2 b) Q) →
  rht (open_queues q h1 h2) (sm_bind (queue_slot h1) k1) (sm_bind (queue_slot h2) k2) Q.
Proof.
  intros Hk s1 s2 Hs. destruct (open_known _ _ _ _ _ Hs) as [m Hm].
  destruct (known_slots m s1 s2 Hm) as (a & b & Ea & Eb & Ca & Cb).
  unfold sm_bind. rewrite Ea, Eb. injection Ca as ? ?. injection Cb as ? ?. by eapply Hk.
Qed.

Lemma keeps_slot_known {B} m P' (k1 k2 : Slot → M B) :
  (∀ a b, sl_qid a = q → sl_qid b = q → sl_meta a = m → sl_meta b = m →
     keeps (known_queues q m h1 h2) P' (k1 a) (k2 b)) →
  keeps (known_queues q m h1 h2) P' (sm_bind (queue_slot h1) k1) (sm_bind (queue_slot h2) k2).
Proof. apply rht_slot_known. Qed.

Lemma keeps_slot_open {B} P' (k1 k2 : Slot → M B) :
  (∀ m a b, sl_qid a = q → sl_qid b = q → sl_meta a = m → sl_meta b = m →
     keeps (open_queues q h1 h2) P' (k1 a) (k2 b)) →
  keeps (open_queues q h1 h2) P' (sm_bind (queue_slot h1) k1) (sm_bind (queue_slot h2) k2).
Proof. apply rht_slot_open. Qed.

Lemma same_assert_queue q' :
  same (open_queues q h1 h2) (assert_queue h1 q') (assert_queue h2 q').
Proof. apply rht_slot_open. intros m a b -> -> _ _. apply same_assert, _. Qed.

(** An update of the row: in general the queue may be purged, a move keeps it. *)
Lemma update_both u s1 s2 :
  open_queues q h1 h2 s1 s2 →
  match (update_vqueue v1 h1 u : M unit) s1, (update_vqueue v2 h2 u : M unit) s2 with
  | (s1', Ok _), (s2', Ok _) =>
      (∃ m, known_queues q m h1 h2 s1' s2') ∧
      ((∃ p n mt, up_action u = ActMove p n mt) → open_queues q h1 h2 s1' s2')
  | (_, Panic), (_, Panic) => True
  | _, _ => False
  end.
Proof.
  intros ((Ht & H1 & H2 & Hn) & Q1 & Q2).
  destruct (update_vqueue_ok v1 h1 u s1 q H1 Q1) as (m & M1 & E1),
    (update_vqueue_ok v2 h2 u s2 q H2 Q2) as (m' & M2 & E2).
  rewrite <- Ht in *. assert (m' = m) as -> by congruence. clear M2.
  destruct (apply_update u m) as [m'|] eqn:Ha.
  - destruct E1 as (c1 & a1 & -> & C1 & K1 & L1), E2 as (c2 & a2 & -> & C2 & K2 & L2). split.
    + exists m'. by split_and!.
    + intros (p & n & mt & Hu).
      assert (is_obsolete m' = false) as Ho
        by (eapply move_not_obsolete; [eapply (ro_counts _ (ch_rows_ok _ _ H1)); done|done|done]).
      split; [by split_and!|]. simpl. auto.
  - destruct E1 as [? ->], E2 as [? ->]. done.
Qed.

Lemma rht_update u :
  rht (open_queues q h1 h2) (update_vqueue v1 h1 u) (update_vqueue v2 h2 u)
    (λ _ _ s1 s2, ∃ m, known_queues q m h1 h2 s1 s2).
Proof.
  intros s1 s2 Hs. pose proof (update_both u s1 s2 Hs) as H.
  destruct (update_vqueue v1 h1 u s1) as [? []], (update_vqueue v2 h2 u s2) as [? []]; naive_solver.
Qed.

(** The last update of an operation. *)
Lemma keeps_update u :
  keeps (open_queues q h1 h2) replicas (update_vqueue v1 h1 u) (update_vqueue v2 h2 u).
Proof.
  eapply rht_weaken; [apply rht_update|done|]. intros [] [] s1 s2 [m Hm].
  split; [done|]. by apply stable_replicas in Hm.
Qed.

Lemma same_move t p n mt :
  same (open_queues q h1 h2) (update_vqueue v1 h1 {| up_ts := t; up_action := ActMove p n mt |})
    (update_vqueue v2 h2 {| up_ts := t; up_action := ActMove p n mt |}).
Proof.
  intros s1 s2 Hs. pose proof (update_both {| up_ts := t; up_action := ActMove p n mt |} s1 s2 Hs) as H.
  destruct (update_vqueue v1 h1 _ s1) as [? [[]| |]], (update_vqueue v2 h2 _ s2) as [? [[]| |]];
    try done. split; [done|]. destruct H as [_ H]. apply H. by eauto.
Qed.
End two_queues.

(** ** Compaction and recovery *)

(** Compaction forgets queues, never their rows. *)
Lemma try_compact_coherent {E} can t c :
  coherent t c → Forall (λ h, can h = true) (pending_purges c) → ∃ c' n, try_compact (E := E) can c = (c', Ok n) ∧ coherent t c'.
Proof.
  intros [[l Hi] Hr Ho] Hcan. destruct (try_compact_ok (E := E) can c l Hi Hcan)
    as (c' & Et & Hi' & Hc' & Hp' & _).
  exists c'. eexists. split; [done|]. constructor; [by eexists| |done].
  intros q h [[m Hm] _]%(ci_queues _ _ Hi'). pose proof Hm as Hm0.
  rewrite Hc' in Hm0. apply map_lookup_filter_Some in Hm0 as [Hm0 _].
  apply map_lookup_filter_Some in Hm0 as [Hm0 Hnp].
  assert (queues c !! q = Some h) as Hq by (apply (ci_queues _ _ Hi); eauto).
  destruct (Hr q h Hq) as (m' & Hc & Hrow). exists m. split; [done|]. congruence.
Qed.

(** The scan of the active queues. *)
Definition active_rows (t : T) : list (VQueueId * VQueueMeta) :=
  omap (λ q, pair q <$> t_vqmeta t !! q) (elements (t_vqactive t)).

Lemma elem_of_active_rows t q m :
  (q, m) ∈ active_rows t ↔ q ∈ t_vqactive t ∧ t_vqmeta t !! q = Some m.
Proof.
  unfold active_rows. rewrite list_elem_of_omap. split.
  - intros (q' & Hq & Hm). apply fmap_Some in Hm as (m' & Hm & [= -> ->]). set_solver.
  - intros [Hq Hm]. exists q. rewrite Hm. split; [set_solver|done].
Qed.

Lemma active_rows_nodup t : NoDup (active_rows t).*1.
Proof.
  unfold active_rows. pose proof (NoDup_elements (t_vqactive t)) as Hd. revert Hd.
  induction (elements (t_vqactive t)) as [|q l IH]; intros Hd; [constructor|].
  apply NoDup_cons in Hd as [Hq Hd]. simpl. destruct (t_vqmeta t !! q); simpl; [|by apply IH].
  apply NoDup_cons. split; [|by apply IH]. intros (p & -> & Hp)%list_elem_of_fmap.
  apply list_elem_of_omap in Hp as (q' & Hq' & Hm). apply fmap_Some in Hm as (m & _ & ->). done.
Qed.

(** The cache of a processor that starts. *)
Lemma cache_create_ok {K : SlotKeys} `{!SlotKeysLaws} n l :
  NoDup l.*1 → Forall (λ p, vm_is_active p.2 = true) l →
  cache_inv (cache_create n l) [] ∧ pending_purges (cache_create n l) = [] ∧
  (∀ q h m, core (cache_create n l) !! h = Some (q, m) → (q, m) ∈ l).
Proof.
  induction l as [|[q m] l IH] using rev_ind; intros Hd Ha.
  - split_and!; [|done|by intros q h m Hm].
    constructor; simpl; try done.
    + constructor; simpl; try done; [constructor].
    + intros q h. split; [done|]. intros [[m Hm] _]. done.
    + set_solver.
    + constructor.
  - rewrite fmap_app in Hd. apply NoDup_app in Hd as (Hd & Hn & _).
    apply Forall_app in Ha as [Ha Hm]. rewrite Forall_singleton in Hm. simpl in Hm.
    destruct (IH Hd Ha) as (Hi & Hp & Hl). set (c := cache_create n l) in *.
    assert (queues c !! q = None) as Hq.
    { apply eq_None_not_Some. intros [h [[m' Hm'] _]%(ci_queues _ _ Hi)].
      apply (Hn q); [|set_solver]. apply list_elem_of_fmap. exists (q, m'). split; [done|]. eauto. }
    destruct (cache_insert_ok (E := unit) c [] q m Hi Hq) as (c' & Ec & _ & Hi' & Hc' & _ & Hp' & _).
    rewrite Hm in Hi'.
    assert (cache_create n (l ++ [(q, m)]) = c') as ->.
    { unfold cache_insert, sm_bind, sm_gets, sm_modify in Ec. rewrite Hm in Ec. simpl in Ec.
      injection Ec as <-. unfold cache_create. by rewrite foldl_app. }
    split_and!; [done|congruence|]. intros q2 h2 m2. rewrite Hc', elem_of_app, list_elem_of_singleton.
    intros [[_ [= <- <-]]|[_ H2]]%lookup_insert_Some; [by right|left; eauto].
Qed.

Lemma cache_create_coherent {K : SlotKeys} `{!SlotKeysLaws} n t :
  rows_ok t → coherent t (cache_create n (active_rows t)).
Proof.
  intros Ho. destruct (cache_create_ok n (active_rows t)) as (Hi & Hp & Hl).
  - apply active_rows_nodup.
  - apply Forall_forall. intros [q m] [Hq Hm]%elem_of_active_rows.
    apply (ro_active _ Ho) in Hq as (m' & Hm' & Ha). simpl. congruence.
  - constructor; [by eexists| |done]. intros q h [[m Hm] _]%(ci_queues _ _ Hi).
    exists m. split; [done|]. by apply Hl, elem_of_active_rows in Hm as [_ Hm].
Qed.
