(* ===== verification/Demo.v ===== *)
(** * Concrete instances of the classes that stand for packages

    Simple functions for the digests and codecs that the state machine takes as
    parameters, and an empty partition.  The examples
    that evaluate the model use them; the theorems hold for every instance. *)

From Stdlib Require Import Ascii.
From stdpp Require Import strings.
From S2P Require Import Prelude Invocation InvocationStatus VQueueMeta JournalV1 PartitionStore.
From S2P Require Import VQueueCache VQueue IdText StateMachineBase JournalV1Handlers Replicas.

Open Scope Z_scope.

(** ** Digests and codecs *)

#[export] Existing Instance demo_base62.
#[export] Existing Instance demo_base62_laws.

#[export] Instance demo_digests : Digests := {|
  sha256 l := l;
  compute_partition_key s := Z.of_nat (String.length s);
  bucket_partition_key s b := Z.of_nat (String.length s) + b;
  controlled_idempotent_sharding := false;
  span_start_linked _ s := s;
  base64_url_safe _ := "" |}.

#[export] Instance demo_base64 : Base64 := {| base64_decode _ := None |}.
#[export] Instance demo_state_keys : StateKeysCodec := λ _, "".

#[export] Existing Instance fresh_keys.
#[export] Existing Instance fresh_keys_laws.

(** ** An empty partition *)

Definition empty_tables : Tables OutboxMessage :=
  mkTables ∅ ∅ ∅ ∅ ∅ ∅ ∅ ∅ ∅ ∅ ∅ ∅ ∅ ∅ ∅ ∅ ∅ ∅ 0 0.

Definition no_features : PersistedFeatures :=
  {| pf_journal_v2 := false; pf_vqueues := false; pf_vqueues_skip_completed := false;
     pf_unique_random_seeds := false; pf_preflight_invocation_termination_retention := false;
     pf_inconsistent_state_mutation_cleanup := false |}.

(** The features of a new partition. *)
Definition demo_features : PersistedFeatures :=
  {| pf_journal_v2 := true; pf_vqueues := true; pf_vqueues_skip_completed := false;
     pf_unique_random_seeds := true; pf_preflight_invocation_termination_retention := true;
     pf_inconsistent_state_mutation_cleanup := true |}.

Definition demo_ctx (f : PersistedFeatures) (at_ lsn : Z) : Ctx :=
  {| record_created_at := at_; record_lsn := lsn; is_leader := true; features := f;
     full_write _ _ _ := false; sink_order s := elements s; schema := None;
     current_restate_version := "1.8.0" |}.

Lemma empty_rows_ok : rows_ok empty_tables.
Proof.
  constructor; simpl; [intros q m Hm; by rewrite lookup_empty in Hm|].
  intros q. split; [set_solver|]. intros (m & Hm & _). by rewrite lookup_empty in Hm.
Qed.

Definition demo_target : InvocationTarget := VirtualObject "svc" "k" "h" VoExclusive None.
Definition demo_id : InvocationId := {| inv_partition_key := 1; inv_uuid := 7 |}.
Definition demo_invocation : ServiceInvocation :=
  {| si_invocation_id := demo_id; si_invocation_target := demo_target; si_argument := "";
     si_source := SourceIngress 1; si_span_context := ""; si_headers := [];
     si_execution_time := None; si_completion_retention_duration := 0;
     si_journal_retention_duration := 0; si_idempotency_key := None; si_limit_key := LimitNone;
     si_response_sink := None; si_submit_notification_sink := None; si_restate_version := "" |}.
