(* ===== verification/Determinism.v ===== *)
(** * Replicas apply records alike

    The lemmas [.._det]: the handlers of the state machine, run on two replicas
    with equal tables and coherent caches, end with equal tables, equal results
    and coherent caches, whatever the roles of the replicas, the random samples
    of their stores and the keys of their slot maps. *)

From stdpp Require Import strings.
From S2P Require Import Prelude UnresolvedFuture Clock Invocation InvocationStatus JournalV1.
From S2P Require Import IdText VQueueMeta PartitionStore VQueueCache VQueue StateMachineBase.
From S2P Require Import InvocationLifecycle JournalEntries JournalV1Handlers StateMachine.
From S2P Require Import Replicas Demo.

Open Scope Z_scope.

(** The context of another replica: it has its own role, its own samples and its
    own iteration order of hash sets; the record, the features, the schema and the
    version of the server are the same. *)
Definition as_replica (C : Ctx) (leader : bool) (sample : VQueueId → VQueueMeta → Update → bool)
    (order : gset ServiceInvocationResponseSink → list ServiceInvocationResponseSink) : Ctx :=
  {| record_created_at := @record_created_at C; record_lsn := @record_lsn C;
     is_leader := leader; features := @features C; full_write := sample;
     sink_order := order; schema := @schema C;
     current_restate_version := @current_restate_version C |}.

(** Two iterations over a set of sinks meet the sinks for which a message goes to
    another partition in the same order.  They do so when the set has at most one
    such sink; the order of the other sinks may differ. *)
Definition partition_sinks (l : list ServiceInvocationResponseSink)
    : list ServiceInvocationResponseSink :=
  List.filter (λ s, match s with SinkPartitionProcessor _ => true | SinkIngress _ => false end) l.
Definition alike_orders
    (o1 o2 : gset ServiceInvocationResponseSink → list ServiceInvocationResponseSink) : Prop :=
  ∀ sinks, partition_sinks (o1 sinks) = partition_sinks (o2 sinks).

(** ** Automation *)

Create HintDb det discriminated.
#[export] Hint Extern 0 (Stable _) => apply _ : det.

Ltac det_norm :=
  repeat match goal with
  | |- context [@record_created_at (as_replica ?C ?l ?f ?o)] =>
      change (@record_created_at (as_replica C l f o)) with (@record_created_at C)
  | |- context [@record_lsn (as_replica ?C ?l ?f ?o)] =>
      change (@record_lsn (as_replica C l f o)) with (@record_lsn C)
  | |- context [@features (as_replica ?C ?l ?f ?o)] =>
      change (@features (as_replica C l f o)) with (@features C)
  | |- context [@sink_order (as_replica ?C ?l ?f ?o)] =>
      change (@sink_order (as_replica C l f o)) with o
  | |- context [@schema (as_replica ?C ?l ?f ?o)] =>
      change (@schema (as_replica C l f o)) with (@schema C)
  | |- context [@current_restate_version (as_replica ?C ?l ?f ?o)] =>
      change (@current_restate_version (as_replica C l f o)) with (@current_restate_version C)
  end.

Ltac det_silent :=
  lazymatch goal with
  | |- silent (sm_when _ _) => apply silent_when; det_silent
  | |- silent (push _) => apply silent_push
  | |- silent (emit _ _ _) => apply silent_emit
  | |- silent (sm_ret tt) => apply silent_ret
  | |- silent (match ?x with _ => _ end) => destruct x; det_silent
  | |- silent _ => solve [auto with det]
  end.

(** The rows of queues do not change. *)
Ltac det_frame := intros ?; first [by split | by auto with det].

Ltac det_leaf :=
  lazymatch goal with
  | |- keeps _ _ (sm_ret _) (sm_ret _) => apply same_ret
  | |- keeps _ _ (sm_lift _) (sm_lift _) => apply same_lift, _
  | |- keeps _ _ (reads _) (reads _) => apply same_reads, _
  | |- keeps _ _ outbox_tail outbox_tail => apply (same_numbers _ outbox_tail_seq)
  | |- keeps _ _ (sm_gets (λ s, inbox_seq_number _)) _ => apply (same_numbers _ inbox_seq_number)
  | |- keeps _ _ advance_outbox_tail _ =>
      apply (same_set_numbers _ (λ n, mkNumbers (as_u64 (outbox_tail_seq n + 1)) (inbox_seq_number n)))
  | |- keeps _ _ (sm_modify (λ s, mkV _ _ _ (mkNumbers _ ?k))) _ =>
      apply (same_set_numbers _ (λ n, mkNumbers (outbox_tail_seq n) k))
  | |- keeps _ _ (tables _) (tables _) => apply same_tables; [apply _|det_frame]
  | |- keeps _ _ (assert_ _) (assert_ _) => apply same_assert, _
  | |- keeps _ _ (push _) (push _) => apply same_silent; [apply _|apply silent_push..]
  | |- keeps _ _ (emit _ _ _) (emit _ _ _) => apply same_silent; [apply _|apply silent_emit..]
  | |- keeps _ _ (assert_queue _ _) (assert_queue _ _) => apply same_assert_queue
  | |- keeps _ _ (update_vqueue _ _ _) (update_vqueue _ _ _) =>
      first [apply same_move | apply keeps_update]
  end.

Ltac det :=
  cbv zeta; det_norm;
  lazymatch goal with
  | |- keeps ?P ?P' ?m1 ?m2 =>
      first
        [ solve [det_leaf]
        | solve [auto 2 with det nocore]
        | lazymatch m1 with
          | sm_bind (queue_slot _) _ =>
              first [apply keeps_slot_open | apply keeps_slot_known];
              intros;
              repeat match goal with
              | E : sl_qid _ = _ |- _ => rewrite E; clear E
              | E : sl_meta _ = _ |- _ => rewrite E; clear E
              end; det
          | sm_bind (@vqueue_expect _ _) _ =>
              refine (keeps_expect _ _ _ _ _ _ _); intros ? ?; det
          | sm_bind (@vqueue_from_invocation_target _ _ _ _ _ _ _ _) _ =>
              refine (keeps_from_target _ _ _ _ _ _ _ _ _ _); intros ? ?; det
          | sm_bind _ _ =>
              first
                [ eapply (keeps_bind P P P'); [solve [det]|intros ?; det]
                | eapply (keeps_bind P replicas P'); [solve [det]|intros ?; det] ]
          | sm_when _ _ =>
              first [ solve [apply same_silent; [apply _|det_silent..]]
                    | apply keeps_when; det ]
          | sm_for _ _ => apply same_for; intros ?; det
          | match ?x with _ => _ end => destruct x; det
          end
        | lazymatch P' with replicas => lazymatch P with replicas => fail | _ => apply (keeps_end P); det end end ]
  end.

Section queue_ops.
Context (v1 v2 : VCtx Action) (q : VQueueId) (h1 h2 : VQueueHandle).
Abbreviation O := (open_queues q h1 h2).

Lemma update_entry_status_det P `{!Stable P} hd st k value :
  same P (update_entry_status hd st k value : M unit) (update_entry_status hd st k value).
Proof. unfold update_entry_status. det. Qed.
Hint Resolve update_entry_status_det : det.

Lemma enqueue_new_det at_ sq run_at e md :
  keeps O replicas (enqueue_new v1 h1 at_ sq run_at e md : M unit)
    (enqueue_new v2 h2 at_ sq run_at e md).
Proof. unfold enqueue_new. det. Qed.

Lemma run_entry_det at_ hd w :
  keeps O replicas (run_entry v1 h1 at_ hd w : M EntryKey) (run_entry v2 h2 at_ hd w).
Proof. unfold run_entry. det. Qed.

Lemma wake_up_det at_ hd run_at md :
  keeps O replicas (wake_up v1 h1 at_ hd run_at md : M unit) (wake_up v2 h2 at_ hd run_at md).
Proof. unfold wake_up. det. Qed.

Lemma reschedule_det hd run_at d :
  keeps O replicas (reschedule v1 h1 hd run_at d : M unit) (reschedule v2 h2 hd run_at d).
Proof. unfold reschedule. det. Qed.

Lemma park_entry_det at_ hd st :
  keeps O replicas (park_entry v1 h1 at_ hd st : M unit) (park_entry v2 h2 at_ hd st).
Proof. unfold park_entry. det. Qed.

Lemma yield_entry_det at_ hd run_at r :
  keeps O replicas (yield_entry v1 h1 at_ hd run_at r : M unit) (yield_entry v2 h2 at_ hd run_at r).
Proof. unfold yield_entry. det. Qed.

Lemma vqueue_delete_det at_ qid st k :
  keeps O replicas (vqueue_delete v1 h1 at_ qid st k : M unit) (vqueue_delete v2 h2 at_ qid st k).
Proof. unfold vqueue_delete. det. Qed.
Hint Resolve vqueue_delete_det : det.

Lemma vqueue_end_det at_ hd st d :
  keeps O replicas (vqueue_end v1 h1 at_ hd st d : M unit) (vqueue_end v2 h2 at_ hd st d).
Proof. unfold vqueue_end. det. Qed.

Lemma run_then_finish_det at_ hd w st :
  keeps O replicas (run_then_finish v1 h1 at_ hd w st : M unit) (run_then_finish v2 h2 at_ hd w st).
Proof. unfold run_then_finish. det. Qed.

(** A queue that is resumed may be purged; its slot is still there. *)
Lemma pause_queue_det at_ :
  keeps O replicas (pause_queue v1 h1 at_ : M unit) (pause_queue v2 h2 at_).
Proof. unfold pause_queue. det. Qed.

Lemma resume_queue_det at_ :
  keeps O replicas (resume_queue v1 h1 at_ : M unit) (resume_queue v2 h2 at_).
Proof.
  unfold resume_queue. apply keeps_slot_open. intros m a b _ _ E1 E2. rewrite E1, E2.
  destruct (negb _); [det|]. eapply rht_bind; [apply rht_update|]. intros ? ?.
  apply rht_exists. intros m'. change (keeps (known_queues q m' h1 h2) replicas
    (let* s := queue_slot h1 in sm_when (vm_is_active (sl_meta s)) (emit v1 h1 [QueueResumed]))
    (let* s := queue_slot h2 in sm_when (vm_is_active (sl_meta s)) (emit v2 h2 [QueueResumed]))).
  det.
Qed.
End queue_ops.
#[export] Hint Resolve update_entry_status_det enqueue_new_det run_entry_det wake_up_det
  reschedule_det park_entry_det yield_entry_det vqueue_delete_det vqueue_end_det
  run_then_finish_det pause_queue_det resume_queue_det : det.

(** ** Handlers *)

Section handlers.
Context (K1 K2 : SlotKeys) `{!@SlotKeysLaws K1, !@SlotKeysLaws K2} (D : Digests) (C : Ctx)
  (B62 : Base62) (B64 : Base64) (SK : StateKeysCodec) (leader : bool) (sample : VQueueId → VQueueMeta → Update → bool)
  (order : gset ServiceInvocationResponseSink → list ServiceInvocationResponseSink)
  (Horder : alike_orders (@sink_order C) order).
Abbreviation C' := (as_replica C leader sample order).
Abbreviation R := replicas.

(** *** Effects *)

Lemma record_unique_ts_det P `{!Stable P} : same P (@record_unique_ts C) (@record_unique_ts C').
Proof. unfold record_unique_ts. det. Qed.
Lemma read_status_det P `{!Stable P} id : same P (read_status id) (read_status id).
Proof. unfold read_status. det. Qed.

Lemma put_invocation_status_frame id s (t : T) :
  same_rows t (put_invocation_status id s t).
Proof. by destruct s. Qed.
Lemma put_virtual_object_status_frame sid s (t : T) :
  same_rows t (put_virtual_object_status sid s t).
Proof. by destruct s. Qed.
Lemma put_journal_entry_v2_frame id i e r (t : T) :
  same_rows t (put_journal_entry_v2 id i e r t).
Proof. unfold put_journal_entry_v2. by destruct (se_inner e). Qed.
Hint Resolve put_invocation_status_frame put_virtual_object_status_frame
  put_journal_entry_v2_frame record_unique_ts_det read_status_det : det.

Lemma put_status_det P `{!Stable P} id s : same P (put_status id s) (put_status id s).
Proof. unfold put_status. det. Qed.
Lemma register_timer_det t : same R (register_timer t) (register_timer t).
Proof. unfold register_timer. det. Qed.
Lemma do_delete_timer_det k : same R (do_delete_timer k) (do_delete_timer k).
Proof. unfold do_delete_timer. det. Qed.
Lemma forward_notification_det id i n :
  same R (forward_notification id i n) (forward_notification id i n).
Proof. unfold forward_notification. det. Qed.
Lemma send_abort_det id :
  same R (send_abort_invocation_to_invoker id) (send_abort_invocation_to_invoker id).
Proof. unfold send_abort_invocation_to_invoker. det. Qed.
Lemma reply_det sink r : same R (reply sink r) (reply sink r).
Proof. unfold reply. det. Qed.
Lemma reply_silent sink r : silent (reply sink r).
Proof. unfold reply. det_silent. Qed.
Lemma submit_silent t b sink : silent (send_submit_notification_if_needed t b sink).
Proof. unfold send_submit_notification_if_needed. det_silent. Qed.
Lemma submit_det t b sink :
  same R (send_submit_notification_if_needed t b sink) (send_submit_notification_if_needed t b sink).
Proof. unfold send_submit_notification_if_needed. det. Qed.
Lemma send_ingress_response_det a b c d :
  same R (send_ingress_response a b c d) (send_ingress_response a b c d).
Proof. unfold send_ingress_response. det. Qed.
Hint Resolve put_status_det register_timer_det do_delete_timer_det forward_notification_det
  send_abort_det reply_det submit_det send_ingress_response_det reply_silent submit_silent : det.

Lemma do_enqueue_into_outbox_det m : same R (do_enqueue_into_outbox m) (do_enqueue_into_outbox m).
Proof. unfold do_enqueue_into_outbox, outbox_enqueue. det. Qed.
Hint Resolve do_enqueue_into_outbox_det : det.
Lemma send_response_to_sink_det r id e t s :
  same R (send_response_to_sink r id e t s) (send_response_to_sink r id e t s).
Proof. unfold send_response_to_sink. det. Qed.
Hint Resolve send_response_to_sink_det : det.
Lemma send_response_to_sinks_det l r id e t :
  same R (send_response_to_sinks l r id e t) (send_response_to_sinks l r id e t).
Proof. unfold send_response_to_sinks. det. Qed.
Hint Resolve send_response_to_sinks_det : det.

(** The sinks of an ingress only collect an action. *)
Lemma ingress_silent r id e t request_id :
  silent (send_response_to_sink r id e (Some t) (SinkIngress request_id)).
Proof. intros s. unfold send_response_to_sink, sm_bind. destruct r; by eexists. Qed.

Lemma sink_lists_det l1 l2 r id e t :
  partition_sinks l1 = partition_sinks l2 →
  same R (send_response_to_sinks l1 r id e (Some t)) (send_response_to_sinks l2 r id e (Some t)).
Proof.
  unfold send_response_to_sinks. revert l2. induction l1 as [|[t1|i1] l1 IH]; intros l2 Hl.
  - induction l2 as [|[t2|i2] l2 IH2]; [apply same_ret|done|].
    apply same_silent_r; [apply _|apply ingress_silent|]. by apply IH2.
  - induction l2 as [|[t2|i2] l2 IH2]; [done| |].
    + injection Hl as -> Hl. eapply keeps_bind; [apply send_response_to_sink_det|].
      intros _. by apply IH.
    + apply same_silent_r; [apply _|apply ingress_silent|]. by apply IH2.
  - apply same_silent_l; [apply _|apply ingress_silent|]. by apply IH.
Qed.
Lemma sink_orders_det sinks r id e t :
  same R (send_response_to_sinks (@sink_order C sinks) r id e (Some t))
         (send_response_to_sinks (order sinks) r id e (Some t)).
Proof. apply sink_lists_det, Horder. Qed.
Hint Resolve sink_orders_det : det.
Lemma do_append_response_sink_det id p s :
  same R (@do_append_response_sink C id p s) (@do_append_response_sink C' id p s).
Proof. unfold do_append_response_sink. det. Qed.
Lemma mutate_state_det m : same R (mutate_state m) (mutate_state m).
Proof. unfold mutate_state. det. Qed.
Lemma enqueue_into_inbox_det e : same R (enqueue_into_inbox e) (enqueue_into_inbox e).
Proof. unfold enqueue_into_inbox, set_inbox_seq_number. det. Qed.
Lemma entry_status_expect_det P `{!Stable P} id :
  same P (entry_status_expect id) (entry_status_expect id).
Proof. unfold entry_status_expect. det. Qed.
Hint Resolve do_append_response_sink_det mutate_state_det enqueue_into_inbox_det
  entry_status_expect_det : det.
Lemma do_mutate_state_det m : same R (do_mutate_state m) (do_mutate_state m).
Proof. unfold do_mutate_state. det. Qed.
Hint Resolve do_mutate_state_det : det.

Lemma vqueue_move_det id :
  same R (@vqueue_move_invocation_to_inbox_stage K1 C id)
    (@vqueue_move_invocation_to_inbox_stage K2 C' id).
Proof. unfold vqueue_move_invocation_to_inbox_stage. det. Qed.
Lemma vqueue_reschedule_det id r d :
  same R (@vqueue_reschedule_invocation K1 C id r d) (@vqueue_reschedule_invocation K2 C' id r d).
Proof. unfold vqueue_reschedule_invocation. det. Qed.
Lemma vqueue_enqueue_state_mutation_det m :
  same R (@vqueue_enqueue_state_mutation D K1 C m) (@vqueue_enqueue_state_mutation D K2 C' m).
Proof. unfold vqueue_enqueue_state_mutation. det. Qed.
Hint Resolve vqueue_move_det vqueue_reschedule_det vqueue_enqueue_state_mutation_det : det.
Lemma do_resume_service_det id m :
  same R (@do_resume_service K1 C id m) (@do_resume_service K2 C' id m).
Proof. unfold do_resume_service. det. Qed.
Lemma do_suspend_service_det id m w :
  same R (@do_suspend_service K1 C id m w) (@do_suspend_service K2 C' id m w).
Proof. unfold do_suspend_service, suspend_entry. det. Qed.
Lemma do_store_completed_det id c :
  same R (do_store_completed_invocation id c) (do_store_completed_invocation id c).
Proof. unfold do_store_completed_invocation. det. Qed.
Lemma do_free_invocation_det id : same R (do_free_invocation id) (do_free_invocation id).
Proof. unfold do_free_invocation. det. Qed.
Lemma do_delete_inbox_entry_det sid n :
  same R (do_delete_inbox_entry sid n) (do_delete_inbox_entry sid n).
Proof. unfold do_delete_inbox_entry. det. Qed.
Lemma append_journal_entry_v1_det id p i e :
  same R (@append_journal_entry_v1 C id p i e) (@append_journal_entry_v1 C' id p i e).
Proof. unfold append_journal_entry_v1. det. Qed.
Lemma sleep_timers_v1_det id n :
  same R (do_delete_pending_sleep_timers_v1 id n) (do_delete_pending_sleep_timers_v1 id n).
Proof. unfold do_delete_pending_sleep_timers_v1. det. Qed.
Lemma sleep_timers_v2_det id n :
  same R (do_delete_pending_sleep_timers_v2 id n) (do_delete_pending_sleep_timers_v2 id n).
Proof. unfold do_delete_pending_sleep_timers_v2. det. Qed.
Hint Resolve do_resume_service_det do_suspend_service_det do_store_completed_det
  do_free_invocation_det do_delete_inbox_entry_det append_journal_entry_v1_det
  sleep_timers_v1_det sleep_timers_v2_det : det.
Lemma do_drop_journal_det id n v b :
  same R (do_drop_journal id n v b) (do_drop_journal id n v b).
Proof. unfold do_drop_journal. det. Qed.
Lemma store_completion_det id i r : same R (store_completion id i r) (store_completion id i r).
Proof. unfold store_completion. det. Qed.
Hint Resolve do_drop_journal_det store_completion_det : det.

(** *** Begin and end of invocations *)

Lemma init_journal_det id m i : same R (@init_journal C id m i) (@init_journal C' id m i).
Proof. unfold init_journal, input_entry_v2. det. Qed.
Hint Resolve init_journal_det : det.
Lemma init_journal_opt_det id m i :
  same R (@init_journal_opt C id m i) (@init_journal_opt C' id m i).
Proof. unfold init_journal_opt. det. Qed.
Hint Resolve init_journal_opt_det : det.
Lemma init_journal_and_set_invoked_det id m i :
  same R (@init_journal_and_set_invoked C id m i) (@init_journal_and_set_invoked C' id m i).
Proof. unfold init_journal_and_set_invoked. det. Qed.
Lemma vqueue_invoke_det h1 h2 k id m :
  same R (@vqueue_invoke C h1 k id m) (@vqueue_invoke C' h2 k id m).
Proof. unfold vqueue_invoke. det. Qed.
Hint Resolve init_journal_and_set_invoked_det vqueue_invoke_det : det.
Lemma init_journal_and_vqueue_invoke_det h1 h2 k id m i :
  same R (@init_journal_and_vqueue_invoke C h1 k id m i)
    (@init_journal_and_vqueue_invoke C' h2 k id m i).
Proof. unfold init_journal_and_vqueue_invoke. det. Qed.
Hint Resolve init_journal_and_vqueue_invoke_det : det.

Lemma handle_duplicated_requests_det si :
  same R (@handle_duplicated_requests C si) (@handle_duplicated_requests C' si).
Proof. unfold handle_duplicated_requests. det. Qed.
Lemma execution_time_det id m :
  same R (@handle_service_invocation_execution_time C id m)
    (@handle_service_invocation_execution_time C' id m).
Proof. unfold handle_service_invocation_execution_time. det. Qed.
Lemma exclusive_handler_det id m :
  same R (@handle_service_invocation_exclusive_handler D C id m)
    (@handle_service_invocation_exclusive_handler D C' id m).
Proof. unfold handle_service_invocation_exclusive_handler. det. Qed.
Lemma vqueue_enqueue_det id m sink :
  same R (@vqueue_enqueue K1 C id m sink) (@vqueue_enqueue K2 C' id m sink).
Proof. unfold vqueue_enqueue. det. Qed.
Lemma prepare_journal_det id m : same R (@prepare_journal C id m) (@prepare_journal C' id m).
Proof. unfold prepare_journal, input_entry_v2. det. Qed.
Hint Resolve handle_duplicated_requests_det execution_time_det exclusive_handler_det
  vqueue_enqueue_det prepare_journal_det : det.
Lemma on_pre_flight_invocation_det id m sink :
  same R (@on_pre_flight_invocation D K1 C id m sink) (@on_pre_flight_invocation D K2 C' id m sink).
Proof. unfold on_pre_flight_invocation. det. Qed.
Hint Resolve on_pre_flight_invocation_det : det.
Lemma on_service_invocation_det si :
  same R (@on_service_invocation D K1 C si) (@on_service_invocation D K2 C' si).
Proof. unfold on_service_invocation. det. Qed.
Lemma handle_external_state_mutation_det m :
  same R (@handle_external_state_mutation D K1 C m) (@handle_external_state_mutation D K2 C' m).
Proof. unfold handle_external_state_mutation. det. Qed.
Hint Resolve on_service_invocation_det handle_external_state_mutation_det : det.

Lemma run_invocation_det q k w :
  same R (@run_invocation K1 C q k w) (@run_invocation K2 C' q k w).
Proof. unfold run_invocation. det. Qed.
Lemma run_state_mutation_det q k w :
  same R (@run_state_mutation D K1 C q k w) (@run_state_mutation D K2 C' q k w).
Proof. unfold run_state_mutation. det. Qed.
Hint Resolve run_invocation_det run_state_mutation_det : det.
Lemma attempt_to_run_det q k w :
  same R (@attempt_to_run D K1 C q k w) (@attempt_to_run D K2 C' q k w).
Proof. unfold attempt_to_run. det. Qed.
Hint Resolve attempt_to_run_det : det.

Lemma pop_inbox_det sid :
  same R (λ s, let '(t, e) := pop_inbox sid (v_tables s) in (on_tables (λ _, t) s, Ok e))
    (λ s, let '(t, e) := pop_inbox sid (v_tables s) in (on_tables (λ _, t) s, Ok e)).
Proof.
  intros s1 s2 Hs. pose proof (stable_replicas _ _ Hs) as [<- _].
  assert (same_rows (v_tables s1) (pop_inbox sid (v_tables s1)).1) as Hf
    by (unfold pop_inbox; by destruct (peek_inbox _ _) as [[]|]).
  destruct (pop_inbox _ _) as [t e]. split; [done|]. destruct Hs as (Ht & H1 & H2 & Hn).
  simpl in Hf. split_and!; [done|..|done]; simpl; (eapply coherent_frame; [|done]); [done|by rewrite <- Ht].
Qed.
Hint Resolve pop_inbox_det : det.
Lemma consume_loop_det x1 x2 : same R (@consume_loop D C x1 x2) (@consume_loop D C' x1 x2).
Proof. revert x2. induction x1 as [|x1 IH]; intros x2; simpl; det. Qed.
Hint Resolve consume_loop_det : det.
Lemma consume_inbox_det x1 : same R (@consume_inbox D C x1) (@consume_inbox D C' x1).
Proof. unfold consume_inbox. det. Qed.
Hint Resolve consume_inbox_det : det.
Lemma last_output_v2_det x1 x2 : same R (last_output_v2 x1 x2) (last_output_v2 x1 x2).
Proof. revert x1. induction x2 as [|x2 IH]; intros x1; simpl; det. Qed.
Hint Resolve last_output_v2_det : det.
Lemma last_output_v1_det x1 x2 : same R (last_output_v1 x1 x2) (last_output_v1 x1 x2).
Proof. revert x1. induction x2 as [|x2 IH]; intros x1; simpl; det. Qed.
Hint Resolve last_output_v1_det : det.
Lemma read_last_output_entry_result_det x1 x2 x3 :
  same R (read_last_output_entry_result x1 x2 x3) (read_last_output_entry_result x1 x2 x3).
Proof. unfold read_last_output_entry_result. det. Qed.
Hint Resolve read_last_output_entry_result_det : det.
Lemma finish_invocation_det x1 x2 x3 :
  same R (@finish_invocation D K1 C x1 x2 x3) (@finish_invocation D K2 C' x1 x2 x3).
Proof. unfold finish_invocation. det. Qed.
Hint Resolve finish_invocation_det : det.
Lemma end_invocation_det x1 x2 x3 x4 :
  same R (@end_invocation D K1 C x1 x2 x3 x4) (@end_invocation D K2 C' x1 x2 x3 x4).
Proof. unfold end_invocation. det. Qed.
Hint Resolve end_invocation_det : det.
Lemma kill_child_invocations_det x1 x2 x3 :
  same R (kill_child_invocations x1 x2 x3) (kill_child_invocations x1 x2 x3).
Proof. unfold kill_child_invocations. det. Qed.
Hint Resolve kill_child_invocations_det : det.
Lemma kill_invoked_invocation_det x1 x2 :
  same R (@kill_invoked_invocation D K1 C x1 x2) (@kill_invoked_invocation D K2 C' x1 x2).
Proof. unfold kill_invoked_invocation. det. Qed.
Hint Resolve kill_invoked_invocation_det : det.
Lemma kill_suspended_or_paused_invocation_det x1 x2 :
  same R (@kill_suspended_or_paused_invocation D K1 C x1 x2)
    (@kill_suspended_or_paused_invocation D K2 C' x1 x2).
Proof. unfold kill_suspended_or_paused_invocation. det. Qed.
Hint Resolve kill_suspended_or_paused_invocation_det : det.
Lemma terminate_pre_flight_det f id m (l1 l2 : M unit) :
  same R l1 l2 →
  same R (@terminate_pre_flight K1 C f id m l1) (@terminate_pre_flight K2 C' f id m l2).
Proof. intros Hl. unfold terminate_pre_flight. det. Qed.
Lemma terminate_inboxed_invocation_det x1 x2 x3 :
  same R (@terminate_inboxed_invocation D K1 C x1 x2 x3)
    (@terminate_inboxed_invocation D K2 C' x1 x2 x3).
Proof. unfold terminate_inboxed_invocation. cbv zeta. apply terminate_pre_flight_det. det. Qed.
Hint Resolve terminate_inboxed_invocation_det : det.
Lemma terminate_scheduled_invocation_det x1 x2 x3 :
  same R (@terminate_scheduled_invocation K1 C x1 x2 x3)
    (@terminate_scheduled_invocation K2 C' x1 x2 x3).
Proof. unfold terminate_scheduled_invocation. cbv zeta. apply terminate_pre_flight_det. det. Qed.
Hint Resolve terminate_scheduled_invocation_det : det.
Lemma on_kill_invocation_det x1 x2 :
  same R (@on_kill_invocation D K1 C x1 x2) (@on_kill_invocation D K2 C' x1 x2).
Proof. unfold on_kill_invocation, reply_to_kill. det. Qed.
Hint Resolve on_kill_invocation_det : det.

(** *** Journal entries, suspension, pause *)

Lemma resume_invocation_command_det x1 x2 :
  same R (@resume_invocation_command K1 C x1 x2) (@resume_invocation_command K2 C' x1 x2).
Proof. unfold resume_invocation_command. det. Qed.
Hint Resolve resume_invocation_command_det : det.
Lemma apply_event_det x1 x2 x3 : same R (@apply_event C x1 x2 x3) (@apply_event C' x1 x2 x3).
Proof. unfold apply_event. det. Qed.
Hint Resolve apply_event_det : det.
Lemma verify_or_migrate_journal_table_det x1 x2 :
  same R (@verify_or_migrate_journal_table C x1 x2) (@verify_or_migrate_journal_table C' x1 x2).
Proof. unfold verify_or_migrate_journal_table, input_entry_v2. det. Qed.
Hint Resolve verify_or_migrate_journal_table_det : det.
Lemma metadata_expect_det x1 : same R (metadata_expect x1) (metadata_expect x1).
Proof. unfold metadata_expect. det. Qed.
Hint Resolve metadata_expect_det : det.
Lemma keyed_service_det x1 : same R (@keyed_service D x1) (@keyed_service D x1).
Proof. unfold keyed_service. det. Qed.
Hint Resolve keyed_service_det : det.
Lemma apply_get_lazy_state_det x1 x2 x3 :
  same R (@apply_get_lazy_state D x1 x2 x3) (@apply_get_lazy_state D x1 x2 x3).
Proof. unfold apply_get_lazy_state. det. Qed.
Hint Resolve apply_get_lazy_state_det : det.
Lemma apply_set_state_det x1 x2 x3 :
  same R (@apply_set_state D x1 x2 x3) (@apply_set_state D x1 x2 x3).
Proof. unfold apply_set_state. det. Qed.
Hint Resolve apply_set_state_det : det.
Lemma apply_clear_state_det x1 x2 :
  same R (@apply_clear_state D x1 x2) (@apply_clear_state D x1 x2).
Proof. unfold apply_clear_state. det. Qed.
Hint Resolve apply_clear_state_det : det.
Lemma apply_clear_all_state_det x1 :
  same R (@apply_clear_all_state D x1) (@apply_clear_all_state D x1).
Proof. unfold apply_clear_all_state. det. Qed.
Hint Resolve apply_clear_all_state_det : det.
Lemma apply_get_lazy_state_keys_det x1 x2 :
  same R (@apply_get_lazy_state_keys D x1 x2) (@apply_get_lazy_state_keys D x1 x2).
Proof. unfold apply_get_lazy_state_keys. det. Qed.
Hint Resolve apply_get_lazy_state_keys_det : det.
Lemma apply_get_promise_det x1 x2 x3 x4 :
  same R (@apply_get_promise D x1 x2 x3 x4) (@apply_get_promise D x1 x2 x3 x4).
Proof. unfold apply_get_promise. det. Qed.
Hint Resolve apply_get_promise_det : det.
Lemma apply_peek_promise_det x1 x2 x3 :
  same R (@apply_peek_promise D x1 x2 x3) (@apply_peek_promise D x1 x2 x3).
Proof. unfold apply_peek_promise. det. Qed.
Hint Resolve apply_peek_promise_det : det.
Lemma apply_complete_promise_det x1 x2 x3 x4 :
  same R (@apply_complete_promise D x1 x2 x3 x4) (@apply_complete_promise D x1 x2 x3 x4).
Proof. unfold apply_complete_promise. det. Qed.
Hint Resolve apply_complete_promise_det : det.
Lemma apply_sleep_det x1 x2 x3 x4 : same R (apply_sleep x1 x2 x3 x4) (apply_sleep x1 x2 x3 x4).
Proof. unfold apply_sleep. det. Qed.
Hint Resolve apply_sleep_det : det.
Lemma apply_call_det x1 x2 x3 x4 x5 x6 :
  same R (@apply_call C x1 x2 x3 x4 x5 x6) (@apply_call C' x1 x2 x3 x4 x5 x6).
Proof. unfold apply_call. det. Qed.
Hint Resolve apply_call_det : det.
Lemma apply_attach_det x1 x2 x3 x4 : same R (apply_attach x1 x2 x3 x4) (apply_attach x1 x2 x3 x4).
Proof. unfold apply_attach. det. Qed.
Hint Resolve apply_attach_det : det.
Lemma apply_complete_awakeable_det x1 x2 :
  same R (apply_complete_awakeable x1 x2) (apply_complete_awakeable x1 x2).
Proof. unfold apply_complete_awakeable. det. Qed.
Hint Resolve apply_complete_awakeable_det : det.
Lemma apply_send_signal_det x1 x2 x3 :
  same R (apply_send_signal x1 x2 x3) (apply_send_signal x1 x2 x3).
Proof. unfold apply_send_signal. det. Qed.
Hint Resolve apply_send_signal_det : det.
Lemma apply_command_det x1 x2 x3 :
  same R (@apply_command D C x1 x2 x3) (@apply_command D C' x1 x2 x3).
Proof. unfold apply_command. det. Qed.
Hint Resolve apply_command_det : det.
Lemma apply_notification_det x1 x2 x3 x4 :
  same R (@apply_notification K1 C x1 x2 x3 x4) (@apply_notification K2 C' x1 x2 x3 x4).
Proof. unfold apply_notification. det. Qed.
Hint Resolve apply_notification_det : det.
Lemma append_entry_det x1 x2 x3 :
  same R (@append_entry D K1 C x1 x2 x3) (@append_entry D K2 C' x1 x2 x3).
Proof. unfold append_entry. det. Qed.
Hint Resolve append_entry_det : det.
Lemma append_entries_det x1 x2 x3 x4 :
  same R (@append_entries D K1 C x1 x2 x3 x4) (@append_entries D K2 C' x1 x2 x3 x4).
Proof. revert x3 x4. induction x1 as [|x1 IH]; intros x3 x4; destruct x4; simpl; det. Qed.
Hint Resolve append_entries_det : det.
Lemma on_journal_entry_command_det x1 x2 x3 :
  same R (@on_journal_entry_command D K1 C x1 x2 x3) (@on_journal_entry_command D K2 C' x1 x2 x3).
Proof. unfold on_journal_entry_command. det. Qed.
Hint Resolve on_journal_entry_command_det : det.
Lemma on_journal_notification_det x1 x2 x3 :
  same R (@on_journal_notification D K1 C x1 x2 x3) (@on_journal_notification D K2 C' x1 x2 x3).
Proof. unfold on_journal_notification. det. Qed.
Hint Resolve on_journal_notification_det : det.
Lemma on_suspend_command_det x1 x2 x3 x4 :
  same R (@on_suspend_command K1 C x1 x2 x3 x4) (@on_suspend_command K2 C' x1 x2 x3 x4).
Proof. unfold on_suspend_command, suspend_entry. det. Qed.
Hint Resolve on_suspend_command_det : det.
Lemma pause_invocation_det x1 x2 x3 :
  same R (@pause_invocation K1 C x1 x2 x3) (@pause_invocation K2 C' x1 x2 x3).
Proof. unfold pause_invocation, pause_entry. det. Qed.
Hint Resolve pause_invocation_det : det.
Lemma on_paused_command_det x1 x2 :
  same R (@on_paused_command K1 C x1 x2) (@on_paused_command K2 C' x1 x2).
Proof. unfold on_paused_command. det. Qed.
Hint Resolve on_paused_command_det : det.
Lemma on_manual_pause_command_det x1 x2 :
  same R (@on_manual_pause_command K1 C x1 x2) (@on_manual_pause_command K2 C' x1 x2).
Proof. unfold on_manual_pause_command, reply_to_pause_invocation. det. Qed.
Hint Resolve on_manual_pause_command_det : det.
Lemma yield_invocation_command_det x1 x2 x3 x4 :
  same R (@yield_invocation_command K1 C x1 x2 x3 x4)
    (@yield_invocation_command K2 C' x1 x2 x3 x4).
Proof. unfold yield_invocation_command. det. Qed.
Hint Resolve yield_invocation_command_det : det.
Lemma on_notify_invocation_response_det x1 x2 x3 x4 :
  same R (@on_notify_invocation_response D K1 C x1 x2 x3 x4)
    (@on_notify_invocation_response D K2 C' x1 x2 x3 x4).
Proof. unfold on_notify_invocation_response. det. Qed.
Hint Resolve on_notify_invocation_response_det : det.
Lemma on_notify_sleep_completion_det x1 x2 x3 :
  same R (@on_notify_sleep_completion D K1 C x1 x2 x3)
    (@on_notify_sleep_completion D K2 C' x1 x2 x3).
Proof. unfold on_notify_sleep_completion. det. Qed.
Hint Resolve on_notify_sleep_completion_det : det.
Lemma on_notify_get_invocation_output_response_det x1 x2 :
  same R (@on_notify_get_invocation_output_response D K1 C x1 x2)
    (@on_notify_get_invocation_output_response D K2 C' x1 x2).
Proof. unfold on_notify_get_invocation_output_response. det. Qed.
Hint Resolve on_notify_get_invocation_output_response_det : det.

(** *** Journals of the first format *)

Lemma handle_completion_for_suspended_det x1 x2 x3 x4 :
  same R (handle_completion_for_suspended x1 x2 x3 x4)
    (handle_completion_for_suspended x1 x2 x3 x4).
Proof. unfold handle_completion_for_suspended. det. Qed.
Hint Resolve handle_completion_for_suspended_det : det.
Lemma handle_completion_for_paused_det x1 x2 x3 :
  same R (handle_completion_for_paused x1 x2 x3) (handle_completion_for_paused x1 x2 x3).
Proof. unfold handle_completion_for_paused. det. Qed.
Hint Resolve handle_completion_for_paused_det : det.
Lemma handle_completion_for_invoked_det x1 x2 x3 :
  same R (handle_completion_for_invoked x1 x2 x3) (handle_completion_for_invoked x1 x2 x3).
Proof. unfold handle_completion_for_invoked. det. Qed.
Hint Resolve handle_completion_for_invoked_det : det.
Lemma awaited_entries_det x1 : same R (awaited_entries x1) (awaited_entries x1).
Proof. unfold awaited_entries. det. Qed.
Hint Resolve awaited_entries_det : det.
Lemma handle_completion_det x1 x2 x3 x4 :
  same R (@handle_completion K1 C x1 x2 x3 x4) (@handle_completion K2 C' x1 x2 x3 x4).
Proof. unfold handle_completion. det. Qed.
Hint Resolve handle_completion_det : det.
Lemma cancel_journal_entry_with_det x1 x2 x3 x4 :
  same R (cancel_journal_entry_with x1 x2 x3 x4) (cancel_journal_entry_with x1 x2 x3 x4).
Proof. unfold cancel_journal_entry_with. det. Qed.
Hint Resolve cancel_journal_entry_with_det : det.
Lemma cancel_journal_leaf_det x1 x2 x3 :
  same R (cancel_journal_leaf x1 x2 x3) (cancel_journal_leaf x1 x2 x3).
Proof. unfold cancel_journal_leaf. det. Qed.
Hint Resolve cancel_journal_leaf_det : det.
Lemma cancel_leaves_det x1 x2 x3 x4 :
  same R (cancel_leaves x1 x2 x3 x4) (cancel_leaves x1 x2 x3 x4).
Proof. revert x4. induction x3 as [|l x3 IH]; intros x4; simpl; det. Qed.
Hint Resolve cancel_leaves_det : det.
Lemma cancel_journal_leaves_det x1 x2 x3 :
  same R (cancel_journal_leaves x1 x2 x3) (cancel_journal_leaves x1 x2 x3).
Proof. unfold cancel_journal_leaves. det. Qed.
Hint Resolve cancel_journal_leaves_det : det.
Lemma on_cancel_command_det x1 x2 x3 :
  same R (@on_cancel_command D K1 C x1 x2 x3) (@on_cancel_command D K2 C' x1 x2 x3).
Proof. unfold on_cancel_command, reply_to_cancel. det. Qed.
Hint Resolve on_cancel_command_det : det.
Lemma cancel_v1_det x1 x2 x3 : same R (@cancel_v1 D K1 C x1 x2 x3) (@cancel_v1 D K2 C' x1 x2 x3).
Proof. unfold cancel_v1, reply_to_cancel. det. Qed.
Hint Resolve cancel_v1_det : det.
Lemma on_cancel_invocation_det x1 x2 :
  same R (@on_cancel_invocation D K1 C x1 x2) (@on_cancel_invocation D K2 C' x1 x2).
Proof. unfold on_cancel_invocation, reply_to_cancel. det. Qed.
Hint Resolve on_cancel_invocation_det : det.
Lemma on_terminate_invocation_det x1 :
  same R (@on_terminate_invocation D K1 C x1) (@on_terminate_invocation D K2 C' x1).
Proof. unfold on_terminate_invocation. det. Qed.
Hint Resolve on_terminate_invocation_det : det.
Lemma on_notify_signal_det x1 :
  same R (@on_notify_signal D K1 C x1) (@on_notify_signal D K2 C' x1).
Proof. unfold on_notify_signal. det. Qed.
Hint Resolve on_notify_signal_det : det.
Lemma on_pinned_deployment_det x1 x2 x3 :
  same R (@on_pinned_deployment D K1 C x1 x2 x3) (@on_pinned_deployment D K2 C' x1 x2 x3).
Proof. unfold on_pinned_deployment, update_entry_metadata. det. Qed.
Hint Resolve on_pinned_deployment_det : det.
Lemma payload_det x1 : same R (payload x1) (payload x1).
Proof. unfold payload. det. Qed.
Hint Resolve payload_det : det.
Lemma completed_with_det x1 x2 : same R (completed_with x1 x2) (completed_with x1 x2).
Proof. unfold completed_with. det. Qed.
Hint Resolve completed_with_det : det.
Lemma get_journal_entry_callee_invocation_id_det x1 x2 :
  same R (get_journal_entry_callee_invocation_id x1 x2)
    (get_journal_entry_callee_invocation_id x1 x2).
Proof. unfold get_journal_entry_callee_invocation_id. det. Qed.
Hint Resolve get_journal_entry_callee_invocation_id_det : det.
Lemma apply_cancel_invocation_journal_entry_action_det x1 x2 :
  same R (@apply_cancel_invocation_journal_entry_action B62 x1 x2)
    (@apply_cancel_invocation_journal_entry_action B62 x1 x2).
Proof. unfold apply_cancel_invocation_journal_entry_action. det. Qed.
Hint Resolve apply_cancel_invocation_journal_entry_action_det : det.
Lemma get_invocation_query_from_attach_invocation_target_det x1 x2 :
  same R (@get_invocation_query_from_attach_invocation_target B62 x1 x2)
    (@get_invocation_query_from_attach_invocation_target B62 x1 x2).
Proof. unfold get_invocation_query_from_attach_invocation_target. det. Qed.
Hint Resolve get_invocation_query_from_attach_invocation_target_det : det.
Lemma attach_v1_det x1 x2 x3 x4 :
  same R (@attach_v1 B62 x1 x2 x3 x4) (@attach_v1 B62 x1 x2 x3 x4).
Proof. unfold attach_v1. det. Qed.
Hint Resolve attach_v1_det : det.
Lemma call_v1_det x1 x2 x3 x4 x5 x6 :
  same R (@call_v1 C x1 x2 x3 x4 x5 x6) (@call_v1 C' x1 x2 x3 x4 x5 x6).
Proof. unfold call_v1. det. Qed.
Hint Resolve call_v1_det : det.
Lemma complete_awakeable_v1_det x1 x2 x3 :
  same R (@complete_awakeable_v1 B64 x1 x2 x3) (@complete_awakeable_v1 B64 x1 x2 x3).
Proof. unfold complete_awakeable_v1. det. Qed.
Hint Resolve complete_awakeable_v1_det : det.
Lemma get_promise_v1_det x1 x2 x3 x4 :
  same R (@get_promise_v1 D x1 x2 x3 x4) (@get_promise_v1 D x1 x2 x3 x4).
Proof. unfold get_promise_v1. det. Qed.
Hint Resolve get_promise_v1_det : det.
Lemma peek_promise_v1_det x1 x2 : same R (@peek_promise_v1 D x1 x2) (@peek_promise_v1 D x1 x2).
Proof. unfold peek_promise_v1. det. Qed.
Hint Resolve peek_promise_v1_det : det.
Lemma complete_promise_v1_det x1 x2 x3 :
  same R (@complete_promise_v1 D x1 x2 x3) (@complete_promise_v1 D x1 x2 x3).
Proof. unfold complete_promise_v1. det. Qed.
Hint Resolve complete_promise_v1_det : det.
Lemma state_value_det x1 x2 : same R (@state_value D x1 x2) (@state_value D x1 x2).
Proof. unfold state_value. det. Qed.
Hint Resolve state_value_det : det.
Lemma state_keys_v1_det x1 : same R (@state_keys_v1 D SK x1) (@state_keys_v1 D SK x1).
Proof. unfold state_keys_v1. det. Qed.
Hint Resolve state_keys_v1_det : det.
Lemma on_service_det m f : (∀ s, same R (f s) (f s)) → same R (on_service m f) (on_service m f).
Proof. intros Hf. unfold on_service. det. Qed.
Lemma entry_effect_v1_det x1 x2 x3 x4 :
  same R (@entry_effect_v1 D C B62 B64 SK x1 x2 x3 x4)
    (@entry_effect_v1 D C' B62 B64 SK x1 x2 x3 x4).
Proof. unfold entry_effect_v1, on_service. det. Qed.
Hint Resolve entry_effect_v1_det : det.
Lemma handle_journal_entry_det x1 x2 x3 x4 :
  same R (@handle_journal_entry D C B62 B64 SK x1 x2 x3 x4)
    (@handle_journal_entry D C' B62 B64 SK x1 x2 x3 x4).
Proof. unfold handle_journal_entry. det. Qed.
Hint Resolve handle_journal_entry_det : det.

(** *** Records *)

(** Only the leader counts a purge of its cleaner. *)
Lemma on_purge_command_det id sink b1 b2 :
  same R (@on_purge_command D K1 C id sink b1) (@on_purge_command D K2 C' id sink b2).
Proof.
  unfold on_purge_command, reply_to_purge_invocation. eapply keeps_bind;
    [by apply same_silent; [apply _|det_silent..]|intros ?; det].
Qed.
Lemma on_purge_journal_command_det id sink b1 b2 :
  same R (on_purge_journal_command id sink b1) (on_purge_journal_command id sink b2).
Proof.
  unfold on_purge_journal_command, reply_to_purge_journal. eapply keeps_bind;
    [by apply same_silent; [apply _|det_silent..]|intros ?; det].
Qed.
Hint Resolve on_purge_command_det on_purge_journal_command_det : det.
Lemma on_manual_resume_command_det x1 :
  same R (@on_manual_resume_command K1 C x1) (@on_manual_resume_command K2 C' x1).
Proof. unfold on_manual_resume_command, reply_to_resume_invocation, resolve_pinned_deployment. det. Qed.
Hint Resolve on_manual_resume_command_det : det.
Lemma put_copy_det x1 x2 x3 x4 : same R (put_copy x1 x2 x3 x4) (put_copy x1 x2 x3 x4).
Proof. unfold put_copy. det. Qed.
Hint Resolve put_copy_det : det.
Lemma copy_prefix_det x1 x2 x3 x4 x5 :
  same R (copy_prefix x1 x2 x3 x4 x5) (copy_prefix x1 x2 x3 x4 x5).
Proof. revert x4 x5. induction x1 as [|x1 IH]; intros x4 x5; simpl; det. Qed.
Hint Resolve copy_prefix_det : det.
Lemma copy_completions_det x1 x2 x3 x4 x5 :
  same R (copy_completions x1 x2 x3 x4 x5) (copy_completions x1 x2 x3 x4 x5).
Proof. revert x4 x5. induction x1 as [|x1 IH]; intros x4 x5; simpl; det. Qed.
Hint Resolve copy_completions_det : det.
Lemma copy_journal_det x1 x2 x3 x4 : same R (copy_journal x1 x2 x3 x4) (copy_journal x1 x2 x3 x4).
Proof. unfold copy_journal. det. Qed.
Hint Resolve copy_journal_det : det.
Lemma on_restart_as_new_command_det x1 :
  same R (@on_restart_as_new_command D K1 C x1) (@on_restart_as_new_command D K2 C' x1).
Proof. unfold on_restart_as_new_command, restarted_metadata. det. Qed.
Hint Resolve on_restart_as_new_command_det : det.
Lemma handle_attach_invocation_request_det x1 :
  same R (@handle_attach_invocation_request D C x1) (@handle_attach_invocation_request D C' x1).
Proof. unfold handle_attach_invocation_request. det. Qed.
Hint Resolve handle_attach_invocation_request_det : det.
Lemma on_neo_invoke_timer_det x1 :
  same R (@on_neo_invoke_timer D C x1) (@on_neo_invoke_timer D C' x1).
Proof. unfold on_neo_invoke_timer. det. Qed.
Hint Resolve on_neo_invoke_timer_det : det.
Lemma on_timer_det x1 : same R (@on_timer D K1 C x1) (@on_timer D K2 C' x1).
Proof. unfold on_timer. det. Qed.
Hint Resolve on_timer_det : det.
Lemma on_journal_entry_det x1 x2 x3 x4 :
  same R (@on_journal_entry D K1 C x1 x2 x3 x4) (@on_journal_entry D K2 C' x1 x2 x3 x4).
Proof. unfold on_journal_entry. det. Qed.
Hint Resolve on_journal_entry_det : det.
Lemma any_resumable_det x1 x2 : same R (any_resumable x1 x2) (any_resumable x1 x2).
Proof. induction x2 as [|x x2 IH]; simpl; det. Qed.
Hint Resolve any_resumable_det : det.
Lemma on_invoker_effect_det x1 x2 :
  same R (@on_invoker_effect D K1 C B62 B64 SK x1 x2)
    (@on_invoker_effect D K2 C' B62 B64 SK x1 x2).
Proof. unfold on_invoker_effect. det. Qed.
Hint Resolve on_invoker_effect_det : det.
Lemma try_invoker_effect_det x1 :
  same R (@try_invoker_effect D K1 C B62 B64 SK x1) (@try_invoker_effect D K2 C' B62 B64 SK x1).
Proof. unfold try_invoker_effect. det. Qed.
Hint Resolve try_invoker_effect_det : det.
Lemma on_scheduler_action_det x1 x2 :
  same R (@on_scheduler_action D K1 C x1 x2) (@on_scheduler_action D K2 C' x1 x2).
Proof. unfold on_scheduler_action. det. Qed.
Hint Resolve on_scheduler_action_det : det.
Lemma on_invocation_response_det x1 :
  same R (@on_invocation_response D K1 C x1) (@on_invocation_response D K2 C' x1).
Proof. unfold on_invocation_response. det. Qed.
Hint Resolve on_invocation_response_det : det.

Lemma on_each_queue_det (f1 f2 : VQueueHandle → UniqueTimestamp → M unit) l :
  (∀ q h1 h2 t, keeps (open_queues q h1 h2) R (f1 h1 t) (f2 h2 t)) →
  same R (@on_each_queue K1 C f1 l) (@on_each_queue K2 C' f2 l).
Proof.
  intros Hf. unfold on_each_queue. eapply keeps_bind; [det|]. intros t. apply same_for. intros q.
  eapply rht_bind; [apply (rht_load K1 K2)|]. intros [h1|] [h2|]; [apply Hf|by intros ? ?..|].
  apply same_ret.
Qed.
Hint Resolve on_each_queue_det : det.

Lemma on_apply_det r :
  same R (@on_apply D K1 C B62 B64 SK r) (@on_apply D K2 C' B62 B64 SK r).
Proof. unfold on_apply. det. Qed.
End handlers.

(** ** The theorems *)

(** C3: replicas are deterministic.  Two replicas of a partition with equal tables,
    equal cached sequence numbers and coherent queue caches apply the same record
    alike: both succeed, with equal tables and numbers and coherent caches again, or
    both return the same error, or both panic.  This holds whatever their roles (leader
    or follower), the random samples by which their stores choose between full
    writes and merges, the contents and slot keys of their caches, and the actions they
    have collected.  Their servers have the same version, and their hash sets of
    response sinks give the sinks in other partitions in the same order, which the
    code ensures for a set with one such sink only. *)
Theorem replicas_apply_alike (K1 K2 : SlotKeys) (L1 : @SlotKeysLaws K1) (L2 : @SlotKeysLaws K2)
    (D : Digests) (C : Ctx) (B62 : Base62) (B64 : Base64) (SK : StateKeysCodec) (leader : bool)
    (sample : VQueueId → VQueueMeta → Update → bool)
    (order : gset ServiceInvocationResponseSink → list ServiceInvocationResponseSink)
    (r : Record_) (s1 s2 : PState) :
  alike_orders (@sink_order C) order →
  v_tables s1 = v_tables s2 → v_numbers s1 = v_numbers s2 →
  coherent (v_tables s1) (v_cache s1) → coherent (v_tables s2) (v_cache s2) →
  match @on_apply D K1 C B62 B64 SK r s1,
        @on_apply D K2 (as_replica C leader sample order) B62 B64 SK r s2 with
  | (s1', Ok _), (s2', Ok _) =>
      v_tables s1' = v_tables s2' ∧ v_numbers s1' = v_numbers s2' ∧
      coherent (v_tables s1') (v_cache s1') ∧ coherent (v_tables s2') (v_cache s2')
  | (s1', Err e1), (s2', Err e2) =>
      e1 = e2 ∧ v_tables s1' = v_tables s2' ∧ v_numbers s1' = v_numbers s2'
  | (_, Panic), (_, Panic) => True
  | _, _ => False
  end.
Proof.
  intros Ho Ht Hn H1 H2.
  pose proof (on_apply_det K1 K2 D C B62 B64 SK leader sample order Ho r s1 s2
    (conj Ht (conj H1 (conj H2 Hn)))) as Hd.
  destruct (@on_apply D K1 C B62 B64 SK r s1) as [s1' []], (on_apply r s2) as [s2' []]; try done.
  - by destruct Hd as (_ & ? & ? & ? & ?).
  - by destruct Hd as (? & ? & _ & _ & ?).
Qed.

(** The sinks of other partitions in the order of [elements], the others after them, in the
    opposite order. *)
Definition demo_order (s : gset ServiceInvocationResponseSink) : list ServiceInvocationResponseSink :=
  partition_sinks (elements s)
  ++ reverse (List.filter (λ x, match x with SinkIngress _ => true | _ => false end) (elements s)).

Lemma demo_order_alike : alike_orders (λ s, elements s) demo_order.
Proof.
  intros s. unfold demo_order, partition_sinks. rewrite List.filter_app.
  assert (∀ l : list ServiceInvocationResponseSink, partition_sinks (partition_sinks l) = partition_sinks l)
    as H1 by (induction l as [|[] l IH]; simpl; [done|by f_equal|done]).
  assert (∀ l, Forall (λ x, match x with SinkIngress _ => True | _ => False end) l →
    partition_sinks l = []) as H2 by (induction 1 as [|[] l ? _ IH]; done).
  rewrite (H2 (reverse _)), app_nil_r; [by rewrite H1|].
  apply Forall_reverse. induction (elements s) as [|[] l IH]; simpl; by constructor || done.
Qed.

(** A leader and a follower with empty caches accept an invocation of a virtual
    object into a new queue. *)
Lemma replicas_apply_alike_witness :
  let s := mkV empty_tables (cache_create 16 []) [] (mkNumbers 0 0) in
  let C := demo_ctx demo_features 1700000000000 5 in
  (is_ok (@on_apply _ _ C _ _ _ (CmdInvoke demo_invocation) s).2 = true ∧
   size (t_vqmeta (v_tables (@on_apply _ _ C _ _ _ (CmdInvoke demo_invocation) s).1)) = 1%nat) ∧
  match @on_apply _ _ C _ _ _ (CmdInvoke demo_invocation) s,
        @on_apply _ _ (as_replica C false (λ _ _ _, true) demo_order) _ _ _
          (CmdInvoke demo_invocation) s with
  | (s1', Ok _), (s2', Ok _) =>
      v_tables s1' = v_tables s2' ∧ v_numbers s1' = v_numbers s2' ∧
      coherent (v_tables s1') (v_cache s1') ∧ coherent (v_tables s2') (v_cache s2')
  | (s1', Err e1), (s2', Err e2) =>
      e1 = e2 ∧ v_tables s1' = v_tables s2' ∧ v_numbers s1' = v_numbers s2'
  | (_, Panic), (_, Panic) => True
  | _, _ => False
  end.
Proof.
  split; [vm_compute; by split|].
  apply (replicas_apply_alike fresh_keys fresh_keys fresh_keys_laws fresh_keys_laws);
    [apply demo_order_alike|reflexivity|reflexivity|apply (cache_create_coherent 16 empty_tables), empty_rows_ok..].
Defined.
