(* ===== verification/Writes.v ===== *)
(** * What a record can change

    Every handler of the state machine changes the tables only by the primitive
    writes of [write]: a row of one table is put or deleted, a queue row is
    updated, a message is appended to the outbox, an entry to the inbox.  The
    lemmas [.._w] show this once for each handler; a property of the tables that
    the primitive writes preserve holds of every record, also of one that fails
    ([on_apply_preserves]).  The lemmas also show that the sequence numbers in memory
    stay the stored ones ([synced]), and that the messages put into the outbox are those
    of the collected actions ([sent]).

    A pair of flags says what a handler may write.  Without the first, it leaves
    alone the statuses of invocations, the locks and inboxes of objects and the
    entries of queues; without the second, it suspends no invocation and appends
    no notification to a journal. *)

From stdpp Require Import strings.
From S2P Require Import Prelude UnresolvedFuture Clock Invocation InvocationStatus JournalV1.
From S2P Require Import IdText VQueueMeta PartitionStore VQueueCache VQueue StateMachineBase.
From S2P Require Import InvocationLifecycle JournalEntries JournalV1Handlers StateMachine.

Open Scope Z_scope.

Abbreviation T := (Tables OutboxMessage).

(** Appends with the next number of a sequence. *)
Definition outbox_append (m : OutboxMessage) (t : T) : T :=
  upd_outbox_tail (λ _, as_u64 (t_outbox_tail t + 1)) (put_outbox_message (t_outbox_tail t) m t).
Definition inbox_append (e : InboxEntry) (t : T) : T :=
  upd_inbox_seq (λ _, as_u64 (t_inbox_seq t + 1)) (put_inbox_entry (t_inbox_seq t) e t).

(** The numbers in memory are the stored ones. *)
Definition stored_numbers (t : T) : Numbers := mkNumbers (t_outbox_tail t) (t_inbox_seq t).
Definition synced (s : PState) : Prop := v_numbers s = stored_numbers (v_tables s).

(** The messages for other partitions among the actions. *)
Definition sent_by (a : Action) : option (Z * OutboxMessage) :=
  match a with NewOutboxMessage n m => Some (n, m) | _ => None end.
Definition sent (actions : list Action) : list (Z * OutboxMessage) := omap sent_by actions.

Definition is_suspended (s : InvocationStatus) : bool :=
  match s with Suspended _ _ => true | _ => false end.

Inductive write (o : bool * bool) : (T → T) → Prop :=
| w_status id s : o.1 = true → o.2 = true → write o (put_invocation_status id s)
| w_status_calm id s : o.1 = true → is_suspended s = false → write o (put_invocation_status id s)
| w_status_delete id : o.1 = true → write o (delete_invocation_status id)
| w_object sid l : o.1 = true → write o (put_virtual_object_status sid l)
| w_inbox e : o.1 = true → write o (inbox_append e)
| w_inbox_delete sid n : o.1 = true → write o (delete_inbox_entry sid n)
| w_journal1 id i e : write o (put_journal_entry_v1 id i e)
| w_journal1_delete id n : write o (delete_journal_v1 id n)
| w_journal2 id i e r : o.2 = true → write o (put_journal_entry_v2 id i e r)
| w_command id i e r : is_command (se_inner e) = true → write o (put_journal_entry_v2 id i e r)
| w_journal2_delete id n : write o (delete_journal_v2 id n)
| w_event id e l : write o (put_journal_event id e l)
| w_event_delete id : write o (delete_journal_events id)
| w_timer k v : write o (put_timer k v)
| w_timer_delete k : write o (delete_timer k)
| w_outbox m : write o (outbox_append m)
| w_state sid k v : write o (put_user_state sid k v)
| w_state_delete sid k : write o (delete_user_state sid k)
| w_state_delete_all sid : write o (delete_all_user_state sid)
| w_promise sid k p : write o (put_promise sid k p)
| w_promise_delete_all sid : write o (delete_all_promises sid)
| w_lock sc l s : write o (acquire_lock sc l s)
| w_lock_release sc l : write o (release_lock sc l)
| w_queue q m : write o (create_vqueue q m)
| w_queue_delete q : write o (delete_vqueue q)
| w_queue_active q : write o (mark_vqueue_as_active q)
| w_queue_dormant q : write o (mark_vqueue_as_dormant q)
| w_stage q st k v : write o (put_vqueue_inbox q st k v)
| w_stage_delete q st k : write o (delete_vqueue_inbox q st k)
| w_entry q st k v : o.1 = true → write o (put_entry_status q st k v)
| w_entry_delete q k : o.1 = true → write o (delete_entry_status q k)
| w_input q n e i : write o (put_vqueue_input_payload q n e i)
| w_input_delete q n e : write o (delete_vqueue_input_payload q n e).

Create HintDb wr discriminated.
#[export] Hint Extern 0 (is_suspended _ = false) => first [reflexivity | by repeat case_match] : wr.
#[export] Hint Constructors write : wr.

(** A write, and the messages it sends. *)
Definition wstep (o : bool * bool) (x x' : T * list (Z * OutboxMessage)) : Prop :=
  ∃ f, write o f ∧ x'.1 = f x.1 ∧
    ((t_outbox x'.1 = t_outbox x.1 ∧ t_outbox_tail x'.1 = t_outbox_tail x.1 ∧ x'.2 = x.2) ∨
     (∃ m, f = outbox_append m ∧ x'.2 = x.2 ++ [(t_outbox_tail x.1, m)])).

Lemma writes_preserve o (P : T → Prop) x y :
  (∀ f t, write o f → P t → P (f t)) → rtc (wstep o) x y → P x.1 → P y.1.
Proof.
  intros Hw. induction 1 as [|x1 x2 x3 (f & Hf & E & _) _ IH]; [done|].
  intros Hp. apply IH. rewrite E. by apply Hw.
Qed.

Definition outgoing (s : PState) : T * list (Z * OutboxMessage) :=
  (v_tables s, sent (v_actions s)).

Definition writes_only {A} (o : bool * bool) (m : M A) : Prop := ∀ s,
  synced s → synced (m s).1 ∧ rtc (wstep o) (outgoing s) (outgoing (m s).1).

(** ** Rules *)

Lemma w_same {A} o (m : M A) :
  (∀ s, v_tables (m s).1 = v_tables s ∧ v_numbers (m s).1 = v_numbers s ∧
        sent (v_actions (m s).1) = sent (v_actions s)) → writes_only o m.
Proof.
  intros Hm s Hs. destruct (Hm s) as (Ht & Hn & Ha). unfold synced, outgoing.
  rewrite Ht, Hn, Ha. done.
Qed.

Lemma w_bind {A B} o (m : M A) (k : A → M B) :
  writes_only o m → (∀ a, writes_only o (k a)) → writes_only o (sm_bind m k).
Proof.
  intros Hm Hk s Hs. unfold sm_bind. specialize (Hm s Hs).
  destruct (m s) as [s' [a| |]]; simpl in *; try done. destruct Hm as [Hs' Hr].
  destruct (Hk a s' Hs') as [Hs'' Hr']. split; [done|by etrans].
Qed.
Lemma w_ret {A} o (a : A) : writes_only o (sm_ret a).
Proof. by apply w_same. Qed.
Lemma w_lift {A} o (r : res Error A) : writes_only o (sm_lift r).
Proof. by apply w_same. Qed.
Lemma w_reads {A} o (f : T → A) : writes_only o (reads f).
Proof. by apply w_same. Qed.
Lemma w_gets {A} o (f : PState → A) : writes_only o (sm_gets f).
Proof. by apply w_same. Qed.

(** Writes that leave the outbox and the numbers alone. *)
Definition unnumbered (f : T → T) : Prop := ∀ t,
  t_outbox (f t) = t_outbox t ∧ t_outbox_tail (f t) = t_outbox_tail t ∧
  t_inbox_seq (f t) = t_inbox_seq t.

Lemma tables_synced f (s : PState) : unnumbered f → synced s → synced (tables (E := Error) f s).1.
Proof.
  intros Hu Hs. destruct (Hu (v_tables s)) as (_ & H2 & H3).
  unfold synced, stored_numbers in *. simpl. by rewrite H2, H3.
Qed.
Lemma w_tables o f : write o f → unnumbered f → writes_only o (tables f).
Proof.
  intros Hf Hu s Hs. destruct (Hu (v_tables s)) as (H1 & H2 & H3). split.
  - by apply tables_synced.
  - apply rtc_once. exists f. split_and!; [done|done|]. left. by split_and!.
Qed.
Lemma status_unnumbered id s : unnumbered (put_invocation_status id s).
Proof. intros t. by destruct s. Qed.
Lemma object_unnumbered id s : unnumbered (put_virtual_object_status id s).
Proof. intros t. by destruct s. Qed.
Lemma journal2_unnumbered id i e r : unnumbered (put_journal_entry_v2 id i e r).
Proof. intros t. unfold put_journal_entry_v2. by destruct (se_inner e). Qed.
#[export] Hint Resolve status_unnumbered object_unnumbered journal2_unnumbered : wr.

Lemma w_in_cache {A} o (m : sm VQueuesMetaCache Error A) : writes_only o (in_cache m).
Proof. apply w_same. intros s. unfold in_cache. by destruct (m (v_cache s)). Qed.
Lemma w_push o a : sent_by a = None → writes_only o (push a).
Proof.
  intros Ha. apply w_same. intros s. split_and!; [done..|]. simpl. unfold sent.
  rewrite omap_app. simpl. by rewrite Ha, app_nil_r.
Qed.
Lemma w_emit `{!Ctx} o h u : writes_only o (emit vctx h u).
Proof.
  unfold emit, sm_when. simpl. destruct is_leader; [|apply w_ret]. apply (w_push o (VQEvent _)). done.
Qed.
Lemma w_when o b (m : M unit) : writes_only o m → writes_only o (sm_when b m).
Proof. destruct b; [done|intros; apply w_ret]. Qed.
Lemma w_for {A} o (f : A → M unit) l : (∀ x, writes_only o (f x)) → writes_only o (sm_for f l).
Proof. intros Hf. induction l; simpl; [apply w_ret|]. apply w_bind; [apply Hf|done]. Qed.
Lemma w_assert o b : writes_only o (assert_ b).
Proof. destruct b; [apply w_ret|apply w_lift]. Qed.

Ltac wr_leaf :=
  lazymatch goal with
  | |- writes_only _ (sm_ret _) => apply w_ret
  | |- writes_only _ (sm_lift _) => apply w_lift
  | |- writes_only _ (reads _) => apply w_reads
  | |- writes_only _ (sm_gets _) => apply w_gets
  | |- writes_only _ (tables _) =>
      apply w_tables; [by auto with wr|first [solve [auto with wr] | by intros ?]]
  | |- writes_only _ (in_cache _) => apply w_in_cache
  | |- writes_only _ (queue_slot _) => apply w_in_cache
  | |- writes_only _ (push _) => apply w_push; reflexivity
  | |- writes_only _ (emit _ _ _) => apply w_emit
  | |- writes_only _ (assert_ _) => apply w_assert
  end.

Ltac wr :=
  cbv zeta;
  first
    [ solve [wr_leaf]
    | solve [auto 2 with wr nocore]
    | lazymatch goal with
      | |- writes_only _ (sm_bind _ _) => apply w_bind; [wr|intros ?; wr]
      | |- writes_only _ (sm_when _ _) => apply w_when; wr
      | |- writes_only _ (sm_for _ _) => apply w_for; intros ?; wr
      | |- writes_only _ (match ?x with _ => _ end) => destruct x; wr
      end ].

(** ** Queues *)

Section queues.
Context `{!SlotKeys, !Ctx}.
Abbreviation v := vctx.

Lemma plain_step o f (t : T) l : write o f → unnumbered f → wstep o (t, l) (f t, l).
Proof. intros Hf Hu. exists f. split_and!; [done|done|]. left. destruct (Hu t) as (? & ? & _). by split_and!. Qed.

Lemma row_w o sample q m u (t : T) l r :
  update_vqueue_row sample q m u t = Some r →
  rtc (wstep o) (t, l) (r.1.1, l) ∧ stored_numbers r.1.1 = stored_numbers t.
Proof.
  unfold update_vqueue_row. destruct (apply_update u m) as [m'|]; [|done]. simpl.
  set (t1 := match vm_is_active m with true => _ | false => _ end).
  assert (rtc (wstep o) (t, l) (t1, l) ∧ stored_numbers t1 = stored_numbers t) as [H1 N1].
  { unfold t1. destruct (vm_is_active m), (vm_is_active m'); (split; [|reflexivity]); try reflexivity;
      (apply rtc_once, plain_step; [auto with wr|by intros ?]). }
  destruct (is_obsolete m').
  - intros [= <-]. simpl. split; [|done]. eapply rtc_r; [done|].
    apply (plain_step o (delete_vqueue q)); [apply w_queue_delete|by intros ?].
  - intros Hr. assert (∃ m2, r.1.1 = create_vqueue q m2 t1) as [m2 ->].
    { destruct (sample || _); [by injection Hr as <-; eexists|].
      unfold merge_vqueue in Hr. destruct (t_vqmeta t1 !! q) as [m0|]; [|done]. simpl in Hr.
      destruct (apply_update u m0); [|done]. by injection Hr as <-; eexists. }
    split; [|done]. eapply rtc_r; [done|].
    apply (plain_step o (create_vqueue q m2)); [apply w_queue|by intros ?].
Qed.

Lemma update_vqueue_w o h u : writes_only o (update_vqueue v h u).
Proof.
  intros s Hsy. remember (update_vqueue v h u s) as p eqn:Hp. revert Hp.
  unfold update_vqueue, queue_slot, in_cache at 1, slot_of, reads, sm_gets.
  unfold sm_bind at 1. simpl. destruct (slab (v_cache s) !! h) as [sl|]; simpl; [|by intros ->].
  unfold sm_bind at 1. simpl. unfold sm_bind at 1, sm_lift.
  destruct (update_vqueue_row _ _ _ _ _) as [r|] eqn:Hr; simpl; [|by intros ->].
  apply (row_w o _ _ _ _ _ (sent (v_actions s))) in Hr as [Hr Hn]. unfold sm_bind at 1. simpl.
  assert (writes_only o (in_cache (set_meta h r.1.2) ;;
    sm_when r.2 (in_cache (defer_purge h) ;; emit v h [VQueuePurged]))) as Hw by wr.
  destruct (Hw (on_tables (λ _, r.1.1) (mkV (v_tables s) (v_cache s) (v_actions s) (v_numbers s))))
    as [Hs' Hr'].
  - unfold synced in *. simpl. by rewrite Hn.
  - intros ->. split; [exact Hs'|]. etrans; [exact Hr|exact Hr'].
Qed.
Hint Resolve update_vqueue_w : wr.
Lemma load_w o x1 : writes_only o (load x1).
Proof. unfold load. wr. Qed.
Hint Resolve load_w : wr.
Lemma vqueue_from_invocation_target_w o x1 x2 x3 x4 : writes_only o (vqueue_from_invocation_target x1 x2 x3 x4).
Proof. unfold vqueue_from_invocation_target. wr. Qed.
Hint Resolve vqueue_from_invocation_target_w : wr.
Lemma get_or_insert_with_w o x1 x2 : writes_only o (get_or_insert_with x1 x2).
Proof. unfold get_or_insert_with. wr. Qed.
Hint Resolve get_or_insert_with_w : wr.
Lemma assert_queue_w o x1 x2 : writes_only o (assert_queue x1 x2).
Proof. unfold assert_queue. wr. Qed.
Hint Resolve assert_queue_w : wr.
Lemma update_entry_status_w q x1 x2 x3 x4 : writes_only (true, q) (update_entry_status x1 x2 x3 x4).
Proof. unfold update_entry_status. wr. Qed.
Hint Resolve update_entry_status_w : wr.
Lemma enqueue_new_w q x1 x2 x3 x4 x5 x6 : writes_only (true, q) (enqueue_new v x1 x2 x3 x4 x5 x6).
Proof. unfold enqueue_new. wr. Qed.
Hint Resolve enqueue_new_w : wr.
Lemma run_entry_w q x1 x2 x3 x4 : writes_only (true, q) (run_entry v x1 x2 x3 x4).
Proof. unfold run_entry. wr. Qed.
Hint Resolve run_entry_w : wr.
Lemma wake_up_w q x1 x2 x3 x4 x5 : writes_only (true, q) (wake_up v x1 x2 x3 x4 x5).
Proof. unfold wake_up. wr. Qed.
Hint Resolve wake_up_w : wr.
Lemma reschedule_w q x1 x2 x3 x4 : writes_only (true, q) (reschedule v x1 x2 x3 x4).
Proof. unfold reschedule. wr. Qed.
Hint Resolve reschedule_w : wr.
Lemma park_entry_w q x1 x2 x3 x4 : writes_only (true, q) (park_entry v x1 x2 x3 x4).
Proof. unfold park_entry. wr. Qed.
Hint Resolve park_entry_w : wr.
Lemma yield_entry_w q x1 x2 x3 x4 x5 : writes_only (true, q) (yield_entry v x1 x2 x3 x4 x5).
Proof. unfold yield_entry. wr. Qed.
Hint Resolve yield_entry_w : wr.
Lemma vqueue_delete_w q x1 x2 x3 x4 x5 : writes_only (true, q) (vqueue_delete v x1 x2 x3 x4 x5).
Proof. unfold vqueue_delete. wr. Qed.
Hint Resolve vqueue_delete_w : wr.
Lemma vqueue_end_w q x1 x2 x3 x4 x5 : writes_only (true, q) (vqueue_end v x1 x2 x3 x4 x5).
Proof. unfold vqueue_end. wr. Qed.
Hint Resolve vqueue_end_w : wr.
Lemma run_then_finish_w q x1 x2 x3 x4 x5 : writes_only (true, q) (run_then_finish v x1 x2 x3 x4 x5).
Proof. unfold run_then_finish. wr. Qed.
Hint Resolve run_then_finish_w : wr.
Lemma pause_queue_w o x1 x2 : writes_only o (pause_queue v x1 x2).
Proof. unfold pause_queue. wr. Qed.
Hint Resolve pause_queue_w : wr.
Lemma resume_queue_w o x1 x2 : writes_only o (resume_queue v x1 x2).
Proof. unfold resume_queue. wr. Qed.
Hint Resolve resume_queue_w : wr.
End queues.
#[export] Hint Resolve update_vqueue_w load_w vqueue_from_invocation_target_w get_or_insert_with_w assert_queue_w update_entry_status_w enqueue_new_w run_entry_w wake_up_w reschedule_w park_entry_w yield_entry_w vqueue_delete_w vqueue_end_w run_then_finish_w pause_queue_w resume_queue_w : wr.

(** ** Handlers *)

Section handlers.
Context `{!Digests, !SlotKeys, !Ctx, !Base62, !Base64, !StateKeysCodec}.

Lemma record_unique_ts_w o : writes_only o record_unique_ts.
Proof. unfold record_unique_ts. wr. Qed.
Hint Resolve record_unique_ts_w : wr.
Lemma read_status_w o x1 : writes_only o (read_status x1).
Proof. unfold read_status. wr. Qed.
Hint Resolve read_status_w : wr.
Lemma put_status_w x1 x2 : writes_only (true, true) (put_status x1 x2).
Proof. unfold put_status. wr. Qed.
Lemma put_status_calm q x1 x2 : is_suspended x2 = false → writes_only (true, q) (put_status x1 x2).
Proof. intros. apply w_tables; [by apply w_status_calm|apply status_unnumbered]. Qed.
Hint Resolve put_status_calm : wr.
Hint Resolve put_status_w : wr.
Lemma register_timer_w o x1 : writes_only o (register_timer x1).
Proof. unfold register_timer. wr. Qed.
Hint Resolve register_timer_w : wr.
Lemma do_delete_timer_w o x1 : writes_only o (do_delete_timer x1).
Proof. unfold do_delete_timer. wr. Qed.
Hint Resolve do_delete_timer_w : wr.
Lemma forward_notification_w o x1 x2 x3 : writes_only o (forward_notification x1 x2 x3).
Proof. unfold forward_notification. wr. Qed.
Hint Resolve forward_notification_w : wr.
Lemma send_abort_invocation_to_invoker_w o x1 : writes_only o (send_abort_invocation_to_invoker x1).
Proof. unfold send_abort_invocation_to_invoker. wr. Qed.
Hint Resolve send_abort_invocation_to_invoker_w : wr.
Lemma reply_w o x1 x2 : writes_only o (reply x1 x2).
Proof. unfold reply. wr. Qed.
Hint Resolve reply_w : wr.
Lemma send_submit_notification_if_needed_w o x1 x2 x3 : writes_only o (send_submit_notification_if_needed x1 x2 x3).
Proof. unfold send_submit_notification_if_needed. wr. Qed.
Hint Resolve send_submit_notification_if_needed_w : wr.
Lemma send_ingress_response_w o x1 x2 x3 x4 : writes_only o (send_ingress_response x1 x2 x3 x4).
Proof. unfold send_ingress_response. wr. Qed.
Hint Resolve send_ingress_response_w : wr.
Lemma do_enqueue_into_outbox_w o x1 : writes_only o (do_enqueue_into_outbox x1).
Proof.
  intros s Hs. unfold synced in *. unfold do_enqueue_into_outbox, outbox_enqueue, sm_bind. simpl.
  rewrite Hs. split; [done|]. apply rtc_once. exists (outbox_append x1).
  split_and!; [apply w_outbox|done|]. right. exists x1. split; [done|].
  simpl. unfold sent. by rewrite omap_app.
Qed.
Hint Resolve do_enqueue_into_outbox_w : wr.
Lemma send_response_to_sink_w o x1 x2 x3 x4 x5 : writes_only o (send_response_to_sink x1 x2 x3 x4 x5).
Proof. unfold send_response_to_sink. wr. Qed.
Hint Resolve send_response_to_sink_w : wr.
Lemma send_response_to_sinks_w o x1 x2 x3 x4 x5 : writes_only o (send_response_to_sinks x1 x2 x3 x4 x5).
Proof. unfold send_response_to_sinks. wr. Qed.
Hint Resolve send_response_to_sinks_w : wr.
Lemma do_append_response_sink_w x1 x2 x3 : writes_only (true, true) (do_append_response_sink x1 x2 x3).
Proof. unfold do_append_response_sink. wr. Qed.
Hint Resolve do_append_response_sink_w : wr.
Lemma mutate_state_w o x1 : writes_only o (mutate_state x1).
Proof. unfold mutate_state. wr. Qed.
Hint Resolve mutate_state_w : wr.
Lemma do_mutate_state_w o x1 : writes_only o (do_mutate_state x1).
Proof. unfold do_mutate_state. wr. Qed.
Hint Resolve do_mutate_state_w : wr.
Lemma enqueue_into_inbox_w q x1 : writes_only (true, q) (enqueue_into_inbox x1).
Proof.
  intros s Hs. unfold synced in *. unfold enqueue_into_inbox, set_inbox_seq_number, sm_bind. simpl.
  rewrite Hs. split; [done|]. apply rtc_once. exists (inbox_append x1).
  split_and!; [by apply w_inbox|done|]. by left.
Qed.
Hint Resolve enqueue_into_inbox_w : wr.
Lemma vqueue_get_w o x1 : writes_only o (vqueue_get x1).
Proof. unfold vqueue_get. wr. Qed.
Hint Resolve vqueue_get_w : wr.
Lemma vqueue_expect_w o x1 : writes_only o (vqueue_expect x1).
Proof. unfold vqueue_expect. wr. Qed.
Hint Resolve vqueue_expect_w : wr.
Lemma entry_status_expect_w o x1 : writes_only o (entry_status_expect x1).
Proof. unfold entry_status_expect. wr. Qed.
Hint Resolve entry_status_expect_w : wr.
Lemma vqueue_move_invocation_to_inbox_stage_w q x1 : writes_only (true, q) (vqueue_move_invocation_to_inbox_stage x1).
Proof. unfold vqueue_move_invocation_to_inbox_stage. wr. Qed.
Hint Resolve vqueue_move_invocation_to_inbox_stage_w : wr.
Lemma vqueue_reschedule_invocation_w q x1 x2 x3 : writes_only (true, q) (vqueue_reschedule_invocation x1 x2 x3).
Proof. unfold vqueue_reschedule_invocation. wr. Qed.
Hint Resolve vqueue_reschedule_invocation_w : wr.
Lemma vqueue_enqueue_state_mutation_w q x1 : writes_only (true, q) (vqueue_enqueue_state_mutation x1).
Proof. unfold vqueue_enqueue_state_mutation. wr. Qed.
Hint Resolve vqueue_enqueue_state_mutation_w : wr.
Lemma do_resume_service_w q x1 x2 : writes_only (true, q) (do_resume_service x1 x2).
Proof. unfold do_resume_service. wr. Qed.
Hint Resolve do_resume_service_w : wr.
Lemma do_suspend_service_w x1 x2 x3 : writes_only (true, true) (do_suspend_service x1 x2 x3).
Proof. unfold do_suspend_service, suspend_entry. wr. Qed.
Hint Resolve do_suspend_service_w : wr.
Lemma do_store_completed_invocation_w q x1 x2 : writes_only (true, q) (do_store_completed_invocation x1 x2).
Proof. unfold do_store_completed_invocation. wr. Qed.
Hint Resolve do_store_completed_invocation_w : wr.
Lemma do_free_invocation_w q x1 : writes_only (true, q) (do_free_invocation x1).
Proof. unfold do_free_invocation. wr. Qed.
Hint Resolve do_free_invocation_w : wr.
Lemma do_delete_inbox_entry_w q x1 x2 : writes_only (true, q) (do_delete_inbox_entry x1 x2).
Proof. unfold do_delete_inbox_entry. wr. Qed.
Hint Resolve do_delete_inbox_entry_w : wr.
Lemma append_journal_entry_v1_w x1 x2 x3 x4 : writes_only (true, true) (append_journal_entry_v1 x1 x2 x3 x4).
Proof. unfold append_journal_entry_v1. wr. Qed.
Hint Resolve append_journal_entry_v1_w : wr.
Lemma do_delete_pending_sleep_timers_v1_w o x1 x2 : writes_only o (do_delete_pending_sleep_timers_v1 x1 x2).
Proof. unfold do_delete_pending_sleep_timers_v1. wr. Qed.
Hint Resolve do_delete_pending_sleep_timers_v1_w : wr.
Lemma do_delete_pending_sleep_timers_v2_w o x1 x2 : writes_only o (do_delete_pending_sleep_timers_v2 x1 x2).
Proof. unfold do_delete_pending_sleep_timers_v2. wr. Qed.
Hint Resolve do_delete_pending_sleep_timers_v2_w : wr.
Lemma do_drop_journal_w o x1 x2 x3 x4 : writes_only o (do_drop_journal x1 x2 x3 x4).
Proof. unfold do_drop_journal. wr. Qed.
Hint Resolve do_drop_journal_w : wr.
Lemma store_completion_w o x1 x2 x3 : writes_only o (store_completion x1 x2 x3).
Proof. unfold store_completion. wr. Qed.
Hint Resolve store_completion_w : wr.
Lemma init_journal_w o x1 x2 x3 : writes_only o (init_journal x1 x2 x3).
Proof. unfold init_journal. wr. Qed.
Hint Resolve init_journal_w : wr.
Lemma init_journal_opt_w o x1 x2 x3 : writes_only o (init_journal_opt x1 x2 x3).
Proof. unfold init_journal_opt. wr. Qed.
Hint Resolve init_journal_opt_w : wr.
Lemma init_journal_and_set_invoked_w q x1 x2 x3 : writes_only (true, q) (init_journal_and_set_invoked x1 x2 x3).
Proof. unfold init_journal_and_set_invoked. wr. Qed.
Hint Resolve init_journal_and_set_invoked_w : wr.
Lemma vqueue_invoke_w q x1 x2 x3 x4 : writes_only (true, q) (vqueue_invoke x1 x2 x3 x4).
Proof. unfold vqueue_invoke. wr. Qed.
Hint Resolve vqueue_invoke_w : wr.
Lemma init_journal_and_vqueue_invoke_w q x1 x2 x3 x4 x5 : writes_only (true, q) (init_journal_and_vqueue_invoke x1 x2 x3 x4 x5).
Proof. unfold init_journal_and_vqueue_invoke. wr. Qed.
Hint Resolve init_journal_and_vqueue_invoke_w : wr.
Lemma handle_duplicated_requests_w x1 : writes_only (true, true) (handle_duplicated_requests x1).
Proof. unfold handle_duplicated_requests. wr. Qed.
Hint Resolve handle_duplicated_requests_w : wr.
Lemma handle_service_invocation_execution_time_w q x1 x2 : writes_only (true, q) (handle_service_invocation_execution_time x1 x2).
Proof. unfold handle_service_invocation_execution_time. wr. Qed.
Hint Resolve handle_service_invocation_execution_time_w : wr.
Lemma handle_service_invocation_exclusive_handler_w q x1 x2 : writes_only (true, q) (handle_service_invocation_exclusive_handler x1 x2).
Proof. unfold handle_service_invocation_exclusive_handler. wr. Qed.
Hint Resolve handle_service_invocation_exclusive_handler_w : wr.
Lemma vqueue_enqueue_w q x1 x2 x3 : writes_only (true, q) (vqueue_enqueue x1 x2 x3).
Proof. unfold vqueue_enqueue. wr. Qed.
Hint Resolve vqueue_enqueue_w : wr.
Lemma prepare_journal_w o x1 x2 : writes_only o (prepare_journal x1 x2).
Proof. unfold prepare_journal. wr. Qed.
Hint Resolve prepare_journal_w : wr.
Lemma on_pre_flight_invocation_w q x1 x2 x3 : writes_only (true, q) (on_pre_flight_invocation x1 x2 x3).
Proof. unfold on_pre_flight_invocation. wr. Qed.
Hint Resolve on_pre_flight_invocation_w : wr.
Lemma on_service_invocation_w x1 : writes_only (true, true) (on_service_invocation x1).
Proof. unfold on_service_invocation. wr. Qed.
Hint Resolve on_service_invocation_w : wr.
Lemma handle_external_state_mutation_w q x1 : writes_only (true, q) (handle_external_state_mutation x1).
Proof. unfold handle_external_state_mutation. wr. Qed.
Hint Resolve handle_external_state_mutation_w : wr.
Lemma run_invocation_w q x1 x2 x3 : writes_only (true, q) (run_invocation x1 x2 x3).
Proof. unfold run_invocation. wr. Qed.
Hint Resolve run_invocation_w : wr.
Lemma run_state_mutation_w q x1 x2 x3 : writes_only (true, q) (run_state_mutation x1 x2 x3).
Proof. unfold run_state_mutation. wr. Qed.
Hint Resolve run_state_mutation_w : wr.
Lemma attempt_to_run_w q x1 x2 x3 : writes_only (true, q) (attempt_to_run x1 x2 x3).
Proof. unfold attempt_to_run. wr. Qed.
Hint Resolve attempt_to_run_w : wr.
Lemma pop_inbox_w q sid :
  writes_only (true, q) (λ s : PState, let '(t, e) := pop_inbox sid (v_tables s) in
                             (on_tables (λ _, t) s, Ok e)).
Proof.
  intros s Hs. unfold pop_inbox. destruct (peek_inbox sid (v_tables s)) as [[n e]|]; [|done].
  split; [done|]. apply rtc_once, (plain_step _ (delete_inbox_entry sid n)); [by apply w_inbox_delete|].
  by intros ?.
Qed.
Hint Resolve pop_inbox_w : wr.
Lemma consume_loop_w q x1 x2 : writes_only (true, q) (consume_loop x1 x2).
Proof. revert x2. induction x1 as [|x1 IH]; intros x2; simpl; wr. Qed.
Hint Resolve consume_loop_w : wr.
Lemma consume_inbox_w q x1 : writes_only (true, q) (consume_inbox x1).
Proof. unfold consume_inbox. wr. Qed.
Hint Resolve consume_inbox_w : wr.
Lemma last_output_v2_w o x1 x2 : writes_only o (last_output_v2 x1 x2).
Proof. induction x2 as [|x2 IH]; simpl; wr. Qed.
Hint Resolve last_output_v2_w : wr.
Lemma last_output_v1_w o x1 x2 : writes_only o (last_output_v1 x1 x2).
Proof. induction x2 as [|x2 IH]; simpl; wr. Qed.
Hint Resolve last_output_v1_w : wr.
Lemma read_last_output_entry_result_w o x1 x2 x3 : writes_only o (read_last_output_entry_result x1 x2 x3).
Proof. unfold read_last_output_entry_result. wr. Qed.
Hint Resolve read_last_output_entry_result_w : wr.
Lemma finish_invocation_w q x1 x2 x3 : writes_only (true, q) (finish_invocation x1 x2 x3).
Proof. unfold finish_invocation. wr. Qed.
Hint Resolve finish_invocation_w : wr.
Lemma end_invocation_w q x1 x2 x3 x4 : writes_only (true, q) (end_invocation x1 x2 x3 x4).
Proof. unfold end_invocation. wr. Qed.
Hint Resolve end_invocation_w : wr.
Lemma kill_child_invocations_w o x1 x2 x3 : writes_only o (kill_child_invocations x1 x2 x3).
Proof. unfold kill_child_invocations. wr. Qed.
Hint Resolve kill_child_invocations_w : wr.
Lemma kill_invoked_invocation_w q x1 x2 : writes_only (true, q) (kill_invoked_invocation x1 x2).
Proof. unfold kill_invoked_invocation. wr. Qed.
Hint Resolve kill_invoked_invocation_w : wr.
Lemma kill_suspended_or_paused_invocation_w q x1 x2 : writes_only (true, q) (kill_suspended_or_paused_invocation x1 x2).
Proof. unfold kill_suspended_or_paused_invocation. wr. Qed.
Hint Resolve kill_suspended_or_paused_invocation_w : wr.
Lemma terminate_pre_flight_w q f id m (l : M unit) :
  writes_only (true, q) l → writes_only (true, q) (terminate_pre_flight f id m l).
Proof. intros Hl. unfold terminate_pre_flight. wr. Qed.
Lemma terminate_inboxed_invocation_w q x1 x2 x3 : writes_only (true, q) (terminate_inboxed_invocation x1 x2 x3).
Proof. unfold terminate_inboxed_invocation. cbv zeta. apply terminate_pre_flight_w. wr. Qed.
Hint Resolve terminate_inboxed_invocation_w : wr.
Lemma terminate_scheduled_invocation_w q x1 x2 x3 : writes_only (true, q) (terminate_scheduled_invocation x1 x2 x3).
Proof. unfold terminate_scheduled_invocation. cbv zeta. apply terminate_pre_flight_w. wr. Qed.
Hint Resolve terminate_scheduled_invocation_w : wr.
Lemma on_kill_invocation_w q x1 x2 : writes_only (true, q) (on_kill_invocation x1 x2).
Proof. unfold on_kill_invocation, reply_to_kill. wr. Qed.
Hint Resolve on_kill_invocation_w : wr.
Lemma resume_invocation_command_w q x1 x2 : writes_only (true, q) (resume_invocation_command x1 x2).
Proof. unfold resume_invocation_command. wr. Qed.
Hint Resolve resume_invocation_command_w : wr.
Lemma apply_event_w o x1 x2 x3 : writes_only o (apply_event x1 x2 x3).
Proof. unfold apply_event. wr. Qed.
Hint Resolve apply_event_w : wr.
Lemma verify_or_migrate_journal_table_w o x1 x2 : writes_only o (verify_or_migrate_journal_table x1 x2).
Proof. unfold verify_or_migrate_journal_table. wr. Qed.
Hint Resolve verify_or_migrate_journal_table_w : wr.
Lemma metadata_expect_w o x1 : writes_only o (metadata_expect x1).
Proof. unfold metadata_expect. wr. Qed.
Hint Resolve metadata_expect_w : wr.
Lemma keyed_service_w o x1 : writes_only o (keyed_service x1).
Proof. unfold keyed_service. wr. Qed.
Hint Resolve keyed_service_w : wr.
Lemma apply_get_lazy_state_w o x1 x2 x3 : writes_only o (apply_get_lazy_state x1 x2 x3).
Proof. unfold apply_get_lazy_state. wr. Qed.
Hint Resolve apply_get_lazy_state_w : wr.
Lemma apply_set_state_w o x1 x2 x3 : writes_only o (apply_set_state x1 x2 x3).
Proof. unfold apply_set_state. wr. Qed.
Hint Resolve apply_set_state_w : wr.
Lemma apply_clear_state_w o x1 x2 : writes_only o (apply_clear_state x1 x2).
Proof. unfold apply_clear_state. wr. Qed.
Hint Resolve apply_clear_state_w : wr.
Lemma apply_clear_all_state_w o x1 : writes_only o (apply_clear_all_state x1).
Proof. unfold apply_clear_all_state. wr. Qed.
Hint Resolve apply_clear_all_state_w : wr.
Lemma apply_get_lazy_state_keys_w o x1 x2 : writes_only o (apply_get_lazy_state_keys x1 x2).
Proof. unfold apply_get_lazy_state_keys. wr. Qed.
Hint Resolve apply_get_lazy_state_keys_w : wr.
Lemma apply_get_promise_w o x1 x2 x3 x4 : writes_only o (apply_get_promise x1 x2 x3 x4).
Proof. unfold apply_get_promise. wr. Qed.
Hint Resolve apply_get_promise_w : wr.
Lemma apply_peek_promise_w o x1 x2 x3 : writes_only o (apply_peek_promise x1 x2 x3).
Proof. unfold apply_peek_promise. wr. Qed.
Hint Resolve apply_peek_promise_w : wr.
Lemma apply_complete_promise_w o x1 x2 x3 x4 : writes_only o (apply_complete_promise x1 x2 x3 x4).
Proof. unfold apply_complete_promise. wr. Qed.
Hint Resolve apply_complete_promise_w : wr.
Lemma apply_sleep_w o x1 x2 x3 x4 : writes_only o (apply_sleep x1 x2 x3 x4).
Proof. unfold apply_sleep. wr. Qed.
Hint Resolve apply_sleep_w : wr.
Lemma apply_call_w o x1 x2 x3 x4 x5 x6 : writes_only o (apply_call x1 x2 x3 x4 x5 x6).
Proof. unfold apply_call. wr. Qed.
Hint Resolve apply_call_w : wr.
Lemma apply_attach_w o x1 x2 x3 x4 : writes_only o (apply_attach x1 x2 x3 x4).
Proof. unfold apply_attach. wr. Qed.
Hint Resolve apply_attach_w : wr.
Lemma apply_complete_awakeable_w o x1 x2 : writes_only o (apply_complete_awakeable x1 x2).
Proof. unfold apply_complete_awakeable. wr. Qed.
Hint Resolve apply_complete_awakeable_w : wr.
Lemma apply_send_signal_w o x1 x2 x3 : writes_only o (apply_send_signal x1 x2 x3).
Proof. unfold apply_send_signal. wr. Qed.
Hint Resolve apply_send_signal_w : wr.
Lemma apply_command_w o x1 x2 x3 : writes_only o (apply_command x1 x2 x3).
Proof. unfold apply_command. wr. Qed.
Hint Resolve apply_command_w : wr.
Lemma apply_notification_w q x1 x2 x3 x4 : writes_only (true, q) (apply_notification x1 x2 x3 x4).
Proof. unfold apply_notification. wr. Qed.
Hint Resolve apply_notification_w : wr.
Lemma append_entry_w x1 x2 x3 : writes_only (true, true) (append_entry x1 x2 x3).
Proof. unfold append_entry. wr. Qed.
Hint Resolve append_entry_w : wr.
Lemma append_entries_w x1 x2 x3 x4 : writes_only (true, true) (append_entries x1 x2 x3 x4).
Proof. revert x3 x4. induction x1 as [|x1 IH]; intros x3 x4; destruct x4; simpl; wr. Qed.
Hint Resolve append_entries_w : wr.
Lemma on_journal_entry_command_w x1 x2 x3 : writes_only (true, true) (on_journal_entry_command x1 x2 x3).
Proof. unfold on_journal_entry_command. wr. Qed.
Hint Resolve on_journal_entry_command_w : wr.
Lemma on_journal_notification_w x1 x2 x3 : writes_only (true, true) (on_journal_notification x1 x2 x3).
Proof. unfold on_journal_notification. wr. Qed.
Hint Resolve on_journal_notification_w : wr.
Lemma on_suspend_command_w x1 x2 x3 x4 : writes_only (true, true) (on_suspend_command x1 x2 x3 x4).
Proof. unfold on_suspend_command, suspend_entry. wr. Qed.
Hint Resolve on_suspend_command_w : wr.
Lemma pause_invocation_w q x1 x2 x3 : writes_only (true, q) (pause_invocation x1 x2 x3).
Proof. unfold pause_invocation, pause_entry. wr. Qed.
Hint Resolve pause_invocation_w : wr.
Lemma on_paused_command_w q x1 x2 : writes_only (true, q) (on_paused_command x1 x2).
Proof. unfold on_paused_command. wr. Qed.
Hint Resolve on_paused_command_w : wr.
Lemma on_manual_pause_command_w q x1 x2 : writes_only (true, q) (on_manual_pause_command x1 x2).
Proof. unfold on_manual_pause_command, reply_to_pause_invocation. wr. Qed.
Hint Resolve on_manual_pause_command_w : wr.
Lemma yield_invocation_command_w q x1 x2 x3 x4 : writes_only (true, q) (yield_invocation_command x1 x2 x3 x4).
Proof. unfold yield_invocation_command. wr. Qed.
Hint Resolve yield_invocation_command_w : wr.
Lemma on_notify_invocation_response_w x1 x2 x3 x4 : writes_only (true, true) (on_notify_invocation_response x1 x2 x3 x4).
Proof. unfold on_notify_invocation_response. wr. Qed.
Hint Resolve on_notify_invocation_response_w : wr.
Lemma on_notify_sleep_completion_w x1 x2 x3 : writes_only (true, true) (on_notify_sleep_completion x1 x2 x3).
Proof. unfold on_notify_sleep_completion. wr. Qed.
Hint Resolve on_notify_sleep_completion_w : wr.
Lemma on_notify_get_invocation_output_response_w x1 x2 : writes_only (true, true) (on_notify_get_invocation_output_response x1 x2).
Proof. unfold on_notify_get_invocation_output_response. wr. Qed.
Hint Resolve on_notify_get_invocation_output_response_w : wr.
Lemma handle_completion_for_suspended_w o x1 x2 x3 x4 : writes_only o (handle_completion_for_suspended x1 x2 x3 x4).
Proof. unfold handle_completion_for_suspended. wr. Qed.
Hint Resolve handle_completion_for_suspended_w : wr.
Lemma handle_completion_for_paused_w o x1 x2 x3 : writes_only o (handle_completion_for_paused x1 x2 x3).
Proof. unfold handle_completion_for_paused. wr. Qed.
Hint Resolve handle_completion_for_paused_w : wr.
Lemma handle_completion_for_invoked_w o x1 x2 x3 : writes_only o (handle_completion_for_invoked x1 x2 x3).
Proof. unfold handle_completion_for_invoked. wr. Qed.
Hint Resolve handle_completion_for_invoked_w : wr.
Lemma awaited_entries_w o x1 : writes_only o (awaited_entries x1).
Proof. unfold awaited_entries. wr. Qed.
Hint Resolve awaited_entries_w : wr.
Lemma handle_completion_w q x1 x2 x3 x4 : writes_only (true, q) (handle_completion x1 x2 x3 x4).
Proof. unfold handle_completion. wr. Qed.
Hint Resolve handle_completion_w : wr.
Lemma cancel_journal_entry_with_w o x1 x2 x3 x4 : writes_only o (cancel_journal_entry_with x1 x2 x3 x4).
Proof. unfold cancel_journal_entry_with. wr. Qed.
Hint Resolve cancel_journal_entry_with_w : wr.
Lemma cancel_journal_leaf_w o x1 x2 x3 : writes_only o (cancel_journal_leaf x1 x2 x3).
Proof. unfold cancel_journal_leaf. wr. Qed.
Hint Resolve cancel_journal_leaf_w : wr.
Lemma cancel_leaves_w o x1 x2 x3 x4 : writes_only o (cancel_leaves x1 x2 x3 x4).
Proof. revert x4. induction x3 as [|l x3 IH]; intros x4; simpl; wr. Qed.
Hint Resolve cancel_leaves_w : wr.
Lemma cancel_journal_leaves_w o x1 x2 x3 : writes_only o (cancel_journal_leaves x1 x2 x3).
Proof. unfold cancel_journal_leaves. wr. Qed.
Hint Resolve cancel_journal_leaves_w : wr.
Lemma on_cancel_command_w x1 x2 x3 : writes_only (true, true) (on_cancel_command x1 x2 x3).
Proof. unfold on_cancel_command, reply_to_cancel. wr. Qed.
Hint Resolve on_cancel_command_w : wr.
Lemma cancel_v1_w q x1 x2 x3 : writes_only (true, q) (cancel_v1 x1 x2 x3).
Proof. unfold cancel_v1, reply_to_cancel. wr. Qed.
Hint Resolve cancel_v1_w : wr.
Lemma on_cancel_invocation_w x1 x2 : writes_only (true, true) (on_cancel_invocation x1 x2).
Proof. unfold on_cancel_invocation, reply_to_cancel. wr. Qed.
Hint Resolve on_cancel_invocation_w : wr.
Lemma on_terminate_invocation_w x1 : writes_only (true, true) (on_terminate_invocation x1).
Proof. unfold on_terminate_invocation. wr. Qed.
Hint Resolve on_terminate_invocation_w : wr.
Lemma on_notify_signal_w x1 : writes_only (true, true) (on_notify_signal x1).
Proof. unfold on_notify_signal. wr. Qed.
Hint Resolve on_notify_signal_w : wr.
Lemma on_pinned_deployment_w x1 x2 x3 : writes_only (true, true) (on_pinned_deployment x1 x2 x3).
Proof. unfold on_pinned_deployment, update_entry_metadata. wr. Qed.
Hint Resolve on_pinned_deployment_w : wr.
Lemma payload_w o x1 : writes_only o (payload x1).
Proof. unfold payload. wr. Qed.
Hint Resolve payload_w : wr.
Lemma completed_with_w o x1 x2 : writes_only o (completed_with x1 x2).
Proof. unfold completed_with. wr. Qed.
Hint Resolve completed_with_w : wr.
Lemma get_journal_entry_callee_invocation_id_w o x1 x2 : writes_only o (get_journal_entry_callee_invocation_id x1 x2).
Proof. unfold get_journal_entry_callee_invocation_id. wr. Qed.
Hint Resolve get_journal_entry_callee_invocation_id_w : wr.
Lemma apply_cancel_invocation_journal_entry_action_w o x1 x2 : writes_only o (apply_cancel_invocation_journal_entry_action x1 x2).
Proof. unfold apply_cancel_invocation_journal_entry_action. wr. Qed.
Hint Resolve apply_cancel_invocation_journal_entry_action_w : wr.
Lemma get_invocation_query_from_attach_invocation_target_w o x1 x2 : writes_only o (get_invocation_query_from_attach_invocation_target x1 x2).
Proof. unfold get_invocation_query_from_attach_invocation_target. wr. Qed.
Hint Resolve get_invocation_query_from_attach_invocation_target_w : wr.
Lemma attach_v1_w o x1 x2 x3 x4 : writes_only o (attach_v1 x1 x2 x3 x4).
Proof. unfold attach_v1. wr. Qed.
Hint Resolve attach_v1_w : wr.
Lemma call_v1_w o x1 x2 x3 x4 x5 x6 : writes_only o (call_v1 x1 x2 x3 x4 x5 x6).
Proof. unfold call_v1. wr. Qed.
Hint Resolve call_v1_w : wr.
Lemma complete_awakeable_v1_w o x1 x2 x3 : writes_only o (complete_awakeable_v1 x1 x2 x3).
Proof. unfold complete_awakeable_v1. wr. Qed.
Hint Resolve complete_awakeable_v1_w : wr.
Lemma get_promise_v1_w o x1 x2 x3 x4 : writes_only o (get_promise_v1 x1 x2 x3 x4).
Proof. unfold get_promise_v1. wr. Qed.
Hint Resolve get_promise_v1_w : wr.
Lemma peek_promise_v1_w o x1 x2 : writes_only o (peek_promise_v1 x1 x2).
Proof. unfold peek_promise_v1. wr. Qed.
Hint Resolve peek_promise_v1_w : wr.
Lemma complete_promise_v1_w o x1 x2 x3 : writes_only o (complete_promise_v1 x1 x2 x3).
Proof. unfold complete_promise_v1. wr. Qed.
Hint Resolve complete_promise_v1_w : wr.
Lemma state_value_w o x1 x2 : writes_only o (state_value x1 x2).
Proof. unfold state_value. wr. Qed.
Hint Resolve state_value_w : wr.
Lemma state_keys_v1_w o x1 : writes_only o (state_keys_v1 x1).
Proof. unfold state_keys_v1. wr. Qed.
Hint Resolve state_keys_v1_w : wr.
Lemma entry_effect_v1_w o x1 x2 x3 x4 : writes_only o (entry_effect_v1 x1 x2 x3 x4).
Proof. unfold entry_effect_v1, on_service. wr. Qed.
Hint Resolve entry_effect_v1_w : wr.
Lemma handle_journal_entry_w x1 x2 x3 x4 : writes_only (true, true) (handle_journal_entry x1 x2 x3 x4).
Proof. unfold handle_journal_entry. wr. Qed.
Hint Resolve handle_journal_entry_w : wr.
Lemma on_purge_command_w q x1 x2 x3 : writes_only (true, q) (on_purge_command x1 x2 x3).
Proof. unfold on_purge_command, reply_to_purge_invocation. wr. Qed.
Hint Resolve on_purge_command_w : wr.
Lemma on_purge_journal_command_w q x1 x2 x3 : writes_only (true, q) (on_purge_journal_command x1 x2 x3).
Proof. unfold on_purge_journal_command, reply_to_purge_journal. wr. Qed.
Hint Resolve on_purge_journal_command_w : wr.
Lemma on_manual_resume_command_w x1 : writes_only (true, true) (on_manual_resume_command x1).
Proof. unfold on_manual_resume_command, reply_to_resume_invocation. wr. Qed.
Hint Resolve on_manual_resume_command_w : wr.
Lemma put_copy_w (o : bool) x1 x2 x3 x4 : writes_only (o, true) (put_copy x1 x2 x3 x4).
Proof. unfold put_copy. wr. Qed.
Hint Resolve put_copy_w : wr.
Lemma copy_prefix_w (o : bool) x1 x2 x3 x4 x5 : writes_only (o, true) (copy_prefix x1 x2 x3 x4 x5).
Proof. revert x4 x5. induction x1 as [|x1 IH]; intros x4 x5; simpl; wr. Qed.
Hint Resolve copy_prefix_w : wr.
Lemma copy_completions_w (o : bool) x1 x2 x3 x4 x5 : writes_only (o, true) (copy_completions x1 x2 x3 x4 x5).
Proof. revert x4 x5. induction x1 as [|x1 IH]; intros x4 x5; simpl; wr. Qed.
Hint Resolve copy_completions_w : wr.
Lemma copy_journal_w (o : bool) x1 x2 x3 x4 : writes_only (o, true) (copy_journal x1 x2 x3 x4).
Proof. unfold copy_journal. wr. Qed.
Hint Resolve copy_journal_w : wr.
Lemma on_restart_as_new_command_w x1 : writes_only (true, true) (on_restart_as_new_command x1).
Proof. unfold on_restart_as_new_command. wr. Qed.
Hint Resolve on_restart_as_new_command_w : wr.
Lemma handle_attach_invocation_request_w x1 : writes_only (true, true) (handle_attach_invocation_request x1).
Proof. unfold handle_attach_invocation_request. wr. Qed.
Hint Resolve handle_attach_invocation_request_w : wr.
Lemma on_neo_invoke_timer_w q x1 : writes_only (true, q) (on_neo_invoke_timer x1).
Proof. unfold on_neo_invoke_timer. wr. Qed.
Hint Resolve on_neo_invoke_timer_w : wr.
Lemma on_timer_w x1 : writes_only (true, true) (on_timer x1).
Proof. unfold on_timer. wr. Qed.
Hint Resolve on_timer_w : wr.
Lemma on_journal_entry_w x1 x2 x3 x4 : writes_only (true, true) (on_journal_entry x1 x2 x3 x4).
Proof. unfold on_journal_entry. wr. Qed.
Hint Resolve on_journal_entry_w : wr.
Lemma any_resumable_w o x1 x2 : writes_only o (any_resumable x1 x2).
Proof. induction x2 as [|x x2 IH]; simpl; wr. Qed.
Hint Resolve any_resumable_w : wr.
Lemma on_invoker_effect_w x1 x2 : writes_only (true, true) (on_invoker_effect x1 x2).
Proof. unfold on_invoker_effect. wr. Qed.
Hint Resolve on_invoker_effect_w : wr.
Lemma try_invoker_effect_w x1 : writes_only (true, true) (try_invoker_effect x1).
Proof. unfold try_invoker_effect. wr. Qed.
Hint Resolve try_invoker_effect_w : wr.
Lemma on_scheduler_action_w q x1 x2 : writes_only (true, q) (on_scheduler_action x1 x2).
Proof. unfold on_scheduler_action. wr. Qed.
Hint Resolve on_scheduler_action_w : wr.
Lemma on_invocation_response_w x1 : writes_only (true, true) (on_invocation_response x1).
Proof. unfold on_invocation_response. wr. Qed.
Hint Resolve on_invocation_response_w : wr.

Lemma on_each_queue_w o f l : (∀ h t, writes_only o (f h t)) → writes_only o (on_each_queue f l).
Proof. intros Hf. unfold on_each_queue. wr. Qed.
Hint Resolve on_each_queue_w : wr.

Lemma on_apply_w r : writes_only (true, true) (on_apply r).
Proof. unfold on_apply. wr. Qed.

Lemma on_apply_synced r s : synced s → synced (on_apply r s).1.
Proof. intros Hs. by apply (on_apply_w r s). Qed.

Lemma on_apply_preserves (P : T → Prop) r s :
  (∀ f t, write (true, true) f → P t → P (f t)) →
  synced s → P (v_tables s) → P (v_tables (on_apply r s).1).
Proof.
  intros Hw [_ Hs]%(on_apply_w r). exact (writes_preserve _ P _ _ Hw Hs).
Qed.
End handlers.

#[export] Hint Resolve
  record_unique_ts_w read_status_w put_status_w put_status_calm register_timer_w do_delete_timer_w
  forward_notification_w send_abort_invocation_to_invoker_w reply_w
  send_submit_notification_if_needed_w send_ingress_response_w do_enqueue_into_outbox_w
  send_response_to_sink_w send_response_to_sinks_w do_append_response_sink_w mutate_state_w
  do_mutate_state_w enqueue_into_inbox_w vqueue_get_w vqueue_expect_w entry_status_expect_w
  vqueue_move_invocation_to_inbox_stage_w vqueue_reschedule_invocation_w
  vqueue_enqueue_state_mutation_w do_resume_service_w do_suspend_service_w
  do_store_completed_invocation_w do_free_invocation_w do_delete_inbox_entry_w
  append_journal_entry_v1_w do_delete_pending_sleep_timers_v1_w
  do_delete_pending_sleep_timers_v2_w do_drop_journal_w store_completion_w init_journal_w
  init_journal_opt_w init_journal_and_set_invoked_w vqueue_invoke_w
  init_journal_and_vqueue_invoke_w handle_duplicated_requests_w
  handle_service_invocation_execution_time_w handle_service_invocation_exclusive_handler_w
  vqueue_enqueue_w prepare_journal_w on_pre_flight_invocation_w on_service_invocation_w
  handle_external_state_mutation_w run_invocation_w run_state_mutation_w attempt_to_run_w
  pop_inbox_w consume_loop_w consume_inbox_w last_output_v2_w last_output_v1_w
  read_last_output_entry_result_w finish_invocation_w end_invocation_w kill_child_invocations_w
  kill_invoked_invocation_w kill_suspended_or_paused_invocation_w terminate_inboxed_invocation_w
  terminate_scheduled_invocation_w on_kill_invocation_w resume_invocation_command_w
  apply_event_w verify_or_migrate_journal_table_w metadata_expect_w keyed_service_w
  apply_get_lazy_state_w apply_set_state_w apply_clear_state_w apply_clear_all_state_w
  apply_get_lazy_state_keys_w apply_get_promise_w apply_peek_promise_w apply_complete_promise_w
  apply_sleep_w apply_call_w apply_attach_w apply_complete_awakeable_w apply_send_signal_w
  apply_command_w apply_notification_w append_entry_w append_entries_w
  on_journal_entry_command_w on_journal_notification_w on_suspend_command_w pause_invocation_w
  on_paused_command_w on_manual_pause_command_w yield_invocation_command_w
  on_notify_invocation_response_w on_notify_sleep_completion_w
  on_notify_get_invocation_output_response_w handle_completion_for_suspended_w
  handle_completion_for_paused_w handle_completion_for_invoked_w awaited_entries_w
  handle_completion_w cancel_journal_entry_with_w cancel_journal_leaf_w cancel_leaves_w
  cancel_journal_leaves_w on_cancel_command_w cancel_v1_w on_cancel_invocation_w
  on_terminate_invocation_w on_notify_signal_w on_pinned_deployment_w payload_w completed_with_w
  get_journal_entry_callee_invocation_id_w apply_cancel_invocation_journal_entry_action_w
  get_invocation_query_from_attach_invocation_target_w attach_v1_w call_v1_w
  complete_awakeable_v1_w get_promise_v1_w peek_promise_v1_w complete_promise_v1_w state_value_w
  state_keys_v1_w entry_effect_v1_w handle_journal_entry_w on_purge_command_w
  on_purge_journal_command_w on_manual_resume_command_w put_copy_w copy_prefix_w
  copy_completions_w copy_journal_w on_restart_as_new_command_w
  handle_attach_invocation_request_w on_neo_invoke_timer_w on_timer_w on_journal_entry_w
  any_resumable_w on_invoker_effect_w try_invoker_effect_w on_scheduler_action_w
  on_invocation_response_w on_each_queue_w : wr.

(** ** Triples

    [P] holds of the tables before, and the numbers in memory are the stored ones; if
    the handler succeeds, [Q] holds of its result and of the tables after it. *)

Definition triple {A} (P : T → Prop) (m : M A) (Q : A → T → Prop) : Prop := ∀ s,
  synced s → P (v_tables s) →
  match m s with (s', Ok a) => synced s' ∧ Q a (v_tables s') | _ => True end.

Lemma tr_bind {A B} P (m : M A) (k : A → M B) Q R :
  triple P m Q → (∀ a, triple (Q a) (k a) R) → triple P (sm_bind m k) R.
Proof.
  intros Hm Hk s Hn Hs. unfold sm_bind. specialize (Hm s Hn Hs). destruct (m s) as [s1 [a| |]]; [|done..].
  destruct Hm. by apply Hk.
Qed.
Lemma tr_pre {A} (P P' : T → Prop) (m : M A) Q : (∀ t, P' t → P t) → triple P m Q → triple P' m Q.
Proof. intros HP Hm s Hn Hs. by apply Hm, HP. Qed.
Lemma tr_post {A} P (m : M A) (Q Q' : A → T → Prop) :
  (∀ a t, Q a t → Q' a t) → triple P m Q → triple P m Q'.
Proof.
  intros HQ Hm s Hn Hs. specialize (Hm s Hn Hs). destruct (m s) as [s1 [a| |]]; [|done..].
  destruct Hm. auto.
Qed.
Lemma tr_ret {A} (P : T → Prop) (a : A) (Q : A → T → Prop) : (∀ t, P t → Q a t) → triple P (sm_ret a) Q.
Proof. intros HP s Hn Hs. split; [done|]. by apply HP. Qed.
Lemma tr_lift {A} (P : T → Prop) (x : res Error A) : triple P (sm_lift x) (λ a t, P t ∧ x = Ok a).
Proof. intros s Hn Hs. by destruct x. Qed.
Lemma tr_ok {A B} (P : T → Prop) (a : A) (k : A → M B) Q :
  triple P (k a) Q → triple P (let* x := sm_lift (Ok a) in k x) Q.
Proof. done. Qed.
Lemma tr_stuck {A} (P : T → Prop) (m : M A) Q : (∀ t, ¬ P t) → triple P m Q.
Proof. intros HP s Hn Hs. by apply HP in Hs. Qed.
Lemma tr_pure {A} (P : T → Prop) (φ : Prop) (m : M A) Q :
  (φ → triple P m Q) → triple (λ t, P t ∧ φ) m Q.
Proof. intros Hm s Hn [Hs Hφ]. by apply Hm. Qed.
Lemma tr_reads {A B} (P : T → Prop) (f : T → A) (k : A → M B) R :
  (∀ a, triple (λ t, P t ∧ f t = a) (k a) R) → triple P (let* x := reads f in k x) R.
Proof. intros Hk s Hn Hs. by apply (Hk (f (v_tables s)) s). Qed.

Lemma get_put_status id s (t : T) id' :
  get_invocation_status id' (put_invocation_status id s t)
  = if decide (id' = id) then s else get_invocation_status id' t.
Proof.
  unfold get_invocation_status, put_invocation_status.
  destruct s; simpl; (destruct (decide (id' = id)) as [->|];
    [by rewrite ?lookup_insert_eq, ?lookup_delete_eq|by rewrite ?lookup_insert_ne, ?lookup_delete_ne]).
Qed.

(** What the primitive writes of a handler preserve, the handler preserves. *)
Class Kept (o : bool * bool) (P : T → Prop) : Prop := kept f t : write o f → P t → P (f t).

Lemma tr_kept {A} o (P : T → Prop) `{!Kept o P} (m : M A) : writes_only o m → triple P m (λ _, P).
Proof.
  intros Hm s Hn Hs. destruct (Hm s Hn) as [Hn' Hr]. destruct (m s) as [s' [a| |]]; simpl in *; [|done..].
  split; [done|]. revert Hs. refine (writes_preserve o P _ _ _ Hr). intros f t. apply kept.
Qed.
Lemma tr_kept_seq {A B} o (P : T → Prop) `{!Kept o P} (m : M A) (k : A → M B) R :
  writes_only o m → (∀ a, triple P (k a) R) → triple P (sm_bind m k) R.
Proof. intros Hm Hk. eapply tr_bind; [by eapply tr_kept|done]. Qed.
Lemma tr_kept_end {A B} o (P Q : T → Prop) `{!Kept o Q} (m : M A) (k : A → M B) :
  triple P m (λ _, Q) → (∀ a, writes_only o (k a)) → triple P (sm_bind m k) (λ _, Q).
Proof. intros Hm Hk. eapply tr_bind; [done|]. intros a. by apply (tr_kept o). Qed.
