(* ===== verification/Sequences.v ===== *)
(** * Numbered messages

    The outbox numbers the messages for other partitions, which deduplicate by these
    numbers.  The theorem gives, for every record that the state machine applies, also
    for one that fails half-way, what it puts into the outbox: the messages of its
    actions, numbered from the tail on, at the width of the number. *)

From stdpp Require Import strings.
From S2P Require Import Prelude Clock Invocation InvocationStatus JournalV1 IdText VQueueMeta.
From S2P Require Import PartitionStore VQueueCache VQueue StateMachineBase InvocationLifecycle.
From S2P Require Import JournalEntries JournalV1Handlers StateMachine Replicas Demo Writes.

Open Scope Z_scope.

(** Messages with consecutive 64-bit numbers. *)
Definition numbered_from (n : Z) (ms : list OutboxMessage) : list (Z * OutboxMessage) :=
  imap (λ i m, (as_u64 (n + Z.of_nat i), m)) ms.

Definition put_all (l : list (Z * OutboxMessage)) (o : gmap Z OutboxMessage)
    : gmap Z OutboxMessage :=
  foldl (λ o x, <[ x.1 := x.2 ]> o) o l.

Lemma as_u64_id n : in_u64 n → as_u64 n = n.
Proof. apply wrap_small. Qed.
Lemma as_u64_add n k : as_u64 (as_u64 n + k) = as_u64 (n + k).
Proof. unfold as_u64, wrap. apply Zplus_mod_idemp_l. Qed.

Lemma numbered_snoc n ms m :
  numbered_from n (ms ++ [m]) = numbered_from n ms ++ [(as_u64 (n + Z.of_nat (List.length ms)), m)].
Proof. unfold numbered_from. rewrite imap_app. simpl. by rewrite Nat.add_0_r. Qed.

(** The outbox after some writes, given the messages that they sent. *)
Record outbox_after (x y : T * list (Z * OutboxMessage)) (ms : list OutboxMessage) : Prop := {
  oa_sent : y.2 = x.2 ++ numbered_from (t_outbox_tail x.1) ms;
  oa_rows : t_outbox y.1 = put_all (numbered_from (t_outbox_tail x.1) ms) (t_outbox x.1);
  oa_tail : t_outbox_tail y.1 = as_u64 (t_outbox_tail x.1 + Z.of_nat (List.length ms)) }.

Lemma wsteps_outbox o x y :
  in_u64 (t_outbox_tail x.1) → rtc (wstep o) x y → ∃ ms, outbox_after x y ms.
Proof.
  intros Hx. revert y. apply rtc_ind_r.
  - exists []. split; simpl; [by rewrite app_nil_r|done|]. by rewrite Z.add_0_r, as_u64_id.
  - intros y z _ (f & Hf & Ez & Hout) (ms & [Hs Hr Ht]).
    destruct Hout as [(E1 & E2 & E3)|(m & -> & E3)].
    + exists ms. split; [by rewrite E3|by rewrite E1|by rewrite E2].
    + exists (ms ++ [m]). split; [|rewrite Ez..].
      * by rewrite E3, numbered_snoc, Hs, Ht, (assoc_L app).
      * simpl. rewrite numbered_snoc. unfold put_all. rewrite foldl_app. simpl.
        by rewrite Ht, Hr.
      * simpl. rewrite Ht, as_u64_add, length_app. simpl. f_equal. lia.
Qed.

Lemma on_apply_outbox `{!Digests, !SlotKeys, !Ctx, !Base62, !Base64, !StateKeysCodec}
    (r : Record_) (s : PState) :
  synced s → in_u64 (t_outbox_tail (v_tables s)) →
  ∃ ms, outbox_after (outgoing s) (outgoing (on_apply r s).1) ms.
Proof. intros Hs Hu. eapply (wsteps_outbox (true, true)); [done|]. by apply (on_apply_w r s). Qed.

(** While the numbers do not wrap around, the messages are appended. *)
Lemma put_all_lookup n ms o i :
  0 ≤ n → n + Z.of_nat (List.length ms) ≤ u64_max →
  put_all (numbered_from n ms) o !! i =
    if decide (n ≤ i < n + Z.of_nat (List.length ms)) then ms !! Z.to_nat (i - n) else o !! i.
Proof.
  intros Hn. induction ms as [|m ms IH] using rev_ind; intros Hl.
  - simpl. rewrite decide_False; [done|lia].
  - rewrite length_app in *. simpl in *. rewrite numbered_snoc. unfold put_all. rewrite foldl_app.
    simpl. rewrite as_u64_id by (unfold in_u; lia).
    change (foldl _ _ (numbered_from n ms)) with (put_all (numbered_from n ms) o).
    destruct (decide (i = n + Z.of_nat (List.length ms))) as [->|Hi].
    + rewrite lookup_insert_eq, decide_True by lia.
      replace (Z.to_nat _) with (List.length ms) by lia. symmetry. by apply list_lookup_middle.
    + rewrite lookup_insert_ne, IH by (done || lia). repeat case_decide; try lia; [|done].
      rewrite lookup_app_l; [done|lia].
Qed.

(** What is below the tail stays, what is new is above it. *)
Lemma outbox_after_grows x y ms :
  outbox_after x y ms → 0 ≤ t_outbox_tail x.1 →
  t_outbox_tail x.1 + Z.of_nat (List.length ms) ≤ u64_max →
  t_outbox_tail y.1 = t_outbox_tail x.1 + Z.of_nat (List.length ms) ∧
  ∀ i, t_outbox y.1 !! i = if decide (t_outbox_tail x.1 ≤ i < t_outbox_tail y.1)
                           then ms !! Z.to_nat (i - t_outbox_tail x.1) else t_outbox x.1 !! i.
Proof.
  intros [_ Hr Ht] H0 Hu. rewrite as_u64_id in Ht by (unfold in_u; lia). split; [done|].
  intros i. rewrite Hr, Ht. by apply put_all_lookup.
Qed.

(** C17: what a record puts into the outbox.  Let the state machine apply a record for a
    key, successfully or not, with the tail of the outbox in memory as it is stored.
    There is a list of messages such that exactly these are written to the outbox
    table and announced by actions, with the numbers that follow the tail, modulo
    2^64; the new tail, in memory and stored, is the number after them.  As long as the
    numbers do not wrap around, the messages below the old tail are untouched, the
    numbers from the old tail to the new one have the new messages without a gap,
    and no message is at or above the new tail if none was at or above the old one. *)
Theorem outbox_append_exact `{!Digests, !SlotKeys, !Ctx, !Base62, !Base64, !StateKeysCodec}
    (r : Record_) (s : PState) :
  synced s → in_u64 (t_outbox_tail (v_tables s)) →
  let t := v_tables s in
  let s' := (on_apply r s).1 in
  let t' := v_tables s' in
  ∃ ms,
    sent (v_actions s') = sent (v_actions s) ++ numbered_from (t_outbox_tail t) ms ∧
    t_outbox t' = put_all (numbered_from (t_outbox_tail t) ms) (t_outbox t) ∧
    t_outbox_tail t' = as_u64 (t_outbox_tail t + Z.of_nat (List.length ms)) ∧
    outbox_tail_seq (v_numbers s') = t_outbox_tail t' ∧
    (t_outbox_tail t + Z.of_nat (List.length ms) ≤ u64_max →
     (∀ i, i < t_outbox_tail t → t_outbox t' !! i = t_outbox t !! i) ∧
     (∀ j m, ms !! j = Some m → t_outbox t' !! (t_outbox_tail t + Z.of_nat j) = Some m) ∧
     ((∀ i m, t_outbox t !! i = Some m → i < t_outbox_tail t) →
      ∀ i m, t_outbox t' !! i = Some m → i < t_outbox_tail t')).
Proof.
  intros Hs Hu t s' t'. destruct (on_apply_outbox r s Hs Hu) as [ms Ha]. exists ms.
  pose proof (on_apply_synced r s Hs) as Hs'. pose proof Ha as [Hsent Hrows Htail].
  split_and!; [done..| |].
  { fold s' in Hs'. unfold synced in Hs'. by rewrite Hs'. }
  intros Hl. destruct (outbox_after_grows _ _ _ Ha) as [Ht Hg]; [unfold in_u in Hu; simpl; lia|done|].
  simpl in Ht, Hg. fold t s' in Ht, Hg. fold t' in Ht, Hg. split_and!.
  - intros i Hi. rewrite Hg, decide_False; [done|lia].
  - intros j m Hj. pose proof (lookup_lt_Some _ _ _ Hj). rewrite Hg, decide_True by lia.
    by replace (Z.to_nat _) with j by lia.
  - intros Hb i m. rewrite Hg. case_decide as Hi; [lia|]. intros Hm. apply Hb in Hm. lia.
Qed.

(** A message for another partition is proxied: as the first one, and with the last
    number, after which the numbers start again. *)
Definition full_outbox : PState :=
  mkV (upd_outbox_tail (λ _, u64_max) empty_tables) (new_empty 4) [] (mkNumbers u64_max 0).
Definition demo_proxied (s : PState) : PState :=
  (@on_apply _ _ (demo_ctx demo_features 1700000000000 1) _ _ _ (CmdProxyThrough demo_invocation) s).1.

Lemma outbox_append_exact_witness :
  (∃ m, t_outbox (v_tables (demo_proxied (mkV empty_tables (new_empty 4) [] (mkNumbers 0 0)))) !! 0 = Some m) ∧
  t_outbox_tail (v_tables (demo_proxied full_outbox)) = 0.
Proof.
  split.
  - destruct (@outbox_append_exact _ _ (demo_ctx demo_features 1700000000000 1) _ _ _
      (CmdProxyThrough demo_invocation) (mkV empty_tables (new_empty 4) [] (mkNumbers 0 0)))
      as (ms & H1 & _ & H3 & _ & H4); [reflexivity|done|].
    assert (List.length (sent (v_actions (demo_proxied (mkV empty_tables (new_empty 4) [] (mkNumbers 0 0)))))
            = 1%nat) as Hl by (vm_compute; reflexivity).
    unfold demo_proxied in Hl. rewrite H1, length_app in Hl. unfold numbered_from in Hl.
    rewrite length_imap in Hl. simpl in Hl.
    destruct ms as [|m ms]; [done|]. exists m.
    apply (proj1 (proj2 (H4 ltac:(rewrite Hl; vm_compute; discriminate))) 0%nat). done.
  - vm_compute. reflexivity.
Defined.
