(* ===== verification/LockService.v ===== *)
(** * A lock service for virtual objects

    The specification of how exclusive handlers of an object take turns, apart from
    invocations, journals and records: roles of invocations, locks and inboxes, and
    the steps between them ([lock_step]).  Rule induction over the steps gives
    exclusion and that waiting invocations are served in the order of their numbers. *)

From S2P Require Import Prelude Invocation PartitionStore.

Open Scope Z_scope.

(** What an invocation is to the objects of its partition; [RQueued] is the role of
    what only a partition with virtual queues has. *)
Inductive Role :=
| RHolding (k : VoKey)
| RWaiting (k : VoKey) (seq : Z)
| RQueued
| ROther.

#[export] Instance Role_eq_dec : EqDecision Role.
Proof. solve_decision. Defined.

Definition update_role (id : InvocationId) (r : Role) (roles : InvocationId → Role)
    : InvocationId → Role := λ i, if decide (i = id) then r else roles i.

(** [open] is the object whose holder has just ended, before its inbox is consumed:
    nobody holds it, whatever the lock says. *)
Record locks_ok (open : option VoKey) (roles : InvocationId → Role) (vo : gmap VoKey InvocationId)
    (inbox : gmap (VoKey * Z) InboxEntry) (seq : Z) : Prop := {
  lo_held id k : roles id = RHolding k → vo !! k = Some id ∧ open ≠ Some k;
  lo_lock k id : vo !! k = Some id → open ≠ Some k → roles id = RHolding k;
  lo_inbox k n sid id : inbox !! (k, n) = Some (InboxInvocation sid id) → roles id = RWaiting k n;
  lo_waiting id k n : roles id = RWaiting k n → ∃ sid, inbox !! (k, n) = Some (InboxInvocation sid id);
  lo_busy k n e : inbox !! (k, n) = Some e → open ≠ Some k → is_Some (vo !! k);
  lo_seq k n e : inbox !! (k, n) = Some e → n < seq }.

Lemma locks_ok_ext o r r' v i n : (∀ id, r' id = r id) → locks_ok o r v i n → locks_ok o r' v i n.
Proof. intros E []. split; intros *; rewrite ?E; eauto. Qed.

Ltac roles := unfold update_role; intros; repeat (case_decide; simplify_eq); try congruence.

Lemma ok_start r v i n id k :
  locks_ok None r v i n → r id = ROther → v !! k = None →
  locks_ok None (update_role id (RHolding k) r) (<[ k := id ]> v) i n.
Proof.
  intros [H1 H2 H3 H4 H5 H6] Hr Hk. split.
  - intros id' k'. roles; [by rewrite lookup_insert_eq|]. destruct (H1 id' k'); [done|].
    rewrite lookup_insert_ne by congruence. done.
  - intros k' id' [[<- <-]|[Hne Hv]]%lookup_insert_Some _; [roles|]. roles.
    + by rewrite (H2 k' id Hv) in Hr.
    + by apply H2.
  - intros k' m sid id' Hi. apply H3 in Hi. roles.
  - intros id' k' m. roles. by apply H4.
  - intros k' m e He Ho. rewrite lookup_insert_is_Some. destruct (decide (k = k')); [by left|right].
    split; [done|]. by eapply H5.
  - done.
Qed.

Lemma ok_wait r v i n id k sid :
  locks_ok None r v i n → r id = ROther → is_Some (v !! k) →
  locks_ok None (update_role id (RWaiting k n) r) v (<[ (k, n) := InboxInvocation sid id ]> i) (n + 1).
Proof.
  intros [H1 H2 H3 H4 H5 H6] Hr Hk. split.
  - intros id' k'. roles. by apply H1.
  - intros k' id' Hv Ho. specialize (H2 _ _ Hv Ho). roles.
  - intros k' m sid' id' [[[= <- <-] [= <- <-]]|[_ Hi]]%lookup_insert_Some; [roles|].
    apply H3 in Hi. roles.
  - intros id' k' m. roles; [exists sid; by rewrite lookup_insert_eq|].
    destruct (H4 id' k' m) as [sid' Hi]; [done|]. exists sid'. rewrite lookup_insert_ne; [done|].
    intros [= -> ->]. apply H6 in Hi. lia.
  - intros k' m e [[[= <- <-] _]|[_ Hi]]%lookup_insert_Some Ho; [done|by eapply H5].
  - intros k' m e [[[= <- <-] _]|[_ Hi]]%lookup_insert_Some; [lia|]. apply H6 in Hi. lia.
Qed.

Lemma ok_mutation r v i n k m :
  locks_ok None r v i n → is_Some (v !! k) →
  locks_ok None r v (<[ (k, n) := InboxStateMutation m ]> i) (n + 1).
Proof.
  intros [H1 H2 H3 H4 H5 H6] Hk. split; [done|done| | | |].
  - intros k' m' sid' id' [[_ [=]]|[_ Hi]]%lookup_insert_Some. by eapply H3.
  - intros id' k' m' Hr. destruct (H4 id' k' m' Hr) as [sid' Hi]. exists sid'.
    rewrite lookup_insert_ne; [done|]. intros [= -> ->]. apply H6 in Hi. lia.
  - intros k' m' e [[[= <- <-] _]|[_ Hi]]%lookup_insert_Some Ho; [done|by eapply H5].
  - intros k' m' e [[[= <- <-] _]|[_ Hi]]%lookup_insert_Some; [lia|]. apply H6 in Hi. lia.
Qed.

Lemma ok_leave r v i n id k m :
  locks_ok None r v i n → r id = RWaiting k m →
  locks_ok None (update_role id ROther r) v (delete (k, m) i) n.
Proof.
  intros [H1 H2 H3 H4 H5 H6] Hr. destruct (H4 _ _ _ Hr) as [sid Hi]. split.
  - intros id' k'. roles. by apply H1.
  - intros k' id' Hv Ho. specialize (H2 _ _ Hv Ho). roles.
  - intros k' m' sid' id' [Hne Hi']%lookup_delete_Some. apply H3 in Hi'. roles.
  - intros id' k' m'. roles. destruct (H4 id' k' m') as [sid' Hi']; [done|]. exists sid'.
    apply lookup_delete_Some. split; [|done]. intros [= -> ->]. congruence.
  - intros k' m' e [_ Hi']%lookup_delete_Some. by eapply H5.
  - intros k' m' e [_ Hi']%lookup_delete_Some. by eapply H6.
Qed.

Lemma ok_release r v i n id k :
  locks_ok None r v i n → r id = RHolding k → locks_ok (Some k) (update_role id ROther r) v i n.
Proof.
  intros [H1 H2 H3 H4 H5 H6] Hr. destruct (H1 _ _ Hr) as [Hk _]. split.
  - intros id' k'. roles. destruct (H1 id' k'); [done|]. split; [done|]. congruence.
  - intros k' id' Hv Ho. specialize (H2 k' id' Hv ltac:(done)). roles.
  - intros k' m sid id' Hi. apply H3 in Hi. roles.
  - intros id' k' m. roles. by apply H4.
  - intros k' m e He _. by eapply H5.
  - done.
Qed.

Lemma ok_pop_mutation r v i n k m x :
  locks_ok (Some k) r v i n → i !! (k, m) = Some (InboxStateMutation x) →
  locks_ok (Some k) r v (delete (k, m) i) n.
Proof.
  intros [H1 H2 H3 H4 H5 H6] Hx. split; [done|done| | | |].
  - intros k' m' sid' id' [_ Hi']%lookup_delete_Some. by eapply H3.
  - intros id' k' m' Hr. destruct (H4 id' k' m' Hr) as [sid' Hi']. exists sid'.
    apply lookup_delete_Some. split; [|done]. intros [= -> ->]. congruence.
  - intros k' m' e [_ Hi']%lookup_delete_Some. by eapply H5.
  - intros k' m' e [_ Hi']%lookup_delete_Some. by eapply H6.
Qed.

Lemma ok_pop_invocation r v i n k m sid id :
  locks_ok (Some k) r v i n → i !! (k, m) = Some (InboxInvocation sid id) →
  locks_ok None (update_role id (RHolding k) r) (<[ k := id ]> v) (delete (k, m) i) n.
Proof.
  intros [H1 H2 H3 H4 H5 H6] Hx. pose proof (H3 _ _ _ _ Hx) as Hr. split.
  - intros id' k'. roles; [by rewrite lookup_insert_eq|]. destruct (H1 id' k'); [done|].
    rewrite lookup_insert_ne by congruence. done.
  - intros k' id' [[<- <-]|[Hne Hv]]%lookup_insert_Some _; [roles|].
    specialize (H2 k' id' Hv ltac:(congruence)). roles.
  - intros k' m' sid' id' [Hne Hi']%lookup_delete_Some. apply H3 in Hi'. roles.
  - intros id' k' m'. roles. destruct (H4 id' k' m') as [sid' Hi']; [done|]. exists sid'.
    apply lookup_delete_Some. split; [|done]. intros [= -> ->]. congruence.
  - intros k' m' e [_ Hi']%lookup_delete_Some _. rewrite lookup_insert_is_Some.
    destruct (decide (k = k')); [by left|right]. split; [done|]. eapply H5; [done|congruence].
  - intros k' m' e [_ Hi']%lookup_delete_Some. by eapply H6.
Qed.

Lemma ok_close r v i n k :
  locks_ok (Some k) r v i n → (∀ m, i !! (k, m) = None) → locks_ok None r (delete k v) i n.
Proof.
  intros [H1 H2 H3 H4 H5 H6] Hk. split; [| |done|done| |done].
  - intros id' k' Hr. destruct (H1 id' k' Hr). rewrite lookup_delete_ne by congruence. done.
  - intros k' id' [Hne Hv]%lookup_delete_Some _. apply H2; congruence.
  - intros k' m e He _. destruct (decide (k = k')) as [->|]; [by rewrite Hk in He|].
    rewrite lookup_delete_ne by done. eapply H5; [done|congruence].
Qed.

(** ** Steps *)

Record Objects := mkObjects {
  ob_open : option VoKey;
  ob_roles : InvocationId → Role;
  ob_locks : gmap VoKey InvocationId;
  ob_inbox : gmap (VoKey * Z) InboxEntry;
  ob_seq : Z }.

Definition objects_ok (o : Objects) : Prop :=
  locks_ok (ob_open o) (ob_roles o) (ob_locks o) (ob_inbox o) (ob_seq o).

(** The first entry of an inbox. *)
Definition first_of (i : gmap (VoKey * Z) InboxEntry) (k : VoKey) (n : Z) (e : InboxEntry) : Prop :=
  i !! (k, n) = Some e ∧ ∀ m e', i !! (k, m) = Some e' → n ≤ m.

(** The label is the object whose lock is handed over to a waiting invocation. *)
Inductive lock_step : option VoKey → Objects → Objects → Prop :=
| step_same r r' v i n o :
    (∀ id, r' id = r id) → lock_step None (mkObjects o r v i n) (mkObjects o r' v i n)
| step_start r v i n id k :
    r id = ROther → v !! k = None →
    lock_step None (mkObjects None r v i n)
      (mkObjects None (update_role id (RHolding k) r) (<[ k := id ]> v) i n)
| step_wait r v i n id k sid :
    r id = ROther → is_Some (v !! k) →
    lock_step None (mkObjects None r v i n)
      (mkObjects None (update_role id (RWaiting k n) r) v (<[ (k, n) := InboxInvocation sid id ]> i) (n + 1))
| step_mutation r v i n k m :
    is_Some (v !! k) →
    lock_step None (mkObjects None r v i n)
      (mkObjects None r v (<[ (k, n) := InboxStateMutation m ]> i) (n + 1))
| step_leave r v i n id k m :
    r id = RWaiting k m →
    lock_step None (mkObjects None r v i n) (mkObjects None (update_role id ROther r) v (delete (k, m) i) n)
| step_release r v i n id k :
    r id = RHolding k →
    lock_step None (mkObjects None r v i n) (mkObjects (Some k) (update_role id ROther r) v i n)
| step_pop_mutation r v i n k m x :
    first_of i k m (InboxStateMutation x) →
    lock_step None (mkObjects (Some k) r v i n) (mkObjects (Some k) r v (delete (k, m) i) n)
| step_pop_invocation r v i n k m sid id :
    first_of i k m (InboxInvocation sid id) →
    lock_step (Some k) (mkObjects (Some k) r v i n)
      (mkObjects None (update_role id (RHolding k) r) (<[ k := id ]> v) (delete (k, m) i) n)
| step_close r v i n k :
    (∀ m, i !! (k, m) = None) →
    lock_step None (mkObjects (Some k) r v i n) (mkObjects None r (delete k v) i n).

Lemma lock_step_ok l a b : lock_step l a b → objects_ok a → objects_ok b.
Proof.
  unfold objects_ok. intros Hs Ho.
  destruct Hs as [r r' v i n o Hr|r v i n id k Hr Hv|r v i n id k sid Hr Hv|r v i n k m Hv|r v i n id k m Hr
    |r v i n id k Hr|r v i n k m x [Hi _]|r v i n k m sid id [Hi _]|r v i n k Hi]; simpl in *.
  - exact (locks_ok_ext _ _ _ _ _ _ Hr Ho).
  - by apply ok_start.
  - by apply ok_wait.
  - by apply ok_mutation.
  - exact (ok_leave _ _ _ _ _ _ _ Ho Hr).
  - by apply ok_release.
  - exact (ok_pop_mutation _ _ _ _ _ _ _ Ho Hi).
  - exact (ok_pop_invocation _ _ _ _ _ _ _ _ Ho Hi).
  - by apply ok_close.
Qed.

(** Executions, with the hand-overs in their order. *)
Inductive lock_steps : list VoKey → Objects → Objects → Prop :=
| steps_nil a : lock_steps [] a a
| steps_snoc ls l a b c :
    lock_steps ls a b → lock_step l b c → lock_steps (ls ++ option_list l) a c.

Lemma lock_steps_ok ls a b : lock_steps ls a b → objects_ok a → objects_ok b.
Proof. induction 1; [done|]. intros. eapply lock_step_ok; eauto. Qed.

Lemma lock_steps_trans ls1 ls2 a b c :
  lock_steps ls1 a b → lock_steps ls2 b c → lock_steps (ls1 ++ ls2) a c.
Proof.
  intros H1 H2. revert H1. induction H2 as [|ls l b c d _ IH Hs]; intros H1; [by rewrite app_nil_r|].
  rewrite (assoc_L app). econstructor; [by apply IH|done].
Qed.

(** ** Who waits, advances *)

(** The invocations that wait for the object with a smaller number. *)
Definition is_ahead (k : VoKey) (n : Z) (kv : (VoKey * Z) * InboxEntry) : Prop :=
  kv.1.1 = k ∧ kv.1.2 < n ∧ match kv.2 with InboxInvocation _ _ => True | InboxStateMutation _ => False end.
#[export] Instance is_ahead_dec k n kv : Decision (is_ahead k n kv).
Proof. unfold is_ahead. destruct kv as [[k' m] []]; simpl; apply _. Defined.

Definition ahead (k : VoKey) (n : Z) (i : gmap (VoKey * Z) InboxEntry) : nat :=
  size (filter (is_ahead k n) i).

Lemma ahead_mono k n i i' : filter (is_ahead k n) i' ⊆ filter (is_ahead k n) i → (ahead k n i' ≤ ahead k n i)%nat.
Proof. intros Hs. unfold ahead. rewrite <- !size_dom. by apply subseteq_size, subseteq_dom. Qed.

Lemma ahead_delete k n i key : (ahead k n (delete key i) ≤ ahead k n i)%nat.
Proof. apply ahead_mono, map_filter_subseteq_mono, delete_subseteq. Qed.

Lemma ahead_insert k n i k' m e : n ≤ m → ahead k n (<[ (k', m) := e ]> i) = ahead k n (delete (k', m) i).
Proof.
  intros Hm. unfold ahead. rewrite map_filter_insert_False; [by rewrite map_filter_delete|].
  intros (_ & Hlt & _). simpl in Hlt. lia.
Qed.

Lemma ahead_pop k n i m sid id :
  i !! (k, m) = Some (InboxInvocation sid id) → m < n →
  ahead k n i = S (ahead k n (delete (k, m) i)).
Proof.
  intros Hi Hm. unfold ahead. rewrite map_filter_delete, map_size_delete_Some; [|eexists].
  - assert (size (filter (is_ahead k n) i) ≠ 0%nat); [|lia]. rewrite map_size_ne_0_lookup.
    exists (k, m). eexists. by apply map_lookup_filter_Some.
  - by apply map_lookup_filter_Some.
Qed.

(** An invocation waits with at most [j] others ahead, or does so no more; it cannot
    wait with the same number again. *)
Definition waits_at_most (id : InvocationId) (k : VoKey) (n : Z) (j : nat) (o : Objects) : Prop :=
  n < ob_seq o ∧ (ob_roles o id = RWaiting k n → (ahead k n (ob_inbox o) ≤ j)%nat).
Definition waits_no_more (id : InvocationId) (k : VoKey) (n : Z) (o : Objects) : Prop :=
  n < ob_seq o ∧ ob_roles o id ≠ RWaiting k n.

Lemma no_more_step l a b id k n : lock_step l a b → waits_no_more id k n a → waits_no_more id k n b.
Proof.
  intros Hs [Hn Hr]. unfold waits_no_more.
  destruct Hs; simpl in *; (split; [lia|]); try congruence; unfold update_role; case_decide; try congruence.
  intros [= -> ->]. lia.
Qed.

Lemma waiting_step l a b id k n j :
  lock_step l a b → objects_ok a → waits_at_most id k n j a →
  waits_at_most id k n j b ∧
  (l = Some k → match j with O => waits_no_more id k n b | S j => waits_at_most id k n j b end).
Proof.
  intros Hs Ho [Hn Hj].
  destruct Hs as [r r' v i q o Hr|r v i q id' k' Hr Hv|r v i q id' k' sid Hr Hv|r v i q k' m Hv|r v i q id' k' m Hr
    |r v i q id' k' Hr|r v i q k' m x Hi|r v i q k' m sid id' [Hi Hmin]|r v i q k' Hi]; simpl in *;
    try (split; [|done]); unfold waits_at_most, waits_no_more in *; simpl in *.
  - rewrite Hr. done.
  - split; [done|]. unfold update_role. case_decide; [done|]. exact Hj.
  - split; [lia|]. unfold update_role. case_decide; [intros [= -> ->]; lia|].
    intros Hw. rewrite ahead_insert by lia. etrans; [apply ahead_delete|auto].
  - split; [lia|]. intros Hw. rewrite ahead_insert by lia. etrans; [apply ahead_delete|auto].
  - split; [done|]. unfold update_role. case_decide; [done|]. intros Hw.
    etrans; [apply ahead_delete|auto].
  - split; [done|]. unfold update_role. case_decide; [done|]. exact Hj.
  - split; [done|]. intros Hw. etrans; [apply ahead_delete|auto].
  - assert (update_role id' (RHolding k') r id = RWaiting k n → k' = k →
      ahead k n i = S (ahead k n (delete (k', m) i))) as Hpop.
    { unfold update_role. case_decide as E; [done|]. intros Hw ->.
      destruct (lo_waiting _ _ _ _ _ Ho _ _ _ Hw) as [sid' Hi']. simpl in *.
      eapply ahead_pop; [done|]. specialize (Hmin n _ Hi').
      destruct (decide (m = n)) as [->|]; [congruence|lia]. }
    assert (update_role id' (RHolding k') r id = RWaiting k n → r id = RWaiting k n) as Hw'
      by (unfold update_role; by case_decide).
    split; [split; [done|]; intros Hw; etrans; [apply ahead_delete|auto]|].
    intros [= ->]. destruct j as [|j].
    + split; [done|]. intros Hw. specialize (Hpop Hw eq_refl). specialize (Hj (Hw' Hw)). lia.
    + split; [done|]. intros Hw. specialize (Hpop Hw eq_refl). specialize (Hj (Hw' Hw)). lia.
  - done.
Qed.

Lemma waiting_lock a b id k n :
  lock_step None a b → objects_ok a → ob_roles a id = RWaiting k n → ob_roles b id = RWaiting k n →
  ob_locks b !! k = ob_locks a !! k.
Proof.
  intros Hs Ho Ha Hb. destruct (lo_waiting _ _ _ _ _ Ho _ _ _ Ha) as [sid0 Hi0].
  inversion Hs; subst; simpl in *; try done.
  - destruct (lo_busy _ _ _ _ _ Ho _ _ _ Hi0) as [h Hh]; [done|]. simpl in Hh.
    rewrite lookup_insert_ne; [done|]. congruence.
  - rewrite lookup_delete_ne; [done|]. intros ->. congruence.
Qed.

(** How often the lock of an object is handed over. *)
Definition handed_over (k : VoKey) (ls : list VoKey) : nat :=
  List.length (filter (λ k', k' = k) ls).

Lemma handed_over_app k l1 l2 : handed_over k (l1 ++ l2) = (handed_over k l1 + handed_over k l2)%nat.
Proof. unfold handed_over. by rewrite filter_app, length_app. Qed.

Lemma handed_over_label k l :
  handed_over k (option_list l) = if decide (l = Some k) then 1%nat else 0%nat.
Proof.
  unfold handed_over. destruct l as [k'|]; simpl; [|done].
  rewrite filter_cons, filter_nil. repeat case_decide; (done || congruence).
Qed.

(** Every hand-over brings a waiting invocation closer to its turn. *)
Lemma waiting_steps ls a b id k n j :
  lock_steps ls a b → objects_ok a → waits_at_most id k n j a →
  if decide (handed_over k ls ≤ j)%nat
  then waits_at_most id k n (j - handed_over k ls) b else waits_no_more id k n b.
Proof.
  intros Hs Ho Hw. induction Hs as [a|ls l a b c Hs IH Hl]; [by rewrite Nat.sub_0_r|].
  specialize (IH Ho Hw). pose proof (lock_steps_ok _ _ _ Hs Ho) as Hb. rewrite handed_over_app.
  destruct (decide (handed_over k ls ≤ j)%nat) as [Hle|].
  - destruct (waiting_step _ _ _ _ _ _ _ Hl Hb IH) as [H1 H2].
    rewrite handed_over_label. destruct (decide (l = Some k)) as [Hk|].
    + specialize (H2 Hk). destruct (j - handed_over k ls)%nat as [|j'] eqn:E.
      * by rewrite decide_False by lia.
      * rewrite decide_True by lia. by replace (j - (handed_over k ls + 1))%nat with j' by lia.
    + by rewrite Nat.add_0_r, decide_True.
  - apply (no_more_step _ _ _ _ _ _ Hl) in IH. case_decide; [lia|done].
Qed.

(** While it waits, the lock stays with its holder unless it is handed over. *)
Lemma waiting_lock_steps ls a b id k n :
  lock_steps ls a b → objects_ok a → n < ob_seq a → ob_roles a id = RWaiting k n →
  ob_roles b id = RWaiting k n → handed_over k ls = 0%nat → ob_locks b !! k = ob_locks a !! k.
Proof.
  intros Hs Ho Hn Ha. induction Hs as [a|ls l a b c Hs IH Hl]; [done|]. intros Hc Hk.
  rewrite handed_over_app in Hk. pose proof (lock_steps_ok _ _ _ Hs Ho) as Hb.
  pose proof (waiting_steps _ _ _ id k n (ahead k n (ob_inbox a)) Hs Ho) as Hw.
  unfold waits_at_most at 1 in Hw. specialize (Hw (conj Hn (λ _, le_n _))).
  rewrite decide_True in Hw by lia. destruct Hw as [Hnb _].
  destruct (decide (ob_roles b id = RWaiting k n)) as [Hrb|Hrb].
  - rewrite <- IH by (done || lia). destruct l as [k'|]; [|by eapply waiting_lock].
    rewrite handed_over_label in Hk. destruct (decide (Some k' = Some k)); [lia|].
    inversion Hl; subst; simpl in *. apply lookup_insert_ne. congruence.
  - assert (waits_no_more id k n b) as Hx by done. by apply (no_more_step _ _ _ _ _ _ Hl) in Hx as [_ ?].
Qed.
