(* ===== verification/ObjectLocks.v ===== *)
(** * Exclusive handlers of virtual objects

    In a partition without virtual queues, the exclusive handlers of an object are
    serialised by its lock ([VirtualObjectStatus]) and its inbox.  The invariant
    [obj_inv] relates the three tables involved: an exclusive invocation is in
    flight exactly if it holds the lock of its object, an invocation is inboxed
    exactly if the inbox has its entry, and an inbox is empty unless the lock is
    held.  Every record preserves it.

    A handler sees of a status only its [role]; most handlers keep the roles, the
    locks, the inboxes and the queue entries as they are ([view_kept]).  The ones
    that do not are the start of an invocation, its end, the termination of a
    waiting one and a state mutation from outside. *)

From stdpp Require Import strings.
From S2P Require Import Prelude UnresolvedFuture Clock Invocation InvocationStatus JournalV1.
From S2P Require Import IdText VQueueMeta PartitionStore VQueueCache VQueue StateMachineBase.
From S2P Require Import InvocationLifecycle JournalEntries JournalV1Handlers StateMachine.
From S2P Require Import Replicas Demo Writes LockService.

Open Scope Z_scope.

(** ** Roles *)

(** The object that an invocation of the target excludes others from. *)
Definition exclusive_key `{!Digests} (t : InvocationTarget) : option VoKey :=
  if is_exclusive_target t then vo_key <$> as_keyed_service_id t else None.

Definition in_flight_role `{!Digests} (m : InFlightInvocationMetadata) : Role :=
  match if_vqueue_id m with
  | Some _ => RQueued
  | None => match exclusive_key (if_invocation_target m) with
            | Some k => RHolding k
            | None => ROther
            end
  end.

Definition role `{!Digests} (s : InvocationStatus) : Role :=
  match s with
  | Invoked m | Suspended m _ | Paused m => in_flight_role m
  | Inboxed i =>
      match pf_vqueue_id (inb_metadata i) with
      | Some _ => RQueued
      | None => match exclusive_key (pf_invocation_target (inb_metadata i)) with
                | Some k => RWaiting k (inb_sequence_number i)
                | None => RQueued
                end
      end
  | Scheduled i => match pf_vqueue_id (sch_metadata i) with Some _ => RQueued | None => ROther end
  | Completed c => match co_vqueue_id c with Some _ => RQueued | None => ROther end
  | Free => ROther
  end.

Definition role_of `{!Digests} (id : InvocationId) (t : T) : Role := role (get_invocation_status id t).

(** What the exclusion of handlers depends on. *)
Record same_view `{!Digests} (t t' : T) : Prop := {
  sv_roles : ∀ id, role_of id t' = role_of id t;
  sv_vo : t_vo t' = t_vo t;
  sv_inbox : t_inbox t' = t_inbox t;
  sv_seq : t_inbox_seq t' = t_inbox_seq t;
  sv_entry : t_vqentry t' = t_vqentry t }.

#[export] Instance same_view_preorder `{!Digests} : PreOrder same_view.
Proof.
  split; [by split|]. intros t1 t2 t3 [] []. split; try congruence.
Qed.

Lemma quiet_view `{!Digests} f t : write (false, true) f → same_view t (f t).
Proof.
  intros Hf. destruct Hf; try discriminate; try (by split);
    try (unfold put_journal_entry_v2; by destruct (se_inner e)).
Qed.

Lemma quiet_same_view `{!Digests} {A} (m : M A) s :
  writes_only (false, true) m → synced s →
  synced (m s).1 ∧ same_view (v_tables s) (v_tables (m s).1).
Proof.
  intros Hm Hs. destruct (Hm s Hs) as [Hs' Hr]. split; [done|].
  revert Hr. generalize (outgoing s) (outgoing (m s).1) (eq_refl : v_tables s = (outgoing s).1)
    (eq_refl : v_tables (m s).1 = (outgoing (m s).1).1). intros x y -> -> Hr.
  refine (writes_preserve _ (same_view x.1) _ _ _ Hr _); [|reflexivity].
  intros f t Hf Ht. etrans; [exact Ht|by apply quiet_view].
Qed.

Lemma put_status_view `{!Digests} id s t :
  role s = role_of id t → same_view t (put_invocation_status id s t).
Proof.
  intros Hr. split; try (by destruct s). intros id'. unfold role_of. rewrite get_put_status.
  case_decide; [by subst|done].
Qed.

(** ** Handlers that keep the view

    [P] holds before, with the numbers in memory as they are stored; [Q] holds of the
    result. *)

Definition view_kept `{!Digests} {A} (P : T → Prop) (m : M A) (Q : A → Prop) : Prop := ∀ s,
  synced s → P (v_tables s) →
  match m s with
  | (s', Ok a) => synced s' ∧ same_view (v_tables s) (v_tables s') ∧ Q a
  | _ => True
  end.

(** No invocation is in a virtual queue. *)
Record calm `{!Digests} (t : T) : Prop := {
  ca_roles : ∀ id, role_of id t ≠ RQueued;
  ca_entry : t_vqentry t = ∅ }.

(** What is known of the invocation that a record is about. *)
Record knows `{!Digests} (id : InvocationId) (r : Role) (t : T) : Prop := {
  kn_calm : calm t;
  kn_role : role_of id t = r }.

Class ViewStable `{!Digests} (P : T → Prop) : Prop := {
  view_stable t t' : same_view t t' → P t → P t';
  stable_calm t : P t → calm t }.

#[export] Instance calm_stable `{!Digests} : ViewStable calm.
Proof.
  split; [|done]. intros t t' Hv [Hr He]. split; [|by rewrite (sv_entry _ _ Hv)].
  intros id. by rewrite (sv_roles _ _ Hv).
Qed.
#[export] Instance knows_stable `{!Digests} id r : ViewStable (knows id r).
Proof.
  split; [|by intros t []]. intros t t' Hv [Hc Hr].
  split; [by eapply view_stable|by rewrite (sv_roles _ _ Hv)].
Qed.

Lemma vk_weaken `{!Digests} {A} (P P' : T → Prop) (m : M A) Q :
  (∀ t, P' t → P t) → view_kept P m Q → view_kept P' m Q.
Proof. intros HP Hm s Hn Hs. by apply Hm, HP. Qed.
Lemma vk_calm `{!Digests} {A} P `{!ViewStable P} (m : M A) Q : view_kept calm m Q → view_kept P m Q.
Proof. apply vk_weaken, stable_calm. Qed.
Lemma vk_result `{!Digests} {A} P (m : M A) (Q Q' : A → Prop) :
  (∀ a, Q a → Q' a) → view_kept P m Q → view_kept P m Q'.
Proof.
  intros HQ Hm s Hn Hs. specialize (Hm s Hn Hs). destruct (m s) as [s' [a| |]]; [|done..].
  destruct Hm as (? & ? & ?). auto.
Qed.
Lemma vk_bind `{!Digests} {A B} P `{!ViewStable P} (m : M A) (k : A → M B) Q R :
  view_kept P m Q → (∀ a, Q a → view_kept P (k a) R) → view_kept P (sm_bind m k) R.
Proof.
  intros Hm Hk s Hn Hs. unfold sm_bind. specialize (Hm s Hn Hs). destruct (m s) as [s1 [a| |]]; [|done..].
  destruct Hm as (Hn' & Hv & Ha). specialize (Hk a Ha s1 Hn' (view_stable _ _ Hv Hs)).
  destruct (k a s1) as [s2 [b| |]]; [|done..]. destruct Hk as (Hn'' & Hv' & Hb).
  split_and!; [done|by etrans|done].
Qed.
Lemma vk_quiet `{!Digests} {A} P (m : M A) : writes_only (false, true) m → view_kept P m (λ _, True).
Proof.
  intros Hm s Hn _. destruct (quiet_same_view m s Hm Hn) as [? ?]. destruct (m s) as [s' [a| |]]; done.
Qed.
Lemma vk_ret `{!Digests} {A} P (a : A) (Q : A → Prop) : Q a → view_kept P (sm_ret a) Q.
Proof. by intros Ha s Hn _. Qed.
Lemma vk_bind_ret `{!Digests} {A B} P (a : A) (k : A → M B) Q :
  view_kept P (k a) Q → view_kept P (let* x := sm_ret a in k x) Q.
Proof. done. Qed.
Lemma vk_lift `{!Digests} {A} P (x : res Error A) (Q : A → Prop) :
  (∀ a, x = Ok a → Q a) → view_kept P (sm_lift x) Q.
Proof. intros Hx s Hn _. destruct x; [|done..]. split_and!; [done|done|by apply Hx]. Qed.
Lemma vk_when `{!Digests} P b (m : M unit) :
  view_kept P m (λ _, True) → view_kept P (sm_when b m) (λ _, True).
Proof. destruct b; [done|]. intros _. by apply vk_ret. Qed.
Lemma vk_put_status `{!Digests} id r s :
  role s = r → view_kept (knows id r) (put_status id s) (λ _, True).
Proof.
  intros Hr s' Hn [_ Ht]. split_and!; [|by apply put_status_view; rewrite Hr|done].
  unfold synced in *. simpl. rewrite Hn. by destruct s.
Qed.
Lemma vk_free `{!Digests} id : view_kept (knows id ROther) (do_free_invocation id) (λ _, True).
Proof. intros s Hn [_ Hs]. split_and!; [exact Hn|by apply (put_status_view id Free)|done]. Qed.

(** Reading a status tells the role of the invocation. *)
Lemma vk_read_status `{!Digests} {A} P `{!ViewStable P} id (k : InvocationStatus → M A) Q :
  (∀ st, role st ≠ RQueued → view_kept (knows id (role st)) (k st) Q) →
  view_kept P (let* st := read_status id in k st) Q.
Proof.
  intros Hk s Hn Hs. pose proof (stable_calm _ Hs) as Hc.
  apply (Hk (get_invocation_status id (v_tables s))); [apply Hc|done|by split].
Qed.
Lemma vk_read_entry `{!Digests} {A} P `{!ViewStable P} b (k : option EntryStatusHeader → M A) Q :
  view_kept P (k None) Q → view_kept P (let* hd := reads (get_vqueue_entry_status b) in k hd) Q.
Proof.
  intros Hk s Hn Hs. specialize (Hk s Hn Hs). destruct (stable_calm _ Hs) as [_ He].
  unfold sm_bind, reads, sm_gets, get_vqueue_entry_status. by rewrite He, lookup_empty.
Qed.

Create HintDb vk discriminated.

Ltac vk_leaf :=
  lazymatch goal with
  | |- view_kept _ (sm_ret _) _ => apply vk_ret
  | |- view_kept _ (sm_lift Panic) _ => apply vk_lift; discriminate
  | |- view_kept _ (sm_lift (Err _)) _ => apply vk_lift; discriminate
  | |- view_kept _ (sm_lift _) _ => apply vk_lift; intros ? ?
  | |- view_kept _ (put_status _ _) _ => apply vk_put_status
  end.
(** A known handler, or one that makes no write to the tables of the view. *)
Ltac vk_known :=
  first
    [ solve [eauto 2 with vk nocore]
    | solve [apply vk_calm; [apply _|eauto 2 with vk nocore]]
    | solve [apply vk_quiet; wr] ].
Ltac vk :=
  cbv zeta;
  lazymatch goal with
  | |- view_kept _ (sm_bind (read_status _) _) _ => apply vk_read_status; [apply _|]; intros ? ?; vk
  | |- view_kept _ (sm_bind (reads (get_vqueue_entry_status _)) _) _ =>
      apply vk_read_entry; [apply _|]; vk
  | |- view_kept _ (sm_bind (sm_ret _) _) _ => apply vk_bind_ret; vk
  | |- view_kept _ (sm_bind (put_status _ _) _) _ =>
      eapply vk_bind; [apply _|apply vk_put_status|]; [|intros ? ?; vk]
  | |- view_kept _ (sm_bind _ _) _ => eapply vk_bind; [apply _|vk_known|]; intros ? ?; vk
  | |- view_kept _ (sm_when _ _) _ => first [vk_known | apply vk_when; vk]
  | |- view_kept _ (match ?x with _ => _ end) _ => destruct x eqn:?; vk
  | |- _ => first [vk_known | vk_leaf | idtac]
  end.

(** ** Handlers about one invocation *)

Section keeping.
Context `{!Digests, !SlotKeys, !Ctx, !Base62, !Base64, !StateKeysCodec}.

Lemma not_queued m : in_flight_role m ≠ RQueued → if_vqueue_id m = None.
Proof. unfold in_flight_role. by destruct (if_vqueue_id m). Qed.
Lemma metadata_role st m : get_invocation_metadata st = Some m → role st = in_flight_role m.
Proof. destruct st; intros [= <-]; done. Qed.
Lemma map_metadata_role f st m :
  get_invocation_metadata st = Some m → role (map_invocation_metadata f st) = in_flight_role (f m).
Proof. destruct st; intros [= <-]; done. Qed.
Lemma map_timestamps_role f st : role (map_timestamps f st) = role st.
Proof. by destruct st. Qed.
Lemma map_journal_role f st : role (map_journal_metadata f st) = role st.
Proof. by destruct st. Qed.
Lemma map_sinks_role f st : role (map_response_sinks f st) = role st.
Proof. by destruct st. Qed.

Lemma vk_entry_expect P `{!ViewStable P} id Q : view_kept P (entry_status_expect id) Q.
Proof. unfold entry_status_expect. apply vk_read_entry; [done|]. by apply vk_lift. Qed.

Lemma do_append_response_sink_vk id st sink :
  view_kept (knows id (role st)) (do_append_response_sink id st sink) (λ _, True).
Proof. unfold do_append_response_sink. vk. by rewrite map_timestamps_role, map_sinks_role. Qed.
Hint Resolve do_append_response_sink_vk : vk.

Lemma do_resume_service_vk id m :
  in_flight_role m ≠ RQueued →
  view_kept (knows id (in_flight_role m)) (do_resume_service id m) (λ _, True).
Proof.
  intros Hm%not_queued. unfold do_resume_service. simpl. rewrite Hm. vk. done.
Qed.
Lemma do_suspend_service_vk id m l :
  in_flight_role m ≠ RQueued →
  view_kept (knows id (in_flight_role m)) (do_suspend_service id m l) (λ _, True).
Proof.
  intros Hm%not_queued. unfold do_suspend_service. simpl. rewrite Hm. vk. done.
Qed.
Lemma append_journal_entry_v1_vk id st i e :
  view_kept (knows id (role st)) (append_journal_entry_v1 id st i e) (λ _, True).
Proof.
  unfold append_journal_entry_v1. vk. by rewrite map_timestamps_role, map_journal_role.
Qed.
Hint Resolve append_journal_entry_v1_vk : vk.

Lemma resume_invocation_command_vk P `{!ViewStable P} id st :
  role st ≠ RQueued →
  view_kept P (resume_invocation_command id st) (λ st', role st' = role st).
Proof.
  intros Hr. unfold resume_invocation_command.
  destruct (get_invocation_metadata st) as [m|] eqn:Hm; [|by apply vk_ret].
  rewrite (metadata_role _ _ Hm) in *. apply not_queued in Hr. simpl. rewrite Hr. vk. done.
Qed.
Lemma verify_or_migrate_vk P `{!ViewStable P} id m :
  view_kept P (verify_or_migrate_journal_table id m) (λ m', in_flight_role m' = in_flight_role m).
Proof. unfold verify_or_migrate_journal_table. vk; done. Qed.
Lemma apply_notification_vk P `{!ViewStable P} id st n i :
  role st ≠ RQueued →
  view_kept P (apply_notification id st n i) (λ st', role st' = role st).
Proof.
  intros Hr. unfold apply_notification. destruct st as [| |m|m f|m| |]; try (by apply vk_ret).
  - destruct (resolve _ f) as [f' b]. destruct b; [|by apply vk_ret].
    exact (resume_invocation_command_vk P id (Suspended m f') Hr).
  - case_bool_decide; [|by apply vk_ret]. by apply resume_invocation_command_vk.
Qed.
Lemma append_entry_vk P `{!ViewStable P} id st e :
  role st ≠ RQueued → view_kept P (append_entry id st e) (λ r, role r.1 = role st).
Proof.
  intros Hr. unfold append_entry. eapply vk_bind; [done|vk_known|]. intros jm _. cbv zeta.
  eapply (vk_bind P _ _ (λ x : InvocationStatus * list Completion * list Z, role x.1.1 = role st)).
  - destruct e as [raw|n]; [vk; done|].
    eapply vk_bind; [done|by apply apply_notification_vk|]. intros st' E. by apply vk_ret.
  - intros [[st' cs] rel] E. simpl in E. vk. simpl. by rewrite map_journal_role.
Qed.
Lemma append_entries_vk P `{!ViewStable P} fuel id st es :
  role st ≠ RQueued → view_kept P (append_entries fuel id st es) (λ st', role st' = role st).
Proof.
  revert st es. induction fuel as [|fuel IH]; intros st [|e es] Hr; simpl; try (by apply vk_ret);
    [apply vk_lift; discriminate|].
  eapply vk_bind; [done|by apply append_entry_vk|]. intros [st' cs] E. simpl in E.
  eapply vk_result; [|apply IH; simpl; congruence]. simpl. congruence.
Qed.

Lemma on_journal_entry_command_vk id st e :
  role st ≠ RQueued → view_kept (knows id (role st)) (on_journal_entry_command id st e) (λ _, True).
Proof.
  intros Hr. unfold on_journal_entry_command.
  destruct (get_invocation_metadata st) as [m|] eqn:Hm; [|by apply vk_ret].
  eapply (vk_bind _ _ _ (λ m', in_flight_role m' = in_flight_role m)).
  { destruct (if_pinned_deployment m); [by apply vk_ret|by apply verify_or_migrate_vk, _]. }
  intros m' E. cbv zeta.
  assert (role (map_invocation_metadata (λ _, m') st) = role st) as E'
    by (rewrite (map_metadata_role _ _ _ Hm), E; symmetry; by apply metadata_role).
  eapply vk_bind; [apply _|apply append_entries_vk; [apply _|by rewrite E']|].
  intros st' Es. apply vk_put_status. rewrite map_timestamps_role. congruence.
Qed.
Hint Resolve on_journal_entry_command_vk : vk.
Lemma on_journal_notification_vk id st n :
  role st ≠ RQueued → view_kept (knows id (role st)) (on_journal_notification id st n) (λ _, True).
Proof. apply on_journal_entry_command_vk. Qed.
Hint Resolve on_journal_notification_vk : vk.

Lemma on_suspend_command_vk id st f b :
  role st ≠ RQueued → view_kept (knows id (role st)) (on_suspend_command id st f b) (λ _, True).
Proof.
  intros Hr. unfold on_suspend_command. eapply vk_bind; [apply _|vk_known|]. intros index _.
  destruct (resolve _ f) as [f' resolved].
  eapply (vk_bind _ _ _ (λ st', role st' = role st)); [|intros st' E; by apply vk_put_status].
  destruct resolved; [by apply resume_invocation_command_vk; [apply _|]|].
  eapply vk_bind; [apply _|vk_known|]. intros _ _. unfold metadata_expect.
  eapply vk_bind; [apply _|apply (vk_lift _ _ (λ m, get_invocation_metadata st = Some m))|].
  { intros m. by destruct (get_invocation_metadata st); intros [= ->]. }
  intros m Hm. rewrite (metadata_role _ _ Hm) in *. apply not_queued in Hr. simpl. rewrite Hr.
  by apply vk_ret.
Qed.
Lemma pause_invocation_vk id m e :
  in_flight_role m ≠ RQueued →
  view_kept (knows id (in_flight_role m)) (pause_invocation id m e) (λ _, True).
Proof. intros Hm%not_queued. unfold pause_invocation. rewrite Hm. vk. done. Qed.
Lemma on_paused_command_vk id e : view_kept calm (on_paused_command id e) (λ _, True).
Proof. unfold on_paused_command. vk. by apply pause_invocation_vk. Qed.
Lemma on_manual_pause_command_vk id sink :
  view_kept calm (on_manual_pause_command id sink) (λ _, True).
Proof.
  unfold on_manual_pause_command. apply vk_read_status; [apply _|]. intros st Hr.
  apply (vk_bind _ _ _ (λ _, True)); [|intros; unfold reply_to_pause_invocation; vk].
  destruct st; try (by apply vk_ret);
    (eapply vk_bind; [apply _|by apply pause_invocation_vk|]; intros _ _; vk; done).
Qed.
Lemma yield_invocation_command_vk P `{!ViewStable P} id t r at_ :
  view_kept P (yield_invocation_command id t r at_) (λ _, True).
Proof. unfold yield_invocation_command. vk. Qed.

Lemma on_notify_invocation_response_vk id st cid r :
  role st ≠ RQueued →
  view_kept (knows id (role st)) (on_notify_invocation_response id st cid r) (λ _, True).
Proof. intros. unfold on_notify_invocation_response. vk. Qed.
Lemma on_notify_get_invocation_output_response_vk target r :
  view_kept calm (on_notify_get_invocation_output_response target r) (λ _, True).
Proof. unfold on_notify_get_invocation_output_response. vk. Qed.
Lemma handle_completion_vk id st i r :
  role st ≠ RQueued → view_kept (knows id (role st)) (handle_completion id st i r) (λ _, True).
Proof.
  intros Hr. unfold handle_completion. destruct st as [| |m|m f| | |]; try (by apply vk_ret); [vk|].
  vk. by apply do_resume_service_vk.
Qed.
Lemma on_invocation_response_vk r : view_kept calm (on_invocation_response r) (λ _, True).
Proof.
  unfold on_invocation_response. vk; [by apply on_notify_invocation_response_vk|by apply handle_completion_vk].
Qed.

Lemma handle_duplicated_requests_vk si :
  view_kept calm (handle_duplicated_requests si)
    (λ x, x = None ∨ x = Some si).
Proof.
  unfold handle_duplicated_requests. cbv zeta. apply vk_read_status; [apply _|]. intros st Hr.
  destruct (is_free st); [apply vk_ret; by right|].
  do 2 (eapply vk_bind; [apply _|vk_known|]; intros ? _).
  eapply vk_bind; [apply _|vk_known|]. intros sink _.
  eapply (vk_bind _ _ _ (λ _, True)); [|intros; apply vk_ret; by left].
  destruct st; vk.
Qed.
(** Only an invocation without status is accepted. *)
Lemma fresh_was_free si s s' si' :
  handle_duplicated_requests si s = (s', Ok (Some si')) →
  role_of (si_invocation_id si) (v_tables s) = ROther.
Proof.
  unfold handle_duplicated_requests, role_of. cbv zeta. unfold sm_bind at 1. simpl.
  destruct (get_invocation_status (si_invocation_id si) (v_tables s)) as [i|i|m|m f|m|c|] eqn:E; [..|done];
    simpl; intros Hx; exfalso; revert Hx; unfold sm_bind;
    repeat (case_match; simplify_eq/=; try discriminate); intros [=].
Qed.
Lemma handle_attach_invocation_request_vk r :
  view_kept calm (handle_attach_invocation_request r) (λ _, True).
Proof. unfold handle_attach_invocation_request. vk. Qed.

Lemma on_purge_command_vk id sink b : view_kept calm (on_purge_command id sink b) (λ _, True).
Proof.
  unfold on_purge_command, reply_to_purge_invocation. eapply vk_bind; [apply _|vk_known|].
  intros _ _. apply vk_read_status; [apply _|]. intros st Hr. destruct st as [| | | | |c|]; [vk..| |vk].
  simpl in *. destruct (co_vqueue_id c); [done|].
  apply vk_bind_ret. eapply vk_bind; [apply _|apply vk_free|]. intros _ _. vk.
Qed.
Lemma on_purge_journal_command_vk id sink b :
  view_kept calm (on_purge_journal_command id sink b) (λ _, True).
Proof. unfold on_purge_journal_command, reply_to_purge_journal. vk; done. Qed.

Lemma on_manual_resume_command_vk r : view_kept calm (on_manual_resume_command r) (λ _, True).
Proof.
  unfold on_manual_resume_command, reply_to_resume_invocation. cbv zeta.
  apply vk_read_status; [apply _|]. intros st Hr.
  assert (∀ m, get_invocation_metadata st = Some m → if_vqueue_id m = None) as Hq
    by (intros m Hm; apply not_queued; by rewrite <- (metadata_role _ _ Hm)).
  destruct st as [| |m|m f|m| |]; [vk..| | | |vk|vk].
  - rewrite (Hq m) by done. vk.
  - destruct (resolve_pinned_deployment _ _ m) as [|resolved]; [vk|].
    eapply vk_bind; [apply _|apply resume_invocation_command_vk; [apply _|by destruct resolved]|].
    intros st' E. eapply vk_bind; [apply _|apply vk_put_status; rewrite E; by destruct resolved|].
    intros _ _. vk.
  - destruct (resolve_pinned_deployment _ _ m) as [|resolved]; [vk|].
    eapply vk_bind; [apply _|apply resume_invocation_command_vk; [apply _|by destruct resolved]|].
    intros st' E. eapply vk_bind; [apply _|apply vk_put_status; rewrite E; by destruct resolved|].
    intros _ _. vk.
Qed.
End keeping.

(** ** Executions of the lock service

    The state that the handlers of a record started from; what they have done since
    is an execution of the lock service. *)

Class Origin := origin : Objects.

Record locks `{!Origin} (open : option VoKey) (roles : InvocationId → Role)
    (vo : gmap VoKey InvocationId) (inbox : gmap (VoKey * Z) InboxEntry) (seq : Z) : Prop := {
  lk_ok : locks_ok open roles vo inbox seq;
  lk_steps : ∃ ls, lock_steps ls origin (mkObjects open roles vo inbox seq) }.

Lemma locks_step `{!Origin} l o r v i n o' r' v' i' n' :
  locks o r v i n → lock_step l (mkObjects o r v i n) (mkObjects o' r' v' i' n') → locks o' r' v' i' n'.
Proof.
  intros [Ho [ls Hs]] Hl. split; [by apply (lock_step_ok _ _ _ Hl)|].
  eexists. by econstructor.
Qed.

Lemma locks_ext `{!Origin} o r r' v i n : (∀ id, r' id = r id) → locks o r v i n → locks o r' v i n.
Proof. intros Hr Hl. eapply locks_step; [done|by apply step_same]. Qed.

(** ** The invariant *)

Definition locks_of `{!Digests, !Origin} (open : option VoKey) (t : T) : Prop :=
  locks open (λ id, role_of id t) (t_vo t) (t_inbox t) (t_inbox_seq t).

Record obj_inv_open `{!Digests, !Origin} (open : option VoKey) (t : T) : Prop := {
  oi_calm : calm t;
  oi_locks : locks_of open t }.
Abbreviation obj_inv := (obj_inv_open None).

(** The invariant holds as soon as the invocation gets a status of the role. *)
Record ready `{!Digests, !Origin} (id : InvocationId) (r : Role) (t : T) : Prop := {
  rd_calm : calm t;
  rd_role : r ≠ RQueued;
  rd_locks : locks None (update_role id r (λ i, role_of i t)) (t_vo t) (t_inbox t) (t_inbox_seq t) }.

Class Stable_ `{!Digests} (P : T → Prop) : Prop := stable_view t t' : same_view t t' → P t → P t'.

#[export] Instance view_stable_stable `{!Digests} P `{!ViewStable P} : Stable_ P.
Proof. intros t t'. apply view_stable. Qed.
#[export] Instance and_stable `{!Digests} P P' `{!Stable_ P, !Stable_ P'} : Stable_ (λ t, P t ∧ P' t).
Proof. intros t t' Hv []. split; by eapply stable_view. Qed.
#[export] Instance obj_inv_stable `{!Digests, !Origin} o : Stable_ (obj_inv_open o).
Proof.
  intros t t' Hv [Hc Hl]. split; [by eapply view_stable|]. destruct Hv as [Hr Hvo Hi Hs _].
  unfold locks_of. rewrite Hvo, Hi, Hs. eapply locks_ext; [|exact Hl]. done.
Qed.
#[export] Instance ready_stable `{!Digests, !Origin} id r : Stable_ (ready id r).
Proof.
  intros t t' Hv [Hc Hq Hl]. split; [by eapply view_stable|done|]. destruct Hv as [Hr Hvo Hi Hs _].
  rewrite Hvo, Hi, Hs. eapply locks_ext; [|done]. intros i. unfold update_role.
  by destruct (decide (i = id)).
Qed.
#[export] Instance const_stable `{!Digests} (P : Prop) : Stable_ (λ _, P).
Proof. by intros t t' _. Qed.

Lemma role_of_put `{!Digests} id s t i :
  role_of i (put_invocation_status id s t) = update_role id (role s) (λ i, role_of i t) i.
Proof. unfold role_of, update_role. rewrite get_put_status. by case_decide. Qed.

Lemma calm_put `{!Digests} id s t : calm t → role s ≠ RQueued → calm (put_invocation_status id s t).
Proof.
  intros [Hr He] Hs. split; [|by destruct s]. intros i. rewrite role_of_put. unfold update_role.
  by case_decide.
Qed.

Lemma ready_put `{!Digests, !Origin} id s t : ready id (role s) t → obj_inv (put_invocation_status id s t).
Proof.
  intros [Hc Hq Hl]. split; [by apply calm_put|].
  assert (t_vo (put_invocation_status id s t) = t_vo t ∧
          t_inbox (put_invocation_status id s t) = t_inbox t ∧
          t_inbox_seq (put_invocation_status id s t) = t_inbox_seq t) as (E1 & E2 & E3) by (by destruct s).
  unfold locks_of. rewrite E1, E2, E3. eapply locks_ext; [|done]. intros i. apply role_of_put.
Qed.

Lemma update_role_same r id x i : r id = x → update_role id x r i = r i.
Proof. intros <-. unfold update_role. case_decide; congruence. Qed.

Lemma inv_ready `{!Digests, !Origin} id t : obj_inv t → ready id (role_of id t) t.
Proof.
  intros [Hc Hl]. split; [done|apply Hc|]. eapply locks_ext; [|exact Hl]. intros i.
  by apply (update_role_same (λ i, role_of i t)).
Qed.

(** The status of a holder or of another invocation is replaced by one without role. *)
Lemma release_ok `{!Digests, !Origin} id s t m :
  obj_inv t → role_of id t = in_flight_role m → role s = ROther →
  obj_inv_open (exclusive_key (if_invocation_target m)) (put_invocation_status id s t).
Proof.
  intros Hi Hr Hs. pose proof Hi as [Hc Hl].
  unfold in_flight_role in Hr. destruct (if_vqueue_id m); [by apply Hc in Hr|].
  destruct (exclusive_key (if_invocation_target m)) as [k|].
  - split; [apply calm_put; [done|congruence]|].
    assert (t_vo (put_invocation_status id s t) = t_vo t ∧
            t_inbox (put_invocation_status id s t) = t_inbox t ∧
            t_inbox_seq (put_invocation_status id s t) = t_inbox_seq t) as (E1 & E2 & E3) by (by destruct s).
    unfold locks_of. rewrite E1, E2, E3. eapply locks_ext; [|by eapply locks_step; [exact Hl|by apply step_release]].
    intros i. by rewrite role_of_put, Hs.
  - apply ready_put. rewrite Hs, <- Hr. by apply inv_ready.
Qed.

(** ** Triples *)

(** A handler that keeps the view keeps what depends only on it. *)
Lemma tr_view `{!Digests} {A} (P P' : T → Prop) `{!Stable_ P} (m : M A) Q :
  (∀ t, P t → P' t) → view_kept P' m Q → triple P m (λ a t, P t ∧ Q a).
Proof.
  intros HP Hm s Hn Hs. specialize (Hm s Hn (HP _ Hs)). destruct (m s) as [s1 [a| |]]; [|done..].
  destruct Hm as (Hn' & Hv & Ha). split_and!; [done|by eapply stable_view|done].
Qed.
#[export] Instance stable_kept `{!Digests} P `{!Stable_ P} : Kept (false, true) P.
Proof. intros f t Hf. by apply stable_view, quiet_view. Qed.
Lemma tr_quiet `{!Digests} {A} (P : T → Prop) `{!Stable_ P} (m : M A) :
  writes_only (false, true) m → triple P m (λ _, P).
Proof. apply tr_kept, _. Qed.
Lemma tr_seq `{!Digests} {A B} (P : T → Prop) `{!Stable_ P} (m : M A) (k : A → M B) R :
  writes_only (false, true) m → (∀ a, triple P (k a) R) → triple P (sm_bind m k) R.
Proof. apply tr_kept_seq, _. Qed.
Lemma tr_end `{!Digests} {A B} (P : T → Prop) (Q : T → Prop) `{!Stable_ Q} (m : M A) (k : A → M B) :
  triple P m (λ _, Q) → (∀ a, writes_only (false, true) (k a)) → triple P (sm_bind m k) (λ _, Q).
Proof. apply tr_kept_end, _. Qed.
Lemma tr_put `{!Digests, !Origin} id s : triple (ready id (role s)) (put_status id s) (λ _, obj_inv).
Proof.
  intros s' Hn Ht. split; [|by apply ready_put]. unfold synced in *. simpl. rewrite Hn. by destruct s.
Qed.

(** The next number of the inbox has a successor. *)
Definition inbox_room (t : T) : Prop := 0 ≤ t_inbox_seq t < u64_max.
#[export] Instance inbox_room_stable `{!Digests} : Stable_ inbox_room.
Proof. intros t t' Hv. unfold inbox_room. by rewrite (sv_seq _ _ Hv). Qed.
Lemma inbox_next t : inbox_room t → as_u64 (t_inbox_seq t + 1) = t_inbox_seq t + 1.
Proof. intros Hr. apply wrap_small. unfold inbox_room, in_u in *. lia. Qed.

(** ** The inbox of an object *)

Lemma elem_of_inbox_of sid (t : T) n e :
  (n, e) ∈ inbox_of sid t ↔ t_inbox t !! (vo_key sid, n) = Some e.
Proof.
  unfold inbox_of. rewrite list_elem_of_omap. split.
  - intros ([[k m] e'] & Hin & He). apply elem_of_map_to_list in Hin. by case_decide; simplify_eq.
  - intros He. exists (vo_key sid, n, e). rewrite elem_of_map_to_list, decide_True; done.
Qed.

Lemma inbox_of_nodup sid (t : T) : NoDup (inbox_of sid t).
Proof.
  unfold inbox_of. pose proof (NoDup_fst_map_to_list (t_inbox t)) as Hd.
  induction (map_to_list (t_inbox t)) as [|[[k m] e] l IH]; [constructor|].
  simpl in *. apply NoDup_cons in Hd as [Hn Hd]. case_decide as Hk; [|by apply IH].
  constructor; [|by apply IH]. rewrite list_elem_of_omap. intros ([[k' m'] e'] & Hin & He).
  case_decide; simplify_eq. apply Hn, list_elem_of_fmap. by eexists (vo_key sid, m, e).
Qed.

Lemma min_seq_foldl l x :
  foldl min_seq x l ∈ x :: l ∧ ∀ y, y ∈ x :: l → (foldl min_seq x l).1 ≤ y.1.
Proof.
  revert x. induction l as [|z l IH]; intros x; simpl.
  - split; [by left|]. by intros y ->%list_elem_of_singleton.
  - destruct (IH (min_seq x z)) as [Hin Hle].
    assert ((min_seq x z).1 ≤ x.1 ∧ (min_seq x z).1 ≤ z.1) as [Hx Hz]
      by (unfold min_seq; destruct (Z.leb_spec x.1 z.1); lia).
    split.
    { apply elem_of_cons in Hin as [-> |Hin]; [|by do 2 right].
      unfold min_seq. destruct (x.1 <=? z.1); [by left|right; by left]. }
    intros y [->|[->|Hy]%elem_of_cons]%elem_of_cons; [etrans; [apply Hle; by left|done]..|].
    apply Hle. by right.
Qed.

Lemma peek_inbox_spec sid (t : T) :
  match peek_inbox sid t with
  | Some (n, e) => t_inbox t !! (vo_key sid, n) = Some e ∧
                   ∀ n' e', t_inbox t !! (vo_key sid, n') = Some e' → n ≤ n'
  | None => ∀ n, t_inbox t !! (vo_key sid, n) = None
  end.
Proof.
  unfold peek_inbox. pose proof (elem_of_inbox_of sid t) as Hin.
  destruct (inbox_of sid t) as [|x l].
  - intros n. destruct (t_inbox t !! (vo_key sid, n)) as [e|] eqn:He; [|done].
    apply Hin in He. by apply not_elem_of_nil in He.
  - destruct (min_seq_foldl l x) as [H1 H2]. destruct (foldl min_seq x l) as [n e].
    split; [by apply Hin|]. intros n' e' He'%Hin. by apply (H2 (n', e')).
Qed.

Lemma inbox_of_delete sid (t : T) n e :
  t_inbox t !! (vo_key sid, n) = Some e →
  List.length (inbox_of sid t) = S (List.length (inbox_of sid (delete_inbox_entry sid n t))).
Proof.
  intros He. assert (inbox_of sid t ≡ₚ (n, e) :: inbox_of sid (delete_inbox_entry sid n t)) as ->; [|done].
  apply NoDup_Permutation; [apply inbox_of_nodup| |].
  - constructor; [|apply inbox_of_nodup]. rewrite elem_of_inbox_of. simpl. by rewrite lookup_delete_eq.
  - intros [n' e']. rewrite elem_of_cons, !elem_of_inbox_of. simpl. rewrite lookup_delete_Some.
    destruct (decide (n' = n)) as [->|]; naive_solver.
Qed.

#[export] Instance role_stable `{!Digests} id r : Stable_ (λ t, role_of id t = r).
Proof. intros t t' Hv. by rewrite (sv_roles _ _ Hv). Qed.
#[export] Instance inbox_length_stable `{!Digests} sid n :
  Stable_ (λ t, (List.length (inbox_of sid t) < n)%nat).
Proof. intros t t' Hv. unfold inbox_of. by rewrite (sv_inbox _ _ Hv). Qed.

(** ** Start and end *)

Section transitions.
Context `{!Digests, !SlotKeys, !Ctx, !Base62, !Base64, !StateKeysCodec, !Origin}.

Lemma in_flight_of_pre_flight m ts : let m' := (in_flight_from_pre_flight m ts).1 in
  if_vqueue_id m' = pf_vqueue_id m ∧ if_invocation_target m' = pf_invocation_target m.
Proof. unfold in_flight_from_pre_flight. simpl. by destruct (pf_input m). Qed.

(** The role of an invocation that starts. *)
Definition start_role (m : PreFlightInvocationMetadata) : Role :=
  match exclusive_key (pf_invocation_target m) with Some k => RHolding k | None => ROther end.

Lemma start_role_of m ts :
  pf_vqueue_id m = None → in_flight_role (in_flight_from_pre_flight m ts).1 = start_role m.
Proof.
  intros Hq. destruct (in_flight_of_pre_flight m ts) as [E1 E2]. unfold in_flight_role.
  by rewrite E1, E2, Hq.
Qed.

Lemma init_journal_vk P id m input :
  view_kept P (init_journal_opt id m input) (λ m', in_flight_role m' = in_flight_role m).
Proof.
  unfold init_journal_opt, init_journal. destruct input; [|by apply vk_ret]. cbv zeta.
  intros s Hn Hs. destruct (use_journal_v2_as_default features);
    (split_and!; [exact Hn|apply quiet_view; auto with wr|done]).
Qed.

Lemma set_invoked_ok id m input :
  triple (ready id (in_flight_role m)) (init_journal_and_set_invoked id m input) (λ _, obj_inv).
Proof.
  unfold init_journal_and_set_invoked. eapply tr_bind.
  { eapply (tr_view _ (λ _, True)); [done|apply init_journal_vk]. }
  intros m'. apply tr_pure. intros E. rewrite <- E. apply (tr_put id (Invoked m')).
Qed.

(** Taking the lock, or a place in the inbox. *)
Lemma exclusive_handler_ok id m :
  pf_vqueue_id m = None →
  triple (λ t, (obj_inv t ∧ inbox_room t) ∧ role_of id t = ROther)
    (handle_service_invocation_exclusive_handler id m)
    (λ x t, match x with None => obj_inv t | Some m' => m' = m ∧ ready id (start_role m) t end).
Proof.
  intros Hq. unfold handle_service_invocation_exclusive_handler, start_role.
  destruct (is_exclusive_target (pf_invocation_target m)) eqn:Hx.
  - assert (exclusive_key (pf_invocation_target m) = vo_key <$> as_keyed_service_id (pf_invocation_target m))
      as Hk by (unfold exclusive_key; by rewrite Hx).
    rewrite Hk. destruct (as_keyed_service_id (pf_invocation_target m)) as [sid|] eqn:Hs; [|done].
    simpl. intros s Hn [[[Hc Hl] Hroom] Hr]. unfold sm_bind at 1. simpl. unfold sm_bind at 1. simpl.
    unfold get_virtual_object_status. destruct (t_vo (v_tables s) !! vo_key sid) as [holder|] eqn:Hv.
    + unfold synced in *. unfold enqueue_into_inbox, set_inbox_seq_number, sm_bind. simpl.
      rewrite Hn. simpl. rewrite inbox_next by done. split; [done|].
      change (obj_inv (put_invocation_status id
        (Inboxed (inboxed_from_pre_flight m (t_inbox_seq (v_tables s)) record_created_at))
        (upd_inbox_seq (λ _, t_inbox_seq (v_tables s) + 1)
          (put_inbox_entry (t_inbox_seq (v_tables s)) (InboxInvocation sid id) (v_tables s))))).
      apply ready_put. simpl. rewrite Hq, Hk. simpl. split; [by destruct Hc|done|].
      eapply locks_step; [done|]. apply step_wait; [done|by eexists].
    + split; [exact Hn|]. split; [done|]. split; [by destruct Hc|done|].
      eapply locks_step; [done|]. by apply step_start.
  - unfold exclusive_key. rewrite Hx. apply tr_ret. intros t [[Hi _] Hr]. split; [done|].
    rewrite <- Hr. by apply inv_ready.
Qed.

(** A waiting or scheduled invocation starts. *)
Lemma start_ok {A} id m (none : M unit) (some : PreFlightInvocationMetadata → M A) :
  pf_vqueue_id m = None → writes_only (false, true) none → (∀ m, writes_only (false, true) (some m)) →
  triple (λ t, (obj_inv t ∧ inbox_room t) ∧ role_of id t = ROther)
    (let* unlocked := handle_service_invocation_exclusive_handler id m in
     match unlocked with
     | None => none
     | Some m =>
         some m ;;
         let '(in_flight, input) := in_flight_from_pre_flight m record_created_at in
         init_journal_and_set_invoked id in_flight input
     end) (λ _, obj_inv).
Proof.
  intros Hq Hn Hs. eapply tr_bind; [by apply exclusive_handler_ok|]. intros [m'|]; [|by apply (tr_quiet obj_inv)].
  apply (tr_pre (λ t, ready id (start_role m) t ∧ m' = m)); [naive_solver|]. apply tr_pure. intros ->.
  apply tr_seq; [apply _|apply Hs|]. intros _.
  pose proof (start_role_of m record_created_at Hq) as E.
  destruct (in_flight_from_pre_flight m record_created_at) as [fl input]. simpl in E. rewrite <- E.
  apply set_invoked_ok.
Qed.

(** ** The end *)

Lemma consume_loop_ok fuel sid :
  triple (λ t, obj_inv_open (Some (vo_key sid)) t ∧ (List.length (inbox_of sid t) < fuel)%nat)
    (consume_loop fuel sid) (λ _, obj_inv).
Proof.
  induction fuel as [|fuel IH]; [apply tr_stuck; intros t []; lia|]. simpl.
  intros s Hn [[Hc Hl] Hf]. unfold sm_bind at 1, pop_inbox.
  pose proof (peek_inbox_spec sid (v_tables s)) as Hp.
  destruct (peek_inbox sid (v_tables s)) as [[n e]|]; simpl.
  - destruct Hp as [He Hmin]. destruct e as [sid' id|m].
    + pose proof (lo_inbox _ _ _ _ _ (lk_ok _ _ _ _ _ Hl) _ _ _ _ He) as Hr. simpl in Hr.
      unfold sm_bind at 1. simpl.
      change (get_invocation_status id (delete_inbox_entry sid n (v_tables s)))
        with (get_invocation_status id (v_tables s)). unfold role_of in Hr.
      destruct (get_invocation_status id (v_tables s)) as [|i|m|m f|m| |] eqn:Hst; try done.
      simpl in Hr. destruct (pf_vqueue_id (inb_metadata i)) eqn:Hq; [done|].
      unfold sm_bind at 1. simpl.
      pose proof (start_role_of (inb_metadata i) record_created_at Hq) as E. unfold start_role in E.
      unfold in_flight_from_inboxed.
      destruct (in_flight_from_pre_flight (inb_metadata i) record_created_at) as [fl input]. simpl in E.
      destruct (exclusive_key (pf_invocation_target (inb_metadata i))) as [k|]; [|done].
      injection Hr as -> _.
      apply (set_invoked_ok id fl input (on_tables (put_virtual_object_status sid (Some id))
               (on_tables (λ _, delete_inbox_entry sid n (v_tables s)) s))); [exact Hn|].
      rewrite E. split; [by destruct Hc|done|].
      eapply locks_step; [exact Hl|]. eapply (step_pop_invocation _ _ _ _ (vo_key sid) n sid' id). by split.
    + apply (inbox_of_delete sid) in He as Hlen.
      apply (tr_seq (λ t, obj_inv_open (Some (vo_key sid)) t ∧
                          (List.length (inbox_of sid t) < fuel)%nat) (mutate_state (xm_input m))
               (λ _, consume_loop fuel sid) _ ltac:(wr) (λ _, IH)
               (on_tables (λ _, delete_inbox_entry sid n (v_tables s)) s)); [exact Hn|].
      split; [|simpl; lia]. split; [by destruct Hc|]. eapply locks_step; [exact Hl|]. eapply step_pop_mutation. by split.
  - split; [exact Hn|]. split; [by destruct Hc|]. eapply locks_step; [exact Hl|]. by apply step_close.
Qed.

Lemma consume_inbox_ok target :
  triple (obj_inv_open (exclusive_key target)) (consume_inbox target) (λ _, obj_inv).
Proof.
  unfold consume_inbox, exclusive_key. destruct (is_exclusive_target target); [|by apply tr_ret].
  destruct (as_keyed_service_id target) as [sid|]; [|done].
  intros s Hn Hs. apply (consume_loop_ok (S (List.length (inbox_of sid (v_tables s)))) sid s); [done|].
  split; [done|lia].
Qed.

(** The invocation of the metadata is in flight. *)
Definition in_flight (id : InvocationId) (m : InFlightInvocationMetadata) (t : T) : Prop :=
  obj_inv t ∧ role_of id t = in_flight_role m.

Lemma in_flight_no_queue id m t : in_flight id m t → if_vqueue_id m = None.
Proof. intros [[Hc _] Hr]. apply not_queued. rewrite <- Hr. apply Hc. Qed.

Lemma tr_known {A} id m (k : M A) Q :
  (if_vqueue_id m = None → triple (in_flight id m) k Q) → triple (in_flight id m) k Q.
Proof. intros Hk s Hn Hs. apply Hk; [|done..]. by eapply in_flight_no_queue. Qed.

Lemma finish_consume id m st :
  if_vqueue_id m = None →
  triple (obj_inv_open (exclusive_key (if_invocation_target m)))
    (sm_when (if_journal_retention_duration m =? 0)
       (do_drop_journal id (length (if_journal_metadata m)) (pinned_version (if_pinned_deployment m))
          (is_deterministic (if_invocation_target m) (if_idempotency_key m))) ;;
     match if_vqueue_id m with
     | Some qid =>
         let* header := reads (get_vqueue_entry_status (base_id_of_invocation id)) in
         match header with
         | None => sm_ret tt
         | Some hd =>
             let* now := record_unique_ts in
             let* h := vqueue_expect qid in
             vqueue_end vctx h now hd st (if_completion_retention_duration m)
         end
     | None => consume_inbox (if_invocation_target m)
     end) (λ _, obj_inv).
Proof.
  intros Hq. rewrite Hq. apply tr_seq; [apply _|wr|]. intros _. apply consume_inbox_ok.
Qed.

(** What is left to do once the status of the invocation is gone. *)
Lemma finish_ok id m st :
  if_vqueue_id m = None →
  triple (λ t, if if_completion_retention_duration m =? 0 then in_flight id m t
               else obj_inv_open (exclusive_key (if_invocation_target m)) t)
    (finish_invocation id m st) (λ _, obj_inv).
Proof.
  intros Hq. unfold finish_invocation. cbv zeta.
  apply (tr_bind _ _ _ (λ _, obj_inv_open (exclusive_key (if_invocation_target m))));
    [|intros _; exact (finish_consume id m st Hq)].
  destruct (if_completion_retention_duration m =? 0); [|by apply tr_ret].
  intros s Hn [Hi Hr]. split; [exact Hn|]. by apply (release_ok id Free).
Qed.

Lemma end_invocation_ok id m f o :
  triple (in_flight id m) (end_invocation id m f o) (λ _, obj_inv).
Proof.
  apply tr_known. intros Hq. unfold end_invocation. cbv zeta.
  destruct (_ || _) eqn:Hc.
  - apply tr_seq; [apply _|destruct o; wr|]. intros [r|]; [|apply tr_ret; by intros t []].
    apply tr_seq; [apply _|wr|]. intros _. eapply tr_bind; [|intros ?; by apply finish_ok].
    destruct (if_completion_retention_duration m =? 0); [by apply tr_ret|].
    intros s Hn [Hi Hr]. split; [exact Hn|].
    eapply (release_ok id (Completed _)); [done|done|]. simpl. by rewrite Hq.
  - apply orb_false_iff in Hc as [_ Hc%negb_false_iff].
    eapply tr_pre; [|by apply finish_ok]. simpl. by rewrite Hc.
Qed.

Lemma kill_ok id m :
  triple (in_flight id m) (kill_invoked_invocation id m) (λ _, obj_inv) ∧
  triple (in_flight id m) (kill_suspended_or_paused_invocation id m) (λ _, obj_inv).
Proof.
  assert (triple (in_flight id m) (kill_invoked_invocation id m) (λ _, obj_inv)) as H'; [|by split].
  unfold kill_invoked_invocation. apply tr_seq; [apply _|wr|]. intros _.
  apply tr_end; [apply _|apply end_invocation_ok|intros; wr].
Qed.

(** ** Termination before the start *)

Lemma terminate_pre_flight_ok f id m (leave : M unit) (P : T → Prop) `{!Stable_ P} :
  pf_vqueue_id m = None → triple P leave (λ _, ready id ROther) →
  triple P (terminate_pre_flight f id m leave) (λ _, obj_inv).
Proof.
  intros Hq Hl. unfold terminate_pre_flight. cbv zeta.
  destruct (if pf_preflight_invocation_termination_retention features then _ else _) as [cr jr].
  apply tr_seq; [apply _|wr|]. intros _. rewrite Hq.
  apply (tr_bind _ _ _ (λ m' t, ready id ROther t ∧ m' = m)).
  { eapply tr_bind; [exact Hl|]. intros ?. apply tr_ret. done. }
  intros m'. apply tr_pure. intros ->. apply tr_end; [apply _| |].
  - destruct (cr =? 0).
    + intros s Hn Hs. split; [exact Hn|]. by apply (ready_put id Free).
    + intros s Hn Hs. split; [exact Hn|]. apply ready_put. simpl. unfold completed_from_pre_flight. simpl.
      destruct (pf_input m); simpl; by rewrite Hq.
  - intros _. destruct (pf_input m); [wr|]. destruct (jr =? 0); wr.
Qed.

Lemma terminate_inboxed_ok f id i :
  triple (λ t, obj_inv t ∧ role_of id t = role (Inboxed i)) (terminate_inboxed_invocation f id i)
    (λ _, obj_inv).
Proof.
  unfold terminate_inboxed_invocation. cbv zeta. intros s0 Hn0 Hs0.
  assert (pf_vqueue_id (inb_metadata i) = None) as Hq.
  { destruct Hs0 as [[Hc _] Hr]. simpl in Hr. destruct (pf_vqueue_id _); [by apply Hc in Hr|done]. }
  refine (terminate_pre_flight_ok _ _ _ _ (λ t, obj_inv t ∧ role_of id t = role (Inboxed i)) Hq _ s0 Hn0 Hs0).
  clear s0 Hn0 Hs0. simpl. rewrite Hq.
  intros s Hn [[Hc Hl] Hr]. unfold exclusive_key in Hr.
  destruct (as_keyed_service_id (pf_invocation_target (inb_metadata i))) as [sid|]; [|done]. simpl in *.
  destruct (is_exclusive_target _); [|by apply Hc in Hr]. simpl in Hr.
  split; [exact Hn|]. split; [by destruct Hc|done|].
  eapply locks_step; [exact Hl|]. by eapply (step_leave _ _ _ _ id).
Qed.

Lemma terminate_scheduled_ok f id i :
  triple (λ t, obj_inv t ∧ role_of id t = role (Scheduled i)) (terminate_scheduled_invocation f id i)
    (λ _, obj_inv).
Proof.
  unfold terminate_scheduled_invocation. cbv zeta. intros s0 Hn0 Hs0.
  assert (pf_vqueue_id (sch_metadata i) = None) as Hq.
  { destruct Hs0 as [[Hc _] Hr]. simpl in Hr. destruct (pf_vqueue_id _); [by apply Hc in Hr|done]. }
  refine (terminate_pre_flight_ok _ _ _ _ (λ t, obj_inv t ∧ role_of id t = role (Scheduled i)) Hq _ s0 Hn0 Hs0).
  eapply tr_post; [|apply tr_quiet; [apply _|wr]]. simpl. rewrite Hq. intros _ t [Hi Hr].
  rewrite <- Hr. by apply inv_ready.
Qed.

(** ** Records about one invocation *)

(** The status that was read. *)
Definition with_status (id : InvocationId) (st : InvocationStatus) (t : T) : Prop :=
  obj_inv t ∧ role_of id t = role st.

Lemma tr_read_status {A} id (k : InvocationStatus → M A) R :
  (∀ st, role st ≠ RQueued → triple (with_status id st) (k st) R) →
  triple obj_inv (let* st := read_status id in k st) R.
Proof.
  intros Hk s Hn Hs. apply (Hk (get_invocation_status id (v_tables s))); [apply Hs|done|done].
Qed.
Lemma tr_read_status_room {A} id (k : InvocationStatus → M A) R :
  (∀ st, role st ≠ RQueued → triple (λ t, with_status id st t ∧ inbox_room t) (k st) R) →
  triple (λ t, obj_inv t ∧ inbox_room t) (let* st := read_status id in k st) R.
Proof.
  intros Hk s Hn [Hs Hr]. apply (Hk (get_invocation_status id (v_tables s))); [apply Hs|done|done].
Qed.
Lemma tr_vk {A} id st (m : M A) Q :
  view_kept (knows id (role st)) m Q → triple (with_status id st) m (λ _, obj_inv).
Proof.
  intros Hm. eapply tr_post; [|eapply (tr_view _ (knows id (role st))); [|exact Hm]].
  - intros a t [[? _] _]. done.
  - intros t [[? _] ?]. by split.
Qed.
Lemma tr_calm {A} (m : M A) Q : view_kept calm m Q → triple obj_inv m (λ _, obj_inv).
Proof.
  intros Hm. eapply tr_post; [|eapply (tr_view _ calm); [|exact Hm]]; [by intros a t []|by intros t []].
Qed.
Lemma tr_drop {A} id st (m : M A) Q : triple obj_inv m Q → triple (with_status id st) m Q.
Proof. apply tr_pre. by intros t []. Qed.

Lemma in_flight_status id st m :
  get_invocation_metadata st = Some m → ∀ t, with_status id st t → in_flight id m t.
Proof. intros Hm t [Hi Hr]. split; [done|]. by rewrite Hr, (metadata_role _ _ Hm). Qed.

Lemma on_kill_invocation_ok id sink : triple obj_inv (on_kill_invocation id sink) (λ _, obj_inv).
Proof.
  unfold on_kill_invocation, reply_to_kill. apply tr_read_status. intros st Hr.
  destruct st as [i|i|m|m f|m|c|]; try (apply tr_drop, (tr_quiet obj_inv); wr);
    (apply tr_end; [apply _| |intros; wr]); [apply terminate_scheduled_ok|apply terminate_inboxed_ok|..];
    (eapply tr_pre; [by apply (in_flight_status id)|]); apply kill_ok.
Qed.

Lemma on_cancel_command_ok id st sink :
  role st ≠ RQueued → triple (with_status id st) (on_cancel_command id st sink) (λ _, obj_inv).
Proof.
  intros Hr. unfold on_cancel_command, reply_to_cancel.
  destruct st as [i|i|m|m f|m|c|]; try (apply tr_drop, (tr_quiet obj_inv); wr);
    (apply tr_end; [apply _| |intros; wr]); [apply terminate_scheduled_ok|apply terminate_inboxed_ok|..];
    eapply tr_vk; by apply on_journal_notification_vk.
Qed.

Lemma cancel_v1_ok id st sink :
  role st ≠ RQueued → triple (with_status id st) (cancel_v1 id st sink) (λ _, obj_inv).
Proof.
  intros Hr. unfold cancel_v1, reply_to_cancel.
  destruct st as [i|i|m|m f|m|c|]; try (apply tr_drop, (tr_quiet obj_inv); wr);
    [apply tr_end; [apply _|apply terminate_scheduled_ok|intros; wr]
    |apply tr_end; [apply _|apply terminate_inboxed_ok|intros; wr]|..].
  - do 2 (apply tr_seq; [apply _|wr|]; intros ?). apply tr_end; [apply _| |intros; wr].
    eapply tr_vk, vk_when. by apply (do_resume_service_vk id m).
  - apply tr_seq; [apply _|wr|]. intros _. apply tr_end; [apply _| |intros; wr].
    eapply tr_vk. by apply (do_resume_service_vk id m).
Qed.

Lemma on_cancel_invocation_ok id sink : triple obj_inv (on_cancel_invocation id sink) (λ _, obj_inv).
Proof.
  unfold on_cancel_invocation, reply_to_cancel. apply tr_read_status. intros st Hr. cbv zeta.
  apply tr_seq; [apply _|destruct (match _ with Some _ => _ | None => _ end); wr|]. intros [].
  { by apply on_cancel_command_ok. }
  pose proof (cancel_v1_ok id st sink Hr) as Hc. unfold reply_to_cancel in Hc.
  destruct (_ ≫= _); [exact Hc|]. destruct st as [i|i|m|m f|m|c|]; try exact Hc;
    (apply tr_end; [apply _|by eapply tr_vk, vk_put_status|intros; wr]).
Qed.

Lemma on_notify_signal_ok r : triple obj_inv (on_notify_signal r) (λ _, obj_inv).
Proof.
  unfold on_notify_signal. cbv zeta. apply tr_read_status. intros st Hr. case_bool_decide.
  - apply tr_drop, on_cancel_invocation_ok.
  - eapply tr_vk. by apply on_journal_notification_vk.
Qed.

Lemma on_pinned_deployment_ok id m pd :
  in_flight_role m ≠ RQueued →
  triple (with_status id (Invoked m)) (on_pinned_deployment id (Invoked m) pd) (λ _, obj_inv).
Proof.
  intros Hr. unfold on_pinned_deployment, metadata_expect. apply (tr_ok _ m). cbv zeta.
  eapply tr_bind; [|intros m'; apply tr_pure; intros E].
  { apply (tr_view (with_status id (Invoked m)) (knows id (in_flight_role m)) _
             (λ m', in_flight_role m' = in_flight_role m)); [intros t [[? _] ?]; by split|].
    destruct (V4 <=? service_protocol_version pd); [by apply verify_or_migrate_vk, _|by apply vk_ret]. }
  assert (if_vqueue_id m' = None) as Hq by (apply not_queued; congruence).
  cbv zeta. change (if_vqueue_id (if_with_hotfix false m')) with (if_vqueue_id m'). rewrite Hq.
  apply (tr_ok _ (if_with_hotfix false m')).
  eapply tr_bind; [apply (tr_vk id (Invoked m) _ (λ _, True))|].
  - apply vk_put_status. exact E.
  - intros ?. destruct (if_hotfix_apply_cancellation m'); [apply on_cancel_invocation_ok|by apply tr_ret].
Qed.

(** ** New invocations, mutations, timers *)

Lemma prepare_journal_vk P id m :
  view_kept P (prepare_journal id m)
    (λ m', pf_vqueue_id m' = pf_vqueue_id m ∧ pf_execution_time m' = pf_execution_time m).
Proof.
  unfold prepare_journal. destruct (use_journal_v2_as_default features); [|by apply vk_ret].
  destruct (pf_input m); [|by apply vk_ret].
  intros s Hn Hs. split_and!; [exact Hn|apply quiet_view; auto with wr|done..].
Qed.

Lemma on_pre_flight_invocation_ok id m sink :
  pf_vqueue_id m = None →
  triple (λ t, (obj_inv t ∧ inbox_room t) ∧ role_of id t = ROther) (on_pre_flight_invocation id m sink)
    (λ _, obj_inv).
Proof.
  intros Hq0. unfold on_pre_flight_invocation.
  eapply tr_bind; [eapply (tr_view _ (λ _, True)); [done|apply prepare_journal_vk]|].
  intros m1. apply tr_pure. intros [Hq _]. rewrite Hq0 in Hq. rewrite Hq. cbv zeta.
  unfold handle_service_invocation_execution_time at 1.
  destruct (pf_execution_time m1) as [at_|].
  - eapply (tr_bind _ _ _ (λ x t, obj_inv t ∧ x = None)).
    + apply tr_seq; [apply _|wr|]. intros _. eapply tr_bind.
      * eapply tr_pre; [|apply (tr_put id (Scheduled _))]. simpl. rewrite Hq. intros t [[Hi _] Hr].
        rewrite <- Hr. by apply inv_ready.
      * intros ?. by apply tr_ret.
    + intros x. apply tr_pure. intros ->. apply tr_quiet; [apply _|wr].
  - apply (start_ok id m1 (send_submit_notification_if_needed None true sink)
             (λ m, send_submit_notification_if_needed (pf_execution_time m) true sink));
      [done|wr|intros; wr].
Qed.

Context (Hnoq : is_vqueues_enabled features = false).

Lemma on_service_invocation_ok si :
  triple (λ t, obj_inv t ∧ inbox_room t) (on_service_invocation si) (λ _, obj_inv).
Proof.
  intros s Hn [Hs Hroom]. unfold on_service_invocation, sm_bind at 1.
  pose proof (handle_duplicated_requests_vk si s Hn (oi_calm _ _ Hs)) as Hd.
  destruct (handle_duplicated_requests si s) as [s1 [[si'|]| |]] eqn:Hr; [| |done..].
  - destruct Hd as (Hn' & Hv & [?|[= ->]]); [done|]. rewrite Hnoq.
    apply (on_pre_flight_invocation_ok (si_invocation_id si)
      (from_service_invocation record_created_at si None
         (if pf_unique_random_seeds features
          then Some (to_random_seed_with_wal_record_time (si_invocation_id si) record_created_at) else None)
         record_lsn) (si_submit_notification_sink si) eq_refl s1 Hn').
    split; [split; by eapply stable_view|]. rewrite (sv_roles _ _ Hv).
    by rewrite (fresh_was_free _ _ _ _ Hr).
  - destruct Hd as (Hn' & Hv & _). split; [done|]. by eapply (stable_view (v_tables s)).
Qed.

Lemma handle_external_state_mutation_ok m :
  triple (λ t, obj_inv t ∧ inbox_room t) (handle_external_state_mutation m) (λ _, obj_inv).
Proof.
  unfold handle_external_state_mutation. rewrite Hnoq. apply tr_reads. intros [holder|].
  - intros s Hn [[[Hc Hl] Hroom] Hv]. unfold synced in *.
    unfold enqueue_into_inbox, set_inbox_seq_number, sm_bind. simpl.
    rewrite Hn. simpl. rewrite inbox_next by done. split; [done|]. split; [by destruct Hc|]. eapply locks_step; [exact Hl|]. apply step_mutation. by eexists.
  - apply (tr_pre obj_inv); [by intros t [[]]|]. apply tr_quiet; [apply _|wr].
Qed.

Lemma on_scheduler_action_ok qid a : triple obj_inv (on_scheduler_action qid a) (λ _, obj_inv).
Proof.
  apply (tr_calm _ (λ _, True)). destruct a as [|key ws|key at_ r]; simpl; [apply vk_lift; discriminate| |].
  - unfold attempt_to_run. destruct (ei_kind (ek_entry_id key)); [apply vk_lift; discriminate| |].
    + unfold run_invocation. cbv zeta. do 2 (eapply vk_bind; [apply _|vk_known|]; intros ? _).
      apply vk_read_entry; [apply _|]. by apply vk_ret.
    + unfold run_state_mutation. cbv zeta. apply vk_read_entry; [apply _|].
      eapply vk_bind; [apply _|vk_known|]. intros local _.
      apply (vk_bind _ _ _ (λ x : EntryKey * option EntryStatusHeader, x.2 = None)).
      * destruct local; [apply vk_read_entry; [apply _|]|]; by apply vk_ret.
      * intros x Hx. rewrite Hx. by apply vk_ret.
  - eapply vk_bind; [apply _|vk_known|]. intros id _. by apply yield_invocation_command_vk, _.
Qed.

Lemma on_neo_invoke_timer_ok id :
  triple (λ t, obj_inv t ∧ inbox_room t) (on_neo_invoke_timer id) (λ _, obj_inv).
Proof.
  unfold on_neo_invoke_timer. apply tr_read_status_room. intros st Hr.
  destruct st as [i|i|m|m f|m|c|]; try done; [|apply tr_ret; by intros t [[]]]. simpl in Hr.
  destruct (pf_vqueue_id (sch_metadata i)) eqn:Hq; [done|].
  eapply tr_pre; [|apply (start_ok id (sch_metadata i) (sm_ret tt) (λ _, sm_ret tt)); [done|wr|intros; wr]].
  intros t [[Hi Ht] Hroom]. split; [done|]. rewrite Ht. simpl. by rewrite Hq.
Qed.

Lemma tr_no_room {A} (m : M A) Q : triple obj_inv m Q → triple (λ t, obj_inv t ∧ inbox_room t) m Q.
Proof. apply tr_pre. by intros t []. Qed.

Lemma on_timer_ok tm : triple (λ t, obj_inv t ∧ inbox_room t) (on_timer tm) (λ _, obj_inv).
Proof.
  unfold on_timer. apply tr_seq; [apply _|wr|]. intros _. destruct tm.2 as [si|id i|id|id].
  - apply on_service_invocation_ok.
  - apply tr_no_room, tr_read_status. intros st Hr. destruct (should_use_journal_table_v2 st).
    + eapply tr_vk. by apply on_journal_notification_vk.
    + eapply tr_vk. by apply handle_completion_vk.
  - eapply tr_no_room, tr_calm, on_purge_command_vk.
  - apply on_neo_invoke_timer_ok.
Qed.

(** The id of a restart is the id of no invocation. *)
Definition restart_fresh (r : Record_) (t : T) : Prop :=
  match r with
  | CmdRestartAsNewInvocation q => get_invocation_status (rs_new_invocation_id q) t = Free
  | _ => True
  end.

Lemma on_restart_as_new_command_ok r :
  triple (λ t, (obj_inv t ∧ inbox_room t) ∧ role_of (rs_new_invocation_id r) t = ROther) (on_restart_as_new_command r)
    (λ _, obj_inv).
Proof.
  unfold on_restart_as_new_command. cbv zeta. intros s Hn [[Hi Hroom] Hnew]. unfold sm_bind at 1. simpl.
  destruct (get_invocation_status (rs_invocation_id r) (v_tables s)) as [i|i|m|m f|m|c|] eqn:Hst;
    try (apply (tr_quiet obj_inv (reply _ _) ltac:(wr) s Hn Hi)).
  destruct (_ <=? _); [apply (tr_quiet obj_inv (reply _ _) ltac:(wr) s Hn Hi)|].
  assert (co_vqueue_id c = None) as Hq.
  { pose proof (ca_roles _ (oi_calm _ _ Hi) (rs_invocation_id r)) as Hc. unfold role_of in Hc.
    rewrite Hst in Hc. simpl in Hc. by destruct (co_vqueue_id c). }
  apply (tr_seq (λ t, (obj_inv t ∧ inbox_room t) ∧ role_of (rs_new_invocation_id r) t = ROther)
           (copy_journal (rs_invocation_id r) (rs_new_invocation_id r)
              (rs_copy_prefix_up_to_index_included r) (length (co_journal_metadata c)))
           (λ copied, on_pre_flight_invocation (rs_new_invocation_id r) (restarted_metadata r c copied) None ;;
                      reply (rs_response_sink r) (ReplyRestartAsNew (RestartOk (rs_new_invocation_id r))))
           (λ _, obj_inv) ltac:(wr)); [|done|done].
  intros copied. apply tr_end; [apply _| |intros; wr]. apply on_pre_flight_invocation_ok. simpl.
  by rewrite Hq, Hnoq.
Qed.

Lemma handle_journal_entry_ok id m i e :
  triple (with_status id (Invoked m)) (handle_journal_entry id i e m) (λ _, obj_inv).
Proof.
  unfold handle_journal_entry. apply tr_seq; [apply _|wr|]. intros e'.
  apply tr_end; [apply _| |intros; wr]. eapply tr_vk. by apply append_journal_entry_v1_vk.
Qed.

Lemma try_invoker_effect_ok e : triple obj_inv (try_invoker_effect e) (λ _, obj_inv).
Proof.
  unfold try_invoker_effect. apply tr_read_status. intros st Hr. unfold on_invoker_effect. cbv zeta.
  destruct st as [i|i|m|m f|m|c|]; try (apply tr_drop, (tr_quiet obj_inv); wr).
  destruct (eff_kind e) as [pd|i en|ack en|ev|w|w|f|ev| |err|r ev at_].
  - by apply on_pinned_deployment_ok.
  - apply handle_journal_entry_ok.
  - unfold on_journal_entry. apply tr_end; [apply _| |intros; destruct ack; wr].
    eapply tr_vk. by apply on_journal_entry_command_vk.
  - apply tr_drop, (tr_quiet obj_inv). wr.
  - apply tr_seq; [apply _|wr|]. intros [].
    + eapply (tr_vk _ (Invoked m)). by apply do_resume_service_vk.
    + eapply (tr_vk _ (Invoked m)). by apply do_suspend_service_vk.
  - eapply tr_vk. by apply on_suspend_command_vk.
  - eapply tr_vk. by apply on_suspend_command_vk.
  - apply tr_drop. eapply tr_calm, on_paused_command_vk.
  - eapply tr_pre; [|apply end_invocation_ok]. done.
  - eapply tr_pre; [|apply end_invocation_ok]. done.
  - apply tr_seq; [apply _|destruct ev; wr|]. intros _. apply tr_drop.
    eapply tr_calm, yield_invocation_command_vk, _.
Qed.

Lemma tr_for {A} (f : A → M unit) l :
  (∀ x, triple obj_inv (f x) (λ _, obj_inv)) → triple obj_inv (sm_for f l) (λ _, obj_inv).
Proof.
  intros Hf. induction l as [|x l IH]; simpl; [by apply tr_ret|]. eapply tr_bind; [apply Hf|done].
Qed.

Lemma on_each_queue_ok f qids :
  (∀ h t, writes_only (false, true) (f h t)) → triple obj_inv (on_each_queue f qids) (λ _, obj_inv).
Proof. intros Hf. apply (tr_quiet obj_inv). wr. Qed.

Lemma on_apply_ok r :
  triple (λ t, (obj_inv t ∧ inbox_room t) ∧ restart_fresh r t) (on_apply r) (λ _, obj_inv).
Proof.
  destruct r; simpl;
    lazymatch goal with
    | |- triple _ (on_restart_as_new_command _) _ => idtac
    | |- _ => apply (tr_pre (λ t, obj_inv t ∧ inbox_room t)); [by intros ? []|];
              try (by apply tr_no_room, tr_quiet; [apply _|wr])
    end.
  - apply tr_no_room, tr_for. intros [qid actions]. apply tr_for. intros a. apply on_scheduler_action_ok.
  - apply on_service_invocation_ok.
  - eapply tr_no_room, tr_calm, on_invocation_response_vk.
  - eapply tr_no_room, tr_calm, handle_attach_invocation_request_vk.
  - apply tr_no_room, try_invoker_effect_ok.
  - apply on_timer_ok.
  - apply tr_no_room. unfold on_terminate_invocation.
    destruct (term_flavor _); [apply on_kill_invocation_ok|apply on_cancel_invocation_ok].
  - eapply tr_no_room, tr_calm, on_purge_command_vk.
  - eapply tr_no_room, tr_calm, on_purge_journal_command_vk.
  - eapply tr_no_room, tr_calm, on_manual_resume_command_vk.
  - eapply tr_no_room, tr_calm, on_manual_pause_command_vk.
  - eapply tr_pre; [|apply on_restart_as_new_command_ok]. intros t [Hi Hn]. split; [done|].
    unfold role_of. by rewrite Hn.
  - apply handle_external_state_mutation_ok.
  - apply tr_no_room, on_notify_signal_ok.
  - eapply tr_no_room, tr_calm, on_notify_get_invocation_output_response_vk.
Qed.
End transitions.

(** ** Records refine the lock service *)

Definition objects `{!Digests} (t : T) : Objects :=
  mkObjects None (λ id, role_of id t) (t_vo t) (t_inbox t) (t_inbox_seq t).

(** A partition without virtual queues applies a record; whether the replica leads,
    and which queues it has cached, does not matter.  The sequence numbers in memory are
    the stored ones, and the 64-bit number of the inbox is not used up. *)
Inductive record_step `{!Digests, !Base62, !Base64, !StateKeysCodec} (t t' : T) : Prop :=
| applied (K : SlotKeys) (C : Ctx) (r : Record_) (s s' : PState) :
    v_tables s = t → v_tables s' = t' → is_vqueues_enabled features = false → restart_fresh r t →
    synced s → inbox_room t → on_apply r s = (s', Ok tt) → record_step t t'.

Section partitions.
Context `{!Digests, !Base62, !Base64, !StateKeysCodec}.

Record objects_inv (t : T) : Prop := { ov_calm : calm t; ov_ok : objects_ok (objects t) }.

Lemma record_step_refines t t' :
  objects_inv t → record_step t t' → objects_inv t' ∧ ∃ ls, lock_steps ls (objects t) (objects t').
Proof.
  intros [Hc Ho] [K C r s s' <- <- Hf Hn Hsy Hroom Ha].
  pose proof (@on_apply_ok _ K C _ _ _ (objects (v_tables s)) Hf r s Hsy) as Hx. rewrite Ha in Hx.
  destruct Hx as (_ & Hc' & [Ho' Hs']); [|by split].
  split; [|done]. split; [|done]. split; [done|]. split; [done|]. exists []. constructor.
Qed.

Lemma empty_objects_inv : objects_inv empty_tables.
Proof.
  assert (∀ id, role_of id empty_tables = ROther) as Hr.
  { intros id. unfold role_of, get_invocation_status. simpl. by rewrite lookup_empty. }
  split; [split; [|done]; intros id; by rewrite Hr|].
  split; simpl; intros *; rewrite ?Hr, ?lookup_empty; done.
Qed.

Lemma reachable_inv t : rtc record_step empty_tables t → objects_inv t.
Proof.
  intros Hr. pose proof empty_objects_inv as Hi. induction Hr as [|t1 t2 t3 Hs _ IH]; [done|].
  apply IH. by eapply record_step_refines.
Qed.

(** An exclusive handler of the object is in flight. *)
Definition in_flight_exclusive (id : InvocationId) (k : VoKey) (t : T) : Prop :=
  ∃ m, get_invocation_metadata (get_invocation_status id t) = Some m ∧
       exclusive_key (if_invocation_target m) = Some k.
(** An invocation waits for the object, with a number of its inbox. *)
Definition waits_for (id : InvocationId) (k : VoKey) (n : Z) (t : T) : Prop :=
  ∃ i, get_invocation_status id t = Inboxed i ∧
       exclusive_key (pf_invocation_target (inb_metadata i)) = Some k ∧ inb_sequence_number i = n.

Lemma in_flight_exclusive_role t id k :
  calm t → in_flight_exclusive id k t ↔ role_of id t = RHolding k.
Proof.
  intros Hc. pose proof (ca_roles _ Hc id) as Hq. unfold in_flight_exclusive, role_of in *. split.
  - intros (m & Hm & Hk). rewrite (metadata_role _ _ Hm) in *. apply not_queued in Hq.
    unfold in_flight_role. by rewrite Hq, Hk.
  - intros Hr. destruct (get_invocation_metadata (get_invocation_status id t)) as [m|] eqn:Hm.
    + exists m. split; [done|]. rewrite (metadata_role _ _ Hm) in Hr. unfold in_flight_role in Hr.
      destruct (if_vqueue_id m); [done|]. by destruct (exclusive_key _); simplify_eq.
    + destruct (get_invocation_status id t); simpl in *; repeat case_match; done.
Qed.
Lemma waits_for_role t id k n : calm t → waits_for id k n t ↔ role_of id t = RWaiting k n.
Proof.
  intros Hc. pose proof (ca_roles _ Hc id) as Hq. unfold waits_for, role_of in *. split.
  - intros (i & Hi & Hk & Hn). rewrite Hi in *. simpl in *. rewrite Hk in *.
    destruct (pf_vqueue_id _); [done|]. by rewrite Hn.
  - destruct (get_invocation_status id t) as [i|i|m|m f|m|c|]; simpl in *; unfold in_flight_role;
      repeat case_match; intros [=]. exists i. by subst.
Qed.
End partitions.
