(* ===== verification/ObjectTurns.v ===== *)
(** * Turns of exclusive handlers

    What the refinement of [ObjectLocks] gives for the partitions that records can
    reach: exclusion of the handlers of an object, and a bound on how long an
    invocation waits for its turn. *)

From stdpp Require Import strings.
From S2P Require Import Prelude UnresolvedFuture Clock Invocation InvocationStatus JournalV1.
From S2P Require Import IdText VQueueMeta PartitionStore VQueueCache VQueue StateMachineBase.
From S2P Require Import InvocationLifecycle JournalEntries JournalV1Handlers StateMachine.
From S2P Require Import Replicas Demo Writes LockService ObjectLocks.

Open Scope Z_scope.

(** ** An execution to look at: two invocations of one object *)

Definition demo_invocation_of (uuid : Z) : ServiceInvocation :=
  {| si_invocation_id := {| inv_partition_key := 1; inv_uuid := uuid |};
     si_invocation_target := demo_target; si_argument := ""; si_source := SourceIngress 1;
     si_span_context := ""; si_headers := []; si_execution_time := None;
     si_completion_retention_duration := 0; si_journal_retention_duration := 0;
     si_idempotency_key := None; si_limit_key := LimitNone; si_response_sink := None;
     si_submit_notification_sink := None; si_restate_version := "" |}.
Definition first_id : InvocationId := {| inv_partition_key := 1; inv_uuid := 7 |}.
Definition second_id : InvocationId := {| inv_partition_key := 1; inv_uuid := 8 |}.

Definition demo_run (r : Record_) (s : PState) : PState * res Error unit :=
  @on_apply _ _ (demo_ctx no_features 1700000000000 1) _ _ _ r s.
Definition turn0 : PState := mkV empty_tables (new_empty 4) [] (mkNumbers 0 0).
Definition turn1 : PState := (demo_run (CmdInvoke (demo_invocation_of 7)) turn0).1.
Definition turn2 : PState := (demo_run (CmdInvoke (demo_invocation_of 8)) turn1).1.
Definition turn3 : PState :=
  (demo_run (CmdInvokerEffect {| eff_invocation_id := first_id; eff_kind := EffEnd |}) turn2).1.

Definition ok_unit (r : res Error unit) : bool := match r with Ok _ => true | _ => false end.

Lemma turns_ok :
  ok_unit (demo_run (CmdInvoke (demo_invocation_of 7)) turn0).2 = true ∧
  ok_unit (demo_run (CmdInvoke (demo_invocation_of 8)) turn1).2 = true ∧
  ok_unit (demo_run (CmdInvokerEffect {| eff_invocation_id := first_id; eff_kind := EffEnd |}) turn2).2 = true.
Proof. vm_compute. done. Qed.

Lemma demo_record_step r s :
  restart_fresh r (v_tables s) → synced s → inbox_room (v_tables s) →
  ok_unit (demo_run r s).2 = true →
  record_step (v_tables s) (v_tables (demo_run r s).1).
Proof.
  intros Hr Hn Hi Ho. destruct (demo_run r s) as [s' [[]| |]] eqn:E; try done.
  by eapply (applied _ _ _ (demo_ctx no_features 1700000000000 1) r s s').
Qed.

Lemma demo_turns :
  record_step empty_tables (v_tables turn1) ∧ record_step (v_tables turn1) (v_tables turn2) ∧
  record_step (v_tables turn2) (v_tables turn3).
Proof.
  destruct turns_ok as (H1 & H2 & H3).
  split_and!; [apply (demo_record_step _ turn0)|apply (demo_record_step _ turn1)
    |apply (demo_record_step _ turn2)];
    [exact I|vm_compute; reflexivity|vm_compute; split; [discriminate|reflexivity]|assumption
    |exact I|vm_compute; reflexivity|vm_compute; split; [discriminate|reflexivity]|assumption
    |exact I|vm_compute; reflexivity|vm_compute; split; [discriminate|reflexivity]|assumption].
Qed.

Lemma turn2_reachable : rtc record_step empty_tables (v_tables turn2).
Proof. destruct demo_turns as (S1 & S2 & _). exact (rtc_l _ _ _ _ S1 (rtc_once _ _ S2)). Qed.

(** ** Exclusion *)

(** C6: exclusive handlers of a virtual object never overlap.  In every partition
    without virtual queues that records can lead to before the 64-bit number of the
    inbox is used up, at most one exclusive invocation of an object is in flight
    (running, suspended or paused), it is the one that the lock of the object names, a
    lock is held only by an invocation in flight, and whoever waits in an inbox waits for
    an invocation in flight.  The id that a restart-as-new gives is assumed to be
    free, and the numbers in memory to be the stored ones ([record_step]). *)
Theorem exclusive_handlers_never_overlap `{!Digests, !Base62, !Base64, !StateKeysCodec} (t : T) :
  rtc record_step empty_tables t →
  (∀ id1 id2 k, in_flight_exclusive id1 k t → in_flight_exclusive id2 k t → id1 = id2) ∧
  (∀ id k, t_vo t !! k = Some id ↔ in_flight_exclusive id k t) ∧
  (∀ id k n, waits_for id k n t → ∃ holder, holder ≠ id ∧ in_flight_exclusive holder k t).
Proof.
  intros [Hc Ho]%reachable_inv.
  assert (∀ id k, t_vo t !! k = Some id ↔ in_flight_exclusive id k t) as Hl.
  { intros id k. rewrite in_flight_exclusive_role by done. split.
    - intros Hk. by apply (lo_lock _ _ _ _ _ Ho).
    - intros Hr. by apply (lo_held _ _ _ _ _ Ho id k Hr). }
  split_and!; [|done|].
  - intros id1 id2 k Hk1%Hl Hk2%Hl. congruence.
  - intros id k n Hw%waits_for_role; [|done].
    destruct (lo_waiting _ _ _ _ _ Ho _ _ _ Hw) as [sid Hi].
    destruct (lo_busy _ _ _ _ _ Ho _ _ _ Hi) as [holder Hh]; [done|]. exists holder. simpl in Hh.
    split; [|by apply Hl]. intros ->. apply (lo_lock _ _ _ _ _ Ho) in Hh; [|done]. simpl in *. congruence.
Qed.

Lemma exclusive_handlers_never_overlap_witness :
  (∃ k, t_vo (v_tables turn2) !! k = Some first_id ∧ in_flight_exclusive first_id k (v_tables turn2)) ∧
  (∀ k, in_flight_exclusive second_id k (v_tables turn2) → ¬ in_flight_exclusive first_id k (v_tables turn2)).
Proof.
  destruct (exclusive_handlers_never_overlap (v_tables turn2) turn2_reachable) as (H1 & H2 & _).
  split.
  - exists (1, "svc", "k"). assert (t_vo (v_tables turn2) !! (1, "svc", "k") = Some first_id) as Hv
      by (vm_compute; reflexivity). split; [done|]. by apply H2.
  - intros k Hs Hf. specialize (H1 _ _ _ Hs Hf). discriminate H1.
Defined.

(** ** The lock service *)

(** C7: the locks and inboxes of a partition are an implementation of the lock
    service.  Whatever record a reachable partition applies, before the 64-bit number
    of the inbox is used up, the roles of its invocations, its locks and its inboxes
    change by steps of [lock_step]: a lock is taken only when it is free, is passed on
    only by its holder and only to the first of the inbox, and is freed only when the
    inbox is empty.  The id that a restart-as-new gives is assumed to be free,
    and the numbers in memory to be the stored ones ([record_step]). *)
Theorem records_refine_lock_service `{!Digests, !Base62, !Base64, !StateKeysCodec} (t t' : T) :
  rtc record_step empty_tables t → record_step t t' →
  ∃ ls, lock_steps ls (objects t) (objects t').
Proof. intros Ht%reachable_inv Hs. by apply (record_step_refines t t'). Qed.

Lemma records_refine_lock_service_witness :
  (∃ ls, lock_steps ls (objects (v_tables turn2)) (objects (v_tables turn3))) ∧
  t_vo (v_tables turn3) !! (1, "svc", "k") = Some second_id.
Proof.
  destruct demo_turns as (S1 & S2 & S3). split; [|vm_compute; reflexivity].
  exact (records_refine_lock_service (v_tables turn2) (v_tables turn3) turn2_reachable S3).
Defined.

(** ** Bounded waiting *)

Section waiting.
Context `{!Digests, !Base62, !Base64, !StateKeysCodec}.

(** Partitions, each reached from the one before by a record. *)
Fixpoint chain (t : T) (ts : list T) : Prop :=
  match ts with [] => True | t' :: ts => record_step t t' ∧ chain t' ts end.

(** How often the lock of the object changes hands along the way. *)
Fixpoint changes (k : VoKey) (t : T) (ts : list T) : nat :=
  match ts with
  | [] => 0
  | t' :: ts => (if decide (t_vo t' !! k = t_vo t !! k) then 0 else 1) + changes k t' ts
  end.

Lemma no_more_steps ls a b id k n :
  lock_steps ls a b → waits_no_more id k n a → waits_no_more id k n b.
Proof. induction 1 as [|ls l a b c _ IH Hl]; [done|]. intros Hn. eapply no_more_step; eauto. Qed.

Lemma last_next (t t' : T) ts : List.last (t' :: ts) t = List.last ts t'.
Proof. revert t'. induction ts as [|x ts IH]; intros t'; [done|]. simpl in *. by destruct ts. Qed.

(** One record: the lock stays, or the invocation advances. *)
Lemma waiting_record t t' id k n j :
  objects_inv t → record_step t t' → waits_at_most id k n j (objects t) →
  let c := if decide (t_vo t' !! k = t_vo t !! k) then 0%nat else 1%nat in
  waits_no_more id k n (objects t') ∨ ((c ≤ j)%nat ∧ waits_at_most id k n (j - c) (objects t')).
Proof.
  intros Hi Hs Hw. destruct (record_step_refines t t' Hi Hs) as [_ [ls Hls]].
  pose proof (waiting_steps _ _ _ _ _ _ _ Hls (ov_ok _ Hi) Hw) as Hj.
  destruct (decide (handed_over k ls ≤ j)%nat) as [Hle|]; [|by left].
  destruct Hj as [Hn' Hj'], Hw as [Hn Hj].
  destruct (decide (ob_roles (objects t') id = RWaiting k n)) as [Hr'|Hr']; [|by left].
  destruct (decide (ob_roles (objects t) id = RWaiting k n)) as [Hr|Hr].
  - right. pose proof (waiting_lock_steps _ _ _ id k n Hls (ov_ok _ Hi) Hn Hr Hr') as Hl. simpl in Hl.
    assert ((if decide (t_vo t' !! k = t_vo t !! k) then 0 else 1) ≤ handed_over k ls)%nat as Hc.
    { case_decide; [lia|]. destruct (handed_over k ls); [by rewrite Hl in *|lia]. }
    split; [lia|]. split; [done|]. intros Hx. specialize (Hj' Hx). lia.
  - left. by eapply no_more_steps.
Qed.

Lemma waiting_chain t ts id k n j :
  objects_inv t → chain t ts → waits_at_most id k n j (objects t) → (j < changes k t ts)%nat →
  waits_no_more id k n (objects (List.last ts t)).
Proof.
  revert t j. induction ts as [|t' ts IH]; intros t j Hi Hc Hw Hj; simpl in Hj; [lia|].
  destruct Hc as [Hs Hc]. destruct (record_step_refines t t' Hi Hs) as [Hi' _].
  rewrite last_next.
  destruct (waiting_record t t' id k n j Hi Hs Hw) as [Hn|[Hle Hw']].
  - clear -Hi' Hc Hn. revert t' Hi' Hc Hn. induction ts as [|t2 ts IH]; intros t1 Hi Hc Hn; [done|].
    destruct Hc as [Hs Hc]. destruct (record_step_refines t1 t2 Hi Hs) as [Hi2 [ls Hls]].
    rewrite last_next.
    apply IH; [done|done|]. by eapply no_more_steps.
  - eapply IH; [done|done|exact Hw'|]. lia.
Qed.
End waiting.

(** C8: waiting is bounded.  Let an exclusive invocation wait in the inbox of its object
    with some others ahead of it.  Whatever records the partition applies before the
    64-bit number of the inbox is used up, once the lock of the object has changed hands
    more often than there were invocations ahead, the invocation waits no more: later
    arrivals cannot overtake it.  The id that a restart-as-new gives is assumed to be
    free, and the numbers in memory to be the stored ones ([record_step]). *)
Theorem waiting_is_bounded `{!Digests, !Base62, !Base64, !StateKeysCodec} (t : T) (ts : list T)
    (id : InvocationId) (k : VoKey) (n : Z) :
  rtc record_step empty_tables t → chain t ts → waits_for id k n t →
  (ahead k n (t_inbox t) < changes k t ts)%nat → ¬ waits_for id k n (List.last ts t).
Proof.
  intros Hr Hc Hw Hj. pose proof (reachable_inv t Hr) as Hi. apply waits_for_role in Hw; [|apply Hi].
  assert (objects_inv (List.last ts t)) as Hl.
  { clear -Hi Hc. revert t Hi Hc. induction ts as [|t' ts IH]; intros t Hi Hc; [done|].
    destruct Hc as [Hs Hc]. rewrite last_next. apply IH; [|done]. by eapply record_step_refines. }
  rewrite waits_for_role by apply Hl.
  destruct (lo_waiting _ _ _ _ _ (ov_ok _ Hi) _ _ _ Hw) as [sid Hin].
  eapply (waiting_chain t ts id k n (ahead k n (t_inbox t))); [done|done| |done].
  split; [|done]. by apply (lo_seq _ _ _ _ _ (ov_ok _ Hi) k n _ Hin).
Qed.

Lemma waiting_is_bounded_witness :
  waits_for second_id (1, "svc", "k") 0 (v_tables turn2) ∧
  changes (1, "svc", "k") (v_tables turn2) [v_tables turn3] = 1%nat ∧
  ¬ waits_for second_id (1, "svc", "k") 0 (v_tables turn3).
Proof.
  destruct demo_turns as (S1 & S2 & S3).
  assert (waits_for second_id (1, "svc", "k") 0 (v_tables turn2)) as Hw.
  { destruct (get_invocation_status second_id (v_tables turn2)) as [i|i|m|m f|m|c|] eqn:E;
      [by vm_compute in E|exists i|by vm_compute in E..].
    vm_compute in E. injection E as <-. split_and!; vm_compute; reflexivity. }
  assert (changes (1, "svc", "k") (v_tables turn2) [v_tables turn3] = 1%nat) as Hc by (vm_compute; reflexivity).
  split_and!; [done|done|].
  apply (waiting_is_bounded (v_tables turn2) [v_tables turn3] _ _ _ turn2_reachable (conj S3 I) Hw).
  rewrite Hc. vm_compute. constructor.
Defined.
