(* ===== verification/JournalProps.v ===== *)
(** * Appending to a journal

    The loop of [OnJournalEntryCommand] appends an entry and then the completions
    that its effects give.  It ends after two rounds ([append_entries_fuel]), so
    the bound that the model puts on it is none.  [notified] says what a
    notification makes of the status of its invocation. *)

From stdpp Require Import strings.
From S2P Require Import Prelude UnresolvedFuture Clock Invocation InvocationStatus JournalV1.
From S2P Require Import IdText VQueueMeta PartitionStore VQueueCache VQueue StateMachineBase.
From S2P Require Import InvocationLifecycle JournalEntries JournalV1Handlers StateMachine Writes.

Open Scope Z_scope.

(** What a handler returns and leaves in the tables, if it succeeds. *)
Definition gives {A} (m : M A) (Q : A → T → Prop) : Prop := ∀ s,
  match m s with (s', Ok a) => Q a (v_tables s') | _ => True end.
Definition returns {A} (m : M A) (Q : A → Prop) : Prop := gives m (λ a _, Q a).

Lemma gi_bind {A B} (m : M A) (k : A → M B) (P : A → Prop) (Q : B → T → Prop) :
  returns m P → (∀ a, P a → gives (k a) Q) → gives (sm_bind m k) Q.
Proof.
  intros Hm Hk s. unfold sm_bind. specialize (Hm s). destruct (m s) as [s' [a| |]]; [|done..].
  by apply Hk.
Qed.
Lemma re_bind {A B} (m : M A) (k : A → M B) (P : A → Prop) (Q : B → Prop) :
  returns m P → (∀ a, P a → returns (k a) Q) → returns (sm_bind m k) Q.
Proof. apply gi_bind. Qed.
Lemma re_post {A} (m : M A) (P Q : A → Prop) : (∀ a, P a → Q a) → returns m P → returns m Q.
Proof. intros HQ Hm s. specialize (Hm s). destruct (m s) as [s' [a| |]]; [|done..]. by apply HQ. Qed.
Lemma re_ret {A} (a : A) (Q : A → Prop) : Q a → returns (sm_ret a) Q.
Proof. by intros Ha s. Qed.
Lemma re_fail {A} (x : res Error A) Q : (∀ a, x ≠ Ok a) → returns (sm_lift x) Q.
Proof. intros Hx s. destruct x; [|done..]. by specialize (Hx a). Qed.
Lemma re_any {A} (m : M A) : returns m (λ _, True).
Proof. intros s. by destruct (m s) as [s' [a| |]]. Qed.

Ltac re_step :=
  cbv zeta;
  lazymatch goal with
  | |- returns (sm_bind _ _) _ => eapply re_bind; [apply re_any|intros ? _]
  | |- returns (sm_ret _) _ => apply re_ret
  | |- returns (sm_lift _) _ => by apply re_fail
  | |- returns (match ?x with _ => _ end) _ => destruct x eqn:?
  end.

Section journals.
Context `{!Digests, !SlotKeys, !Ctx}.

(** ** The loop *)

(** The entries that are appended after an entry. *)
Lemma apply_command_returns id st c :
  returns (apply_command id st c) (λ cs, (List.length cs ≤ 1)%nat).
Proof.
  destruct c; unfold apply_command, apply_get_lazy_state, apply_set_state, apply_clear_state,
    apply_clear_all_state, apply_get_lazy_state_keys, apply_get_promise, apply_peek_promise,
    apply_complete_promise, apply_sleep, apply_call, apply_attach, apply_complete_awakeable,
    apply_send_signal; repeat re_step; simpl; lia.
Qed.

Lemma append_entry_returns id st e :
  returns (append_entry id st e)
    (λ r, (List.length r.2 ≤ if is_command e then 1 else 0)%nat).
Proof.
  unfold append_entry. re_step. cbv zeta.
  apply (re_bind _ _ (λ x : InvocationStatus * list Completion * list Z,
    (List.length x.1.2 ≤ if is_command e then 1 else 0)%nat)).
  - destruct e as [raw|n]; [|re_step; by apply re_ret]. re_step; [|re_step].
    eapply re_bind; [apply apply_command_returns|]. intros cs Hcs. by apply re_ret.
  - intros [[st' cs] rel] Hcs. do 2 re_step. by apply re_ret.
Qed.

(** A completion has no completions. *)
Lemma append_completion_fuel fuel id st c s :
  append_entries (S fuel) id st [encode_completion c] s = append_entries 1 id st [encode_completion c] s.
Proof.
  simpl. unfold sm_bind. pose proof (append_entry_returns id st (encode_completion c) s) as Hr.
  destruct (append_entry id st (encode_completion c) s) as [s' [[st' cs]| |]]; [|done..].
  simpl in Hr. destruct cs; simpl in *; [|lia]. by destruct fuel.
Qed.

(** Two rounds are enough. *)
Lemma append_entries_fuel fuel id st e s :
  (2 ≤ fuel)%nat → append_entries fuel id st [e] s = append_entries 2 id st [e] s.
Proof.
  intros Hf. destruct fuel as [|[|fuel]]; [lia..|]. cbn [append_entries]. unfold sm_bind.
  pose proof (append_entry_returns id st e s) as Hr.
  destruct (append_entry id st e s) as [s' [[st' cs]| |]]; [|done..]. simpl in *.
  destruct cs as [|c [|? ?]]; [by destruct fuel| |destruct (is_command e); simpl in *; lia].
  exact (append_completion_fuel fuel id st' c s').
Qed.

(** The bound never cuts the loop short. *)
Lemma append_entries_total id st e s s' :
  append_entries 2 id st [e] s = (s', Panic) →
  (append_entry id st e s).2 = Panic ∨
  ∃ s1 st1 c, append_entry id st e s = (s1, Ok (st1, [c])) ∧
              (append_entry id st1 (encode_completion c) s1).2 = Panic.
Proof.
  cbn [append_entries]. unfold sm_bind. pose proof (append_entry_returns id st e s) as Hr.
  destruct (append_entry id st e s) as [s1 [[st1 cs]| |]]; simpl in *; [|done|by left].
  destruct cs as [|c [|? ?]]; [done| |destruct (is_command e); simpl in *; lia].
  intros E. right. exists s1, st1, c. split; [done|].
  pose proof (append_entry_returns id st1 (encode_completion c) s1) as Hc. simpl in E.
  fold (encode_completion c) in E. revert E.
  unfold sm_bind. destruct (append_entry id st1 (encode_completion c) s1) as [s2 [[st2 cs']| |]]; simpl; try done.
  destruct cs'; simpl in *; [done|lia].
Qed.

(** ** Notifications *)

(** What a notification makes of the status of an invocation. *)
Definition notified (n : RawNotification) (st st' : InvocationStatus) : Prop :=
  (if_pinned_deployment <$> get_invocation_metadata st') = (if_pinned_deployment <$> get_invocation_metadata st) ∧
  match st with
  | Invoked _ => ∃ m', st' = Invoked m'
  | Suspended _ f =>
      let '(f', resolved) := resolve (lookup_notification (rn_id n) (rn_result_variant n)) f in
      if resolved : bool then ∃ m', st' = Invoked m' else ∃ m', st' = Suspended m' f'
  | _ => True
  end.

Definition raw_of (n : Notification) : RawNotification :=
  {| rn_id := notification_id n; rn_result_variant := result_variant_of n; rn_content := Some n |}.
Definition running_or_suspended (st : InvocationStatus) : Prop :=
  is_suspended st = true ∨ ∃ m, st = Invoked m.

Lemma resume_returns id st m :
  get_invocation_metadata st = Some m →
  returns (resume_invocation_command id st)
    (λ st', ∃ m', st' = Invoked m' ∧ if_pinned_deployment m' = if_pinned_deployment m).
Proof.
  intros Hm. unfold resume_invocation_command. rewrite Hm. cbv zeta.
  apply (re_bind _ _ (λ m', if_pinned_deployment m' = if_pinned_deployment m)).
  - destruct (if_vqueue_id _); [re_step|]; by apply re_ret.
  - intros m' Hm'. apply re_ret. eauto.
Qed.

Lemma apply_notification_returns id st n i :
  returns (apply_notification id st n i) (λ st', running_or_suspended st → notified n st st').
Proof.
  unfold apply_notification, notified. destruct st as [| |m|m f|m| |]; try (by apply re_ret; intros [|[]]).
  - re_step. apply re_ret. intros _. split; [done|eauto].
  - destruct (resolve _ f) as [f' []] eqn:Hr.
    + eapply re_post; [|by apply resume_returns]. simpl. intros st' (m' & -> & Hp) _. simpl.
      split; [by rewrite Hp|eauto].
    + apply re_ret. intros _. split; [done|eauto].
  - case_bool_decide; [|by apply re_ret; intros [|[]]].
    eapply re_post; [|apply re_any]. simpl. intros ? _ [|[]]; done.
Qed.

Lemma notified_map n st st' (g : InFlightInvocationMetadata → InFlightInvocationMetadata) :
  (∀ m, if_pinned_deployment (g m) = if_pinned_deployment m) →
  notified n st st' → notified n st (map_invocation_metadata g st').
Proof.
  intros Hg [Hp Hn]. split.
  - rewrite <- Hp. destruct st'; simpl; rewrite ?Hg; done.
  - destruct st as [| |m|m f|m| |]; try done.
    + destruct Hn as [m' ->]. simpl. eauto.
    + destruct (resolve _ f) as [f' []]; destruct Hn as [m' ->]; simpl; eauto.
Qed.

(** The two changes that follow a notification. *)
Lemma notified_changes n st st' g h :
  is_Some (get_invocation_metadata st) → notified n st st' →
  notified n st (map_timestamps g st') ∧ notified n st (map_journal_metadata h st').
Proof.
  intros [m Hm] Hn. assert (is_Some (get_invocation_metadata st')) as [m' Hm'].
  { destruct Hn as [Hp _]. rewrite Hm in Hp. by destruct (get_invocation_metadata st'). }
  assert (map_timestamps g st' = map_invocation_metadata (if_with_timestamps g) st') as ->
    by (by destruct st').
  assert (map_journal_metadata h st' = map_invocation_metadata (if_with_journal_metadata h) st') as ->
    by (by destruct st').
  by split; apply notified_map.
Qed.

Lemma append_notification_returns id st n :
  running_or_suspended st →
  returns (append_entry id st (encode_notification n)) (λ r, r.2 = [] ∧ notified (raw_of n) st r.1).
Proof.
  intros Hst. unfold append_entry. re_step. cbv zeta.
  apply (re_bind _ _ (λ x : InvocationStatus * list Completion * list Z,
    x.1.2 = [] ∧ notified (raw_of n) st x.1.1)).
  - eapply re_bind; [apply apply_notification_returns|]. intros st' Hn. apply re_ret. auto.
  - intros [[st' cs] rel] [Hcs Hn]. simpl in Hcs. do 2 re_step. apply re_ret. simpl. split; [done|].
    apply (notified_changes _ st st' Datatypes.id (journal_appended false)); [|done].
    destruct st; try done; by destruct Hst as [|[]].
Qed.

(** The status after a notification to an invocation that is running or suspended,
    with a deployment. *)
Lemma on_journal_notification_notified id st m n :
  running_or_suspended st → get_invocation_metadata st = Some m → if_pinned_deployment m ≠ None →
  gives (on_journal_notification id st n)
    (λ _ t, notified (raw_of n) st (get_invocation_status id t)).
Proof.
  intros Hst Hm Hd. unfold on_journal_notification, on_journal_entry_command. rewrite Hm.
  apply (gi_bind _ _ (λ x, x = m)).
  { destruct (if_pinned_deployment m); [|done]. by apply re_ret. }
  intros x ->. cbv zeta.
  assert (map_invocation_metadata (λ _, m) st = st) as -> by (destruct st; simpl in *; congruence).
  apply (gi_bind _ _ (λ st', notified (raw_of n) st st')).
  - eapply re_bind; [by apply append_notification_returns|].
    intros [st' cs] [Hcs Hn]. simpl in Hcs. subst cs. by apply re_ret.
  - intros st' Hn s. unfold put_status, tables. simpl. rewrite get_put_status, decide_True by done.
    apply (notified_changes _ st st' _ Datatypes.id); [by rewrite Hm|done].
Qed.
End journals.
