(* ===== verification/WakeUps.v ===== *)
(** * Suspended invocations are woken up

    An invocation with a journal of the second format that is suspended awaits a
    future of notifications.  Notifications arrive in its journal from many
    records: completions of its commands, signals, cancellation, responses, timers.
    The invariant [awake] says that none of the notifications that a suspended
    invocation awaits is in its journal, and that the future does not complete
    without one of them; every record preserves it.

    Most handlers neither suspend an invocation nor append a notification
    ([writes_only (true, false)]).  The others handle one invocation, of which they
    have read the status: [ready]. *)

From stdpp Require Import strings.
From S2P Require Import Prelude UnresolvedFuture Clock Invocation InvocationStatus JournalV1.
From S2P Require Import IdText VQueueMeta PartitionStore VQueueCache VQueue StateMachineBase.
From S2P Require Import InvocationLifecycle JournalEntries JournalV1Handlers StateMachine.
From S2P Require Import Replicas Demo Writes ObjectLocks JournalProps.

Open Scope Z_scope.

(** ** The invariant *)

(** The journal of the invocation has nothing that the future awaits. *)
Record dormant (id : InvocationId) (f : UnresolvedFuture) (t : T) : Prop := {
  dm_missing : ∀ n, n ∈ flatten f → t_notifications t !! (id, n) = None;
  dm_pending : ∀ l : Lookup, (∀ n, n ∈ flatten f → l n = None) → resolve_inner l f = (f, Some Pending) }.

Definition fine (id : InvocationId) (st : InvocationStatus) (t : T) : Prop :=
  match st with
  | Suspended m f => should_use_journal_table_v2 st = true → dormant id f t
  | _ => True
  end.

Definition awake (t : T) : Prop := ∀ id, fine id (get_invocation_status id t) t.

(** The invariant, when the handler has the status of the invocation at hand. *)
Definition ready (id : InvocationId) (st : InvocationStatus) (t : T) : Prop := awake t ∧ fine id st t.
(** While the journal of the invocation is changed, only its new status counts. *)
Definition pending (id : InvocationId) (st : InvocationStatus) (t : T) : Prop :=
  (∀ id', id' ≠ id → fine id' (get_invocation_status id' t) t) ∧ fine id st t.

Lemma fine_calm id st t : is_suspended st = false → fine id st t.
Proof. by destruct st. Qed.
Lemma fine_dormant id m f t : dormant id f t → fine id (Suspended m f) t.
Proof. by intros ? ?. Qed.

Lemma fine_missing id st t t' :
  (∀ n, t_notifications t !! (id, n) = None → t_notifications t' !! (id, n) = None) →
  fine id st t → fine id st t'.
Proof.
  intros Hn. destruct st; try done. intros Hf [Hm Hp]%Hf. split; [|done]. auto.
Qed.

Lemma fine_metadata id g st t :
  (∀ m, if_pinned_deployment (g m) = if_pinned_deployment m) →
  fine id st t → fine id (map_invocation_metadata g st) t.
Proof.
  intros Hg. destruct st as [| | |m f| | |]; try done. simpl.
  unfold should_use_journal_table_v2. simpl. by rewrite Hg.
Qed.
Lemma fine_timestamps id g st t : fine id st t → fine id (map_timestamps g st) t.
Proof. by destruct st. Qed.
Lemma fine_journal id g st t : fine id st t → fine id (map_journal_metadata g st) t.
Proof. by destruct st. Qed.
Lemma fine_sinks id g st t : fine id st t → fine id (map_response_sinks g st) t.
Proof. by destruct st. Qed.

Create HintDb wake discriminated.
#[export] Hint Resolve fine_timestamps fine_journal fine_sinks fine_dormant : wake.

(** ** Writes that suspend nothing and append no notification *)

Record quieter (t t' : T) : Prop := {
  qt_notifications k : t_notifications t !! k = None → t_notifications t' !! k = None;
  qt_status id : get_invocation_status id t' = get_invocation_status id t
                 ∨ is_suspended (get_invocation_status id t') = false }.

Lemma quiet_write f t : write (true, false) f → quieter t (f t).
Proof.
  intros Hf. destruct Hf; simpl in *; try discriminate; try (split; [done|by left]).
  - split; [by destruct s|]. intros id'. rewrite get_put_status. case_decide; [by right|by left].
  - split; [done|]. intros id'. change (delete_invocation_status id t) with (put_invocation_status id Free t).
    rewrite get_put_status. case_decide; [by right|by left].
  - destruct l; (split; [done|by left]).
  - unfold put_journal_entry_v2. destruct (se_inner e); [split; [done|by left]|done].
  - split; [|by left]. intros k Hk. simpl. apply map_lookup_filter_None. by left.
Qed.

Lemma quieter_fine id st t t' : quieter t t' → fine id st t → fine id st t'.
Proof. intros [Hn _]. apply fine_missing. auto. Qed.
Lemma quieter_status id t t' :
  quieter t t' → fine id (get_invocation_status id t) t → fine id (get_invocation_status id t') t'.
Proof.
  intros Hq Hf. destruct (qt_status _ _ Hq id) as [->|Hs]; [by eapply quieter_fine|by apply fine_calm].
Qed.

#[export] Instance awake_kept : Kept (true, false) awake.
Proof. intros f t Hf Ha id. by apply (quieter_status id t), Ha; apply quiet_write. Qed.
#[export] Instance ready_kept id st : Kept (true, false) (ready id st).
Proof.
  intros f t Hf [Ha Hst]. split; [by apply (awake_kept f t)|].
  by apply (quieter_fine id st t); [apply quiet_write|].
Qed.
#[export] Instance pending_kept id st : Kept (true, false) (pending id st).
Proof.
  intros f t Hf [Ha Hst]. apply quiet_write with (t := t) in Hf. split.
  - intros id' Hid. apply (quieter_status id' t); auto.
  - by apply (quieter_fine id st t).
Qed.
#[export] Instance dormant_kept id f : Kept (true, false) (λ t, awake t ∧ dormant id f t).
Proof.
  intros g t Hg [Ha [Hm Hp]]. split; [by apply (awake_kept g t)|]. split; [|done].
  intros n Hn. apply (quiet_write _ t) in Hg. apply (qt_notifications _ _ Hg). auto.
Qed.

(** A handler of which the writes suspend nothing and append no notification. *)
Ltac wk_quiet := apply (tr_kept (true, false)); [apply _|wr].
Ltac wk_seq := apply (tr_kept_seq (true, false)); [apply _|wr|intros ?].
Ltac wk_end := apply (tr_kept_end (true, false)); [apply _| |intros; wr].

Lemma ready_awake id st t : ready id st t → awake t.
Proof. by intros []. Qed.
Lemma ready_pending id st t : ready id st t → pending id st t.
Proof. intros [Ha Hf]. by split. Qed.

Lemma wk_drop {A} id st (m : M A) Q : triple awake m Q → triple (ready id st) m Q.
Proof. apply tr_pre, ready_awake. Qed.

Lemma put_pending id st t : pending id st t → awake (put_invocation_status id st t).
Proof.
  intros [Ho Hf] id'. rewrite get_put_status. case_decide as E.
  - subst. eapply fine_missing; [|exact Hf]. by destruct st.
  - eapply fine_missing; [|by apply Ho]. by destruct st.
Qed.
Lemma wk_put_pending id st : triple (pending id st) (put_status id st) (λ _, awake).
Proof.
  intros s Hn Hs. split; [by apply tables_synced; [apply status_unnumbered|]|by apply put_pending].
Qed.
Lemma wk_put id st st' :
  (∀ t, fine id st t → fine id st' t) → triple (ready id st) (put_status id st') (λ _, awake).
Proof.
  intros Hf. eapply tr_pre; [|apply wk_put_pending]. intros t [Ha Ht].
  apply ready_pending. split; [done|auto].
Qed.

Lemma wk_read {A} id (k : InvocationStatus → M A) R :
  (∀ st, triple (ready id st) (k st) R) → triple awake (let* st := read_status id in k st) R.
Proof. intros Hk s Hn Hs. apply (Hk _ s); [done|]. by split; [|apply Hs]. Qed.

Lemma wk_for {A} (f : A → M unit) l :
  (∀ x, triple awake (f x) (λ _, awake)) → triple awake (sm_for f l) (λ _, awake).
Proof.
  intros Hf. induction l as [|x l IH]; simpl; [by apply tr_ret|]. eapply tr_bind; [apply Hf|done].
Qed.

(** ** The journal of one invocation *)

Lemma lookup_notifications_index id (t : T) n :
  get_notifications_index id t !! n = t_notifications t !! (id, n).
Proof.
  unfold get_notifications_index. apply option_eq. intros v. rewrite <- elem_of_list_to_map.
  - rewrite list_elem_of_omap. split.
    + intros ([[i m] x] & Hin%elem_of_map_to_list & E). by case_decide; simplify_eq.
    + intros Hv. exists (id, n, v). rewrite elem_of_map_to_list, decide_True; done.
  - assert (NoDup (map_to_list (t_notifications t)).*1) as Hd by apply NoDup_fst_map_to_list.
    induction (map_to_list (t_notifications t)) as [|[[i m] x] l IH]; simpl; [constructor|].
    apply NoDup_cons in Hd as [Hni Hd]. case_decide; [subst|by apply IH]. simpl. constructor; [|by apply IH].
    intros ([m' x'] & -> & ([[i' m2] x2] & Hin & E)%list_elem_of_omap)%list_elem_of_fmap.
    case_decide; simplify_eq. apply Hni, list_elem_of_fmap. eexists. by split; [|exact Hin].
Qed.

Section handlers.
Context `{!Digests, !SlotKeys, !Ctx, !Base62, !Base64, !StateKeysCodec}.

Lemma wk_resume P `{!Kept (true, false) P} id st :
  triple P (resume_invocation_command id st) (λ st' t, P t ∧ is_suspended st' = false).
Proof.
  unfold resume_invocation_command. destruct (get_invocation_metadata st) eqn:Hm.
  - cbv zeta. wk_seq. by apply tr_ret.
  - apply tr_ret. by destruct st.
Qed.

(** The notification is none of those that the status awaits. *)
Definition spared (n : NotificationId) (st : InvocationStatus) : Prop :=
  match st with Suspended _ f => n ∉ flatten f | _ => True end.

Lemma apply_notification_wk id st n i :
  triple (pending id st) (apply_notification id st n i)
    (λ st' t, pending id st' t ∧ spared (rn_id n) st').
Proof.
  assert (∀ st0, triple (pending id st) (resume_invocation_command id st0)
            (λ st' t, pending id st' t ∧ spared (rn_id n) st')) as Hres.
  { intros st0. eapply tr_post; [|apply (wk_resume (pending id st))]. intros st' t [[Ho _] Hs]. simpl.
    split; [|by destruct st']. by split; [|apply fine_calm]. }
  unfold apply_notification. destruct st as [| |m|m f|m| |]; try (by apply tr_ret).
  - destruct (resolve _ f) as [f' b] eqn:Hr. destruct b.
    + apply Hres.
    + apply resolve_unresolved in Hr as [Hsub Hpend]. apply tr_ret. intros t [Ho Hf]. split.
      * split; [done|]. intros [Hm _]%Hf. split; [|done]. intros k [Hk _]%Hsub. auto.
      * simpl. intros [_ Hl]%Hsub. unfold lookup_notification in Hl. by rewrite decide_True in Hl.
  - case_bool_decide; [apply Hres|by apply tr_ret].
Qed.

Lemma put_notification_pending id st i e rel t :
  pending id st t →
  match se_inner e with RawEntryNotification n => spared (rn_id n) st | _ => True end →
  pending id st (put_journal_entry_v2 id i e rel t).
Proof.
  intros Hp Hsp. destruct (se_inner e) as [c|n] eqn:He.
  - apply (pending_kept id st _ t); [|done]. apply w_command. by rewrite He.
  - unfold put_journal_entry_v2. rewrite He. destruct Hp as [Ho Hf]. split.
    + intros id' Hid. eapply fine_missing; [|by apply Ho]. intros k. simpl.
      rewrite lookup_insert_ne; [done|]. congruence.
    + destruct st as [| | |m f| | |]; try done. intros [Hm Hl]%Hf. split; [|done].
      intros k Hk. simpl. rewrite lookup_insert_ne; [auto|]. intros [= <-]. by apply Hsp.
Qed.

Lemma append_entry_wk id st e : triple (pending id st) (append_entry id st e) (λ r, pending id r.1).
Proof.
  unfold append_entry. wk_seq. cbv zeta.
  eapply (tr_bind _ _ _ (λ (x : InvocationStatus * list Completion * list Z) t, pending id x.1.1 t ∧
    match e with RawEntryNotification n => spared (rn_id n) x.1.1 | _ => True end)).
  - destruct e as [raw|n].
    + destruct (decode_command raw); [|by intros ? ? ?]. wk_seq. by apply tr_ret.
    + eapply tr_bind; [apply apply_notification_wk|]. intros st'. by apply tr_ret.
  - intros [[st' cs] rel]. apply tr_pure. intros Hsp. wk_seq.
    apply (tr_bind _ _ _ (λ _, pending id st')).
    + intros s Hn Hs. split; [by apply tables_synced; [apply journal2_unnumbered|]|].
      by apply put_notification_pending.
    + intros ?. apply tr_ret. intros t [Ho Hf]. split; [done|]. simpl. auto with wake.
Qed.

Lemma append_entries_wk fuel id : ∀ st es,
  triple (pending id st) (append_entries fuel id st es) (λ st', pending id st').
Proof.
  induction fuel as [|fuel IH]; intros st [|e es]; simpl; try (by apply tr_ret); [by intros ? ?|].
  eapply tr_bind; [apply append_entry_wk|]. intros [st' cs]. apply IH.
Qed.

Lemma verify_or_migrate_wk P `{!Kept (true, false) P} id m :
  triple P (verify_or_migrate_journal_table id m)
    (λ m' t, P t ∧ if_pinned_deployment m' = if_pinned_deployment m).
Proof.
  unfold verify_or_migrate_journal_table.
  destruct (_ =? 1); [|destruct (1 <=? _); [wk_seq; wk_seq|]; by apply tr_ret].
  wk_seq. destruct a as [[e|]|]; [|by intros ? ? ?|by apply tr_ret].
  destruct (er_entry e) as [[]|]; try (by intros ? ? ?). wk_seq. wk_seq. by apply tr_ret.
Qed.

Lemma on_journal_entry_command_wk id st e :
  triple (ready id st) (on_journal_entry_command id st e) (λ _, awake).
Proof.
  unfold on_journal_entry_command.
  destruct (get_invocation_metadata st) as [m|] eqn:Hm; [|by apply tr_ret; intros t []].
  apply (tr_bind _ _ _ (λ m' t, ready id st t ∧ if_pinned_deployment m' = if_pinned_deployment m)).
  { destruct (if_pinned_deployment m) eqn:Hd; [by apply tr_ret|].
    rewrite <- Hd. apply verify_or_migrate_wk, _. }
  intros m'. apply tr_pure. intros Hd. cbv zeta.
  eapply (tr_bind _ _ _ (λ st', pending id st')).
  - eapply tr_pre; [|apply append_entries_wk]. intros t [Ha Hf]. split; [done|].
    destruct st as [| | |m0 f| | |]; try done. injection Hm as ->. simpl in *.
    unfold should_use_journal_table_v2 in *. simpl in *. by rewrite Hd.
  - intros st'. eapply tr_pre; [|apply wk_put_pending]. intros t [Ho Hf]. split; auto with wake.
Qed.
Lemma on_journal_notification_wk id st n :
  triple (ready id st) (on_journal_notification id st n) (λ _, awake).
Proof. apply on_journal_entry_command_wk. Qed.

(** ** Suspension *)

Lemma on_suspend_command_wk id st f b :
  triple (ready id st) (on_suspend_command id st f b) (λ _, awake).
Proof.
  unfold on_suspend_command, suspend_entry. apply tr_reads. intros index.
  destruct (resolve _ f) as [f' r] eqn:Hr. apply (tr_bind _ _ _ (λ st', ready id st')).
  - apply (tr_pre (λ t, awake t ∧ get_notifications_index id t = index)); [by intros t [[] ?]|]. destruct r.
    + apply (tr_pre awake); [by intros t []|]. eapply tr_post; [|apply (wk_resume awake)].
      intros st' t [Ha Hs]. simpl. by split; [|apply fine_calm].
    + apply resolve_unresolved in Hr as [Hsub Hpend].
      apply (tr_pre (λ t, awake t ∧ dormant id f' t)).
      { intros t [Ha <-]. split; [done|]. split; [|done]. intros n [_ Hn]%Hsub.
        unfold lookup_map in Hn. rewrite lookup_fmap, lookup_notifications_index in Hn.
        by destruct (t_notifications t !! (id, n)). }
      wk_seq. wk_seq. cbv zeta. wk_seq. apply tr_ret. intros t [Ha Hd]. split; auto with wake.
  - intros st'. by apply wk_put.
Qed.

(** The first format: the invocation is not one of those that [awake] is about. *)
Lemma do_suspend_service_wk id m l :
  should_use_journal_table_v2 (Invoked m) = false →
  triple awake (do_suspend_service id m l) (λ _, awake).
Proof.
  intros Hv. unfold do_suspend_service, suspend_entry. cbv zeta.
  apply (tr_bind _ _ _ (λ m' t, awake t ∧ if_pinned_deployment m' = if_pinned_deployment m)).
  - destruct (if_vqueue_id _); [|by apply tr_ret]. do 4 wk_seq. by apply tr_ret.
  - intros m'. apply tr_pure. intros Hp.
    apply (tr_pre (ready id (Suspended m' (unknown_from_iter (NCompletionId <$> l))))).
    + intros t Ha. split; [done|]. simpl. unfold should_use_journal_table_v2 in *. simpl in *.
      rewrite Hp, Hv. done.
    + by apply wk_put.
Qed.

(** ** Handlers that change a status or notify *)

Lemma do_append_response_sink_wk id st sink :
  triple (ready id st) (do_append_response_sink id st sink) (λ _, awake).
Proof. unfold do_append_response_sink. wk_seq. apply wk_put. auto with wake. Qed.

Lemma append_journal_entry_v1_wk id st i e :
  triple (ready id st) (append_journal_entry_v1 id st i e) (λ _, awake).
Proof. unfold append_journal_entry_v1. do 2 wk_seq. apply wk_put. auto with wake. Qed.

Lemma handle_duplicated_requests_wk si : triple awake (handle_duplicated_requests si) (λ _, awake).
Proof.
  unfold handle_duplicated_requests. cbv zeta. apply wk_read. intros st.
  destruct (is_free st); [by apply tr_ret; intros t []|]. wk_seq. wk_seq. wk_seq. wk_end.
  destruct st; try (apply wk_drop; wk_quiet);
    (case_match; [|by apply tr_ret; intros t []]); wk_seq;
    (unfold sm_when; case_bool_decide; [apply do_append_response_sink_wk|by apply tr_ret; intros t []]).
Qed.

Lemma on_service_invocation_wk si : triple awake (on_service_invocation si) (λ _, awake).
Proof.
  unfold on_service_invocation. eapply tr_bind; [apply handle_duplicated_requests_wk|].
  intros [si'|]; [wk_quiet|by apply tr_ret].
Qed.

Lemma handle_attach_invocation_request_wk r :
  triple awake (handle_attach_invocation_request r) (λ _, awake).
Proof.
  unfold handle_attach_invocation_request. wk_seq. cbv zeta. apply wk_read. intros st. destruct st; try (apply wk_drop; wk_quiet);
    (destruct (ar_block_on_inflight r); [apply do_append_response_sink_wk|apply wk_drop; wk_quiet]).
Qed.

Lemma on_cancel_command_wk id st sink :
  triple (ready id st) (on_cancel_command id st sink) (λ _, awake).
Proof.
  unfold on_cancel_command, reply_to_cancel.
  destruct st; try (apply wk_drop; wk_quiet); wk_end; apply on_journal_notification_wk.
Qed.

Lemma on_cancel_invocation_wk id sink : triple awake (on_cancel_invocation id sink) (λ _, awake).
Proof.
  unfold on_cancel_invocation, reply_to_cancel. apply wk_read. intros st.
  cbv zeta. wk_seq. destruct a; [apply on_cancel_command_wk|].
  destruct (_ ≫= _); [apply wk_drop; wk_quiet|].
  destruct st as [| |m|m f| | |]; try (apply wk_drop; wk_quiet).
  wk_end. apply wk_put. intros t. by apply fine_metadata.
Qed.

Lemma on_notify_signal_wk r : triple awake (on_notify_signal r) (λ _, awake).
Proof.
  unfold on_notify_signal. cbv zeta. apply wk_read. intros st. case_bool_decide.
  - apply wk_drop, on_cancel_invocation_wk.
  - apply on_journal_notification_wk.
Qed.

Lemma on_pinned_deployment_wk id m pd :
  triple awake (on_pinned_deployment id (Invoked m) pd) (λ _, awake).
Proof.
  unfold on_pinned_deployment, update_entry_metadata. wk_seq. wk_seq. cbv zeta. wk_seq. wk_seq.
  unfold sm_when. destruct (if_hotfix_apply_cancellation _); [apply on_cancel_invocation_wk|by apply tr_ret].
Qed.

Lemma on_manual_resume_command_wk r : triple awake (on_manual_resume_command r) (λ _, awake).
Proof.
  unfold on_manual_resume_command, reply_to_resume_invocation. cbv zeta. apply wk_read. intros st. destruct st as [| |m|m f|m| |]; try (apply wk_drop; wk_quiet).
  all: apply wk_drop; destruct (resolve_pinned_deployment _ _ _); [wk_quiet|].
  all: eapply tr_bind; [apply (wk_resume awake)|]; intros st'; apply tr_pure; intros Hs;
    apply (tr_kept (true, false)); [apply _|]; apply w_bind; [by apply put_status_calm|intros ?; wr].
Qed.

(** ** Restarts *)

(** The new invocation has no status yet. *)
Definition new_invocation (id : InvocationId) (t : T) : Prop :=
  awake t ∧ get_invocation_status id t = Free.

Lemma put_copy_wk id i e rel :
  triple (new_invocation id) (put_copy id i e rel) (λ _, new_invocation id).
Proof.
  intros s Hsy [Ha Hn]. split; [by apply tables_synced; [apply journal2_unnumbered|]|].
  unfold put_copy, tables, new_invocation. simpl.
  assert (∀ id', get_invocation_status id' (put_journal_entry_v2 id i e rel (v_tables s))
                 = get_invocation_status id' (v_tables s)) as Hst
    by (unfold put_journal_entry_v2; by destruct (se_inner e)).
  split; [|by rewrite Hst]. intros id'. rewrite Hst. destruct (decide (id' = id)) as [->|Hid].
  { by rewrite Hn. }
  eapply fine_missing; [|apply Ha]. intros n Hk. unfold put_journal_entry_v2.
  destruct (se_inner e); [done|]. simpl. rewrite lookup_insert_ne; [done|congruence].
Qed.

Lemma copy_prefix_wk n id new_id : ∀ i c,
  triple (new_invocation new_id) (copy_prefix n id new_id i c) (λ _, new_invocation new_id).
Proof.
  induction n as [|n IH]; intros i c; simpl; [by apply tr_ret|]. apply tr_reads. intros [e|];
    (eapply tr_pre; [by intros t [H' _]; exact H'|]); [|by apply tr_ret].
  apply (tr_bind _ _ _ (λ _, new_invocation new_id)); [|intros c'; apply IH].
  destruct (se_inner e) as [raw|x].
  - destruct (decode_command raw); [|by intros ? ? ?]. cbv zeta.
    eapply tr_bind; [apply put_copy_wk|]. intros ?. by apply tr_ret.
  - eapply tr_bind; [apply put_copy_wk|]. intros ?. by apply tr_ret.
Qed.

Lemma copy_completions_wk n id new_id : ∀ i c,
  triple (new_invocation new_id) (copy_completions n id new_id i c) (λ _, new_invocation new_id).
Proof.
  induction n as [|n IH]; intros i c; simpl; [by apply tr_ret|]. apply tr_reads. intros stored.
  eapply tr_pre; [by intros t [H' _]; exact H'|].
  apply (tr_bind _ _ _ (λ _, new_invocation new_id)).
  - repeat case_match; try (by apply tr_ret). eapply tr_bind; [apply put_copy_wk|]. intros ?. by apply tr_ret.
  - intros c'. case_bool_decide; [by apply tr_ret|apply IH].
Qed.

Lemma on_restart_as_new_command_wk r :
  triple (new_invocation (rs_new_invocation_id r)) (on_restart_as_new_command r) (λ _, awake).
Proof.
  assert (∀ m : M unit, writes_only (true, false) m →
            triple (new_invocation (rs_new_invocation_id r)) m (λ _, awake)) as Hq.
  { intros m Hm. eapply tr_pre; [|apply (tr_kept (true, false)); [apply _|exact Hm]]. by intros t []. }
  unfold on_restart_as_new_command, read_status. cbv zeta. apply tr_reads. intros st.
  apply (tr_pre (new_invocation (rs_new_invocation_id r))); [by intros t []|].
  destruct st as [| | | | |c|]; try (apply Hq; wr). destruct (_ <=? _); [apply Hq; wr|].
  eapply tr_bind; [|intros copied; apply Hq; wr].
  unfold copy_journal. eapply tr_bind; [apply copy_prefix_wk|]. intros c'. apply copy_completions_wk.
Qed.

(** ** Records *)

(** What the records of a partition are like.  A restart is given a new id; and
    only deployments of the first format are awaited entry by entry. *)
Definition suspension_conforms (r : Record_) (t : T) : Prop :=
  match r with
  | CmdInvokerEffect {| eff_invocation_id := id; eff_kind := EffSuspended _ |} =>
      should_use_journal_table_v2 (get_invocation_status id t) = false
  | _ => True
  end.

Lemma try_invoker_effect_wk e :
  triple (λ t, awake t ∧ suspension_conforms (CmdInvokerEffect e) t) (try_invoker_effect e) (λ _, awake).
Proof.
  intros s Hn [Ha Hc]. unfold try_invoker_effect. unfold sm_bind at 1. simpl.
  set (st := get_invocation_status (eff_invocation_id e) (v_tables s)) in *.
  assert (ready (eff_invocation_id e) st (v_tables s)) as Hs by (split; [done|apply Ha]).
  assert (Hv : match eff_kind e with EffSuspended _ => should_use_journal_table_v2 st = false | _ => True end)
    by (destruct e as [id []]; done).
  clearbody st. clear Ha Hc. revert s Hn Hs.
  change (triple (ready (eff_invocation_id e) st) (on_invoker_effect e st) (λ _, awake)).
  unfold on_invoker_effect. cbv zeta. destruct st as [| |m| | | |]; try (apply wk_drop; wk_quiet).
  destruct (eff_kind e) as [pd|i en|ack en|ev|w|w|f|ev| |err|r ev at_];
    try (apply wk_drop; wk_quiet).
  - apply wk_drop, on_pinned_deployment_wk.
  - unfold handle_journal_entry. wk_seq. wk_end. apply append_journal_entry_v1_wk.
  - unfold on_journal_entry. wk_end. apply on_journal_entry_command_wk.
  - apply wk_drop. wk_seq. destruct a; [wk_quiet|by apply do_suspend_service_wk].
  - apply on_suspend_command_wk.
  - apply on_suspend_command_wk.
Qed.

Lemma on_invocation_response_wk r : triple awake (on_invocation_response r) (λ _, awake).
Proof.
  unfold on_invocation_response, on_notify_invocation_response. cbv zeta. apply wk_read. intros st.
  destruct (should_use_journal_table_v2 st); [|apply wk_drop; wk_quiet]. wk_seq. wk_seq.
  repeat case_match; try (by intros ? ? ?). apply on_journal_notification_wk.
Qed.

Lemma on_timer_wk tm : triple awake (on_timer tm) (λ _, awake).
Proof.
  unfold on_timer. wk_seq. destruct tm.2 as [si|id i|id|id]; try wk_quiet.
  - apply on_service_invocation_wk.
  - apply wk_read. intros st.
    destruct (should_use_journal_table_v2 st); [apply on_journal_notification_wk|apply wk_drop; wk_quiet].
Qed.

Lemma on_apply_wk r :
  triple (λ t, awake t ∧ restart_fresh r t ∧ suspension_conforms r t) (on_apply r) (λ _, awake).
Proof.
  destruct r; simpl;
    lazymatch goal with
    | |- triple _ (on_restart_as_new_command _) _ => idtac
    | |- triple _ (try_invoker_effect _) _ => idtac
    | |- _ => apply (tr_pre awake); [by intros ? []|]; try (by wk_quiet)
    end.
  - apply on_service_invocation_wk.
  - apply on_invocation_response_wk.
  - apply handle_attach_invocation_request_wk.
  - eapply tr_pre; [|apply try_invoker_effect_wk]. by intros t (? & _ & ?).
  - apply on_timer_wk.
  - unfold on_terminate_invocation. destruct (term_flavor _); [wk_quiet|apply on_cancel_invocation_wk].
  - apply on_manual_resume_command_wk.
  - eapply tr_pre; [|apply on_restart_as_new_command_wk]. by intros t (? & ? & _).
  - apply on_notify_signal_wk.
  - unfold on_notify_get_invocation_output_response. apply wk_read. intros st. apply on_journal_notification_wk.
Qed.
End handlers.

(** A partition applies a record.  Which features it has (virtual queues, for
    instance), whether the replica leads, and which queues it has cached does not
    matter; the outbox and inbox numbers in its memory are the stored ones, as loading
    them makes them and as every record leaves them ([on_apply_synced]). *)
Inductive partition_step `{!Digests, !Base62, !Base64, !StateKeysCodec} (t t' : T) : Prop :=
| step_applied (K : SlotKeys) (C : Ctx) (r : Record_) (s s' : PState) :
    synced s → v_tables s = t → v_tables s' = t' → restart_fresh r t → suspension_conforms r t →
    on_apply r s = (s', Ok tt) → partition_step t t'.

(** The record gives the invocation a notification. *)
Inductive notifies (id : InvocationId) (t : T) : Notification → Record_ → Prop :=
| by_signal r :
    ns_invocation_id r = id → sig_id (ns_signal r) ≠ CANCEL_SIGNAL_ID →
    notifies id t (NSignal (ns_signal r)) (CmdNotifySignal r)
| by_timer k cid :
    notifies id t (NCompletion (SleepCompletion cid)) (CmdTimer (k, TimerCompleteJournalEntry id cid))
| by_output target r :
    caller_id target = id →
    notifies id t (NCompletion (GetInvocationOutputCompletion (caller_completion_id target) r))
      (CmdNotifyGetInvocationOutputResponse target r)
| by_response r at_ cmd c :
    caller_id (resp_target r) = id →
    get_command_by_completion_id (ErrorStorage "conversion") id (caller_completion_id (resp_target r)) t
      = Ok (Some (at_, cmd)) →
    response_completion (command_type cmd) (caller_completion_id (resp_target r)) (resp_result r) = Some c →
    notifies id t (NCompletion c) (CmdInvocationResponse r).

(** Records that give the invocation these notifications, one after the other. *)
Inductive delivery `{!Digests, !Base62, !Base64, !StateKeysCodec} (id : InvocationId)
    : list Notification → T → T → Prop :=
| delivered_all t : delivery id [] t t
| delivered_next (K : SlotKeys) (C : Ctx) (r : Record_) (s s' : PState) n ns t :
    notifies id (v_tables s) n r → on_apply r s = (s', Ok tt) →
    delivery id ns (v_tables s') t → delivery id (n :: ns) (v_tables s) t.

Section partitions.
Context `{!Digests, !Base62, !Base64, !StateKeysCodec}.

Lemma empty_awake : awake empty_tables.
Proof. intros id. unfold get_invocation_status. simpl. by rewrite lookup_empty. Qed.

Lemma reachable_awake t : rtc partition_step empty_tables t → awake t.
Proof.
  intros Hr. pose proof empty_awake as Ha. induction Hr as [|t1 t2 t3 Hs _ IH]; [done|]. apply IH.
  destruct Hs as [K C r s s' Hn <- <- Hf Hc E]. pose proof (on_apply_wk r s Hn (conj Ha (conj Hf Hc))) as Hx.
  rewrite E in Hx. by destruct Hx.
Qed.

Definition uses_v2 (m : InFlightInvocationMetadata) : Prop :=
  ∃ pd, if_pinned_deployment m = Some pd ∧ V4 ≤ service_protocol_version pd.

Lemma uses_v2_status st m :
  get_invocation_metadata st = Some m → uses_v2 m → should_use_journal_table_v2 st = true.
Proof.
  intros Hm (pd & Hp & Hv). unfold should_use_journal_table_v2. rewrite Hm. simpl. rewrite Hp. by apply Z.leb_le.
Qed.

(** A notification that is delivered changes the status as [notified] says. *)
Lemma notifies_notified (K : SlotKeys) (C : Ctx) id n r s s' m :
  let st := get_invocation_status id (v_tables s) in
  notifies id (v_tables s) n r → on_apply r s = (s', Ok tt) →
  running_or_suspended st → get_invocation_metadata st = Some m → uses_v2 m →
  notified (raw_of n) st (get_invocation_status id (v_tables s')).
Proof.
  intros st Hn E Hst Hm Hv. pose proof (uses_v2_status st m Hm Hv) as Hu.
  assert (if_pinned_deployment m ≠ None) as Hd by (destruct Hv as (pd & -> & _); done).
  pose proof (on_journal_notification_notified id st m n Hst Hm Hd) as Ht.
  destruct Hn as [r <- Hc|k cid|target r <-|r at_ cmd c <- Hg Hrc]; simpl in E.
  - unfold on_notify_signal, sm_bind in E. simpl in E. rewrite bool_decide_false in E by done.
    specialize (Ht s). fold st in E. by rewrite E in Ht.
  - unfold on_timer, sm_bind in E. simpl in E.
    change (get_invocation_status id (delete_timer k (v_tables s))) with st in E. rewrite Hu in E.
    match type of E with _ ?s1 = _ => specialize (Ht s1) end. unfold on_notify_sleep_completion in E.
    fold st in E. by rewrite E in Ht.
  - unfold on_notify_get_invocation_output_response, sm_bind in E. simpl in E.
    specialize (Ht s). fold st in E. by rewrite E in Ht.
  - unfold on_invocation_response, sm_bind in E. simpl in E. fold st in E. rewrite Hu in E.
    unfold on_notify_invocation_response, sm_bind in E. simpl in E. unfold Datatypes.id in E.
    unfold sm_lift in E. rewrite Hg in E. simpl in E. rewrite Hrc in E.
    specialize (Ht s). by rewrite E in Ht.
Qed.

Definition arrivals (ns : list Notification) : list Arrival :=
  (λ n, (notification_id n, result_variant_of n)) <$> ns.

Lemma arrivals_known ns : Forall (λ a, a.2 ≠ RvUnknown) (arrivals ns).
Proof.
  apply Forall_fmap, Forall_true. intros n. simpl. unfold result_variant_of, rv_of_value, rv_of_optional.
  by repeat case_match.
Qed.

Lemma notified_running n st m st' :
  notified n st st' → running_or_suspended st → get_invocation_metadata st = Some m → uses_v2 m →
  running_or_suspended st' ∧ ∃ m', get_invocation_metadata st' = Some m' ∧ uses_v2 m'.
Proof.
  intros [Hp Hn] Hst Hm (pd & Hpd & Hv). split.
  - destruct st as [| |m0|m0 f|m0| |]; try (by destruct Hst as [|[]]).
    + destruct Hn as [m' ->]. right. eauto.
    + destruct (resolve _ f) as [f' []]; destruct Hn as [m' ->]; [right; eauto|by left].
  - rewrite Hm in Hp. simpl in Hp. destruct (get_invocation_metadata st') as [m'|]; [|done].
    exists m'. split; [done|]. exists pd. injection Hp as ->. done.
Qed.

Lemma delivery_arrives id ns t t' :
  delivery id ns t t' → ∀ m, let st := get_invocation_status id t in
  running_or_suspended st → get_invocation_metadata st = Some m → uses_v2 m →
  match st with
  | Suspended _ f =>
      match arrive (arrivals ns) f with
      | None => ∃ m', get_invocation_status id t' = Invoked m'
      | Some f' => ∃ m', get_invocation_status id t' = Suspended m' f'
      end
  | _ => ∃ m', get_invocation_status id t' = Invoked m'
  end.
Proof.
  induction 1 as [t|K C r s s' n ns t Hn E _ IH]; intros m st Hst Hm Hv.
  - subst st. destruct (get_invocation_status id t); try (by destruct Hst as [|[]]); simpl; eauto.
  - pose proof (notifies_notified K C id n r s s' m Hn E Hst Hm Hv) as Hnt. fold st in Hnt.
    destruct (notified_running _ _ _ _ Hnt Hst Hm Hv) as (Hst' & m' & Hm' & Hv').
    specialize (IH m' Hst' Hm' Hv'). cbv zeta in IH. destruct Hnt as [_ Hnt].
    destruct st as [| |m0|m0 f|m0| |]; try (by destruct Hst as [|[]]).
    + destruct Hnt as [m1 E1]. by rewrite E1 in IH.
    + simpl in *. destruct (resolve (lookup_notification _ _) f) as [f' []]; destruct Hnt as [m1 E1];
        by rewrite E1 in IH.
Qed.
End partitions.

(** C9. No wake-up is lost.  In every partition that records lead to, a suspended
    invocation with a journal of the second format has none of the notifications
    it awaits in its journal, and the future it awaits is not resolved by the
    journal: whatever the order of completions, signals, cancellations, responses,
    timers and suspensions, an invocation whose future is resolved is not left
    suspended.  Assumed are that a restart-as-new gets a free id, and that invocations
    with a journal of the second format suspend in the way of that format. *)
Theorem no_lost_wake_up `{!Digests, !Base62, !Base64, !StateKeysCodec} (t : T) (id : InvocationId)
    (m : InFlightInvocationMetadata) (f : UnresolvedFuture) :
  rtc partition_step empty_tables t →
  get_invocation_status id t = Suspended m f → uses_v2 m →
  (∀ n, n ∈ flatten f → get_notifications_index id t !! n = None) ∧
  resolve (lookup_map (snd <$> get_notifications_index id t)) f = (f, false).
Proof.
  intros Hr%reachable_awake Hst Hv. specialize (Hr id). rewrite Hst in Hr.
  destruct Hr as [Hm Hp]; [by eapply uses_v2_status|].
  assert (∀ n, n ∈ flatten f → get_notifications_index id t !! n = None) as Hn
    by (intros n Hn; rewrite lookup_notifications_index; auto).
  split; [done|]. unfold resolve. rewrite Hp; [done|]. intros n Hin. unfold lookup_map.
  by rewrite lookup_fmap, Hn.
Qed.

(** C10. A suspended invocation is woken up by exactly the notifications that
    resolve its future.  Records deliver notifications to an invocation with a
    journal of the second format, by signals, sleep timers, responses of calls and
    of attached invocations, one after the other: it runs again at the end exactly
    if resolving the future step by step in this order completes it, and otherwise
    it awaits what is left of the future.  Unless a race or an unknown combinator
    decides the result of another combinator, the order does not matter: it runs
    again exactly if all the notifications together resolve the future. *)
Theorem woken_up_when_resolved `{!Digests, !Base62, !Base64, !StateKeysCodec} (t t' : T)
    (id : InvocationId) (m : InFlightInvocationMetadata) (f : UnresolvedFuture)
    (ns : list Notification) :
  rtc partition_step empty_tables t →
  get_invocation_status id t = Suspended m f → uses_v2 m →
  delivery id ns t t' →
  match arrive (arrivals ns) f with
  | None => ∃ m', get_invocation_status id t' = Invoked m'
  | Some f' => ∃ m', get_invocation_status id t' = Suspended m' f'
  end ∧
  (stable false f = true →
   arrive (arrivals ns) f = None ↔ (resolve (lookup_all (arrivals ns)) f).2 = true).
Proof.
  intros Hr%reachable_awake Hst Hv Hd. specialize (Hr id). rewrite Hst in Hr.
  destruct Hr as [_ Hp]; [by eapply uses_v2_status|].
  pose proof (delivery_arrives id ns t t' Hd m) as Ha. rewrite Hst in Ha.
  split; [by apply Ha; [left|..]|]. intros Hs.
  apply (arrive_resolves (arrivals ns) f (arrivals_known ns) Hs). unfold resolve. by rewrite Hp.
Qed.

(** ** An execution: an invocation awaits two signals *)

Definition wake_ctx : Ctx :=
  demo_ctx {| pf_journal_v2 := true; pf_vqueues := false; pf_vqueues_skip_completed := false;
     pf_unique_random_seeds := false; pf_preflight_invocation_termination_retention := false;
     pf_inconsistent_state_mutation_cleanup := false |} 1700000000000 1.
Definition wake_run (r : Record_) (s : PState) : PState * res Error unit :=
  @on_apply _ _ wake_ctx _ _ _ r s.
Definition wake_effect (k : EffectKind) : Record_ :=
  CmdInvokerEffect {| eff_invocation_id := demo_id; eff_kind := k |}.
Definition wake_signal (name : string) : Signal := {| sig_id := SignalName name; sig_result := OVoid |}.
Definition wake_notify (name : string) : Record_ :=
  CmdNotifySignal {| ns_invocation_id := demo_id; ns_signal := wake_signal name |}.
Definition wake_future : UnresolvedFuture :=
  AllCompleted [Single (NSignalName "a"); Single (NSignalName "b"); Single (NSignalName "c")].

(** The signal "c" arrives before the invocation is suspended, the others after. *)
Definition wake_pin : Record_ :=
  wake_effect (EffPinnedDeployment {| deployment_id := "d"; service_protocol_version := 5 |}).
Definition wake0 : PState := mkV empty_tables (new_empty 4) [] (mkNumbers 0 0).
Definition wake1 : PState := (wake_run (CmdInvoke demo_invocation) wake0).1.
Definition wake2 : PState := (wake_run wake_pin wake1).1.
Definition wake3 : PState := (wake_run (wake_notify "c") wake2).1.
Definition wake4 : PState := (wake_run (wake_effect (EffSuspendedV3 wake_future)) wake3).1.
Definition woken1 : PState := (wake_run (wake_notify "b") wake4).1.
Definition woken2 : PState := (wake_run (wake_notify "a") woken1).1.

Definition wake_notifications : list Notification :=
  [NSignal (wake_signal "b"); NSignal (wake_signal "a")].

Definition wake_ok (r : Record_) (s : PState) : bool :=
  match (wake_run r s).2 with Ok _ => true | _ => false end.

(** The invocation is suspended; the two missing signals resolve its future. *)
Definition wake_suspended (st : InvocationStatus) : bool :=
  match st with
  | Suspended m f =>
      match if_pinned_deployment m with Some pd => V4 <=? service_protocol_version pd | None => false end
      && stable false f && (resolve (lookup_all (arrivals wake_notifications)) f).2
      && bool_decide (NSignalName "a" ∈ flatten f)
  | _ => false
  end.

Lemma wake_checks :
  wake_ok (CmdInvoke demo_invocation) wake0 = true ∧ wake_ok wake_pin wake1 = true ∧
  wake_ok (wake_notify "c") wake2 = true ∧
  wake_ok (wake_effect (EffSuspendedV3 wake_future)) wake3 = true ∧
  wake_ok (wake_notify "b") wake4 = true ∧ wake_ok (wake_notify "a") woken1 = true ∧
  wake_suspended (get_invocation_status demo_id (v_tables wake4)) = true.
Proof. vm_compute. done. Qed.

Lemma wake_synced : synced wake0 ∧ synced wake1 ∧ synced wake2 ∧ synced wake3.
Proof. vm_compute. split_and!; reflexivity. Qed.

Lemma wake_step r s :
  synced s →
  restart_fresh r (v_tables s) → suspension_conforms r (v_tables s) → wake_ok r s = true →
  partition_step (v_tables s) (v_tables (wake_run r s).1).
Proof.
  unfold wake_ok. intros Hn Hf Hc Ho. destruct (wake_run r s) as [s' [[]| |]] eqn:E; try done.
  by eapply (step_applied _ _ _ _ r s s').
Qed.

Lemma wake_reachable : rtc partition_step empty_tables (v_tables wake4).
Proof.
  destruct wake_checks as (H1 & H2 & H3 & H4 & _), wake_synced as (S0 & S1 & S2 & S3).
  exact (rtc_l _ _ _ _ (wake_step (CmdInvoke _) wake0 S0 I I H1) (rtc_l _ _ _ _ (wake_step wake_pin wake1 S1 I I H2)
    (rtc_l _ _ _ _ (wake_step (wake_notify _) wake2 S2 I I H3) (rtc_once _ _ (wake_step (wake_effect (EffSuspendedV3 _)) wake3 S3 I I H4))))).
Qed.

Lemma wake_delivery : delivery demo_id wake_notifications (v_tables wake4) (v_tables woken2).
Proof.
  destruct wake_checks as (_ & _ & _ & _ & H1 & H2 & _). unfold wake_ok in *.
  assert (∀ x s, (match (wake_run (wake_notify x) s).2 with Ok _ => true | _ => false end) = true →
    wake_run (wake_notify x) s = ((wake_run (wake_notify x) s).1, Ok tt)) as Hok.
  { intros x s Hx. by destruct (wake_run (wake_notify x) s) as [s' [[]| |]]. }
  assert (∀ x (s : PState), notifies demo_id (v_tables s) (NSignal (wake_signal x)) (wake_notify x)) as Hn.
  { intros x s. by apply (by_signal _ _ {| ns_invocation_id := demo_id; ns_signal := wake_signal x |}). }
  exact (delivered_next demo_id _ wake_ctx _ wake4 woken1 _ _ _ (Hn "b" wake4) (Hok "b" wake4 H1)
    (delivered_next demo_id _ wake_ctx _ woken1 woken2 _ _ _ (Hn "a" woken1) (Hok "a" woken1 H2)
       (delivered_all demo_id (v_tables woken2)))).
Qed.

Lemma wake_status : ∃ m f,
  get_invocation_status demo_id (v_tables wake4) = Suspended m f ∧ uses_v2 m ∧
  stable false f = true ∧ (resolve (lookup_all (arrivals wake_notifications)) f).2 = true ∧
  NSignalName "a" ∈ flatten f.
Proof.
  destruct wake_checks as (_ & _ & _ & _ & _ & _ & Hs).
  destruct (get_invocation_status demo_id (v_tables wake4)) as [| | |m f| | |]; try discriminate Hs.
  unfold wake_suspended in Hs.
  apply andb_prop in Hs as [[[Hp Hst]%andb_prop Hr]%andb_prop Ha%bool_decide_eq_true].
  exists m, f. split_and!; try done. unfold uses_v2.
  destruct (if_pinned_deployment m) as [pd|]; [|done]. exists pd. split; [done|lia].
Qed.

Lemma no_lost_wake_up_witness : ∃ m f,
  get_invocation_status demo_id (v_tables wake4) = Suspended m f ∧
  NSignalName "a" ∈ flatten f ∧
  get_notifications_index demo_id (v_tables wake4) !! NSignalName "a" = None.
Proof.
  destruct wake_status as (m & f & Hst & Hv & _ & _ & Ha). exists m, f.
  exact (conj Hst (conj Ha (proj1 (no_lost_wake_up _ _ m f wake_reachable Hst Hv) _ Ha))).
Defined.

Lemma woken_up_when_resolved_witness :
  ∃ m', get_invocation_status demo_id (v_tables woken2) = Invoked m'.
Proof.
  destruct wake_status as (m & f & Hst & Hv & Hs & Hr & _).
  destruct (woken_up_when_resolved _ _ _ m f _ wake_reachable Hst Hv wake_delivery) as [Hw Ho].
  rewrite (proj2 (Ho Hs) Hr) in Hw. exact Hw.
Defined.
