(* ===== verification/TrimQueue.v ===== *)
(** * The trim queue

    [worker/src/partition/leadership/trim_queue.rs]: the points up to which the
    log of a partition may be trimmed, by the time they were reported.  Points
    become due when they are older than a cutoff; due points are compacted to
    the largest one.  The theorem shows that compaction is not observable: the
    queue answers like a backlog of all reports that were not handed out. *)

From S2P Require Import Prelude BTreeMap.

Open Scope Z_scope.

Record PartitionDurability := { durable_point : Z; modification_time : Z }.

(** [State]; the queue is a [BTreeMap] from the time to the point. *)
Record TrimState := mkTrim {
  max_observed_durable_lsn : Z; known_trim_point : Z; trim_queue : list (Z * Z) }.

Definition trim_default : TrimState := mkTrim 0 0 [].

(** [BTreeMap::get]. *)
Definition bt_get {V} (k : Z) (m : list (Z * V)) : option V :=
  snd <$> head (filter (λ e, e.1 = k) m).

(** [max_by_key]: the last of the entries with the largest point. *)
Definition max_by_lsn (l : list (Z * Z)) : option (Z * Z) :=
  foldl (λ acc x, match acc with
                  | Some a => if a.2 <=? x.2 then Some x else Some a
                  | None => Some x
                  end) None l.

(** [pop]; [split_off] and [swap] leave the later points in the queue. *)
Definition trim_pop (cutoff : Z) (s : TrimState) : TrimState * option PartitionDurability :=
  let '(points, later) := bt_split_off (as_u64 (cutoff + 1)) (trim_queue s) in
  (mkTrim (max_observed_durable_lsn s) (known_trim_point s) later,
   let! x := max_by_lsn points in
   if known_trim_point s <? x.2
   then Some {| durable_point := x.2; modification_time := x.1 |} else None).

Definition trim_compact (cutoff : Z) (s : TrimState) : TrimState :=
  let '(s, popped) := trim_pop cutoff s in
  match popped with
  | Some d => mkTrim (max_observed_durable_lsn s) (known_trim_point s)
                (bt_insert (modification_time d) (durable_point d) (trim_queue s))
  | None => s
  end.

(** [range(..=cutoff).count()]. *)
Definition count_due (cutoff : Z) (q : list (Z * Z)) : nat :=
  List.length (filter (λ e, e.1 ≤ cutoff) q).

Definition trim_push (d : PartitionDurability) (cutoff : Z) (s : TrimState) : TrimState * bool :=
  let result := max_observed_durable_lsn s <? durable_point d in
  let q :=
    if known_trim_point s <? durable_point d then
      bt_insert (modification_time d)
        (match bt_get (modification_time d) (trim_queue s) with
         | Some lsn => Z.max lsn (durable_point d)
         | None => durable_point d
         end) (trim_queue s)
    else trim_queue s in
  let s := mkTrim (Z.max (max_observed_durable_lsn s) (durable_point d)) (known_trim_point s) q in
  (if (10 <? count_due cutoff q)%nat then trim_compact cutoff s else s, result).

Definition has_pending_trim (cutoff : Z) (s : TrimState) : TrimState * bool :=
  let s := trim_compact cutoff s in (s, (0 <? count_due cutoff (trim_queue s))%nat).

Definition notify_trimmed (trim_point : Z) (s : TrimState) : TrimState :=
  let k := Z.max (known_trim_point s) trim_point in
  mkTrim (max_observed_durable_lsn s) k (filter (λ e, k < e.2) (trim_queue s)).

(** ** Lemmas *)

Lemma bt_filter_wf {V} (P : Z * V → Prop) `{!∀ e, Decision (P e)} m : bt_wf m → bt_wf (filter P m).
Proof.
  induction m as [|[k v] m IH]; [done|]. intros [Hk Hm]%bt_wf_cons. rewrite filter_cons.
  case_decide; [|auto]. apply bt_wf_cons. split; [|auto].
  intros k' v' [_ Hin]%list_elem_of_filter. eauto.
Qed.

Lemma bt_get_Some {V} (m : list (Z * V)) k v : bt_wf m → bt_get k m = Some v ↔ (k, v) ∈ m.
Proof.
  intros Hm. unfold bt_get. split.
  - destruct (filter _ m) as [|[a b] l] eqn:Hf; [done|]. intros [= <-].
    assert ((a, b) ∈ filter (λ e, e.1 = k) m) as Hin by (rewrite Hf; left).
    by apply list_elem_of_filter in Hin as [<- ?].
  - intros Hin. destruct (filter _ m) as [|[a b] l] eqn:Hf.
    + assert ((k, v) ∈ filter (λ e, e.1 = k) m) as Hk by (by apply list_elem_of_filter).
      rewrite Hf in Hk. by apply not_elem_of_nil in Hk.
    + assert ((a, b) ∈ filter (λ e, e.1 = k) m) as Hab by (rewrite Hf; left).
      apply list_elem_of_filter in Hab as [<- Hab]. simpl.
      by assert ((a, b) = (a, v)) as [= ->] by (by eapply bt_wf_unique).
Qed.

Lemma max_by_lsn_snoc l x :
  max_by_lsn (l ++ [x]) = match max_by_lsn l with
                          | Some a => if a.2 <=? x.2 then Some x else Some a
                          | None => Some x
                          end.
Proof. unfold max_by_lsn. by rewrite foldl_app. Qed.

Lemma max_by_lsn_spec l :
  match max_by_lsn l with
  | Some x => x ∈ l ∧ ∀ y, y ∈ l → y.2 ≤ x.2
  | None => l = []
  end.
Proof.
  induction l as [|x l IH] using rev_ind; [done|]. rewrite max_by_lsn_snoc.
  destruct (max_by_lsn l) as [a|]; [|subst; set_solver]. destruct IH as [Ha Hl].
  destruct (Z.leb_spec a.2 x.2); (split; [set_solver|]);
    intros y [Hy| ->%list_elem_of_singleton]%elem_of_app; try apply Hl in Hy; lia.
Qed.

(** The largest observed point, which decides whether a report is new. *)
Lemma trim_push_max d cutoff s :
  max_observed_durable_lsn (trim_push d cutoff s).1
  = Z.max (max_observed_durable_lsn s) (durable_point d).
Proof.
  unfold trim_push. set (q := if known_trim_point s <? durable_point d then _ else _). simpl.
  destruct (10 <? _)%nat; [|done]. unfold trim_compact, trim_pop, bt_split_off. by case_match.
Qed.

Definition trim_wf (s : TrimState) : Prop := bt_wf (trim_queue s).

Lemma cutoff_next cutoff : in_u64 cutoff → cutoff < u64_max → as_u64 (cutoff + 1) = cutoff + 1.
Proof. intros [? ?] ?. apply wrap_small. split; lia. Qed.

(** ** Queues that hand out the same

    [similar c k q p]: at every cutoff from [c] on, [q] and [p] have the same
    points beyond [k] to hand out.  What is due at [c] counts only by its largest
    point, later reports count time by time. *)

Definition due_beyond (cutoff x : Z) (q : list (Z * Z)) : Prop :=
  ∃ t l, (t, l) ∈ q ∧ t ≤ cutoff ∧ x ≤ l.
Definition reported_at (t x : Z) (q : list (Z * Z)) : Prop := ∃ l, (t, l) ∈ q ∧ x ≤ l.

Definition similar (c k : Z) (q p : list (Z * Z)) : Prop := ∀ x, k < x →
  (due_beyond c x q ↔ due_beyond c x p) ∧ (∀ t, c < t → reported_at t x q ↔ reported_at t x p).

Lemma trim_pop_spec cutoff s :
  in_u64 cutoff → cutoff < u64_max →
  let '(s', popped) := trim_pop cutoff s in
  (∀ e, e ∈ trim_queue s' ↔ e ∈ trim_queue s ∧ cutoff < e.1) ∧
  match popped with
  | Some d => (modification_time d, durable_point d) ∈ trim_queue s ∧
              modification_time d ≤ cutoff ∧ known_trim_point s < durable_point d ∧
              (∀ t l, (t, l) ∈ trim_queue s → t ≤ cutoff → l ≤ durable_point d)
  | None => ¬ due_beyond cutoff (known_trim_point s + 1) (trim_queue s)
  end.
Proof.
  intros Hc1 Hc2. unfold trim_pop, bt_split_off. rewrite (cutoff_next cutoff) by done. simpl.
  split.
  { intros e. rewrite elem_of_filter_bool, Z.leb_le. split; intros [? ?]; split; try done; lia. }
  set (due := filter (λ e : Z * Z, e.1 <? cutoff + 1) (trim_queue s)).
  assert (∀ e, e ∈ due ↔ e ∈ trim_queue s ∧ e.1 ≤ cutoff) as Hd.
  { intros e. unfold due. rewrite elem_of_filter_bool, Z.ltb_lt. split; intros [? ?]; split; try done; lia. }
  pose proof (max_by_lsn_spec due) as Hmax. destruct (max_by_lsn due) as [[t l]|]; simpl.
  - destruct Hmax as [Hin Hmax]. apply Hd in Hin as [Hin Ht]. simpl in *.
    destruct (Z.ltb_spec (known_trim_point s) l); simpl.
    + split_and!; try done. intros t' l' Hin' Ht'. apply (Hmax (t', l')). by apply Hd.
    + intros (t' & l' & Hin' & Ht' & Hl'). specialize (Hmax (t', l')). simpl in Hmax.
      assert (l' ≤ l) by (apply Hmax, Hd; done). lia.
  - intros (t' & l' & Hin' & Ht' & _). assert ((t', l') ∈ due) as Hx by (by apply Hd).
    rewrite Hmax in Hx. by apply not_elem_of_nil in Hx.
Qed.

#[export] Instance similar_equivalence c k : Equivalence (similar c k).
Proof.
  split.
  - intros q x Hx. done.
  - intros q p H x Hx. destruct (H x Hx) as [? Ht]. split; [done|]. intros t Hc. symmetry. by apply Ht.
  - intros q p r H1 H2 x Hx. destruct (H1 x Hx) as [D1 T1], (H2 x Hx) as [D2 T2]. split; [by rewrite D1|].
    intros t Hc. rewrite T1 by done. by apply T2.
Qed.

(** What is due at a later cutoff was due before or was reported in between. *)
Lemma due_later c c' x q :
  c ≤ c' → due_beyond c' x q ↔ due_beyond c x q ∨ ∃ t, c < t ≤ c' ∧ reported_at t x q.
Proof.
  intros Hc. split.
  - intros (t & l & Hin & Ht & Hl). destruct (decide (t ≤ c)); [left; by exists t, l|].
    right. exists t. split; [lia|]. by exists l.
  - intros [(t & l & ? & ? & ?)|(t & ? & l & ? & ?)]; exists t, l; split_and!; try done; lia.
Qed.

Lemma similar_later c c' k k' q p : c ≤ c' → k ≤ k' → similar c k q p → similar c' k' q p.
Proof.
  intros Hc Hk H x Hx. destruct (H x ltac:(lia)) as [Hd Ht]. split; [|intros t ?; apply Ht; lia].
  rewrite !(due_later c c') by done. rewrite Hd. apply or_iff_compat_l.
  split; intros (t & Hin & Hr); exists t; (split; [done|]); (apply Ht; [lia|done]).
Qed.

(** Handing out what is due. *)
Lemma similar_later_part c k q p :
  similar c k q p → similar c k (filter (λ e, c < e.1) q) (filter (λ e, c < e.1) p).
Proof.
  intros H x Hx. destruct (H x Hx) as [_ Ht]. split.
  - split; intros (t & l & [Hlt _]%list_elem_of_filter & Hle & _); simpl in *; lia.
  - intros t Hc. specialize (Ht t Hc). unfold reported_at in *. setoid_rewrite list_elem_of_filter.
    simpl. naive_solver.
Qed.

Lemma similar_trimmed c k q : similar c k (filter (λ e, k < e.2) q) q.
Proof.
  intros x Hx. unfold due_beyond, reported_at. setoid_rewrite list_elem_of_filter. simpl. split.
  - split; [intros (t & l & [_ ?] & ?); by eauto|]. intros (t & l & ? & ? & ?).
    exists t, l. split_and!; [lia|done..].
  - intros t _. split; [intros (l & [_ ?] & ?); by eauto|]. intros (l & ? & ?).
    exists l. split_and!; [lia|done..].
Qed.

(** Compaction keeps the largest due point. *)
Lemma trim_compact_similar cutoff s :
  trim_wf s → in_u64 cutoff → cutoff < u64_max →
  trim_wf (trim_compact cutoff s) ∧
  known_trim_point (trim_compact cutoff s) = known_trim_point s ∧
  max_observed_durable_lsn (trim_compact cutoff s) = max_observed_durable_lsn s ∧
  (∀ e, e ∈ trim_queue (trim_compact cutoff s) → e ∈ trim_queue s) ∧
  (∀ e, e ∈ trim_queue (trim_compact cutoff s) → e.1 ≤ cutoff → known_trim_point s < e.2) ∧
  similar cutoff (known_trim_point s) (trim_queue (trim_compact cutoff s)) (trim_queue s).
Proof.
  intros Hw Hc1 Hc2. unfold trim_compact.
  pose proof (trim_pop_spec cutoff s Hc1 Hc2) as Hs.
  destruct (trim_pop cutoff s) as [s' popped] eqn:Ep. destruct Hs as [Hq Hp].
  assert (trim_wf s' ∧ known_trim_point s' = known_trim_point s ∧
          max_observed_durable_lsn s' = max_observed_durable_lsn s) as (Hw' & Hk & Hm).
  { unfold trim_pop, bt_split_off in Ep. injection Ep as <- _.
    split_and!; try done. unfold trim_wf. simpl. by apply bt_filter_wf. }
  destruct popped as [d|]; simpl.
  - destruct Hp as (Hin & Ht & Hkd & Hmax). split_and!; try done; [by apply bt_insert_wf|..].
    + intros e [->|[[He _]%Hq _]]%elem_of_bt_insert; done.
    + intros e [->|[[_ He]%Hq _]]%elem_of_bt_insert Hle; [done|lia|done].
    + intros x Hx. unfold due_beyond, reported_at. setoid_rewrite elem_of_bt_insert; [|done..].
      setoid_rewrite Hq. simpl. split.
      * split.
        -- intros (t & l & [[= -> ->]|[[He ?] _]] & ? & ?); [by eauto|lia].
        -- intros (t & l & He & ? & ?). eexists _, _. split; [by left|].
           split; [done|]. specialize (Hmax t l He). lia.
      * intros t Hc. split; [intros (l & [[= -> ->]|[[? ?] _]] & ?); [lia|by eauto]|].
        intros (l & ? & ?). exists l. split; [|done]. right. split; [done|]. lia.
  - split_and!; try done; [by intros e [? _]%Hq|by intros e [_ ?]%Hq; lia|].
    intros x Hx. unfold due_beyond, reported_at. setoid_rewrite Hq. simpl. split.
    + split; [intros (t & l & [_ ?] & ? & _); lia|].
      intros (t & l & He & ? & ?). destruct Hp. exists t, l. split_and!; [done..|lia].
    + intros t Hc. naive_solver.
Qed.

(** A report joins the queue, or replaces a smaller one of the same time. *)
Lemma insert_similar c k t l q :
  bt_wf q → k < l →
  similar c k (bt_insert t (match bt_get t q with Some l0 => Z.max l0 l | None => l end) q)
    ((t, l) :: q).
Proof.
  intros Hw Hl.
  assert (∀ t' x, (∃ l', (t', l') ∈ bt_insert t (match bt_get t q with
                     Some l0 => Z.max l0 l | None => l end) q ∧ x ≤ l') ↔
                  ∃ l', (t', l') ∈ (t, l) :: q ∧ x ≤ l') as H.
  { intros t' x. setoid_rewrite elem_of_bt_insert; [|done..]. setoid_rewrite elem_of_cons.
    destruct (decide (t' = t)) as [->|Hne]; [|simpl; naive_solver].
    destruct (bt_get t q) as [l0|] eqn:Hg.
    - apply bt_get_Some in Hg; [|done]. split.
      + intros (l' & [[= ->]|[? ?]] & Hx); [|by simpl in *].
        destruct (Z.max_spec l0 l) as [[? E]|[? E]]; rewrite E in Hx; [by eauto|by eauto].
      + intros (l' & [[= ->]|Hin] & Hx); eexists; (split; [by left|]); [lia|].
        pose proof (bt_wf_unique _ _ _ Hw Hin Hg eq_refl) as [= ->]. lia.
    - split; [intros (l' & [[= ->]|[? ?]] & Hx); by eauto|].
      intros (l' & [[= ->]|Hin] & Hx); [by eauto|].
      apply bt_get_Some in Hin; [congruence|done]. }
  intros x Hx. split; [|intros t' _; apply H]. unfold due_beyond.
  split; intros (t' & l' & Hin & Ht & Hxl);
    (destruct (H t' x) as [H1 H2]); [destruct H1 as (l2 & ? & ?)|destruct H2 as (l2 & ? & ?)]; eauto 6.
Qed.

Lemma below_similar c k t l q : l ≤ k → similar c k q ((t, l) :: q).
Proof.
  intros Hl x Hx. unfold due_beyond, reported_at. setoid_rewrite elem_of_cons. split.
  - split; [by naive_solver|]. intros (t' & l' & [[= -> ->]|?] & ? & ?); [lia|by eauto].
  - intros t' _. split; [by naive_solver|]. intros (l' & [[= -> ->]|?] & ?); [lia|by eauto].
Qed.

Lemma trim_push_similar d cutoff s :
  trim_wf s → in_u64 cutoff → cutoff < u64_max →
  let s' := (trim_push d cutoff s).1 in
  trim_wf s' ∧ known_trim_point s' = known_trim_point s ∧
  (∀ e, e ∈ trim_queue s' → e ∈ (modification_time d, durable_point d) :: trim_queue s) ∧
  similar cutoff (known_trim_point s) (trim_queue s')
    ((modification_time d, durable_point d) :: trim_queue s).
Proof.
  intros Hw Hc1 Hc2. unfold trim_push.
  set (q := if known_trim_point s <? durable_point d then _ else _). set (s1 := mkTrim _ _ q). simpl.
  assert (trim_wf s1 ∧ (∀ e, e ∈ q → e ∈ (modification_time d, durable_point d) :: trim_queue s) ∧
          similar cutoff (known_trim_point s) q ((modification_time d, durable_point d) :: trim_queue s))
    as (Hw1 & Hin & Hs).
  { unfold trim_wf, s1, q. simpl.
    destruct (Z.ltb_spec (known_trim_point s) (durable_point d)).
    - split_and!; [by apply bt_insert_wf| |by apply insert_similar].
      intros e [->|[? _]]%elem_of_bt_insert; [|by right|done].
      destruct (bt_get _ _) as [l0|] eqn:Hg; [|by left]. apply bt_get_Some in Hg; [|done].
      destruct (Z.max_spec l0 (durable_point d)) as [[_ ->]|[_ ->]]; [by left|by right].
    - split_and!; [done|by right|]. by apply below_similar. }
  destruct (10 <? _)%nat; [|by split_and!].
  destruct (trim_compact_similar cutoff s1 Hw1 Hc1 Hc2) as (? & ? & _ & Hc & _ & Hs2).
  split_and!; try done; [by intros e He%Hc; apply Hin|]. by etrans.
Qed.

(** ** Abstract specification

    The backlog is what was reported and not yet handed out. *)

Record Backlog := mkBacklog {
  bl_highest : Z;             (** the highest point ever reported *)
  bl_trimmed : Z;             (** the point up to which the log is known to be trimmed *)
  bl_points : list (Z * Z) }. (** time and point of the reports not handed out *)

Inductive TrimEvent :=
| Reported (d : PartitionDurability) (cutoff : Z)
| PendingAsked (cutoff : Z)
| Popped (cutoff : Z)
| Trimmed (lsn : Z).

Inductive TrimAnswer :=
| AnswerBool (b : bool)
| AnswerPoint (d : option PartitionDurability)
| AnswerNone.

(** What the queue does and answers. *)
Definition trim_event (s : TrimState) (e : TrimEvent) : TrimState * TrimAnswer :=
  match e with
  | Reported d cutoff => let '(s, b) := trim_push d cutoff s in (s, AnswerBool b)
  | PendingAsked cutoff => let '(s, b) := has_pending_trim cutoff s in (s, AnswerBool b)
  | Popped cutoff => let '(s, d) := trim_pop cutoff s in (s, AnswerPoint d)
  | Trimmed lsn => (notify_trimmed lsn s, AnswerNone)
  end.

(** What it should do: the answer to [pop] is the largest due point of the backlog
    beyond the last trim, and hands out everything that is due. *)
Inductive backlog_step : Backlog → TrimEvent → TrimAnswer → Backlog → Prop :=
| bl_report b d cutoff :
    backlog_step b (Reported d cutoff) (AnswerBool (bl_highest b <? durable_point d))
      (mkBacklog (Z.max (bl_highest b) (durable_point d)) (bl_trimmed b)
         ((modification_time d, durable_point d) :: bl_points b))
| bl_pending b cutoff r :
    (r = true ↔ due_beyond cutoff (bl_trimmed b + 1) (bl_points b)) →
    backlog_step b (PendingAsked cutoff) (AnswerBool r) b
| bl_pop b cutoff d :
    (modification_time d, durable_point d) ∈ bl_points b → modification_time d ≤ cutoff →
    bl_trimmed b < durable_point d →
    (∀ t l, (t, l) ∈ bl_points b → t ≤ cutoff → l ≤ durable_point d) →
    backlog_step b (Popped cutoff) (AnswerPoint (Some d))
      (mkBacklog (bl_highest b) (bl_trimmed b) (filter (λ e, cutoff < e.1) (bl_points b)))
| bl_pop_none b cutoff :
    (∀ t l, (t, l) ∈ bl_points b → t ≤ cutoff → l ≤ bl_trimmed b) →
    backlog_step b (Popped cutoff) (AnswerPoint None)
      (mkBacklog (bl_highest b) (bl_trimmed b) (filter (λ e, cutoff < e.1) (bl_points b)))
| bl_trim b lsn :
    backlog_step b (Trimmed lsn) AnswerNone
      (mkBacklog (bl_highest b) (Z.max (bl_trimmed b) lsn) (bl_points b)).

Inductive backlog_run : Backlog → list (TrimEvent * TrimAnswer) → Backlog → Prop :=
| blr_nil b : backlog_run b [] b
| blr_cons b e a b' l b'' :
    backlog_step b e a b' → backlog_run b' l b'' → backlog_run b ((e, a) :: l) b''.

(** The queue's events with its answers. *)
Fixpoint trim_run (s : TrimState) (es : list TrimEvent) : TrimState * list (TrimEvent * TrimAnswer) :=
  match es with
  | [] => (s, [])
  | e :: es => let '(s, a) := trim_event s e in
               let '(s, l) := trim_run s es in (s, (e, a) :: l)
  end.

(** The cutoffs, which are the clock less the configured delay, do not go back. *)
Definition event_cutoff (e : TrimEvent) : option Z :=
  match e with
  | Reported _ cutoff | PendingAsked cutoff | Popped cutoff => Some cutoff
  | Trimmed _ => None
  end.
Fixpoint clock_runs (now : Z) (es : list TrimEvent) : Prop :=
  match es with
  | [] => True
  | e :: es => match event_cutoff e with
               | Some c => now ≤ c ∧ in_u64 c ∧ c < u64_max ∧ clock_runs c es
               | None => clock_runs now es
               end
  end.

(** ** Refinement *)

Record implements (now : Z) (s : TrimState) (b : Backlog) : Prop := {
  im_wf : trim_wf s;
  im_highest : max_observed_durable_lsn s = bl_highest b;
  im_trimmed : known_trim_point s = bl_trimmed b;
  im_known : ∀ e, e ∈ trim_queue s → e ∈ bl_points b;
  im_similar : similar now (bl_trimmed b) (trim_queue s) (bl_points b) }.

Lemma report_implements now s b d c :
  implements now s b → now ≤ c → in_u64 c → c < u64_max →
  ∃ a b', (trim_event s (Reported d c)).2 = a ∧ backlog_step b (Reported d c) a b' ∧
          implements c (trim_event s (Reported d c)).1 b'.
Proof.
  intros [Hw Hh Hk Hi Hs] Hn Hc1 Hc2.
  destruct (trim_push_similar d c s Hw Hc1 Hc2) as (Hw' & Hk' & Hi' & Hs').
  pose proof (trim_push_max d c s) as Hm. cbn [trim_event].
  assert ((trim_push d c s).2 = (bl_highest b <? durable_point d)) as Hr by (by rewrite <- Hh).
  destruct (trim_push d c s) as [s' r]. simpl in *. subst r.
  eexists _, _. split; [done|]. split; [apply bl_report|]. constructor; simpl; [done|congruence..| |].
  - intros e [->|He]%Hi'%elem_of_cons; [by left|]. right. by apply Hi.
  - rewrite Hk in Hs'. etrans; [done|]. intros x Hx.
    destruct (similar_later now c _ _ _ _ Hn (Z.le_refl _) Hs x Hx) as [Hd Ht].
    unfold due_beyond, reported_at in *. setoid_rewrite elem_of_cons. split; [naive_solver|].
    intros t Hct. specialize (Ht t Hct). naive_solver.
Qed.

Lemma count_due_pos c q : (0 <? count_due c q)%nat = true ↔ ∃ e, e ∈ q ∧ e.1 ≤ c.
Proof.
  unfold count_due. rewrite Nat.ltb_lt. split.
  - destruct (filter _ q) as [|e l] eqn:Hf; [simpl; lia|]. intros _. exists e.
    assert (e ∈ filter (λ e, e.1 ≤ c) q) as He by (rewrite Hf; left).
    by apply list_elem_of_filter in He as [? ?].
  - intros (e & Hin & Hc). assert (e ∈ filter (λ e, e.1 ≤ c) q) as He by (by apply list_elem_of_filter).
    destruct (filter _ q); [by apply not_elem_of_nil in He|simpl; lia].
Qed.

Lemma pending_implements now s b c :
  implements now s b → now ≤ c → in_u64 c → c < u64_max →
  ∃ a b', (trim_event s (PendingAsked c)).2 = a ∧ backlog_step b (PendingAsked c) a b' ∧
          implements c (trim_event s (PendingAsked c)).1 b'.
Proof.
  intros [Hw Hh Hk Hi Hs] Hn Hc1 Hc2.
  destruct (trim_compact_similar c s Hw Hc1 Hc2) as (Hw' & Hk' & Hm' & Hi' & Hb' & Hs').
  rewrite Hk in *. assert (similar c (bl_trimmed b) (trim_queue (trim_compact c s)) (bl_points b)) as Hsim
    by (etrans; [done|]; by eapply similar_later; [| |done]; [|lia]).
  eexists _, b. split; [done|]. split.
  - simpl. apply bl_pending. rewrite count_due_pos. destruct (Hsim (bl_trimmed b + 1)) as [<- _]; [lia|].
    split; [|intros (t & l & ? & ? & _); by exists (t, l)].
    intros ([t l] & He & Ht). exists t, l. split_and!; try done. specialize (Hb' _ He Ht). simpl in *. lia.
  - constructor; simpl; [done|congruence..| |done]. intros e He. by apply Hi, Hi'.
Qed.

Lemma pop_implements now s b c :
  implements now s b → now ≤ c → in_u64 c → c < u64_max →
  ∃ a b', (trim_event s (Popped c)).2 = a ∧ backlog_step b (Popped c) a b' ∧
          implements c (trim_event s (Popped c)).1 b'.
Proof.
  intros [Hw Hh Hk Hi Hs] Hn Hc1 Hc2. cbn [trim_event].
  assert (similar c (bl_trimmed b) (trim_queue s) (bl_points b)) as Hsim
    by (by eapply similar_later; [| |done]; [|lia]).
  pose proof (trim_pop_spec c s Hc1 Hc2) as Hp.
  destruct (trim_pop c s) as [s' popped] eqn:Ep. destruct Hp as [Hq Hp].
  assert (implements c s' (mkBacklog (bl_highest b) (bl_trimmed b)
            (filter (λ e, c < e.1) (bl_points b)))) as Hs'.
  { assert (trim_queue s' = filter (λ e, c < e.1) (trim_queue s) ∧ known_trim_point s' = known_trim_point s
            ∧ max_observed_durable_lsn s' = max_observed_durable_lsn s) as (E1 & E2 & E3).
    { unfold trim_pop, bt_split_off in Ep. injection Ep as <- _. split_and!; try done. simpl.
      apply list_filter_iff. intros e. rewrite (cutoff_next c) by done. rewrite Is_true_true, Z.leb_le. lia. }
    constructor; simpl; [unfold trim_wf; rewrite E1; by apply bt_filter_wf|congruence..| |].
    - intros e [He Hc]%Hq. apply list_elem_of_filter. split; [done|by apply Hi].
    - rewrite E1. by apply similar_later_part. }
  rewrite Hk in Hp. destruct popped as [d|]; eexists _, _; (split; [done|]); (split; [|exact Hs']).
  - destruct Hp as (Hin & Ht & Hkd & Hmax). apply bl_pop; [by apply Hi|done..|].
    intros t l Hl Htc. apply Z.nlt_ge. intros Hlt.
    destruct (Hsim l ltac:(lia)) as [[_ (t' & l' & H1 & H2 & H3)] _]; [by exists t, l|].
    specialize (Hmax t' l' H1 H2). lia.
  - apply bl_pop_none. intros t l Hl Htc. apply Z.nlt_ge. intros Hlt. apply Hp.
    destruct (Hsim (bl_trimmed b + 1)) as [-> _]; [lia|]. exists t, l. split_and!; [done..|lia].
Qed.

Lemma trimmed_implements now s b lsn :
  implements now s b →
  implements now (notify_trimmed lsn s)
    (mkBacklog (bl_highest b) (Z.max (bl_trimmed b) lsn) (bl_points b)).
Proof.
  intros [Hw Hh Hk Hi Hs]. constructor; simpl; [by apply bt_filter_wf|done|congruence|..].
  - intros e [_ He]%list_elem_of_filter. by apply Hi.
  - rewrite Hk. etrans; [apply similar_trimmed|]. by eapply similar_later; [| |done]; lia.
Qed.

Lemma trim_run_implements now s b es :
  implements now s b → clock_runs now es →
  ∃ b', backlog_run b (trim_run s es).2 b' ∧ bl_trimmed b' = known_trim_point (trim_run s es).1.
Proof.
  revert now s b. induction es as [|e es IH]; intros now s b Hi Hc.
  { exists b. split; [constructor|]. symmetry. apply Hi. }
  assert (∃ now' b', backlog_step b e (trim_event s e).2 b' ∧
            implements now' (trim_event s e).1 b' ∧ clock_runs now' es) as (now' & b1 & Hst & Hi1 & Hc1).
  { destruct e as [d c|c|c|lsn]; simpl in Hc; [destruct Hc as (? & ? & ? & ?)..|].
    - destruct (report_implements now s b d c) as (a & b1 & <- & ? & ?); [done..|]. by exists c, b1.
    - destruct (pending_implements now s b c) as (a & b1 & <- & ? & ?); [done..|]. by exists c, b1.
    - destruct (pop_implements now s b c) as (a & b1 & <- & ? & ?); [done..|]. by exists c, b1.
    - exists now. eexists. split_and!; [apply bl_trim|by apply trimmed_implements|done]. }
  destruct (IH now' (trim_event s e).1 b1 Hi1 Hc1) as (b2 & Hr & Hk). simpl.
  destruct (trim_event s e) as [s1 a]. simpl in *. destruct (trim_run s1 es) as [s2 l]. simpl in *.
  exists b2. split; [by econstructor|done].
Qed.


(** Eleven due points are compacted, the largest is handed out; its trim fails, it
    is pushed back and handed out again. *)
Definition demo_events : list TrimEvent :=
  Trimmed 3 ::
  ((λ i, Reported {| durable_point := 20 - i; modification_time := i |} 12) <$> seqZ 0 12) ++
  [Popped 12; Popped 12; Reported {| durable_point := 20; modification_time := 0 |} 13; Popped 14].

