(* ===== verification/Processor.v ===== *)
(** * The partition processor: deduplication, outbox, log position, recovery

    [worker/src/partition/processor/*]: deduplication of commands ([dedup.rs]),
    the outbox ([outbox.rs]), the cached state of the partition ([fsm.rs],
    [context.rs]), the partition-scoped commands ([commands/*]), and from
    [worker/src/partition/mod.rs] the application of a log entry
    ([apply_log_entry]) and of a batch of entries with its commit and the
    compaction of the queue cache.

    A processor [Proc] has its memory, the view of the open transaction and the
    committed store.  What differs between replicas is the argument [Local]: the
    role, the sample of the store, the order of hash sets and the clock of the trim
    queue.  The role is
    an input here: leadership itself, the execution of actions, the rule book,
    version barriers (with the migrations they run) and the status reported to
    others are not modelled. *)

From stdpp Require Import strings.
From S2P Require Import Prelude Clock Replication TrimQueue Invocation InvocationStatus.
From S2P Require Import JournalV1 IdText VQueueMeta PartitionStore VQueueCache VQueue.
From S2P Require Import StateMachineBase InvocationLifecycle JournalEntries JournalV1Handlers.
From S2P Require Import StateMachine Replicas.

Open Scope Z_scope.

(** ** Deduplication *)

Inductive ProducerId :=
| ProdPartition (p : Z)
| ProdOther (name : string)
| ProdProducer (id : Z).

#[export] Instance ProducerId_eq_dec : EqDecision ProducerId.
Proof. solve_decision. Defined.
#[export] Instance ProducerId_countable : Countable ProducerId.
Proof.
  refine (inj_countable'
    (λ p, match p with
          | ProdPartition z => inl (inl z) | ProdOther s => inr s | ProdProducer z => inl (inr z)
          end)
    (λ x, match x with
          | inl (inl z) => ProdPartition z | inr s => ProdOther s | inl (inr z) => ProdProducer z
          end) _).
  by intros [].
Defined.

Definition self_producer : ProducerId := ProdOther "SELF".
Definition is_self_producer (p : ProducerId) : bool := bool_decide (p = self_producer).

Record EpochSequenceNumber := { esn_leader_epoch : Z; esn_sequence_number : Z }.

(** [a >= b]. *)
Definition esn_ge (a b : EpochSequenceNumber) : bool :=
  match then_with (Z.compare (esn_leader_epoch a) (esn_leader_epoch b))
                  (Z.compare (esn_sequence_number a) (esn_sequence_number b)) with
  | Lt => false | _ => true
  end.

Inductive DedupSequenceNumber := Sn (n : Z) | Esn (e : EpochSequenceNumber).

(** [v2::Dedup]. *)
Inductive Dedup :=
| DedupNone
| DedupSelfProposal (leader_epoch seq : Z)
| DedupForeignPartition (partition seq : Z)
| DedupArbitrary (prefix : option string) (producer_id seq : Z).

(** [impl From<v2::Dedup> for Option<DedupInformation>]. *)
Definition dedup_information (d : Dedup) : option (ProducerId * DedupSequenceNumber) :=
  match d with
  | DedupNone => None
  | DedupSelfProposal leader_epoch seq =>
      Some (self_producer,
            Esn {| esn_leader_epoch := leader_epoch; esn_sequence_number := seq |})
  | DedupForeignPartition partition seq => Some (ProdPartition partition, Sn seq)
  | DedupArbitrary (Some prefix) _ seq => Some (ProdOther prefix, Sn seq)
  | DedupArbitrary None producer_id seq => Some (ProdProducer producer_id, Sn seq)
  end.

Definition LEADER_EPOCH_INVALID : Z := 0.
Definition initial_esn : EpochSequenceNumber :=
  {| esn_leader_epoch := LEADER_EPOCH_INVALID; esn_sequence_number := 0 |}.

Abbreviation DedupTable := (gmap ProducerId DedupSequenceNumber).

(** [Dedup::create]: the last number of the own proposals; [None] is a panic. *)
Definition dedup_create (t : DedupTable) : option EpochSequenceNumber :=
  match t !! self_producer with
  | None => Some initial_esn
  | Some (Esn e) => Some e
  | Some (Sn _) => None
  end.

Definition is_duplicate (my_dedup_esn : EpochSequenceNumber) (d : Dedup) (t : DedupTable)
    : option bool :=
  match dedup_information d with
  | None => Some false
  | Some (producer, n) =>
      if is_self_producer producer then
        match n with Esn e => Some (esn_ge my_dedup_esn e) | Sn _ => None end
      else
        match t !! producer with
        | None => Some false
        | Some last =>
            match last, n with
            | Esn last, Esn e => Some (esn_ge last e)
            | Sn last, Sn n => Some (n <=? last)
            | _, _ => None
            end
        end
  end.

Definition store_dedup_information (my_dedup_esn : EpochSequenceNumber) (d : Dedup)
    (t : DedupTable) : option (EpochSequenceNumber * DedupTable) :=
  match dedup_information d with
  | None => Some (my_dedup_esn, t)
  | Some (producer, n) =>
      let! esn := if is_self_producer producer
                  then match n with Esn e => Some e | Sn _ => None end
                  else Some my_dedup_esn in
      Some (esn, <[ producer := n ]> t)
  end.

(** ** Outbox *)

(** [get_outbox_head_seq_number]: the first row of the table. *)
Definition outbox_first (m : gmap Z OutboxMessage) : option Z :=
  map_fold (λ i _ o, match o with Some j => Some (Z.min i j) | None => Some i end) None m.

(** [Outbox::create]. *)
Definition outbox_create (t : T) : Z := default (t_outbox_tail t) (outbox_first (t_outbox t)).

(** [truncate_outbox_to]: the new head and the tables. *)
Definition truncate_outbox_to (head to : Z) (t : T) : Z * T :=
  if to <? head then (head, t) else (as_u64 (to + 1), truncate_outbox head to t).


(** ** The store and the processor *)

Record ReplicaSetState := { rs_version : Z; rs_members : list (Z * Z) }.

(** [new_replica_set_state]: the members, with an invalid durable position. *)
Definition new_replica_set_state (version : Z) (nodes : list Z) : ReplicaSetState :=
  {| rs_version := version; rs_members := (λ n, (n, 0)) <$> nodes |}.

Record CurrentReplicaSetState := {
  crs_replica_set : ReplicaSetState; crs_modified_at : Z; crs_replication : ReplicationProperty }.

Record CachedEpochMetadata := {
  cem_version : Z; cem_leader_node_id : Z * Z; cem_leader_epoch : Z;
  cem_current : CurrentReplicaSetState; cem_next : option ReplicaSetState }.

Record VersionedSchema := { vsc_version : Z; vsc_schema : Schema }.

(** The rows of a partition. *)
Record Store := mkStore {
  st_tables : T;
  st_dedup : DedupTable;
  st_applied_lsn : option Z;
  st_features : PersistedFeatures;
  st_schema : option VersionedSchema;
  st_epoch_metadata : option CachedEpochMetadata;
  st_durability : option PartitionDurability }.

(** What the processor keeps in memory: [Fsm], [Dedup], [Outbox], [TrimQueue] and
    the queue cache. *)
Record Memory := mkMemory {
  pm_last_applied_lsn : Z;
  pm_features : PersistedFeatures;
  pm_schema : option VersionedSchema;
  pm_epoch_metadata : option CachedEpochMetadata;
  pm_durable_point : option PartitionDurability;
  pm_my_dedup_esn : EpochSequenceNumber;
  pm_outbox_head : Z;
  pm_outbox_tail_seq : Z;
  pm_inbox_seq_number : Z;
  pm_trim_queue : TrimState;
  pm_vqueues : VQueuesMetaCache }.

(** [p_txn] is what the open transaction sees, [p_db] what is committed. *)
Record Proc := mkProc {
  p_mem : Memory; p_txn : Store; p_db : Store; p_actions : list Action }.

Definition with_mem (f : Memory → Memory) (p : Proc) : Proc :=
  mkProc (f (p_mem p)) (p_txn p) (p_db p) (p_actions p).

Definition st_with_tables (t : T) (s : Store) : Store :=
  mkStore t (st_dedup s) (st_applied_lsn s) (st_features s) (st_schema s) (st_epoch_metadata s)
    (st_durability s).
(** What the state machine leaves in memory: the queue cache and the numbers. *)
Definition pm_with_vqueues (c : VQueuesMetaCache) (m : Memory) : Memory :=
  mkMemory (pm_last_applied_lsn m) (pm_features m) (pm_schema m) (pm_epoch_metadata m)
    (pm_durable_point m) (pm_my_dedup_esn m) (pm_outbox_head m)
    (pm_outbox_tail_seq m) (pm_inbox_seq_number m) (pm_trim_queue m) c.

Definition pm_numbers (m : Memory) : Numbers :=
  mkNumbers (pm_outbox_tail_seq m) (pm_inbox_seq_number m).
Definition pm_with_numbers (n : Numbers) (m : Memory) : Memory :=
  mkMemory (pm_last_applied_lsn m) (pm_features m) (pm_schema m) (pm_epoch_metadata m)
    (pm_durable_point m) (pm_my_dedup_esn m) (pm_outbox_head m) (outbox_tail_seq n)
    (inbox_seq_number n) (pm_trim_queue m) (pm_vqueues m).

(** [ProcessorRawContext::create]; [cutoff] is the clock of the trim queue.
    [None] is a panic. *)
Definition create `{!SlotKeys} (vqueue_metadata_cache_capacity : nat) (cutoff : Z) (db : Store)
    : option Proc :=
  let! esn := dedup_create (st_dedup db) in
  let trim := match st_durability db with
              | Some d => (trim_push d cutoff trim_default).1
              | None => trim_default
              end in
  Some (mkProc
    {| pm_last_applied_lsn := default 0 (st_applied_lsn db);
       pm_features := st_features db;
       pm_schema := st_schema db;
       pm_epoch_metadata := st_epoch_metadata db;
       pm_durable_point := st_durability db;
       pm_my_dedup_esn := esn;
       pm_outbox_head := outbox_create (st_tables db);
       pm_outbox_tail_seq := t_outbox_tail (st_tables db);
       pm_inbox_seq_number := t_inbox_seq (st_tables db);
       pm_trim_queue := trim;
       pm_vqueues := cache_create vqueue_metadata_cache_capacity (active_rows (st_tables db)) |}
    db db []).

(** ** Log entries *)

Record AnnounceLeaderCommand := {
  al_node_id : Z * Z;
  al_leader_epoch : Z;
  al_epoch_version : option Z;
  al_current_config : option (Z * list Z * Z * ReplicationProperty);
  al_next_config : option (Z * list Z) }.

(** The commands of a record: those for a key, and the partition-scoped ones. *)
Inductive CommandOf :=
| KeyScoped (r : Record_)
| AnnounceLeader (a : AnnounceLeaderCommand)
| UpdatePartitionDurability (partition_id : Z) (d : PartitionDurability)
| UpsertSchema (s : VersionedSchema)
| TruncateOutbox (index : Z).

Inductive LogEntry :=
| EntryData (lsn created_at : Z) (dedup : Dedup) (c : CommandOf)
| EntryTrimmed (from to : Z)
| EntryFiltered (from to : Z)
| EntryDataLoss (from to : Z).

Inductive ProcessorError :=
| TrimGapEncountered (trim_gap_end read_pointer : Z)
| DataLossGapEncountered (data_loss_gap_end read_pointer : Z)
| ErrorStateMachine (e : Error).

Inductive NextStep :=
| SkipUntil (lsn : Z)
| AdvanceLastAppliedLsn (lsn : Z) (dedup : Dedup).

(** What a replica does not share with the others: its role, the sample of its store,
    the order in which its hash sets of response sinks are iterated, and the clock
    of its trim queue. *)
Record Local := {
  lc_leader : bool;
  lc_sample : VQueueId → VQueueMeta → Update → bool;
  lc_order : gset ServiceInvocationResponseSink → list ServiceInvocationResponseSink;
  lc_cutoff : Z }.

Section processor.
Context (K : SlotKeys) (D : Digests) (B62 : Base62) (B64 : Base64) (SK : StateKeysCodec).
(** The version of the server, the partition. *)
Context (restate_version : string) (partition_id : Z).
Abbreviation PM := (sm Proc ProcessorError).

(** The context of a record ([StateMachine::apply]). *)
Definition record_ctx (m : Memory) (l : Local) (lsn created_at : Z) : Ctx :=
  {| record_created_at := created_at; record_lsn := lsn; is_leader := lc_leader l;
     features := pm_features m; full_write := lc_sample l; sink_order := lc_order l;
     schema := vsc_schema <$> pm_schema m; current_restate_version := restate_version |}.

(** Runs a handler on the tables, the cache, the numbers and the actions of the
    processor. *)
Definition on_state_machine {A} (m : M A) : PM A := λ p,
  let '(s, r) := m (mkV (st_tables (p_txn p)) (pm_vqueues (p_mem p)) (p_actions p)
                      (pm_numbers (p_mem p))) in
  (mkProc (pm_with_numbers (v_numbers s) (pm_with_vqueues (v_cache s) (p_mem p)))
     (st_with_tables (v_tables s) (p_txn p)) (p_db p)
     (v_actions s),
   match r with Ok a => Ok a | Err e => Err (ErrorStateMachine e) | Panic => Panic end).

Definition commit : PM unit := sm_modify (λ p, mkProc (p_mem p) (p_txn p) (p_txn p) (p_actions p)).
Definition clear_actions : PM unit := sm_modify (λ p, mkProc (p_mem p) (p_txn p) (p_db p) []).

(** *** Partition-scoped commands *)

(** [set_epoch_metadata]: only a newer version replaces what is known. *)
Definition set_epoch_metadata (e : CachedEpochMetadata) : PM unit := λ p,
  let m := p_mem p in
  let s := p_txn p in
  if default 0 (cem_version <$> pm_epoch_metadata m) <? cem_version e then
    (mkProc
       (mkMemory (pm_last_applied_lsn m) (pm_features m) (pm_schema m) (Some e)
          (pm_durable_point m) (pm_my_dedup_esn m) (pm_outbox_head m)
          (pm_outbox_tail_seq m) (pm_inbox_seq_number m) (pm_trim_queue m)
          (pm_vqueues m))
       (mkStore (st_tables s) (st_dedup s) (st_applied_lsn s) (st_features s) (st_schema s) (Some e)
          (st_durability s)) (p_db p) (p_actions p), Ok tt)
  else (p, Ok tt).

Definition on_announce_leader (a : AnnounceLeaderCommand) : PM unit :=
  commit ;;
  clear_actions ;;
  match al_current_config a with
  | None => sm_ret tt
  | Some (version, replica_set, modified_at, replication) =>
      let* v := sm_lift (expect (al_epoch_version a)) in
      set_epoch_metadata
        {| cem_version := v; cem_leader_node_id := al_node_id a;
           cem_leader_epoch := al_leader_epoch a;
           cem_current :=
             {| crs_replica_set := new_replica_set_state version replica_set;
                crs_modified_at := modified_at; crs_replication := replication |};
           cem_next := (λ c, new_replica_set_state c.1 c.2) <$> al_next_config a |}
  end.

Definition set_durable_point (d : PartitionDurability) : PM unit := sm_modify (λ p,
  let m := p_mem p in
  let s := p_txn p in
  mkProc
    (mkMemory (pm_last_applied_lsn m) (pm_features m) (pm_schema m) (pm_epoch_metadata m)
       (Some d) (pm_my_dedup_esn m) (pm_outbox_head m)
       (pm_outbox_tail_seq m) (pm_inbox_seq_number m) (pm_trim_queue m) (pm_vqueues m))
    (mkStore (st_tables s) (st_dedup s) (st_applied_lsn s) (st_features s) (st_schema s)
       (st_epoch_metadata s) (Some d)) (p_db p) (p_actions p)).

Definition on_update_durability (l : Local) (target : Z) (d : PartitionDurability) : PM unit :=
  if negb (target =? partition_id) then sm_ret tt
  else
    let* advanced := λ p,
      let m := p_mem p in
      let '(q, r) := trim_push d (lc_cutoff l) (pm_trim_queue m) in
      (with_mem (λ m, mkMemory (pm_last_applied_lsn m) (pm_features m) (pm_schema m)
         (pm_epoch_metadata m) (pm_durable_point m) (pm_my_dedup_esn m) (pm_outbox_head m)
         (pm_outbox_tail_seq m) (pm_inbox_seq_number m) q
         (pm_vqueues m)) p, Ok r) in
    sm_when advanced (set_durable_point d).

Definition on_upsert_schema (s : VersionedSchema) : PM unit := λ p,
  let m := p_mem p in
  let t := p_txn p in
  if default 0 (vsc_version <$> pm_schema m) <? vsc_version s then
    (mkProc
       (mkMemory (pm_last_applied_lsn m) (pm_features m) (Some s) (pm_epoch_metadata m)
          (pm_durable_point m) (pm_my_dedup_esn m) (pm_outbox_head m)
          (pm_outbox_tail_seq m) (pm_inbox_seq_number m) (pm_trim_queue m)
          (pm_vqueues m))
       (mkStore (st_tables t) (st_dedup t) (st_applied_lsn t) (st_features t) (Some s)
          (st_epoch_metadata t) (st_durability t)) (p_db p) (p_actions p), Ok tt)
  else (p, Ok tt).

Definition on_truncate_outbox (index : Z) : PM unit := sm_modify (λ p,
  let m := p_mem p in
  let '(head, t) := truncate_outbox_to (pm_outbox_head m) index (st_tables (p_txn p)) in
  mkProc
    (mkMemory (pm_last_applied_lsn m) (pm_features m) (pm_schema m) (pm_epoch_metadata m)
       (pm_durable_point m) (pm_my_dedup_esn m) head (pm_outbox_tail_seq m) (pm_inbox_seq_number m)
       (pm_trim_queue m) (pm_vqueues m))
    (st_with_tables t (p_txn p)) (p_db p) (p_actions p)).

(** *** One entry *)

Definition apply_command_of (l : Local) (lsn created_at : Z) (c : CommandOf) : PM unit :=
  match c with
  | KeyScoped r => λ p,
      on_state_machine (@on_apply D K (record_ctx (p_mem p) l lsn created_at) B62 B64 SK r) p
  | AnnounceLeader a => on_announce_leader a
  | UpdatePartitionDurability target d => on_update_durability l target d
  | UpsertSchema s => on_upsert_schema s
  | TruncateOutbox index => on_truncate_outbox index
  end.

Definition apply_log_entry (l : Local) (e : LogEntry) : PM NextStep :=
  match e with
  | EntryTrimmed from to => sm_lift (Err (TrimGapEncountered to from))
  | EntryFiltered _ to => sm_ret (SkipUntil to)
  | EntryDataLoss from to => sm_lift (Err (DataLossGapEncountered to from))
  | EntryData lsn created_at d c =>
      let* duplicate := λ p, (p, expect (is_duplicate (pm_my_dedup_esn (p_mem p)) d
                                           (st_dedup (p_txn p)))) in
      if duplicate : bool then sm_ret (SkipUntil lsn)
      else apply_command_of l lsn created_at c ;; sm_ret (AdvanceLastAppliedLsn lsn d)
  end.

Definition store_dedup (d : Dedup) : PM unit := λ p,
  let m := p_mem p in
  let s := p_txn p in
  match store_dedup_information (pm_my_dedup_esn m) d (st_dedup s) with
  | None => (p, Panic)
  | Some (esn, t) =>
      (mkProc
         (mkMemory (pm_last_applied_lsn m) (pm_features m) (pm_schema m) (pm_epoch_metadata m)
            (pm_durable_point m) esn (pm_outbox_head m)
            (pm_outbox_tail_seq m) (pm_inbox_seq_number m) (pm_trim_queue m) (pm_vqueues m))
         (mkStore (st_tables s) t (st_applied_lsn s) (st_features s) (st_schema s)
            (st_epoch_metadata s) (st_durability s)) (p_db p) (p_actions p), Ok tt)
  end.

(** [update_last_applied_lsn]. *)
Definition update_last_applied_lsn (lsn : Z) : PM unit := sm_modify (λ p,
  let m := p_mem p in
  let s := p_txn p in
  mkProc
    (mkMemory lsn (pm_features m) (pm_schema m) (pm_epoch_metadata m) (pm_durable_point m)
       (pm_my_dedup_esn m) (pm_outbox_head m)
       (pm_outbox_tail_seq m) (pm_inbox_seq_number m) (pm_trim_queue m) (pm_vqueues m))
    (mkStore (st_tables s) (st_dedup s) (Some lsn) (st_features s) (st_schema s)
       (st_epoch_metadata s) (st_durability s)) (p_db p) (p_actions p)).

(** The body of the loop over the entries of a batch. *)
Definition process_entry (l : Local) (e : LogEntry) : PM unit :=
  let* step := apply_log_entry l e in
  match step with
  | AdvanceLastAppliedLsn lsn d => store_dedup d ;; update_last_applied_lsn lsn
  | SkipUntil lsn => update_last_applied_lsn lsn
  end.

Definition compact (can_evict : VQueueHandle → bool) : PM unit := λ p,
  let '(c, r) := try_compact (E := Error) can_evict (pm_vqueues (p_mem p)) in
  (with_mem (pm_with_vqueues c) p,
   match r with Ok _ => Ok tt | Err e => Err (ErrorStateMachine e) | Panic => Panic end).

(** A batch: the entries, the commit and the compaction.  [txn.clear()] drops
    what is not committed. *)
Definition process_batch (entries : list (Local * LogEntry)) (can_evict : VQueueHandle → bool)
    : PM unit :=
  sm_modify (λ p, mkProc (p_mem p) (p_db p) (p_db p) []) ;;
  sm_for (λ le, process_entry le.1 le.2) entries ;;
  commit ;;
  compact can_evict.
End processor.
