(* ===== verification/Recovery.v ===== *)
(** * Recovery, replication and deduplication of the partition processor

    [reaches n p]: a processor that starts from a store, applies entries of the log,
    commits and compacts at any time, and is restarted from its committed store at
    any time, by any replica that is allowed, is in state [p] after [n] entries.  The
    theorem shows that its store is then the one of the reference execution [ref_run],
    which recovers from the store before every entry: memory, caches, batches,
    crashes and the role of the replica are not observable in the store.  What the log
    has to be like is [log_ordered] and [log_conforms]. *)

From stdpp Require Import strings.
From S2P Require Import Prelude Clock Replication TrimQueue Invocation InvocationStatus.
From S2P Require Import JournalV1 IdText VQueueMeta PartitionStore VQueueCache VQueue.
From S2P Require Import StateMachineBase InvocationLifecycle JournalEntries JournalV1Handlers.
From S2P Require Import StateMachine Replicas Demo Determinism Writes Sequences Processor.

Open Scope Z_scope.

(** ** The outbox of a record *)

(** No message below the head, none at or beyond the tail. *)
Definition outbox_within (head : Z) (t : T) : Prop :=
  head ≤ t_outbox_tail t ∧ ∀ i m, t_outbox t !! i = Some m → head ≤ i < t_outbox_tail t.

(** New messages are appended at the tail, as long as the numbers do not wrap around. *)
Lemma outbox_within_after head x y ms :
  outbox_after x y ms → in_u64 (t_outbox_tail x.1) →
  t_outbox_tail x.1 + Z.of_nat (List.length ms) ≤ u64_max →
  outbox_within head x.1 → outbox_within head y.1 ∧ in_u64 (t_outbox_tail y.1).
Proof.
  unfold in_u. intros Ha Hu Hl [Hh Hi].
  destruct (outbox_after_grows _ _ _ Ha) as [Ht Hg]; [lia|done|].
  split; [|lia]. split; [lia|]. intros i m. rewrite Hg. case_decide; [lia|].
  intros Hm%Hi. lia.
Qed.

Lemma outbox_first_spec (m : gmap Z OutboxMessage) :
  match outbox_first m with
  | Some h => is_Some (m !! h) ∧ ∀ i, is_Some (m !! i) → h ≤ i
  | None => m = ∅
  end.
Proof.
  unfold outbox_first. apply (map_fold_weak_ind (λ o m, match o with
    | Some h => is_Some (m !! h) ∧ ∀ i, is_Some (m !! i) → h ≤ i | None => m = ∅ end)); [done|].
  intros i x m' [h|] Hi IH.
  - destruct IH as [Hh Hle]. split.
    + destruct (Z.min_spec i h) as [[? ->]|[? ->]]; [by rewrite lookup_insert_eq|].
      destruct (decide (i = h)) as [->|]; [by rewrite lookup_insert_eq|by rewrite lookup_insert_ne].
    + intros j Hj. destruct (decide (j = i)) as [->|]; [lia|].
      rewrite lookup_insert_ne in Hj by done. apply Hle in Hj. lia.
  - subst. split; [by rewrite lookup_insert_eq|]. intros j Hj.
    destruct (decide (j = i)) as [->|]; [lia|]. rewrite lookup_insert_ne in Hj by done.
    rewrite lookup_empty in Hj. by destruct Hj.
Qed.

Lemma outbox_create_within head t : outbox_within head t → outbox_within (outbox_create t) t.
Proof.
  intros [Hh Hi]. unfold outbox_create. pose proof (outbox_first_spec (t_outbox t)) as Hf.
  destruct (outbox_first (t_outbox t)) as [h|]; simpl.
  - destruct Hf as [[m Hm] Hle]. pose proof (Hi _ _ Hm). split; [lia|]. intros i m' Hm'.
    pose proof (Hi _ _ Hm'). specialize (Hle i). rewrite Hm' in Hle. split; [by apply Hle|lia].
  - split; [lia|]. rewrite Hf. intros i m'. by rewrite lookup_empty.
Qed.

(** Truncation removes the messages up to [to], whatever the head is. *)
Lemma foldr_delete_lookup {V} (l : list Z) (m : gmap Z V) i :
  foldr delete m l !! i = if decide (i ∈ l) then None else m !! i.
Proof.
  induction l as [|j l IH]; simpl; [done|].
  destruct (decide (i = j)) as [->|].
  - rewrite lookup_delete_eq, decide_True by set_solver. done.
  - rewrite lookup_delete_ne, IH by done. repeat case_decide; set_solver.
Qed.

Lemma truncate_outbox_to_ok head to t :
  outbox_within head t → 0 ≤ to < t_outbox_tail t → t_outbox_tail t ≤ u64_max →
  (truncate_outbox_to head to t).2 =
    upd_outbox (λ m, filter (λ kv, to < kv.1) m) t ∧
  outbox_within (truncate_outbox_to head to t).1 (truncate_outbox_to head to t).2.
Proof.
  intros [Hh Hi] Ht Hu. unfold truncate_outbox_to. rewrite as_u64_id by (unfold in_u; lia). destruct (Z.ltb_spec to head); simpl.
  - split; [|done]. unfold upd_outbox. destruct t; simpl in *. f_equal. symmetry.
    apply map_eq. intros i. destruct (t_outbox !! i) as [m|] eqn:Hm.
    + apply map_lookup_filter_Some. split; [done|]. simpl. apply Hi in Hm. lia.
    + apply map_lookup_filter_None. by left.
  - assert (foldr delete (t_outbox t) (seqZ head (to - head + 1)) = filter (λ kv, to < kv.1) (t_outbox t))
      as Hf.
    { apply map_eq. intros i. rewrite foldr_delete_lookup. symmetry. case_decide as Hin.
      - apply elem_of_seqZ in Hin. apply map_lookup_filter_None. right. intros x Hx. simpl. lia.
      - rewrite elem_of_seqZ in Hin. destruct (t_outbox t !! i) as [m|] eqn:Hm.
        + apply map_lookup_filter_Some. split; [done|]. simpl. apply Hi in Hm. lia.
        + apply map_lookup_filter_None. by left. }
    split; [unfold truncate_outbox, upd_outbox; by rewrite Hf|].
    split; simpl; [lia|]. rewrite Hf. intros i m [Hm Hto]%map_lookup_filter_Some. simpl in Hto.
    apply Hi in Hm. lia.
Qed.

(** ** Memory and store *)

Record agrees (m : Memory) (s : Store) : Prop := {
  ag_lsn : pm_last_applied_lsn m = default 0 (st_applied_lsn s);
  ag_features : pm_features m = st_features s;
  ag_schema : pm_schema m = st_schema s;
  ag_epoch : pm_epoch_metadata m = st_epoch_metadata s;
  ag_durable : pm_durable_point m = st_durability s;
  ag_esn : dedup_create (st_dedup s) = Some (pm_my_dedup_esn m);
  ag_trim : max_observed_durable_lsn (pm_trim_queue m)
            = Z.max 0 (default 0 (durable_point <$> st_durability s));
  ag_numbers : pm_numbers m = stored_numbers (st_tables s);
  ag_tail : in_u64 (t_outbox_tail (st_tables s));
  ag_outbox : outbox_within (pm_outbox_head m) (st_tables s);
  ag_coherent : coherent (st_tables s) (pm_vqueues m) }.

(** What the recovery relies on. *)
Record store_ok (s : Store) : Prop := {
  so_rows : rows_ok (st_tables s);
  so_tail : in_u64 (t_outbox_tail (st_tables s));
  so_outbox : ∃ head, outbox_within head (st_tables s);
  so_dedup : is_Some (dedup_create (st_dedup s)) }.

Lemma agrees_store_ok m s : agrees m s → store_ok s.
Proof. intros []. constructor; [apply ag_coherent0|done|by eexists|by eexists]. Qed.

Lemma create_ok {K : SlotKeys} `{!SlotKeysLaws} cap cutoff s :
  store_ok s → ∃ p, create cap cutoff s = Some p ∧ p_txn p = s ∧ p_actions p = [] ∧ p_db p = s ∧
    agrees (p_mem p) s.
Proof.
  intros [Hr Hu [head Ho] [esn He]]. unfold create. rewrite He. simpl. eexists. split; [done|].
  split_and!; [done..|]. constructor; cbn -[trim_push outbox_create cache_create Z.max]; try done.
  - destruct (st_durability s) as [d|]; [apply (trim_push_max d cutoff trim_default)|done].
  - by eapply outbox_create_within.
  - by apply cache_create_coherent.
Qed.

Lemma create_agrees {K : SlotKeys} `{!SlotKeysLaws} cap cutoff s p :
  store_ok s → create cap cutoff s = Some p → p_txn p = s ∧ p_db p = s ∧ agrees (p_mem p) s.
Proof.
  intros Hs Hp. destruct (create_ok cap cutoff s Hs) as (p' & Hp' & ? & _ & ? & ?).
  rewrite Hp in Hp'. by injection Hp' as ->.
Qed.

(** ** Two processors with the same store *)

Definition twins (p1 p2 : Proc) : Prop :=
  p_txn p1 = p_txn p2 ∧ agrees (p_mem p1) (p_txn p1) ∧ agrees (p_mem p2) (p_txn p2).

Definition alike {A} (m1 m2 : sm Proc ProcessorError A) : Prop := ∀ p1 p2, twins p1 p2 →
  match m1 p1, m2 p2 with
  | (p1', Ok a), (p2', Ok b) => a = b ∧ twins p1' p2'
  | (_, Err e1), (_, Err e2) => e1 = e2
  | (_, Panic), (_, Panic) => True
  | _, _ => False
  end.

Lemma alike_bind {A B} (m1 m2 : sm Proc ProcessorError A) (k1 k2 : A → sm Proc ProcessorError B) :
  alike m1 m2 → (∀ a, alike (k1 a) (k2 a)) → alike (sm_bind m1 k1) (sm_bind m2 k2).
Proof.
  intros Hm Hk p1 p2 Hp. specialize (Hm p1 p2 Hp). unfold sm_bind.
  destruct (m1 p1) as [p1' []], (m2 p2) as [p2' []]; try done. destruct Hm as [<- Hp']. by apply Hk.
Qed.
Lemma alike_ret {A} (a : A) : alike (sm_ret a) (sm_ret a).
Proof. by intros p1 p2 Hp. Qed.
Lemma alike_lift {A} (r : res ProcessorError A) : alike (sm_lift r) (sm_lift r).
Proof. intros p1 p2 Hp. by destruct r. Qed.

(** Changes that keep the agreement on both sides. *)
Lemma alike_modify (f1 f2 : Proc → Proc) :
  (∀ p1 p2, twins p1 p2 → twins (f1 p1) (f2 p2)) → alike (sm_modify f1) (sm_modify f2).
Proof. intros Hf p1 p2 Hp. split; [done|]. by apply Hf. Qed.

Lemma twins_esn p1 p2 : twins p1 p2 → pm_my_dedup_esn (p_mem p1) = pm_my_dedup_esn (p_mem p2).
Proof. intros (Ht & [] & []). rewrite Ht in *. congruence. Qed.
Lemma twins_trim p1 p2 : twins p1 p2 →
  max_observed_durable_lsn (pm_trim_queue (p_mem p1)) = max_observed_durable_lsn (pm_trim_queue (p_mem p2)).
Proof. intros (Ht & [] & []). rewrite Ht in *. congruence. Qed.

Lemma alike_store_dedup d : alike (store_dedup d) (store_dedup d).
Proof.
  intros p1 p2 Hp. unfold store_dedup. pose proof (twins_esn _ _ Hp) as Hesn. rewrite Hesn.
  destruct Hp as (Ht & H1 & H2).
  rewrite <- Ht in *. unfold store_dedup_information.
  destruct (dedup_information d) as [[producer n]|]; simpl.
  - unfold is_self_producer. case_bool_decide as Hs.
    + destruct n as [|e]; simpl; [done|]. split; [done|].
      assert (dedup_create (<[producer := Esn e]> (st_dedup (p_txn p1))) = Some e) as He
        by (unfold dedup_create; rewrite Hs; by rewrite lookup_insert_eq).
      split_and!; [done|..]; [destruct H1|destruct H2]; by constructor.
    + simpl. split; [done|].
      assert (dedup_create (<[producer := n]> (st_dedup (p_txn p1))) = dedup_create (st_dedup (p_txn p1)))
        as He by (unfold dedup_create; by rewrite lookup_insert_ne).
      split_and!; [done|..]; [destruct H1|destruct H2]; constructor; simpl; done || congruence.
  - split; [done|]. split_and!; [done|..]; [destruct H1|destruct H2]; constructor; simpl; done || congruence.
Qed.

Lemma alike_update_last_applied_lsn lsn :
  alike (update_last_applied_lsn lsn) (update_last_applied_lsn lsn).
Proof.
  apply alike_modify. intros p1 p2 (Ht & H1 & H2). split_and!; simpl; [by rewrite Ht|..];
    [destruct H1|destruct H2]; by constructor.
Qed.

Lemma alike_commit : alike commit commit.
Proof. by apply alike_modify. Qed.
Lemma alike_clear_actions : alike clear_actions clear_actions.
Proof. by apply alike_modify. Qed.

Lemma alike_set_epoch_metadata e : alike (set_epoch_metadata e) (set_epoch_metadata e).
Proof.
  intros p1 p2 Hp. unfold set_epoch_metadata. pose proof Hp as (Ht & H1 & H2).
  rewrite (ag_epoch _ _ H1), (ag_epoch _ _ H2), Ht.
  destruct (_ <? _); [|done].
  split; [done|]. split_and!; simpl; [done|..]; rewrite ?Ht in H1;
    [destruct H1|destruct H2]; by constructor.
Qed.

Lemma alike_on_announce_leader a : alike (on_announce_leader a) (on_announce_leader a).
Proof.
  apply alike_bind; [apply alike_commit|intros _].
  apply alike_bind; [apply alike_clear_actions|intros _].
  destruct (al_current_config a) as [[[[? ?] ?] ?]|]; [|apply alike_ret].
  apply alike_bind; [apply alike_lift|intros v]. apply alike_set_epoch_metadata.
Qed.

Lemma alike_on_update_durability pid l1 l2 target d :
  alike (on_update_durability pid l1 target d) (on_update_durability pid l2 target d).
Proof.
  unfold on_update_durability. destruct (negb _); [apply alike_ret|].
  intros p1 p2 Hp. pose proof (twins_trim _ _ Hp) as Hm. unfold sm_bind.
  pose proof (trim_push_max d (lc_cutoff l1) (pm_trim_queue (p_mem p1))) as M1.
  pose proof (trim_push_max d (lc_cutoff l2) (pm_trim_queue (p_mem p2))) as M2.
  assert ((trim_push d (lc_cutoff l1) (pm_trim_queue (p_mem p1))).2
          = (max_observed_durable_lsn (pm_trim_queue (p_mem p1)) <? durable_point d)) as R1 by done.
  assert ((trim_push d (lc_cutoff l2) (pm_trim_queue (p_mem p2))).2
          = (max_observed_durable_lsn (pm_trim_queue (p_mem p2)) <? durable_point d)) as R2 by done.
  destruct (trim_push d (lc_cutoff l1) _) as [q1 r1], (trim_push d (lc_cutoff l2) _) as [q2 r2].
  simpl in M1, M2, R1, R2. subst r1 r2. rewrite <- Hm in *. destruct Hp as (Ht & H1 & H2).
  pose proof (ag_trim _ _ H1) as T1.
  destruct (Z.ltb_spec (max_observed_durable_lsn (pm_trim_queue (p_mem p1))) (durable_point d));
    (split; [done|]; split_and!; simpl; [by rewrite Ht|..]);
    [destruct H1|destruct H2|destruct H1|destruct H2]; rewrite <- ?Ht in *;
    constructor; simpl; try done; lia.
Qed.

Lemma alike_on_upsert_schema s : alike (on_upsert_schema s) (on_upsert_schema s).
Proof.
  intros p1 p2 Hp. unfold on_upsert_schema. pose proof Hp as (Ht & H1 & H2).
  rewrite (ag_schema _ _ H1), (ag_schema _ _ H2), Ht.
  destruct (_ <? _); [|done].
  split; [done|]. split_and!; simpl; [done|..]; rewrite ?Ht in H1;
    [destruct H1|destruct H2]; by constructor.
Qed.

(** What is asked of an entry, given what the reference makes of it ([after]).  The
    messages that a truncation names exist: the shuffle proposes it for what it has
    sent.  The numbers of the messages that a record sends do not wrap around. *)
Definition entry_ok (s : Store) (e : LogEntry) (after : Proc) : Prop :=
  match e with
  | EntryData _ _ _ (TruncateOutbox index) => 0 ≤ index < t_outbox_tail (st_tables s)
  | EntryData _ _ _ (KeyScoped _) =>
      t_outbox_tail (st_tables s) + Z.of_nat (List.length (sent (p_actions after))) ≤ u64_max
  | _ => True
  end.

Lemma on_truncate_outbox_alike index p1 p2 :
  twins p1 p2 → 0 ≤ index < t_outbox_tail (st_tables (p_txn p1)) →
  twins (on_truncate_outbox index p1).1 (on_truncate_outbox index p2).1.
Proof.
  intros (Ht & H1 & H2) Hi. unfold on_truncate_outbox, sm_modify. simpl. rewrite <- Ht in *.
  destruct (truncate_outbox_to_ok _ index _ (ag_outbox _ _ H1) Hi) as [E1 W1]; [apply H1|].
  destruct (truncate_outbox_to_ok _ index _ (ag_outbox _ _ H2) Hi) as [E2 W2]; [apply H1|].
  destruct (truncate_outbox_to (pm_outbox_head (p_mem p1)) index _) as [h1 t1],
    (truncate_outbox_to (pm_outbox_head (p_mem p2)) index _) as [h2 t2]. simpl in *.
  rewrite <- E1 in E2. subst t2.
  assert (same_rows (st_tables (p_txn p1)) t1) as Hs by (by rewrite E1).
  assert (stored_numbers t1 = stored_numbers (st_tables (p_txn p1))) as Hnum by (by rewrite E1).
  assert (t_outbox_tail t1 = t_outbox_tail (st_tables (p_txn p1))) as Htail by (by rewrite E1).
  split_and!; [done|..]; [destruct H1|destruct H2]; constructor; simpl; try done;
    try (by eapply coherent_frame); try (by rewrite Htail); by rewrite Hnum.
Qed.

Lemma sm_bind_eq {S E A B} (m : sm S E A) (k : A → sm S E B) s :
  sm_bind m k s = match m s with
                  | (s', Ok a) => k a s' | (s', Err e) => (s', Err e) | (s', Panic) => (s', Panic)
                  end.
Proof. done. Qed.

Lemma process_data K D B62 B64 SK version pid l lsn at_ d c p :
  process_entry K D B62 B64 SK version pid l (EntryData lsn at_ d c) p =
  match is_duplicate (pm_my_dedup_esn (p_mem p)) d (st_dedup (p_txn p)) with
  | None => (p, Panic)
  | Some true => update_last_applied_lsn lsn p
  | Some false =>
      (apply_command_of K D B62 B64 SK version pid l lsn at_ c ;;
       (store_dedup d ;; update_last_applied_lsn lsn)) p
  end.
Proof.
  unfold process_entry, apply_log_entry, sm_bind. simpl.
  destruct (is_duplicate _ _ _) as [[]|]; simpl; [done| |done].
  destruct (apply_command_of _ _ _ _ _ _ _ _ _ _ _ p) as [p' []]; done.
Qed.

(** The outcomes of a command on two processors. *)
Definition outcomes_alike (x y : Proc * res ProcessorError unit) : Prop :=
  match x, y with
  | (p1', Ok _), (p2', Ok _) => twins p1' p2'
  | (_, Err e1), (_, Err e2) => e1 = e2
  | (_, Panic), (_, Panic) => True
  | _, _ => False
  end.

Lemma alike_outcomes (m1 m2 : sm Proc ProcessorError unit) p1 p2 :
  alike m1 m2 → twins p1 p2 → outcomes_alike (m1 p1) (m2 p2).
Proof.
  intros Hm Hp. specialize (Hm p1 p2 Hp). unfold outcomes_alike.
  destruct (m1 p1) as [? []], (m2 p2) as [? []]; try done. by destruct Hm.
Qed.

Lemma outcomes_bind x y (k : sm Proc ProcessorError unit) (m1 m2 : sm Proc ProcessorError unit) p1 p2 :
  m1 p1 = x → m2 p2 = y → outcomes_alike x y → alike k k →
  outcomes_alike ((m1 ;; k) p1) ((m2 ;; k) p2).
Proof.
  intros E1 E2 Hxy Hk. rewrite !sm_bind_eq, E1, E2.
  destruct x as [p1' []], y as [p2' []]; try done. by apply alike_outcomes.
Qed.

(** The position and the number of the command leave the actions alone. *)
Definition record_entry (lsn : Z) (d : Dedup) : sm Proc ProcessorError unit :=
  store_dedup d ;; update_last_applied_lsn lsn.

Lemma record_entry_actions lsn d p : p_actions (record_entry lsn d p).1 = p_actions p.
Proof.
  unfold record_entry. rewrite sm_bind_eq. unfold store_dedup.
  by destruct (store_dedup_information _ _ _) as [[]|].
Qed.
Lemma alike_record_entry lsn d : alike (record_entry lsn d) (record_entry lsn d).
Proof.
  apply alike_bind; [apply alike_store_dedup|intros _]. apply alike_update_last_applied_lsn.
Qed.

Section two_processors.
Context (K1 K2 : SlotKeys) `{!@SlotKeysLaws K1, !@SlotKeysLaws K2} (D : Digests) (B62 : Base62)
  (B64 : Base64) (SK : StateKeysCodec).
Context (restate_version : string) (pid : Z) (l1 l2 : Local)
  (Horder : alike_orders (lc_order l1) (lc_order l2)).
Abbreviation command1 := (apply_command_of K1 D B62 B64 SK restate_version pid l1).
Abbreviation command2 := (apply_command_of K2 D B62 B64 SK restate_version pid l2).

(** The second processor has sent nothing yet; the number after its last message
    does not wrap around. *)
Definition numbers_fit (p2 after : Proc) : Prop :=
  p_actions p2 = [] ∧
  t_outbox_tail (st_tables (p_txn p2)) + Z.of_nat (List.length (sent (p_actions after))) ≤ u64_max.

Lemma key_scoped_alike lsn at_ r p1 p2 :
  twins p1 p2 → numbers_fit p2 (command2 lsn at_ (KeyScoped r) p2).1 →
  outcomes_alike (command1 lsn at_ (KeyScoped r) p1) (command2 lsn at_ (KeyScoped r) p2).
Proof.
  intros (Ht & H1 & H2) [Hnil Hfit]. unfold apply_command_of, on_state_machine in *.
  set (C := record_ctx restate_version (p_mem p1) l1 lsn at_).
  assert (record_ctx restate_version (p_mem p2) l2 lsn at_
          = as_replica C (lc_leader l2) (lc_sample l2) (lc_order l2)) as HC.
  { unfold as_replica, C, record_ctx. simpl.
    by rewrite (ag_features _ _ H1), (ag_features _ _ H2), (ag_schema _ _ H1), (ag_schema _ _ H2), Ht. }
  rewrite HC, Hnil in *. clear HC. rewrite <- Ht in *.
  rewrite (ag_numbers _ _ H1), (ag_numbers _ _ H2) in *.
  set (s1 := mkV (st_tables (p_txn p1)) (pm_vqueues (p_mem p1)) (p_actions p1)
    (stored_numbers (st_tables (p_txn p1)))).
  set (s2 := mkV (st_tables (p_txn p1)) (pm_vqueues (p_mem p2)) []
    (stored_numbers (st_tables (p_txn p1)))) in *.
  assert (replicas s1 s2) as Hs by (split_and!; [done|apply H1|apply H2|done]).
  pose proof (on_apply_det K1 K2 D C B62 B64 SK (lc_leader l2) (lc_sample l2) (lc_order l2) Horder
    r s1 s2 Hs) as Hd.
  set (C2 := as_replica C (lc_leader l2) (lc_sample l2) (lc_order l2)) in *.
  destruct (@on_apply_outbox D K2 C2 B62 B64 SK r s2 eq_refl (ag_tail _ _ H1)) as [ms Hms].
  pose proof (@on_apply_synced D K1 C B62 B64 SK r s1 eq_refl) as N1.
  pose proof (@on_apply_synced D K2 C2 B62 B64 SK r s2 eq_refl) as N2.
  destruct (@on_apply D K1 C B62 B64 SK r s1) as [s1' [a1|e1|]],
    (@on_apply D K2 C2 B62 B64 SK r s2) as [s2' [a2|e2|]]; try done; [|by destruct Hd as [-> _]].
  simpl in N1, N2, Hms, Hfit. destruct Hd as (-> & Hts & C1 & C2' & _).
  assert (List.length (sent (v_actions s2')) = List.length ms) as Hlen.
  { rewrite (oa_sent _ _ _ Hms : sent (v_actions s2') = _). unfold numbered_from.
    by rewrite length_app, length_imap. }
  rewrite Hlen in Hfit.
  destruct (outbox_within_after _ _ _ _ Hms (ag_tail _ _ H1) Hfit (ag_outbox _ _ H1)) as [W1 U].
  destruct (outbox_within_after _ _ _ _ Hms (ag_tail _ _ H1) Hfit (ag_outbox _ _ H2)) as [W2 _].
  unfold synced in N1, N2. simpl in W1, W2, U. unfold twins. simpl. rewrite Hts in *.
  split_and!; [done|..]; [destruct H1|destruct H2]; constructor; simpl; try done;
    unfold pm_numbers; simpl; [by rewrite N1|by rewrite N2].
Qed.

Lemma process_entry_alike e p1 p2 :
  twins p1 p2 → p_actions p2 = [] →
  entry_ok (p_txn p2) e (process_entry K2 D B62 B64 SK restate_version pid l2 e p2).1 →
  outcomes_alike (process_entry K1 D B62 B64 SK restate_version pid l1 e p1)
    (process_entry K2 D B62 B64 SK restate_version pid l2 e p2).
Proof.
  intros Hp Hnil. destruct e as [lsn at_ d c|from to|from to|from to]; [|done| |done].
  - rewrite !process_data, (twins_esn _ _ Hp). pose proof (proj1 Hp) as Ht. rewrite Ht.
    destruct (is_duplicate _ d _) as [[]|]; [| |done].
    { intros _. by apply alike_outcomes; [apply alike_update_last_applied_lsn|]. }
    fold (record_entry lsn d). intros He. eapply outcomes_bind; [done..| |apply alike_record_entry].
    destruct c as [r|a|t d'|s|index].
    + apply key_scoped_alike; [done|]. split; [done|]. unfold entry_ok in He. rewrite sm_bind_eq in He.
      destruct (command2 lsn at_ (KeyScoped r) p2) as [p2' []]; [|exact He..].
      by rewrite record_entry_actions in He.
    + by apply alike_outcomes; [apply alike_on_announce_leader|].
    + by apply alike_outcomes; [apply alike_on_update_durability|].
    + by apply alike_outcomes; [apply alike_on_upsert_schema|].
    + apply (on_truncate_outbox_alike index p1 p2 Hp). by rewrite Ht.
  - intros _. by apply alike_outcomes; [apply alike_update_last_applied_lsn|].
Qed.
End two_processors.

(** ** What one entry does to the log position and to the committed store *)

Definition entry_end (e : LogEntry) : Z :=
  match e with
  | EntryData lsn _ _ _ => lsn
  | EntryTrimmed _ to | EntryFiltered _ to | EntryDataLoss _ to => to
  end.

Lemma store_dedup_db d p p' r : store_dedup d p = (p', r) → p_db p' = p_db p.
Proof.
  unfold store_dedup. destruct (store_dedup_information _ _ _) as [[]|]; by intros [= <- <-].
Qed.

Lemma announce_db a p p' r : on_announce_leader a p = (p', r) → p_db p' = p_txn p.
Proof.
  unfold on_announce_leader, commit, clear_actions, sm_modify. rewrite !sm_bind_eq. simpl.
  destruct (al_current_config a) as [[[[? ?] ?] ?]|]; [|by intros [= <- <-]].
  rewrite sm_bind_eq. unfold sm_lift. destruct (al_epoch_version a) as [v|]; simpl;
    [|by intros [= <- <-]].
  unfold set_epoch_metadata. simpl. destruct (_ <? _); by intros [= <- <-].
Qed.

Section one_entry.
Context (K : SlotKeys) (D : Digests) (B62 : Base62) (B64 : Base64) (SK : StateKeysCodec).
Context (version : string) (pid : Z).
Abbreviation process_entry := (process_entry K D B62 B64 SK version pid).

Lemma command_db l lsn at_ c p p' r :
  apply_command_of K D B62 B64 SK version pid l lsn at_ c p = (p', r) →
  p_db p' = p_db p ∨ p_db p' = p_txn p.
Proof.
  destruct c as [rec|a|t d|s|i]; simpl.
  - unfold on_state_machine. destruct (on_apply _ _). intros [= <- _]. by left.
  - intros H%announce_db. by right.
  - unfold on_update_durability. destruct (negb _); [intros [= <- _]; by left|].
    rewrite sm_bind_eq. destruct (trim_push _ _ _) as [q b]. simpl.
    destruct b; intros [= <- _]; by left.
  - unfold on_upsert_schema. destruct (_ <? _); intros [= <- _]; by left.
  - unfold on_truncate_outbox, sm_modify. destruct (truncate_outbox_to _ _ _).
    intros [= <- _]. by left.
Qed.

Lemma process_entry_effect l e p p' :
  process_entry l e p = (p', Ok tt) →
  st_applied_lsn (p_txn p') = Some (entry_end e) ∧ (p_db p' = p_db p ∨ p_db p' = p_txn p).
Proof.
  destruct e as [lsn at_ d c|from to|from to|from to]; [|done| |done].
  - rewrite process_data. destruct (is_duplicate _ _ _) as [[]|]; [|..|done].
    + intros [= <-]. split; [done|by left].
    + rewrite sm_bind_eq. destruct (apply_command_of _ _ _ _ _ _ _ _ _ _ _ p) as [p1 [[]| |]] eqn:Hc;
        [|done..]. apply command_db in Hc. rewrite sm_bind_eq.
      destruct (store_dedup d p1) as [p2 [[]| |]] eqn:Hd; [|done..]. apply store_dedup_db in Hd.
      intros [= <-]. split; [done|]. simpl. rewrite Hd. done.
  - intros [= <-]. split; [done|by left].
Qed.
End one_entry.

Lemma sorted_count z (l : list Z) n :
  StronglySorted Z.lt (z :: l) → (n ≤ List.length l)%nat →
  List.length (filter (λ x, x ≤ default z (last (take n l))) l) = n.
Proof.
  revert z n. induction l as [|a l IH]; intros z n Hs Hn; [simpl in *; lia|].
  apply StronglySorted_inv in Hs as [Hs Hf]. apply Forall_cons in Hf as [Ha Hf].
  destruct n as [|n]; simpl.
  - destruct (filter (λ x, x ≤ z) (a :: l)) as [|y k] eqn:Hy; [done|].
    assert (y ∈ filter (λ x, x ≤ z) (a :: l)) as [Hle Hin]%list_elem_of_filter by (rewrite Hy; left).
    rewrite Forall_forall in Hf. apply elem_of_cons in Hin as [->|Hin]; [lia|].
    apply Hf in Hin. lia.
  - rewrite last_cons, filter_cons. simpl in Hn.
    assert (default z (match last (take n l) with Some y => Some y | None => Some a end)
            = default a (last (take n l))) as -> by (by destruct (last (take n l))).
    rewrite decide_True.
    + simpl. f_equal. apply IH; [done|lia].
    + destruct (last (take n l)) as [y|] eqn:Hy; simpl; [|lia].
      apply StronglySorted_inv in Hs as [_ Hg]. apply last_Some in Hy as [l' Hy].
      rewrite Forall_forall in Hg. apply Z.lt_le_incl, Hg, (subseteq_take n). rewrite Hy. set_solver.
Qed.

(** ** Executions with crashes *)

Section executions.
Context (D : Digests) (B62 : Base62) (B64 : Base64) (SK : StateKeysCodec).
Context (version : string) (pid : Z).
(** The replicas that take part, the first store and the log. *)
Context (allowed : Local → Prop) (db0 : Store) (log : list LogEntry).
Abbreviation process K := (process_entry K D B62 B64 SK version pid).

(** Where reading resumes: after the entries up to the applied position. *)
Definition resume_at (lsn : Z) : nat :=
  List.length (filter (λ e, entry_end e ≤ lsn) log).

Inductive reaches : nat → Proc → Prop :=
| reaches_start K cap cutoff p :
    @SlotKeysLaws K → @create K cap cutoff db0 = Some p → reaches 0 p
| reaches_entry K n l e p p' :
    @SlotKeysLaws K → allowed l → reaches n p → log !! n = Some e →
    process K l e p = (p', Ok tt) → reaches (S n) p'
| reaches_begin n p :
    reaches n p → p_txn p = p_db p → reaches n (mkProc (p_mem p) (p_db p) (p_db p) [])
| reaches_commit n can p p' :
    reaches n p → (commit ;; compact can) p = (p', Ok tt) → reaches n p'
| reaches_restart K n cap cutoff p p' :
    @SlotKeysLaws K → reaches n p → @create K cap cutoff (p_db p) = Some p' →
    reaches (resume_at (pm_last_applied_lsn (p_mem p'))) p'.

(** The log is ordered and starts behind the position of the first store. *)
Definition log_ordered : Prop :=
  StronglySorted Z.lt (default 0 (st_applied_lsn db0) :: (entry_end <$> log)).

(** The position of the [n]-th entry, and of the first store before it. *)
Definition position (n : nat) : Z :=
  default (default 0 (st_applied_lsn db0)) (last (take n (entry_end <$> log))).

Lemma position_S n e : log !! n = Some e → position (S n) = entry_end e.
Proof.
  intros He. unfold position.
  rewrite (take_S_r _ _ (entry_end e)), last_snoc; [done|]. by rewrite list_lookup_fmap, He.
Qed.

Lemma resume_at_position n :
  log_ordered → (n ≤ List.length log)%nat → resume_at (position n) = n.
Proof.
  intros Ho Hn. unfold resume_at.
  etrans; [|apply (sorted_count _ (entry_end <$> log) n Ho); by rewrite length_fmap].
  fold (position n). generalize (position n). intros x.
  clear. induction log as [|e l IH]; [done|]. rewrite fmap_cons, !filter_cons.
  case_decide; simpl; by rewrite IH.
Qed.

Lemma compact_ok can p p' :
  (commit ;; compact can) p = (p', Ok tt) →
  Forall (λ h, can h = true) (pending_purges (pm_vqueues (p_mem p))) ∧
  ∃ c k, try_compact (E := Error) can (pm_vqueues (p_mem p)) = (c, k) ∧
    p' = mkProc (pm_with_vqueues c (p_mem p)) (p_txn p) (p_txn p) (p_actions p).
Proof.
  unfold commit, sm_modify, compact. rewrite sm_bind_eq. simpl.
  destruct (try_compact can _) as [c k] eqn:Ec. intros Hp. split; [|by exists c, k; injection Hp as <- _].
  apply (try_compact_accepts (E := Error)). rewrite Ec. destruct k; [by eexists|done..].
Qed.

(** A batch of the next entries of the log. *)
Lemma entries_reach K n entries p p' :
  @SlotKeysLaws K → entries.*2 = take (List.length entries) (drop n log) → Forall allowed entries.*1 → reaches n p →
  sm_for (λ le, process K le.1 le.2) entries p = (p', Ok tt) →
  reaches (n + List.length entries) p'.
Proof.
  intros HK. revert n p. induction entries as [|[l e] entries IH]; intros n p He Hl Hr; simpl.
  - intros [= <-]. by rewrite Nat.add_0_r.
  - rewrite sm_bind_eq. simpl. destruct (process K l e p) as [p1 [[]| |]] eqn:Hp; [|done..].
    intros Hf. destruct (drop n log) as [|e' rest] eqn:Hd; [done|]. injection He as <- He.
    apply Forall_cons in Hl as [Hl1 Hl].
    assert (log !! n = Some e) as Hle.
    { rewrite <- (Nat.add_0_r n), <- lookup_drop, Hd. done. }
    replace (n + S (List.length entries))%nat with (S n + List.length entries)%nat by lia.
    apply (IH (S n) p1); [|done|by eapply reaches_entry|done].
    rewrite (drop_S _ _ _ Hle) in Hd. injection Hd as Hd. rewrite Hd. exact He.
Qed.

Lemma batch_reaches K n entries can p p' :
  @SlotKeysLaws K → entries.*2 = take (List.length entries) (drop n log) →
  Forall allowed entries.*1 → reaches n p → p_txn p = p_db p →
  process_batch K D B62 B64 SK version pid entries can p = (p', Ok tt) →
  reaches (n + List.length entries) p' ∧ p_txn p' = p_db p'.
Proof.
  intros HK He Hl Hr Ht Hb. unfold process_batch in Hb. rewrite sm_bind_eq in Hb. simpl in Hb.
  rewrite sm_bind_eq in Hb.
  destruct (sm_for _ _ _) as [p1 [[]| |]] eqn:Hf; [|done..].
  assert (reaches (n + List.length entries) p1) as H1 by (by eapply entries_reach; [..|apply reaches_begin|]).
  split; [by eapply reaches_commit|]. unfold commit, sm_modify, compact in Hb.
  rewrite sm_bind_eq in Hb. simpl in Hb. destruct (try_compact _ _) as [c r]. by injection Hb as <- _.
Qed.
End executions.

(** ** The reference execution *)

Section recovery.
Context (D : Digests) (B62 : Base62) (B64 : Base64) (SK : StateKeysCodec).
Context (order : gset ServiceInvocationResponseSink → list ServiceInvocationResponseSink)
  (version : string) (pid : Z).
Abbreviation process K := (process_entry K D B62 B64 SK version pid).

(** A follower that recovers from the store, applies one entry and stops. *)
Definition follower : Local :=
  {| lc_leader := false; lc_sample := λ _ _ _, false; lc_order := order; lc_cutoff := 0 |}.

Definition ref_step (s : Store) (e : LogEntry) : res ProcessorError Store :=
  match create 0 0 s with
  | None => Panic
  | Some p => let '(p', r) := process fresh_keys follower e p in
              match r with Ok _ => Ok (p_txn p') | Err err => Err err | Panic => Panic end
  end.

Fixpoint ref_run (s : Store) (log : list LogEntry) : res ProcessorError Store :=
  match log with
  | [] => Ok s
  | e :: log => let? s' := ref_step s e in ref_run s' log
  end.

Lemma ref_run_app s l1 l2 :
  ref_run s (l1 ++ l2) = (let? s' := ref_run s l1 in ref_run s' l2).
Proof.
  revert s. induction l1 as [|e l1 IH]; intros s; simpl; [done|].
  destruct (ref_step s e); simpl; done.
Qed.

(** The entry is as the reference needs it. *)
Definition ref_entry_ok (s : Store) (e : LogEntry) : Prop :=
  ∀ q, create 0 0 s = Some q → entry_ok s e (process fresh_keys follower e q).1.

(** A processor and the reference make the same step. *)
Lemma process_refines K `{!@SlotKeysLaws K} l e p :
  alike_orders (lc_order l) order → agrees (p_mem p) (p_txn p) → ref_entry_ok (p_txn p) e →
  match process K l e p with
  | (p', Ok _) => ref_step (p_txn p) e = Ok (p_txn p') ∧ agrees (p_mem p') (p_txn p')
  | (_, Err err) => ref_step (p_txn p) e = Err err
  | (_, Panic) => ref_step (p_txn p) e = Panic
  end.
Proof.
  intros Hl Ha He. unfold ref_step.
  destruct (create_ok (K := fresh_keys) 0 0 (p_txn p)) as (q & Hc & Hq & Hqn & _ & Hqa);
    [by eapply agrees_store_ok|]. rewrite Hc.
  assert (twins p q) as Ht by (unfold twins; rewrite Hq; by split_and!).
  pose proof (process_entry_alike K fresh_keys D B62 B64 SK version pid l follower Hl e p q Ht Hqn)
    as Hs. rewrite Hq in Hs. specialize (Hs (He q Hc)). unfold outcomes_alike in Hs.
  destruct (process K l e p) as [p' [[]|err|]], (process fresh_keys follower e q) as [q' [[]|err'|]];
    try done; [|by rewrite Hs].
  destruct Hs as (Hs & ? & _). split; [by rewrite Hs|done].
Qed.

Context (allowed : Local → Prop) (Hallowed : ∀ l, allowed l → alike_orders (lc_order l) order).
Context (db0 : Store) (log : list LogEntry).
Abbreviation reaches := (reaches D B62 B64 SK version pid allowed db0 log).

(** Every entry of the log is as the reference needs it, when it comes to it. *)
Definition log_conforms : Prop :=
  ∀ n s e, ref_run db0 (take n log) = Ok s → log !! n = Some e → ref_entry_ok s e.

Lemma ref_run_step n s e s' :
  ref_run db0 (take n log) = Ok s → log !! n = Some e → ref_step s e = Ok s' →
  ref_run db0 (take (S n) log) = Ok s'.
Proof.
  intros Hr He Hs. rewrite (take_S_r _ _ e), ref_run_app, Hr by done. simpl. by rewrite Hs.
Qed.

(** The position of a store is that of the last entry it has applied. *)
Lemma ref_step_position s e s' : ref_step s e = Ok s' → st_applied_lsn s' = Some (entry_end e).
Proof.
  unfold ref_step. destruct (create 0 0 s) as [p|]; [|done].
  destruct (process fresh_keys follower e p) as [p' [[]| |]] eqn:Hp; intros [= <-].
  by apply process_entry_effect in Hp as [? _].
Qed.

Lemma ref_run_position n s :
  (n ≤ List.length log)%nat → ref_run db0 (take n log) = Ok s →
  default 0 (st_applied_lsn s) = position db0 log n.
Proof.
  intros Hn Hr. destruct n as [|n]; [by injection Hr as <-|].
  destruct (lookup_lt_is_Some_2 log n) as [e He]; [lia|].
  rewrite (take_S_r _ _ e), ref_run_app in Hr by done.
  destruct (ref_run db0 (take n log)) as [s1| |]; try done. simpl in Hr.
  destruct (ref_step s1 e) as [s2| |] eqn:Hs; try done. injection Hr as <-.
  by rewrite (ref_step_position _ _ _ Hs), (position_S _ _ _ _ He).
Qed.

(** Every reachable processor is in the state of the reference execution, and so
    is the store it has committed. *)
Definition on_reference (n : nat) (p : Proc) : Prop :=
  (n ≤ List.length log)%nat ∧ ref_run db0 (take n log) = Ok (p_txn p) ∧
  agrees (p_mem p) (p_txn p) ∧
  ∃ c, (c ≤ n)%nat ∧ ref_run db0 (take c log) = Ok (p_db p) ∧ store_ok (p_db p).

Lemma reaches_reference n p :
  store_ok db0 → log_ordered db0 log → log_conforms → reaches n p → on_reference n p.
Proof.
  intros Hdb Ho Ht. induction 1 as [K cap cutoff p HK Hc|K n l e p p' HK Hl _ IH He Hp|n p _ IH Hp
    |n can p p' _ IH Hp|K n cap cutoff p p' HK _ IH Hc].
  - destruct (create_agrees cap cutoff db0 p Hdb Hc) as (E1 & E2 & Ha).
    unfold on_reference. rewrite E1, E2. split_and!; try done; [lia|].
    exists 0%nat. by split_and!.
  - destruct IH as (Hn & Hr & Ha & c & Hcn & Hrc & Hok).
    pose proof (process_refines K l e p (Hallowed l Hl) Ha (Ht _ _ _ Hr He)) as Hs. rewrite Hp in Hs.
    destruct Hs as [Hs Ha']. apply lookup_lt_Some in He as Hlt.
    split_and!; [lia|by eapply ref_run_step|done|].
    apply process_entry_effect in Hp as [_ [-> | ->]]; [exists c; by split_and!; [lia|..]|].
    exists n. split_and!; [lia|done|by eapply agrees_store_ok].
  - destruct IH as (Hn & Hr & Ha & Hc). unfold on_reference. simpl. rewrite <- Hp in *. done.
  - destruct IH as (Hn & Hr & Ha & _). destruct (compact_ok _ _ _ Hp) as (Hcan & c & k & Ec & ->).
    destruct (try_compact_coherent (E := Error) can _ _ (ag_coherent _ _ Ha) Hcan)
      as (c' & k' & Ec' & Hc'). rewrite Ec in Ec'. injection Ec' as -> _.
    unfold on_reference. simpl. split_and!; try done.
    + destruct Ha. by constructor.
    + exists n. split_and!; [done|done|by eapply agrees_store_ok].
  - destruct IH as (Hn & Hr & Ha & c & Hcn & Hrc & Hok).
    destruct (create_agrees cap cutoff _ p' Hok Hc) as (E1 & E2 & Ha').
    rewrite (ag_lsn _ _ Ha'), (ref_run_position c), (resume_at_position db0 log c) by (done || lia).
    unfold on_reference. rewrite E1, E2. split_and!; try done; [lia|]. exists c. by split_and!.
Qed.

End recovery.

(** ** The theorem *)

(** C1: crash recovery.  A partition processor that applies a log in batches of any
    size, commits, compacts its queue cache, and is restarted from its committed
    store at any point, always has the store of the reference execution, which
    recovers from the store before every single entry; its memory agrees with the
    store (the cached outbox and inbox numbers included), the committed store is that
    of an earlier position, a restart does not panic, the next entry has the
    outcome of the reference, and a batch of the next entries that succeeds commits the
    store of the reference after them.  The roles, samples, clocks and caches of the processor may
    change at any entry.

    The conditions: the first store is well-formed ([store_ok], as the empty one is); the
    log is ordered and starts behind the first store; truncations
    of the outbox name messages below its tail and the numbers of the messages sent
    do not wrap around, both as the reference execution has them; every processor runs
    the same server version and iterates the response sinks for other partitions
    in the order of the reference (the order among other sinks is free), which the
    code ensures only for sets with one such sink. *)
Theorem crash_recovery_refinement (D : Digests) (B62 : Base62) (B64 : Base64) (SK : StateKeysCodec)
    (order : gset ServiceInvocationResponseSink → list ServiceInvocationResponseSink)
    (version : string) (pid : Z) (allowed : Local → Prop) (db0 : Store) (log : list LogEntry)
    (n : nat) (p : Proc) :
  store_ok db0 → log_ordered db0 log →
  (∀ l, allowed l → alike_orders (lc_order l) order) →
  log_conforms D B62 B64 SK order version pid db0 log →
  reaches D B62 B64 SK version pid allowed db0 log n p →
  ref_run D B62 B64 SK order version pid db0 (take n log) = Ok (p_txn p) ∧
  agrees (p_mem p) (p_txn p) ∧
  (∃ c, (c ≤ n)%nat ∧ ref_run D B62 B64 SK order version pid db0 (take c log) = Ok (p_db p)) ∧
  (∀ K cap cutoff, @SlotKeysLaws K → is_Some (@create K cap cutoff (p_db p))) ∧
  (∀ K l e, @SlotKeysLaws K → allowed l → log !! n = Some e →
     match process_entry K D B62 B64 SK version pid l e p with
     | (p', Ok _) => ref_step D B62 B64 SK order version pid (p_txn p) e = Ok (p_txn p')
     | (_, Err err) => ref_step D B62 B64 SK order version pid (p_txn p) e = Err err
     | (_, Panic) => ref_step D B62 B64 SK order version pid (p_txn p) e = Panic
     end) ∧
  (∀ K entries can p', @SlotKeysLaws K → p_txn p = p_db p → Forall allowed entries.*1 →
     entries.*2 = take (List.length entries) (drop n log) →
     process_batch K D B62 B64 SK version pid entries can p = (p', Ok tt) →
     ref_run D B62 B64 SK order version pid db0 (take (n + List.length entries) log)
       = Ok (p_db p')).
Proof.
  intros Hdb Ho Hl Ht Hr.
  pose proof (λ n p, reaches_reference D B62 B64 SK order version pid allowed Hl db0 log n p Hdb Ho Ht)
    as Href. destruct (Href n p Hr) as (Hn & Hrun & Ha & c & Hc & Hrc & Hok).
  split_and!; [done|done|by eauto| | |].
  - intros K cap cutoff HK. destruct (create_ok cap cutoff (p_db p) Hok) as (p' & -> & _). by eexists.
  - intros K l e HK Hal He.
    pose proof (process_refines D B62 B64 SK order version pid K l e p (Hl l Hal) Ha
      (Ht _ _ _ Hrun He)) as Hs.
    destruct (process_entry _ _ _ _ _ _ _ l e p) as [p' []]; [by destruct Hs|done..].
  - intros K entries can p' HK Hdbp Hal He Hb.
    destruct (batch_reaches _ _ _ _ _ _ _ _ _ _ _ _ _ _ _ HK He Hal Hr Hdbp Hb) as [Hr' <-].
    by destruct (Href _ _ Hr') as (_ & ? & _).
Qed.

Definition demo_store : Store :=
  mkStore empty_tables ∅ None demo_features None None None.
Definition demo_log : list LogEntry :=
  [ EntryData 1 1700000000000 (DedupForeignPartition 3 4) (KeyScoped (CmdInvoke demo_invocation));
    EntryFiltered 2 5;
    EntryData 6 1700000000100 (DedupForeignPartition 3 4) (KeyScoped (CmdInvoke demo_invocation)) ].

Lemma demo_store_ok : store_ok demo_store.
Proof.
  constructor; [apply empty_rows_ok|done| |by eexists]. exists 0. split; [done|].
  intros i m Hm. simpl in Hm. by rewrite lookup_empty in Hm.
Qed.
Lemma demo_log_ordered : log_ordered demo_store demo_log.
Proof. repeat constructor. Qed.

(** The reference iterates the sinks in one order, the replica, a leader, in another. *)
Abbreviation ref_order := (λ s : gset ServiceInvocationResponseSink, elements s).
Definition demo_local : Local :=
  {| lc_leader := true; lc_sample := λ _ _ _, true; lc_order := demo_order; lc_cutoff := 0 |}.
Definition demo_allowed (l : Local) : Prop := alike_orders (lc_order l) ref_order.
Lemma demo_local_allowed : demo_allowed demo_local.
Proof. intros s. symmetry. apply demo_order_alike. Qed.

Definition demo_run (n : nat) : res ProcessorError Store :=
  ref_run _ _ _ _ ref_order "1.8.0" 1 demo_store (take n demo_log).
Definition demo_fits (n : nat) : bool :=
  match demo_run n, demo_log !! n with
  | Ok s, Some e =>
      match create (H := fresh_keys) 0 0 s with
      | Some q =>
          t_outbox_tail (st_tables s) + Z.of_nat (List.length (sent (p_actions
            (process_entry fresh_keys _ _ _ _ "1.8.0" 1 (follower ref_order) e q).1))) <=? u64_max
      | None => true
      end
  | _, _ => true
  end.
Lemma demo_all_fit : demo_fits 0 && demo_fits 1 && demo_fits 2 = true.
Proof. vm_compute. reflexivity. Qed.
Lemma demo_log_conforms : log_conforms _ _ _ _ ref_order "1.8.0" 1 demo_store demo_log.
Proof.
  intros n s e Hr He q Hq.
  assert (demo_fits n = true → entry_ok s e
    (process_entry fresh_keys _ _ _ _ "1.8.0" 1 (follower ref_order) e q).1) as Hf.
  { unfold demo_fits, demo_run. rewrite Hr, He, Hq, Z.leb_le. intros Hl.
    destruct n as [|[|[|n]]]; [injection He as <-..|discriminate He]; [exact Hl|exact I|exact Hl]. }
  apply Hf. destruct (andb_prop _ _ demo_all_fit) as [[H0 H1]%andb_prop H2].
  destruct n as [|[|[|n]]]; [exact H0|exact H1|exact H2|discriminate He].
Qed.

Abbreviation demo_process := (process_entry fresh_keys _ _ _ _ "1.8.0" 1 demo_local).

(** A processor that applies the first entry, commits, crashes and restarts. *)
Definition demo_proc0 : option Proc := create 16 0 demo_store.
Definition demo_proc1 : option Proc :=
  let! p := demo_proc0 in
  let! e := demo_log !! 0%nat in
  Some ((commit ;; compact (λ _, true)) (demo_process e p).1).1.
Definition demo_proc2 : option Proc :=
  let! p := demo_proc1 in create 8 3 (p_db p).

(** What the witness needs of the three processors, evaluated. *)
Definition outcome_ok {A} (r : res ProcessorError A) : bool :=
  match r with Ok _ => true | _ => false end.
Definition demo_facts : bool * bool * option nat * option nat :=
  (match demo_proc0, demo_log !! 0%nat with
   | Some p, Some e => outcome_ok (demo_process e p).2
   | _, _ => false
   end,
   match demo_proc0, demo_log !! 0%nat with
   | Some p, Some e => outcome_ok ((commit ;; compact (λ _, true)) (demo_process e p).1).2
   | _, _ => false
   end,
   option_map (λ p, resume_at demo_log (pm_last_applied_lsn (p_mem p))) demo_proc2,
   option_map (λ p, size (t_vqmeta (st_tables (p_txn p)))) demo_proc2).
Lemma demo_facts_hold : demo_facts = (true, true, Some 1%nat, Some 1%nat).
Proof. vm_compute. reflexivity. Qed.

Lemma outcome_ok_eq {S} (x : S * res ProcessorError unit) : outcome_ok x.2 = true → x = (x.1, Ok tt).
Proof. destruct x as [s [[]|e|]]; simpl; done. Qed.

Lemma quad_eq {A B C D} (a a' : A) (b b' : B) (c c' : C) (d d' : D) :
  (a, b, c, d) = (a', b', c', d') → a = a' ∧ b = b' ∧ c = c' ∧ d = d'.
Proof. by intros [= -> -> -> ->]. Qed.

Lemma demo_reaches :
  ∃ p, demo_proc2 = Some p ∧
    reaches _ _ _ _ "1.8.0" 1 demo_allowed demo_store demo_log 1 p ∧
    size (t_vqmeta (st_tables (p_txn p))) = 1%nat.
Proof.
  pose proof demo_facts_hold as F. unfold demo_facts in F.
  destruct demo_proc0 as [p0|] eqn:E0; [|discriminate F].
  change (demo_log !! 0%nat) with (head demo_log) in F. simpl head in F.
  apply quad_eq in F as (F1 & F2 & F3 & F4). apply outcome_ok_eq in F1, F2.
  destruct demo_proc2 as [p2|] eqn:E2; [|discriminate F3].
  apply (inj Some) in F3, F4.
  exists p2. split; [done|]. split; [|done].
  unfold demo_proc2, demo_proc1 in E2. rewrite E0 in E2.
  change (demo_log !! 0%nat) with (head demo_log) in E2. simpl head in E2.
  rewrite <- F3. eapply reaches_restart; [apply fresh_keys_laws| |exact E2].
  eapply (reaches_commit _ _ _ _ _ _ _ _ _ 1 (λ _, true)); [|exact F2].
  eapply (reaches_entry _ _ _ _ _ _ _ _ _ fresh_keys 0 demo_local);
    [apply fresh_keys_laws|apply demo_local_allowed|exact (reaches_start _ _ _ _ _ _ _ _ _ fresh_keys 16 0 p0 fresh_keys_laws E0)
    |reflexivity|exact F1].
Qed.

Lemma crash_recovery_refinement_witness :
  ∃ p, demo_proc2 = Some p ∧
    ref_run _ _ _ _ ref_order "1.8.0" 1 demo_store (take 1 demo_log) = Ok (p_txn p) ∧
    size (t_vqmeta (st_tables (p_txn p))) = 1%nat.
Proof.
  destruct demo_reaches as (p & Hp & Hr & Hs). exists p. split; [done|]. split; [|done].
  exact (proj1 (crash_recovery_refinement _ _ _ _ ref_order _ _ demo_allowed demo_store demo_log 1 p
    demo_store_ok demo_log_ordered (λ l Hl, Hl) demo_log_conforms Hr)).
Defined.
