(* ===== verification/Dedup.v ===== *)
(** * Exactly-once application of commands

    A producer numbers its commands.  Once a command has been applied, no command
    of that producer with the same or a smaller number is applied: it only
    advances the position.  For the proposals of the partition itself the numbers
    are ordered by leader epoch first, which fences off older leaders. *)

From stdpp Require Import strings.
From S2P Require Import Prelude Clock TrimQueue Invocation InvocationStatus JournalV1 IdText.
From S2P Require Import VQueueMeta PartitionStore VQueueCache VQueue StateMachineBase.
From S2P Require Import InvocationLifecycle JournalEntries JournalV1Handlers StateMachine.
From S2P Require Import Replicas Demo Processor Recovery.

Open Scope Z_scope.

(** ** The order of sequence numbers *)

Lemma esn_ge_iff a b :
  esn_ge a b = true ↔
  esn_leader_epoch b < esn_leader_epoch a ∨
  (esn_leader_epoch b = esn_leader_epoch a ∧ esn_sequence_number b ≤ esn_sequence_number a).
Proof.
  unfold esn_ge, then_with.
  destruct (Z.compare_spec (esn_leader_epoch a) (esn_leader_epoch b)),
    (Z.compare_spec (esn_sequence_number a) (esn_sequence_number b)); split; intros; try done; lia.
Qed.

Lemma esn_ge_trans a b c : esn_ge a b = true → esn_ge b c = true → esn_ge a c = true.
Proof. rewrite !esn_ge_iff. lia. Qed.
Lemma esn_ge_total a b : esn_ge a b = false → esn_ge b a = true.
Proof.
  intros H. destruct (esn_ge b a) eqn:E; [done|]. exfalso.
  assert (¬ (esn_ge a b = true)) as Ha by congruence. assert (¬ (esn_ge b a = true)) as Hb by congruence.
  rewrite esn_ge_iff in Ha, Hb. lia.
Qed.
Lemma esn_ge_refl a : esn_ge a a = true.
Proof. rewrite esn_ge_iff. lia. Qed.

(** [n' ≤ n], for numbers of the same kind. *)
Definition number_ge (n n' : DedupSequenceNumber) : bool :=
  match n, n' with
  | Sn a, Sn b => b <=? a
  | Esn a, Esn b => esn_ge a b
  | _, _ => false
  end.

Lemma number_ge_trans a b c : number_ge a b = true → number_ge b c = true → number_ge a c = true.
Proof.
  destruct a, b, c; simpl; try done; [rewrite !Z.leb_le; lia|apply esn_ge_trans].
Qed.

(** ** What a store has seen *)

Definition own_esn (s : Store) : EpochSequenceNumber := default initial_esn (dedup_create (st_dedup s)).

Definition has_seen (s : Store) (d : Dedup) : Prop :=
  is_duplicate (own_esn s) d (st_dedup s) = Some true.

(** The last number of a producer; the own producer starts with the initial one. *)
Definition last_number (s : Store) (producer : ProducerId) : option DedupSequenceNumber :=
  if is_self_producer producer then Some (Esn (own_esn s)) else st_dedup s !! producer.

Lemma has_seen_iff s d producer n :
  dedup_information d = Some (producer, n) →
  has_seen s d ↔ ∃ m, last_number s producer = Some m ∧ number_ge m n = true.
Proof.
  intros Hd. unfold has_seen, is_duplicate, last_number. rewrite Hd.
  destruct (is_self_producer producer).
  - destruct n; (split; [intros [= E]; by eexists|intros (m & [= <-] & E); simpl in E; try done; by rewrite E]).
  - destruct (st_dedup s !! producer) as [[]|]; destruct n;
      (split; [intros [= E]; by eexists|intros (m & [= <-] & E); simpl in E; try done; by rewrite E]).
Qed.

(** The number of a command that is applied is larger than the last one. *)
Lemma fresh_number s d producer n m :
  dedup_information d = Some (producer, n) →
  is_duplicate (own_esn s) d (st_dedup s) = Some false →
  last_number s producer = Some m → number_ge n m = true.
Proof.
  intros Hd. unfold is_duplicate, last_number. rewrite Hd. destruct (is_self_producer producer).
  - destruct n; [done|]. intros [= He] [= <-]. simpl. by apply esn_ge_total.
  - intros H1 H2. rewrite H2 in H1. destruct m, n; simpl in *; try done.
    + injection H1 as H1. apply Z.leb_gt in H1. apply Z.leb_le. lia.
    + injection H1 as H1. by apply esn_ge_total.
Qed.

(** ** One entry *)

Definition at_position (lsn : Z) (s : Store) : Store :=
  mkStore (st_tables s) (st_dedup s) (Some lsn) (st_features s) (st_schema s) (st_epoch_metadata s)
    (st_durability s).

Lemma number_ge_refl n : number_ge n n = true.
Proof. destruct n; simpl; [by apply Z.leb_refl|apply esn_ge_refl]. Qed.

Lemma last_number_insert s producer n s' q :
  st_dedup s' = <[ producer := n ]> (st_dedup s) →
  (is_self_producer producer = true → ∃ e, n = Esn e) →
  last_number s' q = if decide (q = producer) then Some n else last_number s q.
Proof.
  intros Hs Hn. unfold last_number, own_esn, dedup_create. rewrite Hs.
  unfold is_self_producer in *. destruct (decide (q = producer)) as [->|Hne].
  - case_bool_decide as Hp; [|by rewrite lookup_insert_eq].
    destruct Hn as [e ->]; [done|]. by rewrite Hp, lookup_insert_eq.
  - clear Hn. case_bool_decide; rewrite lookup_insert_ne by congruence; done.
Qed.

Section dedup.
Context (D : Digests) (B62 : Base62) (B64 : Base64) (SK : StateKeysCodec).
Context (version : string) (pid : Z).
Abbreviation process K := (process_entry K D B62 B64 SK version pid).

Lemma command_dedup K l lsn at_ c p p' r :
  apply_command_of K D B62 B64 SK version pid l lsn at_ c p = (p', r) →
  st_dedup (p_txn p') = st_dedup (p_txn p) ∧ pm_my_dedup_esn (p_mem p') = pm_my_dedup_esn (p_mem p).
Proof.
  destruct c as [rec|a|t d|s|i]; simpl.
  - unfold on_state_machine. destruct (on_apply _ _). by intros [= <- _].
  - unfold on_announce_leader, commit, clear_actions, sm_modify. rewrite !sm_bind_eq. simpl.
    destruct (al_current_config a) as [[[[? ?] ?] ?]|]; [|by intros [= <- <-]].
    rewrite sm_bind_eq. unfold sm_lift. destruct (al_epoch_version a) as [v|]; simpl;
      [|by intros [= <- <-]].
    unfold set_epoch_metadata. simpl. destruct (_ <? _); by intros [= <- <-].
  - unfold on_update_durability. destruct (negb _); [by intros [= <- _]|].
    rewrite sm_bind_eq. destruct (trim_push _ _ _) as [q b]. simpl. destruct b; by intros [= <- _].
  - unfold on_upsert_schema. destruct (_ <? _); by intros [= <- _].
  - unfold on_truncate_outbox, sm_modify. destruct (truncate_outbox_to _ _ _). by intros [= <- _].
Qed.

(** The number of the own proposals in memory is the stored one. *)
Definition own_loaded (p : Proc) : Prop :=
  dedup_create (st_dedup (p_txn p)) = Some (pm_my_dedup_esn (p_mem p)).

Lemma own_loaded_esn p : own_loaded p → own_esn (p_txn p) = pm_my_dedup_esn (p_mem p).
Proof. unfold own_loaded, own_esn. by intros ->. Qed.

Lemma store_dedup_loaded d p p' :
  own_loaded p → store_dedup d p = (p', Ok tt) →
  own_loaded p' ∧
  st_dedup (p_txn p') = match dedup_information d with
                        | Some (producer, n) => <[ producer := n ]> (st_dedup (p_txn p))
                        | None => st_dedup (p_txn p)
                        end.
Proof.
  unfold own_loaded, store_dedup, store_dedup_information. intros Ho.
  destruct (dedup_information d) as [[producer n]|]; simpl; [|by intros [= <-]].
  unfold is_self_producer, dedup_create in *. case_bool_decide as Hs.
  - destruct n as [|e]; simpl; [done|]. intros [= <-]. simpl. by rewrite Hs, lookup_insert_eq.
  - simpl. intros [= <-]. simpl. by rewrite lookup_insert_ne.
Qed.

(** Either the command was seen before, and only the position changes, or its
    number is recorded. *)
Lemma process_entry_dedup K l lsn at_ d c p p' :
  own_loaded p → process K l (EntryData lsn at_ d c) p = (p', Ok tt) →
  own_loaded p' ∧
  ((has_seen (p_txn p) d ∧ st_dedup (p_txn p') = st_dedup (p_txn p)) ∨
   (is_duplicate (own_esn (p_txn p)) d (st_dedup (p_txn p)) = Some false ∧
    st_dedup (p_txn p') = match dedup_information d with
                          | Some (producer, n) => <[ producer := n ]> (st_dedup (p_txn p))
                          | None => st_dedup (p_txn p)
                          end)).
Proof.
  intros Ho. unfold has_seen. rewrite process_data, <- (own_loaded_esn p Ho).
  destruct (is_duplicate _ d _) as [[]|]; [|..|done]; [intros [= <-]; auto|].
  rewrite sm_bind_eq.
  destruct (apply_command_of _ _ _ _ _ _ _ _ _ _ _ p) as [p1 [[]| |]] eqn:H1; [|done..].
  apply command_dedup in H1 as [E1 E2].
  assert (own_loaded p1) as Ho1 by (unfold own_loaded; by rewrite E1, E2).
  rewrite sm_bind_eq. destruct (store_dedup d p1) as [p2 [[]| |]] eqn:H2; [|done..].
  destruct (store_dedup_loaded _ _ _ Ho1 H2) as [Ho2 E]. rewrite E1 in E. intros [= <-]. auto.
Qed.

(** The numbers that a store has seen only grow. *)
Lemma last_number_step K l e p p' q m :
  own_loaded p → process K l e p = (p', Ok tt) → last_number (p_txn p) q = Some m →
  ∃ m', last_number (p_txn p') q = Some m' ∧ number_ge m' m = true.
Proof.
  intros Ho Hs Hm.
  assert (st_dedup (p_txn p') = st_dedup (p_txn p) → ∃ m', last_number (p_txn p') q = Some m' ∧
    number_ge m' m = true) as Hsame.
  { intros E. exists m. split; [|apply number_ge_refl]. unfold last_number, own_esn in *. by rewrite E. }
  destruct e as [lsn at_ d c|from to|from to|from to]; [|done| |done].
  - apply process_entry_dedup in Hs as [_ [[_ E]|[Hd E]]]; [by apply Hsame| |done].
    destruct (dedup_information d) as [[producer n]|] eqn:Hi; [|by apply Hsame].
    rewrite (last_number_insert _ producer n _ q E).
    + case_decide as Hq; [subst q|by exists m; split; [|apply number_ge_refl]].
      exists n. split; [done|]. by eapply fresh_number.
    + intros Hp. unfold is_duplicate in Hd. rewrite Hi, Hp in Hd. destruct n; [done|by eexists].
  - injection Hs as <-. by apply Hsame.
Qed.

(** After an entry, its command has been seen. *)
Lemma process_entry_seen K l lsn at_ d c p p' producer n :
  own_loaded p → process K l (EntryData lsn at_ d c) p = (p', Ok tt) →
  dedup_information d = Some (producer, n) →
  ∃ m, last_number (p_txn p') producer = Some m ∧ number_ge m n = true.
Proof.
  intros Ho Hs Hi. apply process_entry_dedup in Hs as [_ [[Hseen E]|[Hd E]]]; [| |done].
  - apply (has_seen_iff _ d producer n Hi) in Hseen as (m & Hm & G). exists m. split; [|done].
    unfold last_number, own_esn in *. by rewrite E.
  - rewrite Hi in E. exists n. rewrite (last_number_insert _ producer n _ producer E).
    + rewrite decide_True by done. split; [done|apply number_ge_refl].
    + intros Hp. unfold is_duplicate in Hd. rewrite Hi, Hp in Hd. destruct n; [done|by eexists].
Qed.

(** ** Executions *)

Context (allowed : Local → Prop) (db0 : Store) (log : list LogEntry).
Abbreviation reaches := (reaches D B62 B64 SK version pid allowed db0 log).

(** The store is at the [n]-th entry and has seen the commands before it. *)
Record seen_until (n : nat) (s : Store) : Prop := {
  su_bound : (n ≤ List.length log)%nat;
  su_position : default 0 (st_applied_lsn s) = position db0 log n;
  su_own : is_Some (dedup_create (st_dedup s));
  su_seen : ∀ i lsn at_ d c producer num,
    (i < n)%nat → log !! i = Some (EntryData lsn at_ d c) →
    dedup_information d = Some (producer, num) →
    ∃ m, last_number s producer = Some m ∧ number_ge m num = true }.

Lemma seen_step K l e n p p' :
  own_loaded p → seen_until n (p_txn p) → log !! n = Some e → process K l e p = (p', Ok tt) →
  own_loaded p' ∧ seen_until (S n) (p_txn p').
Proof.
  intros Ho [Hb Hp Hown Hs] He Hp'.
  assert (own_loaded p') as Ho'.
  { destruct e as [lsn at_ d c|from to|from to|from to]; [|done| |done].
    - by apply process_entry_dedup in Hp' as [? _].
    - by injection Hp' as <-. }
  split; [done|]. split.
  - by apply lookup_lt_Some in He.
  - apply process_entry_effect in Hp' as [-> _]. by rewrite (position_S _ _ _ _ He).
  - by eexists.
  - intros i lsn at_ d c producer num Hi Hl Hd. destruct (decide (i = n)) as [->|Hne].
    + rewrite He in Hl. injection Hl as ->. eapply process_entry_seen; [exact Ho|exact Hp'|exact Hd].
    + destruct (Hs i lsn at_ d c producer num) as (m & Hm & G); [lia|done..|].
      destruct (last_number_step _ _ _ _ _ _ _ Ho Hp' Hm) as (m' & Hm' & G').
      exists m'. split; [done|]. by eapply number_ge_trans.
Qed.

Lemma create_loaded K cap cutoff s p :
  @create K cap cutoff s = Some p →
  p_txn p = s ∧ p_db p = s ∧ own_loaded p ∧ pm_last_applied_lsn (p_mem p) = default 0 (st_applied_lsn s).
Proof.
  unfold create, own_loaded. destruct (dedup_create (st_dedup s)) eqn:E; [|done].
  intros [= <-]. by split_and!.
Qed.

(** Through batches and restarts. *)
Lemma reaches_seen n p :
  is_Some (dedup_create (st_dedup db0)) → log_ordered db0 log → reaches n p →
  own_loaded p ∧ seen_until n (p_txn p) ∧ ∃ c, seen_until c (p_db p).
Proof.
  intros Hdb Ho. induction 1 as [K cap cutoff p HK Hc|K n l e p p' HK Hl _ IH He Hp|n p _ IH Hp
    |n can p p' _ IH Hp|K n cap cutoff p p' HK _ IH Hc].
  - destruct (create_loaded _ _ _ _ _ Hc) as (E1 & E2 & Hown & _). rewrite E1, E2.
    assert (seen_until 0 db0) by (split; [apply Nat.le_0_l|done|done|intros; lia]). eauto.
  - destruct IH as (Hown & Hs & c & Hc). destruct (seen_step _ _ _ _ _ _ Hown Hs He Hp) as [Hown' Hs'].
    split_and!; [done..|]. apply process_entry_effect in Hp as [_ [-> | ->]]; eauto.
  - destruct IH as (Hown & Hs & Hc). rewrite <- Hp. unfold own_loaded in *. simpl. eauto.
  - destruct IH as (Hown & Hs & _). destruct (compact_ok _ _ _ Hp) as (_ & c & k & _ & ->).
    split_and!; [done..|]. eauto.
  - destruct IH as (_ & _ & c & Hs). destruct (create_loaded _ _ _ _ _ Hc) as (E1 & E2 & Hown & ->).
    rewrite E1, E2.
    rewrite (su_position _ _ Hs), resume_at_position by (done || apply Hs). eauto.
Qed.
End dedup.

(** ** The theorem *)

(** C5: exactly-once application.  Let the log have a command of a producer at a
    position the processor has passed, through any number of batches and restarts,
    and let the next entry carry a command of the same producer with the same or a
    smaller number: the processor does not apply it, whatever the command is, and
    only advances its position.  The log is ordered; nothing is asked of the replicas
    or of the commands. *)
Theorem applied_at_most_once (D : Digests) (B62 : Base62) (B64 : Base64) (SK : StateKeysCodec)
    (version : string) (pid : Z) (K : SlotKeys) (allowed : Local → Prop) (db0 : Store)
    (log : list LogEntry) (i n : nat) (p : Proc) (l : Local)
    lsn1 at1 d1 c1 lsn2 at2 d2 c2 (producer : ProducerId) (n1 n2 : DedupSequenceNumber) :
  is_Some (dedup_create (st_dedup db0)) → log_ordered db0 log →
  reaches D B62 B64 SK version pid allowed db0 log n p → (i < n)%nat →
  log !! i = Some (EntryData lsn1 at1 d1 c1) → log !! n = Some (EntryData lsn2 at2 d2 c2) →
  dedup_information d1 = Some (producer, n1) → dedup_information d2 = Some (producer, n2) →
  number_ge n1 n2 = true →
  ∃ p', process_entry K D B62 B64 SK version pid l (EntryData lsn2 at2 d2 c2) p = (p', Ok tt) ∧
        p_txn p' = at_position lsn2 (p_txn p) ∧ p_actions p' = p_actions p.
Proof.
  intros Hdb Ho Hr Hin H1 H2 E1 E2 Hge.
  destruct (reaches_seen _ _ _ _ _ _ _ _ _ _ _ Hdb Ho Hr) as (Hown & Hseen & _).
  destruct (su_seen _ _ _ _ Hseen _ _ _ _ _ _ _ Hin H1 E1) as (m & Hm & G).
  assert (has_seen (p_txn p) d2) as Hs.
  { apply (has_seen_iff _ _ _ _ E2). exists m. split; [done|]. by eapply number_ge_trans. }
  rewrite process_data. unfold has_seen in Hs. rewrite (own_loaded_esn p Hown) in Hs.
  rewrite Hs. by eexists.
Qed.

(** A processor restarts behind the first command of the demo log, passes a
    filtered gap and reads the command again. *)
Lemma applied_at_most_once_witness :
  ∃ p p', reaches _ _ _ _ "1.8.0" 1 demo_allowed demo_store demo_log 2 p ∧
    process_entry fresh_keys _ _ _ _ "1.8.0" 1 demo_local
      (EntryData 6 1700000000100 (DedupForeignPartition 3 4) (KeyScoped (CmdInvoke demo_invocation))) p
      = (p', Ok tt) ∧
    p_txn p' = at_position 6 (p_txn p).
Proof.
  destruct demo_reaches as (p & _ & Hr & _).
  assert (∃ q, reaches _ _ _ _ "1.8.0" 1 demo_allowed demo_store demo_log 2 q) as [q Hq].
  { eexists. eapply (reaches_entry _ _ _ _ _ _ _ _ _ fresh_keys 1 demo_local);
      [apply fresh_keys_laws|apply demo_local_allowed|exact Hr|reflexivity|reflexivity]. }
  exists q.
  destruct (applied_at_most_once _ _ _ _ _ _ fresh_keys demo_allowed demo_store demo_log 0 2 q
    demo_local
    1 1700000000000 (DedupForeignPartition 3 4) (KeyScoped (CmdInvoke demo_invocation))
    6 1700000000100 (DedupForeignPartition 3 4) (KeyScoped (CmdInvoke demo_invocation))
    (ProdPartition 3) (Sn 4) (Sn 4) (so_dedup _ demo_store_ok) demo_log_ordered Hq)
    as (p' & H1 & H2 & _); [lia|reflexivity..|by exists p'].
Defined.
